(* ===== verification/_CoqProject ===== *)
-Q . S2P
Prelude.v
RustStr.v
Vfs.v
VfsPool.v
Roster.v
Wire.v
Logs.v
Keychain.v
Blob.v
Trust.v
Store.v
StoreRoster.v
StoreSync.v
StoreKeys.v
Checkpoint.v
Textdiff.v
Rebase.v
Paths.v
Bridge.v
BridgeSpec.v
StoreEdit.v
Snapshots.v
Engine.v
EngineSpec.v
EngineSync.v
EngineBlob.v
LogLines.v
Relay.v
RelaySpec.v
RelaySync.v
RelayDeliver.v
Paper.v
Pairing.v
Enrol.v
PairingSpec.v
PairingRun.v
Share.v
ShareSpec.v
ShareRun.v
PairingIroh.v
PairingIrohSpec.v
PairingIrohRun.v
Transport.v
TransportSpec.v
MemoryNet.v
Http.v
RelayServer.v
HttpSpec.v
Browser.v
BrowserSpec.v
Models.v
FilesModels.v
SyncModels.v
RelayModels.v
Witnesses.v
FilesWitnesses.v
SyncWitnesses.v
RelayWitnesses.v
PairingWitnesses.v
ShareWitnesses.v
PairingIrohWitnesses.v
TransportWitnesses.v
HttpWitnesses.v
BrowserWitnesses.v
