(* ===== verification/Prelude.v ===== *)
(** * A verification of roam

    roam syncs documents and folders between a user's own devices.  Its crates
    (src/crates) are modelled here from the storage layer up: a vault is a directory of
    per-device append-only logs of signed lines (operations, membership, keys), blobs and
    snapshots behind a filesystem trait; a bridge reconciles a folder with it; an engine
    exchanges logs with connected peers, a relay client with a server that sees only
    sealed bytes, in memory or over HTTP; a code or a token lets a new device in, by
    way of a mailbox, a direct connection or the local network, and a code lets a
    stranger receive a few files once; a page in a browser drives a whole vault by
    commands.

    ** Parts and files

    - Prelude: results, the state monad [SM], machine-width integers, byte order,
      ordered maps, and the fold lemmas the components share.
    - RustStr: Rust strings as lists of scalar values, UTF-8, [str::lines] and [trim].

    roam-storage
    - Vfs (vfs.rs): the trait [VaultFs] as a class, its contract [VaultFsLaws] over the
      backend's file map, the in-memory backend.  VfsPool (vfs_pool.rs): the slot pool
      used in browsers, an instance of the contract.
    - Roster (roster.rs): membership entries, their signed bytes and [merge_roster].
    - Wire (identity.rs, error.rs): identities and their file; ed25519, base64, JSON.
    - Logs (oplog.rs, roster.rs, keylog.rs): the three signed line logs over one verified
      reader, torn last lines included.  LogLines: lines as the relay splits them.
    - Keychain (keychain.rs, keywrap.rs, epoch_crypto.rs, vault_key.rs): the epoch DAG.
    - Blob (blob.rs): the content-addressed store and chunked reception.
    - Trust (store.rs, [collect_roster_entries]): which logs are believed.
    - Store, StoreRoster, StoreSync, StoreKeys, StoreEdit (store.rs, founder.rs,
      snapshot.rs): the vault's state and its operations on members, received operations,
      epochs, texts and map entries.
    - Checkpoint (history.rs, history_util.rs, checkpoint.rs, store.rs): history markers
      and the compaction of logs and blobs.
    - Snapshots (snapshot_msg.rs, snapshot_bootstrap.rs, store.rs): signed snapshots for
      the relay, the shelf of held ones, and the checks before one is adopted.
    - Paper (paper.rs, ids.rs): the printed recovery phrase and vault ids.

    roam-files
    - Textdiff (textdiff.rs), Rebase (rebase.rs), Paths (path.rs, sidecar.rs): diffs as
      positional edits, the three-way merge and its conflicts, vault paths.
    - Bridge, BridgeSpec (bridge.rs, fileset.rs, sidecar.rs): importing, projecting,
      deleting, reconciling, restoring, over any disk and any store with the interface
      [VaultStore], which StoreEdit implements.

    roam-sync-core
    - Engine (engine.rs, frame.rs): the engine's state, its offers and broadcasts, every
      arm of [handle], the receive loop.  EngineSpec, EngineSync, EngineBlob: who is
      served, live pushes, blob transfer.
    - MemoryNet (memory.rs, transport.rs): the in-process transport.

    roam-rbsr, roam-backend-client
    - Relay (rbsr lib.rs; crypto.rs, transport.rs, entries.rs, trust.rs, sync.rs): keyed
      ids, the server trait and the in-memory server, trust bundles, one pass.  RelaySpec,
      RelaySync, RelayDeliver: what a pass may do, bundles, delivery.
    - Http (http.rs of roam-backend-client and of roam-pairing): the HTTP clients of the
      store of ciphertexts and of the mailbox, instances of [Backend] and [Mailbox].
      RelayServer (src/sync: store.ex, mailbox.ex, the controllers and the router;
      roam_rbsr_nif lib.rs): the routes and stores that answer them.  HttpSpec: the two
      together refine the in-memory server and mailbox.

    roam-pake, roam-pairing
    - Pairing (code.rs, pake lib.rs, mailbox.rs, invite.rs, accept.rs, handshake.rs): the
      code, the exchange with its budget of guesses, the sealed channel, the mailbox, both
      sides of the handshake.  Enrol: when an enrolment succeeds.  PairingSpec, PairingRun:
      safety over any mailbox, and an honest pairing.

    roam-transport-iroh
    - PairingIroh (pairing.rs, pairing_lan.rs): pairing by a token over a connection, and
      by a code on the local network.  PairingIrohSpec, PairingIrohRun: safety over any
      network, and honest pairings of both kinds.
    - Transport, TransportSpec (transport.rs): routes, dials, readers and removals as
      tasks that interleave between their lock and await points.

    roam-share, roam-share-iroh
    - Share (name.rs, payload.rs, wire.rs, send.rs, receive.rs): names from a stranger,
      the offer, frames, both sides of a transfer.  ShareSpec, ShareRun: safety over any
      connection, and a complete share.

    roam-wasm
    - Browser, BrowserSpec (vault.rs, session.rs; doc.rs of roam-crdt for [map_delta],
      store.rs for [data_size]): a vault over any [VaultFs] and the commands of a page.

    Models, FilesModels, SyncModels, RelayModels hold small primitives that satisfy the
    interfaces; the files named Witnesses apply the theorems to concrete vaults, devices
    and networks built with them.

    ** How the model corresponds to the code

    A struct is a record, an enum an inductive type, with the source's names; a name that
    another component also uses carries a prefix ([oplog_append], [roster_append],
    [key_append]).  A method that can fail returns [result]; one that changes state is a
    computation of [SM], a function from the state to a result and the next state, so a
    failing call keeps the writes it made before it failed.  A panic is [None] or an error
    of its own ([PPanic], [SPanic]).  [u64] values are [N] with their wrap-around,
    saturation or checks written out where the code relies on them.  A path below the
    filesystem trait is the list of its components; in roam-files and roam-share it is the
    Unix string with what std::path does to it.  Error messages are dropped; error kinds
    are kept.  An async function is the sequence of its steps; a lock is held for the
    call that takes it; where the claim is about tasks that race (Transport, the writers of
    RelayServer) a task is cut at its lock, await and system calls and the theorems
    quantify over every interleaving of the pieces.

    Code outside the repository is an interface: a class of operations and a class of
    the laws the sources rely on.  Wire: [Ed25519], [B64], [JsonOf]; Keychain: [Crypto]
    (BLAKE3, X25519, XChaCha20); Store, StoreEdit, Checkpoint: [DocOps], [DocText],
    [DocHistory] (the CRDT document); Textdiff: [Similar]; Paths: [Nfc]; Engine:
    [VersionOps]; Snapshots: [B64Url]; Relay: [KeyedHash], [Negentropy], [EntryPeer] and
    the server [Backend]; Pairing: [Spake2], [ChaCha], the [Mailbox]; Share: [Postcard],
    [Conn]; PairingIroh: [Listener], [Dialer], [EndpointAddrs]; Transport: [FrameCodec];
    Http: [Http], [Clock]; Browser: [DocDelta], [CommandOf].  No law says that a forged signature does not exist or that hashes do not
    collide: theorems that depend on that say so in their statement.  Randomness and the
    clock are arguments or part of the interface; the iteration order of a hash map is an
    arbitrary choice function and the theorems hold for all of them.

    Storage may fail at any call ([VaultFsLaws] says what a failed call leaves), and the
    safety theorems hold whether or not it does.  Theorems that something is delivered ask
    for storage with room: the class [FsAccepts] of Vfs, of which the in-memory backend is an
    instance, or the named condition for the few files at stake.  Other conditions of such
    theorems are the code's own limits (sizes, rounds, roles) and are listed with each.

    ** What is shown

    - Membership: [merge_roster] is characterised entry by entry, does not depend on the
      order or multiplicity of entries (names at one sequence number apart), keeps
      revocations, ignores clocks that jump; the collection of believed logs ends with the
      same result in every hash order; an admin's change takes effect, nobody else changes
      anything, imported logs only grow.
    - Logs, keys, files: signed bytes determine entries, an acknowledged append is read
      back; devices with the same rotations agree on the write head and a rotation's key
      reaches every member; the slot pool refines the in-memory backend; blobs match their
      hash; received fragments reassemble without loss and never rewrite history.
    - Folders: the three-way merge is the weave of both sides' edits and loses nothing; an
      import merges a disk edit with what arrived meanwhile; an imported file reaches a
      peer's disk byte for byte.
    - Exchange: only active peers are served, each is greeted at most once, a push
      delivers the new operations, a wanted blob arrives; only an active admin's snapshot
      changes anything.
    - Relay: whatever the server answers, a pass only adds to what is on disk; a genuine
      line of one device reaches another through a server that may hold anything else.
      The HTTP clients with the relay's routes behave as the in-memory server and mailbox
      do; a response is read up to its cap and no further; on a file system with hard
      links a pairing slot is written once, whatever requests race, and without them it
      still only ever holds some request's whole body (until the sweeper, which is not
      modelled, removes it).
    - Pairing: a code allows three wrong guesses over any interleaving of runs; over any
      mailbox or connection and clock nobody is enrolled unless the host read the
      proof it computes from its code, or a signature over its token's secret; on the
      local network only the key that the connection was authenticated with; a joiner
      adopts only what the host it meant sent; a ready host, an active admin with intact
      logs and room on its disk, makes an honest newcomer an active member and hands it
      the vault key, by mailbox and by token; the channel delivers a prefix, in order.
    - Transport: in every interleaving a removed peer's inbound readers are cut off, the
      inbound queue keeps its bound, and racing dials open one connection; frames are
      read back as written; the in-process transport neither loses nor reorders.
    - Browser: every request gets one well-formed reply; a vault opens again as the same
      one, whatever was done with it.  A recovery phrase carries every bit of its secret.
    - Sharing: without the code a peer learns nothing about what is offered and cannot end
      the session; whatever a sender does, the receiver writes only below its destination,
      only lengths that were declared and accepted; an honest share delivers every
      non-empty file.
    - Defects, each as a theorem: a role change after a device named itself is lost; a
      second checkpoint of one time drops as many lines again; an append after a torn line makes the log
      unreadable; a name tie depends on order; a pool rename onto itself destroys the
      file; a projection destroys a user's .tmp file, a recreated file is deleted, a
      reader's scan authors an entry; a revoked peer is still fed, a snapshot id reads any
      file, a false length blocks a blob; a forged bundle sticks; one code admits two
      devices; a folder named a:b makes the receiver panic, two files of one name are
      sent as one; a waiting connection redeems an expired token; a dial under way undoes a
      revoke, and a dialled connection is read on after it; two racing writers of one
      ciphertext are both told they created it, an id may end in a newline; a failed
      command tells its changes; a signing key that cannot be read is replaced.

    ** Bounds and fuel

    [ever_admin] iterates at most once per entry plus one, which reaches the closure
    ([elem_of_ever_admin]).  [collect_loop] takes fuel; the theorems ask for more fuel than
    devices mentioned in the logs and show that the loop then ends.  [from_utf8] and
    [chunks] take the length of their input.  [collect_vault_files] and [collect_dir]
    descend at most a given depth and fail below it.  [serve_chunks] makes one step per
    chunk of the announced length.  [rounds] stops at RBSR_ROUND_CAP, as the code does.
    [await_loop], [accept_loop], [serve_one], [receive_loop], [token_loop] and [lan_loop]
    poll, accept or read at most a given number of times and then fail with an error of
    their own ([PStuck], [SStuck] and the like); the liveness theorems state how many suffice (two reads per slot; more
    frames than bytes in the offer), the safety theorems hold for every number.
    [read_chunks] reads at most a given number of chunks; the cap plus one is enough when no
    chunk is empty ([read_capped_bounded]).  Every other recursion is structural.

    ** Not modelled

    [NativeFs], the OPFS handles, clocks and random numbers (operating system and
    browser); the postcard codec of engine frames and the decoding of commands (derived
    by serde); the CRDT document, which wraps an external package, apart from the
    interfaces through which the rest uses it; Argon2id; the configuration of endpoints,
    relays and mDNS discovery, which only calls the iroh package; the relay's sweeper,
    retention, accounts and supervision; the command line and the JavaScript bindings, which
    parse arguments and call the operations modelled here; [GcContext] of bridge.rs, which
    a reconcile takes and no longer uses. *)
From stdpp Require Export base tactics numbers option list gmap sets strings sorting.
From Stdlib Require Export NArith ZArith Lia ZifyBool ZifyN ZifyNat.
From Stdlib Require Import Strings.Byte.

Create HintDb roam.

(** Close a decidable closed goal by evaluation. *)
Ltac decide_true := refine (bool_decide_unpack _ _); vm_compute; exact I.
(** Close a closed equation by evaluating both sides; of an equation [run = (r, s)]
    with [s] the state of that run only the result is evaluated. *)
Lemma run_eq {A B} (p : A * B) a : p.1 = a → p = (a, p.2).
Proof. intros <-. by destruct p. Qed.
Ltac by_eval :=
  lazymatch goal with
  | |- _ = (_, _) => first [refine (run_eq _ _ _); vm_compute; reflexivity | vm_compute; reflexivity]
  | _ => vm_compute; reflexivity
  end.
(** Check a claim about every element of a literal list, one by one. *)
Ltac solve_forall_elem :=
  intros ? ?; repeat match goal with
  | H : _ ∈ [] |- _ => by apply not_elem_of_nil in H
  | H : _ ∈ _ :: _ |- _ => apply elem_of_cons in H as [->|H]; [|]
  end.

(** ** Results

    Rust's [Result<T, E>], with stdpp's monad notation ([x ← e; k] is [?]). *)
Inductive result (E A : Type) : Type :=
  | Ok (a : A)
  | Err (e : E).
Arguments Ok {E A} a.
Arguments Err {E A} e.

#[global] Instance result_ret E : MRet (result E) := λ A a, Ok a.
#[global] Instance result_bind E : MBind (result E) := λ A B f m,
  match m with Ok a => f a | Err e => Err e end.
#[global] Instance result_fmap E : FMap (result E) := λ A B f m,
  match m with Ok a => Ok (f a) | Err e => Err e end.

#[global] Instance result_eq_dec E A `{EqDecision E, EqDecision A} :
  EqDecision (result E A).
Proof. solve_decision. Defined.

Definition is_ok {E A} (r : result E A) : bool :=
  match r with Ok _ => true | Err _ => false end.

(** [Option::ok_or]. *)
Definition ok_or {E A} (o : option A) (e : E) : result E A :=
  match o with Some a => Ok a | None => Err e end.

(** [Result::map_err]. *)
Definition map_err {E F A} (f : E → F) (r : result E A) : result F A :=
  match r with Ok a => Ok a | Err e => Err (f e) end.

(** ** Bytes *)
Abbreviation byte := Corelib.Init.Byte.byte.
Abbreviation bytes := (list byte).

#[global] Instance byte_eq_decision : EqDecision byte := Byte.byte_eq_dec.
#[global] Program Instance byte_countable : Countable byte :=
  inj_countable Byte.to_N Byte.of_N _.
Next Obligation. intros b. apply Byte.of_to_N. Qed.

(** Truncation to a byte: Rust's [x as u8]. *)
Definition byte_of_N (n : N) : byte := default Byte.x00 (Byte.of_N (n mod 256)).

Lemma to_N_byte_of_N n : Byte.to_N (byte_of_N n) = (n mod 256)%N.
Proof.
  unfold byte_of_N. destruct (Byte.of_N (n mod 256)) eqn:E; simpl.
  - by apply Byte.to_of_N.
  - apply Byte.of_N_None_iff in E.
    pose proof (N.mod_upper_bound n 256 ltac:(done)). lia.
Qed.

Lemma byte_of_N_to_N b : byte_of_N (Byte.to_N b) = b.
Proof.
  unfold byte_of_N. rewrite N.mod_small.
  - by rewrite Byte.of_to_N.
  - pose proof (Byte.to_N_bounded b). lia.
Qed.

Lemma to_N_bound b : (Byte.to_N b < 256)%N.
Proof. pose proof (Byte.to_N_bounded b). lia. Qed.

(** ** Machine integers: [u64] is [N] with its bound written out. *)
Abbreviation u64 := N (only parsing).
Definition U64_MAX : N := 18446744073709551615.
Definition is_u64 (n : N) : Prop := (n ≤ U64_MAX)%N.

#[global] Instance is_u64_dec n : Decision (is_u64 n).
Proof. unfold is_u64. apply _. Defined.

(** [u64::checked_add]. *)
Definition checked_add (a b : u64) : option u64 := if decide (is_u64 (a + b)) then Some (a + b)%N else None.
(** [u64::saturating_add]. *)
Definition saturating_add (a b : u64) : u64 := N.min (a + b) U64_MAX.

(** [uN::to_le_bytes] for [k] bytes and [uN::from_le_bytes]. *)
Fixpoint le_bytes (k : nat) (n : N) : bytes :=
  match k with
  | O => []
  | S k => byte_of_N n :: le_bytes k (n / 256)
  end.

Fixpoint from_le (l : bytes) : N :=
  match l with
  | [] => 0
  | b :: l => Byte.to_N b + 256 * from_le l
  end%N.

Lemma length_le_bytes k n : length (le_bytes k n) = k.
Proof. revert n. induction k; intros n; simpl; auto. Qed.

Lemma from_le_le_bytes k n :
  from_le (le_bytes k n) = (n mod 256 ^ N.of_nat k)%N.
Proof.
  revert n. induction k as [|k IH]; intros n; simpl le_bytes; simpl from_le.
  - by rewrite N.mod_1_r.
  - rewrite IH, to_N_byte_of_N.
    rewrite Nat2N.inj_succ, N.pow_succ_r'.
    rewrite (N.Div0.mod_mul_r n 256). lia.
Qed.

Lemma le_bytes_from_le l : le_bytes (length l) (from_le l) = l.
Proof.
  induction l as [|b l IH]; [done|]. simpl length. simpl.
  pose proof (to_N_bound b) as Hb.
  assert ((Byte.to_N b + 256 * from_le l) / 256 = from_le l)%N as ->.
  { rewrite N.mul_comm, N.div_add by lia. rewrite N.div_small; lia. }
  rewrite IH. f_equal.
  rewrite <-(byte_of_N_to_N b) at 2. unfold byte_of_N. do 2 f_equal.
  rewrite (N.mul_comm 256), N.Div0.mod_add. done.
Qed.

Lemma from_le_bound l : (from_le l < 256 ^ N.of_nat (length l))%N.
Proof.
  rewrite <-(le_bytes_from_le l) at 1. rewrite from_le_le_bytes.
  apply N.mod_upper_bound. apply N.pow_nonzero. lia.
Qed.

Lemma le_bytes_inj k n m :
  (n < 256 ^ N.of_nat k)%N → (m < 256 ^ N.of_nat k)%N →
  le_bytes k n = le_bytes k m → n = m.
Proof.
  intros Hn Hm Heq%(f_equal from_le). rewrite !from_le_le_bytes in Heq.
  rewrite !N.mod_small in Heq; done.
Qed.

Lemma u64_le_bytes_inj n m :
  is_u64 n → is_u64 m → le_bytes 8 n = le_bytes 8 m → n = m.
Proof.
  unfold is_u64, U64_MAX. intros Hn Hm.
  apply le_bytes_inj; change (256 ^ N.of_nat 8)%N with 18446744073709551616%N; lia.
Qed.

(** ** Byte-string order: [Ord] on [[u8]] is lexicographic. *)
Fixpoint bytes_cmp (a b : bytes) : comparison :=
  match a, b with
  | [], [] => Eq
  | [], _ :: _ => Lt
  | _ :: _, [] => Gt
  | x :: a, y :: b =>
      match N.compare (Byte.to_N x) (Byte.to_N y) with
      | Eq => bytes_cmp a b
      | c => c
      end
  end.

Definition bytes_le (a b : bytes) : Prop := bytes_cmp a b ≠ Gt.
Definition bytes_lt (a b : bytes) : Prop := bytes_cmp a b = Lt.

#[global] Instance comparison_eq_dec : EqDecision comparison.
Proof. solve_decision. Defined.
#[global] Instance bytes_le_dec : RelDecision bytes_le.
Proof. unfold bytes_le. intros a b. apply _. Defined.
#[global] Instance bytes_lt_dec : RelDecision bytes_lt.
Proof. unfold bytes_lt. intros a b. apply _. Defined.

Lemma to_N_inj a b : Byte.to_N a = Byte.to_N b → a = b.
Proof. intros H. by rewrite <-(byte_of_N_to_N a), H, byte_of_N_to_N. Qed.

Lemma bytes_cmp_refl a : bytes_cmp a a = Eq.
Proof. induction a as [|x a IH]; simpl; [done|]. by rewrite N.compare_refl. Qed.

Lemma bytes_cmp_eq a b : bytes_cmp a b = Eq → a = b.
Proof.
  revert b. induction a as [|x a IH]; intros [|y b]; simpl; try done.
  destruct (N.compare_spec (Byte.to_N x) (Byte.to_N y)) as [->%to_N_inj| |]; try done.
  intros ->%IH. done.
Qed.

Lemma bytes_cmp_opp a b : bytes_cmp b a = CompOpp (bytes_cmp a b).
Proof.
  revert b. induction a as [|x a IH]; intros [|y b]; simpl; try done.
  rewrite (N.compare_antisym (Byte.to_N x)).
  destruct (N.compare (Byte.to_N x) (Byte.to_N y)); simpl; auto.
Qed.

Lemma bytes_cmp_lt_trans a b c :
  bytes_cmp a b ≠ Gt → bytes_cmp b c ≠ Gt → bytes_cmp a c ≠ Gt.
Proof.
  revert b c. induction a as [|x a IH]; intros [|y b] [|z c]; simpl; try done.
  destruct (N.compare_spec (Byte.to_N x) (Byte.to_N y)) as [E1|E1|E1]; try done;
  destruct (N.compare_spec (Byte.to_N y) (Byte.to_N z)) as [E2|E2|E2]; try done;
  destruct (N.compare_spec (Byte.to_N x) (Byte.to_N z)) as [E3|E3|E3]; try lia; try done.
  apply IH.
Qed.

#[global] Instance bytes_le_po : PartialOrder bytes_le.
Proof.
  split; [split|].
  - intros a. unfold bytes_le. by rewrite bytes_cmp_refl.
  - intros a b c. apply bytes_cmp_lt_trans.
  - intros a b. unfold bytes_le. rewrite (bytes_cmp_opp a b).
    destruct (bytes_cmp a b) eqn:E; simpl; try done. intros _ _.
    by apply bytes_cmp_eq.
Qed.
#[global] Instance bytes_le_total : Total bytes_le.
Proof.
  intros a b. unfold bytes_le. rewrite (bytes_cmp_opp a b).
  destruct (bytes_cmp a b); simpl; auto.
Qed.

Lemma bytes_lt_le a b : bytes_lt a b ↔ ¬ bytes_le b a.
Proof.
  unfold bytes_lt, bytes_le. rewrite (bytes_cmp_opp a b).
  destruct (bytes_cmp a b); simpl; naive_solver.
Qed.

(** ** Ordered iteration

    A [BTreeMap]/[BTreeSet] is a [gmap]/[gset] whose iteration order is the
    ascending key order. *)
Section btree.
Context {K A : Type} `{Countable K} (le : relation K) `{!RelDecision le}.

Definition key_le (x y : K * A) : Prop := le x.1 y.1.
#[global] Instance key_le_dec : RelDecision key_le.
Proof. unfold key_le. intros x y. apply _. Defined.

Definition btree_to_list (m : gmap K A) : list (K * A) :=
  merge_sort key_le (map_to_list m).
Definition btree_keys (m : gmap K A) : list K := (btree_to_list m).*1.

Lemma elem_of_btree m k a : (k, a) ∈ btree_to_list m ↔ m !! k = Some a.
Proof.
  unfold btree_to_list. rewrite merge_sort_Permutation.
  apply elem_of_map_to_list.
Qed.
Lemma btree_NoDup m : NoDup (btree_to_list m).*1.
Proof. unfold btree_to_list. rewrite merge_sort_Permutation. apply NoDup_fst_map_to_list. Qed.

Lemma elem_of_btree_keys m k : k ∈ btree_keys m ↔ is_Some (m !! k).
Proof.
  unfold btree_keys. rewrite list_elem_of_fmap. split.
  - intros ([k' a]&->&Ha%elem_of_btree). by exists a.
  - intros [a Ha]. exists (k, a). by rewrite elem_of_btree.
Qed.
Lemma btree_keys_sorted `{!Transitive le, !Total le} m : StronglySorted le (btree_keys m).
Proof.
  assert (Transitive key_le) by (intros x y z; unfold key_le; by transitivity y.1).
  assert (Total key_le) by (intros x y; apply (total le)).
  unfold btree_keys. pose proof (StronglySorted_merge_sort key_le (map_to_list m)) as Hs.
  fold (btree_to_list m) in Hs. induction Hs as [|x l Hs IH Hall]; csimpl; constructor; [done|].
  apply Forall_fmap. exact Hall.
Qed.
End btree.

(** The key sequence is the domain's, whatever the values are. *)
Lemma btree_keys_dom {K A B} `{Countable K} (le : relation K) `{!RelDecision le}
    `{!Transitive le, !Total le, !AntiSymm (=) le} (m : gmap K A) (m' : gmap K B) :
  dom m = dom m' → btree_keys le m = btree_keys le m'.
Proof.
  intros Hd. apply (StronglySorted_unique le); [by apply btree_keys_sorted..|].
  apply NoDup_Permutation; [apply btree_NoDup..|]. intros k.
  by rewrite !elem_of_btree_keys, <-!elem_of_dom, Hd.
Qed.

(** The first element of a filtered ascending list is the least that passes. *)
Lemma head_filter_least {A} (le : relation A) (P : A → Prop) `{∀ x, Decision (P x)} l x :
  Reflexive le → StronglySorted le l → head (filter P l) = Some x →
  P x ∧ x ∈ l ∧ ∀ y, y ∈ l → P y → le x y.
Proof.
  intros Hrefl. induction 1 as [|z l Hs IH Hall]; [done|]. rewrite filter_cons.
  case_decide as Hz; simpl.
  - intros [= ->]. split_and!; [done|set_solver|]. rewrite Forall_forall in Hall.
    intros y [->|Hy]%elem_of_cons _; [apply Hrefl|by apply Hall].
  - intros Hx. destruct (IH Hx) as (?&?&Hl). split_and!; [done|set_solver|].
    intros y [->|Hy]%elem_of_cons Hp; [done|by apply Hl].
Qed.

Definition bset_to_list {K} `{Countable K} (le : relation K) `{!RelDecision le}
  (s : gset K) : list K := merge_sort le (elements s).

Lemma elem_of_bset {K} `{Countable K} (le : relation K) `{!RelDecision le} (s : gset K) x :
  x ∈ bset_to_list le s ↔ x ∈ s.
Proof. unfold bset_to_list. by rewrite merge_sort_Permutation, elem_of_elements. Qed.

Lemma foldl_snoc {A B} (f : A → B → A) a l x :
  foldl f a (l ++ [x]) = f (foldl f a l) x.
Proof. by rewrite foldl_app. Qed.

Lemma size_list_to_set_le {A} `{Countable A} (l : list A) :
  size (list_to_set l : gset A) ≤ length l.
Proof.
  induction l as [|x l IH]; simpl; [done|].
  rewrite size_union_alt, size_singleton.
  pose proof (subseteq_size (list_to_set l ∖ {[x]} : gset A) (list_to_set l) ltac:(set_solver)).
  lia.
Qed.

(** ** Folding a join into a map

    [m.entry(k).and_modify(|v| v = join v w).or_insert(w)] over a list, for a
    [join] that picks the larger of its arguments in a total order: the final
    map holds, at each key, the greatest value inserted there. *)
Section fold_max.
Context {E K V : Type} `{Countable K}.
Context (key : E → K) (val : E → V) (le : relation V) (join : V → V → V).
Definition entry_join (m : gmap K V) (k : K) (w : V) : gmap K V :=
  <[k := match m !! k with Some v => join v w | None => w end]> m.

Definition fold_max (l : list E) (m : gmap K V) : gmap K V :=
  foldl (λ m e, entry_join m (key e) (val e)) m l.

Lemma fold_max_snoc l e m :
  fold_max (l ++ [e]) m = entry_join (fold_max l m) (key e) (val e).
Proof. unfold fold_max. by rewrite foldl_snoc. Qed.

Lemma fold_max_None l k :
  fold_max l ∅ !! k = None ↔ ∀ e, e ∈ l → key e ≠ k.
Proof.
  induction l as [|e l IH] using rev_ind.
  { unfold fold_max; simpl. rewrite lookup_empty. set_solver. }
  rewrite fold_max_snoc. unfold entry_join. rewrite lookup_insert.
  case_decide as Hk; [|rewrite IH]; set_solver.
Qed.

Context `{!PreOrder le}.
Hypothesis join_pick : ∀ v w, join v w = v ∨ join v w = w.
Hypothesis join_l : ∀ v w, le v (join v w).
Hypothesis join_r : ∀ v w, le w (join v w).

Lemma fold_max_Some_1 l k v :
  fold_max l ∅ !! k = Some v →
    (∃ e, e ∈ l ∧ key e = k ∧ val e = v) ∧
    (∀ e, e ∈ l → key e = k → le (val e) v).
Proof.
  revert v. induction l as [|e l IH] using rev_ind; intros v; [done|].
  rewrite fold_max_snoc. unfold entry_join. rewrite lookup_insert.
  setoid_rewrite elem_of_app. setoid_rewrite list_elem_of_singleton.
  case_decide as Hk.
  - intros [= <-]. rewrite Hk. destruct (fold_max l ∅ !! k) as [v'|] eqn:El.
    + destruct (IH _ eq_refl) as [(e'&?&?&<-) Hub]. split.
      * destruct (join_pick (val e') (val e)) as [->| ->]; eauto 8.
      * intros e'' [Hin| ->] Hk''; [|apply join_r].
        transitivity (val e'); [by apply Hub|apply join_l].
    + split; [by eauto 8|]. intros e'' [Hin| ->] Hk''; [|done].
      exfalso. eapply (proj1 (fold_max_None _ _) El); eauto.
  - intros Hl. destruct (IH _ Hl) as [(e'&?&?&?) Hub]. split; [by eauto 8|].
    intros e'' [Hin| ->] Hk''; [by apply Hub|done].
Qed.

Context `{!AntiSymm (=) le}.

Lemma fold_max_Some l k v :
  fold_max l ∅ !! k = Some v ↔
    (∃ e, e ∈ l ∧ key e = k ∧ val e = v) ∧
    (∀ e, e ∈ l → key e = k → le (val e) v).
Proof.
  split; [apply fold_max_Some_1|]. intros [(e&He&Hk&Hv) Hub].
  destruct (fold_max l ∅ !! k) as [w|] eqn:El.
  - destruct (fold_max_Some_1 _ _ _ El) as [(e'&He'&Hk'&Hv') Hub']. f_equal.
    apply (anti_symm le).
    + rewrite <-Hv'. by apply Hub.
    + rewrite <-Hv. by apply Hub'.
  - eapply fold_max_None in El; [|exact He]. done.
Qed.

(** The result depends on the set of entries, not on their order or number. *)
Lemma fold_max_ext l1 l2 :
  (∀ e, e ∈ l1 ↔ e ∈ l2) → fold_max l1 ∅ = fold_max l2 ∅.
Proof.
  intros Heq. apply map_eq. intros k. apply option_eq. intros v.
  rewrite !fold_max_Some. by setoid_rewrite Heq.
Qed.
End fold_max.

(** ** Strictly ascending lists *)
Lemma StronglySorted_strict {A} (f : A → N) (l : list A) :
  StronglySorted (λ x y, f x ≤ f y)%N l → NoDup (f <$> l) →
  StronglySorted (λ x y, f x < f y)%N l.
Proof.
  induction 1 as [|x l Hs IH Hall]; [by constructor|].
  rewrite fmap_cons, NoDup_cons. intros [Hx Hnd]. constructor; [by apply IH|].
  rewrite Forall_forall in Hall |- *. intros y Hy. specialize (Hall y Hy).
  assert (f x ≠ f y); [|lia]. intros Heq. apply Hx. rewrite Heq. by apply list_elem_of_fmap_2.
Qed.

Lemma bset_strict (s : gset N) : StronglySorted N.lt (bset_to_list N.le s).
Proof.
  apply (StronglySorted_strict id).
  - apply (StronglySorted_merge_sort N.le).
  - rewrite list_fmap_id. unfold bset_to_list. rewrite merge_sort_Permutation.
    apply NoDup_elements.
Qed.

Lemma gset_min_exists (s : gset N) :
  s ≠ ∅ → ∃ m, m ∈ s ∧ ∀ x, x ∈ s → (m ≤ x)%N.
Proof.
  intros Hne. pose proof (bset_strict s) as Hs. pose proof (elem_of_bset N.le s) as Hel.
  destruct (bset_to_list N.le s) as [|m l].
  - destruct Hne. apply set_eq. intros x. rewrite <-Hel. set_solver.
  - exists m. split; [apply Hel; set_solver|]. intros x Hx%Hel.
    apply StronglySorted_cons in Hs as [Hm _]. rewrite Forall_forall in Hm.
    apply elem_of_cons in Hx. destruct Hx as [->|Hx%Hm]; lia.
Qed.

Lemma btree_strict {A} (m : gmap N A) :
  StronglySorted (λ x y, x.1 < y.1)%N (btree_to_list N.le m).
Proof.
  apply (StronglySorted_strict fst); [|apply btree_NoDup].
  assert (Transitive (key_le (A:=A) N.le)) by (intros x y z; unfold key_le; lia).
  assert (Total (key_le (A:=A) N.le)) by (intros x y; unfold key_le; lia).
  apply (StronglySorted_merge_sort (key_le N.le)).
Qed.

(** Sorting a strictly ascending list by the same key changes nothing. *)
Lemma merge_sort_strict_id {A} (f : A → N) (R : relation A) `{!RelDecision R} (l : list A) :
  (∀ x y, R x y ↔ (f x ≤ f y)%N) →
  StronglySorted (λ x y, f x < f y)%N l → merge_sort R l = l.
Proof.
  intros HR Hs.
  assert (Transitive R) by (intros x y z; rewrite !HR; lia).
  assert (Total R) by (intros x y; rewrite !HR; lia).
  apply (StronglySorted_unique_strong R).
  - intros x y Hx Hy Hxy Hyx. rewrite merge_sort_Permutation in Hx.
    apply HR in Hxy. apply HR in Hyx.
    apply list_elem_of_lookup in Hx as [i Hi]. apply list_elem_of_lookup in Hy as [j Hj].
    clear -Hs Hi Hj Hxy Hyx. revert i j Hi Hj.
    induction Hs as [|z l Hs IH Hall]; intros [|i] [|j] Hi Hj; simplify_eq/=; try done.
    + rewrite Forall_forall in Hall. apply list_elem_of_lookup_2, Hall in Hj. lia.
    + rewrite Forall_forall in Hall. apply list_elem_of_lookup_2, Hall in Hi. lia.
    + by eapply IH.
  - apply StronglySorted_merge_sort; done.
  - eapply StronglySorted_ind with (P := λ l, StronglySorted R l); [constructor| |exact Hs].
    intros x k _ IH Hall. constructor; [done|].
    eapply Forall_impl; [exact Hall|]. intros y Hy. cbn beta in Hy. apply HR. lia.
  - apply merge_sort_Permutation.
Qed.

(** ** State and errors

    A method taking [&mut self] and returning [Result]: it runs on a state and
    gives a result and the state it leaves behind, also when it fails. *)
Definition SM (S E A : Type) : Type := S → result E A * S.

#[global] Instance SM_ret S E : MRet (SM S E) := λ A a s, (Ok a, s).
#[global] Instance SM_bind S E : MBind (SM S E) := λ A B f m s,
  match m s with
  | (Ok a, s') => f a s'
  | (Err e, s') => (Err e, s')
  end.

Definition sm_get {S E} : SM S E S := λ s, (Ok s, s).
Definition sm_put {S E} (s : S) : SM S E unit := λ _, (Ok tt, s).
Definition sm_fail {S E A} (e : E) : SM S E A := λ s, (Err e, s).
(** A read-only or pure step. *)
Definition sm_lift {S E A} (r : result E A) : SM S E A := λ s, (r, s).
Definition sm_map_err {S E F A} (f : E → F) (m : SM S E A) : SM S F A :=
  λ s, (map_err f (m s).1, (m s).2).

(** [for x in l { f(x)?; }] *)
Fixpoint sm_iter {S E A} (f : A → SM S E unit) (l : list A) : SM S E unit :=
  match l with
  | [] => mret tt
  | x :: l => f x ≫= λ _, sm_iter f l
  end.

(** The first failure of a list of results, as [collect::<Result<_, _>>]. *)
Fixpoint collect {E A} (l : list (result E A)) : result E (list A) :=
  match l with
  | [] => Ok []
  | Ok a :: l => match collect l with Ok r => Ok (a :: r) | Err e => Err e end
  | Err e :: _ => Err e
  end.

Lemma collect_map_ok {E A B} (f : A → result E B) l r :
  collect (f <$> l) = Ok r ↔ Forall2 (λ a b, f a = Ok b) l r.
Proof.
  revert r. induction l as [|a l IH]; intros r; csimpl.
  - split; [intros; simplify_eq; constructor|by inversion 1].
  - destruct (f a) as [b|e] eqn:Ef; [destruct (collect (f <$> l)) as [r'|e'] eqn:Ec|]; split;
      intros Hr; simplify_eq; try (inversion Hr as [|? b' ? r'' Hb Hr']; simplify_eq).
    + constructor; [done|]. by apply IH.
    + apply IH in Hr'. congruence.
    + apply IH in Hr'. congruence.
    + congruence.
Qed.

(** ** Running the monad *)
Lemma sm_bind_ok {S E A B} (m : SM S E A) (k : A → SM S E B) s b s' :
  (m ≫= k) s = (Ok b, s') → ∃ a s1, m s = (Ok a, s1) ∧ k a s1 = (Ok b, s').
Proof. unfold mbind, SM_bind. destruct (m s) as [[a|e] s1]; [|done]. eauto. Qed.
(** Follow a successful run one call at a time. *)
Ltac step_ok H a s1 H1 := apply sm_bind_ok in H as (a&s1&H1&H).
