(* ===== verification/RustStr.v ===== *)
(** * RustStr: the part of [str] and [char] the sources use

    A [char] is a Unicode scalar value ([N]) and a [String] the list of its
    chars; [as_bytes] is UTF-8 encoding.  The functions below are the standard
    library's [str::from_utf8], [lines], [trim], [split], [join],
    [to_ascii_lowercase], [char::is_control] and [char::is_whitespace]. *)
From S2P Require Import Prelude.
From Stdlib Require Import Strings.Byte Ascii.

Abbreviation rchar := N (only parsing).
Abbreviation rstring := (list N).

(** String literals of the source are ASCII. *)
Fixpoint str (s : string) : rstring :=
  match s with
  | EmptyString => []
  | String a s => N_of_ascii a :: str s
  end.

Lemma str_inj s t : str s = str t → s = t.
Proof.
  revert t. induction s as [|a s IH]; intros [|b t]; simpl; try done. intros [= Hab Hst].
  f_equal; [|by apply IH]. by rewrite <-(ascii_N_embedding a), Hab, ascii_N_embedding.
Qed.

Lemma str_app s t : str (s +:+ t) = str s ++ str t.
Proof. induction s as [|a s IH]; simpl; [done|]. by rewrite IH. Qed.

Definition LF : rchar := 10.
Definition CR : rchar := 13.

(** A Unicode scalar value: any code point that is not a surrogate. *)
Definition is_scalar (c : rchar) : bool :=
  ((c <? 0xD800) || ((0xDFFF <? c) && (c <? 0x110000)))%N.

(** ** UTF-8 *)
Definition utf8_char (c : rchar) : bytes :=
  (if c <? 0x80 then [byte_of_N c]
   else if c <? 0x800 then
     [byte_of_N (0xC0 + c / 64); byte_of_N (0x80 + c mod 64)]
   else if c <? 0x10000 then
     [byte_of_N (0xE0 + c / 4096); byte_of_N (0x80 + c / 64 mod 64);
      byte_of_N (0x80 + c mod 64)]
   else
     [byte_of_N (0xF0 + c / 262144); byte_of_N (0x80 + c / 4096 mod 64);
      byte_of_N (0x80 + c / 64 mod 64); byte_of_N (0x80 + c mod 64)])%N.

Definition utf8 (s : rstring) : bytes := s ≫= utf8_char.

(** [str::len] counts bytes. *)
Definition str_len (s : rstring) : N := N.of_nat (length (utf8 s)).

(** A continuation byte's payload. *)
Definition cont (b : byte) : option N :=
  let n := Byte.to_N b in
  if ((0x80 <=? n) && (n <? 0xC0))%N then Some (n - 0x80)%N else None.

(** One char off the front of a byte string; overlong forms, surrogates and
    values past U+10FFFF are refused. *)
Definition utf8_next (bs : bytes) : option (rchar * bytes) :=
  match bs with
  | [] => None
  | b0 :: r =>
      let n := Byte.to_N b0 in
      if (n <? 0x80)%N then Some (n, r)
      else if ((0xC0 <=? n) && (n <? 0xE0))%N then
        match r with
        | b1 :: r =>
            x ← cont b1;
            let c := ((n - 0xC0) * 64 + x)%N in
            if (0x80 <=? c)%N then Some (c, r) else None
        | _ => None
        end
      else if ((0xE0 <=? n) && (n <? 0xF0))%N then
        match r with
        | b1 :: b2 :: r =>
            x ← cont b1; y ← cont b2;
            let c := ((n - 0xE0) * 4096 + x * 64 + y)%N in
            if (0x800 <=? c)%N && is_scalar c then Some (c, r) else None
        | _ => None
        end
      else if ((0xF0 <=? n) && (n <? 0xF8))%N then
        match r with
        | b1 :: b2 :: b3 :: r =>
            x ← cont b1; y ← cont b2; z ← cont b3;
            let c := ((n - 0xF0) * 262144 + x * 4096 + y * 64 + z)%N in
            if (0x10000 <=? c)%N && is_scalar c then Some (c, r) else None
        | _ => None
        end
      else None
  end.

Fixpoint from_utf8_go (fuel : nat) (bs : bytes) : option rstring :=
  match bs, fuel with
  | [], _ => Some []
  | _, O => None
  | _, S fuel => '(c, r) ← utf8_next bs; s ← from_utf8_go fuel r; Some (c :: s)
  end.

(** [str::from_utf8]; every char takes at least one byte, so the byte count is
    enough fuel. *)
Definition from_utf8 (bs : bytes) : option rstring := from_utf8_go (length bs) bs.

(** ** Char classes *)
Definition is_control (c : rchar) : bool :=
  ((c <=? 0x1F) || ((0x7F <=? c) && (c <=? 0x9F)))%N.

Definition is_whitespace (c : rchar) : bool :=
  (((9 <=? c) && (c <=? 13)) || (c =? 0x20) || (c =? 0x85) || (c =? 0xA0)
   || (c =? 0x1680) || ((0x2000 <=? c) && (c <=? 0x200A)) || (c =? 0x2028)
   || (c =? 0x2029) || (c =? 0x202F) || (c =? 0x205F) || (c =? 0x3000))%N.

Definition to_ascii_lowercase (s : rstring) : rstring :=
  (λ c, if (65 <=? c) && (c <=? 90) then c + 32 else c)%N <$> s.

(** ** Splitting and joining *)

(** [s.split(c)]: always at least one piece. *)
Fixpoint split_on (c : rchar) (s : rstring) : list rstring :=
  match s with
  | [] => [[]]
  | x :: s =>
      if decide (x = c) then [] :: split_on c s
      else match split_on c s with
           | [] => [[x]]
           | p :: ps => (x :: p) :: ps
           end
  end.

(** [parts.join(c)] *)
Fixpoint join_on (c : rchar) (ps : list rstring) : rstring :=
  match ps with
  | [] => []
  | [p] => p
  | p :: ps => p ++ c :: join_on c ps
  end.

Fixpoint drop_ws (s : rstring) : rstring :=
  match s with
  | [] => []
  | c :: s => if is_whitespace c then drop_ws s else c :: s
  end.

(** [str::trim] *)
Definition trim (s : rstring) : rstring := reverse (drop_ws (reverse (drop_ws s))).

Definition strip_cr (s : rstring) : rstring :=
  match last s with Some c => if decide (c = CR) then take (length s - 1) s else s | None => s end.

(** [str::lines]: pieces between newlines, each losing one trailing CR if a
    newline followed; a final newline does not add an empty line. *)
Fixpoint lines_go (ps : list rstring) : list rstring :=
  match ps with
  | [] => []
  | [p] => if decide (p = []) then [] else [p]
  | p :: ps => strip_cr p :: lines_go ps
  end.
Definition lines (s : rstring) : list rstring := lines_go (split_on LF s).

Definition ends_with_char (c : rchar) (s : rstring) : bool := bool_decide (last s = Some c).
Definition starts_with_char (c : rchar) (s : rstring) : bool := bool_decide (head s = Some c).

(** ** Lemmas *)
Lemma split_on_nonempty c s : split_on c s ≠ [].
Proof. destruct s as [|x s]; simpl; [done|]. case_decide; [done|]. by destruct (split_on c s). Qed.

Lemma join_split c s : join_on c (split_on c s) = s.
Proof.
  induction s as [|x s IH]; simpl; [done|].
  pose proof (split_on_nonempty c s) as Hne. case_decide as Hx.
  - simpl. destruct (split_on c s); [done|]. by rewrite IH, Hx.
  - destruct (split_on c s) as [|p ps]; [done|]. rewrite <-IH. by destruct ps.
Qed.

Lemma split_on_no_sep c s : c ∉ s → split_on c s = [s].
Proof.
  induction s as [|x s IH]; simpl; [done|]. intros Hn.
  rewrite decide_False by set_solver. by rewrite IH by set_solver.
Qed.

Lemma split_on_app c s t : c ∉ s → split_on c (s ++ c :: t) = s :: split_on c t.
Proof.
  induction s as [|x s IH]; simpl; intros Hn.
  - by rewrite decide_True.
  - rewrite decide_False by set_solver. by rewrite IH by set_solver.
Qed.

Lemma split_join c ps :
  ps ≠ [] → Forall (λ p, c ∉ p) ps → split_on c (join_on c ps) = ps.
Proof.
  induction ps as [|p ps IH]; [done|]. intros _ [Hp Hps]%Forall_cons.
  destruct ps as [|q ps]; [by apply split_on_no_sep|].
  change (join_on c (p :: q :: ps)) with (p ++ c :: join_on c (q :: ps)).
  rewrite split_on_app by done. by rewrite IH.
Qed.

Lemma split_on_elem c s p : p ∈ split_on c s → c ∉ p.
Proof.
  revert p. induction s as [|x s IH]; simpl; intros p.
  { intros ->%list_elem_of_singleton. set_solver. }
  case_decide as Hx.
  { intros [->|Hin]%elem_of_cons; [set_solver|by apply IH]. }
  pose proof (split_on_nonempty c s). destruct (split_on c s) as [|q qs]; [done|].
  intros [->|Hin]%elem_of_cons.
  - apply not_elem_of_cons. split; [done|]. apply IH. set_solver.
  - apply IH. set_solver.
Qed.

(** UTF-8 round trip, one char at a time. *)
Lemma cont_byte x : (x < 64)%N → cont (byte_of_N (0x80 + x)) = Some x.
Proof.
  intros Hx. unfold cont. rewrite to_N_byte_of_N, N.mod_small by lia.
  case_match eqn:E; [f_equal; lia|]. exfalso.
  apply andb_false_iff in E as [E|E]; lia.
Qed.

Ltac solve_if :=
  repeat match goal with
  | |- context [if ?b then _ else _] =>
      lazymatch b with
      | true => fail | false => fail
      | _ => first
          [ replace b with true by (symmetry; unfold is_scalar in *; lia)
          | replace b with false by (symmetry; unfold is_scalar in *; lia) ]
      end; cbn iota
  end.

Lemma div_mod_bounds c :
  (c mod 64 < 64 ∧ c / 64 mod 64 < 64 ∧ c / 4096 mod 64 < 64 ∧
   c = c / 64 * 64 + c mod 64 ∧ c / 64 = c / 4096 * 64 + c / 64 mod 64 ∧
   c / 4096 = c / 262144 * 64 + c / 4096 mod 64)%N.
Proof.
  repeat split; try (apply N.mod_upper_bound; done).
  - rewrite N.mul_comm. apply N.div_mod; done.
  - change 4096%N with (64 * 64)%N. rewrite <-N.Div0.div_div, N.mul_comm.
    apply N.div_mod; done.
  - change 262144%N with (4096 * 64)%N. rewrite <-N.Div0.div_div, N.mul_comm.
    apply N.div_mod; done.
Qed.

Lemma utf8_next_char c r :
  is_scalar c = true → utf8_next (utf8_char c ++ r) = Some (c, r).
Proof.
  intros Hc. assert (c < 0x110000)%N as Hc' by (unfold is_scalar in Hc; lia).
  pose proof (div_mod_bounds c) as (H1&H2&H3&E1&E2&E3).
  unfold utf8_char.
  destruct (N.ltb_spec c 0x80); [|destruct (N.ltb_spec c 0x800);
    [|destruct (N.ltb_spec c 0x10000)]]; cbn [app utf8_next];
    rewrite !to_N_byte_of_N; rewrite (N.mod_small _ 256) by lia; solve_if; [done|..];
    rewrite !cont_byte by done; cbn -[N.add N.mul N.sub N.div N.modulo is_scalar].
  - replace ((0xC0 + c / 64 - 0xC0) * 64 + c mod 64)%N with c by lia. by solve_if.
  - replace ((0xE0 + c / 4096 - 0xE0) * 4096 + c / 64 mod 64 * 64 + c mod 64)%N with c by lia.
    by solve_if.
  - replace ((0xF0 + c / 262144 - 0xF0) * 262144 + c / 4096 mod 64 * 4096
      + c / 64 mod 64 * 64 + c mod 64)%N with c by lia.
    by solve_if.
Qed.

Lemma utf8_char_nonempty c : utf8_char c ≠ [].
Proof. unfold utf8_char. by repeat case_match. Qed.

Lemma from_utf8_go_utf8 s fuel :
  forallb is_scalar s = true → length (utf8 s) ≤ fuel →
  from_utf8_go fuel (utf8 s) = Some s.
Proof.
  revert fuel. induction s as [|c s IH]; intros fuel Hs Hf; [by destruct fuel|].
  apply andb_true_iff in Hs as [Hc Hs].
  change (utf8 (c :: s)) with (utf8_char c ++ utf8 s) in *.
  pose proof (utf8_char_nonempty c) as Hne. rewrite length_app in Hf.
  destruct fuel as [|fuel].
  { destruct (utf8_char c); simpl in *; [done|lia]. }
  pose proof (utf8_next_char c (utf8 s) Hc) as Hn.
  destruct (utf8_char c) as [|b bs]; [done|]. simpl app in *.
  cbn [from_utf8_go]. rewrite Hn. cbn. rewrite IH; [done..|]. simpl in Hf. lia.
Qed.

Lemma from_utf8_utf8 s : forallb is_scalar s = true → from_utf8 (utf8 s) = Some s.
Proof. intros Hs. by apply from_utf8_go_utf8. Qed.

Lemma utf8_inj s t :
  forallb is_scalar s = true → forallb is_scalar t = true → utf8 s = utf8 t → s = t.
Proof.
  intros Hs Ht Heq. apply from_utf8_utf8 in Hs, Ht. congruence.
Qed.

(** ** A cut inside a multi-byte char *)
Lemma from_utf8_go_app s r fuel :
  forallb is_scalar s = true → length (utf8 s ++ r) ≤ fuel →
  from_utf8_go fuel (utf8 s ++ r) = (app s) <$> from_utf8_go (fuel - length s) r.
Proof.
  revert fuel. induction s as [|c s IH]; intros fuel Hs Hf.
  { change (utf8 [] ++ r) with r. rewrite Nat.sub_0_r. by destruct (from_utf8_go fuel r). }
  apply andb_true_iff in Hs as [Hc Hs].
  change (utf8 (c :: s)) with (utf8_char c ++ utf8 s) in *. rewrite <-(assoc_L (++)) in *.
  pose proof (utf8_char_nonempty c) as Hne. rewrite length_app in Hf.
  pose proof (utf8_next_char c (utf8 s ++ r) Hc) as Hn.
  destruct (utf8_char c) as [|b bs]; [done|]. destruct fuel as [|fuel]; [simpl in Hf; lia|].
  simpl app in *. cbn [from_utf8_go]. rewrite Hn. cbn [mbind option_bind length Nat.sub].
  rewrite IH; [|done|simpl in Hf; lia].
  by destruct (from_utf8_go (fuel - length s) r).
Qed.

Lemma utf8_next_cut c k :
  is_scalar c = true → 0 < k < length (utf8_char c) → utf8_next (take k (utf8_char c)) = None.
Proof.
  intros Hc. assert (c < 0x110000)%N as Hc' by (unfold is_scalar in Hc; lia).
  pose proof (div_mod_bounds c) as (Hd1&Hd2&Hd3&E1&E2&E3). unfold utf8_char.
  destruct (N.ltb_spec c 0x80); [|destruct (N.ltb_spec c 0x800);
    [|destruct (N.ltb_spec c 0x10000)]]; cbn [length]; intros Hk;
    try lia; assert (k = 1 ∨ k = 2 ∨ k = 3) as [->|[->| ->]] by lia; try lia;
    cbn [take utf8_next]; rewrite !to_N_byte_of_N; rewrite ?(N.mod_small _ 256) by lia; by solve_if.
Qed.

(** Text cut inside a char is not UTF-8. *)
Lemma from_utf8_cut s c k :
  forallb is_scalar s = true → is_scalar c = true → 0 < k < length (utf8_char c) →
  from_utf8 (utf8 s ++ take k (utf8_char c)) = None.
Proof.
  intros Hs Hc Hk. unfold from_utf8. rewrite from_utf8_go_app by done.
  pose proof (utf8_next_cut c k Hc Hk) as Hn.
  destruct (take k (utf8_char c)) as [|b bs] eqn:E.
  { apply (f_equal length) in E. rewrite length_take in E. simpl in E. lia. }
  destruct (_ - _) as [|fuel]; [done|]. cbn [from_utf8_go]. by rewrite Hn.
Qed.
