(* ===== verification/Vfs.v ===== *)
(** * Vfs: the filesystem seam (crates/roam-storage/src/vfs.rs)

    The trait [VaultFs] as an operational class, what its conformance suite
    demands of every backend as a class of laws over the backend's file map, and
    the in-memory backend [MemFs] as an instance.  A path is the list of its
    components. *)
From S2P Require Import Prelude RustStr.
From Stdlib Require Import Strings.Byte.

Abbreviation path := (list rstring).

Inductive io_error := NotFound | InvalidData | InvalidInput | StorageFull.

#[global] Instance io_error_eq_dec : EqDecision io_error.
Proof. solve_decision. Defined.

(** ** Byte ranges *)

(** [buf.resize(n, 0)] when growing. *)
Definition resize0 (n : nat) (l : bytes) : bytes := l ++ replicate (n - length l) Byte.x00.

(** Overwrite [bs] at [off], zero-filling and extending as a write past the end
    does. *)
Definition splice (off : nat) (bs l : bytes) : bytes :=
  let l' := resize0 (off + length bs) l in
  take off l' ++ bs ++ drop (off + length bs) l'.

(** Clamped slice [l[start..end]]. *)
Definition slice (off len : nat) (l : bytes) : bytes :=
  let start := off `min` length l in
  take ((start + len) `min` length l - start) (drop start l).

(** ** The trait *)
Class VaultFs (Fs : Type) := {
  fs_read : path → Fs → result io_error bytes;
  fs_read_range : path → nat → nat → Fs → result io_error bytes;
  fs_write : path → bytes → SM Fs io_error unit;
  fs_append : path → bytes → SM Fs io_error unit;
  fs_append_sync : path → bytes → SM Fs io_error unit;
  fs_create_sized : path → nat → SM Fs io_error unit;
  fs_write_range : path → nat → bytes → SM Fs io_error unit;
  fs_create_dir_all : path → SM Fs io_error unit;
  fs_rename : path → path → SM Fs io_error unit;
  fs_remove_file : path → SM Fs io_error unit;
  fs_read_dir : path → Fs → result io_error (list path);
  fs_file_len : path → Fs → result io_error nat;
  fs_exists : path → Fs → bool;
  fs_is_dir : path → Fs → bool;
  fs_set_owner_only : path → SM Fs io_error unit;
}.

(** The provided method [read_to_string]. *)
Definition fs_read_to_string `{VaultFs Fs} (p : path) (fs : Fs) : result io_error rstring :=
  match fs_read p fs with
  | Ok bs => ok_or (from_utf8 bs) InvalidData
  | Err e => Err e
  end.

(** ** What a backend promises

    [files] is the backend's file map, [fs_inv] the invariant it keeps and
    [fs_path] the paths it can name.  A failing operation changes nothing. *)
Definition files_after {A} (r : result io_error A) (ok old : gmap path bytes) : gmap path bytes :=
  match r with Ok _ => ok | Err _ => old end.

Class VaultFsLaws (Fs : Type) `{VaultFs Fs} := {
  files : Fs → gmap path bytes;
  fs_inv : Fs → Prop;
  fs_path : path → Prop;
  fs_read_spec p fs : fs_inv fs → fs_read p fs = ok_or (files fs !! p) NotFound;
  fs_file_len_spec p fs :
    fs_inv fs → fs_file_len p fs = ok_or (length <$> files fs !! p) NotFound;
  fs_read_range_spec p off len fs :
    fs_inv fs → fs_read_range p off len fs = ok_or (slice off len <$> files fs !! p) NotFound;
  fs_write_spec p b fs : fs_inv fs → fs_path p →
    let '(r, fs') := fs_write p b fs in
    fs_inv fs' ∧ files fs' = files_after r (<[p := b]> (files fs)) (files fs);
  fs_append_spec p b fs : fs_inv fs → fs_path p →
    let '(r, fs') := fs_append p b fs in
    fs_inv fs' ∧
    files fs' = files_after r (<[p := default [] (files fs !! p) ++ b]> (files fs)) (files fs);
  fs_append_sync_spec p b fs : fs_inv fs → fs_path p →
    let '(r, fs') := fs_append_sync p b fs in
    fs_inv fs' ∧
    files fs' = files_after r (<[p := default [] (files fs !! p) ++ b]> (files fs)) (files fs);
  fs_create_sized_spec p n fs : fs_inv fs → fs_path p →
    let '(r, fs') := fs_create_sized p n fs in
    fs_inv fs' ∧ files fs' = files_after r (<[p := replicate n Byte.x00]> (files fs)) (files fs);
  fs_write_range_spec p off b fs : fs_inv fs → fs_path p →
    let '(r, fs') := fs_write_range p off b fs in
    fs_inv fs' ∧
    match files fs !! p with
    | None => r = Err NotFound ∧ files fs' = files fs
    | Some l => r = Ok tt ∧ files fs' = <[p := splice off b l]> (files fs)
    end;
  fs_create_dir_all_spec p fs : fs_inv fs →
    let '(r, fs') := fs_create_dir_all p fs in r = Ok tt ∧ fs_inv fs' ∧ files fs' = files fs;
  fs_rename_spec p q fs : fs_inv fs → fs_path p → fs_path q → p ≠ q →
    let '(r, fs') := fs_rename p q fs in
    fs_inv fs' ∧
    match files fs !! p with
    | None => r = Err NotFound ∧ files fs' = files fs
    | Some b => files fs' = files_after r (<[q := b]> (delete p (files fs))) (files fs)
    end;
  fs_remove_file_spec p fs : fs_inv fs → fs_path p →
    let '(r, fs') := fs_remove_file p fs in
    fs_inv fs' ∧
    match files fs !! p with
    | None => r = Err NotFound ∧ files fs' = files fs
    | Some _ => r = Ok tt ∧ files fs' = delete p (files fs)
    end;
  fs_exists_spec p fs : fs_inv fs →
    (is_Some (files fs !! p) → fs_exists p fs = true) ∧
    (fs_exists p fs = true → is_Some (files fs !! p) ∨ fs_is_dir p fs = true);
  fs_read_dir_spec d es fs : fs_inv fs → fs_read_dir d fs = Ok es →
    NoDup es ∧ (∀ q, q ∈ es → ∃ n, q = d ++ [n]) ∧
    ∀ n, is_Some (files fs !! (d ++ [n])) → d ++ [n] ∈ es;
  fs_set_owner_only_spec p fs : fs_inv fs → fs_path p →
    let '(r, fs') := fs_set_owner_only p fs in fs_inv fs' ∧ files fs' = files fs;
}.

(** ** MemFs *)
Record MemState := mkMemState {
  mem_files : gmap path bytes;
  mem_dirs : gset path;
  mem_owner_only : gset path;
}.

Definition mem_read (p : path) (fs : MemState) : result io_error bytes :=
  ok_or (mem_files fs !! p) NotFound.

Definition mem_read_range (p : path) (off len : nat) (fs : MemState) : result io_error bytes :=
  match mem_files fs !! p with
  | None => Err NotFound
  | Some l =>
      let start := off `min` length l in
      let end_ := (start + len) `min` length l in
      Ok (take (end_ - start) (drop start l))
  end.

Definition mem_set (fs : MemState) (m : gmap path bytes) : MemState :=
  mkMemState m (mem_dirs fs) (mem_owner_only fs).

Definition mem_write (p : path) (b : bytes) : SM MemState io_error unit := λ fs,
  (Ok tt, mem_set fs (<[p := b]> (mem_files fs))).

Definition mem_append (p : path) (b : bytes) : SM MemState io_error unit := λ fs,
  (Ok tt, mem_set fs (<[p := default [] (mem_files fs !! p) ++ b]> (mem_files fs))).

Definition mem_append_sync (p : path) (b : bytes) : SM MemState io_error unit := mem_append p b.

Definition mem_create_sized (p : path) (n : nat) : SM MemState io_error unit := λ fs,
  (Ok tt, mem_set fs (<[p := replicate n Byte.x00]> (mem_files fs))).

Definition mem_write_range (p : path) (off : nat) (b : bytes) : SM MemState io_error unit := λ fs,
  match mem_files fs !! p with
  | None => (Err NotFound, fs)
  | Some l =>
      let l := if decide (length l < off + length b) then resize0 (off + length b) l else l in
      (Ok tt, mem_set fs (<[p := take off l ++ b ++ drop (off + length b) l]> (mem_files fs)))
  end.

(** Every non-empty prefix of a path, shortest first. *)
Fixpoint prefixes (cur p : path) : list path :=
  match p with
  | [] => []
  | c :: p => (cur ++ [c]) :: prefixes (cur ++ [c]) p
  end.

Definition mem_create_dir_all (p : path) : SM MemState io_error unit := λ fs,
  (Ok tt, mkMemState (mem_files fs) (list_to_set (prefixes [] p) ∪ mem_dirs fs) (mem_owner_only fs)).

Definition mem_rename (p q : path) : SM MemState io_error unit := λ fs,
  match mem_files fs !! p with
  | None => (Err NotFound, fs)
  | Some b =>
      let oo := mem_owner_only fs in
      (Ok tt, mkMemState (<[q := b]> (delete p (mem_files fs))) (mem_dirs fs)
                (if decide (p ∈ oo) then {[q]} ∪ (oo ∖ {[p]}) else oo))
  end.

Definition mem_remove_file (p : path) : SM MemState io_error unit := λ fs,
  match mem_files fs !! p with
  | None => (Err NotFound, fs)
  | Some _ => (Ok tt, mem_set fs (delete p (mem_files fs)))
  end.

(** [existing.strip_prefix(dir)] *)
Fixpoint strip_prefix (dir p : path) : option path :=
  match dir, p with
  | [], p => Some p
  | c :: dir, d :: p => if decide (c = d) then strip_prefix dir p else None
  | _ :: _, [] => None
  end.

(** The child of [dir] that [p] is, or is under. *)
Definition child_of (dir p : path) : option path :=
  match strip_prefix dir p with
  | Some (c :: _) => Some (dir ++ [c])
  | _ => None
  end.

(** [Path]'s order: component by component, each by its bytes. *)
Fixpoint path_cmp (p q : path) : comparison :=
  match p, q with
  | [], [] => Eq
  | [], _ => Lt
  | _, [] => Gt
  | c :: p, d :: q => match bytes_cmp (utf8 c) (utf8 d) with Eq => path_cmp p q | o => o end
  end.
Definition path_le (p q : path) : Prop := path_cmp p q ≠ Gt.
#[global] Instance path_le_dec : RelDecision path_le.
Proof. unfold path_le. intros p q. apply _. Defined.

Definition mem_read_dir (dir : path) (fs : MemState) : result io_error (list path) :=
  if decide (dir ∈ mem_dirs fs)
  then Ok (bset_to_list path_le (list_to_set
             (omap (child_of dir) (btree_keys path_le (mem_files fs) ++ bset_to_list path_le (mem_dirs fs)))))
  else Err NotFound.

Definition mem_file_len (p : path) (fs : MemState) : result io_error nat :=
  ok_or (length <$> mem_files fs !! p) NotFound.

Definition mem_is_dir (p : path) (fs : MemState) : bool := bool_decide (p ∈ mem_dirs fs).
Definition mem_exists (p : path) (fs : MemState) : bool :=
  bool_decide (is_Some (mem_files fs !! p)) || mem_is_dir p fs.

Definition mem_set_owner_only (p : path) : SM MemState io_error unit := λ fs,
  match mem_files fs !! p with
  | None => (Err NotFound, fs)
  | Some _ => (Ok tt, mkMemState (mem_files fs) (mem_dirs fs) ({[p]} ∪ mem_owner_only fs))
  end.

#[global] Instance MemFs : VaultFs MemState := {|
  fs_read := mem_read; fs_read_range := mem_read_range; fs_write := mem_write;
  fs_append := mem_append; fs_append_sync := mem_append_sync;
  fs_create_sized := mem_create_sized; fs_write_range := mem_write_range;
  fs_create_dir_all := mem_create_dir_all; fs_rename := mem_rename;
  fs_remove_file := mem_remove_file; fs_read_dir := mem_read_dir;
  fs_file_len := mem_file_len; fs_exists := mem_exists; fs_is_dir := mem_is_dir;
  fs_set_owner_only := mem_set_owner_only |}.

Definition mem_empty : MemState := mkMemState ∅ ∅ ∅.

Lemma length_resize0 n l : length (resize0 n l) = length l `max` n.
Proof. unfold resize0. rewrite length_app, length_replicate. lia. Qed.

Lemma resize0_id n l : n ≤ length l → resize0 n l = l.
Proof. intros H. unfold resize0. replace (n - length l) with 0 by lia. apply app_nil_r. Qed.

Lemma strip_prefix_app d p : strip_prefix d (d ++ p) = Some p.
Proof. induction d as [|c d IH]; simpl; [done|]. by rewrite decide_True. Qed.

Lemma strip_prefix_Some d p r : strip_prefix d p = Some r → p = d ++ r.
Proof.
  revert p. induction d as [|c d IH]; intros p; simpl; [by intros [= ->]|].
  destruct p as [|y p]; [done|]. case_decide as He; [|done]. subst y. intros Hp%IH. by rewrite Hp.
Qed.

(** What a listing of children contains. *)
Lemma child_listing d (ps : list path) :
  let es := bset_to_list path_le (list_to_set (omap (child_of d) ps)) in
  NoDup es ∧ (∀ q, q ∈ es → ∃ n, q = d ++ [n]) ∧ ∀ n, d ++ [n] ∈ ps → d ++ [n] ∈ es.
Proof.
  simpl. split_and!.
  - unfold bset_to_list. rewrite merge_sort_Permutation. apply NoDup_elements.
  - intros q. rewrite elem_of_bset, elem_of_list_to_set, list_elem_of_omap. intros (p&_&Hc).
    unfold child_of in Hc. destruct (strip_prefix d p) as [[|c r]|]; [done| |done]. injection Hc as <-. by exists c.
  - intros n Hn. rewrite elem_of_bset, elem_of_list_to_set, list_elem_of_omap.
    exists (d ++ [n]). split; [done|]. unfold child_of. by rewrite strip_prefix_app.
Qed.

#[global] Program Instance MemFs_laws : VaultFsLaws MemState := {|
  files := mem_files; fs_inv _ := True; fs_path _ := True |}.
Solve All Obligations with (intros; simpl; repeat split; auto).
Next Obligation. intros p off len fs _. simpl. unfold mem_read_range. by destruct (mem_files fs !! p). Qed.
Next Obligation.
  intros p off b fs _ _. simpl. unfold mem_write_range.
  destruct (mem_files fs !! p) as [l|]; [|done]. split_and!; [done..|]. simpl. f_equal.
  unfold splice. case_decide; [done|]. rewrite resize0_id; [done|lia].
Qed.
Next Obligation. intros p q fs _ _ _ _. simpl. unfold mem_rename. by destruct (mem_files fs !! p). Qed.
Next Obligation. intros p fs _ _. simpl. unfold mem_remove_file. by destruct (mem_files fs !! p). Qed.
Next Obligation.
  intros p fs _. simpl. unfold mem_exists. rewrite orb_true_iff, bool_decide_eq_true. split; [by left|].
  intros [H|H]; [by left|by right].
Qed.
Next Obligation.
  intros d es fs _. simpl. unfold mem_read_dir. case_decide; [|done]. intros [= <-].
  destruct (child_listing d (btree_keys path_le (mem_files fs) ++ bset_to_list path_le (mem_dirs fs))) as (?&?&Hl).
  split_and!; [done..|]. intros n Hn. apply Hl, elem_of_app. left. by apply elem_of_btree_keys.
Qed.
Next Obligation. intros p fs _ _. simpl. unfold mem_set_owner_only. by destruct (mem_files fs !! p). Qed.

(** ** Storage with room

    What a backend does while nothing runs out: writes, synced appends and renames of files that
    are there succeed, and only [create_dir_all] makes directories.  A listing shows what is
    there: files, directories, and the directories above them. *)
Class FsAccepts (Fs : Type) `{VaultFsLaws Fs} := {
  fs_dirs : Fs → gset path;
  acc_write p b f : fs_inv f → fs_path p → is_ok (fs_write p b f).1 = true ∧ fs_dirs (fs_write p b f).2 = fs_dirs f;
  acc_append_sync p b f : fs_inv f → fs_path p →
    is_ok (fs_append_sync p b f).1 = true ∧ fs_dirs (fs_append_sync p b f).2 = fs_dirs f;
  acc_rename p q f : fs_inv f → fs_path p → fs_path q → p ≠ q → is_Some (files f !! p) →
    is_ok (fs_rename p q f).1 = true ∧ fs_dirs (fs_rename p q f).2 = fs_dirs f;
  acc_mkdir p f q : fs_inv f → q ∈ fs_dirs (fs_create_dir_all p f).2 → q ∈ fs_dirs f ∨ q `prefix_of` p;
  acc_list d f : fs_inv f →
    match fs_read_dir d f with
    | Err e => e = NotFound
    | Ok es => ∀ q, q ∈ es → ∃ x, q `prefix_of` x ∧ (is_Some (files f !! x) ∨ x ∈ fs_dirs f)
    end;
}.

Lemma prefixes_prefix cur p q : q ∈ prefixes cur p → q `prefix_of` cur ++ p.
Proof.
  revert cur. induction p as [|c p IH]; intros cur; simpl; [by intros ?%elem_of_nil|].
  intros [->|Hq%IH]%elem_of_cons.
  - exists p. by rewrite <-(assoc_L (++)).
  - by rewrite <-(assoc_L (++)) in Hq.
Qed.
#[global] Program Instance MemFs_accepts : FsAccepts MemState := {| fs_dirs := mem_dirs |}.
Solve All Obligations with (intros; simpl; auto).
Next Obligation. intros p q f _ _ _ _ [b Hb]. simpl in *. unfold mem_rename. by rewrite Hb. Qed.
Next Obligation.
  intros p f q _. simpl. rewrite elem_of_union, elem_of_list_to_set. intros [Hq%prefixes_prefix|]; [by right|by left].
Qed.
Next Obligation.
  intros d f _. simpl. unfold mem_read_dir. case_decide; [|done]. intros q.
  rewrite elem_of_bset, elem_of_list_to_set, list_elem_of_omap. intros (x&Hx&Hc). exists x. split.
  - unfold child_of in Hc. destruct (strip_prefix d x) as [[|c r]|] eqn:E; [done| |done]. injection Hc as <-.
    exists r. rewrite <-(assoc_L (++)). by apply strip_prefix_Some.
  - apply elem_of_app in Hx as [Hx|Hx]; [left|right].
    + by apply elem_of_btree_keys in Hx.
    + by apply elem_of_bset in Hx.
Qed.

(** ** Range arithmetic shared by the backends *)
Lemma splice_0 h' h d : length h = length h' → splice 0 h' (h ++ d) = h' ++ d.
Proof.
  intros Hl. unfold splice. rewrite resize0_id by (rewrite length_app; lia).
  rewrite take_0; simpl. f_equal. rewrite <-Hl. apply drop_app_length.
Qed.

Lemma splice_app off b h d : splice (length h + off) b (h ++ d) = h ++ splice off b d.
Proof.
  unfold splice, resize0. rewrite length_app.
  replace (length h + off + length b - (length h + length d)) with (off + length b - length d) by lia.
  rewrite <-!(assoc_L (++)), take_app_add, <-Nat.add_assoc, drop_app_add.
  by rewrite <-!(assoc_L (++)).
Qed.

Lemma splice_end b l : splice (length l) b l = l ++ b.
Proof.
  unfold splice. unfold resize0 at 1. rewrite take_app_length. f_equal.
  rewrite drop_ge; [apply app_nil_r|]. rewrite length_resize0. lia.
Qed.

Lemma length_splice off b l : length (splice off b l) = length l `max` (off + length b).
Proof.
  unfold splice. rewrite !length_app, length_take, length_drop, length_resize0. lia.
Qed.
