(* ===== verification/VfsPool.v ===== *)
(** * VfsPool: a filesystem on pre-opened slots (crates/roam-storage/src/vfs_pool.rs)

    The slot header codec, the [SlotPool] operations and their refinement of the
    [VaultFs] laws; a slot is the byte string of its backing file. *)
From S2P Require Import Prelude RustStr Vfs.
From Stdlib Require Import Strings.Byte.

(** ** Slots: the trait's documented behaviour on a byte string *)
Abbreviation slot := bytes (only parsing).
Definition slot_size (s : slot) : nat := length s.
Definition slot_truncate (n : nat) (s : slot) : slot := take n (resize0 n s).
Definition slot_read_at (off len : nat) (s : slot) : bytes := take len (drop off s).
Definition slot_write_at (off : nat) (b : bytes) (s : slot) : slot := splice off b s.

(** ** Headers *)
Definition HEADER_LEN : nat := 1024.
Definition MAGIC : bytes := utf8 (str "ROAMSAH1").
Definition MAX_NAME : nat := HEADER_LEN - 11.

Record Header := mkHeader { h_name : rstring; h_owner_only : bool }.
Definition header_default : Header := mkHeader [] false.

Definition header_encode (h : Header) : bytes :=
  MAGIC ++ [if h_owner_only h then Byte.x01 else Byte.x00] ++
  le_bytes 2 (N.of_nat (length (utf8 (h_name h)))) ++ utf8 (h_name h) ++
  replicate (HEADER_LEN - 11 - length (utf8 (h_name h))) Byte.x00.

(** [bytes.get(a..a + n)] *)
Definition get_range (a n : nat) (l : bytes) : option bytes :=
  if decide (a + n ≤ length l) then Some (take n (drop a l)) else None.

Definition header_decode (l : bytes) : option Header :=
  if decide (length l < 11 ∨ take 8 l ≠ MAGIC) then None
  else
    let len := N.to_nat (from_le (take 2 (drop 9 l))) in
    raw ← get_range 11 len l;
    name ← from_utf8 raw;
    Some (mkHeader name (N.testbit (Byte.to_N (default Byte.x00 (l !! 8))) 0)).

Definition read_header (s : slot) : Header :=
  default header_default (header_decode (slot_read_at 0 HEADER_LEN s)).

Definition write_header (h : Header) (s : slot) : result io_error slot :=
  if decide (MAX_NAME < length (utf8 (h_name h))) then Err InvalidInput
  else Ok (slot_write_at 0 (header_encode h) s).

(** ** Paths: [PathBuf::from] and [to_str] of a slash-separated path *)
Definition SLASH : rchar := 47.
Definition path_str (p : path) : rstring := join_on SLASH p.
Definition path_from (s : rstring) : path := split_on SLASH s.

(** ** The pool *)
Record PoolState := mkPool {
  slots : list slot;
  names : gmap path nat;
  dirs : gset path;
  free : list nat;
}.

Definition slot_at (st : PoolState) (i : nat) : slot := default [] (slots st !! i).
Definition set_slot (i : nat) (s : slot) (st : PoolState) : PoolState :=
  mkPool (<[i := s]> (slots st)) (names st) (dirs st) (free st).

(** [adopt]: rebuild the path map from the headers, refusing a double claim. *)
Fixpoint adopt_go (i : nat) (ss : list slot) (nm : gmap path nat) (fr : list nat)
    : result io_error (gmap path nat * list nat) :=
  match ss with
  | [] => Ok (nm, fr)
  | s :: ss =>
      match header_decode (slot_read_at 0 HEADER_LEN s) with
      | Some h =>
          if decide (h_name h = []) then adopt_go (S i) ss nm (fr ++ [i])
          else if decide (is_Some (nm !! path_from (h_name h))) then Err InvalidData
          else adopt_go (S i) ss (<[path_from (h_name h) := i]> nm) fr
      | None => adopt_go (S i) ss nm (fr ++ [i])
      end
  end.
Definition adopt (ss : list slot) : result io_error PoolState :=
  '(nm, fr) ← adopt_go 0 ss ∅ [];
  mret (mkPool ss nm ∅ fr).

Definition free_slots (st : PoolState) : nat := length (free st).
Definition capacity (st : PoolState) : nat := length (slots st).

Definition add_slot (s : slot) : SM PoolState io_error unit := λ st,
  let h := read_header s in
  let i := length (slots st) in
  let ss := slots st ++ [s] in
  if decide (h_name h = [])
  then (Ok tt, mkPool ss (names st) (dirs st) (free st ++ [i]))
  else
    let nm := <[path_from (h_name h) := i]> (names st) in
    let st' := mkPool ss nm (dirs st) (free st) in
    if decide (is_Some (names st !! path_from (h_name h))) then (Err InvalidData, st')
    else (Ok tt, st').

Definition index_of (p : path) (st : PoolState) : result io_error nat := ok_or (names st !! p) NotFound.

Definition pool_is_owner_only (p : path) (st : PoolState) : bool :=
  match names st !! p with
  | Some i => h_owner_only (read_header (slot_at st i))
  | None => false
  end.

(** Find a path's slot, claiming the last free one if it has none. *)
Definition index_or_claim (p : path) : SM PoolState io_error nat := λ st,
  match names st !! p with
  | Some i => (Ok i, st)
  | None =>
      match last (free st) with
      | None => (Err StorageFull, st)
      | Some i =>
          match write_header (mkHeader (path_str p) false) (slot_at st i) with
          | Err e => (Err e, st)
          | Ok s =>
              (Ok i, mkPool (<[i := slot_truncate HEADER_LEN s]> (slots st))
                       (<[p := i]> (names st)) (dirs st)
                       (take (length (free st) - 1) (free st)))
          end
      end
  end.

Definition len_of (i : nat) (st : PoolState) : nat := slot_size (slot_at st i) - HEADER_LEN.

Definition pool_read (p : path) (st : PoolState) : result io_error bytes :=
  i ← index_of p st;
  mret (slot_read_at HEADER_LEN (len_of i st) (slot_at st i)).

Definition pool_read_range (p : path) (off len : nat) (st : PoolState) : result io_error bytes :=
  i ← index_of p st;
  let size := len_of i st in
  let start := off `min` size in
  let want := len `min` (size - start) in
  mret (slot_read_at (HEADER_LEN + start) want (slot_at st i)).

Definition pool_update (i : nat) (f : slot → slot) : SM PoolState io_error unit := λ st,
  (Ok tt, set_slot i (f (slot_at st i)) st).

Definition pool_write (p : path) (b : bytes) : SM PoolState io_error unit :=
  i ← index_or_claim p;
  pool_update i (λ s, slot_write_at HEADER_LEN b (slot_truncate HEADER_LEN s)).

Definition pool_append (p : path) (b : bytes) : SM PoolState io_error unit :=
  i ← index_or_claim p;
  pool_update i (λ s, slot_write_at (slot_size s `max` HEADER_LEN) b s).

(** [flush] has no effect on the bytes. *)
Definition pool_append_sync (p : path) (b : bytes) : SM PoolState io_error unit :=
  _ ← pool_append p b;
  st ← sm_get;
  _ ← sm_lift (index_of p st);
  mret tt.

Definition pool_create_sized (p : path) (n : nat) : SM PoolState io_error unit :=
  i ← index_or_claim p;
  pool_update i (λ s, slot_truncate (HEADER_LEN + n) (slot_truncate HEADER_LEN s)).

Definition pool_write_range (p : path) (off : nat) (b : bytes) : SM PoolState io_error unit :=
  st ← sm_get;
  i ← sm_lift (index_of p st);
  pool_update i (slot_write_at (HEADER_LEN + off) b).

Definition pool_create_dir_all (p : path) : SM PoolState io_error unit := λ st,
  (Ok tt, mkPool (slots st) (names st) (list_to_set (prefixes [] p) ∪ dirs st) (free st)).

(** Clear a slot's name, cut it to its header and return it to the pool. *)
Definition release (i : nat) (st : PoolState) : PoolState :=
  mkPool (<[i := slot_truncate HEADER_LEN (slot_write_at 0 (header_encode header_default) (slot_at st i))]>
            (slots st))
    (names st) (dirs st) (free st ++ [i]).

Definition with_names (nm : gmap path nat) (st : PoolState) : PoolState :=
  mkPool (slots st) nm (dirs st) (free st).

Definition pool_rename (p q : path) : SM PoolState io_error unit := λ st,
  match names st !! p with
  | None => (Err NotFound, st)
  | Some i =>
      let st1 := match names st !! q with
                 | Some d => release d (with_names (delete q (names st)) st)
                 | None => st
                 end in
      let h := read_header (slot_at st1 i) in
      match write_header (mkHeader (path_str q) (h_owner_only h)) (slot_at st1 i) with
      | Err e => (Err e, st1)
      | Ok s =>
          let st2 := set_slot i s st1 in
          (Ok tt, with_names (<[q := i]> (delete p (names st2))) st2)
      end
  end.

Definition pool_remove_file (p : path) : SM PoolState io_error unit := λ st,
  match names st !! p with
  | None => (Err NotFound, st)
  | Some i => (Ok tt, with_names (delete p (names st)) (release i st))
  end.

Definition pool_read_dir (dir : path) (st : PoolState) : result io_error (list path) :=
  let existing := btree_keys path_le (names st) ++ bset_to_list path_le (dirs st) in
  let out := omap (child_of dir) existing in
  if decide (dir ∈ dirs st ∨ out ≠ [])
  then Ok (bset_to_list path_le (list_to_set out)) else Err NotFound.

Definition pool_file_len (p : path) (st : PoolState) : result io_error nat :=
  i ← index_of p st; mret (len_of i st).

Definition pool_exists (p : path) (st : PoolState) : bool :=
  bool_decide (is_Some (names st !! p)) || bool_decide (p ∈ dirs st).

Definition pool_is_dir (p : path) (st : PoolState) : bool :=
  bool_decide (p ∈ dirs st) ||
  existsb (λ x, match strip_prefix p x with Some (_ :: _) => true | _ => false end)
    (btree_keys path_le (names st)).

Definition pool_set_owner_only (p : path) : SM PoolState io_error unit := λ st,
  match names st !! p with
  | None => (Err NotFound, st)
  | Some i =>
      let h := read_header (slot_at st i) in
      match write_header (mkHeader (h_name h) true) (slot_at st i) with
      | Err e => (Err e, st)
      | Ok s => (Ok tt, set_slot i s st)
      end
  end.

#[global] Instance SlotPool : VaultFs PoolState := {|
  fs_read := pool_read; fs_read_range := pool_read_range; fs_write := pool_write;
  fs_append := pool_append; fs_append_sync := pool_append_sync;
  fs_create_sized := pool_create_sized; fs_write_range := pool_write_range;
  fs_create_dir_all := pool_create_dir_all; fs_rename := pool_rename;
  fs_remove_file := pool_remove_file; fs_read_dir := pool_read_dir;
  fs_file_len := pool_file_len; fs_exists := pool_exists; fs_is_dir := pool_is_dir;
  fs_set_owner_only := pool_set_owner_only |}.

(** ** The header codec *)
Definition header_wf (h : Header) : Prop :=
  forallb is_scalar (h_name h) = true ∧ length (utf8 (h_name h)) ≤ MAX_NAME.

Lemma length_header_encode h : header_wf h → length (header_encode h) = HEADER_LEN.
Proof.
  intros [_ Hl]. unfold header_encode, MAX_NAME, HEADER_LEN in *.
  rewrite !length_app, length_le_bytes, length_replicate.
  change (length MAGIC) with 8. simpl length. lia.
Qed.

Lemma header_decode_encode h data :
  header_wf h →
  header_decode (slot_read_at 0 HEADER_LEN (header_encode h ++ data)) = Some h.
Proof.
  intros Hwf. pose proof (length_header_encode h Hwf) as Hlen.
  unfold slot_read_at. rewrite drop_0, <-Hlen, take_app_length.
  destruct Hwf as [Hs Hl]. unfold header_decode.
  assert (take 8 (header_encode h) = MAGIC) as Hmagic by (unfold header_encode; by apply take_app_length').
  rewrite Hlen, decide_False by (rewrite Hmagic; unfold HEADER_LEN; intros [?|?]; [lia|done]).
  set (z := replicate (HEADER_LEN - 11 - length (utf8 (h_name h))) Byte.x00).
  set (fl := if h_owner_only h then Byte.x01 else Byte.x00).
  assert (header_encode h = (MAGIC ++ [fl]) ++ le_bytes 2 (N.of_nat (length (utf8 (h_name h)))) ++
    utf8 (h_name h) ++ z) as Henc by done.
  assert (take 2 (drop 9 (header_encode h)) = le_bytes 2 (N.of_nat (length (utf8 (h_name h))))) as ->.
  { rewrite Henc, drop_app_length' by done. apply take_app_length'. by rewrite length_le_bytes. }
  rewrite from_le_le_bytes, N.mod_small.
  2:{ unfold MAX_NAME, HEADER_LEN in Hl. change (256 ^ N.of_nat 2)%N with 65536%N. lia. }
  rewrite Nat2N.id. unfold get_range. rewrite Hlen, decide_True
    by (unfold MAX_NAME, HEADER_LEN in *; lia).
  assert (take (length (utf8 (h_name h))) (drop 11 (header_encode h)) = utf8 (h_name h)) as ->.
  { rewrite Henc, (assoc_L (++)), drop_app_length' by (rewrite length_app, length_le_bytes; done).
    apply take_app_length. }
  cbn [mbind option_bind]. rewrite from_utf8_utf8 by done. f_equal.
  assert (header_encode h !! 8 = Some fl) as Hfl.
  { rewrite Henc, lookup_app_l by (rewrite length_app; simpl; lia). done. }
  rewrite Hfl. unfold fl. by destruct h as [n []].
Qed.

(** A slot header survives the slot: whatever data follows it, decoding the
    first 1024 bytes of a slot gives back the header that was encoded, name and
    owner-only flag included. *)
Theorem header_roundtrip h data :
  header_wf h →
  header_decode (slot_read_at 0 HEADER_LEN (header_encode h ++ data)) = Some h.
Proof. apply header_decode_encode. Qed.

Lemma read_header_encode h data : header_wf h → read_header (header_encode h ++ data) = h.
Proof. intros Hwf. unfold read_header. by rewrite header_decode_encode. Qed.

Lemma drop_header h data : header_wf h → drop HEADER_LEN (header_encode h ++ data) = data.
Proof. intros Hwf. rewrite <-(length_header_encode h Hwf). apply drop_app_length. Qed.

Lemma truncate_header h data :
  header_wf h → slot_truncate HEADER_LEN (header_encode h ++ data) = header_encode h.
Proof.
  intros Hwf. pose proof (length_header_encode h Hwf) as Hl. unfold slot_truncate.
  rewrite resize0_id by (rewrite length_app; lia). rewrite <-Hl. apply take_app_length.
Qed.

Lemma truncate_write_header h s :
  header_wf h → slot_truncate HEADER_LEN (slot_write_at 0 (header_encode h) s) = header_encode h.
Proof.
  intros Hwf. pose proof (length_header_encode h Hwf) as Hl. unfold slot_write_at, splice.
  rewrite take_0; simpl. by apply truncate_header.
Qed.

Lemma write_header_again h h' data :
  header_wf h → header_wf h' →
  slot_write_at 0 (header_encode h') (header_encode h ++ data) = header_encode h' ++ data.
Proof. intros H H'. apply splice_0. by rewrite !length_header_encode. Qed.

Lemma header_default_wf : header_wf header_default.
Proof. split; [done|]. unfold MAX_NAME, HEADER_LEN. simpl. lia. Qed.

Opaque HEADER_LEN MAX_NAME header_encode.

(** ** Paths a slot can name *)
Definition comp_ok (c : rstring) : Prop := (SLASH ∉ c) ∧ forallb is_scalar c = true.
Definition pool_path (p : path) : Prop := p ≠ [] ∧ p ≠ [[]] ∧ Forall comp_ok p.

Lemma path_from_str p : pool_path p → path_from (path_str p) = p.
Proof.
  intros (Hne&_&Hok). apply split_join; [done|]. eapply Forall_impl; [exact Hok|].
  by intros c [? _].
Qed.
Lemma path_str_inj p q : pool_path p → pool_path q → path_str p = path_str q → p = q.
Proof. intros Hp Hq Heq. by rewrite <-(path_from_str p), Heq, path_from_str. Qed.
Lemma path_str_nonempty p : pool_path p → path_str p ≠ [].
Proof.
  intros Hp Heq. pose proof (path_from_str p Hp) as H. rewrite Heq in H.
  destruct Hp as (_&Hp&_). by apply Hp.
Qed.
Lemma forallb_app_N (f : N → bool) l k :
  forallb f (l ++ k) = (forallb f l && forallb f k).
Proof. induction l; simpl; [done|]. by rewrite IHl, andb_assoc. Qed.
Lemma path_str_scalar p : Forall comp_ok p → forallb is_scalar (path_str p) = true.
Proof.
  unfold path_str. induction 1 as [|c p [_ Hc] Hp IH]; [done|].
  destruct p as [|d p]; [done|].
  change (join_on SLASH (c :: d :: p)) with (c ++ SLASH :: join_on SLASH (d :: p)).
  rewrite forallb_app_N, Hc. simpl. exact IH.
Qed.

(** ** The invariant

    Every slot is free or names exactly one path; a named slot's header names
    the path it is mapped under. *)
Definition slot_free (s : slot) : Prop := h_name (read_header s) = [].
Definition slot_names (p : path) (s : slot) : Prop :=
  ∃ o data, header_wf (mkHeader (path_str p) o) ∧
            s = header_encode (mkHeader (path_str p) o) ++ data.

Record pool_inv (st : PoolState) : Prop := {
  inv_named p i : names st !! p = Some i →
    pool_path p ∧ ∃ s, slots st !! i = Some s ∧ slot_names p s;
  inv_inj p q i : names st !! p = Some i → names st !! q = Some i → p = q;
  inv_free_nodup : NoDup (free st);
  inv_free i : i ∈ free st → (∃ s, slots st !! i = Some s ∧ slot_free s) ∧ ∀ p, names st !! p ≠ Some i;
  inv_cover i : i < length (slots st) → i ∈ free st ∨ ∃ p, names st !! p = Some i;
}.

Definition pool_files (st : PoolState) : gmap path bytes :=
  (λ i, drop HEADER_LEN (slot_at st i)) <$> names st.

Lemma named_slot st p i :
  pool_inv st → names st !! p = Some i →
  ∃ o data, header_wf (mkHeader (path_str p) o) ∧
    slots st !! i = Some (header_encode (mkHeader (path_str p) o) ++ data) ∧
    slot_at st i = header_encode (mkHeader (path_str p) o) ++ data ∧
    pool_files st !! p = Some data.
Proof.
  intros Hinv Hp. destruct (inv_named _ Hinv _ _ Hp) as (_&s&Hs&o&data&Hwf&->).
  exists o, data. unfold pool_files, slot_at. rewrite lookup_fmap, Hp, Hs; simpl.
  split_and!; try done. f_equal. rewrite Hs; simpl. by apply drop_header.
Qed.

Lemma pool_files_None st p : names st !! p = None → pool_files st !! p = None.
Proof. intros H. unfold pool_files. by rewrite lookup_fmap, H. Qed.

(** Rewriting a named slot's data, or its header for the same path, keeps the
    invariant and changes that one file. *)
Lemma update_named st p i o data :
  pool_inv st → names st !! p = Some i → header_wf (mkHeader (path_str p) o) →
  let st' := set_slot i (header_encode (mkHeader (path_str p) o) ++ data) st in
  pool_inv st' ∧ pool_files st' = <[p := data]> (pool_files st).
Proof.
  intros Hinv Hp Hwf st'.
  destruct (inv_named _ Hinv _ _ Hp) as (Hpp&s0&Hs0&_).
  pose proof (lookup_lt_Some _ _ _ Hs0) as Hi.
  assert (slots st' !! i = Some (header_encode (mkHeader (path_str p) o) ++ data)) as Hnew.
  { by apply list_lookup_insert_eq. }
  split.
  - constructor; simpl.
    + intros q j Hq. destruct (decide (i = j)) as [<-|Hne].
      * rewrite (inv_inj _ Hinv _ _ _ Hq Hp). split; [done|]. eexists; split; [done|]. by exists o, data.
      * rewrite list_lookup_insert_ne by done. by apply (inv_named _ Hinv).
    + apply (inv_inj _ Hinv).
    + apply (inv_free_nodup _ Hinv).
    + intros j Hj. destruct (inv_free _ Hinv _ Hj) as [Hs Hn]. split; [|done].
      assert (i ≠ j) by (intros ->; by eapply Hn). by rewrite list_lookup_insert_ne.
    + rewrite length_insert. apply (inv_cover _ Hinv).
  - apply map_eq. intros q. unfold pool_files. rewrite lookup_insert, !lookup_fmap. simpl.
    case_decide as Hq.
    + subst q. rewrite Hp; simpl. unfold slot_at. rewrite Hnew; simpl. f_equal.
      by apply drop_header.
    + destruct (names st !! q) as [j|] eqn:Hj; simpl; [|done]. f_equal. f_equal. unfold slot_at; simpl.
      rewrite list_lookup_insert_ne; [done|]. intros ->. apply Hq. by eapply (inv_inj _ Hinv).
Qed.

(** Claiming: on success the path is mapped to a slot that holds an empty file
    (or keeps the file it had); on failure nothing changes. *)
Lemma index_or_claim_spec st p :
  pool_inv st → pool_path p →
  match index_or_claim p st with
  | (Ok i, st') => pool_inv st' ∧ names st' !! p = Some i ∧
      pool_files st' = <[p := default [] (pool_files st !! p)]> (pool_files st)
  | (Err _, st') => st' = st
  end.
Proof.
  intros Hinv Hpp. unfold index_or_claim. destruct (names st !! p) as [i|] eqn:Hp.
  { destruct (named_slot _ _ _ Hinv Hp) as (o&data&_&_&_&Hd).
    split_and!; try done. rewrite Hd; simpl. by rewrite insert_id. }
  destruct (last (free st)) as [i|] eqn:Hlast; [|done].
  unfold write_header. case_decide as Hlen; [done|].
  assert (header_wf (mkHeader (path_str p) false)) as Hwf.
  { split; [apply path_str_scalar; by destruct Hpp as (_&_&?)|simpl in *; lia]. }
  rewrite truncate_write_header by done.
  apply last_Some in Hlast as [fr Hfr]. rewrite Hfr.
  replace (length (fr ++ [i]) - 1) with (length fr) by (rewrite length_app; simpl; lia).
  rewrite take_app_length.
  pose proof (inv_free_nodup _ Hinv) as Hnd. rewrite Hfr in Hnd.
  apply NoDup_app in Hnd as (Hnd&Hdisj&_).
  destruct (inv_free _ Hinv i) as [(s&Hs&_) Hn]; [rewrite Hfr; set_solver|].
  pose proof (lookup_lt_Some _ _ _ Hs) as Hi.
  split_and!.
  - constructor; simpl.
    + intros q j. rewrite lookup_insert. case_decide as Hq.
      * intros [= <-]. subst q. split; [done|]. eexists; split; [by apply list_lookup_insert_eq|].
        exists false, []. by rewrite app_nil_r.
      * intros Hj. rewrite list_lookup_insert_ne by (intros ->; by eapply Hn).
        by apply (inv_named _ Hinv).
    + intros q q' j. rewrite !lookup_insert. repeat case_decide; intros; simplify_eq; try done.
      all: try (exfalso; by eapply Hn). by eapply (inv_inj _ Hinv).
    + done.
    + intros j Hj. assert (i ≠ j) by set_solver.
      destruct (inv_free _ Hinv j) as [Hs' Hn']; [rewrite Hfr; set_solver|].
      split; [by rewrite list_lookup_insert_ne|]. intros q. rewrite lookup_insert.
      case_decide; [congruence|apply Hn'].
    + rewrite length_insert. intros j Hj. destruct (decide (i = j)) as [<-|Hne].
      * right. exists p. apply lookup_insert_eq.
      * destruct (inv_cover _ Hinv j Hj) as [Hin|[q Hq]].
        -- left. rewrite Hfr in Hin. set_solver.
        -- right. exists q. rewrite lookup_insert_ne; [done|]. intros ->. congruence.
  - apply lookup_insert_eq.
  - rewrite (pool_files_None st p Hp). simpl. apply map_eq. intros q.
    unfold pool_files. rewrite lookup_insert, !lookup_fmap. simpl. rewrite lookup_insert.
    case_decide as Hq; simpl.
    + f_equal. unfold slot_at; simpl. rewrite list_lookup_insert_eq by done. simpl.
      rewrite drop_ge; [done|]. by rewrite length_header_encode.
    + destruct (names st !! q) as [j|] eqn:Hj; simpl; [|done]. do 2 f_equal. unfold slot_at; simpl.
      rewrite list_lookup_insert_ne; [done|]. intros ->. by eapply Hn.
Qed.

(** ** The operations keep the laws *)
Lemma claim_update_spec st p f g :
  (∀ h data, header_wf h → f (header_encode h ++ data) = header_encode h ++ g data) →
  pool_inv st → pool_path p →
  let '(r, st') := (i ← index_or_claim p; pool_update i f) st in
  pool_inv st' ∧
  pool_files st' = files_after r (<[p := g (default [] (pool_files st !! p))]> (pool_files st)) (pool_files st) ∧
  (r = Ok tt → is_Some (names st' !! p)).
Proof.
  intros Hf Hinv Hpp. pose proof (index_or_claim_spec st p Hinv Hpp) as Hc.
  unfold mbind, SM_bind. destruct (index_or_claim p st) as [[i|e] st1] eqn:E; [|by subst].
  destruct Hc as (Hinv1&Hp1&Hfiles1). unfold pool_update.
  destruct (named_slot _ _ _ Hinv1 Hp1) as (o&data&Hwf&_&Hs&Hd).
  rewrite Hs, Hf by done.
  destruct (update_named st1 p i o (g data) Hinv1 Hp1 Hwf) as [Hinv2 Hfiles2].
  split_and!; [done| |by intros _; simpl; rewrite Hp1].
  rewrite Hfiles2, Hfiles1, insert_insert_eq. simpl. do 2 f_equal.
  rewrite Hfiles1, lookup_insert_eq in Hd. congruence.
Qed.

Lemma release_spec st q d :
  pool_inv st → names st !! q = Some d →
  let st' := release d (with_names (delete q (names st)) st) in
  pool_inv st' ∧ pool_files st' = delete q (pool_files st).
Proof.
  intros Hinv Hq st'. destruct (inv_named _ Hinv _ _ Hq) as (Hqp&s0&Hs0&_).
  pose proof (lookup_lt_Some _ _ _ Hs0) as Hd.
  assert (∀ p i, delete q (names st) !! p = Some i → d ≠ i ∧ names st !! p = Some i) as Hother.
  { intros p i [Hne Hp]%lookup_delete_Some. split; [|done]. intros ->. apply Hne. by eapply (inv_inj _ Hinv). }
  split.
  - unfold st', release, with_names; constructor; simpl; rewrite ?truncate_write_header by apply header_default_wf.
    + intros p i [Hne Hp]%Hother. rewrite list_lookup_insert_ne by done. by apply (inv_named _ Hinv).
    + intros p p' i [_ Hp]%Hother [_ Hp']%Hother. by eapply (inv_inj _ Hinv).
    + apply NoDup_app. split_and!; [apply (inv_free_nodup _ Hinv)| |apply NoDup_singleton].
      intros i Hi ->%list_elem_of_singleton. apply (inv_free _ Hinv) in Hi as [_ Hn]. by eapply Hn.
    + intros i [Hi| ->%list_elem_of_singleton]%elem_of_app.
      * destruct (inv_free _ Hinv _ Hi) as [Hs Hn].
        assert (d ≠ i) by (intros ->; by eapply Hn).
        rewrite list_lookup_insert_ne by done. split; [done|]. by intros p [_ ?%Hn]%Hother.
      * split; [|by intros p [? _]%Hother]. eexists; split; [by apply list_lookup_insert_eq|].
        unfold slot_free. rewrite <-(app_nil_r (header_encode _)), read_header_encode; [done|].
        apply header_default_wf.
    + rewrite length_insert. intros i Hi. rewrite elem_of_app, list_elem_of_singleton.
      destruct (inv_cover _ Hinv i Hi) as [?|[p Hp]]; [by left; left|].
      destruct (decide (p = q)) as [->|Hne]; [left; right; congruence|].
      right. exists p. by rewrite lookup_delete_ne.
  - unfold st', release, with_names, pool_files; simpl. apply map_eq. intros p.
    rewrite lookup_fmap, !lookup_delete. case_decide; [done|]. rewrite lookup_fmap.
    destruct (names st !! p) as [i|] eqn:Hp; simpl; [|done]. do 2 f_equal. unfold slot_at; simpl.
    rewrite list_lookup_insert_ne; [done|]. eapply Hother. by rewrite lookup_delete_ne.
Qed.

Lemma rename_fresh_spec st p q i o data :
  pool_inv st → names st !! p = Some i → names st !! q = None → pool_path q →
  header_wf (mkHeader (path_str q) o) → pool_files st !! p = Some data →
  let st2 := set_slot i (header_encode (mkHeader (path_str q) o) ++ data) st in
  let st' := with_names (<[q := i]> (delete p (names st2))) st2 in
  pool_inv st' ∧ pool_files st' = <[q := data]> (delete p (pool_files st)).
Proof.
  intros Hinv Hp Hq Hqp Hwf Hd st2 st'. destruct (inv_named _ Hinv _ _ Hp) as (_&s0&Hs0&_).
  pose proof (lookup_lt_Some _ _ _ Hs0) as Hi.
  assert (∀ x j, <[q := i]> (delete p (names st)) !! x = Some j →
    x = q ∧ j = i ∨ x ≠ q ∧ x ≠ p ∧ i ≠ j ∧ names st !! x = Some j) as Hcase.
  { intros x j. rewrite lookup_insert, lookup_delete. repeat case_decide; intros; simplify_eq; auto.
    right. split_and!; try done. intros ->. apply H0. by eapply (inv_inj _ Hinv). }
  split.
  - unfold st', st2, with_names; constructor; simpl.
    + intros x j [[-> ->]|(_&_&Hne&Hx)]%Hcase.
      * split; [done|]. eexists; split; [by apply list_lookup_insert_eq|]. by exists o, data.
      * rewrite list_lookup_insert_ne by done. by apply (inv_named _ Hinv).
    + intros x y j [[-> ->]|(?&_&Hne&Hx)]%Hcase [[-> ?]|(?&_&Hne'&Hy)]%Hcase; try done.
      by eapply (inv_inj _ Hinv).
    + apply (inv_free_nodup _ Hinv).
    + intros j Hj. destruct (inv_free _ Hinv _ Hj) as [Hs Hn].
      assert (i ≠ j) by (intros ->; by eapply Hn). split; [by rewrite list_lookup_insert_ne|].
      by intros x [[-> ->]|(_&_&_&?%Hn)]%Hcase.
    + rewrite length_insert. intros j Hj. destruct (decide (i = j)) as [<-|Hne].
      { right. exists q. apply lookup_insert_eq. }
      destruct (inv_cover _ Hinv j Hj) as [?|[x Hx]]; [by left|]. right. exists x.
      rewrite lookup_insert_ne, lookup_delete_ne; [done| |]; intros ->; congruence.
  - unfold st', st2, with_names, pool_files; simpl. apply map_eq. intros x.
    rewrite lookup_fmap. destruct (<[q := i]> (delete p (names st)) !! x) as [j|] eqn:Hx; simpl.
    + apply Hcase in Hx as [[-> ->]|(Hxq&Hxp&Hne&Hx)]; unfold slot_at; simpl.
      * rewrite lookup_insert_eq, list_lookup_insert_eq by done. simpl. f_equal. by apply drop_header.
      * rewrite lookup_insert_ne, lookup_delete_ne, lookup_fmap, Hx by done. simpl.
        by rewrite list_lookup_insert_ne.
    + apply lookup_insert_None in Hx as [[->|Hx]%lookup_delete_None Hne];
        rewrite lookup_insert_ne by done; [by rewrite lookup_delete_eq|].
      symmetry. apply lookup_delete_None. right. by rewrite lookup_fmap, Hx.
Qed.

Lemma pool_rename_spec st p q :
  pool_inv st → pool_path p → pool_path q → p ≠ q →
  let '(r, st') := pool_rename p q st in
  pool_inv st' ∧
  match pool_files st !! p with
  | None => r = Err NotFound ∧ pool_files st' = pool_files st
  | Some b => pool_files st' = files_after r (<[q := b]> (delete p (pool_files st))) (pool_files st)
  end.
Proof.
  intros Hinv Hpp Hqp Hne. unfold pool_rename.
  destruct (names st !! p) as [i|] eqn:Hp; [|by rewrite (pool_files_None st p Hp)].
  destruct (named_slot _ _ _ Hinv Hp) as (o&data&Hwf&_&Hs&Hd). rewrite Hd.
  destruct (names st !! q) as [d|] eqn:Hq.
  - destruct (release_spec st q d Hinv Hq) as [Hinv1 Hf1].
    set (st1 := release d (with_names (delete q (names st)) st)) in *.
    assert (names st1 !! p = Some i) as Hp1 by (simpl; by rewrite lookup_delete_ne).
    assert (names st1 !! q = None) as Hq1 by (simpl; apply lookup_delete_eq).
    destruct (named_slot _ _ _ Hinv1 Hp1) as (o1&data1&Hwf1&_&Hs1&Hd1).
    rewrite Hf1, lookup_delete_ne, Hd in Hd1 by done. injection Hd1 as <-.
    destruct (named_slot _ _ _ Hinv Hq) as (oq&dq&[Hsc Hlen]&_).
    rewrite Hs1, read_header_encode by done. unfold write_header. simpl h_owner_only.
    rewrite decide_False by (simpl in *; lia).
    assert (header_wf (mkHeader (path_str q) o1)) as Hwq by done.
    rewrite write_header_again by done.
    destruct (rename_fresh_spec st1 p q i o1 data Hinv1 Hp1 Hq1 Hqp Hwq) as [Hinv2 Hf2].
    { by rewrite Hf1, lookup_delete_ne. }
    split; [exact Hinv2|]. simpl files_after. rewrite Hf2, Hf1.
    by rewrite delete_delete, insert_delete_eq.
  - rewrite Hs, read_header_encode by done. unfold write_header. simpl h_owner_only.
    case_decide as Hlen; [done|].
    assert (header_wf (mkHeader (path_str q) o)) as Hwq.
    { split; [apply path_str_scalar; by destruct Hqp as (_&_&?)|simpl in *; lia]. }
    rewrite write_header_again by done.
    by apply rename_fresh_spec.
Qed.

Lemma pool_remove_spec st p :
  pool_inv st →
  let '(r, st') := pool_remove_file p st in
  pool_inv st' ∧
  match pool_files st !! p with
  | None => r = Err NotFound ∧ pool_files st' = pool_files st
  | Some _ => r = Ok tt ∧ pool_files st' = delete p (pool_files st)
  end.
Proof.
  intros Hinv. unfold pool_remove_file.
  destruct (names st !! p) as [i|] eqn:Hp; [|by rewrite (pool_files_None st p Hp)].
  destruct (named_slot _ _ _ Hinv Hp) as (o&data&Hwf&_&Hs&Hd). rewrite Hd.
  destruct (release_spec st p i Hinv Hp) as [Hinv1 Hf1]. by split_and!.
Qed.

Lemma pool_set_owner_only_spec st p :
  pool_inv st →
  let '(r, st') := pool_set_owner_only p st in pool_inv st' ∧ pool_files st' = pool_files st.
Proof.
  intros Hinv. unfold pool_set_owner_only.
  destruct (names st !! p) as [i|] eqn:Hp; [|done].
  destruct (named_slot _ _ _ Hinv Hp) as (o&data&Hwf&_&Hs&Hd).
  rewrite Hs, read_header_encode by done. unfold write_header. simpl h_name.
  case_decide; [done|]. assert (header_wf (mkHeader (path_str p) true)) as Hwf' by done.
  rewrite write_header_again by done.
  destruct (update_named st p i true data Hinv Hp Hwf') as [Hinv' Hf']. split; [done|].
  rewrite Hf'. by apply insert_id.
Qed.

Lemma pool_read_spec st p :
  pool_inv st → pool_read p st = ok_or (pool_files st !! p) NotFound.
Proof.
  intros Hinv. unfold pool_read, index_of.
  destruct (names st !! p) as [i|] eqn:Hp; [|by rewrite (pool_files_None st p Hp)].
  destruct (named_slot _ _ _ Hinv Hp) as (o&data&Hwf&_&Hs&Hd). rewrite Hd. simpl.
  unfold mret, result_ret. f_equal. unfold slot_read_at, len_of, slot_size.
  rewrite Hs, drop_header, length_app, length_header_encode by done.
  apply take_ge. lia.
Qed.

Lemma pool_read_range_spec st p off len :
  pool_inv st →
  pool_read_range p off len st = ok_or (slice off len <$> pool_files st !! p) NotFound.
Proof.
  intros Hinv. unfold pool_read_range, index_of.
  destruct (names st !! p) as [i|] eqn:Hp; [|by rewrite (pool_files_None st p Hp)].
  destruct (named_slot _ _ _ Hinv Hp) as (o&data&Hwf&_&Hs&Hd). rewrite Hd. simpl.
  unfold mret, result_ret. f_equal. unfold slot_read_at, len_of, slot_size, slice.
  rewrite Hs, length_app, length_header_encode by done.
  rewrite <-drop_drop, drop_header by done.
  replace (HEADER_LEN + length data - HEADER_LEN) with (length data) by lia.
  f_equal. lia.
Qed.

Lemma pool_file_len_spec st p :
  pool_inv st → pool_file_len p st = ok_or (length <$> pool_files st !! p) NotFound.
Proof.
  intros Hinv. unfold pool_file_len, index_of.
  destruct (names st !! p) as [i|] eqn:Hp; [|by rewrite (pool_files_None st p Hp)].
  destruct (named_slot _ _ _ Hinv Hp) as (o&data&Hwf&_&Hs&Hd). rewrite Hd. simpl.
  unfold mret, result_ret. f_equal. unfold len_of, slot_size.
  rewrite Hs, length_app, length_header_encode by done. lia.
Qed.

Lemma pool_write_spec st p b :
  pool_inv st → pool_path p →
  let '(r, st') := pool_write p b st in
  pool_inv st' ∧ pool_files st' = files_after r (<[p := b]> (pool_files st)) (pool_files st).
Proof.
  intros Hinv Hp. unfold pool_write.
  pose proof (claim_update_spec st p
    (λ s, slot_write_at HEADER_LEN b (slot_truncate HEADER_LEN s)) (λ _, b)) as H.
  match type of H with _ → _ → _ → match ?x with _ => _ end => destruct x as [r st'] end.
  destruct H as (?&?&_); try done.
  intros h data Hwf. rewrite truncate_header by done. unfold slot_write_at.
  rewrite <-(length_header_encode h Hwf). apply splice_end.
Qed.

Lemma pool_append_spec st p b :
  pool_inv st → pool_path p →
  let '(r, st') := pool_append p b st in
  pool_inv st' ∧
  pool_files st' = files_after r (<[p := default [] (pool_files st !! p) ++ b]> (pool_files st)) (pool_files st) ∧
  (r = Ok tt → is_Some (names st' !! p)).
Proof.
  intros Hinv Hp. unfold pool_append.
  apply (claim_update_spec st p (λ s, slot_write_at (slot_size s `max` HEADER_LEN) b s) (λ d, d ++ b));
    [|done|done].
  intros h data Hwf. unfold slot_write_at, slot_size. rewrite (assoc_L (++)), Nat.max_l.
  - apply splice_end.
  - rewrite length_app, length_header_encode by done. lia.
Qed.

Lemma pool_append_sync_spec st p b :
  pool_inv st → pool_path p →
  let '(r, st') := pool_append_sync p b st in
  pool_inv st' ∧
  pool_files st' = files_after r (<[p := default [] (pool_files st !! p) ++ b]> (pool_files st)) (pool_files st).
Proof.
  intros Hinv Hp. pose proof (pool_append_spec st p b Hinv Hp) as H.
  unfold pool_append_sync, mbind, SM_bind. destruct (pool_append p b st) as [[[]|e] st'].
  - destruct H as (?&?&[i Hi]); [done|]. unfold sm_get, sm_lift, index_of. rewrite Hi. by simpl.
  - by destruct H as (?&?&_).
Qed.

Lemma pool_create_sized_spec st p n :
  pool_inv st → pool_path p →
  let '(r, st') := pool_create_sized p n st in
  pool_inv st' ∧
  pool_files st' = files_after r (<[p := replicate n Byte.x00]> (pool_files st)) (pool_files st).
Proof.
  intros Hinv Hp. unfold pool_create_sized.
  pose proof (claim_update_spec st p
    (λ s, slot_truncate (HEADER_LEN + n) (slot_truncate HEADER_LEN s)) (λ _, replicate n Byte.x00)) as H.
  match type of H with _ → _ → _ → match ?x with _ => _ end => destruct x as [r st'] end.
  destruct H as (?&?&_); try done.
  intros h data Hwf. rewrite truncate_header by done. unfold slot_truncate, resize0.
  rewrite length_header_encode by done. replace (HEADER_LEN + n - HEADER_LEN) with n by lia.
  apply take_ge. rewrite length_app, length_replicate, length_header_encode by done. lia.
Qed.

Lemma pool_write_range_spec st p off b :
  pool_inv st →
  let '(r, st') := pool_write_range p off b st in
  pool_inv st' ∧
  match pool_files st !! p with
  | None => r = Err NotFound ∧ pool_files st' = pool_files st
  | Some l => r = Ok tt ∧ pool_files st' = <[p := splice off b l]> (pool_files st)
  end.
Proof.
  intros Hinv. unfold pool_write_range, mbind, SM_bind, sm_get, sm_lift, index_of, pool_update.
  destruct (names st !! p) as [i|] eqn:Hp; [|by rewrite (pool_files_None st p Hp)].
  destruct (named_slot _ _ _ Hinv Hp) as (o&data&Hwf&_&Hs&Hd). rewrite Hd. cbn [ok_or].
  rewrite Hs. unfold slot_write_at. rewrite <-(length_header_encode _ Hwf), splice_app.
  destruct (update_named st p i o (splice off b data) Hinv Hp Hwf). by split_and!.
Qed.

Lemma pool_create_dir_all_spec st p :
  pool_inv st →
  let '(r, st') := pool_create_dir_all p st in
  r = Ok tt ∧ pool_inv st' ∧ pool_files st' = pool_files st.
Proof. intros [] . by split_and!. Qed.

(** The pool implements the filesystem contract that the in-memory backend
    implements, on every path it can name. *)
#[global] Program Instance SlotPool_laws : VaultFsLaws PoolState := {|
  files := pool_files; fs_inv := pool_inv; fs_path := pool_path |}.
Next Obligation. intros p st. apply pool_read_spec. Qed.
Next Obligation. intros p st. apply pool_file_len_spec. Qed.
Next Obligation. intros p off len st. apply pool_read_range_spec. Qed.
Next Obligation. intros p b st. apply pool_write_spec. Qed.
Next Obligation.
  intros p b st Hinv Hp. pose proof (pool_append_spec st p b Hinv Hp) as H.
  simpl. destruct (pool_append p b st). by destruct H as (?&?&_).
Qed.
Next Obligation. intros p b st. apply pool_append_sync_spec. Qed.
Next Obligation. intros p n st. apply pool_create_sized_spec. Qed.
Next Obligation. intros p off b st Hinv _. by apply pool_write_range_spec. Qed.
Next Obligation. intros p st. apply pool_create_dir_all_spec. Qed.
Next Obligation. intros p q st. apply pool_rename_spec. Qed.
Next Obligation. intros p st Hinv _. by apply pool_remove_spec. Qed.
Next Obligation.
  intros p st _. simpl. unfold pool_exists, pool_is_dir, pool_files.
  rewrite lookup_fmap, fmap_is_Some, !orb_true_iff, !bool_decide_eq_true. naive_solver.
Qed.
Next Obligation.
  intros d es st _. simpl. unfold pool_read_dir. set (ps := btree_keys _ _ ++ _). simpl.
  case_decide; [|done]. intros [= <-]. destruct (child_listing d ps) as (?&?&Hl).
  split_and!; [done..|]. unfold pool_files. intros n Hn. rewrite lookup_fmap, fmap_is_Some in Hn.
  apply Hl, elem_of_app. left. by apply elem_of_btree_keys.
Qed.
Next Obligation. intros p st Hinv _. by apply pool_set_owner_only_spec. Qed.

(** ** Remounting *)

(** How far the mount loop has got after [k] slots. *)
Definition adopted (st : PoolState) (k : nat) (nm : gmap path nat) (fr : list nat) : Prop :=
  (∀ p i, nm !! p = Some i ↔ names st !! p = Some i ∧ i < k) ∧
  NoDup fr ∧ (∀ i, i ∈ fr ↔ i ∈ free st ∧ i < k).

Lemma free_or_named st k s :
  pool_inv st → slots st !! k = Some s →
  (k ∈ free st ∧ slot_free s) ∨
  ∃ p o data, names st !! p = Some k ∧ pool_path p ∧ header_wf (mkHeader (path_str p) o) ∧
    s = header_encode (mkHeader (path_str p) o) ++ data.
Proof.
  intros Hinv Hs. destruct (inv_cover _ Hinv k) as [Hf|[p Hp]]; [by eapply lookup_lt_Some| |].
  - left. destruct (inv_free _ Hinv k Hf) as [(s'&Hs'&?) _]. by simplify_eq.
  - right. destruct (inv_named _ Hinv _ _ Hp) as (Hpp&s'&Hs'&o&data&Hwf&->).
    simplify_eq. by exists p, o, data.
Qed.

Lemma adopt_go_spec st ss k nm fr :
  pool_inv st → drop k (slots st) = ss → k ≤ length (slots st) → adopted st k nm fr →
  ∃ nm' fr', adopt_go k ss nm fr = Ok (nm', fr') ∧ adopted st (length (slots st)) nm' fr'.
Proof.
  intros Hinv. revert k nm fr. induction ss as [|s ss IH]; intros k nm fr Hd Hk Ha.
  { exists nm, fr. split; [done|]. apply (f_equal length) in Hd. rewrite length_drop in Hd.
    simpl in Hd. by replace (length (slots st)) with k by lia. }
  assert (slots st !! k = Some s) as Hs.
  { rewrite <-(Nat.add_0_r k), <-lookup_drop, Hd. done. }
  assert (drop (S k) (slots st) = ss) as Hd'.
  { rewrite <-Nat.add_1_r, <-drop_drop, Hd. done. }
  pose proof (lookup_lt_Some _ _ _ Hs) as Hlt. destruct Ha as (Hnm&Hnd&Hfr).
  destruct (free_or_named st k s Hinv Hs) as [[Hf Hempty]|(p&o&data&Hp&Hpp&Hwf&->)].
  - assert (adopted st (S k) nm (fr ++ [k])) as Ha'.
    { split_and!.
      - intros p i. rewrite Hnm. split; intros [? ?]; split; try done; [lia|].
        assert (i ≠ k); [|lia]. intros ->. by eapply (inv_free _ Hinv k Hf).
      - apply NoDup_app. split_and!; [done| |apply NoDup_singleton].
        intros i [_ Hi]%Hfr. rewrite list_elem_of_singleton. lia.
      - intros i. rewrite elem_of_app, list_elem_of_singleton, Hfr.
        split; [intros [[? ?]| ->]; split; [done|lia|done|lia]|].
        intros [? ?]. destruct (decide (i = k)); [by right|left; split; [done|lia]]. }
    unfold slot_free, read_header in Hempty. simpl.
    destruct (header_decode _) as [h|]; [simpl in Hempty; rewrite decide_True by done|];
      apply IH; auto; lia.
  - simpl. rewrite header_decode_encode by done. simpl.
    rewrite decide_False by by apply path_str_nonempty. rewrite path_from_str by done.
    rewrite decide_False.
    2:{ intros [i Hi]. apply Hnm in Hi as [Hi ?]. rewrite Hp in Hi. simplify_eq. lia. }
    apply IH; [done|lia|]. split_and!; [| done |].
    + intros q i. rewrite lookup_insert. case_decide as Hq.
      * subst q. split; [intros [= <-]; split; [done|lia]|]. intros [? _]. congruence.
      * rewrite Hnm. split; intros [? ?]; split; try done; [lia|].
        assert (i ≠ k); [|lia]. intros ->. apply Hq. by eapply (inv_inj _ Hinv).
    + intros i. rewrite Hfr. split; intros [? ?]; split; try done; [lia|].
      assert (i ≠ k); [|lia]. intros ->. by eapply (inv_free _ Hinv k).
Qed.

(** Durability of the pool's index. The path map lives only in the slot
    headers, and remounting (adopting the slots of any state the operations can
    leave behind) succeeds and rebuilds exactly the same paths, free slots and
    file contents; only the session's explicit directories are forgotten. *)
Theorem remount_keeps_files st :
  pool_inv st →
  ∃ fr, adopt (slots st) = Ok (mkPool (slots st) (names st) ∅ fr) ∧ fr ≡ₚ free st ∧
        pool_inv (mkPool (slots st) (names st) ∅ fr) ∧
        pool_files (mkPool (slots st) (names st) ∅ fr) = pool_files st.
Proof.
  intros Hinv.
  destruct (adopt_go_spec st (slots st) 0 ∅ [] Hinv) as (nm&fr&Hgo&Hnm&Hnd&Hfr); [done|lia| |].
  { split_and!; [|by apply NoDup_nil|]; intros; rewrite ?lookup_empty, ?list_elem_of_nil.
    - split; [done|]. intros [_ ?]; lia.
    - rewrite elem_of_nil. split; [done|]. intros [_ ?]; lia. }
  assert (nm = names st) as ->.
  { apply map_eq. intros p. apply option_eq. intros i. rewrite Hnm. split; [by intros [? _]|].
    intros Hi. split; [done|]. destruct (inv_named _ Hinv _ _ Hi) as (_&s&Hs&_).
    by eapply lookup_lt_Some. }
  assert (∀ i, i ∈ fr ↔ i ∈ free st) as Hfr'.
  { intros i. rewrite Hfr. split; [by intros [? _]|]. intros Hi. split; [done|].
    destruct (inv_free _ Hinv _ Hi) as [(s&Hs&_) _]. by eapply lookup_lt_Some. }
  exists fr. unfold adopt. rewrite Hgo. cbn. split_and!; try done.
  - apply NoDup_Permutation; [done|apply (inv_free_nodup _ Hinv)|done].
  - constructor; simpl; try apply Hinv; [done|..].
    + intros i Hi. by apply (inv_free _ Hinv), Hfr'.
    + intros i Hi. rewrite Hfr'. by apply (inv_cover _ Hinv).
Qed.

(** ** The two backends agree *)

(** A client's filesystem commands and what it observes of each. *)
Inductive FsCmd :=
  | CRead (p : path) | CReadRange (p : path) (off len : nat) | CLen (p : path)
  | CWrite (p : path) (b : bytes) | CAppend (p : path) (b : bytes)
  | CAppendSync (p : path) (b : bytes) | CCreateSized (p : path) (n : nat)
  | CWriteRange (p : path) (off : nat) (b : bytes) | CRename (p q : path)
  | CRemove (p : path).

Definition unit_obs {E S} (x : result E unit * S) : result E bytes * S :=
  ((λ _, []) <$> x.1, x.2).

Definition run_cmd {Fs} `{VaultFs Fs} (c : FsCmd) (fs : Fs) : result io_error bytes * Fs :=
  match c with
  | CRead p => (fs_read p fs, fs)
  | CReadRange p off len => (fs_read_range p off len fs, fs)
  | CLen p => ((λ n, le_bytes 8 (N.of_nat n)) <$> fs_file_len p fs, fs)
  | CWrite p b => unit_obs (fs_write p b fs)
  | CAppend p b => unit_obs (fs_append p b fs)
  | CAppendSync p b => unit_obs (fs_append_sync p b fs)
  | CCreateSized p n => unit_obs (fs_create_sized p n fs)
  | CWriteRange p off b => unit_obs (fs_write_range p off b fs)
  | CRename p q => unit_obs (fs_rename p q fs)
  | CRemove p => unit_obs (fs_remove_file p fs)
  end.

Fixpoint run_cmds {Fs} `{VaultFs Fs} (cs : list FsCmd) (fs : Fs)
    : list (result io_error bytes) * Fs :=
  match cs with
  | [] => ([], fs)
  | c :: cs =>
      let '(o, fs1) := run_cmd c fs in
      let '(os, fs2) := run_cmds cs fs1 in (o :: os, fs2)
  end.

(** The paths a vault uses, ends of ranges that fit the [u64] the pool computes them in, and no rename
    of a file onto itself, where the two differ ([rename_self_destroys]). *)
Definition cmd_ok (c : FsCmd) : Prop :=
  match c with
  | CRead p | CReadRange p _ _ | CLen p | CWrite p _ | CAppend p _ | CAppendSync p _ | CRemove p => pool_path p
  | CCreateSized p n => pool_path p ∧ is_u64 (N.of_nat HEADER_LEN + N.of_nat n)
  | CWriteRange p off b => pool_path p ∧ is_u64 (N.of_nat HEADER_LEN + N.of_nat off + N.of_nat (length b))
  | CRename p q => pool_path p ∧ pool_path q ∧ p ≠ q
  end.

(** An outcome the pool alone can give: it is full, or the name is too long. *)
Definition pool_limit (o : result io_error bytes) : bool :=
  match o with Err StorageFull | Err InvalidInput => true | _ => false end.

Definition simulates (st : PoolState) (fs : MemState) : Prop :=
  pool_inv st ∧ pool_files st = mem_files fs.

Lemma index_or_claim_err st p e st' :
  index_or_claim p st = (Err e, st') → e = StorageFull ∨ e = InvalidInput.
Proof.
  unfold index_or_claim, write_header. destruct (names st !! p); [done|].
  destruct (last (free st)); [|intros; simplify_eq; auto].
  case_decide; intros; simplify_eq; auto.
Qed.

Lemma claim_then_err st p f e st' :
  (i ← index_or_claim p; pool_update i f) st = (Err e, st') → e = StorageFull ∨ e = InvalidInput.
Proof.
  unfold mbind, SM_bind. destruct (index_or_claim p st) as [[i|e'] st1] eqn:E; [done|].
  intros [= <- _]. by eapply index_or_claim_err.
Qed.

Lemma pool_append_sync_err st p b e st' :
  pool_inv st → pool_path p →
  pool_append_sync p b st = (Err e, st') → e = StorageFull ∨ e = InvalidInput.
Proof.
  intros Hinv Hp. pose proof (pool_append_spec st p b Hinv Hp) as H.
  unfold pool_append_sync, mbind at 1, SM_bind.
  destruct (pool_append p b st) as [[[]|e'] st1] eqn:E.
  - destruct H as (_&_&[i Hi]); [done|].
    unfold mbind, SM_bind, sm_get, sm_lift, index_of. by rewrite Hi.
  - intros [= <- _]. by eapply claim_then_err.
Qed.

Lemma pool_rename_err st p q e st' i :
  names st !! p = Some i → pool_rename p q st = (Err e, st') → e = InvalidInput.
Proof.
  intros Hp. unfold pool_rename. rewrite Hp. unfold write_header.
  destruct (names st !! q); case_decide; intros; by simplify_eq.
Qed.

(** A mutation whose only failures are the pool's limits, against the same
    mutation of the in-memory map. *)
Lemma unit_step (x : result io_error unit * PoolState) st fs fs' m' :
  pool_files st = mem_files fs →
  (let '(r, st') := x in
   pool_inv st' ∧ pool_files st' = files_after r m' (pool_files st)) →
  (∀ e, x.1 = Err e → e = StorageFull ∨ e = InvalidInput) →
  mem_files fs' = m' →
  pool_limit (unit_obs x).1 = false →
  (unit_obs x).1 = Ok [] ∧ simulates (unit_obs x).2 fs'.
Proof.
  intros Hf Hx He Hm. destruct x as [[[]|e] st']; simpl in *.
  - destruct Hx as [? Hx]. intros _. split; [done|]. split; [done|]. by rewrite Hm.
  - destruct (He e eq_refl) as [-> | ->]; done.
Qed.

Lemma run_cmd_simulates c st fs :
  simulates st fs → cmd_ok c → pool_limit (run_cmd c st).1 = false →
  (run_cmd c st).1 = (run_cmd c fs).1 ∧ simulates (run_cmd c st).2 (run_cmd c fs).2.
Proof.
  intros [Hinv Hf] Hok Hlim.
  destruct c as [p|p off len|p|p b|p b|p b|p n|p off b|p q|p]; simpl in *.
  - rewrite pool_read_spec by done. unfold mem_read. by rewrite Hf.
  - pose proof (fs_read_range_spec p off len fs I) as Hm. simpl in Hm.
    by rewrite pool_read_range_spec, Hm, Hf.
  - pose proof (fs_file_len_spec p fs I) as Hm. simpl in Hm.
    by rewrite pool_file_len_spec, Hm, Hf.
  - eapply unit_step; [exact Hf|by apply pool_write_spec| |by simpl; rewrite Hf|done].
    intros e He. destruct (pool_write p b st) as [r st'] eqn:E. simpl in He; subst r.
    by eapply claim_then_err.
  - apply (unit_step _ st fs _ (<[p := default [] (pool_files st !! p) ++ b]> (pool_files st)));
      [exact Hf| | |by simpl; rewrite Hf|done].
    + pose proof (pool_append_spec st p b Hinv Hok). destruct (pool_append p b st). naive_solver.
    + intros e He. destruct (pool_append p b st) as [r st'] eqn:E. simpl in He; subst r.
      by eapply claim_then_err.
  - eapply unit_step; [exact Hf|by apply pool_append_sync_spec| |by simpl; rewrite Hf|done].
    intros e He. destruct (pool_append_sync p b st) as [r st'] eqn:E. simpl in He; subst r.
    by eapply pool_append_sync_err.
  - destruct Hok as [Hok _]. eapply unit_step; [exact Hf|by apply pool_create_sized_spec| |by simpl; rewrite Hf|done].
    intros e He. destruct (pool_create_sized p n st) as [r st'] eqn:E. simpl in He; subst r.
    by eapply claim_then_err.
  - pose proof (pool_write_range_spec st p off b Hinv) as H.
    pose proof (fs_write_range_spec p off b fs I I) as Hm. simpl in Hm.
    destruct (pool_write_range p off b st) as [r st'], (mem_write_range p off b fs) as [r' fs'].
    rewrite Hf in H. destruct (mem_files fs !! p); destruct H as (?&->&?), Hm as (_&->&?).
    all: split; [done|]; split; simpl; congruence.
  - destruct Hok as (Hp&Hq&Hne). pose proof (pool_rename_spec st p q Hinv Hp Hq Hne) as H.
    destruct (pool_rename p q st) as [r st'] eqn:E. rewrite Hf in H. unfold mem_rename.
    destruct (mem_files fs !! p) as [b|] eqn:Hb.
    + destruct (names st !! p) as [i|] eqn:Hi.
      2:{ apply pool_files_None in Hi. congruence. }
      eapply unit_step; [exact Hf| | |by simpl|done].
      * simpl. by rewrite Hf.
      * intros e He. simpl in He; subst r. right. by eapply pool_rename_err.
    + destruct H as (?&->&?). split; [done|]. split; simpl; congruence.
  - pose proof (pool_remove_spec st p Hinv) as H. unfold mem_remove_file.
    destruct (pool_remove_file p st) as [r st']. rewrite Hf in H.
    destruct (mem_files fs !! p); destruct H as (?&->&?).
    all: split; [done|]; split; simpl; congruence.
Qed.

Lemma run_cmds_cons {Fs} `{VaultFs Fs} c cs (fs : Fs) :
  run_cmds (c :: cs) fs =
  ((run_cmd c fs).1 :: (run_cmds cs (run_cmd c fs).2).1, (run_cmds cs (run_cmd c fs).2).2).
Proof. simpl. destruct (run_cmd c fs) as [o fs1]. simpl. by destruct (run_cmds cs fs1). Qed.

(** C37: the slot pool refines the in-memory filesystem. From related states (the
    same files, the pool invariant), any sequence of reads, range reads, length
    queries, writes, appends, pre-sized creations, range writes, renames from one path to
    another and removals, at paths without a slash in a component, gives the same outcome
    on both, value for value and error for error, and related states again, as long as no
    range ends past what a 64-bit offset can express and no command hit one of the pool's
    own two limits (no free slot, name over 1013 bytes). A rename of a file onto itself is
    excluded: there the pool loses the file and the in-memory backend keeps it. *)
Theorem pool_refines_mem cs st fs :
  simulates st fs → Forall cmd_ok cs →
  forallb (λ o, negb (pool_limit o)) (run_cmds cs st).1 = true →
  (run_cmds cs st).1 = (run_cmds cs fs).1 ∧
  simulates (run_cmds cs st).2 (run_cmds cs fs).2.
Proof.
  intros Hsim Hok. revert st fs Hsim. induction Hok as [|c cs Hc Hcs IH]; intros st fs Hsim Hlim; [done|].
  rewrite !run_cmds_cons in *. simpl in *. apply andb_true_iff in Hlim as [Hl1 Hl2].
  apply negb_true_iff in Hl1.
  destruct (run_cmd_simulates c st fs Hsim Hc Hl1) as [-> Hsim1].
  destruct (IH _ _ Hsim1 Hl2) as [-> ?]. done.
Qed.

(** Renaming keeps the owner-only mark. A file marked owner-only stays marked
    under its new name, whatever that name held before, so publishing the
    identity secret by rename cannot drop its protection. *)
Theorem rename_keeps_owner_only st p q st' :
  pool_inv st → pool_path p → pool_path q → p ≠ q →
  pool_rename p q st = (Ok tt, st') →
  pool_is_owner_only q st' = pool_is_owner_only p st.
Proof.
  intros Hinv Hp Hq Hne. unfold pool_rename, pool_is_owner_only.
  destruct (names st !! p) as [i|] eqn:Hi; [|done].
  destruct (named_slot _ _ _ Hinv Hi) as (o&data&Hwf&Hsl&Hs&_).
  pose proof (lookup_lt_Some _ _ _ Hsl) as Hlt.
  set (st1 := match names st !! q with Some d => _ | None => st end).
  assert (slots st1 !! i = Some (header_encode (mkHeader (path_str p) o) ++ data)) as Hs1.
  { unfold st1. destruct (names st !! q) as [d|] eqn:Hd; [|done]. simpl.
    rewrite list_lookup_insert_ne; [done|]. intros ->. apply Hne. by eapply (inv_inj _ Hinv). }
  unfold slot_at. rewrite Hs1, Hsl. simpl. rewrite !read_header_encode by done. simpl.
  unfold write_header. case_decide as Hlen; [done|]. intros [= <-]. simpl.
  rewrite lookup_insert_eq, list_lookup_insert_eq by by eapply lookup_lt_Some. simpl.
  assert (header_wf (mkHeader (path_str q) o)) as Hwq.
  { split; [apply path_str_scalar; by destruct Hq as (_&_&?)|simpl in *; lia]. }
  by rewrite write_header_again, read_header_encode.
Qed.

(** A pool of [n] backing files that have never been initialised. *)
Definition pool_fresh (n : nat) : PoolState := mkPool (replicate n []) ∅ ∅ (seq 0 n).

Lemma pool_fresh_inv n : pool_inv (pool_fresh n) ∧ pool_files (pool_fresh n) = ∅.
Proof.
  split; [|by apply fmap_empty]. constructor; simpl.
  - intros p i. by rewrite lookup_empty.
  - intros p q i. by rewrite lookup_empty.
  - apply NoDup_seq.
  - intros i [_ Hi]%elem_of_seq. split; [|intros p; by rewrite lookup_empty].
    exists []. split; [apply lookup_replicate; split; [done|lia]|]. done.
  - intros i Hi. left. rewrite length_replicate in Hi. apply elem_of_seq. lia.
Qed.

(** *** Witnesses *)
Definition ex_p : path := [str "vault"; str "a"].
Definition ex_q : path := [str "vault"; str "b"].
Definition ex_cmds : list FsCmd :=
  [CWrite ex_p [Byte.x01; Byte.x02]; CAppend ex_p [Byte.x03]; CWrite ex_q [Byte.x09];
   CRename ex_p ex_q; CWriteRange ex_q 5 [Byte.x07]; CRead ex_q; CRead ex_p; CRemove ex_q].
Definition ex_pool : PoolState := (run_cmds [CWrite ex_p [Byte.x01; Byte.x02]] (pool_fresh 2)).2.

Lemma ex_path_ok c : forallb (λ x, is_scalar x && negb (x =? SLASH)%N) c = true → comp_ok c.
Proof.
  intros H. rewrite forallb_forall in H. split.
  - intros Hin. apply list_elem_of_In, H, andb_true_iff in Hin as [_ Hn]. by rewrite N.eqb_refl in Hn.
  - apply forallb_forall. intros x Hx. by apply H, andb_true_iff in Hx as [? _].
Qed.
Lemma ex_p_ok : pool_path ex_p.
Proof. split_and!; [done|done|]. repeat constructor; apply ex_path_ok; reflexivity. Qed.
Lemma ex_q_ok : pool_path ex_q.
Proof. split_and!; [done|done|]. repeat constructor; apply ex_path_ok; reflexivity. Qed.
Lemma ex_pool_inv : pool_inv ex_pool.
Proof.
  pose proof (pool_write_spec (pool_fresh 2) ex_p [Byte.x01; Byte.x02] (proj1 (pool_fresh_inv 2)) ex_p_ok) as H.
  unfold ex_pool. simpl. by destruct (pool_write _ _ _) as [r st'], H.
Qed.

Lemma header_roundtrip_witness :
  header_decode (slot_read_at 0 HEADER_LEN (header_encode (mkHeader (str "a/b") true) ++ [Byte.x05]))
  = Some (mkHeader (str "a/b") true).
Proof.
  apply header_roundtrip. split; [reflexivity|]. apply Nat.leb_le. vm_compute. reflexivity.
Defined.

Lemma remount_keeps_files_witness :
  ∃ fr, adopt (slots ex_pool) = Ok (mkPool (slots ex_pool) (names ex_pool) ∅ fr) ∧ fr ≡ₚ free ex_pool ∧
        pool_inv (mkPool (slots ex_pool) (names ex_pool) ∅ fr) ∧
        pool_files (mkPool (slots ex_pool) (names ex_pool) ∅ fr) = pool_files ex_pool.
Proof. apply remount_keeps_files. apply ex_pool_inv. Defined.

Lemma pool_refines_mem_witness :
  (run_cmds ex_cmds (pool_fresh 2)).1 = (run_cmds ex_cmds mem_empty).1 ∧
  simulates (run_cmds ex_cmds (pool_fresh 2)).2 (run_cmds ex_cmds mem_empty).2.
Proof.
  apply pool_refines_mem.
  - destruct (pool_fresh_inv 2) as [Hi Hf]. split; [exact Hi|exact Hf].
  - pose proof ex_p_ok. pose proof ex_q_ok.
    unfold ex_cmds. repeat apply Forall_cons_2; try apply Forall_nil_2; cbn [cmd_ok]; try assumption.
    all: split_and!; try assumption; try decide_true; vm_compute; discriminate.
  - vm_compute. reflexivity.
Defined.

Lemma rename_keeps_owner_only_witness :
  let st := (pool_set_owner_only ex_p ex_pool).2 in
  pool_is_owner_only ex_p st = true ∧
  pool_is_owner_only ex_q (pool_rename ex_p ex_q st).2 = pool_is_owner_only ex_p st.
Proof.
  intros st. split; [vm_compute; reflexivity|].
  apply (rename_keeps_owner_only st ex_p ex_q).
  - pose proof (pool_set_owner_only_spec ex_pool ex_p ex_pool_inv) as H.
    unfold st. destruct (pool_set_owner_only ex_p ex_pool) as [r st']. exact (proj1 H).
  - exact ex_p_ok.
  - exact ex_q_ok.
  - decide_true.
  - vm_compute. reflexivity.
Defined.

(** Renaming a file onto itself destroys it. The slot is displaced, cleared
    and returned to the free list before its own header is rewritten, so the file
    is left empty and its slot is both mapped and free; the in-memory backend
    keeps the file. *)
Theorem rename_self_destroys :
  (run_cmds [CRename ex_p ex_p; CRead ex_p] ex_pool).1 = [Ok []; Ok []] ∧
  (run_cmds [CRename ex_p ex_p; CRead ex_p] (mkMemState (pool_files ex_pool) ∅ ∅)).1
    = [Ok []; Ok [Byte.x01; Byte.x02]] ∧
  ∃ i, names (pool_rename ex_p ex_p ex_pool).2 !! ex_p = Some i ∧
       i ∈ free (pool_rename ex_p ex_p ex_pool).2.
Proof.
  split_and!; [vm_compute; reflexivity..|].
  exists 1. split; [vm_compute; reflexivity|decide_true].
Qed.
