(* ===== verification/Roster.v ===== *)
(** * Roster: signed membership (crates/roam-storage/src/roster.rs)

    Roles, roster entries and their signed byte layout, and [merge_roster], the
    fold from a set of signed entries to the current peer set. *)
From S2P Require Import Prelude RustStr.

(** ** Data *)
Inductive Role := Reader | Writer | Admin.

Inductive RosterOp :=
  | Add (role : Role)
  | SetRole (role : Role)
  | Revoke
  | SetName (name : rstring).

Record RosterEntry := mkRosterEntry {
  seq : u64;
  lamport : u64;
  op : RosterOp;
  subject_peer : u64;
  subject_key : bytes;
  added_by : u64;
}.

Inductive PeerStatus := Active | Revoked.

Record PeerRecord := mkPeerRecord {
  peer_id : u64;
  verifying_key : bytes;
  status : PeerStatus;
  role : Role;
  name : option rstring;
}.

#[global] Instance Role_eq_dec : EqDecision Role.
Proof. solve_decision. Defined.
#[global] Instance RosterOp_eq_dec : EqDecision RosterOp.
Proof. solve_decision. Defined.
#[global] Instance RosterEntry_eq_dec : EqDecision RosterEntry.
Proof. solve_decision. Defined.
#[global] Instance PeerStatus_eq_dec : EqDecision PeerStatus.
Proof. solve_decision. Defined.
#[global] Instance PeerRecord_eq_dec : EqDecision PeerRecord.
Proof. solve_decision. Defined.

(** [#[derive(Ord)]]: declaration order, [Reader < Writer < Admin]. *)
Definition role_byte (r : Role) : N :=
  match r with Reader => 0 | Writer => 1 | Admin => 2 end.
Definition role_min (a b : Role) : Role :=
  if (role_byte a <=? role_byte b)%N then a else b.

(** [Role::from_str] and its [Display]; [None] is the unknown-role error. *)
Definition role_from_str (s : rstring) : option Role :=
  let s := to_ascii_lowercase (trim s) in
  if decide (s = str "reader") then Some Reader
  else if decide (s = str "writer") then Some Writer
  else if decide (s = str "admin") then Some Admin
  else None.

Definition role_display (r : Role) : rstring :=
  match r with
  | Reader => str "reader" | Writer => str "writer" | Admin => str "admin"
  end.

Definition MAX_NAME_LEN : nat := 64.

(** The [peer_id] a key maps to: its first 8 bytes, little-endian. *)
Definition derived_peer_id (key : bytes) : u64 := from_le (take 8 key).

(** ** Signed bytes *)
Definition ascii_bytes (s : string) : bytes := utf8 (str s).

Definition op_tags (o : RosterOp) : N * N :=
  match o with
  | Add r => (0, role_byte r)
  | SetRole r => (2, role_byte r)
  | Revoke => (1, 0xFF)
  | SetName _ => (3, 0xFF)
  end%N.

Definition canonical_bytes (e : RosterEntry) : bytes :=
  ascii_bytes "roam.roster.v3" ++
  le_bytes 8 (seq e) ++
  le_bytes 8 (lamport e) ++
  [byte_of_N (op_tags (op e)).1; byte_of_N (op_tags (op e)).2] ++
  le_bytes 8 (subject_peer e) ++
  subject_key e ++
  le_bytes 8 (added_by e) ++
  match op e with
  | SetName n => le_bytes 4 (str_len n) ++ utf8 n
  | _ => []
  end.

(** ** The fold *)

(** Entries whose [subject_peer] derives from the key they carry. *)
Definition key_bound (e : RosterEntry) : Prop :=
  subject_peer e = derived_peer_id (subject_key e).
#[global] Instance key_bound_dec e : Decision (key_bound e).
Proof. unfold key_bound. apply _. Defined.

Definition valid_entries (entries : list RosterEntry) : list RosterEntry :=
  filter key_bound entries.

Definition grants_admin (e : RosterEntry) : bool :=
  match op e with Add Admin | SetRole Admin => true | _ => false end.

Definition is_grant (e : RosterEntry) : bool :=
  match op e with Add _ | SetRole _ => true | _ => false end.

(** One pass of the [ever_admin] loop over the entries. *)
Definition ever_admin_pass (valid : list RosterEntry) (s : gset u64) : gset u64 :=
  foldl (λ s e,
    if grants_admin e && bool_decide (added_by e ∈ s) then {[subject_peer e]} ∪ s else s)
    s valid.

(** The [loop]: repeat until a pass adds nobody; [None] is a loop cut short. *)
Fixpoint ever_admin_loop (fuel : nat) (valid : list RosterEntry) (s : gset u64)
    : option (gset u64) :=
  match fuel with
  | O => None
  | S fuel =>
      let s' := ever_admin_pass valid s in
      if decide (size s' = size s) then Some s' else ever_admin_loop fuel valid s'
  end.

Definition founder_set (founder : option u64) : gset u64 :=
  match founder with Some f => {[f]} | None => ∅ end.

Definition ever_admin (valid : list RosterEntry) (founder : option u64) : gset u64 :=
  default ∅ (ever_admin_loop (S (length valid)) valid (founder_set founder)).

(** [valid.iter().filter(|e| ever_admin.contains(&e.added_by))] *)
Definition authored_by (admins : gset u64) (valid : list RosterEntry) : list RosterEntry :=
  filter (λ e, added_by e ∈ admins) valid.

(** The lamports of each subject's admin-authored grants. *)
Definition grant_lamports (authored : list RosterEntry) : gmap u64 (gset u64) :=
  foldl (λ m e,
    if is_grant e
    then <[subject_peer e := {[lamport e]} ∪ default ∅ (m !! subject_peer e)]> m
    else m) ∅ authored.

(** [ceiling + 1] on [u64]. *)
Definition wrapping_add (a b : u64) : u64 := ((a + b) mod (U64_MAX + 1))%N.

(** The contiguous prefix of an ascending lamport list: [i == 0 || l <= c + 1]. *)
Fixpoint ceiling_loop (ls : list u64) (ceiling : u64) : u64 :=
  match ls with
  | [] => ceiling
  | l :: ls => if (l <=? wrapping_add ceiling 1)%N then ceiling_loop ls l else ceiling
  end.
Definition ceiling_of (ls : list u64) : u64 :=
  match ls with [] => 0%N | l :: ls => ceiling_loop ls l end.

Definition ceilings (authored : list RosterEntry) : gmap u64 u64 :=
  (λ s, ceiling_of (bset_to_list N.le s)) <$> grant_lamports authored.

(** A role candidate [(lamport, added_by, role)] and how two of them merge. *)
Definition cand : Type := u64 * u64 * Role.
Definition cand_join (cur c : cand) : cand :=
  let '(l, a, r) := c in
  let '(l', a', r') := cur in
  if decide (l' < l ∨ l' = l ∧ a' < a)%N then c
  else if decide (l = l' ∧ a = a') then (l', a', role_min r' r)
  else cur.

Definition key_join (cur k : bytes) : bytes :=
  if decide (bytes_lt k cur) then k else cur.

Record MergeState := mkMergeState {
  ms_keys : gmap u64 bytes;
  ms_revoked : gset u64;
  ms_roles : gmap u64 cand;
}.

(** The body of the privilege loop for one admin-authored entry. *)
Definition merge_step (ceil : gmap u64 u64) (st : MergeState) (e : RosterEntry) : MergeState :=
  let keys := entry_join key_join (ms_keys st) (subject_peer e) (subject_key e) in
  match op e with
  | Revoke => mkMergeState keys ({[subject_peer e]} ∪ ms_revoked st) (ms_roles st)
  | Add r | SetRole r =>
      if decide (default 0 (ceil !! subject_peer e) < lamport e)%N
      then mkMergeState keys (ms_revoked st) (ms_roles st)
      else mkMergeState keys (ms_revoked st)
             (entry_join cand_join (ms_roles st) (subject_peer e) (lamport e, added_by e, r))
  | SetName _ => mkMergeState keys (ms_revoked st) (ms_roles st)
  end.

(** The self-asserted names: highest [seq] wins, the later entry on a tie. *)
Definition names_step (m : gmap u64 (u64 * rstring)) (e : RosterEntry) : gmap u64 (u64 * rstring) :=
  match op e with
  | SetName n =>
      if decide (added_by e ≠ subject_peer e) then m
      else
        let slot := default (0%N, []) (m !! subject_peer e) in
        if (slot.1 <=? seq e)%N then <[subject_peer e := (seq e, n)]> m
        else <[subject_peer e := slot]> m
  | _ => m
  end.

Definition peer_le (p q : PeerRecord) : Prop := (peer_id p ≤ peer_id q)%N.
#[global] Instance peer_le_dec : RelDecision peer_le.
Proof. unfold peer_le. intros p q. apply _. Defined.

Definition fold_privileges (entries : list RosterEntry) (founder : option u64) : MergeState :=
  let valid := valid_entries entries in
  let authored := authored_by (ever_admin valid founder) valid in
  foldl (merge_step (ceilings authored)) (mkMergeState ∅ ∅ ∅) authored.

Definition fold_names (entries : list RosterEntry) : gmap u64 (u64 * rstring) :=
  foldl names_step ∅ (valid_entries entries).

(** [keys[subject]] cannot miss ([keys_total]); [[]] stands for its panic. *)
Definition peer_record (st : MergeState) (names : gmap u64 (u64 * rstring))
    (x : u64 * cand) : PeerRecord :=
  let '(subject, (_, _, r)) := x in
  {| peer_id := subject;
     verifying_key := default [] (ms_keys st !! subject);
     status := if decide (subject ∈ ms_revoked st) then Revoked else Active;
     role := r;
     name := snd <$> names !! subject |}.

Definition merge_roster (entries : list RosterEntry) (founder : option u64) : list PeerRecord :=
  let st := fold_privileges entries founder in
  merge_sort peer_le
    (peer_record st (fold_names entries) <$> btree_to_list N.le (ms_roles st)).

(** ** The admin closure *)

(** Who has ever been an admin: the founder, and every subject of an
    admin-granting entry whose author has. *)
Inductive EverAdmin (valid : list RosterEntry) (founder : option u64) : u64 → Prop :=
  | ea_founder f : founder = Some f → EverAdmin valid founder f
  | ea_grant e :
      e ∈ valid → grants_admin e = true →
      EverAdmin valid founder (added_by e) →
      EverAdmin valid founder (subject_peer e).

Lemma ever_admin_pass_mono valid s : s ⊆ ever_admin_pass valid s.
Proof.
  unfold ever_admin_pass. revert s. induction valid as [|e l IH]; intros s; simpl; [done|].
  etrans; [|apply IH]. case_match; set_solver.
Qed.

(** A pass only adds subjects, and only sound ones. *)
Lemma ever_admin_pass_subjects valid s :
  ever_admin_pass valid s ⊆ s ∪ list_to_set (subject_peer <$> valid).
Proof.
  unfold ever_admin_pass. revert s. induction valid as [|e l IH]; intros s; simpl; [set_solver|].
  etrans; [apply IH|]. case_match; set_solver.
Qed.

Lemma ever_admin_pass_sound valid founder l s :
  l ⊆ valid → (∀ p, p ∈ s → EverAdmin valid founder p) →
  ∀ p, p ∈ ever_admin_pass l s → EverAdmin valid founder p.
Proof.
  unfold ever_admin_pass. revert s. induction l as [|e l IH]; intros s Hl Hs; simpl; [done|].
  apply IH; [set_solver|]. intros p.
  destruct (grants_admin e) eqn:Eg; simpl; [|by apply Hs].
  case_bool_decide as Ha; [|by apply Hs].
  intros [->%elem_of_singleton|Hp]%elem_of_union; [|by apply Hs].
  apply ea_grant; [set_solver|done|by apply Hs].
Qed.

(** A set a pass does not grow is closed under granting. *)
Lemma ever_admin_pass_closed valid s e :
  ever_admin_pass valid s = s → e ∈ valid → grants_admin e = true →
  added_by e ∈ s → subject_peer e ∈ s.
Proof.
  intros Hfix (l1&l2&->)%list_elem_of_split Hg Ha. rewrite <-Hfix.
  unfold ever_admin_pass in *. rewrite foldl_app. simpl. rewrite Hg. simpl.
  rewrite bool_decide_eq_true_2.
  - apply (ever_admin_pass_mono l2). set_solver.
  - by apply (ever_admin_pass_mono l1).
Qed.

Lemma ever_admin_loop_spec fuel valid founder s :
  (∀ p, p ∈ s → EverAdmin valid founder p) → founder_set founder ⊆ s →
  size (list_to_set (subject_peer <$> valid) ∖ s : gset u64) < fuel →
  ∃ s', ever_admin_loop fuel valid s = Some s' ∧
        ∀ p, p ∈ s' ↔ EverAdmin valid founder p.
Proof.
  revert s. induction fuel as [|fuel IH]; intros s Hs Hf Hsz; [lia|]. simpl.
  pose proof (ever_admin_pass_mono valid s) as Hmono.
  case_decide as Heq.
  - assert (ever_admin_pass valid s = s) as Hfix.
    { symmetry. apply set_eq, set_subseteq_antisymm; [done|].
      apply set_subseteq_size_eq in Hmono; [by rewrite <-Hmono|lia]. }
    eexists; split; [done|]. rewrite Hfix. intros p. split; [apply Hs|].
    induction 1 as [f Hfd|e Hin Hg _ IHe].
    + apply Hf. rewrite Hfd. simpl. set_solver.
    + by eapply ever_admin_pass_closed.
  - apply IH; [by apply ever_admin_pass_sound|set_solver|].
    assert (s ⊂ ever_admin_pass valid s) as Hlt.
    { split; [done|]. intros Hsub. apply Heq. f_equal. apply set_eq. set_solver. }
    apply Nat.lt_le_trans with (size (list_to_set (subject_peer <$> valid) ∖ s : gset u64)); [|lia].
    apply subset_size. split; [set_solver|]. intros Hsub.
    apply Hlt. intros p Hp. destruct (decide (p ∈ s)) as [|Hn]; [done|].
    pose proof (ever_admin_pass_subjects valid s p Hp). set_solver.
Qed.

Lemma elem_of_ever_admin valid founder p :
  p ∈ ever_admin valid founder ↔ EverAdmin valid founder p.
Proof.
  unfold ever_admin.
  destruct (ever_admin_loop_spec (S (length valid)) valid founder (founder_set founder))
    as (s&->&Hs).
  - intros q. unfold founder_set. destruct founder as [f|]; [|set_solver].
    intros ->%elem_of_singleton. by apply ea_founder.
  - done.
  - pose proof (subseteq_size (list_to_set (subject_peer <$> valid) ∖ founder_set founder)
      (list_to_set (subject_peer <$> valid)) ltac:(set_solver)) as H1.
    pose proof (size_list_to_set_le (subject_peer <$> valid)) as H2.
    rewrite length_fmap in H2. lia.
  - apply Hs.
Qed.

Lemma EverAdmin_ext v1 v2 founder p :
  v1 ⊆ v2 → EverAdmin v1 founder p → EverAdmin v2 founder p.
Proof.
  intros Hsub. induction 1; [by apply ea_founder|]. apply ea_grant; auto.
Qed.

(** ** The orders the fold maximises *)
Definition cand_le (x y : cand) : Prop :=
  (let '(l, a, r) := x in let '(l', a', r') := y in
   l < l' ∨ l = l' ∧ (a < a' ∨ a = a' ∧ role_byte r' ≤ role_byte r))%N.

Lemma role_byte_inj r r' : role_byte r = role_byte r' → r = r'.
Proof. by destruct r, r'. Qed.

Lemma role_min_l r r' : (role_byte (role_min r r') ≤ role_byte r)%N.
Proof. unfold role_min. case_match; lia. Qed.
Lemma role_min_r r r' : (role_byte (role_min r r') ≤ role_byte r')%N.
Proof. unfold role_min. case_match; lia. Qed.

#[global] Instance cand_le_po : PartialOrder cand_le.
Proof.
  split; [split|]; unfold cand_le.
  - intros [[l a] r]. lia.
  - intros [[l a] r] [[l' a'] r'] [[l'' a''] r'']. lia.
  - intros [[l a] r] [[l' a'] r'] H1 H2.
    assert (l = l' ∧ a = a' ∧ role_byte r = role_byte r') as (->&->&->%role_byte_inj) by lia.
    done.
Qed.

Lemma cand_join_pick v w : cand_join v w = v ∨ cand_join v w = w.
Proof.
  destruct v as [[l' a'] r'], w as [[l a] r]. unfold cand_join.
  case_decide; [by right|]. case_decide as Htie; [|by left].
  destruct Htie as [-> ->]. unfold role_min. case_match; auto.
Qed.
Lemma cand_join_l v w : cand_le v (cand_join v w).
Proof.
  destruct v as [[l' a'] r'], w as [[l a] r]. unfold cand_join, cand_le.
  repeat case_decide; try lia. pose proof (role_min_l r' r). lia.
Qed.
Lemma cand_join_r v w : cand_le w (cand_join v w).
Proof.
  destruct v as [[l' a'] r'], w as [[l a] r]. unfold cand_join, cand_le.
  repeat case_decide; try lia. pose proof (role_min_r r' r). lia.
Qed.

Definition key_ge (a b : bytes) : Prop := bytes_le b a.
#[global] Instance key_ge_po : PartialOrder key_ge.
Proof.
  split; [split|]; unfold key_ge.
  - intros a. reflexivity.
  - intros a b c ??. by etrans.
  - intros a b ??. by apply (anti_symm bytes_le).
Qed.
Lemma key_join_pick v w : key_join v w = v ∨ key_join v w = w.
Proof. unfold key_join. case_decide; auto. Qed.
Lemma key_join_l v w : key_ge v (key_join v w).
Proof.
  unfold key_join, key_ge. case_decide as H; [|done].
  apply bytes_lt_le in H. by destruct (total bytes_le v w).
Qed.
Lemma key_join_r v w : key_ge w (key_join v w).
Proof.
  unfold key_join, key_ge. case_decide as H; [done|]. rewrite bytes_lt_le in H.
  by apply dec_stable.
Qed.

(** ** What the privilege loop computes *)
Definition role_of_op (o : RosterOp) : Role :=
  match o with Add r | SetRole r => r | _ => Reader end.
Definition cand_of (e : RosterEntry) : cand := (lamport e, added_by e, role_of_op (op e)).

Definition admissible (ceil : gmap u64 u64) (e : RosterEntry) : Prop :=
  is_grant e = true ∧ (lamport e ≤ default 0 (ceil !! subject_peer e))%N.
#[global] Instance admissible_dec ceil e : Decision (admissible ceil e).
Proof. unfold admissible. apply _. Defined.

Definition is_revoke (e : RosterEntry) : Prop := op e = Revoke.
#[global] Instance is_revoke_dec e : Decision (is_revoke e).
Proof. unfold is_revoke. apply _. Defined.

Lemma merge_loop_split ceil l :
  foldl (merge_step ceil) (mkMergeState ∅ ∅ ∅) l =
  mkMergeState
    (fold_max subject_peer subject_key key_join l ∅)
    (list_to_set (subject_peer <$> filter is_revoke l))
    (fold_max subject_peer cand_of cand_join (filter (admissible ceil) l) ∅).
Proof.
  induction l as [|e l IH] using rev_ind; [done|].
  rewrite foldl_snoc, IH, fold_max_snoc, !filter_app, fmap_app, list_to_set_app_L.
  unfold merge_step. simpl ms_keys. simpl ms_roles. simpl ms_revoked.
  rewrite !filter_cons, !filter_nil.
  destruct (decide (is_revoke e)) as [Hr|Hr]; destruct (decide (admissible ceil e)) as [Ha|Ha];
    unfold admissible, is_revoke, is_grant in Hr, Ha;
    destruct (op e) eqn:Eop; try case_decide; try naive_solver lia.
  all: rewrite ?app_nil_r, ?fold_max_snoc.
  all: f_equal; try done; try (unfold cand_of; by rewrite Eop); set_solver.
Qed.

(** ** The causal ceiling *)
Definition subject_lamports (authored : list RosterEntry) (s : u64) : gset u64 :=
  list_to_set (lamport <$> filter (λ e, is_grant e = true ∧ subject_peer e = s) authored).

Lemma elem_of_subject_lamports a s l :
  l ∈ subject_lamports a s ↔
  ∃ e, e ∈ a ∧ is_grant e = true ∧ subject_peer e = s ∧ lamport e = l.
Proof.
  unfold subject_lamports. rewrite elem_of_list_to_set, list_elem_of_fmap.
  setoid_rewrite list_elem_of_filter. naive_solver.
Qed.

Lemma grant_lamports_lookup a s :
  grant_lamports a !! s =
  if decide (subject_lamports a s = ∅) then None else Some (subject_lamports a s).
Proof.
  unfold grant_lamports. induction a as [|e a IH] using rev_ind; [done|].
  rewrite foldl_snoc. unfold subject_lamports in *.
  rewrite filter_app, filter_cons, filter_nil, fmap_app, list_to_set_app_L.
  destruct (decide (is_grant e = true ∧ subject_peer e = s)) as [[Eg Hs]|Hn]; simpl.
  - rewrite Eg, Hs, lookup_insert_eq, IH, (right_id_L ∅ (∪)).
    rewrite (decide_False (P := _ ∪ {[lamport e]} = ∅)).
    + f_equal. rewrite (comm_L (∪)). f_equal. case_decide as He; simpl; by rewrite ?He.
    + intros He. apply (not_elem_of_empty (C := gset u64) (lamport e)).
      rewrite <-He. apply elem_of_union_r. by apply elem_of_singleton.
  - rewrite (right_id_L ∅ (∪)). destruct (is_grant e) eqn:Eg; [|done].
    by rewrite lookup_insert_ne by naive_solver.
Qed.

Lemma ceilings_lookup a s :
  default 0%N (ceilings a !! s) = ceiling_of (bset_to_list N.le (subject_lamports a s)).
Proof.
  unfold ceilings. rewrite lookup_fmap, grant_lamports_lookup.
  case_decide as He; simpl; [|done]. by rewrite He.
Qed.

(** On an ascending [u64] list the [u64] addition never wraps, so the loop stops
    exactly at the end of the contiguous run. *)
Lemma ceiling_loop_spec ls c :
  StronglySorted N.lt (c :: ls) → Forall is_u64 (c :: ls) →
  let r := ceiling_loop ls c in
  (c ≤ r)%N ∧ (∀ x, c ≤ x ≤ r → x ∈ c :: ls)%N ∧ (r + 1)%N ∉ c :: ls.
Proof.
  revert c. induction ls as [|l ls IH]; intros c Hs Hu; simpl.
  { split_and!; [done| |set_solver by lia].
    intros x Hx. assert (x = c) as -> by lia. set_solver. }
  apply StronglySorted_cons in Hs as [Hc Hs]. apply Forall_cons in Hu as [_ Hu].
  pose proof Hc as Hcl. apply Forall_cons in Hcl as [Hcl _].
  pose proof Hu as Hlu. apply Forall_cons in Hlu as [Hlu _]. unfold is_u64 in Hlu.
  assert (wrapping_add c 1 = c + 1)%N as -> by (unfold wrapping_add; apply N.mod_small; lia).
  destruct (N.leb_spec l (c + 1)).
  - assert (l = c + 1)%N as -> by lia. destruct (IH _ Hs Hu) as (H1&H2&H3).
    split_and!; [lia| |].
    + intros x Hx. apply elem_of_cons. destruct (decide (x = c)); [by left|].
      right. apply H2. lia.
    + rewrite not_elem_of_cons. split; [lia|done].
  - split_and!; [done| |].
    + intros x Hx. assert (x = c) as -> by lia. set_solver.
    + rewrite not_elem_of_cons. split; [lia|]. rewrite not_elem_of_cons. split; [lia|].
      apply StronglySorted_cons in Hs as [Hl _]. rewrite Forall_forall in Hl.
      intros Hin%Hl. lia.
Qed.

Lemma ceiling_of_spec (s : gset u64) m :
  m ∈ s → (∀ x, x ∈ s → m ≤ x)%N → (∀ x, x ∈ s → is_u64 x) →
  let r := ceiling_of (bset_to_list N.le s) in
  (m ≤ r)%N ∧ (∀ x, m ≤ x ≤ r → x ∈ s)%N ∧ (r + 1)%N ∉ s.
Proof.
  intros Hm Hmin Hu. pose proof (bset_strict s) as Hs.
  pose proof (elem_of_bset N.le s) as Hel.
  destruct (bset_to_list N.le s) as [|c ls] eqn:E.
  { apply Hel in Hm. set_solver. }
  assert (c = m) as <-.
  { assert (c ∈ s) as Hc by (apply Hel; set_solver). specialize (Hmin c Hc).
    apply Hel, elem_of_cons in Hm. destruct Hm as [Hm|Hm]; [done|].
    apply StronglySorted_cons in Hs as [Hc' _]. rewrite Forall_forall in Hc'.
    apply Hc' in Hm. lia. }
  destruct (ceiling_loop_spec ls c Hs) as (H1&H2&H3).
  { apply Forall_forall. intros x Hx. by apply Hu, Hel. }
  split_and!; [done| |].
  - intros x Hx. by apply Hel, H2.
  - intros Hin. by apply H3, Hel.
Qed.

(** ** Properties of the merged roster *)
Definition authored (entries : list RosterEntry) (founder : option u64) : list RosterEntry :=
  authored_by (ever_admin (valid_entries entries) founder) (valid_entries entries).

Lemma elem_of_valid entries e : e ∈ valid_entries entries ↔ key_bound e ∧ e ∈ entries.
Proof. apply list_elem_of_filter. Qed.

Lemma elem_of_authored entries founder e :
  e ∈ authored entries founder ↔
  e ∈ entries ∧ key_bound e ∧ EverAdmin (valid_entries entries) founder (added_by e).
Proof.
  unfold authored, authored_by. rewrite list_elem_of_filter, elem_of_valid, elem_of_ever_admin.
  naive_solver.
Qed.

Lemma authored_mono es1 es2 founder :
  es1 ⊆ es2 → authored es1 founder ⊆ authored es2 founder.
Proof.
  intros Hsub e. rewrite !elem_of_authored. intros (Hin&Hk&Ha). split_and!; auto.
  eapply EverAdmin_ext; [|exact Ha]. intros e'. rewrite !elem_of_valid. naive_solver.
Qed.

Definition ceiling_at (entries : list RosterEntry) (founder : option u64) (s : u64) : u64 :=
  ceiling_of (bset_to_list N.le (subject_lamports (authored entries founder) s)).

Lemma fold_privileges_split entries founder :
  let a := authored entries founder in
  fold_privileges entries founder =
  mkMergeState
    (fold_max subject_peer subject_key key_join a ∅)
    (list_to_set (subject_peer <$> filter is_revoke a))
    (fold_max subject_peer cand_of cand_join (filter (admissible (ceilings a)) a) ∅).
Proof. apply merge_loop_split. Qed.

(** The merge is already in ascending order when it is sorted. *)
Lemma peer_record_id st n x : peer_id (peer_record st n x) = x.1.
Proof. by destruct x as [s [[l a] r]]. Qed.

Lemma merge_roster_unsorted entries founder :
  merge_roster entries founder =
  peer_record (fold_privileges entries founder) (fold_names entries) <$>
    btree_to_list N.le (ms_roles (fold_privileges entries founder)).
Proof.
  unfold merge_roster. apply (merge_sort_strict_id peer_id); [done|].
  eapply StronglySorted_fmap; [|apply btree_strict].
  intros x y Hxy. by rewrite !peer_record_id.
Qed.

(** An entry that wins its subject's role: admin-authored, at or below the
    subject's causal ceiling, and beaten by no other such entry. *)
Definition winning_grant (entries : list RosterEntry) (founder : option u64) (e : RosterEntry) : Prop :=
  let ok e' := e' ∈ authored entries founder ∧ is_grant e' = true ∧
               (lamport e' ≤ ceiling_at entries founder (subject_peer e'))%N in
  ok e ∧ ∀ e', ok e' → subject_peer e' = subject_peer e → cand_le (cand_of e') (cand_of e).

Lemma admissible_at entries founder e :
  admissible (ceilings (authored entries founder)) e ↔
  is_grant e = true ∧ (lamport e ≤ ceiling_at entries founder (subject_peer e))%N.
Proof. unfold admissible, ceiling_at. by rewrite ceilings_lookup. Qed.

Lemma roles_lookup entries founder s c :
  ms_roles (fold_privileges entries founder) !! s = Some c ↔
  ∃ e, winning_grant entries founder e ∧ subject_peer e = s ∧ cand_of e = c.
Proof.
  rewrite fold_privileges_split; simpl.
  rewrite (fold_max_Some _ _ cand_le cand_join cand_join_pick cand_join_l cand_join_r).
  setoid_rewrite list_elem_of_filter. setoid_rewrite admissible_at. unfold winning_grant.
  split.
  - intros [(e&((Hg&Hl)&Hin)&Hs&Hc) Hub]. exists e. split_and!; auto.
    intros e' (Hin'&Hg'&Hl') Hs'. rewrite Hc. apply Hub; auto. congruence.
  - intros (e&[(Hin&Hg&Hl) Hub]&Hs&Hc). split; [by exists e|].
    intros e' ((Hg'&Hl')&Hin') Hs'. rewrite <-Hc. apply Hub; auto. congruence.
Qed.

Lemma revoked_elem entries founder s :
  s ∈ ms_revoked (fold_privileges entries founder) ↔
  ∃ e, e ∈ authored entries founder ∧ op e = Revoke ∧ subject_peer e = s.
Proof.
  rewrite fold_privileges_split; simpl.
  rewrite elem_of_list_to_set, list_elem_of_fmap. split.
  - intros (e&->&[Hr Hin]%list_elem_of_filter). by exists e.
  - intros (e&Hin&Hr&<-). exists e. split; [done|]. by apply list_elem_of_filter.
Qed.

Lemma keys_lookup entries founder s k :
  ms_keys (fold_privileges entries founder) !! s = Some k ↔
  (∃ e, e ∈ authored entries founder ∧ subject_peer e = s ∧ subject_key e = k) ∧
  (∀ e, e ∈ authored entries founder → subject_peer e = s → bytes_le k (subject_key e)).
Proof.
  rewrite fold_privileges_split; simpl.
  by rewrite (fold_max_Some _ _ key_ge key_join key_join_pick key_join_l key_join_r).
Qed.

(** [keys[subject]] never misses for a subject that has a role. *)
Lemma keys_total entries founder s c :
  ms_roles (fold_privileges entries founder) !! s = Some c →
  is_Some (ms_keys (fold_privileges entries founder) !! s).
Proof.
  rewrite roles_lookup. intros (e&((Hin&_)&_)&Hs&_).
  destruct (ms_keys _ !! s) eqn:E; [done|]. exfalso. revert E.
  rewrite fold_privileges_split; simpl. rewrite fold_max_None. intros H. by eapply H.
Qed.

Lemma elem_of_merge_roster entries founder p :
  p ∈ merge_roster entries founder ↔
    (∃ e, winning_grant entries founder e ∧ subject_peer e = peer_id p ∧
          role_of_op (op e) = role p) ∧
    (status p = Revoked ↔
       ∃ e, e ∈ authored entries founder ∧ op e = Revoke ∧ subject_peer e = peer_id p) ∧
    ((∃ e, e ∈ authored entries founder ∧ subject_peer e = peer_id p ∧
           subject_key e = verifying_key p) ∧
     (∀ e, e ∈ authored entries founder → subject_peer e = peer_id p →
           bytes_le (verifying_key p) (subject_key e))) ∧
    name p = snd <$> fold_names entries !! peer_id p.
Proof.
  rewrite merge_roster_unsorted, list_elem_of_fmap. split.
  - intros ([s [[l a] r]]&->&Hx%elem_of_btree). simpl.
    destruct (keys_total _ _ _ _ Hx) as [k Hk]. rewrite Hk; simpl.
    apply keys_lookup in Hk as [Hk1 Hk2]. rewrite <-revoked_elem.
    apply roles_lookup in Hx as (e&Hw&Hs&[= _ _ Hr]).
    split_and!; [by exists e| |done..]. by case_decide.
  - intros ((e&Hw&Hs&Hr)&Hst&Hk&Hn).
    assert (ms_roles (fold_privileges entries founder) !! peer_id p = Some (cand_of e)) as Hc.
    { apply roles_lookup. by exists e. }
    apply keys_lookup in Hk. rewrite <-revoked_elem in Hst.
    exists (peer_id p, cand_of e). split; [|by apply elem_of_btree].
    destruct p as [pid key st ro nm]; simpl in *. rewrite Hk, Hn, Hr. simpl. f_equal.
    case_decide; destruct st; naive_solver.
Qed.

(** C1: a peer is in the merged roster exactly when some admin-authored grant
    for it is at or below its causal ceiling; its role is the one of the grant
    with the greatest (lamport, author), the least role on a full tie; it is
    revoked exactly when some admin ever authored a revocation of it; its key is
    the least key any admin bound to it. *)
Theorem merge_roster_spec entries founder p :
  p ∈ merge_roster entries founder ↔
    (∃ e, winning_grant entries founder e ∧ subject_peer e = peer_id p ∧
          role_of_op (op e) = role p) ∧
    (status p = Revoked ↔
       ∃ e, e ∈ authored entries founder ∧ op e = Revoke ∧ subject_peer e = peer_id p) ∧
    ((∃ e, e ∈ authored entries founder ∧ subject_peer e = peer_id p ∧
           subject_key e = verifying_key p) ∧
     (∀ e, e ∈ authored entries founder → subject_peer e = peer_id p →
           bytes_le (verifying_key p) (subject_key e))) ∧
    name p = snd <$> fold_names entries !! peer_id p.
Proof. apply elem_of_merge_roster. Qed.

(** *** Self-asserted names *)
Definition name_claim (e : RosterEntry) : option (u64 * (u64 * rstring)) :=
  match op e with
  | SetName n => if decide (added_by e = subject_peer e) then Some (subject_peer e, (seq e, n)) else None
  | _ => None
  end.
Definition name_join (cur c : u64 * rstring) : u64 * rstring :=
  if (cur.1 <=? c.1)%N then c else cur.
Definition name_le (x y : u64 * rstring) : Prop := (x.1 ≤ y.1)%N.
#[global] Instance name_le_pre : PreOrder name_le.
Proof. split; [intros x|intros x y z]; unfold name_le; lia. Qed.

Lemma name_join_pick v w : name_join v w = v ∨ name_join v w = w.
Proof. unfold name_join. case_match; auto. Qed.
Lemma name_join_l v w : name_le v (name_join v w).
Proof. unfold name_join, name_le. case_match; lia. Qed.
Lemma name_join_r v w : name_le w (name_join v w).
Proof. unfold name_join, name_le. case_match; lia. Qed.

Lemma fold_names_join entries :
  fold_names entries = fold_max fst snd name_join (omap name_claim (valid_entries entries)) ∅.
Proof.
  unfold fold_names. induction (valid_entries entries) as [|e l IH] using rev_ind; [done|].
  rewrite foldl_snoc, IH, omap_app. unfold names_step. cbn [omap list_omap].
  destruct (name_claim e) as [[s v]|] eqn:En; unfold name_claim in En; rewrite ?app_nil_r;
    destruct (op e); repeat case_decide; simplify_eq; try done.
  rewrite fold_max_snoc. unfold entry_join, name_join. simpl.
  destruct (fold_max _ _ _ _ _ !! subject_peer e) as [v|]; simpl; [by case_match|].
  rewrite (proj2 (N.leb_le _ _)) by lia. done.
Qed.

(** No device signed two names with one sequence number. *)
Definition names_consistent (entries : list RosterEntry) : Prop :=
  ∀ e1 e2 s q n1 n2, e1 ∈ valid_entries entries → e2 ∈ valid_entries entries →
    name_claim e1 = Some (s, (q, n1)) → name_claim e2 = Some (s, (q, n2)) → n1 = n2.

Lemma fold_names_Some_1 entries s q n :
  fold_names entries !! s = Some (q, n) →
  (∃ e, e ∈ valid_entries entries ∧ name_claim e = Some (s, (q, n))) ∧
  (∀ e q' n', e ∈ valid_entries entries → name_claim e = Some (s, (q', n')) → q' ≤ q)%N.
Proof.
  rewrite fold_names_join. intros Hl.
  apply (fold_max_Some_1 _ _ name_le name_join name_join_pick name_join_l name_join_r)
    in Hl as [([s' v]&Hin&Hs&Hv) Hub].
  simpl in *; subst. apply list_elem_of_omap in Hin as (e&Hin&He). split; [by exists e|].
  intros e' q' n' Hin' He'. apply (Hub (s, (q', n'))); [|done].
  apply list_elem_of_omap. by exists e'.
Qed.

Lemma fold_names_None entries s :
  fold_names entries !! s = None ↔
  ∀ e q n, e ∈ valid_entries entries → name_claim e ≠ Some (s, (q, n)).
Proof.
  rewrite fold_names_join, fold_max_None. split.
  - intros H e q n Hin He. apply (H (s, (q, n))); [|done]. apply list_elem_of_omap. by exists e.
  - intros H [s' [q n]] (e&Hin&He)%list_elem_of_omap. simpl. intros ->. by eapply H.
Qed.

Lemma fold_names_ext es1 es2 :
  (∀ e, e ∈ es1 ↔ e ∈ es2) → names_consistent es1 → fold_names es1 = fold_names es2.
Proof.
  intros Heq Hc.
  assert (∀ e, e ∈ valid_entries es1 ↔ e ∈ valid_entries es2) as Hv.
  { intros e. rewrite !elem_of_valid. naive_solver. }
  apply map_eq. intros s.
  destruct (fold_names es1 !! s) as [[q1 n1]|] eqn:E1;
    destruct (fold_names es2 !! s) as [[q2 n2]|] eqn:E2.
  - apply fold_names_Some_1 in E1 as [(e1&Hin1&He1) Hub1].
    apply fold_names_Some_1 in E2 as [(e2&Hin2&He2) Hub2].
    assert (q1 = q2) as ->.
    { apply Hv in Hin2 as Hin2'. apply Hv in Hin1 as Hin1'.
      specialize (Hub1 _ _ _ Hin2' He2). specialize (Hub2 _ _ _ Hin1' He1). lia. }
    do 2 f_equal. eapply (Hc e1 e2); eauto. by apply Hv.
  - apply fold_names_Some_1 in E1 as [(e1&Hin1%Hv&He1) _].
    by eapply (proj1 (fold_names_None _ _)) in He1.
  - apply fold_names_Some_1 in E2 as [(e2&Hin2%Hv&He2) _].
    by eapply (proj1 (fold_names_None _ _)) in He2.
  - done.
Qed.

(** *** Convergence *)
Lemma authored_ext es1 es2 founder :
  (∀ e, e ∈ es1 ↔ e ∈ es2) → ∀ e, e ∈ authored es1 founder ↔ e ∈ authored es2 founder.
Proof.
  intros Heq e. split; apply authored_mono; intros e'; apply Heq.
Qed.

Lemma fold_privileges_ext es1 es2 founder :
  (∀ e, e ∈ es1 ↔ e ∈ es2) → fold_privileges es1 founder = fold_privileges es2 founder.
Proof.
  intros Heq. pose proof (authored_ext _ _ founder Heq) as Ha.
  rewrite !fold_privileges_split.
  assert (ceilings (authored es1 founder) = ceilings (authored es2 founder)) as <-.
  { unfold ceilings. apply map_eq. intros s. rewrite !lookup_fmap, !grant_lamports_lookup.
    assert (subject_lamports (authored es1 founder) s = subject_lamports (authored es2 founder) s)
      as ->; [|done]. apply set_eq. intros l. rewrite !elem_of_subject_lamports.
    split; intros (e&?%Ha&?); by exists e. }
  f_equal.
  - by apply (fold_max_ext _ _ key_ge key_join key_join_pick key_join_l key_join_r).
  - apply set_eq. intros s. rewrite !elem_of_list_to_set, !list_elem_of_fmap.
    split; intros (e&?&[? ?%Ha]%list_elem_of_filter); exists e;
      split; try done; by apply list_elem_of_filter.
  - apply (fold_max_ext _ _ cand_le cand_join cand_join_pick cand_join_l cand_join_r).
    intros e. rewrite !list_elem_of_filter. by rewrite Ha.
Qed.

(** C2: two devices holding the same set of signed entries, in any order and
    with any duplication, compute the same roster, provided no device signed two
    different names under one sequence number. *)
Theorem merge_roster_converges es1 es2 founder :
  (∀ e, e ∈ es1 ↔ e ∈ es2) → names_consistent es1 →
  merge_roster es1 founder = merge_roster es2 founder.
Proof.
  intros Heq Hn. rewrite !merge_roster_unsorted.
  by rewrite (fold_privileges_ext es1 es2), (fold_names_ext es1 es2).
Qed.

Definition without_name (p : PeerRecord) : PeerRecord :=
  mkPeerRecord (peer_id p) (verifying_key p) (status p) (role p) None.

Lemma privileges_ext es1 es2 founder :
  (∀ e, e ∈ es1 ↔ e ∈ es2) →
  without_name <$> merge_roster es1 founder = without_name <$> merge_roster es2 founder.
Proof.
  intros Heq. rewrite !merge_roster_unsorted, (fold_privileges_ext es1 es2) by done.
  rewrite <-!list_fmap_compose. apply list_fmap_ext. intros i [s [[l a] r]] _. done.
Qed.

(** Keys, roles and revocations converge even when a device equivocates
    about its name: two devices with the same set of entries agree on every
    record up to its display name. *)
Theorem merge_roster_privileges_converge es1 es2 founder :
  (∀ e, e ∈ es1 ↔ e ∈ es2) →
  without_name <$> merge_roster es1 founder = without_name <$> merge_roster es2 founder.
Proof. apply privileges_ext. Qed.

Lemma merge_roster_strict entries founder :
  StronglySorted (λ p q, peer_id p < peer_id q)%N (merge_roster entries founder).
Proof.
  rewrite merge_roster_unsorted. eapply StronglySorted_fmap; [|apply btree_strict].
  intros x y Hxy. by rewrite !peer_record_id.
Qed.

(** The merged roster is in strictly ascending peer order, so every peer
    has one record. *)
Theorem merge_roster_sorted entries founder :
  StronglySorted (λ p q, peer_id p < peer_id q)%N (merge_roster entries founder).
Proof. apply merge_roster_strict. Qed.

(** C6: revocation is terminal.  Once an admin's revocation of a peer is among
    the entries, every later roster built from more entries lists that peer, if
    at all, as revoked: no grant by anyone brings it back. *)
Theorem revoke_terminal es es' founder e p :
  e ∈ es → key_bound e → EverAdmin (valid_entries es) founder (added_by e) →
  op e = Revoke → es ⊆ es' →
  p ∈ merge_roster es' founder → peer_id p = subject_peer e → status p = Revoked.
Proof.
  intros Hin Hk Ha Hop Hsub Hp Hid. apply elem_of_merge_roster in Hp as (_&Hst&_).
  apply Hst. exists e. split_and!; [|done..]. apply (authored_mono es); [done|].
  by apply elem_of_authored.
Qed.

(** *** Forged clocks *)

Lemma EverAdmin_cons_drop es e founder :
  (grants_admin e = true → EverAdmin (valid_entries es) founder (subject_peer e)) →
  ∀ p, EverAdmin (valid_entries (e :: es)) founder p → EverAdmin (valid_entries es) founder p.
Proof.
  intros He p. induction 1 as [f Hf|e' Hin Hg _ IH]; [by apply ea_founder|].
  apply elem_of_valid in Hin as [Hk [->|Hin]%elem_of_cons]; [by apply He|].
  apply ea_grant; [by apply elem_of_valid|done|done].
Qed.

Lemma elem_of_authored_cons es e founder e' :
  (grants_admin e = true → EverAdmin (valid_entries es) founder (subject_peer e)) →
  e' ∈ authored (e :: es) founder → e' = e ∨ e' ∈ authored es founder.
Proof.
  intros He. rewrite !elem_of_authored. intros ([->|Hin]%elem_of_cons&Hk&Ha); [by left|].
  right. split_and!; [done..|]. by eapply EverAdmin_cons_drop.
Qed.

Lemma ceiling_of_unique (s1 s2 : gset u64) m :
  m ∈ s1 → (∀ x, x ∈ s1 → m ≤ x)%N → (∀ x, x ∈ s2 → is_u64 x) →
  s1 ⊆ s2 →
  (∀ x, x ∈ s2 → x ∈ s1 ∨ ceiling_of (bset_to_list N.le s1) + 1 < x)%N →
  ceiling_of (bset_to_list N.le s2) = ceiling_of (bset_to_list N.le s1).
Proof.
  intros Hm Hmin Hu Hsub Hnew.
  destruct (ceiling_of_spec s1 m) as (A1&A2&A3); [done..|set_solver|].
  destruct (ceiling_of_spec s2 m) as (B1&B2&B3); [set_solver| |done|].
  { intros x [Hx|Hx]%Hnew; [by apply Hmin|]. simpl in *. lia. }
  simpl in *. set (c1 := ceiling_of (bset_to_list N.le s1)) in *.
  set (c2 := ceiling_of (bset_to_list N.le s2)) in *.
  destruct (N.lt_trichotomy c1 c2) as [Hlt|[->|Hlt]]; [|done|].
  - exfalso. destruct (Hnew (c1 + 1)%N) as [?|?]; [apply B2; lia|done|lia].
  - exfalso. apply B3, Hsub, A2. lia.
Qed.

Section forged.
Context (es : list RosterEntry) (e : RosterEntry) (founder : option u64).
Hypothesis Hu64 : ∀ e', e' ∈ e :: es → is_u64 (lamport e').
Hypothesis Hadmin : grants_admin e = true → EverAdmin (valid_entries es) founder (subject_peer e).
Hypothesis Hgrant : is_grant e = true.
Hypothesis Hground : subject_lamports (authored es founder) (subject_peer e) ≠ ∅.
Hypothesis Hjump : (ceiling_at es founder (subject_peer e) + 1 < lamport e)%N.

Lemma forged_ceiling s : ceiling_at (e :: es) founder s = ceiling_at es founder s.
Proof.
  unfold ceiling_at.
  assert (subject_lamports (authored es founder) s ⊆
          subject_lamports (authored (e :: es) founder) s) as Hsub.
  { intros l. rewrite !elem_of_subject_lamports. intros (e'&Hin&H). exists e'. split; [|done].
    apply (authored_mono es); [set_solver|done]. }
  destruct (decide (subject_lamports (authored es founder) s = ∅)) as [He|Hne].
  - f_equal. f_equal. apply set_eq. intros l. split; [|apply Hsub].
    rewrite !elem_of_subject_lamports. intros (e'&Hin&Hg&Hs&Hl). exists e'. split; [|done].
    apply elem_of_authored_cons in Hin as [->|?]; [|done|done].
    rewrite Hs in Hground. done.
  - destruct (gset_min_exists _ Hne) as (m&Hm&Hmin).
    apply (ceiling_of_unique _ _ m); [done|done| |done|].
    + intros x (e'&Hin&_&_&<-)%elem_of_subject_lamports. apply Hu64.
      by apply elem_of_authored in Hin as [? _].
    + intros x (e'&Hin&Hg&Hs&Hl)%elem_of_subject_lamports.
      apply elem_of_authored_cons in Hin as [->|Hin]; [|left|done].
      * right. rewrite <-Hs, <-Hl. apply Hjump.
      * apply elem_of_subject_lamports. by exists e'.
Qed.

Lemma forged_roles :
  ms_roles (fold_privileges (e :: es) founder) = ms_roles (fold_privileges es founder).
Proof.
  rewrite !fold_privileges_split; simpl.
  apply (fold_max_ext _ _ cand_le cand_join cand_join_pick cand_join_l cand_join_r).
  intros e'. rewrite !list_elem_of_filter, !admissible_at, forged_ceiling. split.
  - intros ([Hg Hl]&[->|Hin]%elem_of_authored_cons); [lia|done..].
  - intros (H&Hin). split; [done|]. apply (authored_mono es); [set_solver|done].
Qed.

Lemma forged_revoked :
  ms_revoked (fold_privileges (e :: es) founder) = ms_revoked (fold_privileges es founder).
Proof.
  apply set_eq. intros s. rewrite !revoked_elem. split; intros (e'&Hin&Ho&Hs); exists e'.
  - apply elem_of_authored_cons in Hin as [->|?]; [|done|done].
    unfold is_grant in Hgrant. by rewrite Ho in Hgrant.
  - split; [|done]. apply (authored_mono es); [set_solver|done].
Qed.
End forged.

Definition privileges (p : PeerRecord) : u64 * PeerStatus * Role :=
  (peer_id p, status p, role p).

Lemma forged_grant_inert es e founder :
  (∀ e', e' ∈ e :: es → is_u64 (lamport e')) →
  (grants_admin e = true → EverAdmin (valid_entries es) founder (subject_peer e)) →
  is_grant e = true →
  subject_lamports (authored es founder) (subject_peer e) ≠ ∅ →
  (ceiling_at es founder (subject_peer e) + 1 < lamport e)%N →
  privileges <$> merge_roster (e :: es) founder = privileges <$> merge_roster es founder.
Proof.
  intros. rewrite !merge_roster_unsorted, forged_roles by done.
  rewrite <-!list_fmap_compose. apply list_fmap_ext. intros i [s [[l a] r]] _.
  unfold compose, privileges; simpl. by rewrite forged_revoked.
Qed.

(** C7: a grant whose clock jumps more than one past its subject's causal
    ceiling changes nobody's role or status, whoever signed it, so an
    unbeatable [u64::MAX] clock cannot pin a role (once the subject has an
    admin-authored grant; an admin grant to a subject that was never an admin
    still enters the admin closure, which ignores clocks, and is excluded). *)
Theorem forged_lamport_ignored es e founder :
  (∀ e', e' ∈ e :: es → is_u64 (lamport e')) →
  (grants_admin e = true → EverAdmin (valid_entries es) founder (subject_peer e)) →
  is_grant e = true →
  subject_lamports (authored es founder) (subject_peer e) ≠ ∅ →
  (ceiling_at es founder (subject_peer e) + 1 < lamport e)%N →
  privileges <$> merge_roster (e :: es) founder = privileges <$> merge_roster es founder.
Proof. apply forged_grant_inert. Qed.

(** *** A fresh decision *)

Lemma ceiling_of_extend (s1 s2 : gset u64) :
  (∀ x, x ∈ s2 ↔ x = ceiling_of (bset_to_list N.le s1) + 1 ∨ x ∈ s1)%N →
  (∀ x, x ∈ s1 → x ≤ ceiling_of (bset_to_list N.le s1))%N →
  (∀ x, x ∈ s2 → is_u64 x) →
  ceiling_of (bset_to_list N.le s2) = (ceiling_of (bset_to_list N.le s1) + 1)%N.
Proof.
  intros Heq Hle Hu. set (c := ceiling_of (bset_to_list N.le s1)) in *.
  destruct (gset_min_exists s2) as (m&Hm&Hmin).
  { intros He. assert (c + 1 ∈ s2)%N by (apply Heq; by left). set_solver. }
  destruct (ceiling_of_spec s2 m Hm Hmin Hu) as (B1&B2&B3). simpl in *.
  set (c2 := ceiling_of (bset_to_list N.le s2)) in *.
  destruct (N.lt_trichotomy c2 (c + 1)) as [Hlt|[->|Hlt]]; [exfalso|done|exfalso].
  - apply B3, Heq. destruct (decide (c2 = c)) as [->|Hne]; [by left|right].
    assert (m ∈ s1) as Hm1.
    { apply Heq in Hm. destruct Hm as [->|Hm]; [lia|done]. }
    destruct (ceiling_of_spec s1 m Hm1) as (_&A2&_).
    + intros x Hx. apply Hmin, Heq. by right.
    + intros x Hx. apply Hu, Heq. by right.
    + apply A2. fold c. lia.
  - assert (m ≤ c + 1)%N by (apply Hmin, Heq; by left).
    assert (c + 1 + 1 ∈ s2)%N as Hin by (apply B2; lia).
    apply Heq in Hin. destruct Hin as [?|Hin%Hle]; lia.
Qed.

Lemma fresh_grant_role es e founder :
  (∀ e', e' ∈ e :: es → is_u64 (lamport e')) →
  key_bound e → is_grant e = true → EverAdmin (valid_entries es) founder (added_by e) →
  (∀ e', e' ∈ authored (e :: es) founder → is_grant e' = true →
     subject_peer e' = subject_peer e → e' = e ∨ e' ∈ authored es founder) →
  (∀ l, l ∈ subject_lamports (authored es founder) (subject_peer e) →
     l ≤ ceiling_at es founder (subject_peer e))%N →
  lamport e = (ceiling_at es founder (subject_peer e) + 1)%N →
  ∃ p, p ∈ merge_roster (e :: es) founder ∧ peer_id p = subject_peer e ∧
       role p = role_of_op (op e).
Proof.
  intros Hu Hk Hg Ha Hold Hcont Hl.
  assert (e ∈ authored (e :: es) founder) as He.
  { apply elem_of_authored. split_and!; [set_solver|done|]. eapply EverAdmin_ext; [|done].
    intros e'. rewrite !elem_of_valid. set_solver. }
  assert (ceiling_at (e :: es) founder (subject_peer e) = lamport e) as Hc.
  { rewrite Hl. apply ceiling_of_extend; [|exact Hcont|].
    - intros x. rewrite !elem_of_subject_lamports. split.
      + intros (e'&Hin&Hg'&Hs&<-). destruct (Hold e' Hin Hg' Hs) as [->|?]; [by left|right].
        by exists e'.
      + intros [->|(e'&Hin&Hg'&Hs&<-)]; [by exists e|]. exists e'. split_and!; try done.
        apply (authored_mono es); [set_solver|done].
    - intros x (e'&Hin&_&_&<-)%elem_of_subject_lamports. apply Hu.
      by apply elem_of_authored in Hin as [? _]. }
  assert (winning_grant (e :: es) founder e) as Hw.
  { split; [split_and!; [done..|lia]|]. intros e' (Hin'&Hg'&Hl') Hs.
    destruct (Hold e' Hin' Hg' Hs) as [->|Hin]; [done|].
    assert (lamport e' < lamport e)%N; [|unfold cand_le, cand_of; lia].
    assert (lamport e' ≤ ceiling_at es founder (subject_peer e))%N; [|lia].
    apply Hcont, elem_of_subject_lamports. by exists e'. }
  exists (peer_record (fold_privileges (e :: es) founder) (fold_names (e :: es))
    (subject_peer e, cand_of e)).
  split; [|done]. rewrite merge_roster_unsorted. apply list_elem_of_fmap_2, elem_of_btree.
  apply roles_lookup. by exists e.
Qed.

(** An admin's grant whose clock is exactly one past the subject's ceiling
    takes effect, provided the subject's earlier grant clocks are contiguous
    (none is above the ceiling) and the grant does not itself unlock older
    grants about its subject: the merged roster gives the subject the granted
    role. *)
Theorem fresh_grant_wins es e founder :
  (∀ e', e' ∈ e :: es → is_u64 (lamport e')) →
  key_bound e → is_grant e = true → EverAdmin (valid_entries es) founder (added_by e) →
  (∀ e', e' ∈ authored (e :: es) founder → is_grant e' = true →
     subject_peer e' = subject_peer e → e' = e ∨ e' ∈ authored es founder) →
  (∀ l, l ∈ subject_lamports (authored es founder) (subject_peer e) →
     l ≤ ceiling_at es founder (subject_peer e))%N →
  lamport e = (ceiling_at es founder (subject_peer e) + 1)%N →
  ∃ p, p ∈ merge_roster (e :: es) founder ∧ peer_id p = subject_peer e ∧
       role p = role_of_op (op e).
Proof. apply fresh_grant_role. Qed.

(** *** What the signature covers *)
Definition op_wf (o : RosterOp) : Prop :=
  match o with
  | SetName n => forallb is_scalar n = true ∧ (str_len n < 256 ^ 4)%N
  | _ => True
  end.
(** The Rust types' ranges: [u64] fields, a 32-byte key, a [str] name whose
    length fits the 32-bit prefix. *)
Definition entry_wf (e : RosterEntry) : Prop :=
  is_u64 (seq e) ∧ is_u64 (lamport e) ∧ is_u64 (subject_peer e) ∧ is_u64 (added_by e) ∧
  length (subject_key e) = 32 ∧ op_wf (op e).

Lemma byte_of_N_inj n m : (n < 256)%N → (m < 256)%N → byte_of_N n = byte_of_N m → n = m.
Proof.
  intros Hn Hm H%(f_equal Byte.to_N). rewrite !to_N_byte_of_N, !N.mod_small in H; done.
Qed.

Lemma op_tags_bound o : ((op_tags o).1 < 256 ∧ (op_tags o).2 < 256)%N.
Proof. destruct o as [[]|[]| |]; done. Qed.

(** The signed bytes determine the entry: two well-formed entries with the
    same canonical bytes are the same entry, so one signature vouches for one
    membership change (role, subject, key, clock, author and name included). *)
Theorem canonical_bytes_inj e1 e2 :
  entry_wf e1 → entry_wf e2 → canonical_bytes e1 = canonical_bytes e2 → e1 = e2.
Proof.
  intros (Hs1&Hl1&Hp1&Ha1&Hk1&Ho1) (Hs2&Hl2&Hp2&Ha2&Hk2&Ho2).
  unfold canonical_bytes. intros [_ H]%app_inj_1; [|done].
  apply app_inj_1 in H as [Hs%u64_le_bytes_inj H]; [|done|done|by rewrite !length_le_bytes].
  apply app_inj_1 in H as [Hl%u64_le_bytes_inj H]; [|done|done|by rewrite !length_le_bytes].
  apply app_inj_1 in H as [[= Ht1 Ht2] H]; [|done].
  apply app_inj_1 in H as [Hp%u64_le_bytes_inj H]; [|done|done|by rewrite !length_le_bytes].
  apply app_inj_1 in H as [Hk H]; [|congruence].
  apply app_inj_1 in H as [Ha%u64_le_bytes_inj H]; [|done|done|by rewrite !length_le_bytes].
  pose proof (op_tags_bound (op e1)) as [? ?]. pose proof (op_tags_bound (op e2)) as [? ?].
  apply byte_of_N_inj in Ht1; [|done..]. apply byte_of_N_inj in Ht2; [|done..].
  destruct e1 as [s1 l1 o1 p1 k1 a1], e2 as [s2 l2 o2 p2 k2 a2]; simpl in *; subst. f_equal.
  destruct o1 as [r1|r1| |n1], o2 as [r2|r2| |n2]; simpl in *; try done.
  - by rewrite (role_byte_inj _ _ Ht2).
  - by rewrite (role_byte_inj _ _ Ht2).
  - injection H as _ _ _ _ H. f_equal. destruct Ho1, Ho2. by apply utf8_inj.
Qed.

(** Parsing a printed role gives the role back. *)
Theorem role_display_from_str r : role_from_str (role_display r) = Some r.
Proof. by destruct r. Qed.

(** *** Names are orthogonal to privilege *)
Definition is_set_name (e : RosterEntry) : Prop :=
  match op e with SetName _ => True | _ => False end.
#[global] Instance is_set_name_dec e : Decision (is_set_name e).
Proof. unfold is_set_name. destruct (op e); apply _. Defined.

Lemma EverAdmin_no_names es founder p :
  EverAdmin (valid_entries (filter (λ e, ¬ is_set_name e) es)) founder p ↔
  EverAdmin (valid_entries es) founder p.
Proof.
  split.
  - apply EverAdmin_ext. intros e. rewrite !elem_of_valid, list_elem_of_filter. naive_solver.
  - induction 1 as [f Hf|e Hin Hg _ IH]; [by apply ea_founder|]. apply ea_grant; [|done..].
    rewrite elem_of_valid in Hin |- *. destruct Hin as [Hk Hin]. split; [done|].
    apply list_elem_of_filter. split; [|done]. revert Hg. unfold is_set_name, grants_admin.
    destruct (op e); naive_solver.
Qed.

Lemma authored_no_names es founder e :
  e ∈ authored (filter (λ e, ¬ is_set_name e) es) founder ↔
  ¬ is_set_name e ∧ e ∈ authored es founder.
Proof.
  rewrite !elem_of_authored, EverAdmin_no_names, list_elem_of_filter. naive_solver.
Qed.

Lemma privileges_no_names es founder :
  ms_roles (fold_privileges (filter (λ e, ¬ is_set_name e) es) founder) =
    ms_roles (fold_privileges es founder) ∧
  ms_revoked (fold_privileges (filter (λ e, ¬ is_set_name e) es) founder) =
    ms_revoked (fold_privileges es founder).
Proof.
  assert (∀ e, is_grant e = true → ¬ is_set_name e) as Hgn.
  { intros e. unfold is_grant, is_set_name. destruct (op e); naive_solver. }
  assert (∀ s, ceiling_at (filter (λ e, ¬ is_set_name e) es) founder s = ceiling_at es founder s) as Hc.
  { intros s. unfold ceiling_at. do 2 f_equal. apply set_eq. intros l.
    rewrite !elem_of_subject_lamports. setoid_rewrite authored_no_names.
    split; intros (e&Hin&Hg&H); exists e; naive_solver. }
  split.
  - rewrite !fold_privileges_split; simpl.
    apply (fold_max_ext _ _ cand_le cand_join cand_join_pick cand_join_l cand_join_r).
    intros e. rewrite !list_elem_of_filter, !admissible_at, Hc, authored_no_names. naive_solver.
  - apply set_eq. intros s. rewrite !revoked_elem. split.
    + intros (e&[_ Hin]%authored_no_names&Ho&Hs). by exists e.
    + intros (e&Hin&Ho&Hs). exists e. split_and!; try done. apply authored_no_names.
      split; [|done]. unfold is_set_name. rewrite Ho. tauto.
Qed.

(** Device names never touch privilege: dropping every [SetName] entry
    changes no peer's membership, role or status. *)
Theorem set_name_orthogonal es founder :
  privileges <$> merge_roster (filter (λ e, ¬ is_set_name e) es) founder =
  privileges <$> merge_roster es founder.
Proof.
  destruct (privileges_no_names es founder) as [Hr Hv].
  rewrite !merge_roster_unsorted, Hr, <-!list_fmap_compose.
  apply list_fmap_ext. intros i [s [[l a] r]] _. unfold compose, privileges; simpl. by rewrite Hv.
Qed.

(** ** Concrete rosters

    [key_for peer] is a key that derives to [peer], as in the source's tests. *)
Definition key_for (peer : u64) : bytes := le_bytes 8 peer ++ replicate 24 Byte.x00.
Definition mk (sq lam : u64) (o : RosterOp) (subj by_ : u64) : RosterEntry :=
  mkRosterEntry sq lam o subj (key_for subj) by_.

(** The founder 10 admits 20 as a writer, 30 as an admin. *)
Definition ex_roster : list RosterEntry :=
  [mk 1 1 (Add Admin) 10 10; mk 2 1 (Add Writer) 20 10; mk 3 1 (Add Admin) 30 10]%N.

Ltac ever_admin_true := apply elem_of_ever_admin; decide_true.

Example merge_ex :
  (λ p, (peer_id p, status p, role p)) <$> merge_roster ex_roster (Some 10%N) =
  [(10, Active, Admin); (20, Active, Writer); (30, Active, Admin)]%N.
Proof. vm_compute. reflexivity. Qed.

Lemma merge_roster_converges_witness :
  merge_roster ex_roster (Some 10%N) = merge_roster (reverse ex_roster ++ ex_roster) (Some 10%N).
Proof.
  apply merge_roster_converges.
  - intros e. rewrite elem_of_app, elem_of_reverse. tauto.
  - intros e1 e2 s q n1 n2 H1 H2 E1 E2. exfalso. revert e1 H1 E1.
    intros e1 [_ H1]%elem_of_valid. revert e1 H1.
    unfold ex_roster; solve_forall_elem; intros E; vm_compute in E; discriminate E.
Defined.

Lemma merge_roster_privileges_converge_witness :
  without_name <$> merge_roster ex_roster (Some 10%N) =
  without_name <$> merge_roster (reverse ex_roster) (Some 10%N).
Proof. apply merge_roster_privileges_converge. intros e. by rewrite elem_of_reverse. Defined.

(** 30 is revoked by the founder; a later re-add by itself does not help. *)
Definition ex_revoked : list RosterEntry :=
  (mk 4 2 Revoke 30 10 :: ex_roster ++ [mk 1 3 (Add Admin) 30 30])%N.
Definition ex_thirty : PeerRecord :=
  default (mkPeerRecord 0 [] Active Reader None) (last (merge_roster ex_revoked (Some 10%N))).
Lemma revoke_terminal_witness : peer_id ex_thirty = 30%N ∧ status ex_thirty = Revoked.
Proof.
  split; [vm_compute; reflexivity|].
  apply (revoke_terminal (mk 4 2 Revoke 30 10 :: ex_roster)%N ex_revoked (Some 10%N)
    (mk 4 2 Revoke 30 10)%N ex_thirty);
    [set_solver|decide_true|ever_admin_true|done|unfold ex_revoked; set_solver|decide_true|vm_compute; reflexivity].
Defined.
Lemma forged_lamport_ignored_witness :
  privileges <$> merge_roster (mk 1 U64_MAX (SetRole Reader) 20 30 :: ex_roster)%N (Some 10%N) =
  [(10, Active, Admin); (20, Active, Writer); (30, Active, Admin)]%N.
Proof.
  rewrite (forged_lamport_ignored ex_roster (mk 1 U64_MAX (SetRole Reader) 20 30)%N (Some 10%N)).
  - vm_compute. reflexivity.
  - unfold ex_roster; solve_forall_elem; decide_true.
  - discriminate.
  - reflexivity.
  - apply (bool_decide_unpack (_ ≠ _)). vm_compute. exact I.
  - vm_compute. reflexivity.
Defined.

Lemma fresh_grant_wins_witness :
  ∃ p, p ∈ merge_roster (mk 1 2 (SetRole Reader) 20 30 :: ex_roster)%N (Some 10%N) ∧
       peer_id p = 20%N ∧ role p = Reader.
Proof.
  apply (fresh_grant_wins ex_roster (mk 1 2 (SetRole Reader) 20 30)%N (Some 10%N)).
  - unfold ex_roster; solve_forall_elem; decide_true.
  - decide_true.
  - reflexivity.
  - ever_admin_true.
  - intros e' [Hin _]%elem_of_authored. revert e' Hin.
    unfold ex_roster; solve_forall_elem; intros _ _; [by left|right; decide_true..].
  - intros l (e'&[Hin _]%elem_of_authored&_&Hs&<-)%elem_of_subject_lamports. revert e' Hin Hs.
    unfold ex_roster; solve_forall_elem; intros Hs; vm_compute; discriminate.
  - vm_compute. reflexivity.
Defined.

Lemma canonical_bytes_inj_witness :
  canonical_bytes (mk 1 1 (SetName (str "laptop")) 20 20)%N ≠ canonical_bytes (mk 1 1 Revoke 20 20)%N.
Proof.
  intros Heq. apply (canonical_bytes_inj (mk 1 1 (SetName (str "laptop")) 20 20)%N (mk 1 1 Revoke 20 20)%N) in Heq;
    [discriminate Heq|..]; (split_and!; [decide_true..|reflexivity|]; try (split; vm_compute; reflexivity); exact I).
Defined.

(** Names are the exception to convergence.  Two entries in which one device
    signs two names under one sequence number merge to different rosters in the
    two orders, although the set of entries is the same. *)
Theorem name_tie_depends_on_order :
  ∃ es1 es2 founder, (∀ e, e ∈ es1 ↔ e ∈ es2) ∧
    merge_roster es1 founder ≠ merge_roster es2 founder.
Proof.
  exists [mk 1 1 (Add Admin) 10 10; mk 2 2 (SetName (str "a")) 10 10; mk 2 2 (SetName (str "b")) 10 10]%N,
    [mk 1 1 (Add Admin) 10 10; mk 2 2 (SetName (str "b")) 10 10; mk 2 2 (SetName (str "a")) 10 10]%N,
    (Some 10%N).
  split; [set_solver|]. vm_compute. discriminate.
Qed.
