(* ===== verification/Wire.v ===== *)
(** * Wire: errors, identities and the external primitives

    [StorageError] (crates/roam-storage/src/error.rs), [Identity] and its file
    (identity.rs), and the interfaces of the packages the storage crate calls:
    ed25519, base64, serde_json.  Each interface is a class of operations with a
    class of the laws the sources rely on; nothing else is assumed of them. *)
From S2P Require Import Prelude RustStr Vfs Roster.

(** ** Errors *)
Inductive StorageError :=
  | Io (e : io_error)
  | Json
  | Base64
  | MalformedIdentity
  | MalformedEntry
  | BadSignature (peer : u64)
  | Peer
  | Blob
  | Crdt
  | Keywrap
  | Invalid.

#[global] Instance StorageError_eq_dec : EqDecision StorageError.
Proof. solve_decision. Defined.

(** [fs.op(..)?] inside a method that returns [StorageError] *)
Definition io {Fs A} (m : SM Fs io_error A) : SM Fs StorageError A := sm_map_err Io m.

(** ** External primitives *)

(** ed25519: secret and public keys and signatures are byte strings. *)
Class Ed25519 := {
  ed_public : bytes → bytes;
  ed_sign : bytes → bytes → bytes;
  ed_verify : bytes → bytes → bytes → bool;
  (** [VerifyingKey::from_bytes] accepts these bytes. *)
  ed_key_ok : bytes → bool;
}.
Class Ed25519Laws `{Ed25519} := {
  ed_verify_sign s m : ed_verify (ed_public s) m (ed_sign s m) = true;
  ed_sign_len s m : length (ed_sign s m) = 64;
  ed_public_len s : length (ed_public s) = 32;
  ed_public_ok s : ed_key_ok (ed_public s) = true;
}.

Class B64 := { b64_encode : bytes → rstring; b64_decode : rstring → option bytes }.
Class B64Laws `{B64} := { b64_decode_encode b : b64_decode (b64_encode b) = Some b }.
(** Its alphabet has no white space. *)
Class B64Visible `{B64} := { b64_visible b : forallb (negb ∘ is_whitespace) (b64_encode b) = true }.

(** serde_json on one struct type: what it writes is text that it reads back. *)
Class JsonOf (A : Type) := { to_json : A → rstring; from_json : rstring → option A }.
Class JsonText (A : Type) `{JsonOf A} := {
  from_to_json (a : A) : from_json (to_json a) = Some a;
  to_json_scalar (a : A) : forallb is_scalar (to_json a) = true;
}.

(** The compact form used in the line logs: one object on one line.  It opens and
    closes with a brace, has no control characters, and no proper prefix of it is
    a complete object. *)
Definition LBRACE : rchar := 123.
Definition RBRACE : rchar := 125.
Class JsonLaws (A : Type) `{JsonOf A} := {
  json_text :: JsonText A;
  to_json_object (a : A) : ∃ s, to_json a = LBRACE :: s ++ [RBRACE];
  to_json_clean (a : A) c : c ∈ to_json a → is_control c = false;
  from_json_torn (a : A) p : p `prefix_of` to_json a → p ≠ to_json a → from_json p = None (A := A);
}.

Section json_line.
Context {A : Type} `{JsonLaws A}.
Implicit Types a : A.

Lemma to_json_no_LF a : LF ∉ to_json a.
Proof. by intros Hc%to_json_clean. Qed.
Lemma to_json_nonempty a : to_json a ≠ [].
Proof. by destruct (to_json_object a) as [s ->]. Qed.
Lemma to_json_last a : last (to_json a) = Some RBRACE.
Proof. destruct (to_json_object a) as [s ->]. by rewrite app_comm_cons, last_snoc. Qed.
Lemma to_json_strip_cr a : strip_cr (to_json a) = to_json a.
Proof. unfold strip_cr. by rewrite to_json_last. Qed.
End json_line.

(** A line that starts with a visible character is not blank. *)
Lemma drop_ws_snoc s c : is_whitespace c = false → drop_ws (s ++ [c]) ≠ [].
Proof.
  intros Hc. induction s as [|x s IH]; simpl; [by rewrite Hc|]. by destruct (is_whitespace x).
Qed.
Lemma drop_ws_visible s : forallb (negb ∘ is_whitespace) s = true → drop_ws s = s.
Proof. destruct s as [|c s]; [done|]. simpl. by destruct (is_whitespace c). Qed.
Lemma trim_visible_all s : forallb (negb ∘ is_whitespace) s = true → trim s = s.
Proof.
  intros Hs. assert (forallb (negb ∘ is_whitespace) (reverse s) = true) as Hr.
  { apply forallb_forall. intros c Hc. apply (proj1 (forallb_forall _ _) Hs). by rewrite <-!list_elem_of_In, elem_of_reverse in *. }
  unfold trim. by rewrite (drop_ws_visible s), drop_ws_visible, reverse_involutive.
Qed.
Lemma trim_visible c s : is_whitespace c = false → trim (c :: s) ≠ [].
Proof.
  intros Hc. unfold trim. cbn [drop_ws]. rewrite Hc, reverse_cons.
  intros Hr. apply (drop_ws_snoc (reverse s) c Hc).
  by rewrite <-(reverse_involutive (drop_ws _)), Hr.
Qed.

(** ** Identities *)
Record Identity := mkIdentity { id_secret : bytes; id_peer : u64 }.
Definition id_key `{Ed25519} (id : Identity) : bytes := ed_public (id_secret id).

(** A generated identity: the peer id is derived from the key. *)
Definition generate `{Ed25519} (secret : bytes) : Identity :=
  mkIdentity secret (derived_peer_id (ed_public secret)).

Definition sign `{Ed25519} (id : Identity) (msg : bytes) : bytes := ed_sign (id_secret id) msg.
Definition sign_in_domain `{Ed25519} (id : Identity) (domain msg : bytes) : bytes :=
  ed_sign (id_secret id) (domain ++ msg).
Definition verify `{Ed25519} (key msg sig : bytes) : bool := ed_verify key msg sig.
Definition verify_in_domain `{Ed25519} (key domain msg sig : bytes) : bool :=
  ed_verify key (domain ++ msg) sig.

Lemma verify_in_domain_sign `{Ed25519Laws} id d m :
  verify_in_domain (id_key id) d m (sign_in_domain id d m) = true.
Proof. apply ed_verify_sign. Qed.

(** [<[u8; n]>::try_from(vec)] *)
Definition try_into_array {E} (n : nat) (v : bytes) (e : E) : result E bytes :=
  if decide (length v = n) then Ok v else Err e.

(** *** The identity file *)
Record IdentityFile := mkIdentityFile { if_peer_id : u64; if_secret_key : rstring }.

(** [path.parent()]: [None] for the empty path. *)
Definition parent (p : path) : option path :=
  match p with [] => None | _ => Some (take (length p - 1) p) end.

Definition DOT : rchar := 46.
(** The file name without its extension: what precedes the last dot, unless that
    dot is the first character. *)
Definition file_stem (n : rstring) : rstring :=
  match split_on DOT n with
  | [] | [_] => n
  | ps => let stem := join_on DOT (take (length ps - 1) ps) in
          if decide (stem = []) then n else stem
  end.
Definition with_extension (p : path) (ext : rstring) : path :=
  match last p with
  | None => p
  | Some n => take (length p - 1) p ++ [file_stem n ++ DOT :: ext]
  end.

(** [if let Some(parent) = path.parent() { fs.create_dir_all(parent)?; }] *)
Definition ensure_parent {Fs} `{VaultFs Fs} (p : path) : SM Fs StorageError unit :=
  match parent p with
  | Some d => io (fs_create_dir_all d)
  | None => mret tt
  end.

Section identity_file.
Context `{Ed25519, B64, JsonOf IdentityFile} {Fs : Type} `{VaultFs Fs}.

Definition save_with_fs (id : Identity) (p : path) : SM Fs StorageError unit :=
  _ ← ensure_parent p;
  let bytes := utf8 (to_json (mkIdentityFile (id_peer id) (b64_encode (id_secret id)))) in
  let tmp := with_extension p (str "key.tmp") in
  _ ← io (fs_write tmp bytes);
  _ ← io (fs_set_owner_only tmp);
  io (fs_rename tmp p).

Definition load_with_fs (p : path) (fs : Fs) : result StorageError Identity :=
  raw ← map_err Io (fs_read p fs);
  file ← ok_or (from_utf8 raw ≫= from_json) Json;
  sk ← ok_or (b64_decode (if_secret_key file)) Base64;
  sk ← try_into_array 32 sk MalformedIdentity;
  mret (mkIdentity sk (if_peer_id file)).
End identity_file.

(** Running [ensure_parent] on a backend that keeps the laws. *)
Lemma ensure_parent_spec {Fs} `{VaultFsLaws Fs} (p : path) (fs : Fs) :
  fs_inv fs →
  let '(r, fs') := ensure_parent p fs in r = Ok tt ∧ fs_inv fs' ∧ files fs' = files fs.
Proof.
  intros Hinv. unfold ensure_parent. destruct (parent p) as [d|]; [|done].
  pose proof (fs_create_dir_all_spec d fs Hinv) as Hd. unfold io, sm_map_err.
  destruct (fs_create_dir_all d fs) as [r fs']. simpl. by destruct Hd as (->&?&?).
Qed.

Section identity_laws.
Context `{Ed25519, B64Laws, JsonText IdentityFile} {Fs : Type} `{VaultFsLaws Fs}.

(** A saved identity loads back. On any backend that keeps the filesystem
    laws, after [save_with_fs] succeeds, [load_with_fs] at the same path returns
    the same signing key and peer id, and no other file but the temporary one
    has changed. *)
Theorem identity_save_load (id : Identity) (p : path) (fs fs' : Fs) :
  fs_inv fs → fs_path p → fs_path (with_extension p (str "key.tmp")) →
  with_extension p (str "key.tmp") ≠ p → length (id_secret id) = 32 →
  save_with_fs id p fs = (Ok tt, fs') →
  load_with_fs p fs' = Ok id ∧
  ∀ q, q ≠ p → q ≠ with_extension p (str "key.tmp") → files fs' !! q = files fs !! q.
Proof.
  intros Hinv Hp Ht Hne Hlen. unfold save_with_fs. set (tmp := with_extension p _) in *.
  set (b := utf8 _). unfold mbind at 1, SM_bind. pose proof (ensure_parent_spec p fs Hinv) as Hd.
  destruct (ensure_parent p fs) as [r1 fs1]. destruct Hd as (->&Hinv1&Hf1).
  unfold mbind at 1, SM_bind, io, sm_map_err at 1.
  pose proof (fs_write_spec tmp b fs1 Hinv1 Ht) as Hw.
  destruct (fs_write tmp b fs1) as [[[]|e] fs2]; [|done]. destruct Hw as [Hinv2 Hf2]. simpl.
  unfold mbind at 1, SM_bind, sm_map_err at 1.
  pose proof (fs_set_owner_only_spec tmp fs2 Hinv2 Ht) as Ho.
  destruct (fs_set_owner_only tmp fs2) as [[[]|e] fs3]; [|done]. destruct Ho as [Hinv3 Hf3]. simpl.
  unfold sm_map_err. pose proof (fs_rename_spec tmp p fs3 Hinv3 Ht Hp Hne) as Hr.
  destruct (fs_rename tmp p fs3) as [[[]|e] fs4]; [|done]. simpl. intros [= <-].
  destruct Hr as [Hinv4 Hr]. simpl in Hf2. rewrite Hf3, Hf2, lookup_insert_eq in Hr. simpl in Hr.
  split.
  - unfold load_with_fs. rewrite fs_read_spec, Hr, lookup_insert_eq by done. cbn.
    unfold b. rewrite from_utf8_utf8 by apply to_json_scalar. cbn. rewrite from_to_json. cbn.
    rewrite b64_decode_encode. cbn. unfold try_into_array. rewrite decide_True by done. cbn.
    by destruct id.
  - intros q Hqp Hqt. by rewrite Hr, lookup_insert_ne, lookup_delete_ne, lookup_insert_ne, Hf1.
Qed.
End identity_laws.
