(* ===== verification/Logs.v ===== *)
(** * Logs: signed append-only line logs

    The three per-author JSONL logs of the storage crate: [OpLog] (oplog.rs),
    [RosterLog] (roster.rs) and [KeyLog] (keylog.rs).  They share one shape: an
    entry is signed and appended as one JSON line; reading parses and checks every
    non-blank line, fails closed on the first bad one, and forgives only a final
    line that a crash left without its newline. *)
From stdpp Require Import pretty.
From S2P Require Import Prelude RustStr Vfs Roster Wire.

(** ** The shared reading loop *)
Definition torn_tail (text : rstring) : bool :=
  negb (bool_decide (text = [])) && negb (ends_with_char LF text).

(** [text.lines().filter(|l| !l.trim().is_empty())] *)
Definition nonblank_lines (text : rstring) : list rstring := filter (λ l, trim l ≠ []) (lines text).

Section signed_lines.
Context {L E : Type} `{JsonOf L} (check : L → result StorageError E).

Fixpoint verify_lines (torn : bool) (ls : list rstring) : result StorageError (list E) :=
  match ls with
  | [] => Ok []
  | l :: ls =>
      match from_json l with
      | None => if bool_decide (ls = []) && torn then Ok [] else Err MalformedEntry
      | Some p => e ← check p; out ← verify_lines torn ls; mret (e :: out)
      end
  end.

Definition verify_text (text : rstring) : result StorageError (list E) :=
  verify_lines (torn_tail text) (nonblank_lines text).

Definition verify_bytes (b : bytes) : result StorageError (list E) :=
  match from_utf8 b with Some text => verify_text text | None => Err MalformedEntry end.

Context {Fs : Type} `{VaultFs Fs}.

(** A missing file is an empty log. *)
Definition read_verified (p : path) (fs : Fs) : result StorageError (list E) :=
  match fs_read_to_string p fs with
  | Ok t => verify_text t
  | Err NotFound => Ok []
  | Err e => Err (Io e)
  end.
End signed_lines.

Definition append_line {L Fs} `{JsonOf L, VaultFs Fs} (p : path) (l : L) : SM Fs StorageError unit :=
  io (fs_append_sync p (utf8 (to_json l ++ [LF]))).

(** [dir.join(format!("{prefix}-{peer}.jsonl"))] *)
Definition log_path (dir : path) (prefix : string) (peer : u64) : path :=
  dir ++ [str (prefix +:+ "-" +:+ pretty peer +:+ ".jsonl")].

Lemma log_path_inj dir prefix a b : log_path dir prefix a = log_path dir prefix b → a = b.
Proof.
  unfold log_path. intros Heq%app_inv_head. injection Heq as Heq. rewrite !str_app in Heq.
  do 2 apply app_inv_head in Heq. apply app_inv_tail, str_inj in Heq. by apply (inj pretty).
Qed.

(** ** Op log *)
Record Entry := mkEntry { e_peer_id : u64; e_update : bytes }.
Record EntryLine := mkEntryLine { el_peer : u64; el_sig : rstring; el_update : rstring }.
Record OpLog := mkOpLog { op_path : path; op_peer : u64 }.

Definition OPLOG_SIG_DOMAIN : bytes := ascii_bytes "roam-oplog-update-v1" ++ [byte_of_N 0].

Definition OpLog_new (dir : path) (peer : u64) : OpLog := mkOpLog (log_path dir "ops" peer) peer.

Section oplog.
Context `{Ed25519, B64, JsonOf EntryLine}.

Definition b64_bytes (s : rstring) : result StorageError bytes :=
  ok_or (b64_decode s) MalformedEntry.
Definition b64_array (n : nat) (s : rstring) : result StorageError bytes :=
  v ← b64_bytes s; try_into_array n v MalformedEntry.

Definition oplog_line (log : OpLog) (id : Identity) (update : bytes) : EntryLine :=
  mkEntryLine (op_peer log) (b64_encode (sign_in_domain id OPLOG_SIG_DOMAIN update))
    (b64_encode update).

Definition oplog_check (log : OpLog) (key : bytes) (p : EntryLine) : result StorageError Entry :=
  if decide (el_peer p ≠ op_peer log) then Err (BadSignature (el_peer p))
  else
    update ← b64_bytes (el_update p);
    sig ← b64_array 64 (el_sig p);
    if verify_in_domain key OPLOG_SIG_DOMAIN update sig
    then Ok (mkEntry (el_peer p) update) else Err (BadSignature (el_peer p)).

Definition oplog_verify_bytes (log : OpLog) (key : bytes) : bytes → result StorageError (list Entry) :=
  verify_bytes (oplog_check log key).

Context {Fs : Type} `{VaultFs Fs}.
Definition oplog_append (log : OpLog) (id : Identity) (update : bytes) : SM Fs StorageError unit :=
  _ ← ensure_parent (op_path log);
  append_line (op_path log) (oplog_line log id update).

Definition oplog_read_verified (log : OpLog) (key : bytes) (fs : Fs)
    : result StorageError (list Entry) :=
  read_verified (oplog_check log key) (op_path log) fs.
End oplog.

(** ** Roster log *)
Record RosterLine := mkRosterLine {
  rl_seq : u64; rl_lamport : u64; rl_op : RosterOp; rl_subject_peer : u64;
  rl_subject_key : rstring; rl_added_by : u64; rl_sig : rstring }.
Record RosterLog := mkRosterLog { ro_path : path; ro_author : u64 }.

Definition RosterLog_new (dir : path) (author : u64) : RosterLog :=
  mkRosterLog (log_path dir "roster" author) author.

Section rosterlog.
Context `{Ed25519, B64, JsonOf RosterLine}.

Definition roster_line (id : Identity) (e : RosterEntry) : RosterLine :=
  mkRosterLine (seq e) (lamport e) (op e) (subject_peer e) (b64_encode (subject_key e))
    (added_by e) (b64_encode (sign id (canonical_bytes e))).

Definition roster_check (author : u64) (key : bytes) (p : RosterLine)
    : result StorageError RosterEntry :=
  if decide (rl_added_by p ≠ author) then Err (BadSignature (rl_added_by p))
  else
    skey ← b64_array 32 (rl_subject_key p);
    sig ← b64_array 64 (rl_sig p);
    let entry := mkRosterEntry (rl_seq p) (rl_lamport p) (rl_op p) (rl_subject_peer p) skey
                   (rl_added_by p) in
    if verify key (canonical_bytes entry) sig then Ok entry else Err (BadSignature author).

Definition roster_verify_bytes (log : RosterLog) (key : bytes)
    : bytes → result StorageError (list RosterEntry) :=
  verify_bytes (roster_check (ro_author log) key).

Context {Fs : Type} `{VaultFs Fs}.
Definition roster_read_verified (log : RosterLog) (key : bytes) (fs : Fs)
    : result StorageError (list RosterEntry) :=
  read_verified (roster_check (ro_author log) key) (ro_path log) fs.

Definition roster_last_seq (log : RosterLog) (key : bytes) (fs : Fs) : result StorageError u64 :=
  es ← roster_read_verified log key fs;
  mret (match last es with Some e => seq e | None => 0%N end).

(** [seq + 1] wraps at [u64]. *)
Definition roster_append (log : RosterLog) (id : Identity) (lam : u64) (o : RosterOp)
    (speer : u64) (skey : bytes) : SM Fs StorageError RosterEntry :=
  if decide (id_peer id ≠ ro_author log) then sm_fail Peer
  else
    _ ← ensure_parent (ro_path log);
    fs ← sm_get;
    s ← sm_lift (roster_last_seq log (id_key id) fs);
    let entry := mkRosterEntry (wrapping_add s 1) lam o speer skey (ro_author log) in
    _ ← append_line (ro_path log) (roster_line id entry);
    mret entry.

(** The key the author's log claims for its author, unverified. *)
Definition self_key_of_line (author : u64) (l : rstring) : option bytes :=
  p ← (from_json l : option RosterLine);
  if decide (rl_subject_peer p ≠ author) then None
  else k ← b64_decode (rl_subject_key p); if decide (length k = 32) then Some k else None.
Definition peek_self_key (log : RosterLog) (fs : Fs) : result StorageError (option bytes) :=
  match fs_read_to_string (ro_path log) fs with
  | Ok text => Ok (head (omap (self_key_of_line (ro_author log)) (nonblank_lines text)))
  | Err NotFound => Ok None
  | Err e => Err (Io e)
  end.
End rosterlog.

(** ** Key log *)
Inductive Recipient := Device (p : u64) | Paper.
Inductive KeyBody :=
  | Rotate (parent_epochs : list bytes) (nonce : bytes)
  | Wrap (recipient : Recipient) (blob : bytes).
Record KeyLogEntry := mkKeyLogEntry {
  k_seq : u64; k_author : u64; k_epoch_id : bytes; k_body : KeyBody }.

#[global] Instance Recipient_eq_dec : EqDecision Recipient.
Proof. solve_decision. Defined.
#[global] Instance KeyBody_eq_dec : EqDecision KeyBody.
Proof. solve_decision. Defined.
#[global] Instance KeyLogEntry_eq_dec : EqDecision KeyLogEntry.
Proof. solve_decision. Defined.

Definition key_canonical_bytes (e : KeyLogEntry) : bytes :=
  ascii_bytes "roam.keylog.v1" ++ le_bytes 8 (k_seq e) ++ le_bytes 8 (k_author e) ++
  k_epoch_id e ++
  match k_body e with
  | Rotate parents nonce =>
      byte_of_N 0 :: le_bytes 8 (N.of_nat (length parents)) ++ concat parents ++ nonce
  | Wrap r blob =>
      byte_of_N 1 ::
      match r with Device p => byte_of_N 0 :: le_bytes 8 p | Paper => [byte_of_N 1] end ++
      le_bytes 8 (N.of_nat (length blob)) ++ blob
  end.

Inductive KeyBodyLine :=
  | RotateLine (parents : list rstring) (nonce : rstring)
  | WrapLine (recipient : Recipient) (blob : rstring).
Record KeyLine := mkKeyLine {
  kl_seq : u64; kl_author : u64; kl_epoch_id : rstring; kl_body : KeyBodyLine; kl_sig : rstring }.
Record KeyLog := mkKeyLog { kl_path : path; kl_owner : u64 }.

Definition KeyLog_new (dir : path) (author : u64) : KeyLog :=
  mkKeyLog (log_path dir "keylog" author) author.

Section keylog.
Context `{Ed25519, B64, JsonOf KeyLine}.

Definition key_body_line (b : KeyBody) : KeyBodyLine :=
  match b with
  | Rotate parents nonce => RotateLine (b64_encode <$> parents) (b64_encode nonce)
  | Wrap r blob => WrapLine r (b64_encode blob)
  end.
Definition key_line (id : Identity) (e : KeyLogEntry) : KeyLine :=
  mkKeyLine (k_seq e) (k_author e) (b64_encode (k_epoch_id e)) (key_body_line (k_body e))
    (b64_encode (sign id (key_canonical_bytes e))).

Definition key_body_of_line (b : KeyBodyLine) : result StorageError KeyBody :=
  match b with
  | RotateLine parents nonce =>
      ps ← collect (b64_array 32 <$> parents);
      n ← b64_array 32 nonce;
      mret (Rotate ps n)
  | WrapLine r blob => b ← b64_bytes blob; mret (Wrap r b)
  end.
Definition key_check (author : u64) (key : bytes) (p : KeyLine) : result StorageError KeyLogEntry :=
  if decide (kl_author p ≠ author) then Err (BadSignature (kl_author p))
  else
    body ← key_body_of_line (kl_body p);
    sig ← b64_array 64 (kl_sig p);
    epoch ← b64_array 32 (kl_epoch_id p);
    let entry := mkKeyLogEntry (kl_seq p) (kl_author p) epoch body in
    if verify key (key_canonical_bytes entry) sig then Ok entry else Err (BadSignature author).

Definition key_verify_bytes (log : KeyLog) (key : bytes)
    : bytes → result StorageError (list KeyLogEntry) :=
  verify_bytes (key_check (kl_owner log) key).

Context {Fs : Type} `{VaultFs Fs}.
Definition key_read_verified (log : KeyLog) (key : bytes) (fs : Fs)
    : result StorageError (list KeyLogEntry) :=
  read_verified (key_check (kl_owner log) key) (kl_path log) fs.

Definition key_last_seq (log : KeyLog) (key : bytes) (fs : Fs) : result StorageError u64 :=
  es ← key_read_verified log key fs;
  mret (match last es with Some e => k_seq e | None => 0%N end).

Definition key_append (log : KeyLog) (id : Identity) (epoch : bytes) (body : KeyBody)
    : SM Fs StorageError KeyLogEntry :=
  if decide (id_peer id ≠ kl_owner log) then sm_fail Peer
  else
    _ ← ensure_parent (kl_path log);
    fs ← sm_get;
    s ← sm_lift (key_last_seq log (id_key id) fs);
    let entry := mkKeyLogEntry (wrapping_add s 1) (kl_owner log) epoch body in
    _ ← append_line (kl_path log) (key_line id entry);
    mret entry.
End keylog.

(** ** The text of a log *)
Definition log_text {L} `{JsonOf L} (ls : list L) : rstring :=
  concat ((λ l, to_json l ++ [LF]) <$> ls).

(** The file at [p] holds exactly the lines [ls]. *)
Definition log_holds {L Fs} `{JsonOf L, VaultFsLaws Fs} (fs : Fs) (p : path) (ls : list L) : Prop :=
  default [] (files fs !! p) = utf8 (log_text ls).

Lemma utf8_app s t : utf8 (s ++ t) = utf8 s ++ utf8 t.
Proof. apply bind_app. Qed.

Section log_text.
Context {L : Type} `{JsonLaws L}.
Implicit Types (l : L) (ls : list L) (p : rstring).

Lemma log_text_snoc ls l : log_text (ls ++ [l]) = log_text ls ++ to_json l ++ [LF].
Proof. unfold log_text. rewrite fmap_app, concat_app. simpl. by rewrite app_nil_r. Qed.

Lemma log_text_scalar ls : forallb is_scalar (log_text ls) = true.
Proof.
  unfold log_text. apply forallb_forall. intros c Hc. apply in_concat in Hc as (s&Hs&Hc).
  apply in_map_iff in Hs as (l&<-&_). apply in_app_iff in Hc as [Hc|[<-|[]]]; [|done].
  pose proof (to_json_scalar l) as Hj. rewrite forallb_forall in Hj. by apply Hj.
Qed.

Lemma split_log_text ls p :
  LF ∉ p → split_on LF (log_text ls ++ p) = (to_json <$> ls) ++ [p].
Proof.
  intros Hp. induction ls as [|l ls IH]; [by apply split_on_no_sep|].
  change (log_text (l :: ls)) with ((to_json l ++ [LF]) ++ log_text ls). csimpl.
  rewrite <-!(assoc_L (++)). simpl. rewrite split_on_app by apply to_json_no_LF. by rewrite IH.
Qed.

Lemma lines_log_text ls p :
  LF ∉ p → lines (log_text ls ++ p) = (to_json <$> ls) ++ (if decide (p = []) then [] else [p]).
Proof.
  intros Hp. unfold lines. rewrite split_log_text by done.
  induction ls as [|l ls IH]; [done|]. csimpl.
  destruct ((to_json <$> ls) ++ [p]) as [|q qs] eqn:E; [by destruct ls|].
  by rewrite to_json_strip_cr, IH.
Qed.

Lemma nonblank_json ls : filter (λ s, trim s ≠ []) (to_json <$> ls) = to_json <$> ls.
Proof.
  induction ls as [|l ls IH]; csimpl; [done|].
  rewrite filter_cons_True, IH; [done|]. destruct (to_json_object l) as [s ->].
  by apply trim_visible.
Qed.

Lemma torn_tail_app ls p :
  LF ∉ p → torn_tail (log_text ls ++ p) = negb (bool_decide (p = [])).
Proof.
  intros Hp. unfold torn_tail, ends_with_char. destruct p as [|c p] using rev_ind.
  - rewrite app_nil_r. induction ls as [|l ls _] using rev_ind; [done|].
    rewrite log_text_snoc, (assoc_L (++)), last_snoc. rewrite (bool_decide_eq_true_2 (Some LF = _)) by done.
    by rewrite andb_false_r.
  - rewrite (assoc_L (++)), last_snoc, !bool_decide_eq_false_2; [done|..].
    + by intros []%app_nil.
    + intros [= ->]. set_solver.
    + by intros []%app_nil.
Qed.

Context {E : Type} (check : L → result StorageError E).

Lemma verify_lines_json torn ls :
  verify_lines check torn (to_json <$> ls) = collect (check <$> ls).
Proof.
  induction ls as [|l ls IH]; csimpl; [done|]. rewrite from_to_json, IH. simpl.
  by destruct (check l), (collect (check <$> ls)).
Qed.

Lemma verify_log_text ls : verify_text check (log_text ls) = collect (check <$> ls).
Proof.
  unfold verify_text, nonblank_lines. rewrite <-(app_nil_r (log_text ls)).
  rewrite lines_log_text by (apply not_elem_of_nil). rewrite decide_True, !app_nil_r by done.
  rewrite nonblank_json. apply verify_lines_json.
Qed.

(** A crash that left part of one more line changes nothing. *)
Lemma verify_log_torn ls l p :
  p `prefix_of` to_json l → p ≠ to_json l →
  verify_text check (log_text ls ++ p) = collect (check <$> ls).
Proof.
  intros Hpre Hne. pose proof (from_json_torn l p Hpre Hne) as Hnone.
  assert (LF ∉ p) as Hp.
  { intros Hin. apply (to_json_no_LF l). destruct Hpre as [k ->]. set_solver. }
  unfold verify_text, nonblank_lines. rewrite lines_log_text, torn_tail_app by done.
  rewrite filter_app, nonblank_json. destruct (decide (p = [])) as [->|Hpn].
  { rewrite app_nil_r. apply verify_lines_json. }
  rewrite bool_decide_eq_false_2 by done. simpl.
  induction ls as [|x ls IH]; csimpl.
  - destruct (decide (trim p ≠ [])); [|by rewrite filter_cons_False].
    rewrite filter_cons_True by done. simpl. by rewrite Hnone.
  - rewrite from_to_json, IH. simpl. by destruct (check x), (collect (check <$> ls)).
Qed.

(** A complete line that does not parse is fatal, wherever it is. *)
Lemma verify_log_garbage ls q es :
  LF ∉ q → trim q ≠ [] → strip_cr q = q → from_json q = None (A := L) →
  collect (check <$> ls) = Ok es →
  verify_text check (log_text ls ++ q ++ [LF]) = Err MalformedEntry.
Proof.
  intros Hq Htrim Hcr Hnone Hes.
  assert (lines (log_text ls ++ q ++ [LF]) = (to_json <$> ls) ++ [q]) as Hl.
  { unfold lines. clear Hes. induction ls as [|l ls IH].
    - simpl. rewrite split_on_app by done. simpl. by rewrite Hcr.
    - change (log_text (l :: ls)) with ((to_json l ++ [LF]) ++ log_text ls). csimpl.
      rewrite <-!(assoc_L (++)). simpl. rewrite split_on_app by apply to_json_no_LF.
      destruct (split_on LF (log_text ls ++ q ++ [LF])) as [|x xs] eqn:Esp;
        [by apply split_on_nonempty in Esp|].
      change (lines_go (to_json l :: x :: xs)) with (strip_cr (to_json l) :: lines_go (x :: xs)).
      by rewrite to_json_strip_cr, IH. }
  unfold verify_text, nonblank_lines.
  rewrite Hl, filter_app, nonblank_json, filter_cons_True, filter_nil by done.
  assert (torn_tail (log_text ls ++ q ++ [LF]) = false) as ->.
  { unfold torn_tail, ends_with_char. rewrite (assoc_L (++)), last_snoc.
    rewrite (bool_decide_eq_true_2 (Some LF = _)) by done. by rewrite andb_false_r. }
  clear Hl. revert es Hes. induction ls as [|l ls IH]; intros es; csimpl.
  - intros _. by rewrite Hnone.
  - rewrite from_to_json. simpl. destruct (check l); [simpl|done].
    destruct (collect (check <$> ls)) as [es'|]; [intros _|done]. by rewrite (IH es').
Qed.

Context {Fs : Type} `{VaultFsLaws Fs}.

Lemma read_text_holds (fs : Fs) (p : path) t :
  fs_inv fs → default [] (files fs !! p) = utf8 t → forallb is_scalar t = true →
  read_verified check p fs = verify_text check t.
Proof.
  intros Hinv Hh Ht. unfold read_verified, fs_read_to_string. rewrite fs_read_spec by done.
  destruct (files fs !! p) as [b|] eqn:Ep; simpl in *.
  - by rewrite Hh, from_utf8_utf8.
  - destruct t as [|c t]; [done|]. change (utf8 (c :: t)) with (utf8_char c ++ utf8 t) in Hh.
    symmetry in Hh. apply app_nil in Hh as [Hc _]. by apply utf8_char_nonempty in Hc.
Qed.

Lemma read_verified_holds (fs : Fs) (p : path) ls :
  fs_inv fs → log_holds fs p ls → read_verified check p fs = collect (check <$> ls).
Proof.
  intros Hinv Hh. rewrite (read_text_holds fs p (log_text ls)); [|done..|apply log_text_scalar].
  apply verify_log_text.
Qed.

Lemma append_line_holds (fs : Fs) (p : path) ls l :
  fs_inv fs → fs_path p → log_holds fs p ls →
  let '(r, fs') := append_line p l fs in
  fs_inv fs' ∧ (∀ q, q ≠ p → files fs' !! q = files fs !! q) ∧
  match r with Ok _ => log_holds fs' p (ls ++ [l]) | Err _ => files fs' = files fs end.
Proof.
  intros Hinv Hp Hh. unfold append_line, io, sm_map_err.
  pose proof (fs_append_sync_spec p (utf8 (to_json l ++ [LF])) fs Hinv Hp) as Ha.
  destruct (fs_append_sync p _ fs) as [[[]|e] fs']; simpl; destruct Ha as [Hinv' Hf].
  - simpl in Hf. split; [done|]. split.
    + intros q Hq. by rewrite Hf, lookup_insert_ne.
    + unfold log_holds. rewrite Hf, lookup_insert_eq. simpl.
      unfold log_holds in Hh. by rewrite Hh, log_text_snoc, (utf8_app (log_text ls)).
  - simpl in Hf. split; [done|]. by rewrite Hf.
Qed.
End log_text.

Lemma collect_snoc {E A} (l : list (result E A)) r a :
  collect l = Ok r → collect (l ++ [Ok a]) = Ok (r ++ [a]).
Proof.
  revert r. induction l as [|[x|e] l IH]; intros r; simpl; [by intros [= <-]| |done].
  destruct (collect l) as [r'|]; [|done]. intros [= <-]. by rewrite (IH r' eq_refl).
Qed.

(** ** Reading accepts exactly the authentic lines *)

(** What a reader accepts, line by line. *)
Lemma verify_lines_sound {L E} `{JsonOf L} (check : L → result StorageError E) torn ss es e :
  verify_lines check torn ss = Ok es → e ∈ es →
  ∃ s l, s ∈ ss ∧ from_json s = Some l ∧ check l = Ok e.
Proof.
  revert es. induction ss as [|s ss IH]; intros es; simpl.
  { intros [= <-] Hn%elem_of_nil. done. }
  destruct (from_json s) as [l|] eqn:El.
  - simpl. destruct (check l) as [e'|] eqn:Ec; [simpl|done].
    destruct (verify_lines check torn ss) as [es'|] eqn:Ev; [|done]. simpl.
    intros [= <-]. intros [->|Hin]%elem_of_cons.
    + exists s, l. set_solver.
    + destruct (IH es' eq_refl Hin) as (s'&l'&?&?&?). exists s', l'. set_solver.
  - case_match; [|done]. intros [= <-] Hn%elem_of_nil. done.
Qed.


(** [s] is a line that carries the entry [e]. *)
Definition line_gives {L E} `{JsonOf L} (check : L → result StorageError E) (s : rstring) (e : E) : Prop :=
  ∃ l, from_json s = Some l ∧ check l = Ok e.

Lemma verify_lines_ok {L E} `{JsonOf L} (check : L → result StorageError E) torn ss es :
  verify_lines check torn ss = Ok es ↔
  ∃ ss' k, ss = ss' ++ k ∧ Forall2 (line_gives check) ss' es ∧
    (k = [] ∨ torn = true ∧ ∃ s, k = [s] ∧ from_json s = None).
Proof.
  revert es. induction ss as [|s ss IH]; intros es; simpl.
  { split.
    - intros [= <-]. exists [], []. split_and!; [done|constructor|by left].
    - intros (ss'&k&Hk&HF&_). symmetry in Hk. apply app_nil in Hk as [-> ->].
      by inversion HF. }
  destruct (from_json s) as [l|] eqn:El.
  - simpl. split.
    + destruct (check l) as [e'|] eqn:Ec; [simpl|done].
      destruct (verify_lines check torn ss) as [es'|] eqn:Ev; [|done]. simpl. intros [= <-].
      destruct (proj1 (IH es') eq_refl) as (ss'&k&->&HF&Hk).
      exists (s :: ss'), k. split_and!; [done| |done]. constructor; [by exists l|done].
    + intros (ss'&k&Hk&HF&Ht). destruct ss' as [|s' ss'].
      { simpl in Hk. destruct Ht as [->|(_&s0&->&Hs0)]; [done|]. simplify_eq. }
      inversion HF as [|? e ? es' (l'&Hl'&Hc) HF']; subst. injection Hk as -> ->.
      assert (l' = l) as -> by congruence. rewrite Hc. simpl.
      rewrite (proj2 (IH es')); [done|]. by exists ss', k.
  - split.
    + destruct (bool_decide (ss = []) && torn) eqn:Hb; [|done]. intros [= <-].
      apply andb_true_iff in Hb as [->%bool_decide_eq_true ->].
      exists [], [s]. split_and!; [done|constructor|]. right. by eauto.
    + intros (ss'&k&Hk&HF&Ht). destruct ss' as [|s' ss'].
      * inversion HF; subst. simpl in Hk. destruct Ht as [->|(->&s0&->&Hs0)]; [done|].
        by simplify_eq.
      * inversion HF as [|? e ? es' (l'&Hl'&Hc) HF']; subst. injection Hk as -> ->. congruence.
Qed.

Section reading.
Context `{Ed25519, B64}.

Lemma b64_array_ok n s b : b64_array n s = Ok b → length b = n.
Proof.
  unfold b64_array, b64_bytes, try_into_array. destruct (b64_decode s); simpl; [|done].
  case_decide; naive_solver.
Qed.

Lemma oplog_check_ok log key l e :
  oplog_check log key l = Ok e →
  e_peer_id e = op_peer log ∧ ∃ sig, length sig = 64 ∧
    verify_in_domain key OPLOG_SIG_DOMAIN (e_update e) sig = true.
Proof.
  unfold oplog_check. case_decide as Hp; [done|].
  destruct (b64_bytes (el_update l)) as [u|]; simpl; [|done].
  destruct (b64_array 64 (el_sig l)) as [sg|] eqn:Es; simpl; [|done].
  case_match eqn:Ev; [|done]. intros [= <-]. simpl. split; [done|].
  exists sg. split; [by eapply b64_array_ok|done].
Qed.
Lemma roster_check_ok author key l e :
  roster_check author key l = Ok e →
  added_by e = author ∧ length (subject_key e) = 32 ∧ ∃ sig, length sig = 64 ∧
    verify key (canonical_bytes e) sig = true.
Proof.
  unfold roster_check. case_decide as Hp; [done|].
  destruct (b64_array 32 _) as [k|] eqn:Ek; simpl; [|done].
  destruct (b64_array 64 _) as [sg|] eqn:Es; simpl; [|done].
  case_match eqn:Ev; [|done]. intros [= <-]. simpl. apply b64_array_ok in Ek, Es. by eauto.
Qed.
Lemma key_check_ok author key l e :
  key_check author key l = Ok e →
  k_author e = author ∧ length (k_epoch_id e) = 32 ∧ ∃ sig, length sig = 64 ∧
    verify key (key_canonical_bytes e) sig = true.
Proof.
  unfold key_check. case_decide as Hp; [done|].
  destruct (key_body_of_line _) as [b|]; simpl; [|done].
  destruct (b64_array 64 _) as [sg|] eqn:Es; simpl; [|done].
  destruct (b64_array 32 _) as [k|] eqn:Ek; simpl; [|done].
  case_match eqn:Ev; [|done]. intros [= <-]. simpl. apply b64_array_ok in Ek, Es. by eauto.
Qed.
End reading.

Section roster_reading.
Context `{Ed25519, B64, JsonOf RosterLine}.

(** [s] is a line on which the author of [log] vouches for [e] under [key]. *)
Definition authentic_line (log : RosterLog) (key : bytes) (s : rstring) (e : RosterEntry) : Prop :=
  ∃ l : RosterLine, from_json s = Some l ∧ added_by e = ro_author log ∧
    b64_decode (rl_subject_key l) = Some (subject_key e) ∧ length (subject_key e) = 32 ∧
    e = mkRosterEntry (rl_seq l) (rl_lamport l) (rl_op l) (rl_subject_peer l)
          (subject_key e) (rl_added_by l) ∧
    ∃ sig, b64_decode (rl_sig l) = Some sig ∧ length sig = 64 ∧
           verify key (canonical_bytes e) sig = true.

Lemma roster_line_gives log key s e :
  line_gives (roster_check (ro_author log) key) s e ↔ authentic_line log key s e.
Proof.
  unfold line_gives, authentic_line. f_equiv. intros l. apply and_iff_compat_l.
  unfold roster_check, b64_array, b64_bytes, try_into_array. case_decide as Hp.
  { split; [done|]. intros (Ha&_&_&He&_). rewrite He in Ha. done. }
  destruct (b64_decode (rl_subject_key l)) as [kk|] eqn:Ek; simpl; [|naive_solver].
  case_decide as Hk; simpl; [|naive_solver].
  destruct (b64_decode (rl_sig l)) as [sg|] eqn:Es; simpl; [|naive_solver].
  case_decide as Hsg; simpl; [|naive_solver].
  split.
  - case_match eqn:Ev; [|done]. intros [= <-]. simpl. split_and!; try done. by exists sg.
  - intros (_&[= ->]&_&He&sg'&[= <-]&_&Hv). rewrite <-He, Hv. done.
Qed.

(** Reading a roster log fails closed. Verification of received bytes
    succeeds exactly when every non-blank line is a well-formed entry by the
    log's own author with a valid signature over that entry's canonical bytes,
    in order and none skipped, except that an unparsable last line is dropped
    when the text does not end in a newline. *)
Theorem roster_verify_bytes_exact log key (b : bytes) es :
  roster_verify_bytes log key b = Ok es ↔
  ∃ text ss k, from_utf8 b = Some text ∧ nonblank_lines text = ss ++ k ∧
    Forall2 (authentic_line log key) ss es ∧
    (k = [] ∨ torn_tail text = true ∧ ∃ s, k = [s] ∧ from_json s = None (A := RosterLine)).
Proof.
  unfold roster_verify_bytes, verify_bytes, verify_text.
  destruct (from_utf8 b) as [text|]; [|naive_solver].
  rewrite verify_lines_ok. split.
  - intros (ss&k&?&HF&?). exists text, ss, k. split_and!; try done.
    eapply Forall2_impl; [exact HF|]. intros s e. by rewrite roster_line_gives.
  - intros (t&ss&k&[= <-]&?&HF&?). exists ss, k. split_and!; try done.
    eapply Forall2_impl; [exact HF|]. intros s e. by rewrite roster_line_gives.
Qed.
End roster_reading.

(** ** Appending *)

(** The log files are written by one author: entry [i] has [seq] [i + 1]. *)
Definition seq_run {E} (sq : E → u64) (es : list E) : Prop :=
  ∀ i e, es !! i = Some e → sq e = N.of_nat (S i).

Lemma seq_run_last {E} (sq : E → u64) es :
  seq_run sq es → match last es with Some e => sq e | None => 0%N end = N.of_nat (length es).
Proof.
  intros Hr. destruct es as [|e es] using rev_ind; [done|]. rewrite last_snoc, length_app. simpl.
  rewrite (Hr (length es) e); [f_equal; lia|]. by apply list_lookup_middle.
Qed.
Lemma seq_run_snoc {E} (sq : E → u64) es e :
  seq_run sq es → sq e = N.of_nat (S (length es)) → seq_run sq (es ++ [e]).
Proof.
  intros Hr He i x [Hx|[Hi Hx]]%lookup_app_Some; [by apply Hr|].
  apply list_lookup_singleton_Some in Hx as [Hz <-]. rewrite He. do 2 f_equal. lia.
Qed.

Section append.
Context `{Ed25519Laws, B64Laws} {Fs : Type} `{VaultFsLaws Fs}.

Lemma b64_array_encode n b : length b = n → b64_array n (b64_encode b) = Ok b.
Proof.
  intros Hl. unfold b64_array, b64_bytes, try_into_array. rewrite b64_decode_encode. simpl.
  by rewrite decide_True.
Qed.

Lemma oplog_check_line `{JsonOf EntryLine} log id u :
  oplog_check log (id_key id) (oplog_line log id u) = Ok (mkEntry (op_peer log) u).
Proof.
  unfold oplog_check, oplog_line. simpl. rewrite decide_False by auto.
  unfold b64_bytes. rewrite b64_decode_encode. simpl.
  rewrite b64_array_encode by apply ed_sign_len. simpl. by rewrite verify_in_domain_sign.
Qed.
Lemma roster_check_line id e :
  length (subject_key e) = 32 → roster_check (added_by e) (id_key id) (roster_line id e) = Ok e.
Proof.
  intros Hl. unfold roster_check, roster_line. simpl. rewrite decide_False by auto.
  rewrite !b64_array_encode by (done || apply ed_sign_len). simpl. destruct e; simpl.
  unfold verify, sign, id_key. by rewrite ed_verify_sign.
Qed.

Definition body_wf (b : KeyBody) : Prop :=
  match b with
  | Rotate parents nonce => Forall (λ p, length p = 32) parents ∧ length nonce = 32
  | Wrap _ _ => True
  end.
Lemma key_body_line_roundtrip b : body_wf b → key_body_of_line (key_body_line b) = Ok b.
Proof.
  destruct b as [parents nonce|r blob]; simpl.
  - intros [Hp Hn]. rewrite b64_array_encode by done.
    rewrite (proj2 (collect_map_ok (b64_array 32) (b64_encode <$> parents) parents)); [done|].
    induction Hp; csimpl; constructor; [by apply b64_array_encode|done].
  - intros _. unfold b64_bytes. by rewrite b64_decode_encode.
Qed.
Lemma key_check_line id e :
  length (k_epoch_id e) = 32 → body_wf (k_body e) →
  key_check (k_author e) (id_key id) (key_line id e) = Ok e.
Proof.
  intros Hl Hb. unfold key_check, key_line. simpl. rewrite decide_False by auto.
  rewrite key_body_line_roundtrip by done. simpl.
  rewrite !b64_array_encode by (done || apply ed_sign_len). simpl. destruct e; simpl.
  unfold verify, sign, id_key. by rewrite ed_verify_sign.
Qed.

(** An acknowledged op-log append is read back. When [oplog_append] returns
    [Ok] on a log of complete lines, reading the log with the author's key gives
    the entries it gave before followed by the new update, and no other file
    changes. *)
Theorem oplog_append_read `{JsonLaws EntryLine} log id u (fs fs' : Fs) ls es :
  fs_inv fs → fs_path (op_path log) → log_holds fs (op_path log) ls →
  oplog_read_verified log (id_key id) fs = Ok es →
  oplog_append log id u fs = (Ok tt, fs') →
  oplog_read_verified log (id_key id) fs' = Ok (es ++ [mkEntry (op_peer log) u]) ∧
  log_holds fs' (op_path log) (ls ++ [oplog_line log id u]) ∧
  ∀ q, q ≠ op_path log → files fs' !! q = files fs !! q.
Proof.
  intros Hinv Hp Hh Hr. unfold oplog_append, mbind, SM_bind.
  pose proof (ensure_parent_spec (op_path log) fs Hinv) as Hd.
  destruct (ensure_parent (op_path log) fs) as [r1 fs1]. destruct Hd as (->&Hinv1&Hf1).
  assert (log_holds fs1 (op_path log) ls) as Hh1 by (unfold log_holds in *; by rewrite Hf1).
  pose proof (append_line_holds fs1 (op_path log) ls (oplog_line log id u) Hinv1 Hp Hh1) as Ha.
  intros Heq. rewrite Heq in Ha. destruct Ha as (Hinv2&Ho&Hh2).
  unfold oplog_read_verified in *. rewrite (read_verified_holds _ fs _ ls) in Hr by done.
  rewrite (read_verified_holds _ fs' _ (ls ++ [oplog_line log id u])) by done.
  rewrite fmap_app. csimpl. rewrite oplog_check_line. split; [by apply collect_snoc|].
  split; [done|]. intros q Hq. by rewrite Ho, Hf1.
Qed.

Lemma roster_append_spec `{JsonLaws RosterLine} log id lam o speer skey (fs fs' : Fs) ls es e :
  fs_inv fs → fs_path (ro_path log) → log_holds fs (ro_path log) ls → length skey = 32 →
  roster_read_verified log (id_key id) fs = Ok es → seq_run seq es →
  (N.of_nat (length es) < U64_MAX)%N →
  roster_append log id lam o speer skey fs = (Ok e, fs') →
  e = mkRosterEntry (N.of_nat (S (length es))) lam o speer skey (ro_author log) ∧
  roster_read_verified log (id_key id) fs' = Ok (es ++ [e]) ∧ seq_run seq (es ++ [e]) ∧
  log_holds fs' (ro_path log) (ls ++ [roster_line id e]) ∧
  fs_inv fs' ∧ ∀ q, q ≠ ro_path log → files fs' !! q = files fs !! q.
Proof.
  intros Hinv Hp Hh Hlen Hr Hrun Hmax. unfold roster_append. case_decide; [done|].
  unfold mbind at 1, SM_bind. pose proof (ensure_parent_spec (ro_path log) fs Hinv) as Hd.
  destruct (ensure_parent (ro_path log) fs) as [r1 fs1]. destruct Hd as (->&Hinv1&Hf1).
  assert (log_holds fs1 (ro_path log) ls) as Hh1 by (unfold log_holds in *; by rewrite Hf1).
  unfold mbind at 1, SM_bind, sm_get. unfold mbind at 1, SM_bind, sm_lift, roster_last_seq.
  assert (roster_read_verified log (id_key id) fs1 = Ok es) as ->.
  { unfold roster_read_verified in *. rewrite (read_verified_holds _ fs1 _ ls) by done.
    by rewrite <-Hr, (read_verified_holds _ fs _ ls) by done. }
  simpl. rewrite seq_run_last by done.
  replace (wrapping_add _ 1) with (N.of_nat (S (length es))).
  2:{ unfold wrapping_add. rewrite N.mod_small; lia. }
  set (e' := mkRosterEntry _ _ _ _ _ _).
  pose proof (append_line_holds fs1 (ro_path log) ls (roster_line id e') Hinv1 Hp Hh1) as Ha.
  unfold mbind, SM_bind. destruct (append_line _ _ fs1) as [[[]|err] fs2]; [|done].
  intros [= <- <-]. destruct Ha as (Hinv2&Hq2&Hh2). split; [done|].
  split; [|split_and!; [by apply seq_run_snoc|done|done|intros q Hq; by rewrite Hq2, Hf1]].
  unfold roster_read_verified in *. rewrite (read_verified_holds _ fs _ ls) in Hr by done.
  rewrite (read_verified_holds _ fs2 _ (ls ++ [roster_line id e'])) by done.
  rewrite fmap_app. csimpl. change (ro_author log) with (added_by e') at 2.
  rewrite (roster_check_line id e') by done. by apply collect_snoc.
Qed.

(** A roster append is read back and numbers entries consecutively. On a log
    whose entries are numbered 1, 2, ..., n, a successful append returns the
    entry numbered n + 1, reading the log afterwards gives the old entries and
    that one, and the numbering invariant holds again. *)
Theorem roster_append_read `{JsonLaws RosterLine} log id lam o speer skey (fs fs' : Fs) ls es e :
  fs_inv fs → fs_path (ro_path log) → log_holds fs (ro_path log) ls → length skey = 32 →
  roster_read_verified log (id_key id) fs = Ok es → seq_run seq es →
  (N.of_nat (length es) < U64_MAX)%N →
  roster_append log id lam o speer skey fs = (Ok e, fs') →
  e = mkRosterEntry (N.of_nat (S (length es))) lam o speer skey (ro_author log) ∧
  roster_read_verified log (id_key id) fs' = Ok (es ++ [e]) ∧ seq_run seq (es ++ [e]) ∧
  log_holds fs' (ro_path log) (ls ++ [roster_line id e]).
Proof.
  intros. edestruct (roster_append_spec log id lam o speer skey fs fs' ls es e) as (?&?&?&?&_); done.
Qed.

Lemma key_append_spec `{JsonLaws KeyLine} log id epoch body (fs fs' : Fs) ls es e :
  fs_inv fs → fs_path (kl_path log) → log_holds fs (kl_path log) ls →
  length epoch = 32 → body_wf body →
  key_read_verified log (id_key id) fs = Ok es → seq_run k_seq es →
  (N.of_nat (length es) < U64_MAX)%N →
  key_append log id epoch body fs = (Ok e, fs') →
  e = mkKeyLogEntry (N.of_nat (S (length es))) (kl_owner log) epoch body ∧
  key_read_verified log (id_key id) fs' = Ok (es ++ [e]) ∧ seq_run k_seq (es ++ [e]) ∧
  log_holds fs' (kl_path log) (ls ++ [key_line id e]) ∧
  fs_inv fs' ∧ ∀ q, q ≠ kl_path log → files fs' !! q = files fs !! q.
Proof.
  intros Hinv Hp Hh Hlen Hwf Hr Hrun Hmax. unfold key_append. case_decide; [done|].
  unfold mbind at 1, SM_bind. pose proof (ensure_parent_spec (kl_path log) fs Hinv) as Hd.
  destruct (ensure_parent (kl_path log) fs) as [r1 fs1]. destruct Hd as (->&Hinv1&Hf1).
  assert (log_holds fs1 (kl_path log) ls) as Hh1 by (unfold log_holds in *; by rewrite Hf1).
  unfold mbind at 1, SM_bind, sm_get. unfold mbind at 1, SM_bind, sm_lift, key_last_seq.
  assert (key_read_verified log (id_key id) fs1 = Ok es) as ->.
  { unfold key_read_verified in *. rewrite (read_verified_holds _ fs1 _ ls) by done.
    by rewrite <-Hr, (read_verified_holds _ fs _ ls) by done. }
  simpl. rewrite seq_run_last by done.
  replace (wrapping_add _ 1) with (N.of_nat (S (length es))).
  2:{ unfold wrapping_add. rewrite N.mod_small; lia. }
  set (e' := mkKeyLogEntry _ _ _ _).
  pose proof (append_line_holds fs1 (kl_path log) ls (key_line id e') Hinv1 Hp Hh1) as Ha.
  unfold mbind, SM_bind. destruct (append_line _ _ fs1) as [[[]|err] fs2]; [|done].
  intros [= <- <-]. destruct Ha as (Hinv2&Hq2&Hh2). split; [done|].
  split; [|split_and!; [by apply seq_run_snoc|done|done|intros q Hq; by rewrite Hq2, Hf1]].
  unfold key_read_verified in *. rewrite (read_verified_holds _ fs _ ls) in Hr by done.
  rewrite (read_verified_holds _ fs2 _ (ls ++ [key_line id e'])) by done.
  rewrite fmap_app. csimpl. change (kl_owner log) with (k_author e') at 2.
  rewrite (key_check_line id e') by done. by apply collect_snoc.
Qed.
End append.

(** Every entry a key log yields names a 32-byte epoch. *)
Lemma key_read_ids `{Ed25519, B64, JsonOf KeyLine} {Fs} `{VaultFs Fs} log key (fs : Fs) es e :
  key_read_verified log key fs = Ok es → e ∈ es → length (k_epoch_id e) = 32.
Proof.
  unfold key_read_verified, read_verified, verify_text. destruct (fs_read_to_string _ fs) as [t|[]];
    try done; [|by intros [= <-] ?%elem_of_nil].
  intros Hv He. destruct (verify_lines_sound _ _ _ _ e Hv He) as (s&l&_&_&Hc).
  by apply key_check_ok in Hc as (_&?&_).
Qed.

(** ** The signed bytes of a key-log entry determine it *)
Definition key_entry_wf (e : KeyLogEntry) : Prop :=
  is_u64 (k_seq e) ∧ is_u64 (k_author e) ∧ length (k_epoch_id e) = 32 ∧
  match k_body e with
  | Rotate parents nonce =>
      Forall (λ p, length p = 32) parents ∧ length nonce = 32 ∧ is_u64 (N.of_nat (length parents))
  | Wrap r blob =>
      is_u64 (N.of_nat (length blob)) ∧ match r with Device p => is_u64 p | Paper => True end
  end.

Lemma concat_chunks_inj (n : nat) (a b : list bytes) r r' :
  Forall (λ p, length p = n) a → Forall (λ p, length p = n) b → length a = length b →
  concat a ++ r = concat b ++ r' → a = b ∧ r = r'.
Proof.
  revert b. induction a as [|x a IH]; intros [|y b] Ha Hb Hl; try done.
  apply Forall_cons in Ha as [Hx Ha]. apply Forall_cons in Hb as [Hy Hb]. simpl in *.
  rewrite <-!(assoc_L (++)). intros [-> Heq]%app_inj_1; [|lia].
  destruct (IH b Ha Hb) as [-> ->]; [lia|done|done].
Qed.

Lemma len_blob_inj (a b : bytes) :
  is_u64 (N.of_nat (length a)) → is_u64 (N.of_nat (length b)) →
  le_bytes 8 (N.of_nat (length a)) ++ a = le_bytes 8 (N.of_nat (length b)) ++ b → a = b.
Proof. intros Ha Hb [_ ->]%app_inj_1; [done|]. by rewrite !length_le_bytes. Qed.

(** Key-log signatures bind the whole entry. Two well-formed key-log entries
    with the same signed bytes are equal: a rotation can never be read as a wrap,
    and neither the epoch, the parents, the recipient nor the blob can be swapped
    under a valid signature. *)
Theorem key_canonical_bytes_inj e1 e2 :
  key_entry_wf e1 → key_entry_wf e2 →
  key_canonical_bytes e1 = key_canonical_bytes e2 → e1 = e2.
Proof.
  destruct e1 as [s1 a1 i1 b1], e2 as [s2 a2 i2 b2].
  intros (Hs1&Ha1&Hi1&Hb1) (Hs2&Ha2&Hi2&Hb2). unfold key_canonical_bytes.
  cbn [k_seq k_author k_epoch_id k_body] in *.
  intros [_ [Es [Ea [-> Eb]%app_inj_1]%app_inj_1]%app_inj_1]%app_inj_1;
    [|by rewrite ?length_le_bytes; congruence..].
  apply u64_le_bytes_inj in Es as ->; [|done..]. apply u64_le_bytes_inj in Ea as ->; [|done..].
  f_equal. destruct b1 as [ps1 n1|r1 bl1], b2 as [ps2 n2|r2 bl2]; [|done|done|].
  - destruct Hb1 as (Hp1&Hn1&Hl1), Hb2 as (Hp2&Hn2&Hl2). apply (f_equal tail) in Eb. cbn [tail] in Eb.
    apply app_inj_1 in Eb as [El Eb]; [|by rewrite !length_le_bytes].
    apply u64_le_bytes_inj in El; [|done..].
    destruct (concat_chunks_inj 32 ps1 ps2 n1 n2) as [-> ->]; [done..|lia|done|done].
  - destruct Hb1 as [Hl1 Hr1], Hb2 as [Hl2 Hr2]. apply (f_equal tail) in Eb. cbn [tail] in Eb.
    destruct r1 as [p1|], r2 as [p2|]; try done; apply (f_equal tail) in Eb; cbn [tail app] in Eb.
    + apply app_inj_1 in Eb as [Ep Eb]; [|by rewrite !length_le_bytes].
      apply u64_le_bytes_inj in Ep as ->; [|done..]. by apply len_blob_inj in Eb as ->.
    + by apply len_blob_inj in Eb as ->.
Qed.

(** ** Crashes *)
Section crash.
Context `{Ed25519Laws, B64Laws, JsonLaws EntryLine} {Fs : Type} `{VaultFsLaws Fs}.

(** A crash in the middle of an append does not lose the log. If the file
    holds complete lines followed by any proper prefix of one more line,
    reading it gives exactly what the complete lines give. *)
Theorem torn_append_tolerated log key (fs : Fs) ls l p :
  fs_inv fs → p `prefix_of` to_json (l : EntryLine) → p ≠ to_json l →
  default [] (files fs !! op_path log) = utf8 (log_text ls ++ p) →
  oplog_read_verified log key fs = collect (oplog_check log key <$> ls).
Proof.
  intros Hinv Hp Hne Hf. unfold oplog_read_verified.
  rewrite (read_text_holds _ fs _ (log_text ls ++ p)); [|done..|].
  - by eapply verify_log_torn.
  - apply forallb_forall. intros c Hc%in_app_iff.
    pose proof (log_text_scalar ls) as Hs1. pose proof (to_json_scalar l) as Hs2.
    rewrite forallb_forall in Hs1, Hs2. destruct Hc as [Hc|Hc]; [by apply Hs1|].
    apply Hs2. destruct Hp as [k ->]. apply in_app_iff. by left.
Qed.

(** But the torn bytes stay in the file. The next append lands directly
    after them and is acknowledged; unless the two fragments happen to form one
    JSON object, every later read of the log then fails as malformed, also for
    the lines before the crash. *)
Theorem append_after_torn_unreadable log id key u (fs fs' : Fs) ls l p :
  fs_inv fs → fs_path (op_path log) →
  p `prefix_of` to_json (l : EntryLine) → p ≠ [] →
  from_json (p ++ to_json (oplog_line log id u)) = None (A := EntryLine) →
  (∃ es, collect (oplog_check log key <$> ls) = Ok es) →
  default [] (files fs !! op_path log) = utf8 (log_text ls ++ p) →
  oplog_append log id u fs = (Ok tt, fs') →
  oplog_read_verified log key fs' = Err MalformedEntry.
Proof.
  intros Hinv Hp Hpre Hne Hnone [es Hes] Hf. unfold oplog_append, mbind, SM_bind.
  pose proof (ensure_parent_spec (op_path log) fs Hinv) as Hd.
  destruct (ensure_parent (op_path log) fs) as [r1 fs1]. destruct Hd as (->&Hinv1&Hf1).
  unfold append_line, io, sm_map_err. set (j := to_json (oplog_line log id u)).
  pose proof (fs_append_sync_spec (op_path log) (utf8 (j ++ [LF])) fs1 Hinv1 Hp) as Ha.
  destruct (fs_append_sync _ _ fs1) as [[[]|err] fs2]; [|done]. intros [= <-].
  destruct Ha as [Hinv2 Ha]. simpl in Ha. rewrite Hf1, Hf, <-utf8_app in Ha.
  unfold oplog_read_verified.
  rewrite (read_text_holds _ fs2 _ ((log_text ls ++ p) ++ j ++ [LF])); [|done|by rewrite Ha, lookup_insert_eq|].
  2:{ pose proof (to_json_scalar (oplog_line log id u)) as Hj. fold j in Hj.
      rewrite !forallb_app. simpl. rewrite log_text_scalar, Hj.
      pose proof (to_json_scalar l) as Hs2. destruct Hpre as [k Hk]. rewrite Hk, forallb_app in Hs2.
      by apply andb_true_iff in Hs2 as [-> _]. }
  assert (LF ∉ p ++ j) as Hlf.
  { intros [Hin|Hin]%elem_of_app; [|by apply (to_json_no_LF (oplog_line log id u))].
    apply (to_json_no_LF l). destruct Hpre as [k ->]. set_solver. }
  assert (trim (p ++ j) ≠ []) as Htrim.
  { destruct p as [|c p]; [done|]. destruct Hpre as [k Hk], (to_json_object l) as [s Hs].
    rewrite Hs in Hk. injection Hk as <- _. by apply trim_visible. }
  assert (strip_cr (p ++ j) = p ++ j) as Hcr.
  { unfold strip_cr. rewrite last_app. unfold j. by rewrite to_json_last. }
  replace ((log_text ls ++ p) ++ j ++ [LF]) with (log_text ls ++ (p ++ j) ++ [LF])
    by (by rewrite !(assoc_L (++))).
  by eapply verify_log_garbage.
Qed.
End crash.

Section torn_name.
Context `{Ed25519, B64, JsonOf RosterLine} {Fs : Type} `{VaultFsLaws Fs}.

(** A crash inside a multi-byte character is not forgiven. If the last
    append to a roster log (a device name can hold any character) was cut in the
    middle of one character's UTF-8 bytes, the file is no longer text and
    reading fails with an I/O error, although the text before the cut is only a
    torn last line. *)
Theorem torn_name_unreadable log key (fs : Fs) t c k :
  fs_inv fs → forallb is_scalar t = true → is_scalar c = true → 0 < k < length (utf8_char c) →
  files fs !! ro_path log = Some (utf8 t ++ take k (utf8_char c)) →
  roster_read_verified log key fs = Err (Io InvalidData).
Proof.
  intros Hinv Ht Hc Hk Hf. unfold roster_read_verified, read_verified, fs_read_to_string.
  rewrite fs_read_spec, Hf by done. simpl. by rewrite from_utf8_cut.
Qed.
End torn_name.
