(* ===== verification/Keychain.v ===== *)
(** * Keychain: the epoch DAG (crates/roam-storage/src/keychain.rs)

    Key wrapping (keywrap.rs), the epoch-tagged AEAD (epoch_crypto.rs) and the
    [Keychain]: the fold of key-log entries into announced epochs, the write head,
    the read classifier, the recovery diagnosis and the back-fill plan.  BLAKE3,
    X25519 and XChaCha20-Poly1305 are the interface [Crypto]. *)
From S2P Require Import Prelude RustStr Roster Vfs Wire Logs.
From Stdlib Require Import Strings.Byte.

(** ** External primitives *)
Class Crypto := {
  blake3 : bytes → bytes;
  blake3_derive : rstring → bytes → bytes;
  x_public : bytes → bytes;
  x_dh : bytes → bytes → bytes;
  aead_seal : bytes → bytes → bytes → bytes;
  aead_open : bytes → bytes → bytes → option bytes;
}.
Class CryptoLaws `{Crypto} := {
  x_dh_comm a b : x_dh a (x_public b) = x_dh b (x_public a);
  blake3_len b : length (blake3 b) = 32;
  x_public_len a : length (x_public a) = 32;
  aead_open_seal k n p : aead_open k n (aead_seal k n p) = Some p;
}.

(** ** Sealed boxes *)
Section keywrap.
Context `{Crypto}.
Definition EPH_PUB_LEN : nat := 32.
Definition NONCE_LEN : nat := 24.

Definition wrap_subkey (shared eph_pub recipient_pub : bytes) : bytes :=
  blake3_derive (str "roam keywrap v1") (shared ++ eph_pub ++ recipient_pub).

(** The ephemeral secret and the nonce are the caller's randomness. *)
Definition wrap (eph_secret nonce recipient_pub key : bytes) : bytes :=
  let eph_pub := x_public eph_secret in
  let subkey := wrap_subkey (x_dh eph_secret recipient_pub) eph_pub recipient_pub in
  eph_pub ++ nonce ++ aead_seal subkey nonce key.

Definition unwrap (recipient_secret blob : bytes) : result StorageError bytes :=
  if decide (length blob < EPH_PUB_LEN + NONCE_LEN) then Err Keywrap
  else
    let eph_pub := take EPH_PUB_LEN blob in
    let nonce := take NONCE_LEN (drop EPH_PUB_LEN blob) in
    let ct := drop (EPH_PUB_LEN + NONCE_LEN) blob in
    let subkey := wrap_subkey (x_dh recipient_secret eph_pub) eph_pub (x_public recipient_secret) in
    pt ← ok_or (aead_open subkey nonce ct) Keywrap;
    try_into_array 32 pt Keywrap.

(** *** Epoch-tagged sealing *)
Inductive CryptoError := Short | Open.
Definition seal_epoch (nonce epoch_key epoch_id plaintext : bytes) : bytes :=
  epoch_id ++ nonce ++ aead_seal epoch_key nonce plaintext.
Definition open_epoch (epoch_key body : bytes) : result CryptoError bytes :=
  if decide (length body < 24) then Err Short
  else ok_or (aead_open epoch_key (take 24 body) (drop 24 body)) Open.

Definition vault_subkeys (vault_key : bytes) : bytes * bytes :=
  (blake3_derive (str "roam-backend-client id-derivation v1") vault_key,
   blake3_derive (str "roam-backend-client aead v1") vault_key).
End keywrap.

(** ** Data *)
Definition EPOCH0_ID : bytes := replicate 32 Byte.x00.

Record EpochNode := mkEpochNode {
  n_parents : list bytes;
  n_minted_by : u64;
  n_nonce : bytes;
  n_key : option bytes;
  n_wrapped_to : gset u64;
  n_wrapped_paper : bool;
}.
Abbreviation epoch_map := (gmap bytes EpochNode).

Record Keychain := mkKeychain { kc_id_key : bytes; kc_epochs : epoch_map; kc_head : bytes }.

Inductive VaultIssue :=
  | WaitingKey (epoch : bytes) (candidates : list u64)
  | KeyOrphaned (epoch : bytes)
  | KeyRedundancyLow (epoch : bytes) (holders : list u64).

Record ReadPlan := mkReadPlan { rp_epoch : bytes; rp_key : option bytes; rp_body_offset : nat }.

#[global] Instance EpochNode_eq_dec : EqDecision EpochNode.
Proof. solve_decision. Defined.
#[global] Instance VaultIssue_eq_dec : EqDecision VaultIssue.
Proof. solve_decision. Defined.
#[global] Instance ReadPlan_eq_dec : EqDecision ReadPlan.
Proof. solve_decision. Defined.

(** ** Building *)
Section keychain.
Context `{Crypto}.

Definition compute_epoch_id (parents : list bytes) (minted_by : u64) (nonce key : bytes) : bytes :=
  blake3 (concat parents ++ le_bytes 8 minted_by ++ nonce ++ key).

Definition genesis (epoch0_key : bytes) : epoch_map :=
  {[EPOCH0_ID := mkEpochNode [] 0 (replicate 32 Byte.x00) (Some epoch0_key) ∅ false]}.

(** First pass: a [Rotate] announces a node; the first announcement stands. *)
Definition rotate_step (m : epoch_map) (e : KeyLogEntry) : epoch_map :=
  match k_body e with
  | Rotate parents nonce =>
      match m !! k_epoch_id e with
      | Some _ => m
      | None => <[k_epoch_id e := mkEpochNode parents (k_author e) nonce None ∅ false]> m
      end
  | Wrap _ _ => m
  end.

(** Second pass: a [Wrap] records its recipient on an announced node and, if it
    is ours and opens to the key the id commits to, installs the key. *)
Definition wrap_node (self_peer : u64) (secret : bytes) (id : bytes) (r : Recipient) (blob : bytes)
    (node : EpochNode) : EpochNode :=
  match r with
  | Paper => mkEpochNode (n_parents node) (n_minted_by node) (n_nonce node) (n_key node)
               (n_wrapped_to node) true
  | Device p =>
      let key :=
        if bool_decide (p = self_peer) && bool_decide (n_key node = None) then
          match unwrap secret blob with
          | Ok k => if decide (compute_epoch_id (n_parents node) (n_minted_by node) (n_nonce node) k = id)
                    then Some k else n_key node
          | Err _ => n_key node
          end
        else n_key node in
      mkEpochNode (n_parents node) (n_minted_by node) (n_nonce node) key
        ({[p]} ∪ n_wrapped_to node) (n_wrapped_paper node)
  end.
Definition wrap_step (self_peer : u64) (secret : bytes) (m : epoch_map) (e : KeyLogEntry) : epoch_map :=
  match k_body e with
  | Wrap r blob =>
      match m !! k_epoch_id e with
      | Some node => <[k_epoch_id e := wrap_node self_peer secret (k_epoch_id e) r blob node]> m
      | None => m
      end
  | Rotate _ _ => m
  end.

Definition parent_set (m : epoch_map) : gset bytes :=
  list_to_set (concat ((λ x, n_parents x.2) <$> map_to_list m)).

(** The DAG leaves, ascending. *)
Definition leaves (m : epoch_map) : list bytes :=
  filter (λ id, id ∉ parent_set m) (btree_keys bytes_le m).

(** [.min()] of an ascending iterator is its first element. *)
Definition select_head (m : epoch_map) : bytes := default EPOCH0_ID (head (leaves m)).

Definition build (id_key epoch0_key : bytes) (self_peer : u64) (secret : bytes)
    (entries : list KeyLogEntry) : Keychain :=
  let announced := foldl rotate_step (genesis epoch0_key) entries in
  let epochs := foldl (wrap_step self_peer secret) announced entries in
  mkKeychain id_key epochs (select_head epochs).

(** ** Queries *)
Definition key_matches_epoch (kc : Keychain) (epoch key : bytes) : bool :=
  if decide (epoch = EPOCH0_ID) then false
  else match kc_epochs kc !! epoch with
       | Some node => bool_decide
           (compute_epoch_id (n_parents node) (n_minted_by node) (n_nonce node) key = epoch)
       | None => false
       end.

Definition epoch_key (kc : Keychain) (epoch : bytes) : option bytes :=
  kc_epochs kc !! epoch ≫= n_key.

Definition head_write_key (kc : Keychain) : option (bytes * bytes) :=
  (λ k, (kc_head kc, k)) <$> epoch_key kc (kc_head kc).

Definition classify (kc : Keychain) (payload : bytes) : ReadPlan :=
  let legacy := mkReadPlan EPOCH0_ID (epoch_key kc EPOCH0_ID) 0 in
  if decide (32 ≤ length payload) then
    let prefix := take 32 payload in
    if decide (prefix ≠ EPOCH0_ID) then
      match kc_epochs kc !! prefix with
      | Some node => mkReadPlan prefix (n_key node) 32
      | None => legacy
      end
    else legacy
  else legacy.

Definition active_peers (roster : list PeerRecord) : gset u64 :=
  list_to_set (peer_id <$> filter (λ p, status p = Active) roster).
Definition live_holders (active : gset u64) (node : EpochNode) : list u64 :=
  filter (λ p, p ∈ active) (bset_to_list N.le (n_wrapped_to node)).
Definition issue_of (active : gset u64) (x : bytes * EpochNode) : option VaultIssue :=
  let live := live_holders active x.2 in
  if decide (n_key x.2 = None) then
    if bool_decide (live = []) && negb (n_wrapped_paper x.2)
    then Some (KeyOrphaned x.1) else Some (WaitingKey x.1 live)
  else if bool_decide (length live = 1) && negb (n_wrapped_paper x.2)
       then Some (KeyRedundancyLow x.1 live) else None.
Definition diagnose (kc : Keychain) (roster : list PeerRecord) : list VaultIssue :=
  omap (issue_of (active_peers roster)) (btree_to_list bytes_le (kc_epochs kc)).

Definition targets_of (roster : list PeerRecord) (x : bytes * EpochNode) : list (bytes * bytes * u64) :=
  if decide (x.1 = EPOCH0_ID) then []
  else match n_key x.2 with
       | None => []
       | Some k =>
           (λ p, (x.1, k, peer_id p)) <$>
             filter (λ p, peer_id p ∉ n_wrapped_to x.2) (filter (λ p, status p = Active) roster)
       end.
Definition backfill_targets (kc : Keychain) (roster : list PeerRecord) : list (bytes * bytes * u64) :=
  btree_to_list bytes_le (kc_epochs kc) ≫= targets_of roster.

Definition dag_heads (kc : Keychain) : list bytes :=
  match leaves (kc_epochs kc) with [] => [EPOCH0_ID] | ls => ls end.
End keychain.

(** ** Sealed boxes open *)
Section keywrap_laws.
Context `{CryptoLaws}.

Lemma unwrap_wrap_ok eph nonce secret key :
  length nonce = NONCE_LEN → length key = 32 →
  unwrap secret (wrap eph nonce (x_public secret) key) = Ok key.
Proof.
  intros Hn Hk. unfold unwrap, wrap. set (sub := wrap_subkey _ _ _).
  pose proof (x_public_len eph) as He.
  rewrite decide_False by (rewrite !length_app; unfold EPH_PUB_LEN; lia).
  rewrite take_app_length', drop_app_length' by done.
  rewrite take_app_length' by done. rewrite (assoc_L (++)), drop_app_length'
    by (rewrite length_app; unfold EPH_PUB_LEN; lia).
  rewrite x_dh_comm. fold sub. rewrite aead_open_seal. simpl.
  unfold try_into_array. by rewrite decide_True.
Qed.

(** A wrapped key opens for its recipient. Whatever ephemeral secret and
    nonce the sender drew, unwrapping with the recipient's secret returns the
    32-byte key that was wrapped to the recipient's public key. *)
Theorem unwrap_wrap eph nonce secret key :
  length nonce = NONCE_LEN → length key = 32 →
  unwrap secret (wrap eph nonce (x_public secret) key) = Ok key.
Proof. apply unwrap_wrap_ok. Qed.

Lemma open_seal_epoch nonce k id p :
  length nonce = 24 → open_epoch k (drop (length id) (seal_epoch nonce k id p)) = Ok p.
Proof.
  intros Hn. unfold open_epoch, seal_epoch. rewrite drop_app_length.
  rewrite decide_False by (rewrite length_app; lia).
  by rewrite take_app_length', drop_app_length', aead_open_seal.
Qed.
End keywrap_laws.

Section keychain_facts.
Context `{Crypto}.

(** *** The two passes *)

(** What a [Rotate] fixes of a node; wraps never change it. *)
Definition announced_as (node : EpochNode) : list bytes * u64 * bytes :=
  (n_parents node, n_minted_by node, n_nonce node).

Definition rotates (entries : list KeyLogEntry) (id : bytes) (a : list bytes * u64 * bytes) : Prop :=
  ∃ e parents nonce, e ∈ entries ∧ k_epoch_id e = id ∧ k_body e = Rotate parents nonce ∧
    a = (parents, k_author e, nonce).

Lemma rotate_pass_Some k0 entries id node :
  foldl rotate_step (genesis k0) entries !! id = Some node →
  (id = EPOCH0_ID ∧ node = mkEpochNode [] 0 (replicate 32 Byte.x00) (Some k0) ∅ false) ∨
  (id ≠ EPOCH0_ID ∧ n_key node = None ∧ n_wrapped_to node = ∅ ∧ n_wrapped_paper node = false ∧
   rotates entries id (announced_as node)).
Proof.
  revert id node. induction entries as [|e l IH] using rev_ind; intros id node.
  { simpl. unfold genesis. rewrite lookup_singleton_Some. intros [<- <-]. by left. }
  rewrite foldl_snoc. set (m := foldl _ _ l) in *. unfold rotate_step.
  assert (m !! id = Some node → (id = EPOCH0_ID ∧
      node = mkEpochNode [] 0 (replicate 32 Byte.x00) (Some k0) ∅ false) ∨
    (id ≠ EPOCH0_ID ∧ n_key node = None ∧ n_wrapped_to node = ∅ ∧ n_wrapped_paper node = false ∧
     rotates (l ++ [e]) id (announced_as node))) as Hold.
  { intros [?|(?&?&?&?&(e'&ps&n&?&?&?&?))]%IH; [by left|]. right. split_and!; try done.
    exists e', ps, n. set_solver. }
  destruct (k_body e) as [parents nonce|] eqn:Eb; [|done].
  destruct (m !! k_epoch_id e) as [n|] eqn:Em; [done|].
  rewrite lookup_insert. case_decide as Hid; [|done]. intros [= <-]. right. split_and!; try done.
  - intros ->. assert (m !! EPOCH0_ID ≠ None); [|congruence]. clear.
    unfold m. induction l as [|e' l IH] using rev_ind; [done|]. rewrite foldl_snoc.
    unfold rotate_step. repeat case_match; try done. rewrite lookup_insert. by case_decide.
  - exists e, parents, nonce. set_solver.
Qed.

Lemma rotate_pass_dom k0 entries id :
  is_Some (foldl rotate_step (genesis k0) entries !! id) ↔
  id = EPOCH0_ID ∨ ∃ a, rotates entries id a.
Proof.
  split.
  { intros [node [[? _]|(_&_&_&_&?)]%rotate_pass_Some]; eauto. }
  induction entries as [|e l IH] using rev_ind.
  { intros [->|(a&e&?&?&He&_)]; [by eexists|]. by apply elem_of_nil in He. }
  rewrite foldl_snoc. intros Hid. unfold rotate_step.
  assert (is_Some (foldl rotate_step (genesis k0) l !! id) ∨
    (k_epoch_id e = id ∧ ∃ ps n, k_body e = Rotate ps n)) as [Hs|(<-&ps&n&->)].
  { destruct Hid as [->|(a&e'&ps&n&He'&Hi&Hb&Ha)]; [left; apply IH; by left|].
    apply elem_of_app in He' as [He'| ->%list_elem_of_singleton]; [|by eauto].
    left. apply IH. right. by exists a, e', ps, n. }
  - destruct (k_body e); [|done]. destruct (_ !! k_epoch_id e); [done|].
    rewrite lookup_insert. by case_decide.
  - destruct (foldl _ _ l !! k_epoch_id e) eqn:Em; [done|]. by rewrite lookup_insert_eq.
Qed.

(** The wrap pass keeps every announcement. *)
Lemma wrap_pass_announced self secret m entries id :
  announced_as <$> foldl (wrap_step self secret) m entries !! id = announced_as <$> m !! id.
Proof.
  induction entries as [|e l IH] using rev_ind; [done|]. rewrite foldl_snoc, <-IH.
  unfold wrap_step. destruct (k_body e) as [|r blob]; [done|].
  destruct (_ !! k_epoch_id e) as [node|] eqn:Em; [|done].
  rewrite lookup_insert. case_decide as Hid; [|done]. subst id. rewrite Em. simpl.
  by destruct r.
Qed.

Lemma build_announced id_key k0 self secret entries id :
  announced_as <$> kc_epochs (build id_key k0 self secret entries) !! id =
  announced_as <$> foldl rotate_step (genesis k0) entries !! id.
Proof. apply wrap_pass_announced. Qed.

(** No phantom epochs. The keychain knows exactly the genesis epoch and the
    epochs some entry rotates to: a wrap alone never creates one, whatever id or
    key it carries. *)
Theorem build_epochs id_key k0 self secret entries id :
  is_Some (kc_epochs (build id_key k0 self secret entries) !! id) ↔
  id = EPOCH0_ID ∨ ∃ e parents nonce, e ∈ entries ∧ k_epoch_id e = id ∧ k_body e = Rotate parents nonce.
Proof.
  rewrite <-(fmap_is_Some announced_as), build_announced, fmap_is_Some, rotate_pass_dom.
  unfold rotates. naive_solver.
Qed.

(** *** Keys *)
Definition node_committed (id : bytes) (node : EpochNode) : Prop :=
  ∀ k, n_key node = Some k →
    compute_epoch_id (n_parents node) (n_minted_by node) (n_nonce node) k = id ∧ length k = 32.

Lemma unwrap_len secret blob k : unwrap secret blob = Ok k → length k = 32.
Proof.
  unfold unwrap. case_decide; [done|]. destruct (aead_open _ _ _); [simpl|done].
  unfold try_into_array. case_decide; [|done]. by intros [= <-].
Qed.

Lemma wrap_node_committed self secret id r blob node :
  node_committed id node → node_committed id (wrap_node self secret id r blob node).
Proof.
  unfold node_committed. intros Hc k. destruct r as [p|]; simpl; [|apply Hc].
  destruct (_ && _); [|apply Hc]. destruct (unwrap secret blob) as [k'|] eqn:Eu; [|apply Hc].
  case_decide; [|apply Hc]. intros [= <-]. by apply unwrap_len in Eu.
Qed.

Lemma build_committed id_key k0 self secret entries id node :
  kc_epochs (build id_key k0 self secret entries) !! id = Some node →
  id ≠ EPOCH0_ID → node_committed id node.
Proof.
  intros Hn Hid. revert Hn. unfold build. simpl. set (m := foldl rotate_step _ _).
  assert (∀ nd, m !! id = Some nd → node_committed id nd) as Hm.
  { intros nd [[? _]|(_&Hk&_)]%rotate_pass_Some k; [done|]. by rewrite Hk. }
  clearbody m. revert node. induction entries as [|e l IH] using rev_ind; [done|].
  intros node. rewrite foldl_snoc. unfold wrap_step at 1. destruct (k_body e) as [|r blob]; [apply IH|].
  destruct (_ !! k_epoch_id e) as [nd|] eqn:Em; [|apply IH].
  rewrite lookup_insert. case_decide as Hi; [|apply IH]. subst id. intros [= <-].
  by apply wrap_node_committed, IH.
Qed.

(** Installed keys are the announced keys. Every epoch key the keychain
    holds, other than the genesis key, hashes with its announced parents,
    author and nonce to the epoch's id; a key substituted by whoever wrapped it
    is never installed. *)
Theorem build_key_committed id_key k0 self secret entries id node k :
  kc_epochs (build id_key k0 self secret entries) !! id = Some node → n_key node = Some k →
  id ≠ EPOCH0_ID →
  compute_epoch_id (n_parents node) (n_minted_by node) (n_nonce node) k = id.
Proof.
  intros Hn Hk Hid. by apply (build_committed _ _ _ _ _ _ _ Hn Hid).
Qed.

(** A key split is a hash collision. If two keychains, built by any two
    devices from any two sets of entries, hold different keys under the same
    epoch id, then the two inputs the epoch id commits to (parents, author,
    nonce and key of each) are different and have the same BLAKE3 hash; so an
    admin who hands different members different keys under one id has found a
    collision. *)
Theorem key_split_is_collision id_key1 k01 self1 secret1 entries1 node1 k1
    id_key2 k02 self2 secret2 entries2 node2 k2 id :
  kc_epochs (build id_key1 k01 self1 secret1 entries1) !! id = Some node1 →
  kc_epochs (build id_key2 k02 self2 secret2 entries2) !! id = Some node2 →
  n_key node1 = Some k1 → n_key node2 = Some k2 → id ≠ EPOCH0_ID → k1 ≠ k2 →
  let committed node k := concat (n_parents node) ++ le_bytes 8 (n_minted_by node) ++ n_nonce node ++ k in
  committed node1 k1 ≠ committed node2 k2 ∧
  blake3 (committed node1 k1) = id ∧ blake3 (committed node2 k2) = id.
Proof.
  intros Hn1 Hn2 Hk1 Hk2 Hid Hne committed. unfold committed.
  destruct (build_committed _ _ _ _ _ _ _ Hn1 Hid _ Hk1) as [Hc1 Hl1].
  destruct (build_committed _ _ _ _ _ _ _ Hn2 Hid _ Hk2) as [Hc2 Hl2].
  split; [|by split]. rewrite !(assoc_L (++)). intros [_ ?]%app_inj_2; [done|congruence].
Qed.

(** *** The write head *)
Lemma elem_of_parent_set m p :
  p ∈ parent_set m ↔ ∃ id node, m !! id = Some node ∧ p ∈ n_parents node.
Proof.
  unfold parent_set. rewrite elem_of_list_to_set, list_elem_of_In, in_concat. split.
  - intros (ps&Hps&Hp). apply list_elem_of_In, list_elem_of_fmap in Hps as ([id node]&->&Hm).
    apply elem_of_map_to_list in Hm. exists id, node. by rewrite list_elem_of_In.
  - intros (id&node&Hm&Hp). exists (n_parents node). rewrite <-!list_elem_of_In. split; [|done].
    apply list_elem_of_fmap. exists (id, node). by rewrite elem_of_map_to_list.
Qed.

(** A leaf: a known epoch that is nobody's parent. *)
Definition is_leaf (m : epoch_map) (id : bytes) : Prop :=
  is_Some (m !! id) ∧ ∀ id' node, m !! id' = Some node → id ∉ n_parents node.
Lemma elem_of_leaves m id : id ∈ leaves m ↔ is_leaf m id.
Proof.
  unfold leaves, is_leaf. rewrite list_elem_of_filter, elem_of_btree_keys, elem_of_parent_set.
  naive_solver.
Qed.

(** The write head is the least leaf of the epoch DAG. If some known epoch
    is nobody's parent, the head is such an epoch and the smallest of them in
    byte order, and it is among the heads a rotation parents on; otherwise it is
    the genesis epoch. *)
Theorem build_head id_key k0 self secret entries :
  let kc := build id_key k0 self secret entries in
  ((∃ id, is_leaf (kc_epochs kc) id) →
     is_leaf (kc_epochs kc) (kc_head kc) ∧
     ∀ id, is_leaf (kc_epochs kc) id → bytes_le (kc_head kc) id) ∧
  ((¬ ∃ id, is_leaf (kc_epochs kc) id) → kc_head kc = EPOCH0_ID) ∧
  kc_head kc ∈ dag_heads kc.
Proof.
  intros kc. assert (kc_head kc = select_head (kc_epochs kc)) as -> by done. clearbody kc.
  unfold select_head, dag_heads. set (m := kc_epochs kc). setoid_rewrite <-elem_of_leaves.
  destruct (leaves m) as [|h ls] eqn:El.
  { split_and!; [|done|set_solver]. intros [id []%elem_of_nil]. }
  destruct (head_filter_least bytes_le (λ id, id ∉ parent_set m) (btree_keys bytes_le m) h)
    as (Hh&Hin&Hmin); [intros x; apply (reflexivity (R:=bytes_le))|apply btree_keys_sorted; apply _| |].
  { unfold leaves in El. by rewrite El. }
  simpl. split_and!; [|intros Hn; destruct Hn; exists h; set_solver|set_solver].
  intros _. split; [set_solver|]. intros id. rewrite <-El. unfold leaves.
  rewrite list_elem_of_filter. intros [? ?]. by apply Hmin.
Qed.

(** Which entries announce what decides the DAG. *)
Lemma select_head_announced m1 m2 :
  (∀ id, announced_as <$> m1 !! id = announced_as <$> m2 !! id) → select_head m1 = select_head m2.
Proof.
  intros Heq. unfold select_head, leaves. do 2 f_equal.
  assert (parent_set m1 = parent_set m2) as ->.
  { apply set_eq. intros p. rewrite !elem_of_parent_set.
    split; intros (id&node&Hm&Hp); specialize (Heq id); rewrite Hm in Heq; simpl in Heq.
    - destruct (m2 !! id) as [nd|] eqn:E2; [|done]. exists id, nd. split; [done|].
      injection Heq as ? _ _. congruence.
    - destruct (m1 !! id) as [nd|] eqn:E2; [|done]. exists id, nd. split; [done|].
      injection Heq as ? _ _. congruence. }
  f_equal. apply btree_keys_dom; [apply _..|]. apply set_eq. intros id.
  rewrite !elem_of_dom, <-!(fmap_is_Some announced_as), Heq. done.
Qed.

(** Members agree on where to write. Two devices (any peer ids and secrets)
    whose key logs carry the same rotations, in any order, choose the same write
    head, provided no epoch id was announced twice with different contents. *)
Theorem heads_agree id_key1 k01 self1 secret1 entries1 id_key2 k02 self2 secret2 entries2 :
  (∀ id a, rotates entries1 id a ↔ rotates entries2 id a) →
  (∀ id a b, rotates entries1 id a → rotates entries1 id b → a = b) →
  kc_head (build id_key1 k01 self1 secret1 entries1) =
  kc_head (build id_key2 k02 self2 secret2 entries2).
Proof.
  intros Hrot Hfun. apply select_head_announced. intros id.
  change (announced_as <$> kc_epochs (build id_key1 k01 self1 secret1 entries1) !! id =
          announced_as <$> kc_epochs (build id_key2 k02 self2 secret2 entries2) !! id).
  rewrite !build_announced.
  pose proof (rotate_pass_dom k01 entries1 id) as Hd1.
  pose proof (rotate_pass_dom k02 entries2 id) as Hd2.
  assert (is_Some (foldl rotate_step (genesis k01) entries1 !! id) ↔
          is_Some (foldl rotate_step (genesis k02) entries2 !! id)) as Hiff.
  { rewrite Hd1, Hd2. by setoid_rewrite Hrot. }
  destruct (foldl rotate_step (genesis k01) entries1 !! id) as [n1|] eqn:E1,
           (foldl rotate_step (genesis k02) entries2 !! id) as [n2|] eqn:E2; simpl;
    [| |by destruct (proj2 Hiff ltac:(by eexists))|done].
  2:{ by destruct (proj1 Hiff ltac:(by eexists)). }
  apply rotate_pass_Some in E1 as [[-> ->]|(?&_&_&_&H1)];
    apply rotate_pass_Some in E2 as [[? ->]|(?&_&_&_&H2)]; try done.
  apply Hrot in H2. f_equal. by eapply Hfun.
Qed.
End keychain_facts.

(** ** Reading what was written *)
Section read_write.
Context `{CryptoLaws}.

(** What one member seals under an epoch, another reads back. If the reader
    holds the same key under a 32-byte epoch id other than genesis, the payload
    sealed under that epoch is classified as that epoch's with the 32-byte tag
    stripped, and opening it returns the plaintext. *)
Theorem seal_classify_open kc id k nonce plaintext :
  epoch_key kc id = Some k → id ≠ EPOCH0_ID → length id = 32 → length nonce = 24 →
  let payload := seal_epoch nonce k id plaintext in
  let plan := classify kc payload in
  plan = mkReadPlan id (Some k) 32 ∧
  open_epoch k (drop (rp_body_offset plan) payload) = Ok plaintext.
Proof.
  intros Hk Hid Hl Hn payload plan.
  assert (plan = mkReadPlan id (Some k) 32) as ->.
  { unfold plan, classify, payload, seal_epoch.
    rewrite decide_True by (rewrite length_app; lia). rewrite take_app_length' by done.
    rewrite decide_True by done. unfold epoch_key in Hk.
    destruct (kc_epochs kc !! id) as [node|]; [|done]. simpl in Hk. by rewrite Hk. }
  split; [done|]. simpl. unfold payload. rewrite <-Hl. by apply open_seal_epoch.
Qed.

(** Legacy payloads stay readable. An untagged payload whose first 32 bytes
    are not the id of a known epoch is read under the genesis key from its first
    byte. *)
Theorem classify_legacy kc payload :
  kc_epochs kc !! take 32 payload = None ∨ take 32 payload = EPOCH0_ID ∨ length payload < 32 →
  classify kc payload = mkReadPlan EPOCH0_ID (epoch_key kc EPOCH0_ID) 0.
Proof.
  intros Hp. unfold classify. destruct (decide (32 ≤ length payload)) as [Hl|]; [|done].
  destruct (decide (take 32 payload ≠ EPOCH0_ID)) as [Hne|]; [|done].
  destruct Hp as [-> |[?|?]]; [done|done|lia].
Qed.
End read_write.

(** ** Recovery diagnosis *)
Section diagnosis.
Context `{Crypto}.

Definition is_active (roster : list PeerRecord) (p : u64) : Prop :=
  ∃ r, r ∈ roster ∧ peer_id r = p ∧ status r = Active.
Lemma elem_of_active roster p : p ∈ active_peers roster ↔ is_active roster p.
Proof.
  unfold active_peers, is_active. rewrite elem_of_list_to_set, list_elem_of_fmap.
  setoid_rewrite list_elem_of_filter. naive_solver.
Qed.
Lemma elem_of_live roster node p :
  p ∈ live_holders (active_peers roster) node ↔ is_active roster p ∧ p ∈ n_wrapped_to node.
Proof. unfold live_holders. by rewrite list_elem_of_filter, elem_of_active, elem_of_bset. Qed.

Lemma live_holders_NoDup active node : NoDup (live_holders active node).
Proof.
  unfold live_holders. apply NoDup_filter. unfold bset_to_list.
  rewrite merge_sort_Permutation. apply NoDup_elements.
Qed.

Lemma elem_of_diagnose kc roster v :
  v ∈ diagnose kc roster ↔
  ∃ id node, kc_epochs kc !! id = Some node ∧ issue_of (active_peers roster) (id, node) = Some v.
Proof.
  unfold diagnose. rewrite list_elem_of_omap. split.
  - intros ([id node]&Hin%elem_of_btree&Hv). eauto.
  - intros (id&node&Hin&Hv). exists (id, node). by rewrite elem_of_btree.
Qed.

(** An active member with a wrap of the epoch. *)
Definition holder (roster : list PeerRecord) (node : EpochNode) (p : u64) : Prop :=
  is_active roster p ∧ p ∈ n_wrapped_to node.

Lemma live_nil roster node :
  live_holders (active_peers roster) node = [] ↔ ∀ p, ¬ holder roster node p.
Proof.
  unfold holder. setoid_rewrite <-elem_of_live. split.
  - intros -> p. apply not_elem_of_nil.
  - destruct (live_holders _ node) as [|p l]; [done|]. intros Hn. destruct (Hn p). set_solver.
Qed.
Lemma live_one roster node p :
  live_holders (active_peers roster) node = [p] ↔ ∀ q, holder roster node q ↔ q = p.
Proof.
  unfold holder. setoid_rewrite <-elem_of_live. split.
  - intros -> q. set_solver.
  - intros Hq. apply Permutation_singleton_r, NoDup_Permutation;
      [apply live_holders_NoDup|apply NoDup_singleton|]. intros q. rewrite Hq. set_solver.
Qed.
Lemma live_single roster node :
  length (live_holders (active_peers roster) node) = 1 ↔ ∃ p, ∀ q, holder roster node q ↔ q = p.
Proof.
  setoid_rewrite <-live_one. destruct (live_holders _ node) as [|p [|q l]]; simpl; naive_solver.
Qed.

Lemma orphaned_exact kc roster id :
  KeyOrphaned id ∈ diagnose kc roster ↔
  ∃ node, kc_epochs kc !! id = Some node ∧ n_key node = None ∧ n_wrapped_paper node = false ∧
          ∀ p, ¬ holder roster node p.
Proof.
  rewrite elem_of_diagnose. split.
  - intros (id'&node&Hm&Hi). unfold issue_of in Hi. simpl in Hi. case_decide as Hk; [|by case_match].
    case_match eqn:Eb; [|done]. injection Hi as <-. apply andb_true_iff in Eb as [Eb Ep].
    apply bool_decide_eq_true in Eb. apply negb_true_iff in Ep. exists node. by rewrite <-live_nil.
  - intros (node&Hm&Hk&Hp&Hn). exists id, node. split; [done|]. unfold issue_of. simpl.
    rewrite decide_True by done. apply live_nil in Hn. by rewrite bool_decide_eq_true_2, Hp by done.
Qed.

Lemma at_risk_exact kc roster id ps :
  KeyRedundancyLow id ps ∈ diagnose kc roster ↔
  ∃ node p, kc_epochs kc !! id = Some node ∧ n_key node ≠ None ∧ n_wrapped_paper node = false ∧
            ps = [p] ∧ ∀ q, holder roster node q ↔ q = p.
Proof.
  rewrite elem_of_diagnose. split.
  - intros (id'&node&Hm&Hi). unfold issue_of in Hi. simpl in Hi. case_decide as Hk; [by case_match|].
    case_match eqn:Eb; [|done]. injection Hi as <- <-. apply andb_true_iff in Eb as [Eb Ep].
    apply bool_decide_eq_true, live_single in Eb as [p Hp]. apply negb_true_iff in Ep.
    exists node, p. split_and!; try done. by apply live_one.
  - intros (node&p&Hm&Hk&Hp&->&Hq). exists id, node. split; [done|]. unfold issue_of. simpl.
    rewrite decide_False by done. apply live_one in Hq. by rewrite Hq, Hp.
Qed.

Lemma no_issue roster id node :
  issue_of (active_peers roster) (id, node) = None ↔
  n_key node ≠ None ∧ (n_wrapped_paper node = true ∨ ¬ ∃ p, ∀ q, holder roster node q ↔ q = p).
Proof.
  unfold issue_of. simpl. rewrite <-live_single. case_decide as Hk; [case_match; naive_solver|].
  split.
  - case_match eqn:Eb; [done|]. intros _. split; [done|]. apply andb_false_iff in Eb as [Eb|Eb].
    + right. by apply bool_decide_eq_false in Eb.
    + left. by apply negb_false_iff in Eb.
  - intros [_ [->|Hn]]; [by rewrite andb_false_r|]. by rewrite bool_decide_eq_false_2.
Qed.

(** The diagnosis is exact. An epoch is reported orphaned exactly when its key
    is missing here and neither an active member nor paper has a wrap; as at
    risk exactly when its key is held, paper has no wrap and exactly one active
    member has; and the vault is reported synced exactly when every key is held
    and none is at risk. *)
Theorem diagnose_exact kc roster :
  (∀ id, KeyOrphaned id ∈ diagnose kc roster ↔
     ∃ node, kc_epochs kc !! id = Some node ∧ n_key node = None ∧ n_wrapped_paper node = false ∧
             ∀ p, ¬ holder roster node p) ∧
  (∀ id ps, KeyRedundancyLow id ps ∈ diagnose kc roster ↔
     ∃ node p, kc_epochs kc !! id = Some node ∧ n_key node ≠ None ∧ n_wrapped_paper node = false ∧
             ps = [p] ∧ ∀ q, holder roster node q ↔ q = p) ∧
  (diagnose kc roster = [] ↔
     ∀ id node, kc_epochs kc !! id = Some node → n_key node ≠ None ∧
       (n_wrapped_paper node = true ∨ ¬ ∃ p, ∀ q, holder roster node q ↔ q = p)).
Proof.
  split_and!; [apply orphaned_exact|apply at_risk_exact|]. setoid_rewrite <-no_issue. split.
  - intros Hd id node Hm. destruct (issue_of _ _) as [v|] eqn:Ev; [|done].
    assert (v ∈ diagnose kc roster) as Hv by (apply elem_of_diagnose; by eauto).
    rewrite Hd in Hv. by apply elem_of_nil in Hv.
  - intros Hall. destruct (diagnose kc roster) as [|v l] eqn:Ed; [done|].
    assert (v ∈ diagnose kc roster) as (id&node&Hm&Hi)%elem_of_diagnose by (rewrite Ed; set_solver).
    by rewrite (Hall id node Hm) in Hi.
Qed.
End diagnosis.

(** ** Back-fill *)
Section backfill.
Context `{Crypto}.

Lemma elem_of_targets kc roster id k p :
  (id, k, p) ∈ backfill_targets kc roster ↔
  id ≠ EPOCH0_ID ∧ is_active roster p ∧
  ∃ node, kc_epochs kc !! id = Some node ∧ n_key node = Some k ∧ p ∉ n_wrapped_to node.
Proof.
  unfold backfill_targets, is_active. rewrite list_elem_of_bind. split.
  - intros ([id' node]&Ht&Hin%elem_of_btree). unfold targets_of in Ht. simpl in Ht.
    case_decide as Hid; [by apply elem_of_nil in Ht|].
    destruct (n_key node) as [k'|] eqn:Ek; [|by apply elem_of_nil in Ht].
    apply list_elem_of_fmap in Ht as (r&[= -> -> ->]&Hr).
    rewrite !list_elem_of_filter in Hr. destruct Hr as (?&?&?). split_and!; eauto.
  - intros (Hid&(r&Hr&<-&Hst)&node&Hin&Hk&Hn). exists (id, node). rewrite elem_of_btree.
    split; [|done]. unfold targets_of. simpl. rewrite decide_False by done. rewrite Hk.
    apply list_elem_of_fmap. exists r. by rewrite !list_elem_of_filter.
Qed.

(** Adding wraps of keys that are already held only grows [wrapped_to]. *)
Lemma wrap_fold_held self secret m ws id node k :
  m !! id = Some node → n_key node = Some k →
  ∃ node', foldl (wrap_step self secret) m ws !! id = Some node' ∧ n_key node' = Some k ∧
    n_wrapped_to node ⊆ n_wrapped_to node' ∧
    ∀ e p blob, e ∈ ws → k_epoch_id e = id → k_body e = Wrap (Device p) blob → p ∈ n_wrapped_to node'.
Proof.
  intros Hm Hk. induction ws as [|w ws IH] using rev_ind.
  { exists node. split_and!; try done. intros e p blob He. by apply elem_of_nil in He. }
  destruct IH as (n1&Hn1&Hk1&Hs1&Hw1). rewrite foldl_snoc. unfold wrap_step at 1.
  destruct (decide (k_epoch_id w = id)) as [<-|Hne].
  - destruct (k_body w) as [ps no|r blob] eqn:Eb.
    + exists n1. split_and!; try done.
      intros e p bl [He| ->%list_elem_of_singleton]%elem_of_app ??; [by eapply Hw1|congruence].
    + rewrite Hn1. eexists. split; [apply lookup_insert_eq|].
      destruct r as [p|]; simpl; rewrite ?Hk1, ?andb_false_r.
      * split_and!; [done|set_solver|].
        intros e q bl [He| ->%list_elem_of_singleton]%elem_of_app ??; [|assert (q = p) as -> by congruence; set_solver].
        apply elem_of_union_r. by eapply Hw1.
      * split_and!; [done|done|].
        intros e q bl [He| ->%list_elem_of_singleton]%elem_of_app ??; [by eapply Hw1|congruence].
  - exists n1. split_and!; try done.
    + destruct (k_body w); [done|]. destruct (_ !! k_epoch_id w); [|done]. by rewrite lookup_insert_ne.
    + intros e q bl [He| ->%list_elem_of_singleton]%elem_of_app ??; [by eapply Hw1|done].
Qed.

(** Wraps for other epochs leave a node alone. *)
Lemma wrap_fold_other self secret m ws id :
  (∀ e, e ∈ ws → k_epoch_id e ≠ id) → foldl (wrap_step self secret) m ws !! id = m !! id.
Proof.
  intros Hw. induction ws as [|w ws IH] using rev_ind; [done|]. rewrite foldl_snoc.
  rewrite <-IH by (intros e He; apply Hw; set_solver). unfold wrap_step.
  destruct (k_body w); [done|]. destruct (_ !! k_epoch_id w); [|done].
  apply lookup_insert_ne, Hw. set_solver.
Qed.

Lemma rotate_fold_wraps m ws :
  (∀ e, e ∈ ws → ∃ r blob, k_body e = Wrap r blob) → foldl rotate_step m ws = m.
Proof.
  revert m. induction ws as [|w ws IH]; intros m Hw; [done|]. simpl.
  destruct (Hw w) as (r&blob&Hb); [set_solver|]. unfold rotate_step at 2. rewrite Hb.
  apply IH. intros e He. apply Hw. set_solver.
Qed.

(** Back-fill reaches a fixed point in one round. Once every target has been
    published as a wrap (and only wraps of target epochs were), the rebuilt
    keychain has no targets left: every active member has a wrap of every epoch
    this device can open. *)
Theorem backfill_converges id_key k0 self secret entries ws roster :
  let kc := build id_key k0 self secret entries in
  (∀ e, e ∈ ws → ∃ k p blob, (k_epoch_id e, k, p) ∈ backfill_targets kc roster ∧
                   k_body e = Wrap (Device p) blob) →
  (∀ id k p, (id, k, p) ∈ backfill_targets kc roster →
     ∃ e blob, e ∈ ws ∧ k_epoch_id e = id ∧ k_body e = Wrap (Device p) blob) →
  backfill_targets (build id_key k0 self secret (entries ++ ws)) roster = [].
Proof.
  intros kc Hsound Hcompl.
  set (kc' := build id_key k0 self secret (entries ++ ws)).
  assert (kc_epochs kc' = foldl (wrap_step self secret) (kc_epochs kc) ws) as Hep.
  { unfold kc', kc, build. simpl. rewrite !foldl_app. do 2 f_equal. apply rotate_fold_wraps.
    intros e (k1&p1&bl&_&Hb)%Hsound. eauto. }
  destruct (backfill_targets kc' roster) as [|[[id k] p] l] eqn:Et; [done|]. exfalso.
  assert ((id, k, p) ∈ backfill_targets kc' roster) as Hin by (rewrite Et; set_solver).
  apply elem_of_targets in Hin as (Hid&Hact&node&Hn&Hk&Hp). rewrite Hep in Hn.
  destruct (decide (Exists (λ e, k_epoch_id e = id) ws)) as [(e&He&Hei)%Exists_exists|Hno];
    [|rewrite Exists_exists in Hno].
  - destruct (Hsound e He) as (k1&p1&blob&Ht&Hb). rewrite Hei in Ht.
    apply elem_of_targets in Ht as (_&_&n1&Hn1&Hk1&_).
    destruct (wrap_fold_held self secret (kc_epochs kc) ws id n1 k1 Hn1 Hk1)
      as (n2&Hn2&Hk2&Hsub&Hall). rewrite Hn in Hn2. injection Hn2 as <-.
    destruct (Hcompl id k1 p) as (e2&bl2&He2&Hi2&Hb2).
    { apply elem_of_targets. split_and!; [done|done|]. exists n1. split_and!; try done.
      intros Hin. by apply Hp, Hsub. }
    by apply Hp, (Hall e2 p bl2).
  - rewrite wrap_fold_other in Hn by naive_solver.
    destruct (Hcompl id k p) as (e&blob&He&Hi&_); [|by destruct Hno; eauto].
    apply elem_of_targets. by eauto 10.
Qed.
End backfill.

(** ** A rotation joins every branch *)
Section heads.
Context `{Crypto}.

Lemma leaves_singleton m id : (∀ x, is_leaf m x ↔ x = id) → leaves m = [id].
Proof.
  intros Hl. apply Permutation_singleton_r, NoDup_Permutation.
  - unfold leaves. apply NoDup_filter. apply btree_NoDup.
  - apply NoDup_singleton.
  - intros x. rewrite elem_of_leaves, Hl. set_solver.
Qed.

(** The same announcements have the same leaves. *)
Lemma is_leaf_announced m1 m2 x :
  (∀ id, announced_as <$> m1 !! id = announced_as <$> m2 !! id) → is_leaf m1 x → is_leaf m2 x.
Proof.
  intros Heq [Hs Hp]. split.
  - rewrite <-(fmap_is_Some announced_as), <-Heq. by apply fmap_is_Some.
  - intros id' node Hm. specialize (Heq id'). rewrite Hm in Heq. simpl in Heq.
    destruct (m1 !! id') as [n1|] eqn:E1; [|done]. injection Heq as Hpar _ _. rewrite <-Hpar. by eapply Hp.
Qed.

Lemma genesis_known id_key0 k0 self secret entries :
  is_Some (kc_epochs (build id_key0 k0 self secret entries) !! EPOCH0_ID).
Proof.
  rewrite <-(fmap_is_Some announced_as), build_announced, fmap_is_Some.
  apply rotate_pass_dom. by left.
Qed.

Lemma dag_heads_known id_key0 k0 self secret entries x :
  let kc := build id_key0 k0 self secret entries in
  x ∈ dag_heads kc → is_Some (kc_epochs kc !! x).
Proof.
  intros kc. unfold dag_heads. destruct (leaves (kc_epochs kc)) as [|h ls] eqn:El.
  - intros ->%list_elem_of_singleton. apply genesis_known.
  - rewrite <-El. intros Hx%elem_of_leaves. by destruct Hx.
Qed.

(** The rotate pass over one fresh announcement followed by wraps. *)
Lemma rotate_pass_fresh k0 entries e parents nonce ws :
  foldl rotate_step (genesis k0) entries !! k_epoch_id e = None → k_body e = Rotate parents nonce →
  (∀ w, w ∈ ws → ∃ r blob, k_body w = Wrap r blob) →
  foldl rotate_step (genesis k0) (entries ++ e :: ws) =
  <[k_epoch_id e := mkEpochNode parents (k_author e) nonce None ∅ false]>
    (foldl rotate_step (genesis k0) entries).
Proof.
  intros Hn He Hw. rewrite foldl_app. simpl. rewrite rotate_fold_wraps by done.
  unfold rotate_step at 1. by rewrite He, Hn.
Qed.

(** A rotation joins every branch. When an admin announces a fresh epoch whose
    parents are all the current heads, the rebuilt DAG has that epoch as its only
    leaf, so it is everyone's next write head, however many concurrent rotations
    there were before. *)
Theorem rotation_merges_heads id_key0 k0 self secret entries e nonce ws :
  let kc := build id_key0 k0 self secret entries in
  let kc' := build id_key0 k0 self secret (entries ++ e :: ws) in
  k_body e = Rotate (dag_heads kc) nonce → (∀ w, w ∈ ws → ∃ r blob, k_body w = Wrap r blob) →
  kc_epochs kc !! k_epoch_id e = None →
  (∀ x node, kc_epochs kc !! x = Some node → k_epoch_id e ∉ n_parents node) →
  dag_heads kc' = [k_epoch_id e] ∧ kc_head kc' = k_epoch_id e.
Proof.
  intros kc kc' He Hw Hnew Hpar. set (id := k_epoch_id e) in *.
  set (m0 := foldl rotate_step (genesis k0) entries).
  assert (∀ x, announced_as <$> kc_epochs kc !! x = announced_as <$> m0 !! x) as Ha.
  { intros x. apply build_announced. }
  assert (m0 !! id = None) as Hm0.
  { specialize (Ha id). rewrite Hnew in Ha. by destruct (m0 !! id). }
  set (m1 := <[id := mkEpochNode (dag_heads kc) (k_author e) nonce None ∅ false]> m0).
  assert (∀ x, announced_as <$> kc_epochs kc' !! x = announced_as <$> m1 !! x) as Ha'.
  { intros x. unfold kc'. rewrite build_announced. unfold m1, m0.
    by rewrite (rotate_pass_fresh k0 entries e (dag_heads kc) nonce ws). }
  assert (∀ x, is_leaf m1 x ↔ x = id) as Hleaf.
  { intros x. split.
    - intros [Hx Hnp]. destruct (decide (x = id)) as [|Hne]; [done|]. exfalso.
      apply (Hnp id _ (lookup_insert_eq _ _ _)). simpl.
      assert (is_leaf (kc_epochs kc) x) as Hlx.
      { apply (is_leaf_announced m0); [intros y; by rewrite Ha|].
        split; [unfold m1 in Hx; rewrite lookup_insert_ne in Hx by congruence; done|].
        intros y node Hy. apply (Hnp y). unfold m1. rewrite lookup_insert_ne; [done|]. congruence. }
      unfold dag_heads. apply elem_of_leaves in Hlx.
      destruct (leaves (kc_epochs kc)); [by apply elem_of_nil in Hlx|done].
    - intros ->. split; [unfold m1; rewrite lookup_insert_eq; by eexists|].
      intros y node. unfold m1. rewrite lookup_insert. case_decide as Hy.
      + intros [= <-]. simpl. intros Hin%dag_heads_known. fold kc in Hin. rewrite Hnew in Hin.
        by destruct Hin.
      + intros Hm. specialize (Ha y). rewrite Hm in Ha.
        destruct (kc_epochs kc !! y) as [n|] eqn:Ey; [|done]. injection Ha as Hp _ _.
        rewrite <-Hp. by eapply Hpar. }
  assert (leaves (kc_epochs kc') = [id]) as Hls.
  { apply leaves_singleton. intros x. rewrite <-Hleaf.
    split; apply is_leaf_announced; intros y; by rewrite Ha'. }
  unfold dag_heads. rewrite Hls. split; [done|].
  change (kc_head kc') with (select_head (kc_epochs kc')). unfold select_head. by rewrite Hls.
Qed.

(** ** A wrap delivers the key *)
Lemma wrap_node_key_kept self secret id r blob node :
  is_Some (n_key node) → is_Some (n_key (wrap_node self secret id r blob node)).
Proof.
  intros [k Hk]. destruct r as [p|]; simpl; rewrite Hk; [|by eexists].
  rewrite (bool_decide_eq_false_2 (Some k = None)), andb_false_r by done. by eexists.
Qed.

Lemma wrap_pass_key_kept self secret es m id node :
  m !! id = Some node → is_Some (n_key node) →
  ∃ node', foldl (wrap_step self secret) m es !! id = Some node' ∧ is_Some (n_key node').
Proof.
  intros Hm Hk. induction es as [|e es IH] using rev_ind; [by exists node|].
  destruct IH as (n&Hn&Hkn). rewrite foldl_snoc. unfold wrap_step at 1.
  destruct (k_body e) as [|r blob]; [by exists n|].
  destruct (decide (k_epoch_id e = id)) as [<-|Hne].
  - rewrite Hn. eexists. split; [apply lookup_insert_eq|]. by apply wrap_node_key_kept.
  - destruct (_ !! k_epoch_id e); [|by exists n]. exists n. by rewrite lookup_insert_ne.
Qed.

Lemma wrap_pass_delivers self secret es m id a e blob k :
  announced_as <$> m !! id = Some a → e ∈ es → k_epoch_id e = id →
  k_body e = Wrap (Device self) blob → unwrap secret blob = Ok k →
  (let '(parents, author, nonce) := a in compute_epoch_id parents author nonce k = id) →
  ∃ node, foldl (wrap_step self secret) m es !! id = Some node ∧ is_Some (n_key node).
Proof.
  intros Ha (l1&l2&->)%list_elem_of_split Hid Hb Hu Hc. rewrite foldl_app. simpl.
  set (m1 := foldl (wrap_step self secret) m l1).
  assert (announced_as <$> m1 !! id = Some a) as Ha1 by (by unfold m1; rewrite wrap_pass_announced).
  destruct (m1 !! id) as [n|] eqn:En; [|done]. injection Ha1 as <-.
  eapply wrap_pass_key_kept.
  - unfold wrap_step. rewrite Hb, Hid, En. apply lookup_insert_eq.
  - simpl. destruct (n_key n) as [k'|] eqn:Ek.
    + rewrite (bool_decide_eq_false_2 (Some k' = None)), andb_false_r by done. by eexists.
    + rewrite !bool_decide_eq_true_2 by done. simpl. rewrite Hu, decide_True by done. by eexists.
Qed.

(** The member holds a key with the hash the id commits to. *)
Lemma wrap_delivers id_key0 k0 self secret entries e blob parents author nonce k :
  let id := compute_epoch_id parents author nonce k in
  rotates entries id (parents, author, nonce) →
  (∀ a, rotates entries id a → a = (parents, author, nonce)) →
  id ≠ EPOCH0_ID → e ∈ entries → k_epoch_id e = id → k_body e = Wrap (Device self) blob →
  unwrap secret blob = Ok k →
  ∃ k', epoch_key (build id_key0 k0 self secret entries) id = Some k' ∧
        compute_epoch_id parents author nonce k' = id.
Proof.
  intros id Hrot Hfun Hid He Hei Hb Hu.
  assert (announced_as <$> foldl rotate_step (genesis k0) entries !! id = Some (parents, author, nonce)) as Ha.
  { destruct (proj2 (rotate_pass_dom k0 entries id)) as [n Hn]; [by eauto|]. rewrite Hn. simpl. f_equal.
    apply rotate_pass_Some in Hn as [[? _]|(_&_&_&_&Hr)]; [done|by apply Hfun]. }
  destruct (wrap_pass_delivers self secret entries _ id _ e blob k Ha) as (n&Hn&[k' Hk']); try done.
  exists k'. split; [unfold epoch_key, build; simpl; by rewrite Hn|].
  destruct (build_committed id_key0 k0 self secret entries id n Hn Hid k' Hk') as [Hc _].
  pose proof Hn as Hn'. apply (f_equal (fmap announced_as)) in Hn'.
  rewrite wrap_pass_announced, Ha in Hn'. simpl in Hn'. injection Hn' as -> -> ->. exact Hc.
Qed.
End heads.
