(* ===== verification/Blob.v ===== *)
(** * Blob: the content-addressed store (crates/roam-storage/src/blob.rs)

    [BlobStore] over any filesystem backend: storing, reading back with
    verification, removal, listing, ranges, and the chunked reception of a blob
    through [incoming/<hash>.part].  The store's only state is its directory, so
    each operation takes the root and acts on the filesystem; BLAKE3 is the
    interface [Crypto]. *)
From S2P Require Import Prelude RustStr Vfs Roster Wire Keychain.
From Stdlib Require Import Strings.Byte.

(** ** Hashes *)
Definition HASH_HEX_LEN : nat := 64.

(** [Hash::to_hex]: two lowercase digits per byte *)
Definition hex_digit (n : N) : rchar := if (n <? 10)%N then (48 + n)%N else (87 + n)%N.
Definition to_hex (b : bytes) : rstring :=
  b ≫= λ x, [hex_digit (Byte.to_N x / 16); hex_digit (Byte.to_N x mod 16)].

Definition is_valid_hash (hash : rstring) : bool :=
  let b := Byte.to_N <$> utf8 hash in
  bool_decide (length b = HASH_HEX_LEN) &&
  forallb (λ c, ((48 <=? c) && (c <=? 57)) || ((97 <=? c) && (c <=? 102)))%N b.

Definition blob_hash `{Crypto} (b : bytes) : rstring := to_hex (blake3 b).

(** ** Operations *)
Section blob.
Context `{Crypto} {Fs : Type} `{VaultFs Fs}.
Variable root : path.

Definition blob_open : SM Fs StorageError unit := io (fs_create_dir_all root).

Definition blob_path (hash : rstring) : result StorageError path :=
  if is_valid_hash hash then Ok (root ++ [hash]) else Err Blob.

Definition incoming_dir : path := root ++ [str "incoming"].
Definition part_path (hash : rstring) : path := incoming_dir ++ [hash ++ str ".part"].
Definition temp_path (hash : rstring) : path := root ++ [hash ++ str ".tmp"].

(** [let _ = fs.remove_file(p);] *)
Definition remove_quietly (p : path) (f : Fs) : Fs := (fs_remove_file p f).2.

Definition blob_put (b : bytes) : SM Fs StorageError rstring := λ f,
  let hash := blob_hash b in
  let p := root ++ [hash] in
  if fs_exists p f then (Ok hash, f)
  else
    match fs_write (temp_path hash) b f with
    | (Err e, f) => (Err (Io e), f)
    | (Ok _, f) =>
        match fs_rename (temp_path hash) p f with
        | (Ok _, f) => (Ok hash, f)
        | (Err e, f) => (Err (Io e), remove_quietly (temp_path hash) f)
        end
    end.

Definition blob_get (hash : rstring) (f : Fs) : result StorageError (option bytes) :=
  p ← blob_path hash;
  match fs_read p f with
  | Ok b => if decide (blob_hash b = hash) then Ok (Some b) else Err Blob
  | Err NotFound => Ok None
  | Err e => Err (Io e)
  end.

Definition blob_has (hash : rstring) (f : Fs) : bool :=
  match blob_path hash with Ok p => fs_exists p f | Err _ => false end.

(** [match fs.remove_file(p) { Err(NotFound) => Ok(()), .. }] *)
Definition remove_if_present (p : path) : SM Fs StorageError unit := λ f,
  match fs_remove_file p f with
  | (Ok _, f) | (Err NotFound, f) => (Ok tt, f)
  | (Err e, f) => (Err (Io e), f)
  end.

Definition blob_remove (hash : rstring) : SM Fs StorageError unit :=
  p ← sm_lift (blob_path hash); remove_if_present p.

Definition blob_list (f : Fs) : result StorageError (list rstring) :=
  map_err Io (fs_read_dir root f) ≫= λ es : list path,
    mret (filter (λ n, is_valid_hash n = true) (omap last es)).

Definition blob_size (hash : rstring) (f : Fs) : result StorageError (option u64) :=
  p ← blob_path hash;
  match fs_file_len p f with
  | Ok n => Ok (Some (N.of_nat n))
  | Err NotFound => Ok None
  | Err e => Err (Io e)
  end.

Definition blob_read_range (hash : rstring) (offset : u64) (len : nat) (f : Fs)
    : result StorageError bytes :=
  p ← blob_path hash; map_err Io (fs_read_range p (N.to_nat offset) len f).

Definition write_incoming_chunk (hash : rstring) (offset total_len : u64) (b : bytes)
    : SM Fs StorageError unit :=
  if negb (is_valid_hash hash) then sm_fail Blob
  else
    end_ ← sm_lift (ok_or (checked_add offset (N.of_nat (length b))) Blob);
    if (total_len <? end_)%N then sm_fail Blob
    else
      _ ← io (fs_create_dir_all incoming_dir);
      let part := part_path hash in
      f ← sm_get;
      _ ← (if fs_exists part f then
             pinned ← sm_lift (map_err Io (fs_file_len part f));
             if decide (N.of_nat pinned ≠ total_len) then sm_fail Blob else mret tt
           else io (fs_create_sized part (N.to_nat total_len)));
      io (fs_write_range part (N.to_nat offset) b).

Definition finalize_incoming (hash : rstring) : SM Fs StorageError bool := λ f,
  if negb (is_valid_hash hash) then (Err Blob, f)
  else
    let part := part_path hash in
    match fs_read part f with
    | Err NotFound => (Ok false, f)
    | Err e => (Err (Io e), f)
    | Ok b =>
        if decide (blob_hash b ≠ hash) then (Ok false, remove_quietly part f)
        else
          match fs_rename part (root ++ [hash]) f with
          | (Ok _, f) => (Ok true, f)
          | (Err _, f) =>
              let '(written, f) := fs_write (root ++ [hash]) b f in
              let f := remove_quietly part f in
              match written with Ok _ => (Ok true, f) | Err e => (Err (Io e), f) end
          end
    end.

Definition discard_incoming (hash : rstring) : SM Fs StorageError unit :=
  if negb (is_valid_hash hash) then sm_fail Blob else remove_if_present (part_path hash).
End blob.

(** ** Hex *)
Definition is_hex (c : N) : bool := (((48 <=? c) && (c <=? 57)) || ((97 <=? c) && (c <=? 102)))%N.

Lemma hex_digit_hex n : (n < 16)%N → is_hex (hex_digit n) = true.
Proof. intros Hn. unfold is_hex, hex_digit. destruct (N.ltb_spec n 10); lia. Qed.
Lemma hex_digit_inj a b : (a < 16)%N → (b < 16)%N → hex_digit a = hex_digit b → a = b.
Proof. intros ??. unfold hex_digit. destruct (N.ltb_spec a 10), (N.ltb_spec b 10); lia. Qed.

Lemma byte_nibbles (x : byte) : (Byte.to_N x / 16 < 16)%N ∧ (Byte.to_N x mod 16 < 16)%N.
Proof.
  pose proof (to_N_bound x). split; [|by apply N.mod_lt].
  apply N.Div0.div_lt_upper_bound. lia.
Qed.

Lemma length_to_hex b : length (to_hex b) = 2 * length b.
Proof. unfold to_hex. induction b as [|x b IH]; [done|]. csimpl. rewrite IH. lia. Qed.
Lemma to_hex_hex b : Forall (λ c, is_hex c = true) (to_hex b).
Proof.
  unfold to_hex. induction b as [|x b IH]; [constructor|]. csimpl.
  destruct (byte_nibbles x). do 2 (constructor; [by apply hex_digit_hex|]). done.
Qed.
Lemma to_hex_inj a b : to_hex a = to_hex b → a = b.
Proof.
  revert b. induction a as [|x a IH]; intros [|y b]; try done. unfold to_hex in *. csimpl.
  destruct (byte_nibbles x), (byte_nibbles y).
  intros [= Hd%hex_digit_inj Hm%hex_digit_inj Ht]; [|done..]. f_equal; [|by apply IH].
  apply to_N_inj. rewrite (N.div_mod (Byte.to_N x) 16), (N.div_mod (Byte.to_N y) 16) by done. by rewrite Hd, Hm.
Qed.

(** Hex text is ASCII: its bytes are its characters. *)
Lemma utf8_hex s : Forall (λ c, is_hex c = true) s → Byte.to_N <$> utf8 s = s.
Proof.
  induction 1 as [|c s Hc _ IH]; [done|]. unfold utf8 in *. csimpl. rewrite fmap_app, IH.
  unfold is_hex in Hc. unfold utf8_char. replace (c <? 128)%N with true by lia. csimpl. f_equal.
  rewrite to_N_byte_of_N. apply N.mod_small. lia.
Qed.
Lemma valid_hex s : Forall (λ c, is_hex c = true) s → length s = HASH_HEX_LEN → is_valid_hash s = true.
Proof.
  intros Hs Hl. unfold is_valid_hash. rewrite (utf8_hex s Hs), bool_decide_eq_true_2 by done. simpl.
  apply forallb_forall. intros c Hc%list_elem_of_In. by apply (proj1 (Forall_forall _ _) Hs).
Qed.
(** A valid hash is no temporary name, whatever hash that belongs to. *)
Lemma valid_not_temp h h' : is_valid_hash h = true → is_valid_hash h' = true → h ≠ h' ++ str ".tmp".
Proof.
  unfold is_valid_hash. rewrite !andb_true_iff, !bool_decide_eq_true, !length_fmap.
  intros [H1 _] [H2 _] ->. unfold utf8 in H1. rewrite bind_app, length_app in H1. unfold utf8 in H2.
  rewrite H2 in H1. vm_compute in H1. discriminate H1.
Qed.

(** ** Listing *)
Lemma blob_list_spec {Fs} `{VaultFsLaws Fs} root (f : Fs) hs :
  fs_inv f → blob_list root f = Ok hs →
  NoDup hs ∧ Forall (λ h, is_valid_hash h = true) hs ∧
  ∀ h, is_valid_hash h = true → is_Some (files f !! (root ++ [h])) → h ∈ hs.
Proof.
  intros Hinv. unfold blob_list. destruct (fs_read_dir root f) as [es|] eqn:E; [simpl|done]. intros [= <-].
  destruct (fs_read_dir_spec root es f Hinv E) as (Hnd&Hform&Hall). split_and!.
  - apply NoDup_filter. clear E Hall. induction Hnd as [|q es Hq Hnd IH]; [constructor|]. csimpl.
    destruct (Hform q) as [n ->]; [apply elem_of_cons; by left|]. rewrite last_snoc. constructor.
    + intros (q'&Hq'&Hl)%list_elem_of_omap. destruct (Hform q') as [n' ->]; [apply elem_of_cons; by right|].
      rewrite last_snoc in Hl. by injection Hl as ->.
    + apply IH. intros q' Hq'. apply Hform, elem_of_cons. by right.
  - apply Forall_forall. by intros h [? _]%list_elem_of_filter.
  - intros h Hv Hs. apply list_elem_of_filter. split; [done|]. apply list_elem_of_omap.
    exists (root ++ [h]). split; [by apply Hall|by rewrite last_snoc].
Qed.

(** ** Effects on the file map *)
Section blob_laws.
Context `{CryptoLaws} {Fs : Type} `{VaultFsLaws Fs}.
Variable root : path.
Implicit Types (f : Fs) (h : rstring) (b : bytes).

Lemma blob_hash_valid b : is_valid_hash (blob_hash b) = true.
Proof.
  apply valid_hex; [apply to_hex_hex|]. unfold blob_hash. by rewrite length_to_hex, blake3_len.
Qed.

(** The backend can name the files of the blob [h]. *)
Definition blob_paths h : Prop :=
  fs_path (root ++ [h]) ∧ fs_path (temp_path root h) ∧ fs_path (part_path root h).

(** Every stored blob hashes to its name. *)
Definition blobs_intact f : Prop :=
  ∀ h b, is_valid_hash h = true → files f !! (root ++ [h]) = Some b → blob_hash b = h.

Lemma temp_not_blob h h' : is_valid_hash h = true → is_valid_hash h' = true → temp_path root h ≠ root ++ [h'].
Proof. intros Hh Hh' Heq%app_inv_head. injection Heq. intros E. by apply (valid_not_temp h' h). Qed.
Lemma part_not_blob h h' : part_path root h ≠ root ++ [h'].
Proof. unfold part_path, incoming_dir. rewrite <-(assoc_L (++)). by intros Heq%app_inv_head. Qed.
Lemma blob_inj h h' : root ++ [h] = root ++ [h'] → h = h'.
Proof. intros Heq%app_inv_head. by injection Heq. Qed.

Lemma remove_quietly_files p f :
  fs_inv f → fs_path p → fs_inv (remove_quietly p f) ∧ files (remove_quietly p f) = delete p (files f).
Proof.
  intros Hinv Hp. unfold remove_quietly. pose proof (fs_remove_file_spec p f Hinv Hp) as Hr.
  destruct (fs_remove_file p f) as [r f']. destruct Hr as [? Hr]. split; [done|]. simpl.
  destruct (files f !! p) eqn:E; destruct Hr as [_ ->]; [done|]. by rewrite delete_id.
Qed.
Lemma remove_if_present_files p f r f' :
  fs_inv f → fs_path p → remove_if_present p f = (r, f') →
  fs_inv f' ∧ files f' = delete p (files f) ∧ r = Ok tt.
Proof.
  intros Hinv Hp. unfold remove_if_present. pose proof (fs_remove_file_spec p f Hinv Hp) as Hr.
  destruct (fs_remove_file p f) as [r1 f1]. destruct Hr as [? Hr].
  destruct (files f !! p) eqn:E; destruct Hr as [-> Hf]; intros [= <- <-]; [done|]. by rewrite Hf, delete_id.
Qed.

(** [put] changes at most its temporary file and the blob's own file, and the
    latter only to the bytes stored. *)
Lemma blob_put_files b f r f' :
  fs_inv f → blob_paths (blob_hash b) → blob_put root b f = (r, f') →
  let p := root ++ [blob_hash b] in
  fs_inv f' ∧
  (∀ q, q ≠ p → q ≠ temp_path root (blob_hash b) → files f' !! q = files f !! q) ∧
  (files f' !! p = files f !! p ∨ files f' !! p = Some b) ∧
  (∀ h, r = Ok h → h = blob_hash b ∧ (fs_exists p f = true ∧ f' = f ∨ files f' !! p = Some b)).
Proof.
  intros Hinv (Hp&Ht&_). unfold blob_put. set (h := blob_hash b) in *. set (p := root ++ [h]) in *.
  set (t := temp_path root h) in *.
  assert (t ≠ p) as Hne by (apply temp_not_blob; apply blob_hash_valid). simpl.
  destruct (fs_exists p f) eqn:Ex.
  { intros [= <- <-]. split_and!; [done|done|by left|]. intros h' [= <-]. split; [done|by left]. }
  pose proof (fs_write_spec t b f Hinv Ht) as Hw. destruct (fs_write t b f) as [[[]|e] f1];
    destruct Hw as [Hinv1 Hf1]; simpl in Hf1.
  2:{ intros [= <- <-]. rewrite Hf1. split_and!; [done|done|by left|done]. }
  pose proof (fs_rename_spec t p f1 Hinv1 Ht Hp Hne) as Hr. destruct (fs_rename t p f1) as [[[]|e] f2];
    destruct Hr as [Hinv2 Hf2]; rewrite Hf1, lookup_insert_eq in Hf2; simpl in Hf2.
  - intros [= <- <-]. split_and!; [done| |right; by rewrite Hf2, lookup_insert_eq|].
    + intros q Hqp Hqt. by rewrite Hf2, lookup_insert_ne, lookup_delete_ne, lookup_insert_ne.
    + intros h' [= <-]. split; [done|right]. by rewrite Hf2, lookup_insert_eq.
  - destruct (remove_quietly_files t f2 Hinv2 Ht) as [Hinv3 Hf3]. intros [= <- <-].
    rewrite Hf3, Hf2. split_and!; [done| |left|done].
    + intros q Hqp Hqt. by rewrite lookup_delete_ne, lookup_insert_ne.
    + by rewrite lookup_delete_ne, lookup_insert_ne.
Qed.

(** A chunk changes at most the part file: refused, it leaves every file alone
    or, if creating the part file was possible, never touches an existing one;
    accepted, it splices its bytes into a file of exactly [total] bytes. *)
Lemma chunk_files h off total b f r f' :
  fs_inv f → blob_paths h → write_incoming_chunk root h off total b f = (r, f') →
  let part := part_path root h in
  fs_inv f' ∧
  match r with
  | Err _ => files f' = files f
  | Ok _ =>
      is_valid_hash h = true ∧ (off + N.of_nat (length b) ≤ total)%N ∧
      ∃ l, length l = N.to_nat total ∧
        (files f !! part = Some l ∨ files f !! part = None ∧ l = replicate (N.to_nat total) Byte.x00) ∧
        files f' = <[part := splice (N.to_nat off) b l]> (files f)
  end.
Proof.
  intros Hinv (_&_&Hp). unfold write_incoming_chunk. destruct (is_valid_hash h); [simpl|by intros [= <- <-]].
  unfold mbind at 1, SM_bind, sm_lift. unfold checked_add. case_decide; [simpl|by intros [= <- <-]].
  destruct (N.ltb_spec total (off + N.of_nat (length b))) as [|Hle]; [by intros [= <- <-]|].
  unfold mbind at 1, SM_bind, io at 1, sm_map_err at 1.
  pose proof (fs_create_dir_all_spec (incoming_dir root) f Hinv) as Hd.
  destruct (fs_create_dir_all (incoming_dir root) f) as [r1 f1]. destruct Hd as (->&Hinv1&Hf1). simpl.
  set (part := part_path root h) in *. unfold mbind at 1, SM_bind, sm_get. unfold mbind at 1, SM_bind.
  destruct (fs_exists_spec part f1 Hinv1) as [Hex1 _]. destruct (fs_exists part f1) eqn:Ex.
  - rewrite fs_file_len_spec by done. rewrite Hf1. destruct (files f !! part) as [l|] eqn:El; simpl.
    2:{ intros [= <- <-]. by rewrite Hf1. }
    unfold mbind, SM_bind. case_decide as Hl; [intros [= <- <-]; by rewrite Hf1|]. simpl.
    unfold io, sm_map_err. pose proof (fs_write_range_spec part (N.to_nat off) b f1 Hinv1 Hp) as Hw.
    destruct (fs_write_range part (N.to_nat off) b f1) as [r2 f2]. rewrite Hf1, El in Hw.
    destruct Hw as (Hinv2&->&Hf2). simpl. intros [= <- <-]. split_and!; try done.
    exists l. split_and!; [lia|by left|done].
  - assert (files f !! part = None) as El.
    { rewrite <-Hf1. destruct (files f1 !! part) eqn:E; [|done]. discriminate Hex1; by eexists. }
    unfold io, sm_map_err. pose proof (fs_create_sized_spec part (N.to_nat total) f1 Hinv1 Hp) as Hc.
    destruct (fs_create_sized part (N.to_nat total) f1) as [[[]|e] f2]; destruct Hc as [Hinv2 Hf2]; simpl in *.
    2:{ intros [= <- <-]. by rewrite Hf2, Hf1. }
    pose proof (fs_write_range_spec part (N.to_nat off) b f2 Hinv2 Hp) as Hw.
    destruct (fs_write_range part (N.to_nat off) b f2) as [r3 f3].
    rewrite Hf2, lookup_insert_eq in Hw. destruct Hw as (Hinv3&->&Hf3). simpl. intros [= <- <-].
    split_and!; try done. exists (replicate (N.to_nat total) Byte.x00).
    split_and!; [apply length_replicate|by right|]. by rewrite Hf3, insert_insert_eq, Hf1.
Qed.

(** Finalizing either publishes verified bytes under their hash or publishes
    nothing; in both cases no other blob changes. *)
Lemma finalize_files h f r f' :
  fs_inv f → blob_paths h → finalize_incoming root h f = (r, f') →
  let p := root ++ [h] in let part := part_path root h in
  fs_inv f' ∧ (∀ q, q ≠ p → q ≠ part → files f' !! q = files f !! q) ∧
  (files f' !! p = files f !! p ∨ ∃ b, files f !! part = Some b ∧ blob_hash b = h ∧ files f' !! p = Some b) ∧
  (∀ b, files f !! part = Some b → blob_hash b = h → ∀ v, r = Ok v →
     v = true ∧ files f' !! p = Some b ∧ files f' !! part = None).
Proof.
  intros Hinv (Hp&_&Ht). unfold finalize_incoming. destruct (is_valid_hash h) eqn:Hv; simpl.
  2:{ intros [= <- <-]. split_and!; [done|done|by left|]. intros b _ Hb. rewrite <-Hb, blob_hash_valid in Hv. done. }
  set (p := root ++ [h]) in *. set (part := part_path root h) in *.
  assert (part ≠ p) as Hne by apply part_not_blob. rewrite fs_read_spec by done.
  destruct (files f !! part) as [b|] eqn:Eb; simpl.
  2:{ intros [= <- <-]. split_and!; [done|done|by left|done]. }
  case_decide as Hb; [|].
  { destruct (remove_quietly_files part f Hinv Ht) as [Hi Hf]. intros [= <- <-]. rewrite Hf.
    split_and!; [done| |left; by rewrite lookup_delete_ne|congruence].
    intros q _ Hq. by rewrite lookup_delete_ne. }
  pose proof (fs_rename_spec part p f Hinv Ht Hp Hne) as Hr. rewrite Eb in Hr.
  destruct (fs_rename part p f) as [[[]|e] f1]; destruct Hr as [Hinv1 Hf1]; simpl in Hf1.
  - intros [= <- <-]. rewrite Hf1. split_and!; [done| |right; exists b; by rewrite lookup_insert_eq|].
    + intros q Hqp Hq. by rewrite lookup_insert_ne, lookup_delete_ne.
    + intros b' [= <-] _ v [= <-]. by rewrite lookup_insert_eq, lookup_insert_ne, lookup_delete_eq.
  - pose proof (fs_write_spec p b f1 Hinv1 Hp) as Hw. destruct (fs_write p b f1) as [w f2].
    destruct Hw as [Hinv2 Hf2]. destruct (remove_quietly_files part f2 Hinv2 Ht) as [Hinv3 Hf3].
    rewrite Hf1 in Hf2. intros Hrun. assert (f' = remove_quietly part f2) as -> by (destruct w; congruence).
    rewrite Hf3, Hf2. destruct w as [[]|e']; injection Hrun as <-; simpl.
    + split_and!; [done| |right; exists b; by rewrite lookup_delete_ne, lookup_insert_eq|].
      * intros q Hqp Hq. by rewrite lookup_delete_ne, lookup_insert_ne.
      * intros b' [= <-] _ v [= <-]. by rewrite lookup_delete_ne, lookup_insert_eq, lookup_delete_eq.
    + split_and!; [done| |left; by rewrite lookup_delete_ne|done].
      intros q Hqp Hq. by rewrite lookup_delete_ne.
Qed.

(** ** Storing and reading back *)

(** What is put can be got. In a store whose blobs are intact, where no
    directory sits at the blob's path, a successful [put] returns the BLAKE3
    hex of the bytes and [get] of that hash then returns bytes with the same
    BLAKE3 hash, exactly the bytes put if the blob was not stored before; the
    store stays intact and no other file but the temporary one changes. *)
Theorem blob_put_get b f h f' :
  fs_inv f → blob_paths (blob_hash b) → blobs_intact f →
  fs_is_dir (root ++ [blob_hash b]) f = false →
  blob_put root b f = (Ok h, f') →
  h = blob_hash b ∧ blobs_intact f' ∧
  (∃ b', blob_get root h f' = Ok (Some b') ∧ blake3 b' = blake3 b ∧
         (files f !! (root ++ [h]) = None → b' = b)) ∧
  (∀ q, q ≠ root ++ [h] → q ≠ temp_path root h → files f' !! q = files f !! q).
Proof.
  intros Hinv Hp Hok Hdir Hrun.
  destruct (blob_put_files b f (Ok h) f' Hinv Hp Hrun) as (Hinv'&Ho&Hb&Hr).
  destruct (Hr h eq_refl) as [-> Hst]. set (p := root ++ [blob_hash b]) in *.
  assert (∃ b', files f' !! p = Some b' ∧ blob_hash b' = blob_hash b ∧ (files f !! p = None → b' = b))
    as (b'&Hf'&Hh&Hnew).
  { destruct Hst as [[Hex ->]|Hs]; [|by exists b].
    apply (fs_exists_spec p f Hinv) in Hex as [[b' Hb']|Hd]; [|by rewrite Hd in Hdir].
    exists b'. split_and!; [done|apply Hok; [apply blob_hash_valid|done]|intros; congruence]. }
  split_and!; [done| |exists b'; split_and!|done].
  - intros h b0 Hv Hl. destruct (decide (h = blob_hash b)) as [->|Hne]; [fold p in Hl; congruence|].
    rewrite Ho in Hl; [by apply Hok| |].
    + by intros Heq%blob_inj.
    + intros Heq. by apply (temp_not_blob (blob_hash b) h); [apply blob_hash_valid| |].
  - unfold blob_get, blob_path. rewrite blob_hash_valid. simpl. rewrite fs_read_spec by done.
    fold p. rewrite Hf'. simpl. by rewrite decide_True.
  - by apply to_hex_inj.
  - done.
Qed.

(** *** Any sequence of operations *)
Inductive blob_op :=
  | OpPut (b : bytes)
  | OpRemove (h : rstring)
  | OpChunk (h : rstring) (off total : u64) (b : bytes)
  | OpFinalize (h : rstring)
  | OpDiscard (h : rstring).
(** The state after the operation, whether it succeeded or failed. *)
Definition run_blob_op f (o : blob_op) : Fs :=
  match o with
  | OpPut b => (blob_put root b f).2
  | OpRemove h => (blob_remove root h f).2
  | OpChunk h off total b => (write_incoming_chunk root h off total b f).2
  | OpFinalize h => (finalize_incoming root h f).2
  | OpDiscard h => (discard_incoming root h f).2
  end.
Definition op_hash (o : blob_op) : rstring :=
  match o with
  | OpPut b => blob_hash b
  | OpRemove h | OpChunk h _ _ _ | OpFinalize h | OpDiscard h => h
  end.

Lemma intact_after_removal f f' :
  (∀ q, files f' !! q = files f !! q ∨ files f' !! q = None) → blobs_intact f → blobs_intact f'.
Proof. intros Hq Hok h b Hv Hl. destruct (Hq (root ++ [h])); [apply Hok; congruence|congruence]. Qed.

Lemma run_blob_op_intact f o :
  fs_inv f → blob_paths (op_hash o) → blobs_intact f →
  fs_inv (run_blob_op f o) ∧ blobs_intact (run_blob_op f o).
Proof.
  intros Hinv Hp Hok. destruct o as [b|h|h off total b|h|h]; simpl in *.
  - destruct (blob_put root b f) as [r f'] eqn:E. destruct (blob_put_files b f r f' Hinv Hp E) as (?&Ho&Hb&_).
    split; [done|]. intros h b0 Hv Hl. destruct (decide (h = blob_hash b)) as [->|Hne].
    + simpl in Hl. destruct Hb as [Hb|Hb]; [apply Hok; [done|congruence]|congruence].
    + simpl in Hl. rewrite Ho in Hl; [by apply Hok|by intros Heq%blob_inj|].
      intros Heq. by apply (temp_not_blob (blob_hash b) h); [apply blob_hash_valid| |].
  - unfold blob_remove, mbind, SM_bind, sm_lift, blob_path. destruct (is_valid_hash h); [|done].
    destruct (remove_if_present (root ++ [h]) f) as [r f'] eqn:E.
    apply remove_if_present_files in E as (?&Hf&_); [|done|apply Hp]. split; [done|].
    apply (intact_after_removal f); [|done]. intros q. simpl. rewrite Hf, lookup_delete.
    case_decide; auto.
  - destruct (write_incoming_chunk root h off total b f) as [r f'] eqn:E.
    apply chunk_files in E as [Hi Hf]; [|done..]. split; [done|]. intros h' b' Hv Hl. simpl in Hl.
    apply Hok; [done|]. destruct r; [|congruence]. destruct Hf as (_&_&l&_&_&Hf).
    rewrite Hf, lookup_insert_ne in Hl; [done|apply part_not_blob].
  - destruct (finalize_incoming root h f) as [r f'] eqn:E.
    apply finalize_files in E as (Hi&Ho&Hb&_); [|done..]. split; [done|]. intros h' b' Hv Hl. simpl in Hl.
    destruct (decide (h' = h)) as [->|Hne].
    + destruct Hb as [Hb|(b&_&?&Hb)]; [apply Hok; [done|congruence]|congruence].
    + rewrite Ho in Hl; [by apply Hok|by intros ?%blob_inj|]. intros Heq. by apply (part_not_blob h h').
  - unfold discard_incoming. destruct (is_valid_hash h); [simpl|done].
    destruct (remove_if_present (part_path root h) f) as [r f'] eqn:E.
    apply remove_if_present_files in E as (?&Hf&_); [|done|apply Hp]. split; [done|].
    apply (intact_after_removal f); [|done]. intros q. simpl. rewrite Hf, lookup_delete.
    case_decide; auto.
Qed.

(** No sequence of store operations, chunks of arbitrary content from
    untrusted senders included and whatever succeeds or fails, makes the store
    hold a blob under a hash that is not its own; so [get] of any hash returns
    bytes with that hash or nothing, never a corruption error. *)
Theorem blobs_stay_intact ops f :
  fs_inv f → (∀ o, o ∈ ops → blob_paths (op_hash o)) → blobs_intact f →
  let f' := foldl run_blob_op f ops in
  blobs_intact f' ∧
  ∀ h, is_valid_hash h = true →
    blob_get root h f' = Ok None ∨ ∃ b, blob_get root h f' = Ok (Some b) ∧ blob_hash b = h.
Proof.
  intros Hinv Hp Hok f'.
  assert (fs_inv f' ∧ blobs_intact f') as [Hinv' Hok'].
  { unfold f'. clear f'. revert f Hinv Hok. induction ops as [|o ops IH]; intros f Hinv Hok; [done|]. simpl.
    destruct (run_blob_op_intact f o) as [??]; [done|apply Hp, elem_of_cons; by left|done|].
    apply IH; [|done..]. intros o' Ho. apply Hp, elem_of_cons. by right. }
  split; [done|]. intros h Hv. unfold blob_get, blob_path. rewrite Hv. simpl. rewrite fs_read_spec by done.
  destruct (files f' !! (root ++ [h])) as [b|] eqn:Eb; [|by left]. right. exists b.
  pose proof (Hok' h b Hv Eb) as Hb. simpl. by rewrite decide_True.
Qed.

(** ** Chunked reception *)
Definition send_chunks h (total : u64) (cs : list (u64 * bytes)) : SM Fs StorageError unit :=
  sm_iter (λ c, write_incoming_chunk root h c.1 total c.2) cs.

(** [c] is a piece of [b] at its offset; position [i] lies in it. *)
Definition chunk_of b (c : u64 * bytes) : Prop :=
  c.2 = take (length c.2) (drop (N.to_nat c.1) b).
Definition in_chunk (c : u64 * bytes) (i : nat) : Prop :=
  N.to_nat c.1 ≤ i < N.to_nat c.1 + length c.2.

Lemma splice_lookup off (c l : bytes) i :
  off + length c ≤ length l →
  splice off c l !! i = if decide (off ≤ i < off + length c) then c !! (i - off) else l !! i.
Proof.
  intros Hl. unfold splice. rewrite resize0_id by done. case_decide as Hi.
  - rewrite lookup_app_r by (rewrite length_take; lia). rewrite length_take, Nat.min_l by lia.
    by rewrite lookup_app_l by lia.
  - destruct (decide (i < off)).
    + rewrite lookup_app_l by (rewrite length_take; lia). by rewrite lookup_take_lt by lia.
    + rewrite lookup_app_r by (rewrite length_take; lia). rewrite length_take, Nat.min_l by lia.
      rewrite lookup_app_r by lia. rewrite lookup_drop. f_equal. lia.
Qed.

(** The part file agrees with [b] wherever one of the chunks [done] has been. *)
Definition filled b (done : list (u64 * bytes)) (l : bytes) : Prop :=
  length l = length b ∧ ∀ c i, c ∈ done → in_chunk c i → l !! i = b !! i.

Lemma filled_splice b done l c :
  filled b done l → chunk_of b c → N.to_nat c.1 + length c.2 ≤ length b →
  filled b (done ++ [c]) (splice (N.to_nat c.1) c.2 l).
Proof.
  intros [Hl Hd] Hc Hle. split; [rewrite length_splice; lia|].
  intros c' i Hin Hi. rewrite splice_lookup by lia. case_decide as Hr.
  - rewrite Hc, lookup_take_lt, lookup_drop by lia. f_equal. lia.
  - apply elem_of_app in Hin as [Hin|Hin]; [by eapply Hd|].
    apply list_elem_of_singleton in Hin as ->. done.
Qed.

Lemma send_chunks_fill b cs : ∀ f f' done l,
  let h := blob_hash b in
  fs_inv f → blob_paths h → Forall (chunk_of b) cs →
  files f !! part_path root h = Some l → filled b done l →
  send_chunks h (N.of_nat (length b)) cs f = (Ok tt, f') →
  fs_inv f' ∧ ∃ l', files f' !! part_path root h = Some l' ∧ filled b (done ++ cs) l'.
Proof.
  induction cs as [|c cs IH]; intros f f' done l h Hinv Hp Hcs Hpart Hl.
  { intros [= <-]. split; [done|]. exists l. by rewrite app_nil_r. }
  apply Forall_cons in Hcs as [Hc Hcs]. unfold send_chunks. cbn [sm_iter]. unfold mbind, SM_bind.
  destruct (write_incoming_chunk _ _ _ _ _ f) as [[[]|e] f1] eqn:E1; [|done].
  apply chunk_files in E1 as [Hinv1 (_&Hle&l0&Hl0&Hor&Hf1)]; [|done..].
  assert (l0 = l) as -> by (destruct Hor as [|[]]; congruence). intros Hrun.
  destruct (IH f1 f' (done ++ [c]) (splice (N.to_nat c.1) c.2 l)) as (?&l'&?&?); try done.
  - by rewrite Hf1, lookup_insert_eq.
  - apply filled_splice; [done..|lia].
  - split; [done|]. exists l'. by rewrite <-(assoc_L (++)) in *.
Qed.

(** A blob arrives whole whatever the order of its chunks. If every chunk
    is a piece of [b] at its offset, together they cover [b], and none is
    refused by the backend, then after writing them in any order, with any
    overlaps and repetitions, [finalize_incoming] (unless the backend fails)
    publishes the blob: it returns [true], [get] returns exactly [b], and the
    part file is gone. *)
Theorem chunks_reassemble b cs f f' f'' v :
  let h := blob_hash b in
  fs_inv f → blob_paths h → files f !! part_path root h = None → cs ≠ [] →
  Forall (chunk_of b) cs → (∀ i, i < length b → ∃ c, c ∈ cs ∧ in_chunk c i) →
  send_chunks h (N.of_nat (length b)) cs f = (Ok tt, f') →
  finalize_incoming root h f' = (Ok v, f'') →
  v = true ∧ blob_get root h f'' = Ok (Some b) ∧ files f'' !! part_path root h = None.
Proof.
  intros h Hinv Hp Hnone Hne Hcs Hcov Hsend Hfin. destruct cs as [|c cs]; [done|].
  unfold send_chunks in Hsend. cbn [sm_iter] in Hsend. unfold mbind, SM_bind in Hsend.
  destruct (write_incoming_chunk _ _ _ _ _ f) as [[[]|e] f1] eqn:E1; [|done].
  apply chunk_files in E1 as [Hinv1 (_&Hle&l0&Hl0&Hor&Hf1)]; [|done..].
  apply Forall_cons in Hcs as [Hc Hcs].
  destruct (send_chunks_fill b cs f1 f' [c] (splice (N.to_nat c.1) c.2 l0)) as (Hinv'&l&Hl&Hlen&Hfill); try done.
  { by rewrite Hf1, lookup_insert_eq. }
  { apply (filled_splice b [] l0 c); [|done|lia]. split; [lia|]. intros ?? Hx. by apply elem_of_nil in Hx. }
  assert (l = b) as ->.
  { apply list_eq. intros i. destruct (decide (i < length b)) as [Hi|Hi].
    - destruct (Hcov i Hi) as (c'&Hc'&Hin). by apply (Hfill c' i).
    - rewrite !lookup_ge_None_2 by lia. done. }
  apply finalize_files in Hfin as (Hinv''&_&_&Hfin); [|done..].
  destruct (Hfin b Hl eq_refl v eq_refl) as (->&Hb&Hpart). split_and!; [done| |done].
  unfold blob_get, blob_path, h. rewrite blob_hash_valid. simpl. rewrite fs_read_spec by done.
  fold h. rewrite Hb. simpl. by rewrite decide_True.
Qed.

(** An in-flight part file is never resized. Whatever chunks arrive for a
    blob (any offsets, lengths and announced totals), once its part file exists
    its length never changes, so a sender that announces another total cannot
    truncate or balloon what an honest one has sent. *)
Theorem part_never_resized h (calls : list (u64 * u64 * bytes)) f l :
  fs_inv f → blob_paths h → files f !! part_path root h = Some l →
  let f' := foldl (λ f c, (write_incoming_chunk root h c.1.1 c.1.2 c.2 f).2) f calls in
  ∃ l', files f' !! part_path root h = Some l' ∧ length l' = length l.
Proof.
  intros Hinv Hp. revert f l Hinv. induction calls as [|c calls IH]; intros f l Hinv Hl; simpl; [by exists l|].
  destruct (write_incoming_chunk root h c.1.1 c.1.2 c.2 f) as [r f1] eqn:E1. simpl.
  apply chunk_files in E1 as [Hinv1 Hf1]; [|done..]. destruct r as [[]|e].
  - destruct Hf1 as (_&Hle&l0&Hl0&Hor&Hf1).
    assert (l0 = l) as -> by (destruct Hor as [|[]]; congruence).
    destruct (IH f1 (splice (N.to_nat c.1.1) c.2 l)) as (l'&?&Hl'); [done|by rewrite Hf1, lookup_insert_eq|].
    exists l'. split; [done|]. rewrite Hl', length_splice. lia.
  - apply IH; [done|congruence].
Qed.
End blob_laws.
