(* ===== verification/Trust.v ===== *)
(** * Trust: which roster logs are believed (crates/roam-storage/src/store.rs)

    [Store::collect_roster_entries]: starting from this device's own key and the
    pinned founder's, read the roster log of every author whose key is known and
    learn the keys it vouches for, until no author is left unread.  The source
    iterates a [HashMap], whose order changes from run to run; [pick] stands for
    that choice and every theorem quantifies over it. *)
From S2P Require Import Prelude RustStr Roster.

Section collect.
(** The choice of the next author among those not read yet. *)
Variable pick : gset u64 → option u64.
(** [VerifyingKey::from_bytes] and the verified reader of one author's log. *)
Variable key_ok : bytes → bool.
Variable read : u64 → bytes → option (list RosterEntry).

(** [trusted.entry(subject).or_insert(key)] for every entry whose subject's id
    derives from the key it carries. *)
Definition learn (trusted : gmap u64 bytes) (es : list RosterEntry) : gmap u64 bytes :=
  foldl (λ m e,
    if decide (derived_peer_id (subject_key e) ≠ subject_peer e) then m
    else match m !! subject_peer e with
         | Some _ => m
         | None => <[subject_peer e := subject_key e]> m
         end) trusted es.

(** The loop; [None] is a loop cut short. *)
Fixpoint collect_loop (fuel : nat) (trusted : gmap u64 bytes) (processed : gset u64)
    (all : list RosterEntry) : option (list RosterEntry) :=
  match fuel with
  | O => None
  | S fuel =>
      match pick (dom trusted ∖ processed) with
      | None => Some all
      | Some author =>
          let processed := {[author]} ∪ processed in
          let key := default [] (trusted !! author) in
          if key_ok key then
            match read author key with
            | Some es => collect_loop fuel (learn trusted es) processed (all ++ es)
            | None => collect_loop fuel trusted processed all
            end
          else collect_loop fuel trusted processed all
      end
  end.
End collect.

(** ** What the loop computes *)
Section closure.
Variable key_ok : bytes → bool.
Variable read : u64 → bytes → option (list RosterEntry).
Variable seeds : gmap u64 bytes.

(** The keys that are believed: the seeds, and every bound key vouched for in
    the log of a believed author. *)
Inductive Believed : u64 → bytes → Prop :=
  | believed_seed a k : seeds !! a = Some k → Believed a k
  | believed_vouched a k es e :
      Believed a k → key_ok k = true → read a k = Some es → e ∈ es → key_bound e →
      Believed (subject_peer e) (subject_key e).

(** The entries of all believed logs. *)
Definition believed_entry (e : RosterEntry) : Prop :=
  ∃ a k es, Believed a k ∧ key_ok k = true ∧ read a k = Some es ∧ e ∈ es.

(** No two believed keys share their first eight bytes. *)
Hypothesis no_collision : ∀ a k k', Believed a k → Believed a k' → k = k'.
(** Finitely many devices are mentioned in the logs. *)
Variable universe : gset u64.
Hypothesis universe_seeds : dom seeds ⊆ universe.
Hypothesis universe_subjects : ∀ a k es e,
  Believed a k → read a k = Some es → e ∈ es → subject_peer e ∈ universe.

Variable pick : gset u64 → option u64.
Hypothesis pick_elem : ∀ s a, pick s = Some a → a ∈ s.
Hypothesis pick_none : ∀ s, pick s = None → s = ∅.

Lemma learn_lookup m es a k :
  learn m es !! a = Some k →
  m !! a = Some k ∨ ∃ e, e ∈ es ∧ key_bound e ∧ subject_peer e = a ∧ subject_key e = k.
Proof.
  unfold learn. revert m. induction es as [|e es IH]; intros m; simpl; [by left|].
  intros Hl. apply IH in Hl as [Hl|(e'&?&?&?&?)]; [|right; exists e'; set_solver].
  case_decide as Hd; [by left|]. destruct (m !! subject_peer e) as [k'|] eqn:Em; [by left|].
  rewrite lookup_insert in Hl. case_decide as Ha; [|by left].
  injection Hl as <-. right. exists e. split_and!; [set_solver| |done|done].
  by symmetry.
Qed.

Lemma learn_mono m es a : is_Some (m !! a) → learn m es !! a = m !! a.
Proof.
  unfold learn. revert m. induction es as [|e es IH]; intros m Hm; simpl; [done|].
  case_decide; [by apply IH|]. destruct (m !! subject_peer e) as [k'|] eqn:Em; [by apply IH|].
  assert (subject_peer e ≠ a) by (intros <-; rewrite Em in Hm; by destruct Hm).
  rewrite IH; rewrite lookup_insert_ne by done; done.
Qed.

Lemma learn_complete m es e :
  e ∈ es → key_bound e → is_Some (learn m es !! subject_peer e).
Proof.
  unfold learn. revert m. induction es as [|x es IH]; intros m He Hb; [by apply elem_of_nil in He|].
  simpl. apply elem_of_cons in He as [<-|He]; [|by apply IH].
  rewrite decide_False by (unfold key_bound in Hb; intros Hd; by apply Hd).
  destruct (m !! subject_peer e) as [k|] eqn:Em.
  - pose proof (learn_mono m es (subject_peer e)) as Hl. unfold learn in Hl. rewrite Hl, Em; by eexists.
  - pose proof (learn_mono (<[subject_peer e := subject_key e]> m) es (subject_peer e)) as Hl.
    unfold learn in Hl. rewrite Hl; rewrite lookup_insert_eq; by eexists.
Qed.

(** The state of the loop after some rounds. *)
Record loop_inv (trusted : gmap u64 bytes) (processed : gset u64) (all : list RosterEntry) : Prop := {
  li_believed a k : trusted !! a = Some k → Believed a k;
  li_seeds a k : seeds !! a = Some k → trusted !! a = Some k;
  li_universe : dom trusted ⊆ universe;
  li_processed : processed ⊆ dom trusted;
  li_all e : e ∈ all ↔ ∃ a k es, a ∈ processed ∧ trusted !! a = Some k ∧ key_ok k = true ∧
                         read a k = Some es ∧ e ∈ es;
  li_closed a k es e : a ∈ processed → trusted !! a = Some k → key_ok k = true →
    read a k = Some es → e ∈ es → key_bound e → is_Some (trusted !! subject_peer e);
}.

Lemma loop_inv_init : loop_inv seeds ∅ [].
Proof.
  split; try done.
  - by apply believed_seed.
  - intros e. split; [by intros ?%elem_of_nil|]. intros (a&k&es&[]%elem_of_empty&_).
Qed.

(** Reading one more author's log keeps the invariant... *)
Lemma loop_inv_read trusted processed all a k es :
  loop_inv trusted processed all → a ∉ processed → trusted !! a = Some k → key_ok k = true →
  read a k = Some es → loop_inv (learn trusted es) ({[a]} ∪ processed) (all ++ es).
Proof.
  intros Hinv Ha Hk Hok Hr.
  assert (∀ b k', b ∈ {[a]} ∪ processed →
    learn trusted es !! b = Some k' ↔ trusted !! b = Some k') as Hold.
  { intros b k' Hb. rewrite learn_mono; [done|]. apply elem_of_dom.
    apply elem_of_union in Hb as [->%elem_of_singleton|Hb].
    - apply elem_of_dom. by exists k.
    - by apply (li_processed _ _ _ Hinv). }
  split.
  - intros b k' [Hb|(e&He&Hbd&<-&<-)]%learn_lookup; [by apply (li_believed _ _ _ Hinv)|].
    eapply believed_vouched; [|done..]. by apply (li_believed _ _ _ Hinv).
  - intros b k' Hb. apply (li_seeds _ _ _ Hinv) in Hb. rewrite learn_mono; [done|by exists k'].
  - intros b [k' [Hb|(e&He&_&<-&_)]%learn_lookup]%elem_of_dom.
    + apply (li_universe _ _ _ Hinv), elem_of_dom. by exists k'.
    + eapply universe_subjects; [|done..]. by apply (li_believed _ _ _ Hinv).
  - intros b Hb. assert (is_Some (trusted !! b)) as [k' Hk'].
    { apply elem_of_union in Hb as [->%elem_of_singleton|Hb]; [by exists k|].
      by apply elem_of_dom, (li_processed _ _ _ Hinv). }
    apply elem_of_dom. exists k'. by apply Hold.
  - intros e. rewrite elem_of_app, (li_all _ _ _ Hinv). split.
    + intros [(b&k'&es'&Hb&Hk'&?&?&?)|He].
      * exists b, k', es'. split_and!; try done; [set_solver|]. apply Hold; [set_solver|done].
      * exists a, k, es. split_and!; try done; [set_solver|]. apply Hold; [set_solver|done].
    + intros (b&k'&es'&Hb&Hk'&?&?&?). apply Hold in Hk'; [|done].
      apply elem_of_union in Hb as [->%elem_of_singleton|Hb].
      * right. congruence.
      * left. by exists b, k', es'.
  - intros b k' es' e Hb Hk' ? Hr' He Hbd. apply Hold in Hk'; [|done].
    apply elem_of_union in Hb as [->%elem_of_singleton|Hb].
    + assert (es' = es) as -> by congruence. by apply learn_complete.
    + rewrite learn_mono; by eapply (li_closed _ _ _ Hinv).
Qed.

(** ... and so does skipping one whose key or log is bad. *)
Lemma loop_inv_skip trusted processed all a k :
  loop_inv trusted processed all → trusted !! a = Some k →
  (key_ok k = true → read a k = None) → loop_inv trusted ({[a]} ∪ processed) all.
Proof.
  intros Hinv Hk Hbad. split; try apply Hinv.
  - intros b [->%elem_of_singleton|Hb]%elem_of_union; [apply elem_of_dom; by exists k|].
    by apply (li_processed _ _ _ Hinv).
  - intros e. rewrite (li_all _ _ _ Hinv). split.
    + intros (b&k'&es'&?&?&?&?&?). exists b, k', es'. set_solver.
    + intros (b&k'&es'&Hb&Hk'&Hok&Hr&He). exists b, k', es'. split_and!; try done.
      apply elem_of_union in Hb as [->%elem_of_singleton|Hb]; [|done].
      assert (k' = k) as -> by congruence. rewrite (Hbad Hok) in Hr. done.
  - intros b k' es' e Hb Hk' Hok Hr He Hbd.
    apply elem_of_union in Hb as [->%elem_of_singleton|Hb].
    + assert (k' = k) as -> by congruence. rewrite (Hbad Hok) in Hr. done.
    + by eapply (li_closed _ _ _ Hinv).
Qed.

(** When no author is left, every believed key has been read. *)
Lemma loop_inv_done trusted processed all e :
  loop_inv trusted processed all → dom trusted ⊆ processed → e ∈ all ↔ believed_entry e.
Proof.
  intros Hinv Hdone.
  assert (∀ a k, Believed a k → trusted !! a = Some k) as Hb.
  { intros a k Hbel. induction Hbel as [a k Hs|a k es e' Hbel IH Hok Hr He' Hbd];
      [by apply (li_seeds _ _ _ Hinv)|].
    destruct (li_closed _ _ _ Hinv a k es e') as [k' Hk']; try done.
    { apply Hdone, elem_of_dom. by exists k. }
    rewrite Hk'. f_equal. eapply no_collision; [by apply (li_believed _ _ _ Hinv)|].
    by eapply believed_vouched. }
  rewrite (li_all _ _ _ Hinv). unfold believed_entry. split.
  - intros (a&k&es&_&Hk&?&?&?). exists a, k, es. split_and!; try done.
    by apply (li_believed _ _ _ Hinv).
  - intros (a&k&es&Hbel&?&?&?). apply Hb in Hbel. exists a, k, es. split_and!; try done.
    apply Hdone, elem_of_dom. by exists k.
Qed.

Lemma collect_loop_spec fuel trusted processed all :
  loop_inv trusted processed all → size (universe ∖ processed) < fuel →
  ∃ es, collect_loop pick key_ok read fuel trusted processed all = Some es ∧
        ∀ e, e ∈ es ↔ believed_entry e.
Proof.
  revert trusted processed all. induction fuel as [|fuel IH]; intros trusted processed all Hinv Hf;
    [lia|]. simpl. destruct (pick (dom trusted ∖ processed)) as [a|] eqn:Ep.
  2:{ apply pick_none in Ep. exists all. split; [done|]. intros e.
      apply (loop_inv_done trusted processed); [done|set_solver]. }
  apply pick_elem, elem_of_difference in Ep as [[k Hk]%elem_of_dom Ha].
  assert (size (universe ∖ ({[a]} ∪ processed)) < fuel) as Hf'.
  { assert (a ∈ universe) by (apply (li_universe _ _ _ Hinv), elem_of_dom; by exists k).
    apply Nat.lt_le_trans with (size (universe ∖ processed)); [|lia].
    apply subset_size. split; [set_solver|]. intros Hsub. specialize (Hsub a). set_solver. }
  rewrite Hk. simpl. destruct (key_ok k) eqn:Hok.
  - destruct (read a k) as [es|] eqn:Hr; apply IH; try done.
    + by apply (loop_inv_read _ _ _ _ k).
    + by apply (loop_inv_skip _ _ _ _ k).
  - apply IH; [|done]. apply (loop_inv_skip _ _ _ _ k); [done..|congruence].
Qed.

Lemma collect_spec fuel :
  size universe < fuel →
  ∃ es, collect_loop pick key_ok read fuel seeds ∅ [] = Some es ∧ ∀ e, e ∈ es ↔ believed_entry e.
Proof.
  intros Hf. apply collect_loop_spec; [apply loop_inv_init|].
  by replace (universe ∖ ∅) with universe by set_solver.
Qed.
End closure.

(** A choice function: any element of the set, none only if there is none. *)
Definition chooses (pick : gset u64 → option u64) : Prop :=
  (∀ s a, pick s = Some a → a ∈ s) ∧ (∀ s, pick s = None → s = ∅).

(** C3: the trusted roster does not depend on hash-map order. If the logs mention
    finitely many devices and no two believed keys share their first eight bytes,
    the collection loop terminates whichever unread author it takes next, it
    returns exactly the entries of the logs of believed authors, and any two runs
    merge to the same keys, roles and revocations. *)
Theorem collect_order_independent key_ok read seeds universe pick1 pick2 fuel1 fuel2 founder :
  (∀ a k k', Believed key_ok read seeds a k → Believed key_ok read seeds a k' → k = k') →
  dom seeds ⊆ universe →
  (∀ a k es e, Believed key_ok read seeds a k → read a k = Some es → e ∈ es →
     subject_peer e ∈ universe) →
  chooses pick1 → chooses pick2 → size universe < fuel1 → size universe < fuel2 →
  ∃ es1 es2,
    collect_loop pick1 key_ok read fuel1 seeds ∅ [] = Some es1 ∧
    collect_loop pick2 key_ok read fuel2 seeds ∅ [] = Some es2 ∧
    (∀ e, e ∈ es1 ↔ believed_entry key_ok read seeds e) ∧
    without_name <$> merge_roster es1 founder = without_name <$> merge_roster es2 founder.
Proof.
  intros Hc Hs Hu [He1 Hn1] [He2 Hn2] Hf1 Hf2.
  destruct (collect_spec key_ok read seeds Hc universe Hs Hu pick1 He1 Hn1 fuel1 Hf1) as (es1&H1&Hes1).
  destruct (collect_spec key_ok read seeds Hc universe Hs Hu pick2 He2 Hn2 fuel2 Hf2) as (es2&H2&Hes2).
  exists es1, es2. split_and!; [done..|]. apply privileges_ext. intros e. by rewrite Hes1, Hes2.
Qed.

(** ** One more entry in one's own log *)
Section append_own.
Variable key_ok : bytes → bool.
Variables read read' : u64 → bytes → option (list RosterEntry).
Variable seeds : gmap u64 bytes.
Variables (me : u64) (mykey : bytes) (own : list RosterEntry) (e : RosterEntry).
Hypothesis seed_me : seeds !! me = Some mykey.
Hypothesis me_ok : key_ok mykey = true.
Hypothesis no_collision : ∀ a k k', Believed key_ok read seeds a k → Believed key_ok read seeds a k' → k = k'.
Hypothesis read_me : read me mykey = Some own.
Hypothesis read_me' : read' me mykey = Some (own ++ [e]).
Hypothesis read_other : ∀ a k, a ≠ me → read' a k = read a k.
Hypothesis e_known : Believed key_ok read seeds (subject_peer e) (subject_key e).

Lemma believed_me k : Believed key_ok read seeds me k → k = mykey.
Proof. intros Hk. eapply no_collision; [exact Hk|]. by apply believed_seed. Qed.

Lemma believed_append a k : Believed key_ok read' seeds a k ↔ Believed key_ok read seeds a k.
Proof.
  split; induction 1 as [a k Hs|a k es x Hb IH Hok Hr Hx Hbd]; try by apply believed_seed.
  - destruct (decide (a = me)) as [->|Hne].
    + apply believed_me in IH as ->. rewrite read_me' in Hr. injection Hr as <-.
      apply elem_of_app in Hx as [Hx| ->%list_elem_of_singleton]; [|done].
      eapply believed_vouched; [by apply believed_seed|done..].
    + rewrite read_other in Hr by done. by eapply believed_vouched.
  - destruct (decide (a = me)) as [->|Hne].
    + apply believed_me in Hb as ->. rewrite read_me in Hr. injection Hr as <-.
      eapply believed_vouched; [exact IH|done|exact read_me'| |done]. set_solver.
    + eapply believed_vouched; [exact IH|done| |done|done]. by rewrite read_other.
Qed.

Lemma believed_entry_append x :
  believed_entry key_ok read' seeds x ↔ x = e ∨ believed_entry key_ok read seeds x.
Proof.
  unfold believed_entry. setoid_rewrite believed_append. split.
  - intros (a&k&es&Hb&Hok&Hr&Hx). destruct (decide (a = me)) as [->|Hne].
    + pose proof (believed_me k Hb) as ->. rewrite read_me' in Hr. injection Hr as <-.
      apply elem_of_app in Hx as [Hx| ->%list_elem_of_singleton]; [right|by left].
      by exists me, mykey, own.
    + right. exists a, k, es. by rewrite <-read_other.
  - intros [->|(a&k&es&Hb&Hok&Hr&Hx)].
    + exists me, mykey, (own ++ [e]). split_and!; try done; [by apply believed_seed|set_solver].
    + destruct (decide (a = me)) as [->|Hne].
      * pose proof (believed_me k Hb) as ->. exists me, mykey, (own ++ [e]).
        split_and!; try done. assert (es = own) as -> by congruence. set_solver.
      * exists a, k, es. by rewrite read_other.
Qed.
End append_own.

(** ** An entry about a device nobody knew *)
Section append_new.
Variable key_ok : bytes → bool.
Variables read read' : u64 → bytes → option (list RosterEntry).
Variable seeds : gmap u64 bytes.
Variables (me : u64) (mykey : bytes) (own : list RosterEntry) (e : RosterEntry).
Hypothesis seed_me : seeds !! me = Some mykey.
Hypothesis me_ok : key_ok mykey = true.
Hypothesis no_collision : ∀ a k k', Believed key_ok read seeds a k → Believed key_ok read seeds a k' → k = k'.
Hypothesis read_me : read me mykey = Some own.
Hypothesis read_me' : read' me mykey = Some (own ++ [e]).
Hypothesis read_other : ∀ a k, a ≠ me → read' a k = read a k.
Hypothesis e_bound : key_bound e.
Hypothesis e_other : subject_peer e ≠ me.
(** It has no log yet. *)
Hypothesis e_silent : ∀ k es x, read (subject_peer e) k = Some es → x ∉ es.

Lemma believed_new a k :
  Believed key_ok read' seeds a k ↔ Believed key_ok read seeds a k ∨ a = subject_peer e ∧ k = subject_key e.
Proof.
  pose proof (believed_me key_ok read seeds me mykey seed_me no_collision) as Hme. split.
  - induction 1 as [a k Hs|a k es x Hb IH Hok Hr Hx Hbd]; [left; by apply believed_seed|].
    destruct IH as [IH|[-> ->]].
    + destruct (decide (a = me)) as [->|Hne].
      * apply Hme in IH as ->. rewrite read_me' in Hr. injection Hr as <-.
        apply elem_of_app in Hx as [Hx| ->%list_elem_of_singleton]; [left|by right].
        eapply believed_vouched; [by apply believed_seed|done..].
      * rewrite read_other in Hr by done. left. by eapply believed_vouched.
    + rewrite read_other in Hr by done. by destruct (e_silent _ _ _ Hr Hx).
  - intros [Hb|[-> ->]].
    + induction Hb as [a k Hs|a k es x Hb IH Hok Hr Hx Hbd]; [by apply believed_seed|].
      destruct (decide (a = me)) as [->|Hne].
      * apply Hme in Hb as ->. rewrite read_me in Hr. injection Hr as <-.
        eapply believed_vouched; [exact IH|done|exact read_me'| |done]. set_solver.
      * eapply believed_vouched; [exact IH|done| |done|done]. by rewrite read_other.
    + eapply believed_vouched; [by apply believed_seed|done|exact read_me'| |done]. set_solver.
Qed.

Lemma believed_entry_new x :
  believed_entry key_ok read' seeds x ↔ x = e ∨ believed_entry key_ok read seeds x.
Proof.
  pose proof (believed_me key_ok read seeds me mykey seed_me no_collision) as Hme.
  unfold believed_entry. setoid_rewrite believed_new. split.
  - intros (a&k&es&[Hb|[-> ->]]&Hok&Hr&Hx).
    + destruct (decide (a = me)) as [->|Hne].
      * pose proof (Hme k Hb) as ->. rewrite read_me' in Hr. injection Hr as <-.
        apply elem_of_app in Hx as [Hx| ->%list_elem_of_singleton]; [right|by left]. by exists me, mykey, own.
      * right. exists a, k, es. by rewrite <-read_other.
    + rewrite read_other in Hr by done. by destruct (e_silent _ _ _ Hr Hx).
  - intros [->|(a&k&es&Hb&Hok&Hr&Hx)].
    + exists me, mykey, (own ++ [e]). split_and!; try done; [left; by apply believed_seed|set_solver].
    + destruct (decide (a = me)) as [->|Hne].
      * pose proof (Hme k Hb) as ->. exists me, mykey, (own ++ [e]). split_and!; try done; [by left|].
        assert (es = own) as -> by congruence. set_solver.
      * exists a, k, es. rewrite read_other by done. auto.
Qed.
End append_new.
