(* ===== verification/Store.v ===== *)
(** * Store: vault state and membership (crates/roam-storage/src/store.rs)

    The [Store] record, opening a vault, and the operations on the roster:
    vouching, roles, revocation, the founder pin (founder.rs), device names, and
    importing other devices' roster logs.  The CRDT document is the interface
    [DocOps]; the filesystem, the logs and the fold are the components required
    below. *)
From S2P Require Import Prelude RustStr Vfs Roster Wire Logs Trust.

(** ** The document interface (crates/roam-crdt) *)
Class DocOps (Doc Ver : Type) := {
  doc_new : u64 → result StorageError Doc;
  doc_from_snapshot : u64 → bytes → result StorageError Doc;
  doc_import : bytes → SM Doc StorageError unit;
  doc_import_authored_by : u64 → bytes → SM Doc StorageError unit;
  doc_commit : Doc → Doc;
  doc_version : Doc → Ver;
  doc_export_from : Ver → Doc → result StorageError bytes;
  doc_snapshot : Doc → result StorageError bytes;
  ver_eq_dec :: EqDecision Ver;
}.

(** ** State *)
Record Store (Fs Doc Ver : Type) := mkStore {
  root : path;
  identity : Identity;
  doc : Doc;
  persisted : Ver;
  peers : list PeerRecord;
  founder : option u64;
  fs : Fs;
}.
Arguments mkStore {Fs Doc Ver} _ _ _ _ _ _ _.
Arguments root {Fs Doc Ver} _.
Arguments identity {Fs Doc Ver} _.
Arguments doc {Fs Doc Ver} _.
Arguments persisted {Fs Doc Ver} _.
Arguments peers {Fs Doc Ver} _.
Arguments founder {Fs Doc Ver} _.
Arguments fs {Fs Doc Ver} _.

Section setters.
Context {Fs Doc Ver : Type}.
Implicit Types s : Store Fs Doc Ver.
Definition set_fs f s : Store Fs Doc Ver :=
  mkStore (root s) (identity s) (doc s) (persisted s) (peers s) (founder s) f.
Definition set_doc d s : Store Fs Doc Ver :=
  mkStore (root s) (identity s) d (persisted s) (peers s) (founder s) (fs s).
Definition set_persisted v s : Store Fs Doc Ver :=
  mkStore (root s) (identity s) (doc s) v (peers s) (founder s) (fs s).
Definition set_peers p s : Store Fs Doc Ver :=
  mkStore (root s) (identity s) (doc s) (persisted s) p (founder s) (fs s).
Definition set_founder o s : Store Fs Doc Ver :=
  mkStore (root s) (identity s) (doc s) (persisted s) (peers s) o (fs s).

(** Run a filesystem (or document) operation on the store's field. *)
Definition on_fs {A} (m : SM Fs StorageError A) : SM (Store Fs Doc Ver) StorageError A := λ s,
  let '(r, f) := m (fs s) in (r, set_fs f s).
Definition on_doc {A} (m : SM Doc StorageError A) : SM (Store Fs Doc Ver) StorageError A := λ s,
  let '(r, d) := m (doc s) in (r, set_doc d s).
Definition modify (f : Store Fs Doc Ver → Store Fs Doc Ver) : SM (Store Fs Doc Ver) StorageError unit :=
  λ s, (Ok tt, f s).
End setters.

(** ** The founder pin *)
Section founder.
Context {Fs : Type} `{VaultFs Fs}.
Definition founder_path (root : path) : path := root ++ [str "founder"].

Definition read_founder (root : path) (f : Fs) : result StorageError (option u64) :=
  match fs_read (founder_path root) f with
  | Ok b => if decide (length b = 8) then Ok (Some (from_le b)) else Err Peer
  | Err NotFound => Ok None
  | Err e => Err (Io e)
  end.

Definition write_founder (root : path) (peer : u64) : SM Fs StorageError unit :=
  _ ← io (fs_create_dir_all root);
  let tmp := with_extension (founder_path root) (str "tmp") in
  _ ← io (fs_write tmp (le_bytes 8 peer));
  io (fs_rename tmp (founder_path root)).

(** snapshot.rs *)
Definition snapshot_save (p : path) (b : bytes) : SM Fs StorageError unit :=
  _ ← ensure_parent p;
  let tmp := with_extension p (str "loro.tmp") in
  _ ← io (fs_write tmp b);
  io (fs_rename tmp p).
Definition snapshot_load (p : path) (f : Fs) : result StorageError (option bytes) :=
  match fs_read p f with
  | Ok b => Ok (Some b)
  | Err NotFound => Ok None
  | Err e => Err (Io e)
  end.

(** [match fs.read(p) { Err(NotFound) => empty, .. }] *)
Definition read_or_empty (p : path) (f : Fs) : result StorageError bytes :=
  match fs_read p f with
  | Ok b => Ok b
  | Err NotFound => Ok []
  | Err e => Err (Io e)
  end.
End founder.

(** [a.starts_with(b)] *)
Definition starts_with (a b : bytes) : bool := bool_decide (take (length b) a = b).

Section store.
Context `{Ed25519, B64, JsonOf EntryLine, JsonOf RosterLine, JsonOf (list PeerRecord)}.
Context {Fs Doc Ver : Type} `{VaultFs Fs, DocOps Doc Ver}.
(** Hash-map order and the bound on the devices it is iterated over. *)
Variable pick : gset u64 → option u64.
Variable fuel : nat.
Abbreviation St := (Store Fs Doc Ver).

(** *** Paths *)
Definition ops_dir (root : path) : path := root ++ [str "ops"].
Definition roster_dir (root : path) : path := root ++ [str "roster"].
Definition snapshot_path (root : path) : path := root ++ [str "snapshots"; str "snapshot.loro"].
Definition own_log (s : St) : OpLog := OpLog_new (ops_dir (root s)) (id_peer (identity s)).
Definition own_roster (s : St) : RosterLog := RosterLog_new (roster_dir (root s)) (id_peer (identity s)).

(** *** The peer set *)

(** The keys believed before any log is read: ours, and the pinned founder's if
    its log claims a key that derives to it. *)
Definition seed_keys (root : path) (self_id : u64) (self_key : bytes) (fd : option u64) (f : Fs)
    : result StorageError (gmap u64 bytes) :=
  let trusted : gmap u64 bytes := {[self_id := self_key]} in
  match fd with
  | None => Ok trusted
  | Some fid =>
      match trusted !! fid with
      | Some _ => Ok trusted
      | None =>
          k ← peek_self_key (RosterLog_new (roster_dir root) fid) f;
          mret match k with
               | Some fkey => if decide (derived_peer_id fkey = fid) then <[fid := fkey]> trusted else trusted
               | None => trusted
               end
      end
  end.

(** One author's log, read with one key; a log that fails is skipped. *)
Definition read_author (root : path) (f : Fs) (author : u64) (key : bytes) : option (list RosterEntry) :=
  match roster_read_verified (RosterLog_new (roster_dir root) author) key f with
  | Ok es => Some es
  | Err _ => None
  end.

Definition collect_roster_entries (root : path) (self_id : u64) (self_key : bytes) (fd : option u64)
    (f : Fs) : result StorageError (list RosterEntry) :=
  trusted ← seed_keys root self_id self_key fd f;
  ok_or (collect_loop pick ed_key_ok (read_author root f) fuel trusted ∅ []) Invalid.

Definition rebuild_peers (root : path) (self_id : u64) (self_key : bytes) (fd : option u64) (f : Fs)
    : result StorageError (list PeerRecord) :=
  es ← collect_roster_entries root self_id self_key fd f;
  mret (merge_roster es fd).

Definition write_peers_cache : SM St StorageError unit :=
  s ← sm_get;
  let p := root s ++ [str "peers.json"] in
  _ ← on_fs (ensure_parent p);
  let tmp := with_extension p (str "json.tmp") in
  _ ← on_fs (io (fs_write tmp (utf8 (to_json (peers s)))));
  on_fs (io (fs_rename tmp p)).

Definition refresh_peers : SM St StorageError unit :=
  s ← sm_get;
  ps ← sm_lift (rebuild_peers (root s) (id_peer (identity s)) (id_key (identity s)) (founder s) (fs s));
  _ ← modify (set_peers ps);
  write_peers_cache.

(** *** Opening *)
Fixpoint import_all (es : list Entry) : SM Doc StorageError unit :=
  match es with
  | [] => mret tt
  | e :: es => _ ← doc_import (e_update e); import_all es
  end.

Fixpoint replay_peers (root : path) (self_id : u64) (f : Fs) (ps : list PeerRecord)
    : SM Doc StorageError unit :=
  match ps with
  | [] => mret tt
  | p :: ps =>
      if bool_decide (status p ≠ Active) || bool_decide (peer_id p = self_id)
         || negb (ed_key_ok (verifying_key p))
      then replay_peers root self_id f ps
      else
        es ← sm_lift (oplog_read_verified (OpLog_new (ops_dir root) (peer_id p)) (verifying_key p) f);
        _ ← import_all es;
        replay_peers root self_id f ps
  end.

Definition open_with_fs (root : path) (id : Identity) (f : Fs) : result StorageError St * Fs :=
  let loaded : result StorageError St :=
    fd ← read_founder root f;
    ps ← rebuild_peers root (id_peer id) (id_key id) fd f;
    snap ← snapshot_load (snapshot_path root) f;
    d ← match snap with
        | Some b => doc_from_snapshot (id_peer id) b
        | None => doc_new (id_peer id)
        end;
    own ← oplog_read_verified (OpLog_new (ops_dir root) (id_peer id)) (id_key id) f;
    d ← fst ((import_all own ≫= λ _, replay_peers root (id_peer id) f ps ≫= λ _, sm_get) d);
    mret (mkStore root id (doc_commit d) (doc_version (doc_commit d)) ps fd f) in
  match loaded with
  | Err e => (Err e, f)
  | Ok s =>
      let '(r, s') := (_ ← on_fs (io (fs_create_dir_all (root ++ [str "assets"]))); write_peers_cache) s in
      (match r with Ok _ => Ok s' | Err e => Err e end, fs s')
  end.

(** *** Local edits reach the own log *)
Definition export_and_append : SM St StorageError unit :=
  s ← sm_get;
  let current := doc_version (doc s) in
  if decide (current = persisted s) then mret tt
  else
    delta ← sm_lift (doc_export_from (persisted s) (doc s));
    _ ← on_fs (oplog_append (own_log s) (identity s) delta);
    modify (set_persisted current).
Definition persist_new_ops : SM St StorageError unit :=
  _ ← modify (λ s, set_doc (doc_commit (doc s)) s);
  export_and_append.

(** *** Roles *)
Definition find_peer (s : St) (p : u64) : option PeerRecord :=
  head (filter (λ r, peer_id r = p) (peers s)).
Definition role_of (s : St) (p : u64) : option Role := role <$> find_peer s p.
Definition self_role (s : St) : option Role := role_of s (id_peer (identity s)).
Definition may_write (s : St) : bool :=
  match self_role s with Some Writer | Some Admin => true | _ => false end.

Definition require_admin (s : St) : result StorageError unit :=
  match find_peer s (id_peer (identity s)) with
  | Some p => if bool_decide (status p = Active) && bool_decide (role p = Admin) then Ok tt else Err Peer
  | None => Err Peer
  end.

Definition check_peer_id_binding (p : u64) (key : bytes) : result StorageError unit :=
  if decide (p ≠ derived_peer_id key) then Err Peer else Ok tt.

Definition next_role_lamport (s : St) (subject : u64) : result StorageError u64 :=
  es ← collect_roster_entries (root s) (id_peer (identity s)) (id_key (identity s)) (founder s) (fs s);
  let max := foldl N.max 0%N (lamport <$> filter (λ e, subject_peer e = subject) es) in
  mret (saturating_add max 1).

(** Author one roster operation and fold it in. *)
Definition author_op (o : RosterOp) (subject : u64) (key : bytes) : SM St StorageError unit :=
  s ← sm_get;
  lam ← sm_lift (next_role_lamport s subject);
  _ ← on_fs (roster_append (own_roster s) (identity s) lam o subject key);
  refresh_peers.

Definition admin_op (o : RosterOp) (subject : u64) (key : bytes) : SM St StorageError unit :=
  s ← sm_get;
  _ ← sm_lift (require_admin s);
  _ ← sm_lift (check_peer_id_binding subject key);
  author_op o subject key.

Definition add_peer (p : u64) (key : bytes) (r : Role) : SM St StorageError unit := admin_op (Add r) p key.
Definition set_role (p : u64) (key : bytes) (r : Role) : SM St StorageError unit := admin_op (SetRole r) p key.
Definition revoke_peer (p : u64) (key : bytes) : SM St StorageError unit := admin_op Revoke p key.

Definition declare_founder (r : Role) : SM St StorageError unit :=
  if decide (r ≠ Admin) then sm_fail Peer
  else
    s ← sm_get;
    pinned ← sm_lift (read_founder (root s) (fs s));
    match pinned with
    | Some _ => sm_fail Peer
    | None =>
        let me := id_peer (identity s) in
        _ ← on_fs (write_founder (root s) me);
        _ ← modify (set_founder (Some me));
        author_op (Add r) me (id_key (identity s))
    end.

Definition set_device_name (name : rstring) : SM St StorageError unit :=
  if decide (MAX_NAME_LEN < length name) then sm_fail Peer
  else
    s ← sm_get;
    author_op (SetName name) (id_peer (identity s)) (id_key (identity s)).

Definition pin_founder (p : u64) : SM St StorageError unit :=
  s ← sm_get;
  pinned ← sm_lift (read_founder (root s) (fs s));
  match pinned with
  | Some existing => if decide (existing = p) then mret tt else sm_fail Peer
  | None =>
      _ ← on_fs (write_founder (root s) p);
      _ ← modify (set_founder (Some p));
      refresh_peers
  end.

(** *** Exchanging roster logs *)
Definition export_own_roster (s : St) : result StorageError bytes :=
  read_or_empty (ro_path (own_roster s)) (fs s).

Definition import_roster (author : u64) (key b : bytes) : SM St StorageError unit :=
  s ← sm_get;
  if decide (author = id_peer (identity s)) then sm_fail Peer
  else
    let log := RosterLog_new (roster_dir (root s)) author in
    _ ← on_fs (io (fs_create_dir_all (roster_dir (root s))));
    s ← sm_get;
    _ ← sm_lift match fs_read (ro_path log) (fs s) with
                | Ok existing => if starts_with b existing then Ok tt else Err Peer
                | Err _ => Ok tt
                end;
    _ ← sm_lift (roster_verify_bytes log key b);
    _ ← on_fs (io (fs_write (ro_path log) b));
    refresh_peers.

Definition import_bundle_log (x : u64 * bytes) : SM St StorageError unit :=
  s ← sm_get;
  let '(author, b) := x in
  if decide (author = id_peer (identity s)) then mret tt
  else
    let p := ro_path (RosterLog_new (roster_dir (root s)) author) in
    let write := on_fs (io (fs_write p b)) in
    match fs_read p (fs s) with
    | Ok existing => if starts_with b existing then write else mret tt
    | Err _ => write
    end.
Definition import_roster_bundle (logs : list (u64 * bytes)) : SM St StorageError unit :=
  s ← sm_get;
  _ ← on_fs (io (fs_create_dir_all (roster_dir (root s))));
  _ ← sm_iter import_bundle_log logs;
  refresh_peers.
End store.
