(* ===== verification/StoreRoster.v ===== *)
(** * StoreRoster: theorems about membership changes in a vault *)
From stdpp Require Import pretty.
From S2P Require Import Prelude RustStr Vfs Roster Wire Logs Trust Store.

(** ** Running filesystem steps inside the store *)
Section steps.
Context {Fs Doc Ver : Type} `{VaultFsLaws Fs}.
Implicit Types s : Store Fs Doc Ver.

(** Everything but the filesystem is as before. *)
Definition same_but_fs s s' : Prop :=
  root s' = root s ∧ identity s' = identity s ∧ doc s' = doc s ∧ persisted s' = persisted s ∧
  peers s' = peers s ∧ founder s' = founder s.

Lemma on_fs_frame {A} (m : SM Fs StorageError A) s r s' :
  on_fs m s = (r, s') → m (fs s) = (r, fs s') ∧ same_but_fs s s'.
Proof. unfold on_fs. destruct (m (fs s)) as [r0 f]. by intros [= -> <-]. Qed.

(** [write] then [rename] onto [p] through [tmp]: only those two files change. *)
Lemma io_write_files p b (f f' : Fs) r :
  fs_inv f → fs_path p → io (fs_write p b) f = (r, f') →
  fs_inv f' ∧ files f' = match r with Ok _ => <[p := b]> (files f) | Err _ => files f end.
Proof.
  intros Hinv Hp. unfold io, sm_map_err. pose proof (fs_write_spec p b f Hinv Hp) as Hw.
  destruct (fs_write p b f) as [[[]|e] f1]; simpl; intros [= <- <-]; exact Hw.
Qed.
Lemma io_rename_other p q (f f' : Fs) r x :
  fs_inv f → fs_path p → fs_path q → p ≠ q → io (fs_rename p q) f = (r, f') →
  x ≠ p → x ≠ q → fs_inv f' ∧ files f' !! x = files f !! x.
Proof.
  intros Hinv Hp Hq Hne. unfold io, sm_map_err. pose proof (fs_rename_spec p q f Hinv Hp Hq Hne) as Hr.
  destruct (fs_rename p q f) as [r1 f1]; simpl; intros [= <- <-] Hxp Hxq.
  destruct Hr as [? Hr]. split; [done|]. destruct (files f !! p) as [b|].
  - rewrite Hr. destruct r1; simpl; [|done]. by rewrite lookup_insert_ne, lookup_delete_ne.
  - by destruct Hr as [_ ->].
Qed.
Lemma io_mkdir d (f f' : Fs) r :
  fs_inv f → io (fs_create_dir_all d) f = (r, f') → fs_inv f' ∧ files f' = files f ∧ r = Ok tt.
Proof.
  intros Hinv. unfold io, sm_map_err. pose proof (fs_create_dir_all_spec d f Hinv) as Hd.
  destruct (fs_create_dir_all d f) as [r1 f1]; simpl; intros [= <- <-]. by destruct Hd as (->&?&?).
Qed.
End steps.

(** ** The cache and the peer set *)
Definition cache_path (r : path) : path := r ++ [str "peers.json"].
Definition cache_tmp (r : path) : path := with_extension (cache_path r) (str "json.tmp").

Lemma with_extension_snoc r n e : with_extension (r ++ [n]) e = r ++ [file_stem n ++ DOT :: e].
Proof.
  unfold with_extension. rewrite last_snoc, length_app. simpl.
  by rewrite Nat.add_sub, take_app_length.
Qed.
Lemma cache_tmp_eq r : cache_tmp r = r ++ [str "peers.json.tmp"].
Proof. unfold cache_tmp, cache_path. by rewrite with_extension_snoc. Qed.
Lemma cache_tmp_ne r : cache_tmp r ≠ cache_path r.
Proof. rewrite cache_tmp_eq. unfold cache_path. intros Heq. by apply app_inv_head in Heq. Qed.

(** A file in a subdirectory of the vault is neither the cache nor its temporary. *)
Lemma subdir_not_cache r d n : r ++ [d; n] ≠ cache_path r ∧ r ++ [d; n] ≠ cache_tmp r.
Proof.
  rewrite cache_tmp_eq. unfold cache_path.
  split; intros Heq; by apply app_inv_head in Heq.
Qed.

(** The paths a vault at [r] writes besides its logs. *)
Definition vault_paths {Fs} `{VaultFsLaws Fs} (r : path) : Prop :=
  fs_path (cache_path r) ∧ fs_path (cache_tmp r).

Section refresh.
Context `{Ed25519, B64, JsonOf RosterLine, JsonOf (list PeerRecord)}.
Context {Fs Doc Ver : Type} `{VaultFsLaws Fs}.
Variable pick : gset u64 → option u64.
Variable fuel : nat.
Implicit Types s : Store Fs Doc Ver.

Lemma write_peers_cache_frame s r s' x :
  fs_inv (fs s) → vault_paths (Fs := Fs) (root s) →
  write_peers_cache s = (r, s') → x ≠ cache_path (root s) → x ≠ cache_tmp (root s) →
  same_but_fs s s' ∧ fs_inv (fs s') ∧ files (fs s') !! x = files (fs s) !! x.
Proof.
  intros Hinv [Hp Ht] Hrun Hx1 Hx2. pose proof (cache_tmp_ne (root s)) as Hne.
  unfold write_peers_cache in Hrun.
  unfold mbind at 1, SM_bind, sm_get in Hrun. unfold mbind at 1, SM_bind in Hrun.
  destruct (on_fs (ensure_parent _) s) as [r1 s1] eqn:E1. apply on_fs_frame in E1 as [E1 Hs1].
  pose proof (ensure_parent_spec (root s ++ [str "peers.json"]) (fs s) Hinv) as Hd.
  rewrite E1 in Hd. destruct Hd as (->&Hinv1&Hf1).
  unfold mbind at 1, SM_bind in Hrun.
  destruct (on_fs (io (fs_write _ _)) s1) as [r2 s2] eqn:E2. apply on_fs_frame in E2 as [E2 Hs2].
  apply io_write_files in E2 as [Hinv2 Hf2]; [|done..].
  assert (files (fs s2) !! x = files (fs s) !! x) as Hx.
  { rewrite Hf2, <-Hf1. destruct r2; [|done]. by rewrite lookup_insert_ne. }
  unfold same_but_fs in *. destruct r2 as [[]|e].
  - apply on_fs_frame in Hrun as [E3 Hs3].
    eapply (io_rename_other _ _ _ _ _ x) in E3 as [Hinv3 Hf3]; [|done..].
    destruct Hs1 as (?&?&?&?&?&?), Hs2 as (?&?&?&?&?&?), Hs3 as (?&?&?&?&?&?).
    split_and!; congruence.
  - injection Hrun as <- <-. destruct Hs1 as (?&?&?&?&?&?), Hs2 as (?&?&?&?&?&?).
    split_and!; congruence.
Qed.

Lemma refresh_peers_frame s r s' x :
  fs_inv (fs s) → vault_paths (Fs := Fs) (root s) →
  refresh_peers pick fuel s = (r, s') → x ≠ cache_path (root s) → x ≠ cache_tmp (root s) →
  root s' = root s ∧ identity s' = identity s ∧ founder s' = founder s ∧ fs_inv (fs s') ∧
  files (fs s') !! x = files (fs s) !! x ∧
  (r = Ok tt → rebuild_peers pick fuel (root s) (id_peer (identity s)) (id_key (identity s))
                 (founder s) (fs s) = Ok (peers s')).
Proof.
  intros Hinv Hp Hrun Hx1 Hx2. unfold refresh_peers, mbind, SM_bind, sm_get, sm_lift in Hrun.
  destruct (rebuild_peers _ _ _ _ _ _ _) as [ps|e] eqn:Er; [|by injection Hrun as <- <-].
  unfold modify in Hrun.
  apply (write_peers_cache_frame (set_peers ps s) r s' x) in Hrun as ((?&?&?&?&Hps&?)&?&?); try done.
  split_and!; try done. intros _. by rewrite Hps.
Qed.
End refresh.

(** ** Who may change the roster *)
Section guards.
Context `{Ed25519, B64, JsonOf RosterLine, JsonOf (list PeerRecord)}.
Context {Fs Doc Ver : Type} `{VaultFs Fs}.
Variable pick : gset u64 → option u64.
Variable fuel : nat.
Implicit Types s : Store Fs Doc Ver.

(** C9: only an active admin changes the roster. If this device's record is
    missing, revoked or below admin, vouching, changing a role and revoking all
    fail and leave the whole store as it was, disk included; and an admin is
    refused the same way when the peer id does not derive from the key. *)
Theorem roster_change_needs_admin s p key r :
  (∀ me, find_peer s (id_peer (identity s)) = Some me → status me = Active → role me = Admin →
     p ≠ derived_peer_id key) →
  add_peer pick fuel p key r s = (Err Peer, s) ∧ set_role pick fuel p key r s = (Err Peer, s) ∧
  revoke_peer pick fuel p key s = (Err Peer, s).
Proof.
  intros Hno. assert (∀ o, admin_op pick fuel o p key s = (Err Peer, s)) as Hop; [|split_and!; apply Hop].
  intros o. unfold admin_op, mbind, SM_bind, sm_get, sm_lift, require_admin.
  destruct (find_peer s _) as [me|] eqn:Ef; [|done].
  destruct (bool_decide (status me = Active)) eqn:Es; [|done].
  destruct (bool_decide (role me = Admin)) eqn:Er; [|done]. simpl.
  apply bool_decide_eq_true in Es, Er. unfold check_peer_id_binding. by rewrite decide_True by (by eapply Hno).
Qed.
End guards.

(** ** Importing roster logs *)
Section import.
Context `{Ed25519, B64, JsonOf RosterLine, JsonOf (list PeerRecord)}.
Context {Fs Doc Ver : Type} `{VaultFsLaws Fs}.
Variable pick : gset u64 → option u64.
Variable fuel : nat.
Implicit Types s : Store Fs Doc Ver.

Definition roster_file (r : path) (author : u64) : path := ro_path (RosterLog_new (roster_dir r) author).

Lemma roster_file_not_cache r a : roster_file r a ≠ cache_path r ∧ roster_file r a ≠ cache_tmp r.
Proof.
  unfold roster_file, RosterLog_new, log_path, roster_dir. simpl. rewrite <-(assoc_L (++)).
  apply subdir_not_cache.
Qed.

(** An import step on [author]'s log: nothing else changes, and the log is either
    kept or replaced by bytes that extend it and verify. *)
Definition extends (p : path) (b : bytes) (f f' : Fs) : Prop :=
  files f' !! p = files f !! p ∨
  files f' !! p = Some b ∧ default [] (files f !! p) `prefix_of` b.

Lemma starts_with_prefix a b : starts_with a b = true ↔ b `prefix_of` a.
Proof.
  unfold starts_with. rewrite bool_decide_eq_true. split.
  - intros <-. exists (drop (length b) a). by rewrite take_drop.
  - intros [k ->]. apply take_app_length.
Qed.

(** C10: importing a roster log is append-only. Whatever bytes arrive for an
    author, afterwards that author's stored log is unchanged or is those bytes,
    and then they extend the stored log byte for byte, verify under the given
    key and are not this device's own; no other log changes; and success means
    the bytes are stored. A forked history therefore never replaces what is on
    disk. *)
Theorem import_roster_append_only author key b s r s' :
  fs_inv (fs s) → vault_paths (Fs := Fs) (root s) → fs_path (roster_file (root s) author) →
  import_roster pick fuel author key b s = (r, s') →
  extends (roster_file (root s) author) b (fs s) (fs s') ∧
  (files (fs s') !! roster_file (root s) author ≠ files (fs s) !! roster_file (root s) author →
     author ≠ id_peer (identity s) ∧
     is_ok (roster_verify_bytes (RosterLog_new (roster_dir (root s)) author) key b) = true) ∧
  (r = Ok tt → files (fs s') !! roster_file (root s) author = Some b) ∧
  (∀ q, q ≠ roster_file (root s) author → q ≠ cache_path (root s) → q ≠ cache_tmp (root s) →
     files (fs s') !! q = files (fs s) !! q).
Proof.
  intros Hinv Hv Hp Hrun. set (p := roster_file (root s) author) in *. unfold extends.
  destruct (roster_file_not_cache (root s) author) as [Hc1 Hc2]. fold p in Hc1, Hc2.
  unfold import_roster in Hrun. unfold mbind at 1, SM_bind, sm_get in Hrun.
  case_decide as Hme; [injection Hrun as <- <-; split_and!; [by left|done..]|].
  unfold mbind at 1, SM_bind in Hrun.
  destruct (on_fs (io (fs_create_dir_all _)) s) as [r1 s1] eqn:E1. apply on_fs_frame in E1 as [E1 Hs1].
  apply io_mkdir in E1 as (Hinv1&Hf1&->); [|done]. rewrite <-Hf1.
  destruct Hs1 as (Hr1&Hi1&_&_&_&Hfd1).
  unfold mbind at 1, SM_bind in Hrun. unfold mbind at 1, SM_bind, sm_lift in Hrun.
  rewrite fs_read_spec in Hrun by done. change (ro_path _) with p in Hrun.
  destruct (match ok_or (files (fs s1) !! p) NotFound with
            | Ok existing => if starts_with b existing then Ok tt else Err Peer
            | Err _ => Ok tt end) as [[]|] eqn:Epre; [|injection Hrun as <- <-; split_and!; [by left|done..]].
  assert (default [] (files (fs s1) !! p) `prefix_of` b) as Hpre.
  { destruct (files (fs s1) !! p) as [old|]; simpl in *; [|apply prefix_nil].
    destruct (starts_with b old) eqn:Es; [|done]. by apply starts_with_prefix. }
  unfold mbind at 1, SM_bind in Hrun.
  destruct (roster_verify_bytes _ key b) as [es|] eqn:Ev; [|injection Hrun as <- <-; split_and!; [by left|done..]].
  unfold mbind at 1, SM_bind in Hrun.
  destruct (on_fs (io (fs_write p b)) s1) as [r2 s2] eqn:E2. apply on_fs_frame in E2 as [E2 Hs2].
  apply io_write_files in E2 as [Hinv2 Hf2]; [|done..]. destruct Hs2 as (Hr2&Hi2&_&_&_&Hfd2).
  destruct r2 as [[]|e]; [|injection Hrun as <- <-; rewrite Hf2; split_and!; [by left|done..]].
  rewrite <-Hr1, <-Hr2 in Hc1, Hc2, Hv |- *.
  assert (∀ x, x ≠ cache_path (root s2) → x ≠ cache_tmp (root s2) →
            files (fs s') !! x = files (fs s2) !! x) as Hfr.
  { intros x Hx1 Hx2. by eapply (refresh_peers_frame pick fuel s2 r s' x). }
  assert (files (fs s') !! p = Some b) as Hpb by (rewrite Hfr, Hf2 by done; apply lookup_insert_eq).
  split_and!; [right; done|done|done|].
  intros q Hq ??. rewrite Hfr, Hf2 by done. by rewrite lookup_insert_ne.
Qed.
End import.

Section bundle.
Context `{Ed25519, B64, JsonOf RosterLine, JsonOf (list PeerRecord)}.
Context {Fs Doc Ver : Type} `{VaultFsLaws Fs}.
Variable pick : gset u64 → option u64.
Variable fuel : nat.
Implicit Types s : Store Fs Doc Ver.

Lemma roster_file_inj r a b : roster_file r a = roster_file r b → a = b.
Proof. apply log_path_inj. Qed.

(** Every roster log of [f] is kept or extended in [f'], the own one kept. *)
Definition rosters_grow (r : path) (me : u64) (f f' : Fs) : Prop :=
  (∀ a, default [] (files f !! roster_file r a) `prefix_of` default [] (files f' !! roster_file r a)) ∧
  files f' !! roster_file r me = files f !! roster_file r me.

Lemma rosters_grow_refl r me f f' :
  (∀ a, files f' !! roster_file r a = files f !! roster_file r a) → rosters_grow r me f f'.
Proof. intros Heq. split; [intros a; by rewrite Heq|apply Heq]. Qed.
Lemma rosters_grow_trans r me f1 f2 f3 :
  rosters_grow r me f1 f2 → rosters_grow r me f2 f3 → rosters_grow r me f1 f3.
Proof. intros [H12 M12] [H23 M23]. split; [intros a; etrans; [apply H12|apply H23]|congruence]. Qed.

Lemma import_bundle_log_grow s x r s' :
  fs_inv (fs s) → (∀ a, fs_path (roster_file (root s) a)) →
  import_bundle_log x s = (r, s') →
  same_but_fs s s' ∧ fs_inv (fs s') ∧ rosters_grow (root s) (id_peer (identity s)) (fs s) (fs s').
Proof.
  intros Hinv Hp. unfold import_bundle_log, mbind, SM_bind, sm_get. destruct x as [author b].
  case_decide as Hme; [intros [= <- <-]; split_and!; try done; by apply rosters_grow_refl|].
  change (ro_path _) with (roster_file (root s) author). rewrite fs_read_spec by done.
  assert (∀ r s', default [] (files (fs s) !! roster_file (root s) author) `prefix_of` b →
    on_fs (io (fs_write (roster_file (root s) author) b)) s = (r, s') →
    same_but_fs s s' ∧ fs_inv (fs s') ∧
    rosters_grow (root s) (id_peer (identity s)) (fs s) (fs s')) as Hw.
  { intros r1 s1 Hpre [E1 Hs]%on_fs_frame. apply io_write_files in E1 as [Hinv1 Hf1]; [|done..].
    split_and!; try apply Hs; [done|]. destruct r1 as [[]|]; [|by apply rosters_grow_refl; rewrite Hf1].
    split.
    - intros a. rewrite Hf1, lookup_insert. case_decide as Ha; [|done]. rewrite <-Ha. exact Hpre.
    - rewrite Hf1, lookup_insert_ne; [done|]. intros Heq%roster_file_inj. done. }
  destruct (files (fs s) !! roster_file (root s) author) as [old|] eqn:Eo; simpl.
  - destruct (starts_with b old) eqn:Es.
    + apply Hw. simpl. by apply starts_with_prefix.
    + intros [= <- <-]. split_and!; try done.
  - apply Hw. apply prefix_nil.
Qed.

Lemma import_bundle_logs_grow logs s r s' :
  fs_inv (fs s) → (∀ a, fs_path (roster_file (root s) a)) →
  sm_iter import_bundle_log logs s = (r, s') →
  same_but_fs s s' ∧ fs_inv (fs s') ∧ rosters_grow (root s) (id_peer (identity s)) (fs s) (fs s').
Proof.
  revert s. induction logs as [|x logs IH]; intros s Hinv Hp; simpl.
  { intros [= <- <-]. split_and!; try done. }
  unfold mbind, SM_bind. destruct (import_bundle_log x s) as [r1 s1] eqn:E1.
  destruct (import_bundle_log_grow s x r1 s1 Hinv Hp E1) as (Hs1&Hinv1&Hg1).
  destruct r1 as [[]|e]; [|by intros [= <- <-]]. intros E2. pose proof Hs1 as (Hr&Hi&_).
  destruct (IH s1 Hinv1) as (Hs2&Hinv2&Hg2); [by rewrite Hr|done|].
  rewrite Hr, Hi in Hg2. split_and!; [|done|by eapply rosters_grow_trans].
  destruct Hs1 as (?&?&?&?&?&?), Hs2 as (?&?&?&?&?&?). unfold same_but_fs. split_and!; congruence.
Qed.

(** A pairing bundle can only extend what is on disk. After importing any
    bundle of unverified roster logs, every author's stored log has the former
    one as a byte prefix, and this device's own log is untouched. *)
Theorem import_bundle_append_only logs s r s' :
  fs_inv (fs s) → vault_paths (Fs := Fs) (root s) → (∀ a, fs_path (roster_file (root s) a)) →
  import_roster_bundle pick fuel logs s = (r, s') →
  rosters_grow (root s) (id_peer (identity s)) (fs s) (fs s').
Proof.
  intros Hinv Hv Hp Hrun. unfold import_roster_bundle in Hrun.
  unfold mbind at 1, SM_bind, sm_get in Hrun. unfold mbind at 1, SM_bind in Hrun.
  destruct (on_fs (io (fs_create_dir_all _)) s) as [r1 s1] eqn:E1. apply on_fs_frame in E1 as [E1 Hs1].
  apply io_mkdir in E1 as (Hinv1&Hf1&->); [|done]. destruct Hs1 as (Hr1&Hi1&_).
  unfold mbind at 1, SM_bind in Hrun. destruct (sm_iter import_bundle_log logs s1) as [r2 s2] eqn:E2.
  rewrite <-Hr1 in *. destruct (import_bundle_logs_grow logs s1 r2 s2 Hinv1 Hp E2) as (Hs2&Hinv2&Hg2).
  assert (rosters_grow (root s1) (id_peer (identity s)) (fs s) (fs s2)) as Hg.
  { rewrite Hi1 in Hg2. eapply rosters_grow_trans; [|exact Hg2]. apply rosters_grow_refl. by rewrite Hf1. }
  destruct r2 as [[]|e]; [|by injection Hrun as <- <-].
  eapply rosters_grow_trans; [exact Hg|]. apply rosters_grow_refl. intros a. destruct Hs2 as (Hr2&_).
  rewrite <-Hr2 in *. destruct (roster_file_not_cache (root s2) a) as [Hc1 Hc2].
  by eapply (refresh_peers_frame pick fuel s2 r s').
Qed.
End bundle.

(** ** A role change, end to end *)
Section role_change.
Context `{Ed25519Laws, B64Laws, JsonLaws RosterLine, JsonOf (list PeerRecord)}.
Context {Fs Doc Ver : Type} `{VaultFsLaws Fs}.
Variable pick : gset u64 → option u64.
Variable fuel : nat.
Abbreviation St := (Store Fs Doc Ver).

Definition me (s : St) : u64 := id_peer (identity s).
Definition mykey (s : St) : bytes := id_key (identity s).
Abbreviation bel s seeds := (Believed ed_key_ok (read_author (root s) (fs s)) seeds).

(** A vault whose own roster log is intact and whose believed keys have no
    64-bit collisions; [universe] bounds the devices mentioned. *)
Record roster_state (s : St) (seeds : gmap u64 bytes) (universe : gset u64)
    (lines : list RosterLine) (own : list RosterEntry) : Prop := {
  rs_inv : fs_inv (fs s);
  rs_paths : vault_paths (Fs := Fs) (root s);
  rs_path : fs_path (roster_file (root s) (me s));
  rs_lines : log_holds (fs s) (roster_file (root s) (me s)) lines;
  rs_own : roster_read_verified (own_roster s) (mykey s) (fs s) = Ok own;
  rs_seq : seq_run seq own;
  rs_max : (N.of_nat (length own) < U64_MAX)%N;
  rs_seeds : seed_keys (root s) (me s) (mykey s) (founder s) (fs s) = Ok seeds;
  rs_collision a k k' : bel s seeds a k → bel s seeds a k' → k = k';
  rs_universe1 : dom seeds ⊆ universe;
  rs_universe2 a k es e : bel s seeds a k → read_author (root s) (fs s) a k = Some es → e ∈ es →
    subject_peer e ∈ universe;
  rs_fuel : size universe < fuel;
  rs_pick : chooses pick;
}.

Lemma read_author_files r (f f' : Fs) a k :
  fs_inv f → fs_inv f' → files f' !! roster_file r a = files f !! roster_file r a →
  read_author r f' a k = read_author r f a k.
Proof.
  intros Hi Hi' Hf. unfold read_author, roster_read_verified, read_verified, fs_read_to_string.
  rewrite !fs_read_spec by done. unfold roster_file in Hf. by rewrite Hf.
Qed.

Lemma seed_keys_files r (f f' : Fs) m k fd :
  fs_inv f → fs_inv f' → (∀ a, a ≠ m → files f' !! roster_file r a = files f !! roster_file r a) →
  seed_keys r m k fd f' = seed_keys r m k fd f.
Proof.
  intros Hi Hi' Hf. unfold seed_keys. destruct fd as [fid|]; [|done].
  destruct (decide (fid = m)) as [->|Hne]; [by rewrite lookup_singleton_eq|].
  rewrite lookup_singleton_ne by done. unfold peek_self_key, fs_read_to_string.
  rewrite !fs_read_spec by done. specialize (Hf fid Hne). unfold roster_file in Hf. by rewrite Hf.
Qed.

Lemma seed_keys_me r m k fd (f : Fs) seeds : seed_keys r m k fd f = Ok seeds → seeds !! m = Some k.
Proof.
  unfold seed_keys. destruct fd as [fid|].
  2:{ intros [= <-]. apply lookup_singleton_eq. }
  destruct (decide (fid = m)) as [->|Hne].
  { rewrite lookup_singleton_eq. intros [= <-]. apply lookup_singleton_eq. }
  rewrite lookup_singleton_ne by done.
  destruct (peek_self_key _ _) as [o|]; [simpl|done]. intros [= <-].
  destruct o as [fk|]; [|apply lookup_singleton_eq].
  case_decide; [|apply lookup_singleton_eq].
  rewrite lookup_insert_ne by done. apply lookup_singleton_eq.
Qed.

Lemma collect_ok s seeds universe lines own :
  roster_state s seeds universe lines own →
  ∃ es, collect_roster_entries pick fuel (root s) (me s) (mykey s) (founder s) (fs s) = Ok es ∧
        ∀ e, e ∈ es ↔ believed_entry ed_key_ok (read_author (root s) (fs s)) seeds e.
Proof.
  intros Hs. destruct (rs_pick _ _ _ _ _ Hs) as [Hp1 Hp2].
  destruct (collect_spec ed_key_ok (read_author (root s) (fs s)) seeds
    (rs_collision _ _ _ _ _ Hs) universe (rs_universe1 _ _ _ _ _ Hs) (rs_universe2 _ _ _ _ _ Hs)
    pick Hp1 Hp2 fuel (rs_fuel _ _ _ _ _ Hs)) as (es&Hes&Hel).
  exists es. split; [|done]. unfold collect_roster_entries. rewrite (rs_seeds _ _ _ _ _ Hs). simpl.
  by rewrite Hes.
Qed.

Lemma believed_universe s seeds universe lines own a k :
  roster_state s seeds universe lines own → bel s seeds a k → a ∈ universe.
Proof.
  intros Hs. induction 1 as [a k Ha|].
  - apply (rs_universe1 _ _ _ _ _ Hs), elem_of_dom. by exists k.
  - by eapply (rs_universe2 _ _ _ _ _ Hs).
Qed.

(** Authoring one operation about a known peer: the peer set becomes the merge of
    the entries collected before plus the new one, stamped with the next clock. *)
Lemma author_op_spec s seeds universe lines own es o p key s' :
  roster_state s seeds universe lines own → length key = 32 → bel s seeds p key →
  collect_roster_entries pick fuel (root s) (me s) (mykey s) (founder s) (fs s) = Ok es →
  author_op pick fuel o p key s = (Ok tt, s') →
  let lam := saturating_add
    (foldl N.max 0%N (lamport <$> filter (λ e, subject_peer e = p) es)) 1 in
  let e := mkRosterEntry (N.of_nat (S (length own))) lam o p key (me s) in
  ∃ es', peers s' = merge_roster es' (founder s) ∧ (∀ x, x ∈ es' ↔ x ∈ e :: es) ∧
         root s' = root s ∧ identity s' = identity s.
Proof.
  intros Hs Hlen Hbel Hes Hrun lam e.
  destruct (collect_ok _ _ _ _ _ Hs) as (es0&Hes0&Hel0). rewrite Hes in Hes0. injection Hes0 as <-.
  unfold author_op in Hrun. unfold mbind at 1, SM_bind, sm_get in Hrun.
  unfold mbind at 1, SM_bind, sm_lift, next_role_lamport in Hrun.
  change (id_peer (identity s)) with (me s) in Hrun. change (id_key (identity s)) with (mykey s) in Hrun.
  rewrite Hes in Hrun. simpl in Hrun. fold lam in Hrun. unfold mbind at 1, SM_bind in Hrun.
  destruct (on_fs _ s) as [[e0|] s1] eqn:E1; [|done]. apply on_fs_frame in E1 as [E1 Hs1].
  destruct (roster_append_spec (own_roster s) (identity s) lam o p key (fs s) (fs s1) lines own e0)
    as (->&Hown'&Hseq'&_&Hinv'&Hoth); try done; try apply Hs.
  destruct Hs1 as (Hr1&Hi1&_&_&_&Hf1). fold e in Hown', Hseq'.
  assert (∀ a, a ≠ me s → files (fs s1) !! roster_file (root s) a = files (fs s) !! roster_file (root s) a) as Ho.
  { intros a Ha. apply Hoth. intros Heq%roster_file_inj. done. }
  destruct (refresh_peers_frame pick fuel s1 (Ok tt) s' (roster_file (root s1) (me s)))
    as (Hr2&Hi2&_&_&_&Hps); try done.
  { rewrite Hr1. apply Hs. } { apply roster_file_not_cache. } { apply roster_file_not_cache. }
  specialize (Hps eq_refl). rewrite Hr1, Hi1, Hf1 in Hps.
  change (id_peer (identity s)) with (me s) in Hps. change (id_key (identity s)) with (mykey s) in Hps.
  unfold rebuild_peers, collect_roster_entries in Hps.
  rewrite (seed_keys_files _ (fs s) (fs s1)) in Hps; [|apply Hs|done|exact Ho].
  rewrite (rs_seeds _ _ _ _ _ Hs) in Hps. simpl in Hps.
  set (rd := read_author (root s) (fs s)) in *. set (rd' := read_author (root s) (fs s1)) in *.
  assert (rd (me s) (mykey s) = Some own) as Hrd.
  { unfold rd, read_author. pose proof (rs_own _ _ _ _ _ Hs) as Ho'. unfold own_roster in Ho'.
    unfold me. by rewrite Ho'. }
  assert (rd' (me s) (mykey s) = Some (own ++ [e])) as Hrd'.
  { unfold rd', read_author. unfold own_roster in Hown'. unfold me, mykey. by rewrite Hown'. }
  assert (∀ a k, a ≠ me s → rd' a k = rd a k) as Hrdo.
  { intros a k Ha. apply read_author_files; [apply Hs|done|by apply Ho]. }
  pose proof (seed_keys_me _ _ _ _ _ _ (rs_seeds _ _ _ _ _ Hs)) as Hme.
  pose proof (ed_public_ok (id_secret (identity s))) as Hok.
  pose proof (believed_append ed_key_ok rd rd' seeds (me s) (mykey s) own e Hme Hok
    (rs_collision _ _ _ _ _ Hs) Hrd Hrd' Hrdo Hbel) as Hbe.
  destruct (rs_pick _ _ _ _ _ Hs) as [Hp1 Hp2].
  destruct (collect_spec ed_key_ok rd' seeds) with (universe := universe) (pick := pick) (fuel := fuel)
    as (es'&Hes'&Hel'); try done; try apply Hs.
  { intros a k k' ?%Hbe ?%Hbe. by eapply (rs_collision _ _ _ _ _ Hs). }
  { intros a k es2 x Ha%Hbe Hr Hx. destruct (decide (a = me s)) as [->|Hne].
    - assert (k = mykey s) as ->.
      { eapply (rs_collision _ _ _ _ _ Hs); [exact Ha|]. by apply believed_seed. }
      rewrite Hrd' in Hr. injection Hr as <-.
      apply elem_of_app in Hx as [Hx| ->%list_elem_of_singleton].
      + by eapply (rs_universe2 _ _ _ _ _ Hs).
      + by eapply believed_universe.
    - rewrite Hrdo in Hr by done. by eapply (rs_universe2 _ _ _ _ _ Hs). }
  rewrite Hes' in Hps. simpl in Hps. injection Hps as <-. exists es'.
  split_and!; [done| |congruence..]. intros x. rewrite Hel'.
  rewrite (believed_entry_append ed_key_ok rd rd' seeds (me s) (mykey s) own e Hme Hok
    (rs_collision _ _ _ _ _ Hs) Hrd Hrd' Hrdo Hbel).
  by rewrite elem_of_cons, Hel0.
Qed.

(** *** What the peer set says afterwards *)
Lemma find_sorted (l : list PeerRecord) q :
  StronglySorted (λ x y, peer_id x < peer_id y)%N l → q ∈ l →
  head (filter (λ r, peer_id r = peer_id q) l) = Some q.
Proof.
  induction 1 as [|x l Hs IH Hall]; [by intros ?%elem_of_nil|].
  rewrite filter_cons. intros [->|Hq]%elem_of_cons; [by rewrite decide_True|].
  rewrite Forall_forall in Hall. specialize (Hall q Hq).
  rewrite decide_False by lia. by apply IH.
Qed.

Lemma role_of_merge (s : St) es es' fd q :
  peers s = merge_roster es' fd → (∀ x, x ∈ es' ↔ x ∈ es) → q ∈ merge_roster es fd →
  role_of s (peer_id q) = Some (role q).
Proof.
  intros Hps Heq Hq. unfold role_of, find_peer. rewrite Hps.
  pose proof (privileges_ext es es' fd) as Hw.
  assert (without_name q ∈ without_name <$> merge_roster es' fd) as (q'&Hqq&Hq')%list_elem_of_fmap.
  { rewrite <-Hw by (intros x; by rewrite Heq). by apply list_elem_of_fmap_2. }
  assert (peer_id q' = peer_id q) as <- by (by apply (f_equal peer_id) in Hqq).
  assert (role q' = role q) as <- by (by apply (f_equal role) in Hqq).
  by rewrite (find_sorted _ q') by (done || apply merge_roster_strict).
Qed.

(** [1 + max] of the lamports of the entries about a subject. *)
Lemma foldl_max_le (l : list u64) a m : (foldl N.max a l ≤ m ↔ a ≤ m ∧ ∀ x, x ∈ l → x ≤ m)%N.
Proof.
  revert a. induction l as [|x l IH]; intros a; simpl; [set_solver|].
  rewrite IH. setoid_rewrite elem_of_cons. split.
  - intros [? Hl]. split; [lia|]. intros y [->|Hy]; [lia|by apply Hl].
  - intros [? Hl]. split; [|by auto]. specialize (Hl x (or_introl eq_refl)). lia.
Qed.

Lemma foldl_max_ge (l : list u64) a x : x ∈ l → (x ≤ foldl N.max a l)%N.
Proof. intros Hx. by apply (proj1 (foldl_max_le l a (foldl N.max a l)) (N.le_refl _)). Qed.

Lemma ceiling_le_max es fd p m :
  (∀ x, x ∈ es → is_u64 (lamport x)) →
  (∀ x, x ∈ es → subject_peer x = p → lamport x ≤ m)%N → (ceiling_at es fd p ≤ m)%N.
Proof.
  intros Hu Hm. unfold ceiling_at.
  destruct (decide (subject_lamports (authored es fd) p = ∅)) as [->|Hne]; [change (0 ≤ m)%N; lia|].
  destruct (gset_min_exists _ Hne) as (l0&Hl0&Hmin).
  assert (∀ x, x ∈ subject_lamports (authored es fd) p → is_u64 x ∧ x ≤ m)%N as Hall.
  { intros x (e&He&_&Hs&<-)%elem_of_subject_lamports. apply elem_of_authored in He as (He&_&_).
    split; [by apply Hu|by apply Hm]. }
  destruct (ceiling_of_spec _ l0 Hl0 Hmin) as (Hle&Hin&_); [by intros x []%Hall|].
  apply Hall, Hin. split; [done|lia].
Qed.

(** C8: an admin's role change takes effect. Take a vault whose own roster log is
    intact, whose believed keys do not collide, and in which every entry about a
    known peer lies within that peer's causal clock. When an admin's [set_role]
    returns [Ok], the peer's role in the rebuilt peer set is the new one. (A
    promotion to admin is included when the peer was an admin before.) *)
Theorem set_role_effective s seeds universe lines own es p key r s' :
  roster_state s seeds universe lines own → length key = 32 → bel s seeds p key →
  collect_roster_entries pick fuel (root s) (me s) (mykey s) (founder s) (fs s) = Ok es →
  (∀ x, x ∈ es → is_u64 (lamport x)) →
  (∀ x, x ∈ es → subject_peer x = p → lamport x ≤ ceiling_at es (founder s) p)%N →
  (ceiling_at es (founder s) p < U64_MAX)%N →
  EverAdmin (valid_entries es) (founder s) (me s) →
  (r = Admin → EverAdmin (valid_entries es) (founder s) p) →
  set_role pick fuel p key r s = (Ok tt, s') →
  role_of s' p = Some r.
Proof.
  intros Hs Hlen Hbel Hes Hu Hclean Hmax Hadm Hpa Hrun.
  unfold set_role, admin_op, mbind, SM_bind, sm_get, sm_lift in Hrun.
  destruct (require_admin s) as [[]|]; [|done].
  unfold check_peer_id_binding in Hrun. case_decide as Hbind; [done|].
  destruct (author_op_spec s seeds universe lines own es (SetRole r) p key s')
    as (es'&Hps&Heq&_&_); try done. simpl in Heq.
  set (c := ceiling_at es (founder s) p) in *.
  assert (foldl N.max 0 (lamport <$> filter (λ e, subject_peer e = p) es) = c)%N as Hc.
  { apply N.le_antisymm.
    - apply foldl_max_le. split; [lia|].
      intros x (e&->&He)%list_elem_of_fmap. apply list_elem_of_filter in He as [? ?]. by apply Hclean.
    - apply ceiling_le_max; [done|]. intros x Hx Hxs.
      apply foldl_max_ge, list_elem_of_fmap. exists x. by rewrite list_elem_of_filter. }
  rewrite Hc in Heq. replace (saturating_add c 1) with (c + 1)%N in Heq
    by (unfold saturating_add; lia).
  set (e := mkRosterEntry _ _ _ _ _ _) in Heq.
  destruct (fresh_grant_role es e (founder s)) as (q&Hq&Hqp&Hqr); try done.
  - intros x [->|Hx]%elem_of_cons; [|by apply Hu]. unfold is_u64, e. simpl. lia.
  - intros x Hx _ _. apply elem_of_authored_cons in Hx; [done|].
    unfold grants_admin, e. simpl. destruct r; naive_solver.
  - intros l (x&Hx&_&Hxs&<-)%elem_of_subject_lamports. apply elem_of_authored in Hx as (Hx&_&_).
    by apply Hclean.
  - change p with (subject_peer e). rewrite <-Hqp.
    rewrite (role_of_merge s' (e :: es) es' (founder s) q) by done. by rewrite Hqr.
Qed.

(** But once a device has named itself, the next role change is lost. Naming
    a device takes the next value of the same clock, which the fold does not
    count for roles; so when some entry about the peer is past its causal
    ceiling, an admin's [set_role] returns [Ok] and changes no one's role or
    status. *)
Theorem role_change_after_name_lost s seeds universe lines own es p key r s' n :
  roster_state s seeds universe lines own → length key = 32 → bel s seeds p key →
  collect_roster_entries pick fuel (root s) (me s) (mykey s) (founder s) (fs s) = Ok es →
  (∀ x, x ∈ es → is_u64 (lamport x)) →
  n ∈ es → is_set_name n → subject_peer n = p → (ceiling_at es (founder s) p < lamport n < U64_MAX)%N →
  (∀ x, x ∈ es → lamport x < U64_MAX)%N →
  subject_lamports (authored es (founder s)) p ≠ ∅ →
  (r = Admin → EverAdmin (valid_entries es) (founder s) p) →
  set_role pick fuel p key r s = (Ok tt, s') →
  privileges <$> peers s' = privileges <$> merge_roster es (founder s).
Proof.
  intros Hs Hlen Hbel Hes Hu Hn _ Hnp Hnl Hmax Hg Hpa Hrun.
  unfold set_role, admin_op, mbind, SM_bind, sm_get, sm_lift in Hrun.
  destruct (require_admin s) as [[]|]; [|done].
  unfold check_peer_id_binding in Hrun. case_decide as Hbind; [done|].
  destruct (author_op_spec s seeds universe lines own es (SetRole r) p key s')
    as (es'&Hps&Heq&_&_); try done. simpl in Heq.
  set (m := foldl N.max 0%N _) in Heq.
  assert (lamport n ≤ m)%N as Hm1.
  { apply foldl_max_ge, list_elem_of_fmap. exists n.
    by rewrite list_elem_of_filter. }
  assert (m < U64_MAX)%N as Hm2.
  { apply N.le_lt_trans with (U64_MAX - 1)%N; [|unfold U64_MAX; lia]. apply foldl_max_le.
    split; [unfold U64_MAX; lia|]. intros x (y&->&Hy)%list_elem_of_fmap.
    apply list_elem_of_filter in Hy as [_ Hy]. specialize (Hmax y Hy). lia. }
  replace (saturating_add m 1) with (m + 1)%N in Heq by (unfold saturating_add; lia).
  set (e := mkRosterEntry _ _ _ _ _ _) in Heq.
  assert (privileges <$> merge_roster es' (founder s) = privileges <$> merge_roster (e :: es) (founder s)) as Hpr.
  { pose proof (privileges_ext es' (e :: es) (founder s) Heq) as Hw.
    apply (f_equal (fmap privileges)) in Hw. by rewrite <-!list_fmap_compose in Hw. }
  rewrite Hps, Hpr. apply forged_grant_inert; try done.
  - intros x [->|Hx]%elem_of_cons; [|by apply Hu]. unfold is_u64, e. simpl. lia.
  - unfold grants_admin, e. simpl. destruct r; naive_solver.
  - unfold e. simpl. lia.
Qed.
End role_change.
