(* ===== verification/StoreSync.v ===== *)
(** * StoreSync: importing other devices' op logs (crates/roam-storage/src/store.rs)

    [Store::import_peer] and its guards, [apply_peer_ops] (prefix-aware merge of a
    received log), [dedup_append_peer_lines] and [dedup_append_peer_line], and
    snapshot adoption. *)
From S2P Require Import Prelude RustStr Vfs Roster Wire Logs Trust Store StoreRoster.
From Stdlib Require Import Strings.Byte.

Definition NL : byte := Byte.x0a.

(** [b.ends_with(s)] on bytes *)
Definition ends_with (b s : bytes) : bool := bool_decide (drop (length b - length s) b = s).

(** [split_log_lines_bytes]: chunks that keep their newline; a torn tail is a
    chunk of its own. *)
Fixpoint split_log_lines_go (cur : bytes) (log : bytes) : list bytes :=
  match log with
  | [] => if decide (cur = []) then [] else [cur]
  | b :: log =>
      if decide (b = NL) then (cur ++ [b]) :: split_log_lines_go [] log
      else split_log_lines_go (cur ++ [b]) log
  end.
Definition split_log_lines_bytes (log : bytes) : list bytes := split_log_lines_go [] log.

(** The largest [k] in [1..=n] such that [stored] ends with the first [k] bytes of
    [appended]; 0 if there is none. *)
Fixpoint find_overlap (stored appended : bytes) (n : nat) : nat :=
  match n with
  | O => 0
  | S n' => if ends_with stored (take n appended) then n else find_overlap stored appended n'
  end.

Definition merge_peer_log (stored appended : bytes) : bytes :=
  if starts_with appended stored then appended
  else if starts_with stored appended then stored
  else
    let overlap := find_overlap stored appended (length stored `min` length appended) in
    stored ++ drop overlap appended.

(** The candidate log with the lines not seen yet appended, and their number. *)
Fixpoint append_unseen (seen : list bytes) (whole : bytes) (added : nat) (lines : list bytes)
    : bytes * nat :=
  match lines with
  | [] => (whole, added)
  | line :: lines =>
      if decide (line ∈ seen) then append_unseen seen whole added lines
      else
        let whole := if bool_decide (whole ≠ []) && negb (ends_with whole [NL]) then whole ++ [NL] else whole in
        append_unseen (line :: seen) (whole ++ line) (S added) lines
  end.

Section sync.
Context `{Ed25519, B64, JsonOf EntryLine, JsonOf RosterLine, JsonOf (list PeerRecord)}.
Context {Fs Doc Ver : Type} `{VaultFs Fs, DocOps Doc Ver}.
Abbreviation St := (Store Fs Doc Ver).

Definition peer_log (s : St) (p : u64) : OpLog := OpLog_new (ops_dir (root s)) p.

Definition export_own_log (s : St) : result StorageError bytes :=
  read_or_empty (op_path (own_log s)) (fs s).
Definition export_peer_log (s : St) (p : u64) : result StorageError bytes :=
  read_or_empty (op_path (peer_log s p)) (fs s).

(** EN1: every update must carry only ops of its author. *)
Fixpoint probe_all (self author : u64) (es : list Entry) : result StorageError unit :=
  match es with
  | [] => Ok tt
  | e :: es =>
      d ← doc_new self;
      _ ← fst (doc_import_authored_by author (e_update e) d);
      probe_all self author es
  end.

Definition import_peer (p : u64) (key b : bytes) : SM St StorageError unit :=
  s ← sm_get;
  _ ← sm_lift match find_peer s p with
              | Some r => if bool_decide (status r = Active) && negb (bool_decide (role r = Reader))
                          then Ok tt else Err Peer
              | None => Err Peer
              end;
  if decide (p = id_peer (identity s)) then sm_fail Peer
  else
    _ ← on_fs (io (fs_create_dir_all (ops_dir (root s))));
    s ← sm_get;
    let log := peer_log s p in
    _ ← sm_lift match fs_read (op_path log) (fs s) with
                | Ok existing => if decide (length b < length existing) then Err Peer else Ok tt
                | Err _ => Ok tt
                end;
    es ← sm_lift (oplog_verify_bytes log key b);
    _ ← sm_lift (probe_all (id_peer (identity s)) p es);
    _ ← on_fs (io (fs_write (op_path log) b));
    _ ← on_doc (import_all es);
    _ ← modify (λ s, set_doc (doc_commit (doc s)) s);
    modify (λ s, set_persisted (doc_version (doc s)) s).

Definition apply_peer_ops (author : u64) (key appended : bytes) : SM St StorageError unit :=
  s ← sm_get;
  if decide (author = id_peer (identity s)) then mret tt
  else
    stored ← sm_lift (export_peer_log s author);
    import_peer author key (merge_peer_log stored appended).

Definition dedup_append_peer_lines (author : u64) (key : bytes) (lines : list bytes)
    : SM St StorageError nat :=
  s ← sm_get;
  if decide (author = id_peer (identity s)) then mret 0
  else
    existing ← sm_lift (export_peer_log s author);
    let '(whole, added) := append_unseen (split_log_lines_bytes existing) existing 0 lines in
    if decide (added = 0) then mret 0
    else
      let whole := if ends_with whole [NL] then whole else whole ++ [NL] in
      _ ← import_peer author key whole;
      mret added.

Definition dedup_append_peer_line (author : u64) (key line : bytes) : SM St StorageError unit :=
  s ← sm_get;
  if decide (author = id_peer (identity s)) then mret tt
  else
    existing ← sm_lift (export_peer_log s author);
    if decide (line ∈ split_log_lines_bytes existing) then mret tt
    else
      let whole := if bool_decide (existing ≠ []) && negb (ends_with existing [NL])
                   then existing ++ [NL] else existing in
      let whole := whole ++ line in
      let whole := if ends_with whole [NL] then whole else whole ++ [NL] in
      import_peer author key whole.

Definition adopt_snapshot (b : bytes) : SM St StorageError unit :=
  _ ← on_doc (doc_import b);
  _ ← modify (λ s, set_doc (doc_commit (doc s)) s);
  s ← sm_get;
  snap ← sm_lift (doc_snapshot (doc s));
  _ ← on_fs (snapshot_save (snapshot_path (root s)) snap);
  modify (λ s, set_persisted (doc_version (doc s)) s).
End sync.

(** ** Splitting into lines loses nothing *)
Lemma split_go_concat cur log : concat (split_log_lines_go cur log) = cur ++ log.
Proof.
  revert cur. induction log as [|b log IH]; intros cur; simpl.
  - case_decide as Hc; [by rewrite Hc|]. simpl. by rewrite !app_nil_r.
  - case_decide as Hb; simpl; rewrite IH; by rewrite <-(assoc_L (++)).
Qed.
Lemma split_log_concat log : concat (split_log_lines_bytes log) = log.
Proof. apply split_go_concat. Qed.

(** A complete line: some bytes without a newline, then one. *)
Definition complete_line (l : bytes) : Prop := ∃ c, l = c ++ [NL] ∧ NL ∉ c.

Lemma split_go_line cur c log :
  NL ∉ c → split_log_lines_go cur (c ++ NL :: log) = (cur ++ c ++ [NL]) :: split_log_lines_go [] log.
Proof.
  revert cur. induction c as [|b c IH]; intros cur Hc; simpl; [done|].
  rewrite decide_False by set_solver. rewrite IH by set_solver. by rewrite <-!(assoc_L (++)).
Qed.
Lemma split_concat_lines ls :
  Forall complete_line ls → split_log_lines_bytes (concat ls) = ls.
Proof.
  unfold split_log_lines_bytes. induction 1 as [|l ls (c&->&Hc) Hls IH]; [done|]. simpl.
  rewrite <-(assoc_L (++)). simpl. rewrite split_go_line by done. by rewrite IH.
Qed.

(** ** Merging a received log *)
Lemma ends_with_spec b s : ends_with b s = true ↔ s `suffix_of` b.
Proof.
  unfold ends_with. rewrite bool_decide_eq_true. split.
  - intros <-. exists (take (length b - length s) b). by rewrite take_drop.
  - intros [k ->]. rewrite length_app. replace (length k + length s - length s) with (length k) by lia.
    apply drop_app_length.
Qed.

Lemma complete_cons_inj x y u v :
  complete_line x → complete_line y → x ++ u = y ++ v → x = y ∧ u = v.
Proof.
  intros (c&->&Hc) (d&->&Hd). rewrite <-!(assoc_L (++)). simpl.
  revert d Hd. induction c as [|b c IH]; intros [|b' d] Hd; simpl; intros [= Heq]; subst.
  - done.
  - set_solver.
  - set_solver.
  - destruct (IH ltac:(set_solver) d) as [? ?]; [set_solver|done|]. simplify_list_eq. split; congruence.
Qed.

Lemma concat_lines_prefix X Y z :
  Forall complete_line X → Forall complete_line Y → concat X ++ z = concat Y → X `prefix_of` Y.
Proof.
  revert Y. induction X as [|x X IH]; intros Y HX HY Heq; [apply prefix_nil|].
  apply Forall_cons in HX as [Hx HX]. destruct Y as [|y Y].
  { destruct Hx as (c&->&_). by destruct c. }
  apply Forall_cons in HY as [Hy HY]. simpl in Heq. rewrite <-(assoc_L (++)) in Heq.
  apply complete_cons_inj in Heq as [-> Heq]; [|done..]. by apply prefix_cons, IH.
Qed.

Lemma take_lines_boundary Y k :
  Forall complete_line Y → last (take k (concat Y)) = Some NL →
  ∃ r, take k (concat Y) = concat (take r Y).
Proof.
  revert k. induction Y as [|y Y IH]; intros k HY; simpl; [by rewrite take_nil|].
  apply Forall_cons in HY as [(c&->&Hc) HY].
  destruct (decide (length (c ++ [NL]) ≤ k)) as [Hk|Hk].
  - rewrite take_app_ge by done. set (k' := k - _). rewrite last_app.
    destruct (last (take k' (concat Y))) as [b|] eqn:El.
    + intros [= ->]. destruct (IH k' HY El) as [r Hr]. exists (S r). simpl. by rewrite Hr.
    + intros _. apply last_None in El. rewrite El. exists 1. done.
  - rewrite take_app_le by lia. rewrite length_app in Hk. simpl in Hk.
    rewrite take_app_le by lia. intros Hl. exfalso. apply Hc.
    apply last_Some_elem_of in Hl. rewrite <-(take_drop k c). set_solver.
Qed.

(** A line at the end of a log that is a suffix of it is a suffix of its last line. *)
Lemma line_suffix_last c D l :
  complete_line c → Forall complete_line D → complete_line l →
  c `suffix_of` concat (D ++ [l]) → c `suffix_of` l.
Proof.
  intros (c0&->&Hc) HD (l0&->&Hl). rewrite concat_app. simpl. rewrite app_nil_r.
  intros [k Hk]. rewrite !(assoc_L (++)) in Hk. apply app_inj_2 in Hk as [Hk _]; [|done].
  destruct (decide (length c0 ≤ length l0)) as [Hle|Hgt].
  - set (n := length l0 - length c0). exists (take n l0). rewrite (assoc_L (++)). f_equal.
    rewrite <-(take_drop n l0) in Hk at 1. rewrite (assoc_L (++)) in Hk.
    apply app_inj_2 in Hk as [_ Hk]; [|rewrite length_drop; lia].
    rewrite <-(take_drop n l0) at 1. by rewrite Hk.
  - destruct D as [|d D _] using rev_ind.
    { apply (f_equal length) in Hk. rewrite !length_app in Hk. simpl in Hk. lia. }
    apply Forall_app in HD as [_ [(d0&->&_) _]%Forall_cons].
    rewrite concat_app in Hk. simpl in Hk. rewrite app_nil_r in Hk.
    exfalso. apply Hc. apply app_eq_inv in Hk as [(m&Hm&->)|(m&_&->)].
    + destruct m as [|b m _] using rev_ind; [simpl in Hgt; lia|].
      rewrite !(assoc_L (++)) in Hm. apply app_inj_2 in Hm as [_ [= <-]]; [|done]. set_solver.
    + rewrite length_app in Hgt. lia.
Qed.

(** No line of a log is the tail of a different one. *)
Definition suffix_free (ls : list bytes) : Prop :=
  ∀ a b, a ∈ ls → b ∈ ls → a `suffix_of` b → a = b.

Lemma find_overlap_exact stored appended n k :
  k ≤ n → ends_with stored (take k appended) = true →
  (∀ i, k < i ≤ n → ends_with stored (take i appended) = false) →
  find_overlap stored appended n = k.
Proof.
  intros Hk He Hno. induction n as [|n IH]; [simpl; lia|]. cbn [find_overlap].
  destruct (decide (k = S n)) as [->|Hne]; [by rewrite He|].
  rewrite Hno by lia. apply IH; [lia|]. intros i Hi. apply Hno. lia.
Qed.

Section reassemble.
Variables A B C : list bytes.
Hypothesis lines_ok : Forall complete_line (A ++ B ++ C).
Hypothesis lines_distinct : NoDup (A ++ B ++ C).
Hypothesis lines_suffix_free : suffix_free (A ++ B ++ C).

Lemma parts_ok : Forall complete_line A ∧ Forall complete_line B ∧ Forall complete_line C.
Proof. apply Forall_app in lines_ok as [? Hbc]. by apply Forall_app in Hbc as [? ?]. Qed.

Lemma ab_ok : Forall complete_line (A ++ B).
Proof. destruct parts_ok as (?&?&?). by apply Forall_app. Qed.
Lemma bc_ok : Forall complete_line (B ++ C).
Proof. destruct parts_ok as (?&?&?). by apply Forall_app. Qed.

(** The two logs share their first line only if one is all of the other's head. *)
Lemma ab_prefix_bc : A ++ B `prefix_of` B ++ C → A = [].
Proof.
  destruct A as [|a A']; [done|]. intros [k Hk]. exfalso. simpl in Hk.
  apply NoDup_cons in lines_distinct as [Hn _]. apply Hn, elem_of_app. right. rewrite Hk. set_solver.
Qed.
Lemma bc_prefix_ab : B ++ C `prefix_of` A ++ B → A ++ B = A ++ B ++ C.
Proof.
  intros [k Hk]. destruct A as [|a A'].
  - simpl in Hk |- *. apply (f_equal length) in Hk as Hlen. rewrite !length_app in Hlen.
    destruct C; [by rewrite app_nil_r|simpl in Hlen; lia].
  - destruct (B ++ C) as [|x bc] eqn:E.
    { apply app_nil in E as [-> ->]. by rewrite app_nil_r. }
    simpl in Hk. injection Hk as -> Hk. exfalso.
    simpl in lines_distinct. rewrite ?E in lines_distinct.
    apply NoDup_cons in lines_distinct as [Hn _]. apply Hn. set_solver.
Qed.

(** Past the shared lines there is no overlap. *)
Lemma no_longer_overlap i :
  length (concat B) < i ≤ length (concat (B ++ C)) → A ++ B ≠ [] →
  ends_with (concat (A ++ B)) (take i (concat (B ++ C))) = false.
Proof.
  intros Hi Hne. apply not_true_iff_false. rewrite ends_with_spec. intros Hsuf.
  destruct (A ++ B) as [|l D _] eqn:Eab using rev_ind; [done|].
  pose proof ab_ok as Hab. rewrite Eab in Hab. apply Forall_app in Hab as [HD [Hl _]%Forall_cons].
  set (t := take i (concat (B ++ C))) in *.
  assert (length t = i) as Hlt by (unfold t; rewrite length_take; lia).
  assert (last t = Some NL) as Hlast.
  { destruct Hsuf as [k Hk]. destruct Hl as (c&->&_). rewrite concat_app in Hk. simpl in Hk.
    rewrite app_nil_r, (assoc_L (++)) in Hk. apply (f_equal last) in Hk.
    rewrite last_snoc, last_app in Hk. destruct (last t) eqn:Et; [done|].
    apply last_None in Et. rewrite Et in Hlt. simpl in Hlt. lia. }
  destruct (take_lines_boundary (B ++ C) i bc_ok Hlast) as [r Hr]. fold t in Hr.
  assert (length B < r) as Hrb.
  { destruct (decide (r ≤ length B)) as [Hle|]; [|lia]. exfalso.
    rewrite Hr, take_app_le in Hlt by done. rewrite <-(take_drop r B), concat_app, length_app in Hi. lia. }
  rewrite take_app_ge in Hr by lia.
  destruct (take (r - length B) C) as [|c C1 _] eqn:Ec using rev_ind.
  { rewrite app_nil_r in Hr. rewrite Hr in Hlt. lia. }
  assert (c ∈ C) as Hc.
  { rewrite <-(take_drop (r - length B) C), Ec. set_solver. }
  destruct parts_ok as (_&_&HC). rewrite Forall_forall in HC.
  assert (c `suffix_of` concat (D ++ [l])) as Hcs.
  { etrans; [|exact Hsuf]. rewrite Hr, (assoc_L (++)), concat_app. simpl. rewrite app_nil_r. by eexists. }
  apply line_suffix_last in Hcs; [|by apply HC|done|done].
  assert (c = l) as ->.
  { apply lines_suffix_free; [| |done]; [set_solver|]. rewrite (assoc_L (++)), Eab. set_solver. }
  rewrite (assoc_L (++)), Eab in lines_distinct. apply NoDup_app in lines_distinct as (_&Hd&_).
  apply (Hd l); set_solver.
Qed.

Lemma merge_reassembles : merge_peer_log (concat (A ++ B)) (concat (B ++ C)) = concat (A ++ B ++ C).
Proof.
  unfold merge_peer_log. destruct (starts_with (concat (B ++ C)) (concat (A ++ B))) eqn:E1.
  { apply starts_with_prefix in E1 as [z Hz]. symmetry in Hz.
    apply concat_lines_prefix, ab_prefix_bc in Hz; [|apply ab_ok|apply bc_ok]. by rewrite Hz. }
  destruct (starts_with (concat (A ++ B)) (concat (B ++ C))) eqn:E2.
  { apply starts_with_prefix in E2 as [z Hz]. symmetry in Hz.
    apply concat_lines_prefix, bc_prefix_ab in Hz; [|apply bc_ok|apply ab_ok]. by rewrite Hz. }
  assert (A ++ B ≠ []) as Hne.
  { intros Hab. apply not_true_iff_false in E1. apply E1, starts_with_prefix. rewrite Hab.
    apply prefix_nil. }
  rewrite (find_overlap_exact _ _ _ (length (concat B))).
  - rewrite !concat_app, drop_app_length. by rewrite <-(assoc_L (++)).
  - rewrite !concat_app, !length_app. lia.
  - apply ends_with_spec. rewrite !concat_app, take_app_length. by eexists.
  - intros i Hi. apply no_longer_overlap; [lia|done].
Qed.
End reassemble.

(** Received log fragments reassemble. If a device holds the first lines of an
    author's append-only log and receives any later stretch of it that overlaps or
    touches what it holds (from an earlier line on, in whatever fragment it was
    sent), the merged log is exactly the author's log up to the end of the
    received stretch: no line lost, none repeated. The lines of the log are
    distinct and none is the tail of another, as signed JSON objects are. *)
Theorem merge_peer_log_reassembles A B C :
  Forall complete_line (A ++ B ++ C) → NoDup (A ++ B ++ C) → suffix_free (A ++ B ++ C) →
  merge_peer_log (concat (A ++ B)) (concat (B ++ C)) = concat (A ++ B ++ C).
Proof. apply merge_reassembles. Qed.

(** Whatever arrives, what was stored stays as it was. *)
Lemma merge_peer_log_extends stored appended : stored `prefix_of` merge_peer_log stored appended.
Proof.
  unfold merge_peer_log. destruct (starts_with appended stored) eqn:E; [by apply starts_with_prefix|].
  destruct (starts_with stored appended); [done|]. by eexists.
Qed.

(** ** What an import may do to the disk *)
Section import_peer.
Context `{Ed25519, B64, JsonOf EntryLine, JsonOf RosterLine, JsonOf (list PeerRecord)}.
Context {Fs Doc Ver : Type} `{VaultFsLaws Fs, DocOps Doc Ver}.
Implicit Types s : Store Fs Doc Ver.

Definition ops_file (r : path) (p : u64) : path := op_path (OpLog_new (ops_dir r) p).

(** What must hold of a peer and of received bytes before they are stored. *)
Definition may_import s (p : u64) (key b : bytes) : Prop :=
  p ≠ id_peer (identity s) ∧
  (∃ rec, find_peer s p = Some rec ∧ status rec = Active ∧ role rec ≠ Reader) ∧
  length (default [] (files (fs s) !! ops_file (root s) p)) ≤ length b ∧
  ∃ es, oplog_verify_bytes (OpLog_new (ops_dir (root s)) p) key b = Ok es ∧
        probe_all (id_peer (identity s)) p es = Ok tt.

Lemma import_peer_spec p key b s r s' :
  fs_inv (fs s) → fs_path (ops_file (root s) p) → import_peer p key b s = (r, s') →
  peers s' = peers s ∧ (r = Ok tt → files (fs s') !! ops_file (root s) p = Some b) ∧
  (files (fs s') = files (fs s) ∨
   files (fs s') = <[ops_file (root s) p := b]> (files (fs s)) ∧ may_import s p key b).
Proof.
  intros Hinv Hp Hrun. unfold import_peer in Hrun. unfold mbind at 1, SM_bind, sm_get in Hrun.
  unfold mbind at 1, SM_bind, sm_lift in Hrun.
  destruct (find_peer s p) as [rec|] eqn:Ef; [|injection Hrun as <- <-; split_and!; [done|done|by left]].
  destruct (bool_decide (status rec = Active) && _) eqn:Eg; [|injection Hrun as <- <-; split_and!; [done|done|by left]].
  apply andb_true_iff in Eg as [Hact%bool_decide_eq_true Hrd%negb_true_iff].
  apply bool_decide_eq_false in Hrd.
  case_decide as Hme; [injection Hrun as <- <-; split_and!; [done|done|by left]|].
  unfold mbind at 1, SM_bind in Hrun.
  destruct (on_fs (io (fs_create_dir_all _)) s) as [r1 s1] eqn:E1. apply on_fs_frame in E1 as [E1 Hs1].
  apply io_mkdir in E1 as (Hinv1&Hf1&->); [|done]. destruct Hs1 as (Hr1&Hi1&_&_&Hp1&_).
  unfold mbind at 1, SM_bind in Hrun. unfold mbind at 1, SM_bind in Hrun.
  unfold peer_log in Hrun. rewrite Hr1, Hi1 in Hrun. change (op_path _) with (ops_file (root s) p) in Hrun.
  rewrite fs_read_spec, Hf1 in Hrun by done.
  destruct (match ok_or (files (fs s) !! ops_file (root s) p) NotFound with
            | Ok existing => if decide (length b < length existing) then Err Peer else Ok tt
            | Err _ => Ok tt end) as [[]|] eqn:El; [|injection Hrun as <- <-; split_and!; [done|done|by left]].
  unfold mbind at 1, SM_bind in Hrun.
  destruct (oplog_verify_bytes _ key b) as [es|] eqn:Ev; [|injection Hrun as <- <-; split_and!; [done|done|by left]].
  unfold mbind at 1, SM_bind in Hrun.
  destruct (probe_all _ p es) as [[]|] eqn:Epr; [|injection Hrun as <- <-; split_and!; [done|done|by left]].
  unfold mbind at 1, SM_bind in Hrun.
  destruct (on_fs (io (fs_write _ b)) s1) as [r2 s2] eqn:E2. apply on_fs_frame in E2 as [E2 Hs2].
  apply io_write_files in E2 as [Hinv2 Hf2]; [|done..]. destruct Hs2 as (_&_&_&_&Hp2&_).
  destruct r2 as [[]|e]; [|injection Hrun as <- <-; split_and!; [congruence|done|left; congruence]].
  assert (may_import s p key b) as Hmay.
  { split_and!; [done|by eauto| |by eauto].
    destruct (files (fs s) !! ops_file (root s) p) as [old|]; simpl in *; [|lia].
    case_decide; [done|lia]. }
  rewrite Hf1 in Hf2. unfold mbind at 1, SM_bind, on_doc in Hrun.
  destruct (import_all es (doc s2)) as [[[]|e] d].
  - unfold mbind, SM_bind, modify in Hrun. injection Hrun as <- <-. simpl.
    rewrite Hf2, lookup_insert_eq, Hp2, Hp1. split_and!; [done|done|by right].
  - injection Hrun as <- <-. simpl. rewrite Hf2, Hp2, Hp1. split_and!; [done|done|by right].
Qed.

(** Conversely, a log that passes every guard is stored, if the backend writes it. *)
Definition writable (q : path) (b : bytes) (f : Fs) : Prop :=
  ∀ f', fs_inv f' → files f' = files f → (fs_write q b f').1 = Ok tt.
Lemma import_peer_stores p key b s :
  fs_inv (fs s) → fs_path (ops_file (root s) p) → may_import s p key b → writable (ops_file (root s) p) b (fs s) →
  files (fs (import_peer p key b s).2) !! ops_file (root s) p = Some b.
Proof.
  intros Hinv Hp (Hme&(rec&Ef&Hact&Hrd)&Hlen&es&Ev&Epr) Hw. unfold import_peer.
  unfold mbind at 1, SM_bind, sm_get. unfold mbind at 1, SM_bind, sm_lift.
  rewrite Ef, Hact, bool_decide_eq_true_2, (bool_decide_eq_false_2 (role rec = Reader)) by done. cbn [negb andb].
  rewrite decide_False by done. unfold mbind at 1, SM_bind.
  destruct (on_fs (io (fs_create_dir_all _)) s) as [r1 s1] eqn:E1. apply on_fs_frame in E1 as [E1 Hs1].
  apply io_mkdir in E1 as (Hinv1&Hf1&->); [|done]. destruct Hs1 as (Hr1&Hi1&_&_&Hp1&_).
  unfold mbind at 1, SM_bind. unfold mbind at 1, SM_bind.
  unfold peer_log. rewrite Hr1, Hi1. change (op_path _) with (ops_file (root s) p).
  rewrite fs_read_spec, Hf1 by done.
  assert (match ok_or (files (fs s) !! ops_file (root s) p) NotFound with
          | Ok existing => if decide (length b < length existing) then Err Peer else Ok tt
          | Err _ => Ok tt end = Ok tt) as ->.
  { destruct (files (fs s) !! ops_file (root s) p); simpl in *; [|done]. rewrite decide_False; [done|lia]. }
  unfold mbind at 1, SM_bind. rewrite Ev. unfold mbind at 1, SM_bind. rewrite Epr. unfold mbind at 1, SM_bind.
  destruct (on_fs (io (fs_write _ b)) s1) as [r2 s2] eqn:E2. apply on_fs_frame in E2 as [E2 Hs2].
  assert (r2 = Ok tt) as ->.
  { unfold io, sm_map_err in E2. specialize (Hw (fs s1) Hinv1 Hf1).
    destruct (fs_write _ b (fs s1)) as [r3 f3]. simpl in Hw. subst r3. by injection E2 as <- _. }
  apply io_write_files in E2 as [Hinv2 Hf2]; [|done..].
  unfold mbind at 1, SM_bind, on_doc.
  destruct (import_all es (doc s2)) as [[[]|e] d]; simpl; by rewrite Hf2, lookup_insert_eq.
Qed.

(** Foreign ops reach the disk only through the roster. Whatever is imported
    under a peer's id, the only file that can change is that peer's op log, and
    it changes only if the peer is a known, active, non-reader member other than
    this device, the new log is at least as long as the old, every line of it
    verifies under the given key, and every update in it carries only ops of
    that peer; a successful import stores exactly the bytes given. *)
Theorem import_peer_guarded p key b s r s' :
  fs_inv (fs s) → fs_path (ops_file (root s) p) → import_peer p key b s = (r, s') →
  (r = Ok tt → files (fs s') !! ops_file (root s) p = Some b) ∧
  (files (fs s') = files (fs s) ∨
   files (fs s') = <[ops_file (root s) p := b]> (files (fs s)) ∧ may_import s p key b).
Proof. intros ?? Hrun. by apply (import_peer_spec p key b s r s') in Hrun as (_&?&?). Qed.

Lemma export_peer_log_spec s p :
  fs_inv (fs s) → export_peer_log s p = Ok (default [] (files (fs s) !! ops_file (root s) p)).
Proof.
  intros Hinv. unfold export_peer_log, read_or_empty. rewrite fs_read_spec by done.
  unfold peer_log. change (op_path _) with (ops_file (root s) p).
  by destruct (files (fs s) !! ops_file (root s) p).
Qed.

(** Applying received ops never rewrites history. After [apply_peer_ops], for
    any author and any bytes, every op log on disk has its former content as a
    prefix, and only the author's can have grown. *)
Theorem apply_peer_ops_append_only author key b s r s' :
  fs_inv (fs s) → fs_path (ops_file (root s) author) → apply_peer_ops author key b s = (r, s') →
  default [] (files (fs s) !! ops_file (root s) author) `prefix_of`
    default [] (files (fs s') !! ops_file (root s) author) ∧
  (∀ q, q ≠ ops_file (root s) author → files (fs s') !! q = files (fs s) !! q) ∧
  (author = id_peer (identity s) → s' = s).
Proof.
  intros Hinv Hp Hrun. unfold apply_peer_ops in Hrun. unfold mbind at 1, SM_bind, sm_get in Hrun.
  case_decide as Hme; [by injection Hrun as <- <-|].
  unfold mbind at 1, SM_bind, sm_lift in Hrun. rewrite export_peer_log_spec in Hrun by done.
  apply import_peer_spec in Hrun as (_&_&[->|[-> _]]); [done| |done|done].
  split_and!; [|intros q Hq; by rewrite lookup_insert_ne|done].
  rewrite lookup_insert_eq. simpl. apply merge_peer_log_extends.
Qed.
End import_peer.

(** ** Appending unseen lines *)
Lemma append_unseen_spec seen whole n ls w m :
  Forall complete_line ls → (whole = [] ∨ ends_with whole [NL] = true) →
  append_unseen seen whole n ls = (w, m) →
  ∃ new, w = whole ++ concat new ∧ m = n + length new ∧ NoDup new ∧
    (∀ l, l ∈ new ↔ l ∈ ls ∧ l ∉ seen) ∧ (w = [] ∨ ends_with w [NL] = true).
Proof.
  intros Hls. revert seen whole n. induction Hls as [|l ls Hl Hls IH]; intros seen whole n Hw; simpl.
  { intros [= <- <-]. exists []. simpl. rewrite app_nil_r.
    split_and!; [done|lia|apply NoDup_nil_2|set_solver|done]. }
  case_decide as Hin.
  - intros Hrun. destruct (IH _ _ _ Hw Hrun) as (new&?&?&?&Hnew&?). exists new. split_and!; try done.
    intros x. rewrite Hnew. set_solver.
  - assert ((if bool_decide (whole ≠ []) && negb (ends_with whole [NL]) then whole ++ [NL] else whole) = whole) as ->.
    { destruct Hw as [->| ->]; [done|]. by rewrite andb_false_r. }
    intros Hrun. apply IH in Hrun as (new&Hw'&Hm&Hnd&Hnew&He).
    2:{ right. apply ends_with_spec. destruct Hl as (c&->&_). exists (whole ++ c). by rewrite <-(assoc_L (++)). }
    exists (l :: new). split_and!.
    + rewrite Hw'. simpl. by rewrite <-(assoc_L (++)).
    + simpl. lia.
    + constructor; [|done]. rewrite Hnew. set_solver.
    + intros x. rewrite elem_of_cons, Hnew, not_elem_of_cons, elem_of_cons.
      destruct (decide (x = l)); naive_solver.
    + done.
Qed.

(** Pulling lines by content is a set union. Adding complete lines to a log of
    complete lines keeps the stored lines in place, appends each unseen line
    once, counts exactly those, and adding the same lines again adds nothing;
    when nothing is new the log is not touched. *)
Theorem append_unseen_union existing ls w m :
  Forall complete_line existing → Forall complete_line ls →
  append_unseen (split_log_lines_bytes (concat existing)) (concat existing) 0 ls = (w, m) →
  ∃ new, split_log_lines_bytes w = existing ++ new ∧ m = length new ∧ NoDup new ∧
    (∀ l, l ∈ new ↔ l ∈ ls ∧ l ∉ existing) ∧
    append_unseen (split_log_lines_bytes w) w 0 ls = (w, 0).
Proof.
  intros He Hls Hrun. rewrite split_concat_lines in Hrun by done.
  assert (∀ x, Forall complete_line x → concat x = [] ∨ ends_with (concat x) [NL] = true) as Hend.
  { intros x Hx. destruct x as [|l x _] using rev_ind; [by left|]. right. apply ends_with_spec.
    apply Forall_app in Hx as [_ [(c&->&_) _]%Forall_cons]. rewrite concat_app. simpl.
    rewrite app_nil_r. exists (concat x ++ c). by rewrite <-(assoc_L (++)). }
  destruct (append_unseen_spec _ _ _ _ _ _ Hls (Hend _ He) Hrun) as (new&->&->&Hnd&Hnew&_).
  rewrite Forall_forall in Hls.
  assert (Forall complete_line (existing ++ new)) as Hall.
  { apply Forall_app. split; [done|]. apply Forall_forall. intros l Hl. apply Hls. by apply Hnew. }
  rewrite <-concat_app, split_concat_lines by done. exists new. split_and!; try done.
  clear Hrun. assert (∀ l, l ∈ ls → l ∈ existing ++ new) as Hseen.
  { intros l Hl. rewrite elem_of_app, Hnew. destruct (decide (l ∈ existing)); auto. }
  clear Hls Hnew. induction ls as [|l ls IH]; [done|]. simpl. rewrite decide_True by set_solver.
  apply IH. set_solver.
Qed.
