(* ===== verification/StoreKeys.v ===== *)
(** * StoreKeys: epochs of a vault (crates/roam-storage/src/store.rs)

    The merged key log and the keychain it builds, minting an epoch, back-filling
    wraps, recovery from the paper key, and importing key logs. *)
From S2P Require Import Prelude RustStr Vfs Roster Wire Logs Keychain Trust Store StoreRoster.

(** X25519 keys derived from ed25519 ones: [to_montgomery] and the clamped scalar. *)
Class EdX := { ed_to_x : bytes → bytes; ed_secret_to_x : bytes → bytes }.
Class EdXLaws `{Ed25519, Crypto, EdX} := {
  ed_to_x_public s : ed_to_x (ed_public s) = x_public (ed_secret_to_x s) }.

Section keys.
Context `{Ed25519, B64, JsonOf KeyLine, Crypto, EdX}.
Context {Fs Doc Ver : Type} `{VaultFs Fs}.
Abbreviation St := (Store Fs Doc Ver).
(** The ephemeral secret and nonce of the [i]-th wrap of a call. *)
Variable rng : nat → bytes * bytes.
(** [PaperKey::from_passphrase(phrase).secret()] *)
Variable paper_secret : rstring → bytes.

Definition keylog_dir (root : path) : path := root ++ [str "keylog"].
Definition own_keylog (s : St) : KeyLog := KeyLog_new (keylog_dir (root s)) (id_peer (identity s)).

(** The logs of the other active admins, in roster order. *)
Fixpoint admin_keylogs (root : path) (self : u64) (f : Fs) (ps : list PeerRecord)
    : result StorageError (list KeyLogEntry) :=
  match ps with
  | [] => Ok []
  | p :: ps =>
      if bool_decide (status p ≠ Active) || bool_decide (role p ≠ Admin) || bool_decide (peer_id p = self)
         || negb (ed_key_ok (verifying_key p))
      then admin_keylogs root self f ps
      else
        es ← key_read_verified (KeyLog_new (keylog_dir root) (peer_id p)) (verifying_key p) f;
        rest ← admin_keylogs root self f ps;
        mret (es ++ rest)
  end.
Definition merged_keylog (s : St) : result StorageError (list KeyLogEntry) :=
  own ← key_read_verified (own_keylog s) (id_key (identity s)) (fs s);
  rest ← admin_keylogs (root s) (id_peer (identity s)) (fs s) (peers s);
  mret (own ++ rest).

Definition keychain (id_key0 epoch0_key : bytes) (s : St) : result StorageError Keychain :=
  es ← merged_keylog s;
  mret (build id_key0 epoch0_key (id_peer (identity s)) (ed_secret_to_x (id_secret (identity s))) es).

Definition vault_state (id_key0 epoch0_key : bytes) (s : St) : result StorageError (list VaultIssue) :=
  kc ← keychain id_key0 epoch0_key s;
  mret (diagnose kc (peers s)).

(** Wrap [key] to a public key with the [i]-th randomness. *)
Definition wrap_i (i : nat) (pub key : bytes) : bytes := wrap (rng i).1 (rng i).2 pub key.

(** The entries a rotation appends: the announcement, a wrap per active member
    whose key is well-formed, one for this device if the roster does not list
    it, and one for paper if asked. *)
Fixpoint member_wraps (i : nat) (key : bytes) (ps : list PeerRecord) : list KeyBody :=
  match ps with
  | [] => []
  | p :: ps =>
      if bool_decide (status p = Active) && ed_key_ok (verifying_key p)
      then Wrap (Device (peer_id p)) (wrap_i i (ed_to_x (verifying_key p)) key) :: member_wraps (S i) key ps
      else member_wraps i key ps
  end.
Definition self_wrap (i : nat) (key : bytes) (s : St) : list KeyBody :=
  if existsb (λ p, (peer_id p =? id_peer (identity s))%N) (peers s) then []
  else [Wrap (Device (id_peer (identity s))) (wrap_i i (ed_to_x (id_key (identity s))) key)].
Definition rotation_bodies (parents : list bytes) (nonce key : bytes) (paper : option bytes) (s : St)
    : list KeyBody :=
  let ws := member_wraps 0 key (peers s) in
  let sw := self_wrap (length ws) key s in
  Rotate parents nonce :: ws ++ sw ++
  match paper with
  | Some pub => [Wrap Paper (wrap_i (length ws + length sw) pub key)]
  | None => []
  end.

(** [log.append(&identity, epoch_id, body)?] for each body *)
Definition append_bodies (log : KeyLog) (id : Identity) (epoch : bytes) (bs : list KeyBody)
    : SM St StorageError unit :=
  sm_iter (λ b, _ ← on_fs (key_append log id epoch b); mret tt) bs.

(** [nonce] and [new_key] are drawn from the system's generator. *)
Definition rotate_epoch (nonce new_key id_key0 epoch0_key : bytes) (paper : option bytes)
    : SM St StorageError bytes :=
  s ← sm_get;
  _ ← sm_lift (require_admin s);
  kc ← sm_lift (keychain id_key0 epoch0_key s);
  let parents := dag_heads kc in
  let epoch := compute_epoch_id parents (id_peer (identity s)) nonce new_key in
  _ ← append_bodies (own_keylog s) (identity s) epoch (rotation_bodies parents nonce new_key paper s);
  mret epoch.

(** Back-fill: a wrap per target whose member is listed with a well-formed key. *)
Fixpoint publish_targets (log : KeyLog) (i : nat) (ts : list (bytes * bytes * u64)) : SM St StorageError nat :=
  match ts with
  | [] => mret i
  | (epoch, key, p) :: ts =>
      s ← sm_get;
      match find_peer s p with
      | Some rec =>
          if ed_key_ok (verifying_key rec) then
            _ ← on_fs (key_append log (identity s) epoch
                         (Wrap (Device p) (wrap_i i (ed_to_x (verifying_key rec)) key)));
            publish_targets log (S i) ts
          else publish_targets log i ts
      | None => publish_targets log i ts
      end
  end.
Definition backfill_wraps (id_key0 epoch0_key : bytes) : SM St StorageError nat :=
  s ← sm_get;
  kc ← sm_lift (keychain id_key0 epoch0_key s);
  publish_targets (own_keylog s) 0 (backfill_targets kc (peers s)).

(** Paper recovery: re-wrap to ourselves what the phrase opens. *)
Fixpoint recover_entries (log : KeyLog) (kc : Keychain) (psec self_pub : bytes) (done : list bytes)
    (n : nat) (es : list KeyLogEntry) : SM St StorageError nat :=
  match es with
  | [] => mret n
  | e :: es =>
      let skip := recover_entries log kc psec self_pub done n es in
      if decide (k_epoch_id e ∈ done) then skip
      else if decide (is_Some (epoch_key kc (k_epoch_id e))) then skip
      else match k_body e with
           | Wrap Paper blob =>
               match unwrap psec blob with
               | Ok key =>
                   if key_matches_epoch kc (k_epoch_id e) key then
                     s ← sm_get;
                     _ ← on_fs (key_append log (identity s) (k_epoch_id e)
                                  (Wrap (Device (id_peer (identity s))) (wrap_i n self_pub key)));
                     recover_entries log kc psec self_pub (k_epoch_id e :: done) (S n) es
                   else skip
               | Err _ => skip
               end
           | _ => skip
           end
  end.
Definition recover_with_paper (phrase : rstring) (id_key0 epoch0_key : bytes) : SM St StorageError nat :=
  s ← sm_get;
  kc ← sm_lift (keychain id_key0 epoch0_key s);
  es ← sm_lift (merged_keylog s);
  recover_entries (own_keylog s) kc (paper_secret phrase) (ed_to_x (id_key (identity s))) [] 0 es.

Definition export_keylog (s : St) (author : u64) : result StorageError bytes :=
  read_or_empty (kl_path (KeyLog_new (keylog_dir (root s)) author)) (fs s).
Definition export_own_keylog (s : St) : result StorageError bytes := export_keylog s (id_peer (identity s)).

Definition import_keylog (author : u64) (key b : bytes) : SM St StorageError unit :=
  s ← sm_get;
  if decide (author = id_peer (identity s)) then sm_fail Peer
  else
    let log := KeyLog_new (keylog_dir (root s)) author in
    _ ← on_fs (io (fs_create_dir_all (keylog_dir (root s))));
    s ← sm_get;
    _ ← sm_lift match fs_read (kl_path log) (fs s) with
                | Ok existing => if starts_with b existing then Ok tt else Err Peer
                | Err _ => Ok tt
                end;
    _ ← sm_lift (key_verify_bytes log key b);
    on_fs (io (fs_write (kl_path log) b)).
End keys.

(** ** Minting an epoch, end to end *)
Section rotate.
Context `{Ed25519Laws, B64Laws, JsonLaws KeyLine, CryptoLaws, !EdX, !EdXLaws}.
Context {Fs Doc Ver : Type} `{VaultFsLaws Fs}.
Variable rng : nat → bytes * bytes.
Hypothesis rng_nonce : ∀ i, length (rng i).2 = NONCE_LEN.
Abbreviation St := (Store Fs Doc Ver).

(** This device's key log is intact. *)
Record keylog_state (s : St) (lines : list KeyLine) (own : list KeyLogEntry) : Prop := {
  ks_inv : fs_inv (fs s);
  ks_path : fs_path (kl_path (own_keylog s));
  ks_lines : log_holds (fs s) (kl_path (own_keylog s)) lines;
  ks_own : key_read_verified (own_keylog s) (id_key (identity s)) (fs s) = Ok own;
  ks_seq : seq_run k_seq own;
}.

(** The entries [append_bodies] writes, numbered from [n + 1]. *)
Fixpoint number_bodies (n : nat) (author : u64) (epoch : bytes) (bs : list KeyBody) : list KeyLogEntry :=
  match bs with
  | [] => []
  | b :: bs => mkKeyLogEntry (N.of_nat (S n)) author epoch b :: number_bodies (S n) author epoch bs
  end.
Lemma number_bodies_elem n author epoch bs b :
  b ∈ bs → ∃ e, e ∈ number_bodies n author epoch bs ∧ k_epoch_id e = epoch ∧ k_author e = author ∧ k_body e = b.
Proof.
  revert n. induction bs as [|b' bs IH]; intros n; [by intros ?%elem_of_nil|]. simpl.
  intros [->|Hb]%elem_of_cons; [eexists; split; [apply elem_of_cons; by left|done]|].
  destruct (IH (S n) Hb) as (e&?&?&?&?). exists e. set_solver.
Qed.

Lemma append_bodies_spec s lines own epoch bs s' :
  keylog_state s lines own → length epoch = 32 → Forall body_wf bs →
  (N.of_nat (length own + length bs) ≤ U64_MAX)%N →
  append_bodies (own_keylog s) (identity s) epoch bs s = (Ok tt, s') →
  ∃ lines', keylog_state s' lines' (own ++ number_bodies (length own) (id_peer (identity s)) epoch bs) ∧
            same_but_fs s s'.
Proof.
  intros Hks Hep Hwf. revert s lines own Hks. induction Hwf as [|b bs Hb Hwf IH]; intros s lines own Hks Hmax.
  { intros [= <-]. exists lines. rewrite app_nil_r. by split. }
  unfold append_bodies. cbn [sm_iter]. unfold mbind at 1, SM_bind. unfold mbind at 1, SM_bind.
  destruct (on_fs _ s) as [[e|] s1] eqn:E1; [|done]. apply on_fs_frame in E1 as [E1 Hs1].
  simpl length in Hmax.
  destruct (key_append_spec (own_keylog s) (identity s) epoch b (fs s) (fs s1) lines own e)
    as (->&Hr&Hsq&Hh&Hinv&_); try done; try apply Hks; [lia|].
  pose proof Hs1 as (Hroot&Hid&_).
  assert (own_keylog s1 = own_keylog s) as Hlog by (unfold own_keylog; by rewrite Hroot, Hid).
  cbn [mret SM_ret]. intros Hrun.
  destruct (IH s1 (lines ++ [key_line (identity s) (mkKeyLogEntry (N.of_nat (S (length own))) (kl_owner (own_keylog s)) epoch b)])
    (own ++ [mkKeyLogEntry (N.of_nat (S (length own))) (kl_owner (own_keylog s)) epoch b])) as (lines'&Hks'&Hs2).
  - split; rewrite ?Hlog, ?Hid; try done. apply Hks.
  - rewrite length_app. simpl. lia.
  - unfold append_bodies. by rewrite Hlog, Hid.
  - exists lines'. rewrite Hid, length_app, Nat.add_1_r, <-(assoc_L (++)) in Hks'. split; [done|].
    destruct Hs1 as (?&?&?&?&?&?), Hs2 as (?&?&?&?&?&?). unfold same_but_fs. split_and!; congruence.
Qed.

Lemma member_wraps_elem i key ps p :
  p ∈ ps → status p = Active → ed_key_ok (verifying_key p) = true →
  ∃ j, Wrap (Device (peer_id p)) (wrap_i rng j (ed_to_x (verifying_key p)) key) ∈ member_wraps rng i key ps.
Proof.
  revert i. induction ps as [|q ps IH]; intros i; [by intros ?%elem_of_nil|]. simpl.
  intros [<-|Hp]%elem_of_cons Hact Hok.
  - exists i. rewrite Hok, bool_decide_eq_true_2 by done. simpl. set_solver.
  - destruct (bool_decide _ && _); [destruct (IH (S i) Hp Hact Hok) as [j ?]|by apply IH].
    exists j. set_solver.
Qed.

Lemma member_wraps_wf i key ps : Forall body_wf (member_wraps rng i key ps).
Proof. revert i. induction ps as [|q ps IH]; intros i; simpl; [done|]. case_match; [by constructor|done]. Qed.

Lemma merged_keylog_ids (s : St) es e :
  merged_keylog s = Ok es → e ∈ es → length (k_epoch_id e) = 32.
Proof.
  unfold merged_keylog. destruct (key_read_verified _ _ _) as [own|] eqn:Eo; [simpl|done].
  destruct (admin_keylogs _ _ _ _) as [rest|] eqn:Er; [simpl|done]. intros [= <-].
  intros [He|He]%elem_of_app; [by eapply key_read_ids|]. clear Eo. revert rest Er He.
  induction (peers s) as [|p ps IH]; intros rest; simpl; [by intros [= <-] ?%elem_of_nil|].
  case_match; [apply IH|]. destruct (key_read_verified _ _ _) as [es1|] eqn:E1; [simpl|done].
  destruct (admin_keylogs _ _ _ _) as [es2|] eqn:E2; [simpl|done].
  intros [= <-] [He|He]%elem_of_app; [by eapply key_read_ids|by eapply IH].
Qed.

Lemma dag_heads_len id_key0 k0 self secret entries x :
  (∀ e, e ∈ entries → length (k_epoch_id e) = 32) →
  x ∈ dag_heads (build id_key0 k0 self secret entries) → length x = 32.
Proof.
  intros Hids Hx%dag_heads_known.
  rewrite <-(fmap_is_Some announced_as), build_announced, fmap_is_Some, rotate_pass_dom in Hx.
  destruct Hx as [->|(a&e&ps&n&He&<-&_)]; [done|by apply Hids].
Qed.

Lemma rotation_bodies_wf parents nonce key paper (s : St) :
  Forall (λ x, length x = 32) parents → length nonce = 32 →
  Forall body_wf (rotation_bodies rng parents nonce key paper s).
Proof.
  intros Hp Hn. constructor; [done|]. apply Forall_app. split; [apply member_wraps_wf|].
  unfold self_wrap. apply Forall_app.
  split; [by case_match; repeat constructor|destruct paper; repeat constructor].
Qed.
Lemma rotation_bodies_len parents nonce key paper (s : St) :
  length (rotation_bodies rng parents nonce key paper s) ≤ length (peers s) + 3.
Proof.
  unfold rotation_bodies. simpl. rewrite !length_app.
  assert (∀ i ps, length (member_wraps rng i key ps) ≤ length ps) as Hmw.
  { intros i ps. revert i. induction ps as [|q ps IH]; intros i; simpl; [lia|].
    case_match; simpl; [specialize (IH (S i))|specialize (IH i)]; lia. }
  specialize (Hmw 0 (peers s)). unfold self_wrap. case_match; destruct paper; simpl; lia.
Qed.

(** C36: minting an epoch delivers its key to every member. When an admin's
    [rotate_epoch] returns an epoch id, that id commits to the heads of the
    current epochs, to this device, the nonce and the new key; the device's key
    log holds, after its former entries, the announcement of the id and the
    wraps; and any active member with a well-formed key who sees those entries
    (in whatever larger set of entries, as long as no other announcement reuses
    the id) builds a keychain that holds under that id a key with exactly the
    hash the id commits to, that is the minted key up to a BLAKE3 collision. *)
Theorem rotate_epoch_delivers s lines own nonce key id_key0 k0 paper id s' :
  keylog_state s lines own → length nonce = 32 → length key = 32 →
  (N.of_nat (length own + length (peers s) + 3) ≤ U64_MAX)%N →
  rotate_epoch rng nonce key id_key0 k0 paper s = (Ok id, s') →
  ∃ kc news,
    let parents := dag_heads kc in
    keychain id_key0 k0 s = Ok kc ∧
    id = compute_epoch_id parents (id_peer (identity s)) nonce key ∧
    key_read_verified (own_keylog s') (id_key (identity s')) (fs s') = Ok (own ++ news) ∧
    rotates news id (parents, id_peer (identity s), nonce) ∧
    ∀ rec sec ik kk entries,
      rec ∈ peers s → status rec = Active → verifying_key rec = ed_public sec →
      news ⊆ entries → id ≠ EPOCH0_ID →
      (∀ a, rotates entries id a → a = (parents, id_peer (identity s), nonce)) →
      ∃ key', epoch_key (build ik kk (peer_id rec) (ed_secret_to_x sec) entries) id = Some key' ∧
        compute_epoch_id parents (id_peer (identity s)) nonce key' = id.
Proof.
  intros Hks Hnonce Hkey Hmax Hrun. unfold rotate_epoch in Hrun.
  unfold mbind at 1, SM_bind, sm_get in Hrun. unfold mbind at 1, SM_bind, sm_lift in Hrun.
  destruct (require_admin s) as [[]|]; [|done]. unfold mbind at 1, SM_bind, keychain in Hrun.
  destruct (merged_keylog s) as [es|] eqn:Em; [simpl in Hrun|done].
  set (kc := build _ _ _ _ es) in Hrun. set (parents := dag_heads kc) in *.
  set (epoch := compute_epoch_id _ _ _ _) in Hrun. unfold mbind, SM_bind in Hrun.
  set (bodies := rotation_bodies rng parents nonce key paper s) in Hrun.
  destruct (append_bodies _ _ epoch bodies s) as [[[]|] s1] eqn:Ea; [|done].
  injection Hrun as <- <-.
  assert (Forall body_wf bodies) as Hwf.
  { apply rotation_bodies_wf; [|done]. apply Forall_forall. intros x Hx.
    eapply dag_heads_len; [|exact Hx]. intros e He. by eapply merged_keylog_ids. }
  pose proof (rotation_bodies_len parents nonce key paper s) as Hlen. fold bodies in Hlen.
  destruct (append_bodies_spec s lines own epoch bodies s1 Hks) as (lines'&Hks'&Hs1);
    [apply blake3_len|done|lia|done|].
  set (news := number_bodies _ _ _ _) in Hks'. exists kc, news. cbn zeta. fold parents.
  assert (rotates news epoch (parents, id_peer (identity s), nonce)) as Hrot.
  { destruct (number_bodies_elem (length own) (id_peer (identity s)) epoch bodies (Rotate parents nonce))
      as (e&?&?&Hau&?); [apply elem_of_cons; by left|].
    exists e, parents, nonce. rewrite Hau. done. }
  split_and!; [unfold keychain; by rewrite Em|done|apply (ks_own _ _ _ Hks')|done|].
  intros rec sec ik kk entries Hrec Hact Hvk Hsub Hne Hfun.
  destruct (member_wraps_elem 0 key (peers s) rec Hrec Hact) as [j Hj];
    [rewrite Hvk; apply ed_public_ok|].
  assert (∀ b, b ∈ member_wraps rng 0 key (peers s) → b ∈ bodies) as Hmem.
  { intros b Hb. unfold bodies, rotation_bodies. rewrite elem_of_cons, elem_of_app. auto. }
  destruct (number_bodies_elem (length own) (id_peer (identity s)) epoch bodies _ (Hmem _ Hj))
    as (e&He&Hei&_&Heb).
  eapply (wrap_delivers ik kk (peer_id rec) (ed_secret_to_x sec) entries e _ parents
    (id_peer (identity s)) nonce key); [|done..| | |exact Heb|].
  - destruct Hrot as (e'&ps&n&?&?&?&?). exists e', ps, n. split_and!; try done.
    by apply Hsub.
  - by apply Hsub.
  - done.
  - unfold wrap_i. rewrite Hvk, ed_to_x_public. by apply unwrap_wrap_ok.
Qed.
End rotate.
