(* ===== verification/Checkpoint.v ===== *)
(** * Checkpoint: history markers and log compaction

    The local history index (history.rs), line counting (history_util.rs), the
    checkpoint plan (checkpoint.rs) and the store's [write_snapshot] and
    [checkpoint] (store.rs).  Frontiers are byte strings; the document's history
    operations are the interface [DocHistory]; the blob store is Blob.v. *)
From S2P Require Import Prelude RustStr Vfs Roster Wire Logs Keychain Blob Trust Store StoreRoster StoreSync.

Record Marker := mkMarker { ts_ms : Z; frontier : rstring; log_lens : gmap u64 u64 }.

Class DocHistory (Doc : Type) := {
  oplog_frontier : Doc → bytes;
  frontier_ok : bytes → bool;
  shallow_snapshot : bytes → Doc → result StorageError bytes;
  (** blob hashes of the file set at a frontier, and at the latest state *)
  hashes_at : bytes → Doc → result StorageError (list rstring);
  hashes_latest : Doc → list rstring;
}.

(** ** The history index *)
Section history.
Context `{JsonOf Marker} {Fs : Type} `{VaultFs Fs}.

Definition history_path (dir : path) : path := dir ++ [str "history.jsonl"].

Definition history_append (dir : path) (m : Marker) : SM Fs StorageError unit :=
  _ ← ensure_parent (history_path dir);
  io (fs_append (history_path dir) (utf8 (to_json m ++ [LF]))).

(** Stops at the first line that does not parse. *)
Fixpoint parse_markers (ls : list rstring) : list Marker :=
  match ls with
  | [] => []
  | l :: ls =>
      if decide (trim l = []) then parse_markers ls
      else match from_json l with Some m => m :: parse_markers ls | None => [] end
  end.
Definition markers (dir : path) (f : Fs) : result StorageError (list Marker) :=
  match fs_read_to_string (history_path dir) f with
  | Ok t => Ok (parse_markers (lines t))
  | Err NotFound => Ok []
  | Err e => Err (Io e)
  end.
(** [rfind] of the markers at or before [ts] *)
Definition marker_before (dir : path) (ts : Z) (f : Fs) : result StorageError (option Marker) :=
  ms ← markers dir f; mret (last (filter (λ m, (ts_ms m ≤ ts)%Z) ms)).
Definition latest (dir : path) (f : Fs) : result StorageError (option Marker) :=
  ms ← markers dir f; mret (last ms).

Definition count_log_lines (p : path) (f : Fs) : u64 :=
  match fs_read_to_string p f with
  | Ok t => N.of_nat (length (nonblank_lines t))
  | Err _ => 0%N
  end.

(** ** Compaction *)
Record CheckpointPlan := mkPlan { cp_frontier : rstring; drop_lines : gmap u64 u64 }.
Definition plan_from_marker (m : Marker) : CheckpointPlan := mkPlan (frontier m) (log_lens m).

(** [kept.join("\n")] and a final newline if anything is kept *)
Definition join_lines (ls : list rstring) : rstring :=
  match ls with [] => [] | _ => join_on LF ls ++ [LF] end.

Definition truncate_leading_lines (p : path) (n : nat) : SM Fs StorageError unit := λ f,
  match fs_read_to_string p f with
  | Ok t =>
      (let out := join_lines (drop n (nonblank_lines t)) in
       let tmp := with_extension p (str "jsonl.tmp") in
       _ ← io (fs_write tmp (utf8 out));
       io (fs_rename tmp p)) f
  | Err NotFound => (Ok tt, f)
  | Err e => (Err (Io e), f)
  end.

Definition rewrite_history (dir : path) (all : list Marker) (keep_from : Z) : SM Fs StorageError unit :=
  let p := history_path dir in
  let out := concat ((λ m, to_json m ++ [LF]) <$> filter (λ m, (keep_from ≤ ts_ms m)%Z) all) in
  let tmp := with_extension p (str "jsonl.tmp") in
  _ ← io (fs_write tmp (utf8 out));
  io (fs_rename tmp p).

Definition reclaimable_blob_bytes (on_disk : list (rstring * u64)) (referenced : gset rstring) : u64 :=
  foldl N.add 0%N (snd <$> filter (λ x, x.1 ∉ referenced) on_disk).
End history.

Section checkpoint.
Context `{Ed25519, B64, JsonOf EntryLine, JsonOf Marker}.
Context {Fs Doc Ver : Type} `{VaultFs Fs, DocOps Doc Ver, DocHistory Doc}.
Abbreviation St := (Store Fs Doc Ver).

Definition history_dir (r : path) : path := r ++ [str "history"].
Definition assets_dir (r : path) : path := r ++ [str "assets"].

(** A peer's op log; our own is the log of our own id. *)
Definition log_file (r : path) (p : u64) : path := ops_file r p.

(** The line counts a marker records: our own log, then every listed peer's. *)
Definition record_lens (s : St) : gmap u64 u64 :=
  foldl (λ m p, <[peer_id p := count_log_lines (log_file (root s) (peer_id p)) (fs s)]> m)
    {[id_peer (identity s) := count_log_lines (op_path (own_log s)) (fs s)]} (peers s).

Definition write_snapshot (now : Z) : SM St StorageError unit :=
  s ← sm_get;
  snap ← sm_lift (doc_snapshot (doc s));
  _ ← on_fs (snapshot_save (snapshot_path (root s)) snap);
  s ← sm_get;
  on_fs (history_append (history_dir (root s))
    (mkMarker now (b64_encode (oplog_frontier (doc s))) (record_lens s))).

(** Hashes referenced at the retained frontiers or now. *)
Fixpoint referenced_at (d : Doc) (fs : list rstring) : result StorageError (list rstring) :=
  match fs with
  | [] => Ok (hashes_latest d)
  | f :: fs =>
      b ← ok_or (b64_decode f) Base64;
      if frontier_ok b then
        h ← hashes_at b d; rest ← referenced_at d fs; mret (h ++ rest)
      else Err Crdt
  end.

Definition truncate_logs (r : path) (plan : list (u64 * u64)) : SM Fs StorageError unit :=
  sm_iter (λ x, truncate_leading_lines (log_file r x.1) (N.to_nat x.2)) plan.

(** Remove every unreferenced blob; the sum of the removed sizes. *)
Fixpoint reclaim (dir : path) (referenced : gset rstring) (freed : u64) (hs : list rstring)
    : SM Fs StorageError u64 :=
  match hs with
  | [] => mret freed
  | h :: hs =>
      if decide (h ∈ referenced) then reclaim dir referenced freed hs
      else
        f ← sm_get;
        sz ← sm_lift (blob_size dir h f);
        _ ← blob_remove dir h;
        reclaim dir referenced (freed + default 0 sz)%N hs
  end.

(** [(hash, size)] of every listed blob *)
Fixpoint disk_sizes (dir : path) (hs : list rstring) (f : Fs) : result StorageError (list (rstring * u64)) :=
  match hs with
  | [] => Ok []
  | h :: hs => sz ← blob_size dir h f; rest ← disk_sizes dir hs f; mret ((h, default 0%N sz) :: rest)
  end.

Definition checkpoint_dry_run (before : Z) (s : St) : result StorageError u64 :=
  t ← marker_before (history_dir (root s)) before (fs s);
  match t with
  | None => Ok 0%N
  | Some target =>
      all ← markers (history_dir (root s)) (fs s);
      let retained := frontier <$> filter (λ m, (ts_ms target ≤ ts_ms m)%Z) all in
      referenced ← referenced_at (doc s) retained;
      hs ← blob_list (assets_dir (root s)) (fs s);
      on_disk ← disk_sizes (assets_dir (root s)) hs (fs s);
      mret (reclaimable_blob_bytes on_disk (list_to_set referenced))
  end.

Definition checkpoint (before : Z) : SM St StorageError u64 :=
  s ← sm_get;
  t ← sm_lift (marker_before (history_dir (root s)) before (fs s));
  match t with
  | None => mret 0%N
  | Some target =>
      all ← sm_lift (markers (history_dir (root s)) (fs s));
      let retained := frontier <$> filter (λ m, (ts_ms target ≤ ts_ms m)%Z) all in
      referenced ← sm_lift (referenced_at (doc s) retained);
      fb ← sm_lift (ok_or (b64_decode (frontier target)) Base64);
      _ ← sm_lift (if frontier_ok fb then Ok tt else Err Crdt);
      shallow ← sm_lift (shallow_snapshot fb (doc s));
      _ ← on_fs (snapshot_save (snapshot_path (root s)) shallow);
      _ ← on_fs (truncate_logs (root s) (btree_to_list N.le (drop_lines (plan_from_marker target))));
      s' ← sm_get;
      hs ← sm_lift (blob_list (assets_dir (root s)) (fs s'));
      freed ← on_fs (reclaim (assets_dir (root s)) (list_to_set referenced) 0%N hs);
      _ ← on_fs (rewrite_history (history_dir (root s)) all (ts_ms target));
      mret freed
  end.
End checkpoint.

(** ** What compaction keeps *)
Section compaction.
Context {L : Type} `{JsonLaws L}.

Lemma join_lines_json (ls : list L) : join_lines (to_json <$> ls) = log_text ls.
Proof.
  unfold join_lines. induction ls as [|l ls IH]; [done|]. csimpl.
  change (log_text (l :: ls)) with ((to_json l ++ [LF]) ++ log_text ls). rewrite <-IH.
  destruct ls as [|l' ls]; csimpl; [by rewrite app_nil_r|].
  rewrite <-!(assoc_L (++)). done.
Qed.

Lemma nonblank_log_text (ls : list L) : nonblank_lines (log_text ls) = to_json <$> ls.
Proof.
  unfold nonblank_lines. rewrite <-(app_nil_r (log_text ls)).
  rewrite lines_log_text by (apply not_elem_of_nil). rewrite decide_True, app_nil_r by done.
  apply nonblank_json.
Qed.

Context {Fs : Type} `{VaultFsLaws Fs}.

Lemma read_log_text (f : Fs) p (ls : list L) :
  fs_inv f → log_holds f p ls →
  fs_read_to_string p f = Ok (log_text ls) ∨ fs_read_to_string p f = Err NotFound ∧ ls = [].
Proof.
  intros Hinv Hh. unfold log_holds in Hh. unfold fs_read_to_string. rewrite fs_read_spec by done.
  destruct (files f !! p) as [b|]; simpl in *.
  - left. by rewrite Hh, from_utf8_utf8 by apply log_text_scalar.
  - right. split; [done|]. destruct ls as [|l ls]; [done|]. exfalso.
    change (log_text (l :: ls)) with ((to_json l ++ [LF]) ++ log_text ls) in Hh.
    destruct (to_json_object l) as [s Hs]. rewrite Hs, utf8_app in Hh. simpl in Hh. done.
Qed.

(** Writing a file through a temporary one. *)
Lemma write_rename_spec (f f' : Fs) tmp p b :
  fs_inv f → fs_path tmp → fs_path p → tmp ≠ p →
  (_ ← io (fs_write tmp b); io (fs_rename tmp p)) f = (Ok tt, f') →
  fs_inv f' ∧ files f' !! p = Some b ∧
  ∀ q, q ≠ p → q ≠ tmp → files f' !! q = files f !! q.
Proof.
  intros Hinv Ht Hp Hne. unfold mbind, SM_bind. destruct (io (fs_write tmp b) f) as [[[]|] f1] eqn:E1; [|done].
  apply io_write_files in E1 as [Hinv1 Hf1]; [|done..].
  unfold io, sm_map_err. pose proof (fs_rename_spec tmp p f1 Hinv1 Ht Hp Hne) as Hr.
  destruct (fs_rename tmp p f1) as [[[]|] f2]; [|done]. simpl. intros [= <-].
  destruct Hr as [Hinv2 Hr]. rewrite Hf1, lookup_insert_eq in Hr. simpl in Hr. split_and!; [done|..].
  - rewrite Hr. apply lookup_insert_eq.
  - intros q Hqp Hqt. by rewrite Hr, lookup_insert_ne, lookup_delete_ne, lookup_insert_ne.
Qed.

Lemma truncate_spec (f f' : Fs) p n (ls : list L) :
  fs_inv f → fs_path p → fs_path (with_extension p (str "jsonl.tmp")) →
  with_extension p (str "jsonl.tmp") ≠ p → log_holds f p ls →
  truncate_leading_lines p n f = (Ok tt, f') →
  fs_inv f' ∧ log_holds f' p (drop n ls) ∧
  ∀ q, q ≠ p → q ≠ with_extension p (str "jsonl.tmp") → files f' !! q = files f !! q.
Proof.
  intros Hinv Hp Ht Hne Hh. unfold truncate_leading_lines.
  destruct (read_log_text f p ls Hinv Hh) as [->|[-> ->]].
  - intros Hrun. apply write_rename_spec in Hrun as (Hinv'&Hf'&Ho); [|done..]. split_and!; try done.
    unfold log_holds. rewrite Hf'. simpl. rewrite nonblank_log_text, <-fmap_drop. by rewrite join_lines_json.
  - intros [= <-]. split_and!; try done. by rewrite drop_nil.
Qed.
End compaction.

Section repeat.
Context `{JsonLaws EntryLine, JsonLaws Marker} {Fs : Type} `{VaultFsLaws Fs}.

Lemma parse_markers_json (ms : list Marker) : parse_markers (lines (log_text ms)) = ms.
Proof.
  rewrite <-(app_nil_r (log_text ms)), lines_log_text by (apply not_elem_of_nil).
  rewrite decide_True, app_nil_r by done. induction ms as [|m ms IH]; csimpl; [done|].
  rewrite decide_False, from_to_json, IH; [done|]. destruct (to_json_object m) as [s ->].
  by apply trim_visible.
Qed.

Lemma markers_holds dir (f : Fs) ms :
  fs_inv f → log_holds f (history_path dir) ms → markers dir f = Ok ms.
Proof.
  intros Hinv Hh. unfold markers. destruct (read_log_text f _ ms Hinv Hh) as [->|[-> ->]]; [|done].
  by rewrite parse_markers_json.
Qed.

Lemma last_filter_filter {A} (P Q : A → Prop) `{∀ x, Decision (P x), ∀ x, Decision (Q x)} l x :
  last (filter P l) = Some x → Q x → last (filter P (filter Q l)) = Some x.
Proof.
  intros Hl HQ. induction l as [|y l IH] using rev_ind; [done|].
  rewrite filter_app, filter_cons, filter_nil in Hl. rewrite filter_app, (filter_cons Q), (filter_nil Q).
  destruct (decide (P y)) as [HP|HP].
  - rewrite last_snoc in Hl. injection Hl as ->. rewrite (decide_True (P:=Q x)) by done.
    rewrite filter_app, filter_cons_True, filter_nil by done. apply last_snoc.
  - rewrite app_nil_r in Hl. case_decide; [|rewrite app_nil_r; by apply IH].
    rewrite filter_app, filter_cons_False, filter_nil, app_nil_r by done. by apply IH.
Qed.

End repeat.

(** ** What a checkpoint removes *)
Section reclaim.
Context {Fs : Type} `{VaultFsLaws Fs}.
Variable dir : path.
Variable referenced : gset rstring.
Implicit Types f : Fs.

Lemma blob_size_files h f :
  fs_inv f → is_valid_hash h = true →
  blob_size dir h f = Ok (N.of_nat <$> (length <$> files f !! (dir ++ [h]))).
Proof.
  intros Hinv Hv. unfold blob_size, blob_path. rewrite Hv. simpl. rewrite fs_file_len_spec by done.
  by destruct (files f !! (dir ++ [h])).
Qed.
Lemma disk_sizes_files f f' hs :
  fs_inv f → fs_inv f' → Forall (λ h, is_valid_hash h = true) hs →
  (∀ h, h ∈ hs → files f' !! (dir ++ [h]) = files f !! (dir ++ [h])) →
  disk_sizes dir hs f' = disk_sizes dir hs f ∧ is_ok (disk_sizes dir hs f) = true.
Proof.
  intros Hi Hi'. induction 1 as [|h hs Hv _ IH]; intros Hsame; [done|]. simpl.
  rewrite !blob_size_files by done. rewrite Hsame by (apply elem_of_cons; by left). simpl.
  destruct IH as [-> Hok]; [intros h' Hh'; apply Hsame, elem_of_cons; by right|].
  by destruct (disk_sizes dir hs f).
Qed.

Lemma sum_from n (l : list u64) : foldl N.add n l = (n + foldl N.add 0%N l)%N.
Proof.
  revert n. induction l as [|x l IH]; intros n; cbn [foldl]; [lia|].
  rewrite (IH (n + x)%N), (IH (0 + x)%N). lia.
Qed.

Lemma reclaim_spec hs : ∀ f f' n freed,
  fs_inv f → Forall (λ h, is_valid_hash h = true ∧ fs_path (dir ++ [h])) hs → NoDup hs →
  reclaim dir referenced n hs f = (Ok freed, f') →
  (∃ on_disk, disk_sizes dir hs f = Ok on_disk ∧
     freed = (n + reclaimable_blob_bytes on_disk referenced)%N) ∧
  (∀ h, h ∈ hs → h ∉ referenced → files f' !! (dir ++ [h]) = None) ∧
  (∀ q, (∀ h, h ∈ hs → h ∉ referenced → q ≠ dir ++ [h]) → files f' !! q = files f !! q).
Proof.
  induction hs as [|h hs IH]; intros f f' n freed Hinv Hall Hnd.
  { intros [= <- <-]. split_and!; [exists []; split; [done|]; unfold reclaimable_blob_bytes; simpl; lia| |done].
    intros h Hh. by apply elem_of_nil in Hh. }
  apply Forall_cons in Hall as [[Hv Hp] Hall]. apply NoDup_cons in Hnd as [Hni Hnd]. simpl.
  rewrite blob_size_files by done. simpl.
  destruct (decide (h ∈ referenced)) as [Hr|Hr].
  - intros Hrun. destruct (IH f f' n freed Hinv Hall Hnd Hrun) as ((od&->&->)&Hgone&Hkept). simpl.
    split_and!.
    + eexists. split; [done|]. unfold reclaimable_blob_bytes. by rewrite filter_cons_False by (simpl; tauto).
    + intros h' [->|Hh']%elem_of_cons Hn; [done|by apply Hgone].
    + intros q Hq. apply Hkept. intros h' Hh'. apply Hq, elem_of_cons. by right.
  - unfold mbind at 1, SM_bind, sm_get. unfold mbind at 1, SM_bind, sm_lift.
    rewrite blob_size_files by done. unfold mbind at 1, SM_bind.
    unfold blob_remove, blob_path. rewrite Hv. unfold mbind at 1, SM_bind, sm_lift.
    destruct (remove_if_present (dir ++ [h]) f) as [r1 f1] eqn:E1.
    apply remove_if_present_files in E1 as (Hinv1&Hf1&->); [|done..]. intros Hrun.
    destruct (IH f1 f' _ freed Hinv1 Hall Hnd Hrun) as ((od&Hod&->)&Hgone&Hkept).
    destruct (disk_sizes_files f f1 hs) as [Heq _]; [done|done|by eapply Forall_impl; [exact Hall|simpl; tauto]| |].
    { intros h' Hh'. rewrite Hf1, lookup_delete_ne; [done|]. intros Hd%app_inv_head. injection Hd as ->. done. }
    rewrite <-Heq, Hod. simpl. split_and!.
    + eexists. split; [done|]. unfold reclaimable_blob_bytes. rewrite filter_cons_True by done. csimpl.
      rewrite (sum_from (0 + _)%N). lia.
    + intros h' [->|Hh']%elem_of_cons Hn; [|by apply Hgone].
      rewrite Hkept, Hf1; [by rewrite lookup_delete_eq|].
      intros h2 Hh2 _ Hd%app_inv_head. injection Hd as ->. done.
    + intros q Hq. rewrite Hkept, Hf1, lookup_delete_ne; [done| |].
      * intros <-. apply (Hq h); [apply elem_of_cons; by left|done|done].
      * intros h' Hh' Hn. apply Hq; [apply elem_of_cons; by right|done].
Qed.

(** A checkpoint frees exactly what its dry run announces. For the blobs
    listed in a directory, the reclaim loop returns the total the dry run
    computes from their sizes, removes every unreferenced blob, and leaves
    every referenced blob and every other file as it was. *)
Theorem reclaim_matches_dry_run f f' hs freed :
  fs_inv f → (∀ h, fs_path (dir ++ [h])) → blob_list dir f = Ok hs →
  reclaim dir referenced 0%N hs f = (Ok freed, f') →
  (∃ on_disk, disk_sizes dir hs f = Ok on_disk ∧ freed = reclaimable_blob_bytes on_disk referenced) ∧
  (∀ h, is_valid_hash h = true → h ∉ referenced → files f' !! (dir ++ [h]) = None) ∧
  (∀ q, (∀ h, is_valid_hash h = true → h ∉ referenced → q ≠ dir ++ [h]) → files f' !! q = files f !! q).
Proof.
  intros Hinv Hpaths Hlist Hrun.
  destruct (blob_list_spec dir f hs Hinv Hlist) as (Hnd&Hvalid&Hall).
  destruct (reclaim_spec hs f f' 0%N freed Hinv) as (Hsum&Hgone&Hkept); [|done|done|].
  { eapply Forall_impl; [exact Hvalid|]. by split. }
  rewrite Forall_forall in Hvalid. split_and!; [done| |].
  - intros h Hv Hr. destruct (decide (h ∈ hs)) as [Hh|Hh]; [by apply Hgone|].
    rewrite Hkept. { destruct (files f !! (dir ++ [h])) eqn:E; [|done]. destruct Hh. apply Hall; [done|by eexists]. }
    intros h' Hh' _ Hd%app_inv_head. by injection Hd as ->.
  - intros q Hq. apply Hkept. intros h Hh Hr. by apply Hq; [apply Hvalid|].
Qed.
End reclaim.

(** ** A checkpoint taken twice *)
Section twice.
Context `{Ed25519, B64, JsonLaws EntryLine, JsonLaws Marker}.
Context {Fs Doc Ver : Type} `{VaultFsLaws Fs, DocOps Doc Ver, DocHistory Doc}.
Implicit Types (f : Fs) (s : Store Fs Doc Ver) (r q : path).

(** Only files below [d] changed. *)
Definition only_below (d : path) f f' : Prop := fs_inv f' ∧ ∀ q, ¬ d `prefix_of` q → files f' !! q = files f !! q.
Lemma only_below_trans d f1 f2 f3 : only_below d f1 f2 → only_below d f2 f3 → only_below d f1 f3.
Proof. intros [_ H1'] [Hi H2']. split; [done|]. intros q Hq. by rewrite H2', H1'. Qed.
Lemma other_dir r d d' n : d ≠ d' → ¬ (r ++ [d]) `prefix_of` ((r ++ [d']) ++ [n]).
Proof. intros Hne [x Hx]. rewrite <-!(assoc_L (++)) in Hx. by apply app_inv_head in Hx as [= ->]. Qed.
Lemma holds_below {L} `{JsonOf L} d f f' p (ls : list L) :
  only_below d f f' → ¬ d `prefix_of` p → log_holds f p ls → log_holds f' p ls.
Proof. intros [_ Hf] Hp. unfold log_holds. by rewrite Hf. Qed.

(** Staging: the file [p] of the directory [d] is replaced through a temporary beside it. *)
Lemma staged d n e b f f' :
  fs_inv f → (∀ q, d `prefix_of` q → fs_path q) → file_stem n ++ DOT :: e ≠ n →
  (_ ← io (fs_write (with_extension (d ++ [n]) e) b); io (fs_rename (with_extension (d ++ [n]) e) (d ++ [n]))) f = (Ok tt, f') →
  only_below d f f' ∧ files f' !! (d ++ [n]) = Some b ∧ ∀ q, q ≠ d ++ [n] → q ≠ d ++ [file_stem n ++ DOT :: e] → files f' !! q = files f !! q.
Proof.
  intros Hi Hp Hne. rewrite with_extension_snoc. intros Hrun.
  apply write_rename_spec in Hrun as (Hi'&Hf&Ho); [|done|apply Hp; by eexists|apply Hp; by eexists|].
  - split; [|done]. split; [done|]. intros q Hq. apply Ho; intros ->; apply Hq; by eexists.
  - intros Heq%app_inv_head. by injection Heq.
Qed.

Lemma log_name r a : ∃ n, log_file r a = ops_dir r ++ [n] ∧ last n = Some 108%N.
Proof. eexists. split; [done|]. by rewrite !str_app, !last_app. Qed.
(** A temporary is no log. *)
Lemma tmp_last n : last (file_stem n ++ DOT :: str "jsonl.tmp") = Some 112%N.
Proof. by rewrite last_app. Qed.

Lemma truncate_other r a n f f' :
  fs_inv f → (∀ q, ops_dir r `prefix_of` q → fs_path q) → truncate_leading_lines (log_file r a) n f = (Ok tt, f') →
  only_below (ops_dir r) f f' ∧ ∀ b, b ≠ a → files f' !! log_file r b = files f !! log_file r b.
Proof.
  intros Hi Hp. unfold truncate_leading_lines. destruct (log_name r a) as (m&Hm&Hl).
  destruct (fs_read_to_string _ f) as [t|[]]; try done; [|by intros [= <-]].
  rewrite Hm. intros Hrun. apply staged in Hrun as (Hb&_&Ho); [|done|done|].
  - split; [done|]. intros b Hne. rewrite <-Hm in Ho. apply Ho.
    + by intros ?%log_path_inj.
    + destruct (log_name r b) as (m'&->&Hl'). intros [= E]%app_inv_head. by rewrite E, tmp_last in Hl'.
  - intros E. by rewrite <-E, tmp_last in Hl.
Qed.
Lemma truncate_here r a n f f' (ls : list EntryLine) :
  fs_inv f → (∀ q, ops_dir r `prefix_of` q → fs_path q) → log_holds f (log_file r a) ls →
  truncate_leading_lines (log_file r a) n f = (Ok tt, f') → log_holds f' (log_file r a) (drop n ls).
Proof.
  intros Hi Hp Hh Hrun. destruct (log_name r a) as (m&Hm&Hl).
  apply (truncate_spec f f' _ n ls) in Hrun as (_&Hd&_); try done.
  - apply Hp. rewrite Hm. by eexists.
  - apply Hp. rewrite Hm, with_extension_snoc. by eexists.
  - rewrite Hm, with_extension_snoc. intros [= E]%app_inv_head. by rewrite <-E, tmp_last in Hl.
Qed.
Lemma truncate_logs_spec r plan f f' :
  fs_inv f → (∀ q, ops_dir r `prefix_of` q → fs_path q) → NoDup plan.*1 → truncate_logs r plan f = (Ok tt, f') →
  only_below (ops_dir r) f f' ∧
  ∀ a (ls : list EntryLine), log_holds f (log_file r a) ls →
    (a ∉ plan.*1 → log_holds f' (log_file r a) ls) ∧ ∀ n, (a, n) ∈ plan → log_holds f' (log_file r a) (drop (N.to_nat n) ls).
Proof.
  intros Hi Hp. unfold truncate_logs. revert f Hi. induction plan as [|[b m] plan IH]; intros f Hi Hnd Hrun.
  { injection Hrun as <-. split; [done|]. intros a ls Hh. split; [done|]. by intros n ?%elem_of_nil. }
  rewrite fmap_cons in Hnd. apply NoDup_cons in Hnd as [Hb Hnd]. cbn [fst] in Hb. step_ok Hrun u f1 E1. destruct u. cbn [fst snd] in E1.
  destruct (truncate_other r b _ f f1 Hi Hp E1) as [Hf1 Ho]. destruct (IH f1 (proj1 Hf1) Hnd Hrun) as [Hf2 Hl].
  split; [by eapply only_below_trans|]. intros a ls Hh. destruct (decide (a = b)) as [->|Hne].
  - split; [set_solver|]. intros n [[= ->]|Hin]%elem_of_cons; [|destruct Hb; apply list_elem_of_fmap; by eexists (_, _)].
    destruct (Hl b (drop (N.to_nat m) ls)) as [Hk _]; [by eapply truncate_here|by apply Hk].
  - destruct (Hl a ls) as [H1' H2'].
    { unfold log_holds. by rewrite Ho. }
    split; [set_solver|]. intros n [[= -> _]|Hin]%elem_of_cons; [done|by apply H2'].
Qed.
Lemma reclaim_below dir refs hs freed f f' n :
  fs_inv f → (∀ h, fs_path (dir ++ [h])) → reclaim dir refs n hs f = (Ok freed, f') → only_below dir f f'.
Proof.
  intros Hi Hp. revert f n Hi. induction hs as [|h hs IH]; intros f n Hi Hrun; simpl in Hrun; [by injection Hrun as _ <-|].
  case_decide; [by eapply IH|]. step_ok Hrun f0 f1 Hg. injection Hg as <- <-. step_ok Hrun sz f2 Hg. injection Hg as _ <-.
  step_ok Hrun u f2 Hr. destruct u. unfold blob_remove, blob_path in Hr. destruct (is_valid_hash h); [|done]. unfold mbind, SM_bind, sm_lift in Hr.
  apply remove_if_present_files in Hr as (Hi2&Hf2&_); [|done|done]. eapply only_below_trans; [|by eapply IH].
  split; [done|]. intros q Hq. rewrite Hf2, lookup_delete_ne; [done|]. intros <-. apply Hq. by eexists.
Qed.

(** One checkpoint: the marker is the last one up to [before], each log it counts loses the lines it counts, and the
    markers from it on are kept. *)
Lemma checkpoint_drops s s' before freed ms target :
  (∀ q, root s `prefix_of` q → fs_path q) → fs_inv (fs s) → log_holds (fs s) (history_path (history_dir (root s))) ms →
  last (filter (λ m, (ts_ms m ≤ before)%Z) ms) = Some target → checkpoint before s = (Ok freed, s') →
  root s' = root s ∧ fs_inv (fs s') ∧
  log_holds (fs s') (history_path (history_dir (root s))) (filter (λ m, (ts_ms target ≤ ts_ms m)%Z) ms) ∧
  ∀ a n (ls : list EntryLine), log_lens target !! a = Some n → log_holds (fs s) (log_file (root s) a) ls →
    log_holds (fs s') (log_file (root s) a) (drop (N.to_nat n) ls).
Proof.
  intros Hp Hi Hm Ht Hrun. set (r := root s) in *.
  assert (∀ d q, (r ++ [d]) `prefix_of` q → fs_path q) as Hd by (intros d q Hq; apply Hp; etrans; [by eexists|done]).
  unfold checkpoint in Hrun. step_ok Hrun s0 s1 Hg. injection Hg as <- <-. step_ok Hrun t s1 Hg. unfold sm_lift, marker_before in Hg.
  fold r in Hg, Hrun. rewrite (markers_holds _ _ ms) in Hg by done. simpl in Hg. injection Hg as <- <-. rewrite Ht in Hrun.
  step_ok Hrun al s1 Hg. unfold sm_lift in Hg. rewrite (markers_holds _ _ ms) in Hg by done. injection Hg as <- <-.
  step_ok Hrun refs s1 Hg. injection Hg as _ <-. step_ok Hrun fb s1 Hg. injection Hg as _ <-. step_ok Hrun u s1 Hg. injection Hg as _ <-.
  step_ok Hrun sh s1 Hg. injection Hg as _ <-. step_ok Hrun u1 s1 E1. step_ok Hrun u2 s2 E2. step_ok Hrun sx s3 Hg. injection Hg as <- <-.
  step_ok Hrun hs s3 Hg. injection Hg as _ <-. step_ok Hrun fr s3 E3. step_ok Hrun u4 s4 E4. injection Hrun as _ <-.
  apply on_fs_frame in E1 as [E1 (R1&_)], E2 as [E2 (R2&_)], E3 as [E3 (R3&_)], E4 as [E4 (R4&_)].
  assert (only_below (r ++ [str "snapshots"]) (fs s) (fs s1)) as B1.
  { unfold snapshot_save in E1. step_ok E1 u0 f1 Ep. unfold ensure_parent in Ep.
    change (snapshot_path r) with (r ++ [str "snapshots"; str "snapshot.loro"]) in E1, Ep.
    change [str "snapshots"; str "snapshot.loro"] with ([str "snapshots"] ++ [str "snapshot.loro"]) in E1.
    rewrite (assoc_L (++)) in E1. destruct u1.
    assert (fs_inv f1 ∧ files f1 = files (fs s)) as [Hi1 Hf1].
    { destruct (parent _) as [dd|]; [|by injection Ep as _ <-]. unfold io, sm_map_err in Ep.
      pose proof (fs_create_dir_all_spec dd (fs s) Hi) as Hc. destruct (fs_create_dir_all dd (fs s)) as [r0 f0].
      destruct Hc as (_&?&?). by injection Ep as _ <-. }
    apply staged in E1 as ([Hi' Hf']&_&_); [|done|by apply Hd|done]. split; [done|]. intros q Hq. by rewrite Hf', Hf1. }
  destruct u2, u4. apply truncate_logs_spec in E2 as [B2 Hl]; [|apply B1|by apply Hd|apply btree_NoDup].
  assert (only_below (assets_dir r) (fs s2) (fs s3)) as B3.
  { eapply reclaim_below; [apply B2| |exact E3]. intros h. apply (Hd (str "assets")). by eexists. }
  unfold rewrite_history in E4. apply staged in E4 as (B4&Hh&_); [|apply B3|by apply Hd|done].
  split; [unfold r; congruence|]. split; [apply B4|]. split; [unfold log_holds; change (history_path (history_dir r)) with (history_dir r ++ [str "history.jsonl"]); by rewrite Hh|]. intros a n ls Ha Hls.
  destruct (log_name r a) as (m&Hn&_). eapply (holds_below _ (fs s3)); [exact B4|rewrite Hn; by apply other_dir|].
  eapply (holds_below _ (fs s2)); [exact B3|rewrite Hn; by apply other_dir|]. eapply (Hl a).
  - eapply (holds_below _ (fs s)); [exact B1|rewrite Hn; by apply other_dir|done].
  - by apply elem_of_btree.
Qed.

(** C40: Checkpointing twice for the same time loses operations.  On a vault whose files have legal paths, whose
    history index is intact and has [target] as its last marker up to the time, let a
    first and then a second [checkpoint] of that time succeed with nothing written in between.  Then
    every intact log that the marker counts loses twice the lines counted: the first
    checkpoint removes the [n] lines up to the marker, which its snapshot holds; the second finds the
    same marker again, still counting from the log's first line ever, and removes [n] more lines, all of
    them lines that came after the marker. *)
Theorem checkpoint_twice_drops_twice s s1 s2 before n1 n2 ms target a n (ls : list EntryLine) :
  (∀ q, root s `prefix_of` q → fs_path q) → fs_inv (fs s) → log_holds (fs s) (history_path (history_dir (root s))) ms →
  last (filter (λ m, (ts_ms m ≤ before)%Z) ms) = Some target →
  log_lens target !! a = Some n → log_holds (fs s) (log_file (root s) a) ls →
  checkpoint before s = (Ok n1, s1) → checkpoint before s1 = (Ok n2, s2) →
  marker_before (history_dir (root s1)) before (fs s1) = Ok (Some target) ∧
  log_holds (fs s1) (log_file (root s) a) (drop (N.to_nat n) ls) ∧
  log_holds (fs s2) (log_file (root s) a) (drop (N.to_nat n + N.to_nat n) ls).
Proof.
  intros Hp Hi Hm Ht Ha Hls E1 E2.
  destruct (checkpoint_drops s s1 before n1 ms target Hp Hi Hm Ht E1) as (Hr&Hi1&Hm1&Hl1).
  set (kept := filter (λ m, (ts_ms target ≤ ts_ms m)%Z) ms) in *.
  assert (last (filter (λ m, (ts_ms m ≤ before)%Z) kept) = Some target) as Ht1 by (by apply last_filter_filter).
  specialize (Hl1 a n ls Ha Hls). rewrite <-Hr in *.
  destruct (checkpoint_drops s1 s2 before n2 kept target Hp Hi1 Hm1 Ht1 E2) as (_&_&_&Hl2).
  split_and!; [|done|by rewrite <-drop_drop; apply Hl2].
  unfold marker_before. rewrite (markers_holds _ _ kept) by done. simpl. unfold mret, result_ret. by f_equal.
Qed.
End twice.
