(* ===== verification/Textdiff.v ===== *)
(** * Text diffs as edit operations (roam-files, textdiff.rs)

    A folder import turns two texts into insertions and deletions at character
    offsets, applied left to right.  The diff itself comes from the crate [similar]
    and is the interface [Similar]; this file models what the code builds from it:
    the cursor, the coalescing of runs and the replacement used above the size bound,
    and proves that the operations carry the old text to the new one. *)
From S2P Require Import Prelude RustStr.

(** ** The diff interface: [similar::TextDiff::from_chars(..).iter_all_changes()] *)
Inductive ChangeTag := Equal | Delete | Insert.
#[global] Instance ChangeTag_eq_dec : EqDecision ChangeTag.
Proof. solve_decision. Defined.

Record Change := mkChange { tag : ChangeTag; value : rstring }.

(** The text a change list takes its [Equal] and [Delete] values from, and the one it
    takes its [Equal] and [Insert] values from. *)
Definition old_part (c : Change) : rstring := match tag c with Insert => [] | _ => value c end.
Definition new_part (c : Change) : rstring := match tag c with Delete => [] | _ => value c end.
Definition old_of (cs : list Change) : rstring := cs ≫= old_part.
Definition new_of (cs : list Change) : rstring := cs ≫= new_part.

Lemma old_of_cons c cs : old_of (c :: cs) = old_part c ++ old_of cs.
Proof. apply bind_cons. Qed.
Lemma new_of_cons c cs : new_of (c :: cs) = new_part c ++ new_of cs.
Proof. apply bind_cons. Qed.

Class Similar := from_chars : rstring → rstring → list Change.
(** A diff spells both texts, one character per change, and the shortest script
    between equal texts changes nothing. *)
Class SimilarLaws `{Similar} := {
  from_chars_old a b : old_of (from_chars a b) = a;
  from_chars_new a b : new_of (from_chars a b) = b;
  from_chars_one a b c : c ∈ from_chars a b → ∃ x, value c = [x];
  from_chars_same a c : c ∈ from_chars a a → tag c = Equal;
}.

(** ** Operations *)
Inductive TextOp :=
  | OpInsert (pos : nat) (s : rstring)
  | OpDelete (pos len : nat).
#[global] Instance TextOp_eq_dec : EqDecision TextOp.
Proof. solve_decision. Defined.

Definition DIFF_MAX_CHARS : N := 1000000.

Definition coarse_replace (old_len : nat) (new : rstring) : list TextOp :=
  (if bool_decide (0 < old_len) then [OpDelete 0 old_len] else []) ++
  (if bool_decide (new = []) then [] else [OpInsert 0 new]).

(** The loop's variables. *)
Record DiffState := mkDiff {
  ops : list TextOp; cursor : nat; pending_insert : rstring; insert_pos : nat; delete_len : nat;
}.
Definition diff_init : DiffState := mkDiff [] 0 [] 0 0.

Definition flush_insert (d : DiffState) : DiffState :=
  if bool_decide (pending_insert d = []) then d
  else mkDiff (ops d ++ [OpInsert (insert_pos d) (pending_insert d)]) (cursor d) [] (insert_pos d) (delete_len d).

Definition flush_delete (d : DiffState) : DiffState :=
  if bool_decide (0 < delete_len d)
  then mkDiff (ops d ++ [OpDelete (cursor d) (delete_len d)]) (cursor d) (pending_insert d) (insert_pos d) 0
  else d.

Definition diff_step (d : DiffState) (c : Change) : DiffState :=
  let n := length (value c) in
  match tag c with
  | Equal =>
      let d := flush_delete (flush_insert d) in
      mkDiff (ops d) (cursor d + n) (pending_insert d) (insert_pos d) (delete_len d)
  | Delete =>
      let d := flush_insert d in
      mkDiff (ops d) (cursor d) (pending_insert d) (insert_pos d) (delete_len d + n)
  | Insert =>
      let d := flush_delete d in
      let ip := if bool_decide (pending_insert d = []) then cursor d else insert_pos d in
      mkDiff (ops d) (cursor d + n) (pending_insert d ++ value c) ip (delete_len d)
  end.

Definition diff_ops (cs : list Change) : list TextOp :=
  ops (flush_delete (flush_insert (foldl diff_step diff_init cs))).

Definition diff_to_ops_bounded `{Similar} (old new : rstring) (max_chars : N) : list TextOp :=
  if bool_decide (max_chars < N.of_nat (length old))%N || bool_decide (max_chars < N.of_nat (length new))%N
  then coarse_replace (length old) new
  else diff_ops (from_chars old new).

Definition diff_to_ops `{Similar} (old new : rstring) : list TextOp :=
  diff_to_ops_bounded old new DIFF_MAX_CHARS.

(** ** What an operation does to a text

    [Store::edit_text] and [Store::delete_text] at character offsets; an offset
    outside the text is an error. *)
Definition apply_op (s : rstring) (o : TextOp) : option rstring :=
  match o with
  | OpInsert p t => if decide (p ≤ length s) then Some (take p s ++ t ++ drop p s) else None
  | OpDelete p n => if decide (p + n ≤ length s) then Some (take p s ++ drop (p + n) s) else None
  end.

Fixpoint apply_ops (s : rstring) (os : list TextOp) : option rstring :=
  match os with
  | [] => Some s
  | o :: os => apply_op s o ≫= λ s', apply_ops s' os
  end.

(** Two neighbouring operations of one kind leave a kept character between them. *)
Definition apart (o1 o2 : TextOp) : bool :=
  match o1, o2 with
  | OpInsert p s, OpInsert q _ => bool_decide (p + length s < q)
  | OpDelete p _, OpDelete q _ => bool_decide (p < q)
  | _, _ => true
  end.
Fixpoint coalesced (os : list TextOp) : bool :=
  match os with
  | o1 :: ((o2 :: _) as os') => apart o1 o2 && coalesced os'
  | _ => true
  end.

Lemma apply_ops_app s os1 os2 : apply_ops s (os1 ++ os2) = apply_ops s os1 ≫= λ s', apply_ops s' os2.
Proof.
  revert s. induction os1 as [|o os1 IH]; intros s; simpl; [done|].
  destruct (apply_op s o); simpl; [apply IH|done].
Qed.

Lemma apply_insert a b t : apply_op (a ++ b) (OpInsert (length a) t) = Some (a ++ t ++ b).
Proof.
  simpl. rewrite decide_True by (rewrite length_app; lia).
  by rewrite take_app_length, drop_app_length.
Qed.
Lemma apply_delete a b c : apply_op (a ++ b ++ c) (OpDelete (length a) (length b)) = Some (a ++ c).
Proof.
  simpl. rewrite decide_True by (rewrite !length_app; lia).
  rewrite take_app_length, <-drop_drop, drop_app_length. by rewrite drop_app_length.
Qed.

(** ** The loop invariant

    The operations so far turn the old text into [kept], then [gone], then [rest]:
    [kept] and the pending insertion are the new text's prefix, [gone] are the
    characters the pending deletion will remove, [rest] is the unread old text. *)
Record diff_inv (old kept gone rest : rstring) (d : DiffState) : Prop := mkDiffInv {
  inv_gone : length gone = delete_len d;
  inv_cursor : cursor d = length (kept ++ pending_insert d);
  inv_pos : pending_insert d = [] ∨ insert_pos d = length kept;
  inv_one : pending_insert d = [] ∨ delete_len d = 0;
  inv_ops : apply_ops old (ops d) = Some (kept ++ gone ++ rest);
}.

Lemma flush_insert_inv old kept gone rest d :
  diff_inv old kept gone rest d →
  diff_inv old (kept ++ pending_insert d) gone rest (flush_insert d) ∧ pending_insert (flush_insert d) = [].
Proof.
  intros [Hg Hc Hp Ho Ha]. unfold flush_insert. case_bool_decide as He.
  - split; [|done]. split; rewrite ?He, ?app_nil_r; rewrite ?He, ?app_nil_r in Hc; auto.
  - destruct Hp as [|Hp]; [done|]. destruct Ho as [|Ho]; [done|].
    destruct gone; [|simpl in *; lia]. simpl in *. split; [|done]. split; simpl; auto.
    + by rewrite Hc, app_nil_r.
    + rewrite apply_ops_app, Ha. cbn [mbind option_bind apply_ops].
      rewrite Hp, apply_insert. simpl. by rewrite <-(assoc_L app).
Qed.

Lemma flush_delete_inv old kept gone rest d :
  diff_inv old kept gone rest d →
  diff_inv old kept [] rest (flush_delete d) ∧ delete_len (flush_delete d) = 0.
Proof.
  intros [Hg Hc Hp Ho Ha]. unfold flush_delete. case_bool_decide as He.
  - destruct Ho as [Ho|]; [|lia]. rewrite Ho, app_nil_r in Hc. split; [|done]. split; simpl; auto.
    + by rewrite Ho, app_nil_r.
    + rewrite apply_ops_app, Ha. cbn [mbind option_bind apply_ops].
      rewrite Hc, <-Hg, apply_delete. done.
  - destruct gone; [|simpl in *; lia]. split; [|lia]. by split.
Qed.

Lemma flush_delete_pending d : pending_insert (flush_delete d) = pending_insert d.
Proof. unfold flush_delete. by case_bool_decide. Qed.

(** One change moves its old part out of [rest] and its new part into the prefix. *)
Lemma diff_step_inv old kept gone rest d c :
  diff_inv old kept gone (old_part c ++ rest) d →
  ∃ kept' gone', diff_inv old kept' gone' rest (diff_step d c) ∧
    kept' ++ pending_insert (diff_step d c) = (kept ++ pending_insert d) ++ new_part c.
Proof.
  destruct c as [[| |] v]; unfold diff_step, old_part, new_part; cbn [tag value]; intros Hd.
  - destruct (flush_insert_inv _ _ _ _ _ Hd) as [Hd1 Hp1].
    destruct (flush_delete_inv _ _ _ _ _ Hd1) as [[Hg Hc Hp Ho Ha] Hl].
    pose proof (flush_delete_pending (flush_insert d)) as Hp2. rewrite Hp1 in Hp2.
    rewrite Hp2, app_nil_r in Hc.
    eexists ((kept ++ pending_insert d) ++ v), []. split; [split; simpl; auto|].
    + by rewrite Hp2, app_nil_r, Hc, !length_app.
    + rewrite Ha. simpl. by rewrite !(assoc_L app).
    + simpl. by rewrite Hp2, app_nil_r.
  - destruct (flush_insert_inv _ _ _ _ _ Hd) as [[Hg Hc Hp Ho Ha] Hp1].
    eexists (kept ++ pending_insert d), (gone ++ v). rewrite app_nil_r. split; [split; simpl; auto|].
    + by rewrite length_app, Hg.
    + rewrite Ha. by rewrite !(assoc_L app).
    + simpl. by rewrite Hp1, app_nil_r.
  - destruct (flush_delete_inv _ _ _ _ _ Hd) as [[Hg Hc Hp Ho Ha] Hl].
    rewrite flush_delete_pending in *. simpl in Ha.
    exists kept, []. split; [split; simpl; auto|].
    + by rewrite Hc, !length_app, Nat.add_assoc.
    + right. case_bool_decide as He; [|by destruct Hp].
      by rewrite Hc, He, app_nil_r.
    + simpl. by rewrite (assoc_L app).
Qed.

Lemma diff_steps_inv old cs kept gone rest d :
  diff_inv old kept gone (old_of cs ++ rest) d →
  ∃ kept' gone', diff_inv old kept' gone' rest (foldl diff_step d cs) ∧
    kept' ++ pending_insert (foldl diff_step d cs) = (kept ++ pending_insert d) ++ new_of cs.
Proof.
  revert kept gone d. induction cs as [|c cs IH]; intros kept gone d Hd; cbn [foldl].
  - exists kept, gone. by rewrite app_nil_r.
  - rewrite old_of_cons, <-(assoc_L app) in Hd.
    destruct (diff_step_inv _ _ _ _ _ _ Hd) as (kept1&gone1&Hd1&Hk1).
    destruct (IH _ _ _ Hd1) as (kept2&gone2&Hd2&Hk2). exists kept2, gone2. split; [done|].
    by rewrite Hk2, Hk1, new_of_cons, !(assoc_L app).
Qed.

Lemma diff_ops_applies cs : apply_ops (old_of cs) (diff_ops cs) = Some (new_of cs).
Proof.
  destruct (diff_steps_inv (old_of cs) cs [] [] [] diff_init) as (kept&gone&Hd&Hk).
  { split; simpl; auto. by rewrite app_nil_r. }
  destruct (flush_insert_inv _ _ _ _ _ Hd) as [Hd1 _].
  destruct (flush_delete_inv _ _ _ _ _ Hd1) as [Hd2 _].
  unfold diff_ops. rewrite (inv_ops _ _ _ _ _ Hd2), !app_nil_r, Hk. done.
Qed.

Lemma coarse_replace_applies old new : apply_ops old (coarse_replace (length old) new) = Some new.
Proof.
  unfold coarse_replace.
  assert (apply_ops old (if bool_decide (0 < length old) then [OpDelete 0 (length old)] else []) = Some []) as Hd.
  { case_bool_decide; [|destruct old; simpl in *; [done|lia]].
    cbn [apply_ops]. pose proof (apply_delete [] old []) as Ha. rewrite app_nil_r in Ha. simpl app in Ha.
    simpl length in Ha. by rewrite Ha. }
  rewrite apply_ops_app, Hd. clear Hd. simpl. case_bool_decide as Hn; [by rewrite Hn|].
  cbn [apply_ops]. pose proof (apply_insert [] [] new) as Ha. simpl app in Ha. simpl length in Ha.
  rewrite Ha. simpl. by rewrite app_nil_r.
Qed.

(** ** Coalescing *)
Lemma coalesced_snoc os o :
  coalesced (os ++ [o]) = coalesced os && match last os with Some o' => apart o' o | None => true end.
Proof.
  induction os as [|o1 [|o2 os] IH]; [done|simpl; by rewrite andb_true_r|].
  change ((o1 :: o2 :: os) ++ [o]) with (o1 :: (o2 :: os) ++ [o]).
  change (coalesced (o1 :: (o2 :: os) ++ [o])) with (apart o1 o2 && coalesced ((o2 :: os) ++ [o])).
  rewrite IH. change (last (o1 :: o2 :: os)) with (last (o2 :: os)).
  simpl coalesced at 2. by rewrite andb_assoc.
Qed.

(** Where the next operation of the last one's kind would start: past it. *)
Record diff_settled (d : DiffState) : Prop := mkSettled {
  set_one : pending_insert d = [] ∨ delete_len d = 0;
  set_ip : pending_insert d = [] ∨ cursor d = insert_pos d + length (pending_insert d);
  set_coalesced : coalesced (ops d) = true;
  set_last :
    match last (ops d) with
    | Some (OpDelete p _) => pending_insert d ≠ [] ∨ p < cursor d
    | Some (OpInsert p s) =>
        0 < delete_len d ∨ p + length s < match pending_insert d with [] => cursor d | _ => insert_pos d end
    | None => True
    end;
}.

Lemma flush_insert_coalesced d : diff_settled d → coalesced (ops (flush_insert d)) = true.
Proof.
  intros [Ho Hi Hc Hl]. unfold flush_insert. case_bool_decide as He; [done|]. cbn [ops].
  rewrite coalesced_snoc, Hc. destruct (last (ops d)) as [[p s|p n]|]; simpl; try done.
  destruct Ho; [done|]. destruct Hl; [lia|]. apply bool_decide_eq_true. by destruct (pending_insert d).
Qed.
Lemma flush_delete_coalesced d :
  pending_insert d = [] → diff_settled d → coalesced (ops (flush_delete d)) = true.
Proof.
  intros Hp [Ho Hi Hc Hl]. unfold flush_delete. case_bool_decide as He; [|done]. cbn [ops].
  rewrite coalesced_snoc, Hc. destruct (last (ops d)) as [[p s|p n]|]; simpl; try done.
  destruct Hl; [done|]. by apply bool_decide_eq_true.
Qed.

Lemma diff_step_settled d c : value c ≠ [] → diff_settled d → diff_settled (diff_step d c).
Proof.
  intros Hv Hd. pose proof (flush_insert_coalesced _ Hd) as Hfi.
  pose proof (λ Hp, flush_delete_coalesced _ Hp Hd) as Hfd.
  destruct Hd as [Ho Hi Hc Hl]. destruct d as [os cur pend ip del], c as [t [|x v]]; [done|].
  unfold diff_step, flush_insert, flush_delete in *. cbn in Ho, Hi, Hc, Hl, Hfi, Hfd |- *.
  destruct pend as [|y pend]; cbn in *.
  - specialize (Hfd eq_refl). destruct del as [|del].
    + rewrite (bool_decide_eq_false_2 (0 < 0)) in * by lia. cbn in *.
      destruct t; split; cbn; eauto with lia; destruct (last os) as [[]|]; naive_solver lia.
    + rewrite (bool_decide_eq_true_2 (0 < S del)) in * by lia. cbn in *.
      destruct t; split; cbn; rewrite ?last_snoc; eauto with lia.
      destruct (last os) as [[]|]; naive_solver lia.
  - destruct Ho as [| ->]; [done|]. destruct Hi as [|Hi]; [done|].
    rewrite (bool_decide_eq_false_2 (0 < 0)) in * by lia. cbn in *.
    destruct t; split; cbn; rewrite ?last_snoc; eauto with lia.
    + right. simpl. lia.
    + right. simpl. rewrite length_app. simpl. lia.
    + destruct (last os) as [[]|]; naive_solver lia.
Qed.

Lemma diff_ops_coalesced cs : Forall (λ c, value c ≠ []) cs → coalesced (diff_ops cs) = true.
Proof.
  intros Hcs. assert (diff_settled (foldl diff_step diff_init cs)) as Hd.
  { assert (diff_settled diff_init) as H0 by (split; simpl; auto).
    revert H0. generalize diff_init. induction Hcs; intros d Hd; simpl; eauto using diff_step_settled. }
  unfold diff_ops. set (d := foldl diff_step diff_init cs) in *.
  destruct (decide (pending_insert d = [])) as [Hp|Hp].
  - assert (flush_insert d = d) as -> by (unfold flush_insert; by rewrite bool_decide_eq_true_2).
    by apply flush_delete_coalesced.
  - destruct (set_one _ Hd) as [|Hl]; [done|]. unfold flush_delete.
    rewrite bool_decide_eq_false_2.
    + by apply flush_insert_coalesced.
    + unfold flush_insert. rewrite bool_decide_eq_false_2 by done. simpl. lia.
Qed.

(** A script of kept characters gives no operation. *)
Lemma diff_ops_equal cs : Forall (λ c, tag c = Equal) cs → diff_ops cs = [].
Proof.
  intros Hcs.
  unfold diff_ops. assert (∃ n, foldl diff_step diff_init cs = mkDiff [] n [] 0 0) as [n ->]; [|done].
  assert (∃ n, diff_init = mkDiff [] n [] 0 0) as H0 by by eexists.
  revert H0. generalize diff_init. induction Hcs as [|c cs Hc _ IH]; intros d [n ->]; simpl; [eauto|].
  apply IH. unfold diff_step. rewrite Hc. by eexists.
Qed.

Section diff.
Context `{SimilarLaws}.

Lemma diff_to_ops_bounded_applies old new m :
  apply_ops old (diff_to_ops_bounded old new m) = Some new.
Proof.
  unfold diff_to_ops_bounded. destruct (_ || _); [apply coarse_replace_applies|].
  pose proof (diff_ops_applies (from_chars old new)) as Ha.
  by rewrite from_chars_old, from_chars_new in Ha.
Qed.

(** C34: The operations computed for two texts, applied left to right to the old text,
    give exactly the new text, and no operation's offset or length leaves the text it
    is applied to, below and above the size bound alike. *)
Theorem diff_to_ops_applies old new : apply_ops old (diff_to_ops old new) = Some new.
Proof. apply diff_to_ops_bounded_applies. Qed.

(** Up to the size bound the operations are empty exactly when the texts are equal,
    and neighbouring operations of one kind are coalesced: between two of them at
    least one character is kept. *)
Theorem diff_to_ops_minimal old new max_chars :
  (N.of_nat (length old) ≤ max_chars)%N → (N.of_nat (length new) ≤ max_chars)%N →
  (diff_to_ops_bounded old new max_chars = [] ↔ old = new) ∧
  coalesced (diff_to_ops_bounded old new max_chars) = true.
Proof.
  intros Ho Hn. split; [split|].
  - intros Hops. pose proof (diff_to_ops_bounded_applies old new max_chars) as Ha.
    rewrite Hops in Ha. by injection Ha.
  - intros ->. unfold diff_to_ops_bounded. rewrite !bool_decide_eq_false_2 by lia. simpl.
    apply diff_ops_equal, Forall_forall. apply from_chars_same.
  - unfold diff_to_ops_bounded. rewrite !bool_decide_eq_false_2 by lia. simpl.
    apply diff_ops_coalesced, Forall_forall. intros c (x&->)%from_chars_one. done.
Qed.

Lemma diff_to_ops_same s : (N.of_nat (length s) ≤ DIFF_MAX_CHARS)%N → diff_to_ops s s = [].
Proof.
  intros Hle. unfold diff_to_ops, diff_to_ops_bounded. rewrite bool_decide_eq_false_2 by lia. simpl.
  apply diff_ops_equal, Forall_forall. apply from_chars_same.
Qed.

(** For one text on both sides the operations are empty exactly up to the size
    bound; above it the whole text is deleted and inserted again. *)
Theorem unchanged_text_ops s :
  diff_to_ops s s = [] ↔ (N.of_nat (length s) ≤ DIFF_MAX_CHARS)%N.
Proof.
  split; [|apply diff_to_ops_same]. unfold diff_to_ops, diff_to_ops_bounded. intros Hops.
  destruct (decide (DIFF_MAX_CHARS < N.of_nat (length s))%N) as [Hlt|]; [|lia].
  rewrite bool_decide_eq_true_2 in Hops by done. simpl in Hops.
  unfold coarse_replace in Hops. rewrite bool_decide_eq_true_2 in Hops; [done|].
  unfold DIFF_MAX_CHARS in Hlt. lia.
Qed.
End diff.
