(* ===== verification/Rebase.v ===== *)
(** * Three-way text merge (roam-files, rebase.rs)

    A local edit, known as the diff from the last synced text [a] to the file's text
    [l], is applied to the store's text [r], which may hold remote edits.  The code
    maps ancestor offsets to offsets of [r] and keeps a running shift while it
    edits [r] in place; indexing outside a vector is a panic, here [None].  The
    reference is [weave]: at every ancestor boundary the remote insertions and then
    the local ones, and an ancestor character where both sides keep it. *)
From S2P Require Import Prelude RustStr Textdiff.

(** ** Data *)
Record Conflict := mkConflict {
  ancestor_start : nat; ancestor_end : nat; ancestor_text : rstring;
}.
#[global] Instance Conflict_eq_dec : EqDecision Conflict.
Proof. solve_decision. Defined.

Inductive LocalEdit :=
  | EInsert (a_pos : nat) (s : rstring)
  | EDelete (start end_ : nat).
#[global] Instance LocalEdit_eq_dec : EqDecision LocalEdit.
Proof. solve_decision. Defined.

(** ** Loops that can panic *)
Fixpoint foldM {A B} (f : A → B → option A) (a : A) (l : list B) : option A :=
  match l with
  | [] => Some a
  | x :: l => f a x ≫= λ a', foldM f a' l
  end.
Fixpoint times {A} (n : nat) (f : A → option A) (a : A) : option A :=
  match n with
  | O => Some a
  | S n => f a ≫= times n f
  end.
(** [v[i] = x]. *)
Definition set_at {A} (l : list A) (i : nat) (x : A) : option (list A) :=
  if decide (i < length l) then Some (<[i := x]> l) else None.

(** ** The local edits in ancestor coordinates *)
Definition push_delete (edits : list LocalEdit) (a_idx count : nat) : list LocalEdit :=
  match last edits with
  | Some (EDelete st e) =>
      if decide (e = a_idx) then removelast edits ++ [EDelete st (a_idx + count)]
      else edits ++ [EDelete a_idx (a_idx + count)]
  | _ => edits ++ [EDelete a_idx (a_idx + count)]
  end.
Definition push_insert (edits : list LocalEdit) (a_idx : nat) (v : rstring) : list LocalEdit :=
  match last edits with
  | Some (EInsert p s) =>
      if decide (p = a_idx) then removelast edits ++ [EInsert p (s ++ v)]
      else edits ++ [EInsert a_idx v]
  | _ => edits ++ [EInsert a_idx v]
  end.

Definition edits_step (st : list LocalEdit * nat) (c : Change) : list LocalEdit * nat :=
  let '(edits, a_idx) := st in
  let count := length (value c) in
  match tag c with
  | Equal => (edits, a_idx + count)
  | Delete => (push_delete edits a_idx count, a_idx + count)
  | Insert => (push_insert edits a_idx (value c), a_idx)
  end.
Definition local_edits_of (cs : list Change) : list LocalEdit := (foldl edits_step ([], 0) cs).1.
Definition local_edits `{Similar} (a l : rstring) : list LocalEdit := local_edits_of (from_chars a l).

(** ** The map from ancestor offsets to offsets of the remote text *)
Record PosState := mkPos { a_to_r : list nat; present : list bool; a_idx : nat; r_idx : nat }.

Definition map_equal (p : PosState) : option PosState :=
  ar ← set_at (a_to_r p) (a_idx p) (r_idx p);
  pr ← set_at (present p) (a_idx p) true;
  Some (mkPos ar pr (S (a_idx p)) (S (r_idx p))).
Definition map_delete (p : PosState) : option PosState :=
  ar ← set_at (a_to_r p) (a_idx p) (r_idx p);
  pr ← set_at (present p) (a_idx p) false;
  Some (mkPos ar pr (S (a_idx p)) (r_idx p)).
Definition map_step (p : PosState) (c : Change) : option PosState :=
  let count := length (value c) in
  match tag c with
  | Equal => times count map_equal p
  | Delete => times count map_delete p
  | Insert => Some (mkPos (a_to_r p) (present p) (a_idx p) (r_idx p + count))
  end.

Definition position_map_of (a_len : nat) (cs : list Change) : option (list nat * list bool) :=
  p ← foldM map_step (mkPos (replicate (a_len + 1) 0) (replicate a_len false) 0 0) cs;
  ar ← set_at (a_to_r p) (a_idx p) (r_idx p);
  Some (ar, present p).
Definition position_map `{Similar} (a r : rstring) : option (list nat * list bool) :=
  position_map_of (length a) (from_chars a r).

(** ** Conflicts *)
Definition footprint (e : LocalEdit) : nat * nat :=
  match e with EDelete st e => (st, e) | EInsert p _ => (p, p) end.
Definition char_slice (a : rstring) (st e : nat) : rstring := take (e - st) (drop st a).

Definition conflict_step (a : rstring) (le : LocalEdit) (cs : list Conflict) (re : LocalEdit) : list Conflict :=
  let '(ls, lend) := footprint le in
  let '(rs, rend) := footprint re in
  if bool_decide (ls < rend) && bool_decide (rs < lend) then
    let st := ls `max` rs in
    let e := lend `min` rend in
    let c := mkConflict st e (char_slice a st e) in
    if bool_decide (c ∈ cs) then cs else cs ++ [c]
  else cs.
Definition conflicts_of_edit (a : rstring) (remote : list LocalEdit) (cs : list Conflict) (le : LocalEdit)
    : list Conflict :=
  if bool_decide ((footprint le).1 = (footprint le).2) then cs
  else foldl (conflict_step a le) cs remote.
Definition detect_conflicts (a : rstring) (local remote : list LocalEdit) : list Conflict :=
  foldl (conflicts_of_edit a remote) [] local.

(** ** The merge

    [chars] and [shift]; [(x as isize + shift) as usize] is negative or too large
    exactly when the following [splice] or [remove] panics. *)
Definition splice (chars : rstring) (pos : Z) (ins : rstring) : option rstring :=
  if decide (0 ≤ pos ≤ Z.of_nat (length chars))%Z
  then Some (take (Z.to_nat pos) chars ++ ins ++ drop (Z.to_nat pos) chars) else None.
Definition remove_at (chars : rstring) (pos : Z) : option rstring :=
  if decide (0 ≤ pos < Z.of_nat (length chars))%Z
  then Some (take (Z.to_nat pos) chars ++ drop (S (Z.to_nat pos)) chars) else None.

Definition delete_char (ar : list nat) (pr : list bool) (st : rstring * Z) (i : nat) : option (rstring * Z) :=
  let '(chars, shift) := st in
  here ← pr !! i;
  if here : bool then
    p ← ar !! i;
    chars' ← remove_at chars (Z.of_nat p + shift);
    Some (chars', shift - 1)%Z
  else Some st.
Definition run_edit (ar : list nat) (pr : list bool) (st : rstring * Z) (e : LocalEdit) : option (rstring * Z) :=
  match e with
  | EInsert a_pos s =>
      let '(chars, shift) := st in
      p ← ar !! a_pos;
      chars' ← splice chars (Z.of_nat p + shift) s;
      Some (chars', shift + Z.of_nat (length s))%Z
  | EDelete start e => foldM (delete_char ar pr) st (seq start (e - start))
  end.

Definition merge_local_onto_remote `{Similar} (a l r : rstring) : option (rstring * list Conflict) :=
  let le := local_edits a l in
  let re := local_edits a r in
  let conflicts := detect_conflicts a le re in
  '(ar, pr) ← position_map a r;
  st ← foldM (run_edit ar pr) (r, 0%Z) le;
  Some (st.1, conflicts).

(** ** The reference merge *)
Abbreviation atom := (ChangeTag * rchar)%type.
Definition atoms (cs : list Change) : list atom := cs ≫= λ c, pair (tag c) <$> value c.

Definition kept (tl tr : ChangeTag) (c : rchar) : rstring :=
  match tl, tr with Equal, Equal => [c] | _, _ => [] end.

Fixpoint weave (dl : list atom) : list atom → rstring :=
  fix go (dr : list atom) : rstring :=
    match dr with
    | (Insert, c) :: dr' => c :: go dr'
    | _ =>
        match dl with
        | (Insert, c) :: dl' => c :: weave dl' dr
        | (tl, c) :: dl' =>
            match dr with
            | (tr, _) :: dr' => kept tl tr c ++ weave dl' dr'
            | [] => []
            end
        | [] => []
        end
    end.

(** ** Scripts of single characters *)
Definition anc1 (x : atom) : rstring := match x.1 with Insert => [] | _ => [x.2] end.
Definition res1 (x : atom) : rstring := match x.1 with Delete => [] | _ => [x.2] end.
Definition anc (d : list atom) : rstring := d ≫= anc1.
Definition res (d : list atom) : rstring := d ≫= res1.

Lemma anc_app d e : anc (d ++ e) = anc d ++ anc e.
Proof. apply bind_app. Qed.
Lemma res_app d e : res (d ++ e) = res d ++ res e.
Proof. apply bind_app. Qed.
Lemma atoms_cons c cs : atoms (c :: cs) = (pair (tag c) <$> value c) ++ atoms cs.
Proof. done. Qed.

Lemma anc_run t v : anc (pair t <$> v) = match t with Insert => [] | _ => v end.
Proof. destruct t; (induction v as [|x v IH]; [done|]); csimpl; unfold anc in *; simpl; by rewrite IH. Qed.
Lemma res_run t v : res (pair t <$> v) = match t with Delete => [] | _ => v end.
Proof. destruct t; (induction v as [|x v IH]; [done|]); csimpl; unfold res in *; simpl; by rewrite IH. Qed.

Lemma anc_atoms cs : anc (atoms cs) = old_of cs.
Proof.
  induction cs as [|c cs IH]; [done|]. rewrite atoms_cons, anc_app, IH, anc_run, old_of_cons.
  unfold old_part. by destruct (tag c).
Qed.
Lemma res_atoms cs : res (atoms cs) = new_of cs.
Proof.
  induction cs as [|c cs IH]; [done|]. rewrite atoms_cons, res_app, IH, res_run, new_of_cons.
  unfold new_part. by destruct (tag c).
Qed.

Lemma foldM_app {A B} (f : A → B → option A) a l k : foldM f a (l ++ k) = foldM f a l ≫= λ a', foldM f a' k.
Proof. revert a. induction l as [|x l IH]; intros a; simpl; [done|]. destruct (f a x); simpl; auto. Qed.

(** ** The position map, computed *)
Definition map_atom (p : PosState) (x : atom) : option PosState :=
  match x.1 with
  | Equal => map_equal p
  | Delete => map_delete p
  | Insert => Some (mkPos (a_to_r p) (present p) (a_idx p) (S (r_idx p)))
  end.

Lemma map_step_atoms p c : map_step p c = foldM map_atom p (pair (tag c) <$> value c).
Proof.
  destruct c as [t v]. unfold map_step. simpl. destruct t.
  - revert p. induction v as [|x v IH]; intros p; csimpl; [done|].
    change (map_atom p (Equal, x)) with (map_equal p). by destruct (map_equal p); simpl.
  - revert p. induction v as [|x v IH]; intros p; csimpl; [done|].
    change (map_atom p (Delete, x)) with (map_delete p). by destruct (map_delete p); simpl.
  - revert p. induction v as [|x v IH]; intros p; csimpl.
    + rewrite Nat.add_0_r. by destruct p.
    + rewrite <-IH. simpl. by rewrite Nat.add_succ_r.
Qed.

Lemma map_steps_atoms p cs : foldM map_step p cs = foldM map_atom p (atoms cs).
Proof.
  revert p. induction cs as [|c cs IH]; intros p; [done|].
  rewrite atoms_cons, foldM_app. simpl. rewrite map_step_atoms.
  destruct (foldM map_atom p _); simpl; auto.
Qed.

(** The offsets and flags as functions of the script. *)
Fixpoint starts (d : list atom) (r : nat) : list nat :=
  match d with
  | [] => [r]
  | (Insert, _) :: d => starts d (S r)
  | (Equal, _) :: d => r :: starts d (S r)
  | (Delete, _) :: d => r :: starts d r
  end.
Fixpoint flags (d : list atom) : list bool :=
  match d with
  | [] => []
  | (Insert, _) :: d => flags d
  | (t, _) :: d => bool_decide (t = Equal) :: flags d
  end.

Lemma set_at_app {A} (l k : list A) x y : set_at (l ++ x :: k) (length l) y = Some (l ++ y :: k).
Proof.
  unfold set_at. rewrite decide_True by (rewrite length_app; simpl; lia).
  by rewrite insert_app_r_alt, Nat.sub_diag by lia.
Qed.

Lemma map_atoms_spec d xs ys r :
  length xs = length ys →
  (p ← foldM map_atom (mkPos (xs ++ replicate (S (length (anc d))) 0)
                             (ys ++ replicate (length (anc d)) false) (length xs) r) d;
   ar ← set_at (a_to_r p) (a_idx p) (r_idx p);
   Some (ar, present p)) = Some (xs ++ starts d r, ys ++ flags d).
Proof.
  revert xs ys r. induction d as [|[t c] d IH]; intros xs ys r Hl.
  - simpl. rewrite set_at_app. simpl. done.
  - destruct t; cbn [foldM map_atom fst starts flags].
    + unfold map_equal. cbn [a_to_r present a_idx r_idx].
      change (anc ((Equal, c) :: d)) with (c :: anc d). cbn [length replicate].
      rewrite set_at_app. cbn [mbind option_bind]. rewrite Hl, set_at_app. cbn [mbind option_bind].
      assert (length (xs ++ [r]) = length (ys ++ [true])) as Hl' by (rewrite !length_app; simpl; lia).
      pose proof (IH _ _ (S r) Hl') as IH'. rewrite length_app, Nat.add_1_r, <-!(assoc_L app), Hl in IH'. exact IH'.
    + unfold map_delete. cbn [a_to_r present a_idx r_idx].
      change (anc ((Delete, c) :: d)) with (c :: anc d). cbn [length replicate].
      rewrite set_at_app. cbn [mbind option_bind]. rewrite Hl, set_at_app. cbn [mbind option_bind].
      assert (length (xs ++ [r]) = length (ys ++ [false])) as Hl' by (rewrite !length_app; simpl; lia).
      pose proof (IH _ _ r Hl') as IH'. rewrite length_app, Nat.add_1_r, <-!(assoc_L app), Hl in IH'. exact IH'.
    + apply (IH xs ys (S r) Hl).
Qed.

Lemma position_map_spec cs :
  position_map_of (length (old_of cs)) cs = Some (starts (atoms cs) 0, flags (atoms cs)).
Proof.
  unfold position_map_of. rewrite map_steps_atoms.
  pose proof (map_atoms_spec (atoms cs) [] [] 0 eq_refl) as Hm. rewrite anc_atoms in Hm.
  by rewrite Nat.add_1_r.
Qed.

Definition no_insert_head (d : list atom) : Prop := match d with (Insert, _) :: _ => False | _ => True end.

Lemma starts_lookup p q r :
  no_insert_head q → starts (p ++ q) r !! length (anc p) = Some (r + length (res p)).
Proof.
  intros Hq. revert r. induction p as [|[t c] p IH]; intros r.
  - simpl. rewrite Nat.add_0_r. by destruct q as [|[[] ?] q].
  - destruct t; simpl; rewrite ?IH; f_equal; lia.
Qed.
Lemma flags_lookup p t c q :
  t ≠ Insert → flags (p ++ (t, c) :: q) !! length (anc p) = Some (bool_decide (t = Equal)).
Proof. intros Ht. induction p as [|[t' c'] p IH]; [by destruct t|]. by destruct t'. Qed.

(** ** Coalescing does not change what the edits do *)
Fixpoint plain_edits (i : nat) (cs : list Change) : list LocalEdit :=
  match cs with
  | [] => []
  | c :: cs =>
      let n := length (value c) in
      match tag c with
      | Equal => plain_edits (i + n) cs
      | Delete => EDelete i (i + n) :: plain_edits (i + n) cs
      | Insert => EInsert i (value c) :: plain_edits i cs
      end
  end.

Definition edit_ok (e : LocalEdit) : Prop := (footprint e).1 ≤ (footprint e).2.

Section run.
Context (ar : list nat) (pr : list bool).
Abbreviation run := (foldM (run_edit ar pr)).

Lemma run_delete_split st s m e :
  s ≤ m ≤ e → run st [EDelete s m; EDelete m e] = run st [EDelete s e].
Proof.
  intros Hse. simpl. replace (e - s) with ((m - s) + (e - m)) by lia.
  rewrite seq_app, foldM_app. replace (s + (m - s)) with m by lia.
  destruct (foldM (delete_char ar pr) st (seq s (m - s))); simpl; [|done]. done.
Qed.

Lemma splice_splice chars pos s t :
  (chars' ← splice chars pos s; splice chars' (pos + Z.of_nat (length s)) t) = splice chars pos (s ++ t).
Proof.
  unfold splice. case_decide as Hp; simpl; [|done].
  rewrite decide_True by (rewrite !length_app, length_take, length_drop; lia).
  assert (length (take (Z.to_nat pos) chars ++ s) = Z.to_nat (pos + Z.of_nat (length s))) as Hl
    by (rewrite length_app, length_take; lia).
  rewrite !(assoc_L app). f_equal. rewrite <-!(assoc_L app), (assoc_L app _ s).
  by rewrite <-Hl, take_app_length, drop_app_length, <-!(assoc_L app).
Qed.

Lemma run_insert_split st p s t : run st [EInsert p s; EInsert p t] = run st [EInsert p (s ++ t)].
Proof.
  destruct st as [chars shift]. simpl. destruct (ar !! p) as [n|]; simpl; [|done].
  rewrite <-splice_splice. destruct (splice chars _ s) as [chars'|]; simpl; [|done].
  rewrite Z.add_assoc. destruct (splice chars' _ t); simpl; [|done].
  by rewrite length_app, Nat2Z.inj_add, Z.add_assoc.
Qed.

Lemma run_push_delete st edits i n :
  Forall edit_ok edits → run st (push_delete edits i n) = run st (edits ++ [EDelete i (i + n)]).
Proof.
  intros Hok. unfold push_delete. destruct (last edits) as [[p s|s e]|] eqn:Hl; try done.
  case_decide as He; [|done]. subst e. apply last_Some in Hl as [es ->].
  apply Forall_app in Hok as [_ Hok]. rewrite Forall_singleton in Hok. unfold edit_ok in Hok. simpl in Hok.
  rewrite removelast_last, <-(assoc_L app). simpl app at 3. rewrite !(foldM_app _ _ es).
  destruct (foldM (run_edit ar pr) st es) as [st'|]; [|done]. cbn [mbind option_bind].
  rewrite run_delete_split by lia. done.
Qed.
Lemma run_push_insert st edits i v : run st (push_insert edits i v) = run st (edits ++ [EInsert i v]).
Proof.
  unfold push_insert. destruct (last edits) as [[p s|s e]|] eqn:Hl; try done.
  case_decide as He; [|done]. subst p. apply last_Some in Hl as [es ->].
  rewrite removelast_last, <-(assoc_L app). simpl app at 3. rewrite !(foldM_app _ _ es).
  destruct (foldM (run_edit ar pr) st es) as [st'|]; [|done]. cbn [mbind option_bind].
  by rewrite run_insert_split.
Qed.

Lemma push_delete_ok edits i n : Forall edit_ok edits → Forall edit_ok (push_delete edits i n).
Proof.
  intros Hok. unfold push_delete.
  assert (Forall edit_ok (edits ++ [EDelete i (i + n)])) as Hd
    by (apply Forall_app; split; [done|]; apply Forall_singleton; unfold edit_ok; simpl; lia).
  destruct (last edits) as [[p s|s e]|] eqn:Hl; try done.
  case_decide as He; [|done]. subst e. apply last_Some in Hl as [es ->]. rewrite removelast_last.
  apply Forall_app in Hok as [Hes Hok]. rewrite Forall_singleton in Hok. unfold edit_ok in Hok. simpl in Hok.
  apply Forall_app; split; [done|]. apply Forall_singleton. unfold edit_ok. simpl. lia.
Qed.
Lemma push_insert_ok edits i v : Forall edit_ok edits → Forall edit_ok (push_insert edits i v).
Proof.
  intros Hok. unfold push_insert.
  assert (∀ p s, edit_ok (EInsert p s)) as Hi by (intros; unfold edit_ok; simpl; lia).
  destruct (last edits) as [[p s|s e]|] eqn:Hl; try (by apply Forall_app; auto).
  case_decide as He; [|by apply Forall_app; auto]. apply last_Some in Hl as [es ->]. rewrite removelast_last.
  apply Forall_app in Hok as [Hes _]. by apply Forall_app; auto.
Qed.

Lemma run_local_edits st edits i cs :
  Forall edit_ok edits →
  run st (foldl edits_step (edits, i) cs).1 = run st (edits ++ plain_edits i cs).
Proof.
  revert edits i. induction cs as [|c cs IH]; intros edits i Hok; simpl; [by rewrite app_nil_r|].
  destruct (tag c); rewrite IH by auto using push_delete_ok, push_insert_ok.
  - done.
  - by rewrite foldM_app, run_push_delete, <-foldM_app, <-(assoc_L app).
  - by rewrite foldM_app, run_push_insert, <-foldM_app, <-(assoc_L app).
Qed.
End run.

(** ** The merge computes [weave] *)
Lemma weave_remote dl ins dr : weave dl ((pair Insert <$> ins) ++ dr) = ins ++ weave dl dr.
Proof. induction ins as [|c ins IH]; [done|]. destruct dl as [|[[] ?] dl]; simpl; f_equal; apply IH. Qed.
Lemma weave_local dl c dr : no_insert_head dr → weave ((Insert, c) :: dl) dr = c :: weave dl dr.
Proof. by destruct dr as [|[[] ?] dr]. Qed.
Lemma weave_ancestor tl tr c c' dl dr :
  tl ≠ Insert → tr ≠ Insert → weave ((tl, c) :: dl) ((tr, c') :: dr) = kept tl tr c ++ weave dl dr.
Proof. by destruct tl, tr. Qed.

(** Every script is its leading insertions and a rest that starts at a character. *)
Lemma leading_inserts (d : list atom) : ∃ ins q, d = (pair Insert <$> ins) ++ q ∧ no_insert_head q.
Proof.
  induction d as [|[t c] d (ins&q&->&Hq)]; [by exists [], []|].
  destruct t; [by exists [], ((Equal, c) :: (pair Insert <$> ins) ++ q)
              |by exists [], ((Delete, c) :: (pair Insert <$> ins) ++ q)|by exists (c :: ins), q].
Qed.

Lemma res_block t x ins q : res ((t, x) :: (pair Insert <$> ins) ++ q) = res1 (t, x) ++ ins ++ res q.
Proof.
  change (res ((t, x) :: (pair Insert <$> ins) ++ q)) with (res1 (t, x) ++ res ((pair Insert <$> ins) ++ q)).
  by rewrite res_app, res_run.
Qed.
Lemma res_past p t x ins : res (p ++ (t, x) :: (pair Insert <$> ins)) = res p ++ res1 (t, x) ++ ins.
Proof.
  rewrite res_app. f_equal. pose proof (res_block t x ins []) as Hr.
  by rewrite !app_nil_r in Hr.
Qed.
Lemma anc_past p t x ins :
  t ≠ Insert → length (anc (p ++ (t, x) :: (pair Insert <$> ins))) = S (length (anc p)).
Proof.
  intros Ht. rewrite anc_app.
  change (anc ((t, x) :: (pair Insert <$> ins))) with (anc1 (t, x) ++ anc (pair Insert <$> ins)).
  rewrite anc_run, app_nil_r, length_app. destruct t; simpl; done || lia.
Qed.

Section merge.
Context (dr : list atom).

(** The local cursor stands at ancestor offset [i], before the script [q]; the text
    is [done] followed by what [q] produces, and the shift is what the local edits
    have added so far. *)
Definition merge_at (i : nat) (st : rstring * Z) (q : list atom) (done : rstring) : Prop :=
  ∃ p, dr = p ++ q ∧ no_insert_head q ∧ i = length (anc p) ∧
    st = (done ++ res q, Z.of_nat (length done) - Z.of_nat (length (res p)))%Z.

(** Past one ancestor character: the flag and text of the remote side there. *)
Lemma merge_at_next i chars shift q done x rest :
  merge_at i (chars, shift) q done → anc q = x :: rest →
  ∃ t ins q', q = (t, x) :: (pair Insert <$> ins) ++ q' ∧ t ≠ Insert ∧ no_insert_head q' ∧ anc q' = rest ∧
    (∀ tl dl, tl ≠ Insert → weave ((tl, x) :: dl) q = kept tl t x ++ ins ++ weave dl q').
Proof.
  intros (p&Hp&Hq&Hi&Hst) Ha. destruct q as [|[t c] q]; [done|].
  assert (t ≠ Insert) by (by destruct t). destruct (leading_inserts q) as (ins&q'&->&Hq').
  assert (anc ((t, c) :: (pair Insert <$> ins) ++ q') = c :: anc q') as Ha'.
  { change (anc ((t, c) :: (pair Insert <$> ins) ++ q')) with (anc1 (t, c) ++ anc ((pair Insert <$> ins) ++ q')).
    rewrite anc_app, anc_run. by destruct t. }
  rewrite Ha' in Ha. simplify_eq. exists t, ins, q'. split_and!; try done.
  intros tl dl Htl. by rewrite weave_ancestor, weave_remote.
Qed.

Lemma merge_at_equal i st q done x rest :
  merge_at i st q done → anc q = x :: rest →
  ∃ q' done', merge_at (S i) st q' done' ∧ anc q' = rest ∧
    ∀ dl, done ++ weave ((Equal, x) :: dl) q = done' ++ weave dl q'.
Proof.
  destruct st as [chars shift]. intros Hm Ha.
  destruct (merge_at_next _ _ _ _ _ _ _ Hm Ha) as (t&ins&q'&->&Ht&Hq'&Haq&Hw).
  destruct Hm as (p&->&Hq&->&[-> ->]%pair_equal_spec).
  exists q', (done ++ kept Equal t x ++ ins). split_and!; [|done|].
  - exists (p ++ (t, x) :: (pair Insert <$> ins)).
    split_and!; [by rewrite <-(assoc_L app)|done|by rewrite anc_past|].
    rewrite res_past, res_block. f_equal.
    + by destruct t; simpl; rewrite <-!(assoc_L app).
    + rewrite !length_app. destruct t; simpl; done || lia.
  - intros dl. by rewrite Hw, <-!(assoc_L app).
Qed.

Lemma merge_at_delete i st q done x rest :
  merge_at i st q done → anc q = x :: rest →
  ∃ st' q' done', delete_char (starts dr 0) (flags dr) st i = Some st' ∧
    merge_at (S i) st' q' done' ∧ anc q' = rest ∧
    ∀ dl, done ++ weave ((Delete, x) :: dl) q = done' ++ weave dl q'.
Proof.
  destruct st as [chars shift]. intros Hm Ha.
  destruct (merge_at_next _ _ _ _ _ _ _ Hm Ha) as (t&ins&q'&->&Ht&Hq'&Haq&Hw).
  destruct Hm as (p&->&Hq&->&[-> ->]%pair_equal_spec).
  exists (done ++ ins ++ res q', Z.of_nat (length done) + Z.of_nat (length ins) -
            Z.of_nat (length (res (p ++ (t, x) :: (pair Insert <$> ins)))))%Z, q', (done ++ ins).
  split_and!; [| |done|].
  - unfold delete_char. rewrite flags_lookup by done. cbn [mbind option_bind].
    rewrite res_block, res_past. destruct t; try done; simpl.
    + rewrite starts_lookup by done. simpl. unfold remove_at.
      rewrite decide_True by (rewrite !length_app; simpl; lia). simpl.
      replace (Z.to_nat _) with (length done) by lia.
      rewrite take_app_length, drop_app_ge by lia. replace (S (length done) - length done) with 1 by lia.
      simpl. do 2 f_equal. rewrite !length_app. simpl. lia.
    + do 2 f_equal. rewrite length_app. lia.
  - exists (p ++ (t, x) :: (pair Insert <$> ins)).
    split_and!; [by rewrite <-(assoc_L app)|done|by rewrite anc_past|].
    by rewrite <-(assoc_L app), length_app, Nat2Z.inj_add.
  - intros dl. rewrite Hw by done. by destruct t; simpl; rewrite <-(assoc_L app).
Qed.

Lemma merge_at_insert i st q done v :
  merge_at i st q done →
  ∃ st', run_edit (starts dr 0) (flags dr) st (EInsert i v) = Some st' ∧ merge_at i st' q (done ++ v) ∧
    ∀ dl, done ++ weave ((pair Insert <$> v) ++ dl) q = (done ++ v) ++ weave dl q.
Proof.
  intros (p&->&Hq&->&->). eexists. split_and!.
  - simpl. rewrite starts_lookup by done. simpl. unfold splice.
    rewrite decide_True by (rewrite length_app; lia). simpl. replace (Z.to_nat _) with (length done) by lia.
    by rewrite take_app_length, drop_app_length.
  - exists p. split_and!; try done. rewrite <-(assoc_L app), length_app. f_equal. lia.
  - intros dl. rewrite <-(assoc_L app). f_equal.
    induction v as [|y v IH]; [done|].
    change ((pair Insert <$> y :: v) ++ dl) with ((Insert, y) :: (pair Insert <$> v) ++ dl).
    rewrite weave_local by done. by rewrite IH.
Qed.

Lemma merge_at_equals v i st q done rest :
  merge_at i st q done → anc q = v ++ rest →
  ∃ q' done', merge_at (i + length v) st q' done' ∧ anc q' = rest ∧
    ∀ dl, done ++ weave ((pair Equal <$> v) ++ dl) q = done' ++ weave dl q'.
Proof.
  revert i q done. induction v as [|x v IH]; intros i q done Hm Ha.
  { rewrite Nat.add_0_r. by exists q, done. }
  destruct (merge_at_equal _ _ _ _ _ _ Hm Ha) as (q1&done1&Hm1&Ha1&Hw1).
  destruct (IH _ _ _ Hm1 Ha1) as (q2&done2&Hm2&Ha2&Hw2). exists q2, done2. split_and!; [|done|].
  - simpl. by rewrite Nat.add_succ_r.
  - intros dl. rewrite <-Hw2. apply Hw1.
Qed.

Lemma merge_at_deletes v i st q done rest :
  merge_at i st q done → anc q = v ++ rest →
  ∃ st' q' done', foldM (delete_char (starts dr 0) (flags dr)) st (seq i (length v)) = Some st' ∧
    merge_at (i + length v) st' q' done' ∧ anc q' = rest ∧
    ∀ dl, done ++ weave ((pair Delete <$> v) ++ dl) q = done' ++ weave dl q'.
Proof.
  revert i st q done. induction v as [|x v IH]; intros i st q done Hm Ha.
  { rewrite Nat.add_0_r. by exists st, q, done. }
  destruct (merge_at_delete _ _ _ _ _ _ Hm Ha) as (st1&q1&done1&Hd1&Hm1&Ha1&Hw1).
  destruct (IH _ _ _ _ Hm1 Ha1) as (st2&q2&done2&Hd2&Hm2&Ha2&Hw2). exists st2, q2, done2. split_and!; [| |done|].
  - simpl. by rewrite Hd1.
  - simpl. by rewrite Nat.add_succ_r.
  - intros dl. rewrite <-Hw2. apply Hw1.
Qed.

Lemma run_plain_edits cs i st q done :
  merge_at i st q done → anc q = old_of cs →
  ∃ shift, foldM (run_edit (starts dr 0) (flags dr)) st (plain_edits i cs) =
           Some (done ++ weave (atoms cs) q, shift).
Proof.
  revert i st q done. induction cs as [|[t v] cs IH]; intros i st q done Hm Ha.
  { destruct Hm as (p&_&Hq&_&->). destruct q as [|[[] c] q]; try done. simpl. by eexists. }
  rewrite old_of_cons in Ha. rewrite atoms_cons. unfold old_part in Ha.
  destruct t; cbn [tag value plain_edits] in Ha |- *.
  - destruct (merge_at_equals _ _ _ _ _ _ Hm Ha) as (q1&done1&Hm1&Ha1&->). eauto.
  - destruct (merge_at_deletes _ _ _ _ _ _ Hm Ha) as (st1&q1&done1&Hd1&Hm1&Ha1&->).
    simpl foldM. replace (i + length v - i) with (length v) by lia. rewrite Hd1. simpl. eauto.
  - destruct (merge_at_insert _ _ _ _ v Hm) as (st1&Hd1&Hm1&->).
    cbn [foldM]. rewrite Hd1. simpl. eauto.
Qed.
End merge.

(** What the merge returns on any pair of scripts from one ancestor. *)
Lemma run_edits_weave cl cr :
  old_of cl = old_of cr →
  ∃ shift, foldM (run_edit (starts (atoms cr) 0) (flags (atoms cr))) (new_of cr, 0%Z) (local_edits_of cl) =
           Some (weave (atoms cl) (atoms cr), shift).
Proof.
  intros Ho. unfold local_edits_of. rewrite run_local_edits by done. rewrite app_nil_l.
  destruct (leading_inserts (atoms cr)) as (ins&q&Hd&Hq).
  assert (res (atoms cr) = ins ++ res q) as Hr by (by rewrite Hd, res_app, res_run).
  assert (anc (atoms cr) = anc q) as Ha by (by rewrite Hd, anc_app, anc_run).
  assert (weave (atoms cl) (atoms cr) = ins ++ weave (atoms cl) q) as -> by (by rewrite Hd, weave_remote).
  apply run_plain_edits.
  - exists (pair Insert <$> ins). rewrite anc_run, res_run, <-res_atoms, Hr. split_and!; try done.
    f_equal. lia.
  - by rewrite <-Ha, anc_atoms.
Qed.

(** ** Where every character of the merge comes from *)
Inductive Side := Remote | Local | Ancestor.
#[global] Instance Side_eq_dec : EqDecision Side.
Proof. solve_decision. Defined.
Definition from_side (s : Side) (m : list (Side * rchar)) : rstring := (filter (λ x, x.1 = s) m).*2.
Definition inserted (d : list atom) : rstring := (filter (λ x, x.1 = Insert) d).*2.
(** The characters of an ancestor both scripts keep. *)
Fixpoint survivors (a : rstring) (fl fr : list bool) : rstring :=
  match a, fl, fr with
  | c :: a, l :: fl, r :: fr => (if l && r then [c] else []) ++ survivors a fl fr
  | _, _, _ => []
  end.

Lemma weave_sides dl dr :
  anc dl = anc dr →
  ∃ m, m.*2 = weave dl dr ∧ from_side Remote m = inserted dr ∧ from_side Local m = inserted dl ∧
    from_side Ancestor m = survivors (anc dl) (flags dl) (flags dr).
Proof.
  revert dr. induction dl as [|[tl c] dl IHl]; intros dr; induction dr as [|[tr c'] dr IHr]; intros Ha.
  - by exists [].
  - destruct tr; try done. destruct (IHr Ha) as (m&Hm&Hr&Hl&Hk).
    exists ((Remote, c') :: m). split_and!; [by f_equal/=|unfold inserted, from_side in *; by f_equal/=|done|done].
  - destruct tl; try done. destruct (IHl [] Ha) as (m&Hm&Hr&Hl&Hk).
    exists ((Local, c) :: m). split_and!; [by f_equal/=|done|unfold inserted, from_side in *; by f_equal/=|done].
  - destruct (decide (tr = Insert)) as [->|Htr].
    { destruct (IHr Ha) as (m&Hm&Hr&Hl&Hk). exists ((Remote, c') :: m).
      split_and!; [|unfold inserted, from_side in *; by f_equal/=|done|done].
      destruct tl; by f_equal/=. }
    destruct (decide (tl = Insert)) as [->|Htl].
    { destruct (IHl ((tr, c') :: dr) Ha) as (m&Hm&Hr&Hl&Hk). exists ((Local, c) :: m).
      split_and!; [|done|unfold inserted, from_side in *; by f_equal/=|done].
      rewrite weave_local by (by destruct tr). by f_equal/=. }
    assert (c = c' ∧ anc dl = anc dr) as [<- Ha'] by (destruct tl, tr; try done; by injection Ha).
    destruct (IHl dr Ha') as (m&Hm&Hr&Hl&Hk). rewrite weave_ancestor by done.
    exists ((pair Ancestor <$> kept tl tr c) ++ m).
    split_and!; [rewrite fmap_app, Hm; by destruct tl, tr|by destruct tl, tr|by destruct tl, tr|].
    destruct tl, tr; try done; simpl; unfold from_side in *; by f_equal/=.
Qed.

(** ** Which ancestor characters a side deletes *)
Definition deletes (es : list LocalEdit) (k : nat) : Prop :=
  ∃ s e, EDelete s e ∈ es ∧ s ≤ k < e.

Lemma deletes_app es fs k : deletes (es ++ fs) k ↔ deletes es k ∨ deletes fs k.
Proof. unfold deletes. setoid_rewrite elem_of_app. naive_solver. Qed.
Lemma deletes_one s e k : deletes [EDelete s e] k ↔ s ≤ k < e.
Proof. unfold deletes. setoid_rewrite list_elem_of_singleton. naive_solver. Qed.
Lemma deletes_insert p v k : ¬ deletes [EInsert p v] k.
Proof. intros (s&e&[=]%list_elem_of_singleton&_). Qed.

Lemma deletes_push_delete es i n k :
  Forall edit_ok es → deletes (push_delete es i n) k ↔ deletes es k ∨ i ≤ k < i + n.
Proof.
  intros Hok. unfold push_delete.
  assert (deletes (es ++ [EDelete i (i + n)]) k ↔ deletes es k ∨ i ≤ k < i + n) as Hd
    by (by rewrite deletes_app, deletes_one).
  destruct (last es) as [[p s|s e]|] eqn:Hl; try done. case_decide as He; [|done].
  subst e. apply last_Some in Hl as [fs ->]. apply Forall_app in Hok as [_ Hok].
  rewrite Forall_singleton in Hok. unfold edit_ok in Hok. simpl in Hok.
  rewrite removelast_last, !deletes_app, !deletes_one. intuition lia.
Qed.
Lemma deletes_push_insert es i v k : deletes (push_insert es i v) k ↔ deletes es k.
Proof.
  unfold push_insert. pose proof (deletes_insert i) as Hi.
  assert (deletes (es ++ [EInsert i v]) k ↔ deletes es k) as Hd by (rewrite deletes_app; naive_solver).
  destruct (last es) as [[p s|s e]|] eqn:Hl; try done. case_decide as He; [|done].
  subst p. apply last_Some in Hl as [fs ->]. rewrite removelast_last, !deletes_app. naive_solver.
Qed.

Lemma flags_app d e : flags (d ++ e) = flags d ++ flags e.
Proof. induction d as [|[[] c] d IH]; simpl; by rewrite ?IH. Qed.
Lemma flags_run t v :
  flags (pair t <$> v) = match t with Insert => [] | _ => replicate (length v) (bool_decide (t = Equal)) end.
Proof. by destruct t; (induction v as [|x v IH]; [done|]); csimpl; rewrite IH. Qed.

Lemma lookup_run b n i k (f : list bool) :
  (i ≤ k ∧ (replicate n b ++ f) !! (k - i) = Some false) ↔
  (b = false ∧ i ≤ k < i + n) ∨ (i + n ≤ k ∧ f !! (k - (i + n)) = Some false).
Proof.
  destruct (decide (i ≤ k < i + n)) as [Hk|Hk].
  - rewrite lookup_app_l by (rewrite length_replicate; lia). rewrite lookup_replicate_2 by lia.
    naive_solver lia.
  - destruct (decide (i + n ≤ k)).
    + rewrite lookup_app_r by (rewrite length_replicate; lia). rewrite length_replicate.
      replace (k - i - n) with (k - (i + n)) by lia. naive_solver lia.
    + naive_solver lia.
Qed.

(** The deletions cover exactly the characters the script drops. *)
Lemma deletes_edits es i cs k :
  Forall edit_ok es →
  deletes (foldl edits_step (es, i) cs).1 k ↔
  deletes es k ∨ (i ≤ k ∧ flags (atoms cs) !! (k - i) = Some false).
Proof.
  revert es i. induction cs as [|[t v] cs IH]; intros es i Hok.
  { simpl. naive_solver. }
  rewrite atoms_cons, flags_app, flags_run. cbn [foldl edits_step tag value].
  destruct t; rewrite IH by auto using push_delete_ok, push_insert_ok.
  - rewrite lookup_run. simpl. naive_solver.
  - rewrite lookup_run, deletes_push_delete by done. simpl. naive_solver.
  - by rewrite deletes_push_insert.
Qed.
Lemma deletes_local_edits cs k : deletes (local_edits_of cs) k ↔ flags (atoms cs) !! k = Some false.
Proof.
  unfold local_edits_of. rewrite deletes_edits by done. rewrite Nat.sub_0_r.
  split; [intros [(?&?&?%not_elem_of_nil&_)|[_ ?]]; done|intros; right; split; [lia|done]].
Qed.
Lemma local_edits_ok es i cs : Forall edit_ok es → Forall edit_ok (foldl edits_step (es, i) cs).1.
Proof.
  revert es i. induction cs as [|[t v] cs IH]; intros es i Hok; [done|].
  destruct t; cbn [foldl edits_step tag value]; auto using push_delete_ok, push_insert_ok.
Qed.

(** ** What is reported *)
Definition overlap (a : rstring) (le re : LocalEdit) : option Conflict :=
  let '(ls, lend) := footprint le in
  let '(rs, rend) := footprint re in
  if bool_decide (ls ≠ lend) && (bool_decide (ls < rend) && bool_decide (rs < lend))
  then Some (mkConflict (ls `max` rs) (lend `min` rend) (char_slice a (ls `max` rs) (lend `min` rend)))
  else None.

Lemma elem_of_conflict_step a le cs re c :
  (footprint le).1 ≠ (footprint le).2 →
  c ∈ conflict_step a le cs re ↔ c ∈ cs ∨ overlap a le re = Some c.
Proof.
  intros Hne. unfold conflict_step, overlap. destruct (footprint le) as [ls lend], (footprint re) as [rs rend].
  simpl in Hne. rewrite (bool_decide_eq_true_2 (ls ≠ lend)) by done. simpl.
  destruct (bool_decide (ls < rend) && bool_decide (rs < lend)); [|naive_solver].
  case_bool_decide as Hc; [|rewrite elem_of_app, list_elem_of_singleton]; naive_solver.
Qed.

Lemma elem_of_conflicts_of_edit a remote cs le c :
  c ∈ conflicts_of_edit a remote cs le ↔ c ∈ cs ∨ ∃ re, re ∈ remote ∧ overlap a le re = Some c.
Proof.
  unfold conflicts_of_edit. case_bool_decide as Hw.
  - split; [auto|]. intros [?|(re&_&Ho)]; [done|]. unfold overlap in Ho.
    destruct (footprint le) as [ls lend], (footprint re) as [rs rend]. simpl in Hw.
    rewrite bool_decide_eq_false_2 in Ho by naive_solver. done.
  - revert cs. induction remote as [|re remote IH]; intros cs; simpl; [set_solver|].
    rewrite IH, elem_of_conflict_step by done. setoid_rewrite elem_of_cons. naive_solver.
Qed.

Lemma elem_of_detect_conflicts a local remote c :
  c ∈ detect_conflicts a local remote ↔
  ∃ le re, le ∈ local ∧ re ∈ remote ∧ overlap a le re = Some c.
Proof.
  unfold detect_conflicts.
  assert (∀ cs, c ∈ foldl (conflicts_of_edit a remote) cs local ↔
    c ∈ cs ∨ ∃ le re, le ∈ local ∧ re ∈ remote ∧ overlap a le re = Some c) as Hg; [|rewrite Hg; set_solver].
  induction local as [|le local IH]; intros cs; simpl; [set_solver|].
  rewrite IH, elem_of_conflicts_of_edit. setoid_rewrite elem_of_cons. naive_solver.
Qed.

Lemma overlap_covers a le re k :
  (∃ c, overlap a le re = Some c ∧ ancestor_start c ≤ k < ancestor_end c) ↔
  (footprint le).1 ≤ k < (footprint le).2 ∧ (footprint re).1 ≤ k < (footprint re).2.
Proof.
  unfold overlap. destruct (footprint le) as [ls lend], (footprint re) as [rs rend]. simpl.
  split.
  - intros (c&Ho&Hk). destruct (_ && _) eqn:Hb; [|done]. simplify_eq/=. lia.
  - intros Hk. rewrite !bool_decide_eq_true_2 by lia. simpl. eexists. split; [done|]. simpl. lia.
Qed.

Lemma deletes_footprint es k :
  deletes es k ↔ ∃ e, e ∈ es ∧ (footprint e).1 ≤ k < (footprint e).2.
Proof.
  split; [by intros (s&e&?&?); eauto|]. intros ([p v|s e]&He&Hk); simpl in Hk; [lia|]. by exists s, e.
Qed.

(** A side that changes nothing leaves the other side's text. *)
Lemma weave_equal_r dl dr :
  Forall (λ x, x.1 = Equal) dr → anc dl = anc dr → weave dl dr = res dl.
Proof.
  intros Hr. revert dr Hr. induction dl as [|[t c] dl IH]; intros dr Hr Ha.
  { destruct Hr as [|[t c] dr Ht Hr]; [done|]. simpl in Ht. by subst t. }
  assert (no_insert_head dr) as Hh by (destruct Hr as [|[t' c'] dr' Ht' _]; [done|]; simpl in *; by subst t').
  destruct (decide (t = Insert)) as [->|Ht].
  { rewrite weave_local by done. unfold res. csimpl. f_equal. by apply IH. }
  destruct Hr as [|[t' c'] dr Ht' Hr]; [by destruct t|]. simpl in Ht'. subst t'.
  rewrite weave_ancestor by done.
  assert (c = c' ∧ anc dl = anc dr) as [<- Ha'] by (destruct t; try done; by injection Ha).
  rewrite (IH dr) by done. by destruct t.
Qed.
Lemma weave_equal_l dl dr :
  Forall (λ x, x.1 = Equal) dl → anc dl = anc dr → weave dl dr = res dr.
Proof.
  intros Hl Ha. revert dl Hl Ha. induction dr as [|[t c] dr IH]; intros dl Hl Ha.
  { destruct Hl as [|[t c] dl Ht Hl]; [done|]. simpl in Ht. by subst t. }
  destruct (decide (t = Insert)) as [->|Ht].
  { change ((Insert, c) :: dr) with ((pair Insert <$> [c]) ++ dr). rewrite weave_remote, res_app, res_run.
    f_equal. by apply IH. }
  destruct Hl as [|[t' c'] dl Ht' Hl]; [by destruct t|]. simpl in Ht'. subst t'.
  rewrite weave_ancestor by done.
  assert (c' = c ∧ anc dl = anc dr) as [-> Ha'] by (destruct t; try done; by injection Ha).
  rewrite (IH dl) by done. by destruct t.
Qed.
Lemma atoms_equal cs : Forall (λ c, tag c = Equal) cs → Forall (λ x : atom, x.1 = Equal) (atoms cs).
Proof.
  induction 1 as [|c cs Hc _ IH]; [constructor|]. rewrite atoms_cons, Forall_app. split; [|done].
  apply Forall_fmap, Forall_true. intros x. simpl. done.
Qed.
Lemma local_edits_equal cs : Forall (λ c, tag c = Equal) cs → local_edits_of cs = [].
Proof.
  intros Hcs. unfold local_edits_of. generalize 0.
  induction Hcs as [|c cs Hc _ IH]; intros i; simpl; [done|]. rewrite Hc. apply IH.
Qed.

Section theorems.
Context `{SimilarLaws}.

Lemma merge_eq a l r :
  merge_local_onto_remote a l r =
    Some (weave (atoms (from_chars a l)) (atoms (from_chars a r)),
          detect_conflicts a (local_edits a l) (local_edits a r)).
Proof.
  unfold merge_local_onto_remote, position_map.
  pose proof (position_map_spec (from_chars a r)) as Hp. rewrite from_chars_old in Hp. rewrite Hp.
  cbn [mbind option_bind].
  destruct (run_edits_weave (from_chars a l) (from_chars a r)) as [shift Hr].
  { by rewrite !from_chars_old. }
  rewrite from_chars_new in Hr. fold (local_edits a l) in Hr. by rewrite Hr.
Qed.

Lemma anc_from_chars a l : anc (atoms (from_chars a l)) = a.
Proof. by rewrite anc_atoms, from_chars_old. Qed.
Lemma from_chars_self a : Forall (λ c, tag c = Equal) (from_chars a a).
Proof. apply Forall_forall. apply from_chars_same. Qed.

(** C5: The in-place merge never indexes outside its vectors and returns the reference
    interleaving of the two diffs: at each ancestor boundary the remote insertions,
    then the local ones, and an ancestor character exactly when both sides keep it. *)
Theorem merge_is_weave a l r :
  merge_local_onto_remote a l r =
    Some (weave (atoms (from_chars a l)) (atoms (from_chars a r)),
          detect_conflicts a (local_edits a l) (local_edits a r)).
Proof. apply merge_eq. Qed.

(** With no remote edit the merge is the local text, with no local edit it is the
    remote text, and neither reports a conflict. *)
Theorem merge_one_sided a l r :
  merge_local_onto_remote a l a = Some (l, []) ∧ merge_local_onto_remote a a r = Some (r, []).
Proof.
  rewrite !merge_eq. unfold local_edits.
  rewrite (local_edits_equal (from_chars a a)) by apply from_chars_self. split; do 2 f_equal.
  - rewrite weave_equal_r; [by rewrite res_atoms, from_chars_new|apply atoms_equal, from_chars_self|].
    by rewrite !anc_from_chars.
  - unfold detect_conflicts. induction (local_edits_of _) as [|e es IH]; [done|]. simpl.
    unfold conflicts_of_edit at 2. by case_bool_decide.
  - rewrite weave_equal_l; [by rewrite res_atoms, from_chars_new|apply atoms_equal, from_chars_self|].
    by rewrite !anc_from_chars.
Qed.

(** The merge loses nothing: every character of the merged text has one source, the
    remote insertions and the local insertions all occur in it, complete and in
    order, and the rest are the ancestor's characters that neither side deleted. *)
Theorem merge_lossless a l r :
  let dl := atoms (from_chars a l) in
  let dr := atoms (from_chars a r) in
  ∃ m cs, merge_local_onto_remote a l r = Some (m.*2, cs) ∧
    from_side Remote m = inserted dr ∧ from_side Local m = inserted dl ∧
    from_side Ancestor m = survivors a (flags dl) (flags dr).
Proof.
  intros dl dr. destruct (weave_sides dl dr) as (m&Hm&Hr&Hl&Hk).
  { unfold dl, dr. by rewrite !anc_from_chars. }
  exists m, (detect_conflicts a (local_edits a l) (local_edits a r)). unfold dl in Hk.
  rewrite anc_from_chars in Hk. rewrite merge_eq, Hm. by split_and!.
Qed.

(** The reported conflicts cover exactly the ancestor characters that both sides
    deleted, each with the ancestor text of its range. *)
Theorem conflicts_exact a l r m cs :
  merge_local_onto_remote a l r = Some (m, cs) →
  (∀ k, (∃ c, c ∈ cs ∧ ancestor_start c ≤ k < ancestor_end c) ↔
        flags (atoms (from_chars a l)) !! k = Some false ∧ flags (atoms (from_chars a r)) !! k = Some false) ∧
  (∀ c, c ∈ cs → ancestor_text c = char_slice a (ancestor_start c) (ancestor_end c)).
Proof.
  rewrite merge_eq. intros [= _ <-]. split.
  - intros k. rewrite <-!deletes_local_edits, !deletes_footprint. setoid_rewrite elem_of_detect_conflicts.
    split.
    + intros (c&(le&re&Hle&Hre&Ho)&Hk).
      destruct (proj1 (overlap_covers a le re k)) as [? ?]; [by exists c|]. split; eauto.
    + intros [(le&Hle&Hkl) (re&Hre&Hkr)].
      destruct (proj2 (overlap_covers a le re k)) as (c&?&?); [done|]. eauto 8.
  - intros c (le&re&_&_&Ho)%elem_of_detect_conflicts. unfold overlap in Ho.
    destruct (footprint le), (footprint re), (_ && _); by simplify_eq/=.
Qed.

(** A remote insertion strictly inside a locally deleted range is reported as a
    conflict over an empty ancestor range, although the remote side removed
    nothing. *)
Theorem insert_inside_delete_conflicts a l r m cs s e p v :
  merge_local_onto_remote a l r = Some (m, cs) →
  EDelete s e ∈ local_edits a l → EInsert p v ∈ local_edits a r → s < p < e →
  mkConflict p p [] ∈ cs.
Proof.
  rewrite merge_eq. intros [= _ <-] Hl Hr Hp. apply elem_of_detect_conflicts.
  exists (EDelete s e), (EInsert p v). split_and!; [done..|]. unfold overlap. simpl.
  rewrite !bool_decide_eq_true_2 by lia. simpl. replace (s `max` p) with p by lia.
  replace (e `min` p) with p by lia. unfold char_slice. by rewrite Nat.sub_diag.
Qed.
End theorems.
