(* ===== verification/Paths.v ===== *)
(** * Vault paths and container ids (roam-files, path.rs, sidecar.rs, bridge.rs)

    A tracked file is named by its container id, its path relative to the vault root
    with [/] separators and in Unicode NFC.  Paths are Unix strings; what
    [std::path] does with them ([components], [push], [strip_prefix]) is modelled on
    the string, and NFC is the interface [Nfc]. *)
From S2P Require Import Prelude RustStr Vfs Wire.

Abbreviation Path := rstring.
Definition SLASH : rchar := 47.

(** ** std::path *)
Inductive Component := RootDir | CurDir | ParentDir | Normal (s : rstring).
#[global] Instance Component_eq_dec : EqDecision Component.
Proof. solve_decision. Defined.

(** One piece between slashes; [first] at the start of a relative path, where [.] is
    kept. *)
Definition component (first : bool) (s : rstring) : option Component :=
  if bool_decide (s = []) then None
  else if bool_decide (s = str ".") then (if first then Some CurDir else None)
  else if bool_decide (s = str "..") then Some ParentDir
  else Some (Normal s).

Definition is_absolute (p : Path) : bool := bool_decide (head p = Some SLASH).

Definition components (p : Path) : list Component :=
  if is_absolute p then RootDir :: omap (component false) (split_on SLASH p)
  else match split_on SLASH p with
       | [] => []
       | s :: ss => option_list (component true s) ++ omap (component false) ss
       end.

(** [PathBuf::push]. *)
Definition push (a b : Path) : Path :=
  if is_absolute b then b
  else match last a with
       | None => b
       | Some c => if bool_decide (c = SLASH) then a ++ b else a ++ SLASH :: b
       end.

Definition component_str (c : Component) : rstring :=
  match c with RootDir => [SLASH] | CurDir => str "." | ParentDir => str ".." | Normal s => s end.

(** [Path::strip_prefix]: the remaining components, as a path. *)
Fixpoint strip_components (p base : list Component) : option (list Component) :=
  match base, p with
  | [], p => Some p
  | b :: base, c :: p => if bool_decide (b = c) then strip_components p base else None
  | _ :: _, [] => None
  end.
Definition path_of (cs : list Component) : Path :=
  match cs with
  | RootDir :: cs => SLASH :: join_on SLASH (component_str <$> cs)
  | cs => join_on SLASH (component_str <$> cs)
  end.
Definition strip_prefix (p base : Path) : option Path :=
  path_of <$> strip_components (components p) (components base).

(** ** Errors of the crate (error.rs) *)
Inductive FilesError :=
  | FStorage (e : StorageError) | FIo (e : io_error) | PathEscapesVault (p : Path) | FSidecar | FEntry
  | FNotFound (p : Path) | Desync (container : rstring) | DirtyFile (p : Path)
  | CaseCollision (existing incoming : rstring) | ReservedName (key : rstring)
  | NoBlobHistory (p : Path) | ReadOnly.

(** ** Container ids *)
Class Nfc := nfc : rstring → rstring.

Definition FILESET_MAP_ID : rstring := str "__roam_fileset__".

Definition normalize_step (absolute : bool) (parts : list rstring) (c : Component) : list rstring :=
  match c with
  | Normal part => parts ++ [part]
  | ParentDir =>
      match last parts with
      | Some l => if bool_decide (l ≠ str "..") then removelast parts
                  else if negb absolute then parts ++ [str ".."] else parts
      | None => if negb absolute then parts ++ [str ".."] else parts
      end
  | CurDir | RootDir => parts
  end.
Definition lexical_normalize (p : Path) : list rstring :=
  foldl (normalize_step (is_absolute p)) [] (components p).

Definition container_id `{Nfc} (vault_root file : Path) : result FilesError rstring :=
  let remainder := default file (strip_prefix file vault_root) in
  let combined := push vault_root remainder in
  let root_parts := lexical_normalize vault_root in
  let file_parts := lexical_normalize combined in
  if bool_decide (str ".." ∈ file_parts) then Err (PathEscapesVault file)
  else if bool_decide (length file_parts < length root_parts)
          || bool_decide (take (length root_parts) file_parts ≠ root_parts)
  then Err (PathEscapesVault file)
  else
    let key := nfc (join_on SLASH (drop (length root_parts) file_parts)) in
    if bool_decide (key = FILESET_MAP_ID) then Err (ReservedName key) else Ok key.

Definition key_to_path (vault_root : Path) (key : rstring) : Path :=
  foldl push vault_root (split_on SLASH key).

(** sidecar.rs and bridge.rs: the metadata files kept for a key. *)
Definition sidecar_path (meta_dir : Path) (key : rstring) : Path :=
  foldl push (push meta_dir (str "sidecars")) (split_on SLASH key) ++ str ".roammeta".
Definition blob_marker_path (meta_dir : Path) (key : rstring) : Path :=
  foldl push (push meta_dir (str "blobmarkers")) (split_on SLASH key) ++ str ".roamblob".

(** ** Components of pushed paths *)

(** A name that is one ordinary component. *)
Definition good_name (s : rstring) : bool :=
  bool_decide (s ≠ []) && bool_decide (s ≠ str ".") && bool_decide (s ≠ str "..") && bool_decide (SLASH ∉ s).

Lemma good_name_spec s :
  good_name s = true ↔ s ≠ [] ∧ s ≠ str "." ∧ s ≠ str ".." ∧ SLASH ∉ s.
Proof. unfold good_name. rewrite !andb_true_iff, !bool_decide_eq_true; tauto. Qed.

Definition steps (p : Path) : list Component := omap (component false) (split_on SLASH p).

Lemma split_on_sep c s t : split_on c (s ++ c :: t) = split_on c s ++ split_on c t.
Proof.
  induction s as [|x s IH]; simpl; [by rewrite decide_True|].
  case_decide; simpl; [by rewrite IH|]. rewrite IH.
  pose proof (split_on_nonempty c s). by destruct (split_on c s).
Qed.

Lemma steps_sep s t : steps (s ++ SLASH :: t) = steps s ++ steps t.
Proof. unfold steps. by rewrite split_on_sep, omap_app. Qed.

Lemma is_absolute_spec p : is_absolute p = true ↔ ∃ q, p = SLASH :: q.
Proof.
  unfold is_absolute. rewrite bool_decide_eq_true. destruct p as [|c q]; simpl; [naive_solver|].
  naive_solver.
Qed.

Lemma steps_push a b : is_absolute b = false → steps (push a b) = steps a ++ steps b.
Proof.
  intros Hb. unfold push. rewrite Hb. destruct (last a) as [c|] eqn:Hl.
  - case_bool_decide as Hc; [|apply steps_sep]. subst c. apply last_Some in Hl as [a' ->].
    rewrite <-(assoc_L app). simpl app at 1. rewrite !steps_sep.
    by rewrite app_nil_r.
  - apply last_None in Hl as ->. done.
Qed.
Lemma is_absolute_push a b : is_absolute b = false → a ≠ [] → is_absolute (push a b) = is_absolute a.
Proof.
  intros Hb Ha. unfold push. rewrite Hb. destruct a as [|x a]; [done|].
  destruct (last (x :: a)) eqn:Hl; [by case_bool_decide|by apply last_None in Hl].
Qed.

Lemma push_nil b : push [] b = b.
Proof. unfold push. by destruct (is_absolute b). Qed.
Lemma push_nonempty a b : is_absolute b = false → a ≠ [] → push a b ≠ [].
Proof.
  intros Hb Ha. unfold push. rewrite Hb. destruct (last a) eqn:Hl; [|by apply last_None in Hl].
  case_bool_decide; by destruct a.
Qed.

(** Normalisation looks only at the ordinary components and [..]. *)
Lemma normalize_steps p : lexical_normalize p = foldl (normalize_step (is_absolute p)) [] (steps p).
Proof.
  unfold lexical_normalize, components, steps. destruct (is_absolute p) eqn:Ha; [done|].
  pose proof (split_on_nonempty SLASH p). destruct (split_on SLASH p) as [|s ss]; [done|].
  assert (omap (component false) (s :: ss) = option_list (component false s) ++ omap (component false) ss)
    as -> by (simpl; by destruct (component false s)).
  rewrite !foldl_app. f_equal. unfold component. by repeat case_bool_decide.
Qed.

Lemma component_good s : good_name s = true → ∀ b, component b s = Some (Normal s).
Proof.
  unfold good_name, component. intros Hg b. repeat case_bool_decide; simpl in *; naive_solver.
Qed.
Lemma good_name_relative s : good_name s = true → is_absolute s = false.
Proof.
  unfold good_name, is_absolute. intros Hg. apply bool_decide_eq_false. destruct s as [|c s]; [done|].
  simpl. intros [= ->]. rewrite (bool_decide_eq_false_2 (SLASH ∉ _)), andb_false_r in Hg by set_solver. done.
Qed.
Lemma good_name_steps s : good_name s = true → steps s = [Normal s].
Proof.
  intros Hg. unfold steps. rewrite split_on_no_sep; [simpl; by rewrite component_good|].
  unfold good_name in Hg. by repeat case_bool_decide; simpl in *.
Qed.

Lemma component_normal b s n : component b s = Some (Normal n) → n = s ∧ s ≠ [] ∧ s ≠ str "." ∧ s ≠ str "..".
Proof. unfold component. repeat case_bool_decide; destruct b; naive_solver. Qed.

(** Names found in a path are ordinary. *)
Lemma steps_names p n : Normal n ∈ steps p → good_name n = true.
Proof.
  unfold steps. rewrite list_elem_of_omap. intros (s&Hs%split_on_elem&(->&?&?&?)%component_normal).
  unfold good_name. by rewrite !bool_decide_eq_true_2.
Qed.

Definition is_name (s : rstring) : Prop := good_name s = true ∨ s = str "..".

Lemma normalize_names abs cs parts :
  Forall is_name parts → (∀ n, Normal n ∈ cs → good_name n = true) →
  Forall is_name (foldl (normalize_step abs) parts cs).
Proof.
  revert parts. induction cs as [|c cs IH]; intros parts Hp Hc; simpl; [done|].
  apply IH; [|set_solver]. destruct c as [| | |n]; simpl; try done.
  - assert (Forall is_name (parts ++ [str ".."])) by (apply Forall_app; split; [done|]; constructor; [by right|done]).
    destruct (last parts) eqn:Hl; [|by destruct abs].
    case_bool_decide; [|by destruct abs]. apply last_Some in Hl as [parts' ->]. rewrite removelast_last.
    by apply Forall_app in Hp as [? _].
  - apply Forall_app. split; [done|]. constructor; [|done]. left. apply Hc. set_solver.
Qed.

Lemma normalize_normals abs parts ns :
  foldl (normalize_step abs) parts (Normal <$> ns) = parts ++ ns.
Proof.
  revert parts. induction ns as [|n ns IH]; intros parts; csimpl; [by rewrite app_nil_r|].
  by rewrite IH, <-(assoc_L app).
Qed.

(** Pushing ordinary names. *)
Lemma push_names ns root :
  Forall (λ n, good_name n = true) ns →
  steps (foldl push root ns) = steps root ++ (Normal <$> ns) ∧
  (root ≠ [] → is_absolute (foldl push root ns) = is_absolute root).
Proof.
  revert root. induction ns as [|n ns IH]; intros root Hns; csimpl; [by rewrite app_nil_r|].
  apply Forall_cons in Hns as [Hn Hns]. pose proof (good_name_relative n Hn) as Hr.
  destruct (IH (push root n) Hns) as [Hs Ha]. split.
  - rewrite Hs, steps_push, (good_name_steps n) by done. by rewrite <-(assoc_L app).
  - intros Hne. rewrite Ha; [by apply is_absolute_push|]. by apply push_nonempty.
Qed.

(** ** Prefixes *)
Lemma strip_components_spec p base cs : strip_components p base = Some cs ↔ p = base ++ cs.
Proof.
  revert p. induction base as [|b base IH]; intros [|c p]; simpl; try naive_solver.
  case_bool_decide as Hb; [rewrite IH|]; naive_solver.
Qed.

Definition is_step (c : Component) : bool := match c with ParentDir | Normal _ => true | _ => false end.
Definition comp_ok (c : Component) : Prop := match c with Normal s => good_name s = true | _ => True end.

Lemma component_ok b s c : SLASH ∉ s → component b s = Some c → comp_ok c ∧ c ≠ RootDir ∧ (b = false → c ≠ CurDir).
Proof.
  intros Hs. unfold component, comp_ok. repeat case_bool_decide; destruct b; intros; simplify_eq; try naive_solver;
    (split; [|naive_solver]); unfold good_name; by rewrite !bool_decide_eq_true_2.
Qed.
Lemma steps_ok p : Forall (λ c, comp_ok c ∧ is_step c = true) (steps p).
Proof.
  apply Forall_forall. intros c (s&Hs%split_on_elem&Hc)%list_elem_of_omap.
  destruct (component_ok _ _ _ Hs Hc) as (?&?&?). destruct c; naive_solver.
Qed.

(** The components of a path are an optional head and its steps. *)
Lemma components_steps p :
  ∃ h, components p = h ++ steps p ∧
    (is_absolute p = true ∧ h = [RootDir] ∨ is_absolute p = false ∧ (h = [] ∨ h = [CurDir])).
Proof.
  unfold components, steps. destruct (is_absolute p) eqn:Ha; [by exists [RootDir]; auto|].
  pose proof (split_on_nonempty SLASH p). destruct (split_on SLASH p) as [|s ss]; [done|].
  destruct (decide (s = str ".")) as [->|Hs].
  - exists [CurDir]. by split; [|auto].
  - exists []. split; [|auto]. simpl. unfold component. by repeat case_bool_decide.
Qed.

Lemma component_str_step c : comp_ok c → is_step c = true → component false (component_str c) = Some c.
Proof. destruct c as [| | |n]; simpl; try done. intros ? _. by apply component_good. Qed.
Lemma component_str_no_slash c : comp_ok c → c ≠ RootDir → SLASH ∉ component_str c.
Proof.
  destruct c as [| | |n]; simpl; try done; intros Hc _; [by apply (bool_decide_unpack _)..|].
  unfold good_name in Hc. by repeat case_bool_decide; simpl in *.
Qed.

Lemma path_of_join cs : RootDir ∉ cs → path_of cs = join_on SLASH (component_str <$> cs).
Proof. destruct cs as [|[| | |n] cs]; simpl; try done. set_solver. Qed.
Lemma split_path cs :
  cs ≠ [] → Forall comp_ok cs → RootDir ∉ cs → split_on SLASH (path_of cs) = component_str <$> cs.
Proof.
  intros Hne Hok Hr. rewrite path_of_join by done.
  apply split_join; [by destruct cs|]. apply Forall_fmap, Forall_forall. intros c Hc.
  rewrite Forall_forall in Hok. apply component_str_no_slash; [by apply Hok|]. intros ->. done.
Qed.
Lemma omap_component_str cs :
  Forall comp_ok cs → RootDir ∉ cs →
  omap (component false) (component_str <$> cs) = filter (λ c, is_step c = true) cs.
Proof.
  induction 1 as [|c cs Hc Hcs IH]; intros Hr; [done|]. rewrite filter_cons.
  rewrite <-IH by set_solver. case_decide as Hs; csimpl.
  - by rewrite component_str_step.
  - destruct c; try done. set_solver.
Qed.

Lemma steps_nil : steps [] = [].
Proof. done. Qed.
Lemma filter_steps p : filter (λ c, is_step c = true) (steps p) = steps p.
Proof.
  induction (steps_ok p) as [|c cs [_ Hc] _ IH]; [done|]. rewrite filter_cons_True by done. by rewrite IH.
Qed.
Lemma steps_no_root p : RootDir ∉ steps p.
Proof. intros Hin. pose proof (steps_ok p) as Ho. rewrite Forall_forall in Ho. by destruct (Ho _ Hin). Qed.
Lemma filter_components p : filter (λ c, is_step c = true) (components p) = steps p.
Proof.
  destruct (components_steps p) as (h&->&Hh). rewrite filter_app.
  assert (filter (λ c, is_step c = true) h = []) as -> by (by destruct Hh as [[_ ->]|[_ [->| ->]]]).
  apply filter_steps.
Qed.
Lemma components_ok p : Forall comp_ok (components p).
Proof.
  destruct (components_steps p) as (h&->&Hh). apply Forall_app. split.
  - destruct Hh as [[_ ->]|[_ [->| ->]]]; repeat constructor.
  - eapply Forall_impl; [apply steps_ok|]. naive_solver.
Qed.
Lemma components_root p cs : components p = RootDir :: cs → is_absolute p = true ∧ cs = steps p.
Proof.
  destruct (components_steps p) as (h&->&[[? ->]|[? [->| ->]]]); try naive_solver.
  intros Hs. pose proof (steps_ok p) as Ho. simpl in Hs. rewrite Hs in Ho.
  apply Forall_cons in Ho as [[_ ?] _]. done.
Qed.
Lemma root_only_first p a b : components p = a ++ RootDir :: b → a = [].
Proof.
  intros Hp. destruct a as [|x a]; [done|]. exfalso.
  destruct (components_steps p) as (h&Hh&Hc). rewrite Hh in Hp.
  assert (RootDir ∈ steps p) as Hin.
  { destruct Hc as [[_ ->]|[_ [->| ->]]]; simpl in Hp; [injection Hp as _ Hp| |injection Hp as _ Hp];
      rewrite Hp; set_solver. }
  by apply steps_no_root in Hin.
Qed.
Lemma components_nil p : components p = [] → p = [].
Proof.
  unfold components. destruct (is_absolute p) eqn:Ha; [done|]. intros Hc.
  destruct p as [|x p]; [done|]. exfalso. simpl in Hc. rewrite decide_False in Hc.
  - pose proof (split_on_nonempty SLASH p). destruct (split_on SLASH p) as [|s ss]; [done|].
    unfold component in Hc at 1. repeat case_bool_decide; simpl in *; done.
  - intros ->. unfold is_absolute in Ha. by apply bool_decide_eq_false in Ha.
Qed.
Lemma absolute_head p : is_absolute p = true ↔ head (components p) = Some RootDir.
Proof.
  destruct (components_steps p) as (h&->&[[-> ->]|[-> [->| ->]]]); split; try done.
  simpl. intros Hs. pose proof (steps_ok p) as Ho. destruct (steps p); [done|]. simplify_eq/=.
  apply Forall_cons in Ho as [[_ ?] _]. done.
Qed.

Lemma path_of_relative cs :
  Forall comp_ok cs → RootDir ∉ cs →
  steps (path_of cs) = filter (λ c, is_step c = true) cs ∧ is_absolute (path_of cs) = false.
Proof.
  intros Hok Hr. destruct cs as [|c cs]; [done|]. split.
  - unfold steps. rewrite split_path by done. by rewrite omap_component_str.
  - apply bool_decide_eq_false. intros Hh.
    assert (head (split_on SLASH (path_of (c :: cs))) = Some []) as Hs.
    { destruct (path_of (c :: cs)) as [|x q]; [done|]. simpl in Hh |- *. simplify_eq. by rewrite decide_True. }
    rewrite split_path in Hs by done. simpl in Hs. apply Forall_cons in Hok as [Hc _].
    by destruct c as [| | |[|x n]]; simplify_eq/=.
Qed.

(** Stripping the root and pushing the remainder names the same file again. *)
Lemma strip_then_push file root rem :
  strip_prefix file root = Some rem → lexical_normalize (push root rem) = lexical_normalize file.
Proof.
  unfold strip_prefix. rewrite fmap_Some. intros (cs&Hcs%strip_components_spec&->).
  pose proof (components_ok file) as Hok. rewrite Hcs in Hok. apply Forall_app in Hok as [_ Hok].
  assert (steps file = steps root ++ filter (λ c, is_step c = true) cs) as Hsf.
  { by rewrite <-!filter_components, <-filter_app, Hcs. }
  rewrite !normalize_steps. destruct (decide (RootDir ∈ cs)) as [Hr|Hr].
  - apply list_elem_of_split in Hr as (a&b&->). rewrite (assoc_L app) in Hcs.
    pose proof (root_only_first _ _ _ Hcs) as [Hroot ->]%app_nil. rewrite Hroot in Hcs.
    apply components_nil in Hroot as ->. apply components_root in Hcs as [Ha ->].
    change ([] ++ RootDir :: steps file) with (RootDir :: steps file).
    assert (steps (push [] (path_of (RootDir :: steps file))) = steps file) as ->; [|by rewrite Ha].
    change (steps ([] ++ SLASH :: join_on SLASH (component_str <$> steps file)) = steps file).
    rewrite steps_sep, steps_nil, app_nil_l.
    rewrite <-path_of_join by apply steps_no_root.
    destruct (path_of_relative (steps file)) as [-> _]; [|apply steps_no_root|apply filter_steps].
    eapply Forall_impl; [apply steps_ok|]. naive_solver.
  - destruct (path_of_relative cs Hok Hr) as [Hst Hab]. rewrite steps_push, Hst, Hsf by done.
    f_equal. f_equal. destruct (decide (root = [])) as [->|Hne].
    + rewrite push_nil, Hab. symmetry.
      apply not_true_iff_false. rewrite absolute_head, Hcs. destruct cs; simpl; [done|].
      intros [= ->]. set_solver.
    + rewrite is_absolute_push by done. apply eq_iff_eq_true. rewrite !absolute_head, Hcs.
      destruct (components root) eqn:Hcr; [by apply components_nil in Hcr|done].
Qed.

Lemma components_sep a b : a ≠ [] → components (a ++ SLASH :: b) = components a ++ steps b.
Proof.
  intros Ha. unfold components, steps. assert (is_absolute (a ++ SLASH :: b) = is_absolute a) as ->.
  { by destruct a. }
  rewrite split_on_sep. destruct (is_absolute a); [by rewrite omap_app|].
  pose proof (split_on_nonempty SLASH a). destruct (split_on SLASH a) as [|s ss]; [done|].
  simpl. by rewrite omap_app, (assoc_L app).
Qed.
Lemma components_push a b :
  a ≠ [] → is_absolute b = false → components (push a b) = components a ++ steps b.
Proof.
  intros Ha Hb. unfold push. rewrite Hb. destruct (last a) as [c|] eqn:Hl; [|by apply last_None in Hl].
  case_bool_decide as Hc; [|by apply components_sep]. subst c. apply last_Some in Hl as [a' ->].
  rewrite <-(assoc_L app). simpl app at 1. destruct a' as [|x a'].
  - simpl. unfold components, steps. simpl. done.
  - rewrite !components_sep by done. by rewrite steps_nil, app_nil_r.
Qed.
Lemma components_push_names ns root :
  root ≠ [] → Forall (λ n, good_name n = true) ns →
  components (foldl push root ns) = components root ++ (Normal <$> ns).
Proof.
  revert root. induction ns as [|n ns IH]; intros root Hr Hns; csimpl; [by rewrite app_nil_r|].
  apply Forall_cons in Hns as [Hn Hns]. pose proof (good_name_relative n Hn).
  rewrite IH, components_push, (good_name_steps n) by auto using push_nonempty.
  by rewrite <-(assoc_L app).
Qed.

Lemma normalize_push_names root ns :
  ns ≠ [] → Forall (λ n, good_name n = true) ns →
  lexical_normalize (foldl push root ns) = lexical_normalize root ++ ns.
Proof.
  intros Hne Hns. destruct (push_names ns root Hns) as [Hs Ha].
  assert (is_absolute (foldl push root ns) = is_absolute root) as Hab.
  { destruct (decide (root = [])) as [->|]; [|auto]. destruct ns as [|n ns]; [done|]. simpl.
    apply Forall_cons in Hns as [Hn Hns]. rewrite push_nil.
    destruct (push_names ns n Hns) as [_ Ha']. rewrite Ha'; [by apply good_name_relative|]. by intros ->. }
  rewrite !normalize_steps, Hab, Hs, foldl_app. apply normalize_normals.
Qed.

(** A suffix appended to a pushed name stays in that name. *)
Lemma push_suffix a n suf : n ≠ [] → push a n ++ suf = push a (n ++ suf).
Proof.
  intros Hn. unfold push. assert (is_absolute (n ++ suf) = is_absolute n) as -> by (by destruct n).
  destruct (is_absolute n); [done|]. destruct (last a); [|done]. case_bool_decide; by rewrite <-(assoc_L app).
Qed.
Lemma normalize_suffix root ns n suf :
  Forall (λ n, good_name n = true) ns → good_name n = true → good_name (n ++ suf) = true →
  lexical_normalize (foldl push root (ns ++ [n]) ++ suf) = lexical_normalize root ++ ns ++ [n ++ suf].
Proof.
  intros Hns Hn Hsuf. rewrite foldl_snoc, push_suffix by (by intros ->).
  rewrite <-(foldl_snoc push root ns (n ++ suf)). apply normalize_push_names; [by destruct ns|].
  apply Forall_app. split; [done|]. by constructor.
Qed.
Lemma good_name_suffix n suf :
  good_name n = true → 2 < length suf → SLASH ∉ suf → good_name (n ++ suf) = true.
Proof.
  rewrite !good_name_spec. intros (_&_&_&Hn) Hl Hs. split_and!; [| | |set_solver];
    intros Hx%(f_equal length); rewrite length_app in Hx; simpl in Hx; lia.
Qed.

(** ** What a container id says about its file *)

(** The normalised place a file argument names: a path under the root as it stands,
    any other path relative to the root unless it is absolute. *)
Definition target (vault_root file : Path) : list rstring :=
  match strip_prefix file vault_root with
  | Some _ => lexical_normalize file
  | None => lexical_normalize (push vault_root file)
  end.

Lemma target_eq root file :
  lexical_normalize (push root (default file (strip_prefix file root))) = target root file.
Proof. unfold target. destruct (strip_prefix file root) eqn:Hs; [by apply strip_then_push|done]. Qed.

Lemma normalize_is_name p : Forall is_name (lexical_normalize p).
Proof. rewrite normalize_steps. apply normalize_names; [done|]. apply steps_names. Qed.

Section ids.
Context `{Nfc}.

Lemma container_id_eq root file :
  container_id root file =
    if bool_decide (str ".." ∈ target root file) then Err (PathEscapesVault file)
    else if bool_decide (lexical_normalize root `prefix_of` target root file) then
      let key := nfc (join_on SLASH (drop (length (lexical_normalize root)) (target root file))) in
      if bool_decide (key = FILESET_MAP_ID) then Err (ReservedName key) else Ok key
    else Err (PathEscapesVault file).
Proof.
  unfold container_id. rewrite target_eq. case_bool_decide as Hd; [done|].
  destruct (decide (lexical_normalize root `prefix_of` target root file)) as [[rel Hrel]|Hp].
  - rewrite (bool_decide_eq_true_2 (_ `prefix_of` _)) by (by exists rel). rewrite Hrel.
    rewrite (bool_decide_eq_false_2 (_ < _)) by (rewrite length_app; lia).
    rewrite (bool_decide_eq_false_2 (take _ _ ≠ _)); [done|]. rewrite take_app_length. naive_solver.
  - rewrite (bool_decide_eq_false_2 (_ `prefix_of` _)) by done.
    destruct (decide (length (target root file) < length (lexical_normalize root))).
    + by rewrite bool_decide_eq_true_2.
    + rewrite (bool_decide_eq_true_2 (take _ _ ≠ _)), orb_true_r; [done|]. intros Ht. apply Hp.
      exists (drop (length (lexical_normalize root)) (target root file)). by rewrite <-Ht at 1; rewrite take_drop.
Qed.

(** A file gets a container id only if it lies below the vault root: its normalised
    path is the root's followed by ordinary names, free of [..], and the id is those
    names joined; every other path is an error, so no id names a file outside. *)
Theorem container_id_inside root file key :
  container_id root file = Ok key ↔
  ∃ rel, target root file = lexical_normalize root ++ rel ∧
    Forall (λ n, good_name n = true) rel ∧ (str ".." ∉ lexical_normalize root) ∧
    key = nfc (join_on SLASH rel) ∧ key ≠ FILESET_MAP_ID.
Proof.
  rewrite container_id_eq. split.
  - case_bool_decide as Hd; [done|]. case_bool_decide as Hp; [|done]. destruct Hp as [rel Hrel].
    rewrite Hrel, drop_app_length in *. simpl. case_bool_decide as Hk; [done|]. intros [= <-].
    exists rel. split_and!; [done| |set_solver|done|done].
    assert (Forall is_name (target root file)) as Hn
      by (unfold target; destruct (strip_prefix file root); apply normalize_is_name).
    rewrite Hrel in Hn. apply Forall_app in Hn as [_ Hn]. rewrite Forall_forall in Hn |- *.
    intros n Hin. destruct (Hn n Hin) as [| ->]; [done|]. set_solver.
  - intros (rel&Hrel&Hn&Hd&->&Hk). rewrite Hrel, drop_app_length.
    rewrite bool_decide_eq_false_2, bool_decide_eq_true_2; [|by exists rel|].
    + simpl. by rewrite bool_decide_eq_false_2.
    + intros [?|Hin]%elem_of_app; [done|]. rewrite Forall_forall in Hn. by apply Hn in Hin.
Qed.

Lemma target_names root ns :
  ns ≠ [] → Forall (λ n, good_name n = true) ns →
  target root (foldl push root ns) = lexical_normalize root ++ ns.
Proof.
  intros Hne Hns. pose proof (normalize_push_names root ns Hne Hns) as Hn. unfold target.
  destruct (decide (root = [])) as [->|Hr].
  - by destruct (strip_prefix _ []); rewrite ?push_nil.
  - assert (strip_prefix (foldl push root ns) root = Some (path_of (Normal <$> ns))) as ->; [|done].
    unfold strip_prefix. apply fmap_Some. exists (Normal <$> ns). split; [|done].
    apply strip_components_spec. by apply components_push_names.
Qed.

(** Container ids and paths are inverse: the path of a key made of ordinary names has
    that key as its id, below any vault root that has no leading [..]. *)
Theorem container_id_key_to_path root ns :
  ns ≠ [] → Forall (λ n, good_name n = true) ns → str ".." ∉ lexical_normalize root →
  let key := join_on SLASH ns in
  nfc key = key → key ≠ FILESET_MAP_ID →
  container_id root (key_to_path root key) = Ok key.
Proof.
  intros Hne Hns Hd key Hnfc Hk. rewrite container_id_eq. unfold key_to_path, key.
  rewrite split_join; [|done|].
  2: { eapply Forall_impl; [exact Hns|]. intros n Hn. unfold good_name in Hn. by repeat case_bool_decide; simpl in *. }
  rewrite target_names by done. rewrite drop_app_length.
  rewrite bool_decide_eq_false_2, bool_decide_eq_true_2; [|by exists ns|].
  - fold key. rewrite Hnfc. simpl. by rewrite bool_decide_eq_false_2.
  - intros [?|Hin]%elem_of_app; [done|]. rewrite Forall_forall in Hns. by apply Hns in Hin.
Qed.

(** Below a vault root that itself climbs with [..] no file has a container id. *)
Theorem parent_root_rejects_all root file :
  str ".." ∈ lexical_normalize root → container_id root file = Err (PathEscapesVault file).
Proof.
  intros Hd. rewrite container_id_eq. case_bool_decide as Ht; [done|]. case_bool_decide as Hp; [|done].
  destruct Hp as [rel Hrel], Ht. rewrite Hrel. apply elem_of_app. by left.
Qed.
End ids.
