(* ===== verification/Bridge.v ===== *)
(** * The folder bridge (roam-files, bridge.rs, sidecar.rs, fileset.rs)

    The bridge reconciles a directory of the user's files with the store: it imports
    disk edits into text containers or the blob store, projects the store back to
    disk, and keeps the file-set map (live entries and tombstones).  Its state is a
    disk and a store.  The disk is any [VaultFs] (the native backend forwards each
    operation to [std::fs]); the store is the interface [VaultStore], whose promises
    to the bridge are [VaultStoreLaws]; the store component discharges them.

    A path argument is resolved lexically ([lexical_normalize]), which is what the
    operating system does when no component is a symbolic link; [canonicalize] and
    [is_symlink] are arguments. *)
From S2P Require Import Prelude RustStr Vfs Roster Wire Keychain Blob Textdiff Rebase Paths.

(** ** The store as the bridge uses it (roam-storage, store.rs) *)
Class VaultStore (S Fr : Type) := {
  st_text : rstring → S → rstring;
  st_edit_text : rstring → nat → rstring → SM S StorageError unit;
  st_delete_text : rstring → nat → nat → SM S StorageError unit;
  st_get_entry : rstring → rstring → S → option rstring;
  st_set_entry : rstring → rstring → rstring → SM S StorageError unit;
  st_entries : rstring → S → list (rstring * rstring);
  st_may_write : S → bool;
  st_doc_version_bytes : S → bytes;
  st_historical_entry : rstring → rstring → Z → S → result StorageError (option rstring);
  st_revert_text : rstring → Fr → SM S StorageError unit;
  st_blob_put : bytes → SM S StorageError rstring;
  st_blob_get : rstring → S → result StorageError (option bytes);
  st_blob_has : rstring → S → bool;
  st_blob_remove : rstring → SM S StorageError unit;
}.

(** ** The file-set map's values (fileset.rs) *)
Inductive EntryStatus := Live | Tombstoned.
Inductive EntryKind := Text | BlobKind.
#[global] Instance EntryStatus_eq_dec : EqDecision EntryStatus.
Proof. solve_decision. Defined.
#[global] Instance EntryKind_eq_dec : EqDecision EntryKind.
Proof. solve_decision. Defined.

Record FileEntry := mkFileEntry {
  fe_kind : EntryKind; fe_status : EntryStatus; content_hash : rstring;
  renamed_from : option rstring; tombstoned_at : option rstring;
}.
#[global] Instance FileEntry_eq_dec : EqDecision FileEntry.
Proof. solve_decision. Defined.

Definition to_live (e : FileEntry) : FileEntry :=
  mkFileEntry (fe_kind e) Live (content_hash e) (renamed_from e) None.

(** ** Sidecars (sidecar.rs) *)
Record Sidecar := mkSidecar {
  sc_version : N; doc_id : rstring; last_synced_hash : rstring; last_synced_text : rstring;
}.
Definition SIDECAR_VERSION : N := 1.

(** ** Outcomes *)
Record SyncOutcome := mkOutcome { ops_applied : nat; changed : bool; conflicts : list Conflict }.
Definition unchanged : SyncOutcome := mkOutcome 0 false [].
Definition changed_no_ops : SyncOutcome := mkOutcome 0 true [].

(** ** State and lifting *)
Record BridgeState (D S : Type) := mkBS { bs_disk : D; bs_store : S }.
Arguments mkBS {D S} _ _.
Arguments bs_disk {D S} _.
Arguments bs_store {D S} _.

(** A panic of the merge is not an error value of the source: [expect]ing it away is
    sound because the merge always returns ([merge_is_weave]). *)
Definition merged (o : option (rstring * list Conflict)) : rstring * list Conflict := default ([], []) o.

(** [for x in l { out.extend(f(x)?); }] *)
Fixpoint sm_flat {S E A B} (f : A → SM S E (list B)) (l : list A) : SM S E (list B) :=
  match l with
  | [] => mret []
  | x :: l => ys ← f x; zs ← sm_flat f l; mret (ys ++ zs)
  end.

(** ** The directory walk's names *)
Definition file_name (p : Path) : option rstring :=
  match last (components p) with Some (Normal n) => Some n | _ => None end.
Definition is_hidden (p : Path) : bool :=
  match file_name p with Some n => bool_decide (head n = Some DOT) | None => false end.
Definition ends_with (n suffix : rstring) : bool := bool_decide (suffix `suffix_of` n).
Definition is_internal_sidecar (p : Path) : bool :=
  match file_name p with
  | Some n => ends_with n (str ".roammeta") || ends_with n (str ".roamblob")
  | None => false
  end.

(** [Ord] on paths: component by component. *)
Definition comp_rank (c : Component) : N :=
  match c with RootDir => 0 | CurDir => 1 | ParentDir => 2 | Normal _ => 3 end.
Definition comp_cmp (a b : Component) : comparison :=
  match a, b with
  | Normal x, Normal y => bytes_cmp (utf8 x) (utf8 y)
  | _, _ => N.compare (comp_rank a) (comp_rank b)
  end.
Fixpoint comps_cmp (a b : list Component) : comparison :=
  match a, b with
  | [], [] => Eq
  | [], _ :: _ => Lt
  | _ :: _, [] => Gt
  | x :: a, y :: b => match comp_cmp x y with Eq => comps_cmp a b | c => c end
  end.
Definition path_le (a b : Path) : Prop := comps_cmp (components a) (components b) ≠ Gt.
#[global] Instance path_le_dec : RelDecision path_le.
Proof. unfold path_le. intros a b. apply _. Defined.

Section bridge.
Context `{Crypto, Similar, Nfc, JsonOf FileEntry, JsonOf Sidecar}.
Context {D St Fr : Type} `{VaultFs D, VaultStore St Fr}.
(** [Path::canonicalize], and [DirEntry::file_type().is_symlink()]. *)
Variable canonicalize : Path → D → option path.
Variable is_symlink : path → D → bool.
(** The order a [HashSet] is iterated in, and the depth the directory walk descends. *)
Variable hash_order : gset rstring → list rstring.
Variable depth : nat.
(** The fields of [FolderBridge]. *)
Variable vault_root meta_dir : Path.
Variable single_version_threshold : option N.

Abbreviation BS := (BridgeState D St).
Abbreviation M A := (SM BS FilesError A).

Definition on_disk {A} (m : SM D io_error A) : M A := λ s,
  let '(r, d) := m (bs_disk s) in (map_err FIo r, mkBS d (bs_store s)).
Definition on_store {A} (m : SM St StorageError A) : M A := λ s,
  let '(r, st) := m (bs_store s) in (map_err FStorage r, mkBS (bs_disk s) st).
Definition get_store : M St := λ s, (Ok (bs_store s), s).
Definition get_disk : M D := λ s, (Ok (bs_disk s), s).

(** The file a path argument names. *)
Definition os (p : Path) : path := lexical_normalize p.

Definition from_value (v : rstring) : option FileEntry := from_json v.
Definition to_value (e : FileEntry) : rstring := to_json e.
Definition text_hash (t : rstring) : rstring := to_hex (blake3 (utf8 t)).

(** *** Disk helpers *)
Definition create_parent (p : path) : SM D io_error unit :=
  match parent p with Some d => fs_create_dir_all d | None => mret tt end.

(** Write a sibling temporary file and rename it; a failed rename removes it. *)
Definition rename_or_clean (temp p : path) : SM D io_error unit := λ d,
  match fs_rename temp p d with
  | (Ok _, d) => (Ok tt, d)
  | (Err e, d) => (Err e, remove_quietly temp d)
  end.

Definition atomic_write (file : Path) (b : bytes) : M unit := on_disk (λ d,
  let temp := os (file ++ str ".tmp") in
  match fs_write temp b d with
  | (Err e, d) => (Err e, remove_quietly temp d)
  | (Ok _, d) => rename_or_clean temp (os file) d
  end).

Definition disk_remove_if_present (p : Path) : M unit := on_disk (λ d,
  match fs_remove_file (os p) d with
  | (Ok _, d) | (Err Vfs.NotFound, d) => (Ok tt, d)
  | (Err e, d) => (Err e, d)
  end).

Definition sidecar_load (key : rstring) (d : D) : result FilesError (option Sidecar) :=
  match fs_read_to_string (os (sidecar_path meta_dir key)) d with
  | Ok contents => match from_json contents with Some sc => Ok (Some sc) | None => Err FSidecar end
  | Err Vfs.NotFound => Ok None
  | Err e => Err (FIo e)
  end.
Definition load_sidecar (key : rstring) : M (option Sidecar) := λ s, (sidecar_load key (bs_disk s), s).

Definition sidecar_store (sc : Sidecar) (key : rstring) : M unit :=
  let p := sidecar_path meta_dir key in
  _ ← on_disk (create_parent (os p));
  let temp := os (p ++ str ".tmp") in
  _ ← on_disk (fs_write temp (utf8 (to_json sc)));
  on_disk (rename_or_clean temp (os p)).

Definition write_blob_marker (key : rstring) : M unit :=
  let p := os (blob_marker_path meta_dir key) in
  _ ← on_disk (create_parent p);
  on_disk (fs_write p []).

(** *** The file-set map *)
Definition get_file_entry (key : rstring) (st : St) : option FileEntry :=
  st_get_entry FILESET_MAP_ID key st ≫= from_value.
Definition set_file_entry (key : rstring) (e : FileEntry) : M unit :=
  on_store (st_set_entry FILESET_MAP_ID key (to_value e)).

Definition hex_encode (b : bytes) : rstring := to_hex b.

Definition write_tombstone (key : rstring) (kind : EntryKind) (hash : rstring) : M unit :=
  _ ← set_file_entry key (mkFileEntry kind Tombstoned hash None None);
  st ← get_store;
  let checkpoint := hex_encode (st_doc_version_bytes st) in
  set_file_entry key (mkFileEntry kind Tombstoned hash None (Some checkpoint)).

(** [eq_ignore_ascii_case] *)
Definition eq_ignore_ascii_case (a b : rstring) : bool :=
  bool_decide (to_ascii_lowercase a = to_ascii_lowercase b).

Definition collides (incoming : rstring) (kv : rstring * rstring) : bool :=
  let '(key, value) := kv in
  bool_decide (key ≠ incoming) && eq_ignore_ascii_case key incoming &&
  match from_value value with Some e => bool_decide (fe_status e = Live) | None => false end.
Definition live_case_collision (st : St) (incoming : rstring) : option rstring :=
  fst <$> head (filter (λ kv, collides incoming kv = true) (st_entries FILESET_MAP_ID st)).

Definition hash_referenced (st : St) (hash : rstring) : bool :=
  existsb (λ kv, match from_value kv.2 with Some e => bool_decide (content_hash e = hash) | None => false end)
          (st_entries FILESET_MAP_ID st).

(** *** Import *)
Definition reconcile_sidecar (container file_text expected actual : rstring) (n : nat)
    (apply_err : option FilesError) : M SyncOutcome :=
  if bool_decide (apply_err = None) && bool_decide (actual = expected) then
    _ ← sidecar_store (mkSidecar SIDECAR_VERSION container (text_hash file_text) file_text) container;
    mret (mkOutcome n true [])
  else
    _ ← sidecar_store (mkSidecar SIDECAR_VERSION container (text_hash actual) actual) container;
    match apply_err with
    | Some e => sm_fail e
    | None => sm_fail (Desync container)
    end.

Definition import_blob (container : rstring) (b : bytes) : M SyncOutcome :=
  st ← get_store;
  let prior_hash := content_hash <$> get_file_entry container st in
  hash ← on_store (st_blob_put b);
  st ← get_store;
  if match get_file_entry container st with
     | Some e => bool_decide (fe_status e = Tombstoned) && bool_decide (fe_kind e = BlobKind)
                 && bool_decide (content_hash e = hash)
     | None => false
     end
  then mret unchanged
  else
    let value := to_value (mkFileEntry BlobKind Live hash None None) in
    if bool_decide (st_get_entry FILESET_MAP_ID container st = Some value) then mret unchanged
    else
      _ ← on_store (st_set_entry FILESET_MAP_ID container value);
      st ← get_store;
      _ ← match single_version_threshold, prior_hash with
          | Some threshold, Some prev =>
              if (threshold <? N.of_nat (length b))%N && bool_decide (prev ≠ hash)
                 && negb (hash_referenced st prev)
              then on_store (st_blob_remove prev) else mret tt
          | _, _ => mret tt
          end;
      mret changed_no_ops.

(** The edit loop: the first failure stops it, and the store keeps what was done. *)
Definition store_op (container : rstring) (o : TextOp) : SM St StorageError unit :=
  match o with
  | OpInsert pos s => st_edit_text container pos s
  | OpDelete pos len => st_delete_text container pos len
  end.
Fixpoint store_ops (container : rstring) (os : list TextOp) (st : St) : option FilesError * St :=
  match os with
  | [] => (None, st)
  | o :: os =>
      match store_op container o st with
      | (Ok _, st) => store_ops container os st
      | (Err e, st) => (Some (FStorage e), st)
      end
  end.

Definition import_text (container file_text : rstring) : M SyncOutcome :=
  sidecar ← load_sidecar container;
  st ← get_store;
  let baseline := match sidecar with Some sc => last_synced_text sc | None => st_text container st end in
  let remote_text := st_text container st in
  let '(expected, cs) :=
    if bool_decide (remote_text = baseline) then (file_text, [])
    else merged (merge_local_onto_remote baseline file_text remote_text) in
  let ops := diff_to_ops remote_text expected in
  if bool_decide (ops = []) then mret unchanged
  else
    apply_err ← (λ s, let '(e, st) := store_ops container ops (bs_store s) in (Ok e, mkBS (bs_disk s) st));
    st ← get_store;
    let actual := st_text container st in
    outcome ← reconcile_sidecar container file_text expected actual (length ops) apply_err;
    _ ← set_file_entry container (mkFileEntry Text Live (text_hash file_text) None None);
    mret (mkOutcome (ops_applied outcome) (changed outcome) cs).

Definition import_file (file : Path) : M SyncOutcome :=
  st ← get_store;
  if negb (st_may_write st) then sm_fail ReadOnly
  else
    container ← sm_lift (container_id vault_root file);
    match live_case_collision st container with
    | Some existing => sm_fail (CaseCollision existing container)
    | None =>
        d ← get_disk;
        b ← sm_lift (map_err FIo (fs_read (os file) d));
        match from_utf8 b with
        | None =>
            outcome ← import_blob container b;
            _ ← write_blob_marker container;
            mret outcome
        | Some file_text => import_text container file_text
        end
    end.

(** *** Delete *)
Definition delete_file (file : Path) : M SyncOutcome :=
  st ← get_store;
  if negb (st_may_write st) then sm_fail ReadOnly
  else
    container ← sm_lift (container_id vault_root file);
    let existing := get_file_entry container st in
    let kind := match existing with Some e => fe_kind e | None => Text end in
    _ ← match kind with
        | BlobKind =>
            let hash := match existing with Some e => content_hash e | None => text_hash (st_text container st) end in
            _ ← write_tombstone container BlobKind hash;
            disk_remove_if_present (blob_marker_path meta_dir container)
        | Text =>
            sidecar ← load_sidecar container;
            let hash := match sidecar with
                        | Some sc => last_synced_hash sc
                        | None => text_hash (st_text container st)
                        end in
            write_tombstone container Text hash
        end;
    _ ← disk_remove_if_present file;
    _ ← disk_remove_if_present (sidecar_path meta_dir container);
    mret changed_no_ops.

(** *** Projection *)

(** The path itself and its parents, outermost last; the parent of the root or of
    the empty path does not exist. *)
Definition ancestors (p : Path) : list Path :=
  let cs := components p in
  let least := if is_absolute p then 1 else 0 in
  (λ n, path_of (take n cs)) <$> reverse (Stdlib.Lists.List.seq least (1 + length cs - least)).

Definition ensure_within_vault (file : Path) (d : D) : result FilesError unit :=
  match canonicalize vault_root d with
  | None => Err (PathEscapesVault file)
  | Some root =>
      match head (omap (λ a, canonicalize a d) (ancestors file)) with
      | Some real => if bool_decide (root `prefix_of` real) then Ok tt else Err (PathEscapesVault file)
      | None => Err (PathEscapesVault file)
      end
  end.

(** Whether a projection would overwrite text that was never imported. *)
Definition dirty (on_disk : option rstring) (sidecar : option Sidecar) (text : rstring) : bool :=
  match on_disk with
  | Some disk =>
      bool_decide (disk ≠ text) &&
      match sidecar with Some sc => bool_decide (disk ≠ last_synced_text sc) | None => true end
  | None => false
  end.
Definition synced (on_disk : option rstring) (sidecar : option Sidecar) (text : rstring) : bool :=
  bool_decide (on_disk = Some text) &&
  match sidecar with Some sc => bool_decide (last_synced_text sc = text) | None => false end.

Definition project_file_inner (file : Path) (force : bool) : M SyncOutcome :=
  container ← sm_lift (container_id vault_root file);
  st ← get_store;
  let text := st_text container st in
  d ← get_disk;
  on_disk_text ← sm_lift match fs_read (os file) d with
                         | Ok b => Ok (from_utf8 b)
                         | Err Vfs.NotFound => Ok None
                         | Err e => Err (FIo e)
                         end;
  sidecar ← load_sidecar container;
  if synced on_disk_text sidecar text then mret unchanged
  else if negb force && dirty on_disk_text sidecar text then sm_fail (DirtyFile file)
  else
    _ ← sm_lift (ensure_within_vault file d);
    _ ← on_disk (create_parent (os file));
    _ ← atomic_write file (utf8 text);
    _ ← sidecar_store (mkSidecar SIDECAR_VERSION container (text_hash text) text) container;
    mret changed_no_ops.

Definition project_file (file : Path) : M SyncOutcome := project_file_inner file false.
Definition project_file_forced (file : Path) : M SyncOutcome := project_file_inner file true.

Definition project_blob (file : Path) (hash : rstring) : M SyncOutcome :=
  d ← get_disk;
  _ ← sm_lift (ensure_within_vault file d);
  st ← get_store;
  b ← sm_lift (map_err FStorage (st_blob_get hash st));
  match b with
  | None => mret unchanged
  | Some b =>
      if fs_exists (os file) d then mret unchanged
      else
        _ ← on_disk (create_parent (os file));
        _ ← atomic_write file b;
        container ← sm_lift (container_id vault_root file);
        _ ← write_blob_marker container;
        mret changed_no_ops
  end.

(** *** The walk: regular files below a directory, in the order the system lists them.
    Running out of [fuel] levels is an error. *)
Fixpoint collect_vault_files (fuel : nat) (dir : Path) (d : D) : result FilesError (list Path) :=
  match fuel with
  | O => Err (FIo InvalidInput)
  | Datatypes.S fuel =>
      match fs_read_dir (os dir) d with
      | Err Vfs.NotFound => Ok []
      | Err e => Err (FIo e)
      | Ok es =>
          fmap (M := result FilesError) (@List.concat Path) (collect ((λ e : path,
                 let p := push dir (default [] (last e)) in
                 if is_symlink e d then Ok []
                 else if is_hidden p then Ok []
                 else if fs_is_dir e d then collect_vault_files fuel p d
                 else if is_internal_sidecar p then Ok [] else Ok [p]) <$> es))
      end
  end.

(** *** Reconciling *)
Abbreviation Outcomes := (list (Path * SyncOutcome)).
Definition report (file : Path) (o : SyncOutcome) : Outcomes := if changed o then [(file, o)] else [].

(** Step 1 on a device that may not write: local text edits are reverted. *)
Definition revert_local (file : Path) : M Outcomes :=
  d ← get_disk;
  if match fs_read (os file) d with Ok b => bool_decide (is_Some (from_utf8 b)) | Err _ => false end then
    o ← project_file_forced file; mret (report file o)
  else mret [].
Definition import_local (file : Path) : M Outcomes := o ← import_file file; mret [(file, o)].

(** Step 1b: a present text file without any entry gets one. *)
Definition heal_entry (key : rstring) : M unit :=
  st ← get_store;
  d ← get_disk;
  if bool_decide (is_Some (st_get_entry FILESET_MAP_ID key st)) then mret tt
  else if negb (fs_exists (os (sidecar_path meta_dir key)) d) then mret tt
  else set_file_entry key (mkFileEntry Text Live (text_hash (st_text key st)) None None).

(** Step 2: a live entry whose file is gone although this device had it. *)
Definition tombstone_missing (present : gset rstring) (kv : rstring * rstring) : M Outcomes :=
  let '(key, value) := kv in
  entry ← sm_lift (ok_or (from_value value) FEntry);
  if bool_decide (fe_status entry ≠ Live) || bool_decide (key ∈ present) then mret []
  else
    let file := key_to_path vault_root key in
    d ← get_disk;
    if bool_decide (fe_kind entry = BlobKind) then
      if fs_exists (os (blob_marker_path meta_dir key)) d then
        _ ← write_tombstone key BlobKind (content_hash entry);
        _ ← disk_remove_if_present (blob_marker_path meta_dir key);
        mret [(file, changed_no_ops)]
      else mret []
    else if negb (fs_exists (os (sidecar_path meta_dir key)) d) then mret []
    else
      st ← get_store;
      let hash := match sidecar_load key d with
                  | Ok (Some sc) => last_synced_hash sc
                  | _ => text_hash (st_text key st)
                  end in
      _ ← write_tombstone key (fe_kind entry) hash;
      _ ← disk_remove_if_present (sidecar_path meta_dir key);
      mret [(file, changed_no_ops)].

(** [match project { Err(DirtyFile) => on_dirty, .. }] *)
Definition unless_dirty {A} (m : M A) (on_dirty : A) : M A := λ s,
  match m s with
  | (Err (DirtyFile _), s) => (Ok on_dirty, s)
  | r => r
  end.

(** Step 3: one entry of the map onto disk. *)
Definition apply_live (present : gset rstring) (key : rstring) (entry : FileEntry) (file : Path) : M Outcomes :=
  if bool_decide (fe_kind entry = BlobKind) then
    o ← project_blob file (content_hash entry); mret (report file o)
  else
    d ← get_disk;
    if bool_decide (key ∉ present) && negb (fs_exists (os (sidecar_path meta_dir key)) d) then
      o ← project_file file; mret [(file, o)]
    else if bool_decide (key ∈ present) then
      unless_dirty (o ← project_file file; mret (report file o)) []
    else mret [].

Definition apply_tombstone (present : gset rstring) (key : rstring) (entry : FileEntry) (file : Path) : M Outcomes :=
  if bool_decide (fe_kind entry = BlobKind) then
    out ← (if bool_decide (key ∈ present)
           then _ ← disk_remove_if_present file; mret [(file, changed_no_ops)]
           else mret []);
    _ ← disk_remove_if_present (blob_marker_path meta_dir key);
    _ ← disk_remove_if_present (sidecar_path meta_dir key);
    mret out
  else if bool_decide (key ∉ present) then
    _ ← disk_remove_if_present (sidecar_path meta_dir key); mret []
  else
    st ← get_store;
    let current_hash := text_hash (st_text key st) in
    if bool_decide (current_hash = content_hash entry) then
      _ ← disk_remove_if_present file;
      _ ← disk_remove_if_present (sidecar_path meta_dir key);
      mret [(file, changed_no_ops)]
    else
      _ ← set_file_entry key (mkFileEntry (fe_kind entry) Live current_hash None None);
      unless_dirty (o ← project_file file; mret [(file, o)]) [(file, changed_no_ops)].

Definition apply_remote (present : gset rstring) (kv : rstring * rstring) : M Outcomes :=
  let '(key, value) := kv in
  entry ← sm_lift (ok_or (from_value value) FEntry);
  let file := key_to_path vault_root key in
  d ← get_disk;
  match ensure_within_vault file d with
  | Err _ => mret []
  | Ok _ =>
      match fe_status entry with
      | Live => apply_live present key entry file
      | Tombstoned => apply_tombstone present key entry file
      end
  end.

(** [HashSet<PathBuf>::contains]: paths are equal when their components are. *)
Definition hinted (hint : option (list Path)) (f : Path) : bool :=
  match hint with
  | None => true
  | Some set => existsb (λ g, bool_decide (components g = components f)) set
  end.

Definition scan_gc (hint : option (list Path)) : M Outcomes :=
  d ← get_disk;
  files ← sm_lift (collect_vault_files depth vault_root d);
  let files := merge_sort path_le files in
  keys ← sm_lift (collect (container_id vault_root <$> files));
  let present : gset rstring := list_to_set keys in
  let to_import := filter (λ f, hinted hint f = true) files in
  st ← get_store;
  let read_only := negb (st_may_write st) in
  out1 ← sm_flat (if read_only then revert_local else import_local) to_import;
  out2 ← (if read_only then mret []
          else
            _ ← sm_iter heal_entry (hash_order present);
            st ← get_store;
            sm_flat (tombstone_missing present) (st_entries FILESET_MAP_ID st));
  st ← get_store;
  out3 ← sm_flat (apply_remote present) (st_entries FILESET_MAP_ID st);
  mret (out1 ++ out2 ++ out3).
Definition scan : M Outcomes := scan_gc None.
Definition scan_hinted (hint : option (list Path)) : M Outcomes := scan_gc hint.

(** *** Restoring *)
Definition list_deleted (st : St) : list Path :=
  omap (λ kv, match from_value kv.2 with
              | Some e => if bool_decide (fe_status e = Tombstoned) then Some (key_to_path vault_root kv.1) else None
              | None => None
              end) (st_entries FILESET_MAP_ID st).

Definition resurrect (file : Path) : M SyncOutcome :=
  st ← get_store;
  if negb (st_may_write st) then sm_fail ReadOnly
  else
    key ← sm_lift (container_id vault_root file);
    value ← sm_lift (ok_or (st_get_entry FILESET_MAP_ID key st) (FNotFound file));
    entry ← sm_lift (ok_or (from_value value) FEntry);
    let live := to_live entry in
    _ ← set_file_entry key live;
    match fe_kind live with
    | BlobKind => project_blob file (content_hash live)
    | Text => project_file file
    end.

Definition restore_paths (files : list Path) : M Outcomes :=
  st ← get_store;
  if negb (st_may_write st) then sm_fail ReadOnly
  else sm_flat (λ file, o ← resurrect file; mret [(file, o)]) files.

Definition restore_all : M Outcomes :=
  st ← get_store;
  if negb (st_may_write st) then sm_fail ReadOnly
  else restore_paths (list_deleted st).

Definition rename_file (from to : Path) : M SyncOutcome :=
  st ← get_store;
  if negb (st_may_write st) then sm_fail ReadOnly
  else
    from_container ← sm_lift (container_id vault_root from);
    to_container ← sm_lift (container_id vault_root to);
    if bool_decide (from_container = to_container) then mret unchanged
    else
      d ← get_disk;
      _ ← (if fs_exists (os from) d then _ ← import_file from; mret tt else mret tt);
      st ← get_store;
      let text := st_text from_container st in
      _ ← (if bool_decide (text = []) then mret tt else on_store (st_edit_text to_container 0 text));
      let hash := text_hash text in
      _ ← set_file_entry to_container (mkFileEntry Text Live hash (Some from_container) None);
      _ ← write_tombstone from_container Text hash;
      _ ← project_file to;
      _ ← disk_remove_if_present from;
      _ ← disk_remove_if_present (sidecar_path meta_dir from_container);
      mret changed_no_ops.

Definition restore_blob_version (file : Path) (before_ts : Z) : M SyncOutcome :=
  st ← get_store;
  if negb (st_may_write st) then sm_fail ReadOnly
  else
    key ← sm_lift (container_id vault_root file);
    v ← sm_lift (map_err FStorage (st_historical_entry FILESET_MAP_ID key before_ts st));
    value ← sm_lift (ok_or v (NoBlobHistory file));
    entry ← sm_lift (ok_or (from_value value) FEntry);
    if bool_decide (fe_kind entry ≠ BlobKind) then sm_fail (NoBlobHistory file)
    else if negb (st_blob_has (content_hash entry) st) then sm_fail (NoBlobHistory file)
    else
      let live := to_live entry in
      _ ← set_file_entry key live;
      project_blob file (content_hash live).

Definition revert_file (file : Path) (target : Fr) : M SyncOutcome :=
  st ← get_store;
  if negb (st_may_write st) then sm_fail ReadOnly
  else
    container ← sm_lift (container_id vault_root file);
    _ ← on_store (st_revert_text container target);
    project_file file.
End bridge.
