(* ===== verification/BridgeSpec.v ===== *)
(** * What the folder bridge does to disk and store

    The contract between the bridge and the store ([VaultStoreLaws]), the effect of
    the disk helpers, and the theorems on import, projection, deletion, renaming and
    the reconcile steps. *)
From S2P Require Import Prelude RustStr Vfs Roster Wire Keychain Blob Textdiff Rebase Paths Bridge.

(** ** The store's promises

    [st_map] is the file-set map and [st_live] says that persisting works.  A failing
    call may have changed the document already: the source edits it before it
    persists. *)
Section effects.
Context {St Fr : Type} `{VaultStore St Fr}.
Definition same_texts (st st' : St) : Prop := ∀ id, st_text id st' = st_text id st.
Definition same_rest (st st' : St) : Prop :=
  st_may_write st' = st_may_write st ∧ ∀ h, st_blob_get h st' = st_blob_get h st.
Definition text_effect (id : rstring) (o : TextOp) (st : St) (r : result StorageError unit) (st' : St) : Prop :=
  (∀ id', id' ≠ id → st_text id' st' = st_text id' st) ∧
  match r with
  | Ok _ => apply_op (st_text id st) o = Some (st_text id st')
  | Err _ => st_text id st' = st_text id st ∨ apply_op (st_text id st) o = Some (st_text id st')
  end.
End effects.

Class VaultStoreLaws (St Fr : Type) `{Crypto, VaultStore St Fr} := {
  st_map : St → gmap rstring rstring;
  st_inv : St → Prop;
  st_live : St → Prop;
  st_get_entry_spec k st : st_get_entry FILESET_MAP_ID k st = st_map st !! k;
  st_entries_spec st :
    NoDup (st_entries FILESET_MAP_ID st).*1 ∧
    ∀ k v, (k, v) ∈ st_entries FILESET_MAP_ID st ↔ st_map st !! k = Some v;
  st_edit_text_spec id p t st : st_inv st →
    let '(r, st') := st_edit_text id p t st in
    st_inv st' ∧ same_rest st st' ∧ st_map st' = st_map st ∧ text_effect id (OpInsert p t) st r st' ∧
    (st_live st → st_live st' ∧ (is_Some (apply_op (st_text id st) (OpInsert p t)) → r = Ok tt));
  st_delete_text_spec id p n st : st_inv st →
    let '(r, st') := st_delete_text id p n st in
    st_inv st' ∧ same_rest st st' ∧ st_map st' = st_map st ∧ text_effect id (OpDelete p n) st r st' ∧
    (st_live st → st_live st' ∧ (is_Some (apply_op (st_text id st) (OpDelete p n)) → r = Ok tt));
  st_set_entry_spec k v st : st_inv st →
    let '(r, st') := st_set_entry FILESET_MAP_ID k v st in
    st_inv st' ∧ same_rest st st' ∧ same_texts st st' ∧
    (match r with
     | Ok _ => st_map st' = <[k := v]> (st_map st)
     | Err _ => st_map st' = st_map st ∨ st_map st' = <[k := v]> (st_map st)
     end) ∧
    (st_live st → st_live st' ∧ r = Ok tt);
  st_blob_put_spec b st : st_inv st →
    let '(r, st') := st_blob_put b st in
    st_inv st' ∧ same_texts st st' ∧ st_map st' = st_map st ∧ st_may_write st' = st_may_write st ∧
    (∀ h, h ≠ blob_hash b → st_blob_get h st' = st_blob_get h st) ∧
    (st_live st → st_live st') ∧
    match r with
    | Ok h => h = blob_hash b ∧ (st_blob_get h st' = Ok (Some b) ∨ st_blob_get h st' = st_blob_get h st)
    | Err _ => True
    end;
  st_blob_remove_spec h st : st_inv st →
    let '(r, st') := st_blob_remove h st in
    st_inv st' ∧ same_texts st st' ∧ st_map st' = st_map st ∧ st_may_write st' = st_may_write st ∧
    (∀ h', h' ≠ h → st_blob_get h' st' = st_blob_get h' st);
}.

(** ** Running the monad *)
(** Calls that only read the state or check a pure result. *)
Ltac pure_steps H := unfold get_store, get_disk, sm_lift in H; unfold mbind, SM_bind in H; cbn beta iota in H.

(** ** Computations that leave the store alone *)
Section keeps.
Context {D St : Type}.
Abbreviation BM A := (SM (BridgeState D St) FilesError A).

Definition keeps_store {A} (m : BM A) : Prop := ∀ s, bs_store (m s).2 = bs_store s.

Lemma keeps_bind {A B} (m : BM A) (k : A → BM B) :
  keeps_store m → (∀ a, keeps_store (k a)) → keeps_store (m ≫= k).
Proof.
  intros Hm Hk s. unfold mbind, SM_bind. specialize (Hm s). destruct (m s) as [[a|e] s1]; simpl in *; [|done].
  by rewrite Hk.
Qed.
Lemma keeps_ret {A} (a : A) : keeps_store (mret a : BM A).
Proof. done. Qed.
Lemma keeps_fail {A} e : keeps_store (sm_fail e : BM A).
Proof. done. Qed.
Lemma keeps_lift {A} (r : result FilesError A) : keeps_store (sm_lift r : BM A).
Proof. done. Qed.
Lemma keeps_lift_bind {A B} (r : result FilesError A) (k : A → BM B) :
  (∀ a, r = Ok a → keeps_store (k a)) → keeps_store (sm_lift r ≫= k).
Proof. intros Hk s. unfold mbind, SM_bind, sm_lift. destruct r; [by apply Hk|done]. Qed.
Lemma keeps_on_disk {A} (m : SM D io_error A) : keeps_store (on_disk m).
Proof. intros s. unfold on_disk. by destruct (m (bs_disk s)). Qed.
Lemma keeps_get_disk : keeps_store get_disk.
Proof. done. Qed.
Lemma keeps_get_store : keeps_store get_store.
Proof. done. Qed.
Lemma keeps_unless_dirty {A} (m : BM A) a : keeps_store m → keeps_store (unless_dirty m a).
Proof. intros Hm s. unfold unless_dirty. specialize (Hm s). by destruct (m s) as [[|[]] ?]. Qed.
Lemma keeps_flat {A B} (f : A → BM (list B)) l : (∀ x, x ∈ l → keeps_store (f x)) → keeps_store (sm_flat f l).
Proof.
  induction l as [|x l IH]; intros Hf; [done|]. simpl. apply keeps_bind; [apply Hf; set_solver|].
  intros ys. apply keeps_bind; [apply IH; set_solver|]. done.
Qed.
End keeps.

#[export] Hint Resolve keeps_ret keeps_fail keeps_lift keeps_on_disk keeps_get_disk keeps_get_store
  keeps_unless_dirty : roam.
(** Follow the code: binds, branches and the calls already known. *)
Ltac solve_keeps :=
  repeat match goal with
  | |- keeps_store (_ ≫= _) => apply keeps_bind; [|intros ?]
  | |- keeps_store (if ?b then _ else _) => destruct b
  | |- keeps_store (match ?x with _ => _ end) => destruct x
  | |- keeps_store (let '(_, _) := ?x in _) => destruct x
  | |- keeps_store _ => solve [eauto with roam]
  | _ => progress intros
  end.

(** ** Disk helpers *)
Section disk.
Context {D : Type} `{VaultFsLaws D}.
Implicit Types d : D.

Lemma fs_read_file p d b : fs_inv d → files d !! p = Some b → fs_read p d = Ok b.
Proof. intros Hi Hf. by rewrite fs_read_spec, Hf. Qed.
Lemma fs_read_missing p d : fs_inv d → files d !! p = None → fs_read p d = Err NotFound.
Proof. intros Hi Hf. by rewrite fs_read_spec, Hf. Qed.

Lemma remove_quietly_spec p d :
  fs_inv d → fs_path p → fs_inv (remove_quietly p d) ∧ files (remove_quietly p d) = delete p (files d).
Proof.
  intros Hi Hp. unfold remove_quietly. pose proof (fs_remove_file_spec p d Hi Hp) as Hr.
  destruct (fs_remove_file p d) as [r d']. destruct Hr as [Hi' Hr]. simpl. split; [done|].
  destruct (files d !! p) eqn:E; destruct Hr as [_ ->]; [done|]. by rewrite delete_id.
Qed.

Lemma create_parent_spec p d :
  fs_inv d → let '(r, d') := create_parent p d in r = Ok tt ∧ fs_inv d' ∧ files d' = files d.
Proof. intros Hi. unfold create_parent. destruct (parent p); [by apply fs_create_dir_all_spec|done]. Qed.

(** Writing a temporary file and renaming it: all or nothing. *)
Definition write_then_rename (temp p : path) (b : bytes) (clean : bool) : SM D io_error unit := λ d,
  match fs_write temp b d with
  | (Err e, d) => (Err e, if clean then remove_quietly temp d else d)
  | (Ok _, d) => rename_or_clean temp p d
  end.
Lemma write_then_rename_spec temp p b clean d :
  fs_inv d → fs_path temp → fs_path p → temp ≠ p →
  let '(r, d') := write_then_rename temp p b clean d in
  fs_inv d' ∧
  match r with
  | Ok _ => files d' = <[p := b]> (delete temp (files d))
  | Err _ => delete temp (files d') = delete temp (files d)
  end.
Proof.
  intros Hi Ht Hp Hne. unfold write_then_rename.
  pose proof (fs_write_spec temp b d Hi Ht) as Hw. destruct (fs_write temp b d) as [[u|e] d1]; destruct Hw as [Hi1 Hf1].
  - simpl in Hf1. unfold rename_or_clean. pose proof (fs_rename_spec temp p d1 Hi1 Ht Hp Hne) as Hr.
    rewrite Hf1, lookup_insert_eq in Hr. destruct (fs_rename temp p d1) as [[v|e] d2]; destruct Hr as [Hi2 Hf2].
    + split; [done|]. rewrite Hf2. simpl. by rewrite delete_insert_eq.
    + destruct (remove_quietly_spec temp d2 Hi2 Ht) as [Hi3 Hf3]. split; [done|]. rewrite Hf3, Hf2. simpl.
      by rewrite delete_delete_eq, delete_insert_eq.
  - destruct clean; simpl; [|by rewrite Hf1].
    destruct (remove_quietly_spec temp d1 Hi1 Ht) as [Hi2 Hf2]. split; [done|].
    by rewrite Hf2, Hf1, delete_delete_eq.
Qed.
End disk.

(** ** The bridge's steps *)
Section steps.
Context `{CryptoI : Crypto, SimI : Similar, !SimilarLaws, NfcI : Nfc}.
Context `{FeI : JsonOf FileEntry, !JsonText FileEntry, ScI : JsonOf Sidecar, !JsonText Sidecar}.
Context {D St Fr : Type} `{VaultFsLaws D, StI : VaultStore St Fr, !VaultStoreLaws St Fr}.
Variable vault_root meta_dir : Path.
Variable single_version_threshold : option N.
Implicit Types s : BridgeState D St.

(** The files kept for a key: its sidecar, the sidecar's temporary file, its blob
    marker. *)
Abbreviation sp key := (os (sidecar_path meta_dir key)).
Abbreviation spt key := (os (sidecar_path meta_dir key ++ str ".tmp")).
Abbreviation mp key := (os (blob_marker_path meta_dir key)).
Abbreviation tmp file := (os (file ++ str ".tmp")).

(** The paths the bridge touches for one file are distinct and can be named. *)
Definition separate (file : Path) (key : rstring) : Prop :=
  Forall fs_path [os file; tmp file; sp key; spt key; mp key] ∧
  NoDup [os file; tmp file; sp key; spt key; mp key].

(** Metadata lies outside the vault. *)
Definition unrelated (p q : path) : Prop := ¬ p `prefix_of` q ∧ ¬ q `prefix_of` p.
Definition roots_apart : Prop :=
  unrelated (os vault_root) (os meta_dir ++ [str "sidecars"]) ∧
  unrelated (os vault_root) (os meta_dir ++ [str "blobmarkers"]).

Lemma unrelated_app (p q x y : path) : unrelated p q → p ++ x ≠ q ++ y.
Proof.
  intros [Hp Hq] Heq. destruct (prefix_weak_total p q (p ++ x)) as [?|?]; [by apply prefix_app_r| |done..].
  rewrite Heq. by apply prefix_app_r.
Qed.

(** Every key made of ordinary names is [separate] when metadata lies outside. *)
Lemma separate_key ns n :
  roots_apart → (∀ p, fs_path p) → Forall (λ m, good_name m = true) ns → good_name n = true →
  separate (key_to_path vault_root (join_on SLASH (ns ++ [n]))) (join_on SLASH (ns ++ [n])).
Proof.
  intros [Hs Hm] Hfs Hns Hn. split; [by repeat constructor|].
  assert (split_on SLASH (join_on SLASH (ns ++ [n])) = ns ++ [n]) as Hsplit.
  { apply split_join; [by destruct ns|]. apply Forall_app. split; [|constructor; [|done]].
    - eapply Forall_impl; [exact Hns|]. intros m Hm'%good_name_spec. naive_solver.
    - apply good_name_spec in Hn. naive_solver. }
  assert (∀ suf, 2 < length suf → bool_decide (SLASH ∉ suf) = true → good_name (n ++ suf) = true) as Hg
    by (intros suf ? ?%bool_decide_eq_true; by apply good_name_suffix).
  assert (∀ d x, good_name x = true → os (push d x) = os d ++ [x]) as Hdir
    by (intros d x Hx; apply (normalize_push_names d [x]); [done|by constructor]).
  unfold key_to_path, sidecar_path, blob_marker_path. rewrite Hsplit. unfold os.
  rewrite <-!(assoc_L app (foldl push _ _)).
  rewrite !normalize_suffix by (done || (apply Hg; [simpl; lia|reflexivity])).
  rewrite normalize_push_names; [|by destruct ns|apply Forall_app; split; [done|by constructor]].
  fold (os (push meta_dir (str "sidecars"))) (os (push meta_dir (str "blobmarkers"))) (os vault_root).
  rewrite !Hdir by done.
  repeat (constructor; [rewrite ?not_elem_of_cons; split_and!; try apply not_elem_of_nil|]); try done;
    try (by apply unrelated_app).
  - intros Hx%app_inv_head%app_inv_head. injection Hx as Hx%(f_equal length). rewrite length_app in Hx. simpl in Hx. lia.
  - intros Hx%app_inv_head%app_inv_head. injection Hx as Hx%app_inv_head. done.
  - rewrite <-!(assoc_L app). by intros [=]%app_inv_head.
  - rewrite <-!(assoc_L app). by intros [=]%app_inv_head.
  - apply NoDup_singleton.
Qed.

Definition bs_inv s : Prop := fs_inv (bs_disk s) ∧ st_inv (bs_store s).
Abbreviation dfiles s := (files (bs_disk s)).

Lemma on_disk_spec {A} (m : SM D io_error A) s :
  on_disk m s = (map_err FIo (m (bs_disk s)).1, mkBS (m (bs_disk s)).2 (bs_store s)).
Proof. unfold on_disk. by destruct (m (bs_disk s)). Qed.
Lemma on_store_spec {A} (m : SM St StorageError A) s :
  on_store m s = (map_err FStorage (m (bs_store s)).1, mkBS (bs_disk s) (m (bs_store s)).2).
Proof. unfold on_store. by destruct (m (bs_store s)). Qed.

Lemma sidecar_store_eq sc key s :
  sidecar_store meta_dir sc key s =
  (_ ← on_disk (create_parent (sp key)); on_disk (write_then_rename (spt key) (sp key) (utf8 (to_json sc)) false)) s.
Proof.
  unfold sidecar_store. unfold mbind, SM_bind. destruct (on_disk (create_parent (sp key)) s) as [[u|e] s1]; [|done].
  rewrite !on_disk_spec. unfold write_then_rename.
  destruct (fs_write (spt key) (utf8 (to_json sc)) (bs_disk s1)) as [[v|e] d]; simpl; [|done].
  done.
Qed.

Lemma sidecar_store_spec sc key s :
  fs_inv (bs_disk s) → fs_path (sp key) → fs_path (spt key) → spt key ≠ sp key →
  let '(r, s') := sidecar_store meta_dir sc key s in
  bs_store s' = bs_store s ∧ fs_inv (bs_disk s') ∧
  match r with
  | Ok _ => dfiles s' = <[sp key := utf8 (to_json sc)]> (delete (spt key) (dfiles s))
  | Err e => (∃ i, e = FIo i) ∧ delete (spt key) (dfiles s') = delete (spt key) (dfiles s)
  end.
Proof.
  intros Hi Hp Ht Hne. rewrite sidecar_store_eq. unfold mbind, SM_bind. rewrite on_disk_spec.
  pose proof (create_parent_spec (sp key) (bs_disk s) Hi) as Hc.
  destruct (create_parent (sp key) (bs_disk s)) as [r1 d1]. destruct Hc as (->&Hi1&Hf1). simpl.
  rewrite on_disk_spec. simpl.
  pose proof (write_then_rename_spec (spt key) (sp key) (utf8 (to_json sc)) false d1 Hi1 Ht Hp Hne) as Hw.
  destruct (write_then_rename _ _ _ _ d1) as [[v|e] d2]; simpl; destruct Hw as [Hi2 Hf2]; rewrite Hf1 in Hf2; naive_solver.
Qed.

Lemma atomic_write_eq file b s :
  atomic_write file b s = on_disk (write_then_rename (tmp file) (os file) b true) s.
Proof. unfold atomic_write, write_then_rename. by rewrite !on_disk_spec. Qed.
Lemma atomic_write_spec file b s :
  fs_inv (bs_disk s) → fs_path (os file) → fs_path (tmp file) → tmp file ≠ os file →
  let '(r, s') := atomic_write file b s in
  bs_store s' = bs_store s ∧ fs_inv (bs_disk s') ∧
  match r with
  | Ok _ => dfiles s' = <[os file := b]> (delete (tmp file) (dfiles s))
  | Err e => (∃ i, e = FIo i) ∧ delete (tmp file) (dfiles s') = delete (tmp file) (dfiles s)
  end.
Proof.
  intros Hi Hp Ht Hne. rewrite atomic_write_eq, on_disk_spec.
  pose proof (write_then_rename_spec (tmp file) (os file) b true (bs_disk s) Hi Ht Hp Hne) as Hw.
  destruct (write_then_rename _ _ _ _ _) as [[v|e] d2]; simpl; naive_solver.
Qed.

Lemma disk_remove_spec file s :
  fs_inv (bs_disk s) → fs_path (os file) →
  ∃ s', disk_remove_if_present file s = (Ok tt, s') ∧ bs_store s' = bs_store s ∧
    fs_inv (bs_disk s') ∧ dfiles s' = delete (os file) (dfiles s).
Proof.
  intros Hi Hp. unfold disk_remove_if_present. rewrite on_disk_spec.
  pose proof (fs_remove_file_spec (os file) (bs_disk s) Hi Hp) as Hr.
  destruct (fs_remove_file (os file) (bs_disk s)) as [r d]. destruct Hr as [Hi' Hr].
  destruct (dfiles s !! os file) eqn:E; destruct Hr as [-> Hf]; eexists; (split; [done|]); simpl; split_and!; try done.
  by rewrite Hf, delete_id.
Qed.

Lemma sidecar_load_some key sc d :
  fs_inv d → files d !! sp key = Some (utf8 (to_json sc)) → sidecar_load meta_dir key d = Ok (Some sc).
Proof.
  intros Hi Hf. unfold sidecar_load, fs_read_to_string. rewrite (fs_read_file _ _ _ Hi Hf).
  rewrite from_utf8_utf8 by apply to_json_scalar. simpl. by rewrite from_to_json.
Qed.
Lemma sidecar_load_none key d :
  fs_inv d → files d !! sp key = None → sidecar_load meta_dir key d = Ok None.
Proof. intros Hi Hf. unfold sidecar_load, fs_read_to_string. by rewrite (fs_read_missing _ _ Hi Hf). Qed.

Lemma set_file_entry_spec key e s :
  bs_inv s →
  let '(r, s') := set_file_entry key e s in
  bs_inv s' ∧ bs_disk s' = bs_disk s ∧ same_rest (bs_store s) (bs_store s') ∧ same_texts (bs_store s) (bs_store s') ∧
  match r with
  | Ok _ => st_map (bs_store s') = <[key := to_value e]> (st_map (bs_store s))
  | Err e' => (∃ i, e' = FStorage i) ∧
      (st_map (bs_store s') = st_map (bs_store s) ∨
       st_map (bs_store s') = <[key := to_value e]> (st_map (bs_store s)))
  end ∧
  (st_live (bs_store s) → st_live (bs_store s') ∧ r = Ok tt).
Proof.
  intros [Hd Hs]. unfold set_file_entry. rewrite on_store_spec.
  pose proof (st_set_entry_spec key (to_value e) (bs_store s) Hs) as He.
  destruct (st_set_entry _ _ _ _) as [[u|e'] st']; simpl; destruct He as (?&?&?&?&Hl).
  - split_and!; try done. intros Hlive. split; [by apply Hl|]. by destruct u.
  - split_and!; try done; [naive_solver|]. intros Hlive. by destruct (Hl Hlive).
Qed.

(** ** The edit loop *)
Lemma store_op_spec id o st :
  st_inv st →
  let '(r, st') := store_op id o st in
  st_inv st' ∧ same_rest st st' ∧ st_map st' = st_map st ∧ text_effect id o st r st' ∧
  (st_live st → st_live st' ∧ (is_Some (apply_op (st_text id st) o) → r = Ok tt)).
Proof. destruct o; [apply st_edit_text_spec|apply st_delete_text_spec]. Qed.

Lemma store_ops_spec id ops st t :
  st_inv st → apply_ops (st_text id st) ops = Some t →
  let '(e, st') := store_ops id ops st in
  st_inv st' ∧ same_rest st st' ∧ st_map st' = st_map st ∧
  (∀ id', id' ≠ id → st_text id' st' = st_text id' st) ∧
  match e with None => st_text id st' = t | Some e => ∃ i, e = FStorage i end ∧
  (st_live st → e = None ∧ st_live st').
Proof.
  revert st. induction ops as [|o ops IH]; intros st Hi Ha; simpl in *.
  { simplify_eq. by split_and!. }
  destruct (apply_op (st_text id st) o) as [t'|] eqn:Ho; [|done]. simpl in Ha.
  pose proof (store_op_spec id o st Hi) as Hs. destruct (store_op id o st) as [[u|e] st1].
  - destruct Hs as (Hi1&[Hw1 Hb1]&Hm1&[Ht1 He1]&Hl1). assert (t' = st_text id st1) as -> by congruence.
    specialize (IH st1 Hi1 Ha). destruct (store_ops id ops st1) as [e2 st2].
    destruct IH as (Hi2&[Hw2 Hb2]&Hm2&Ht2&He2&Hl2). split_and!; try done.
    + split; [congruence|]. intros h. by rewrite Hb2, Hb1.
    + congruence.
    + intros id' Hne. rewrite Ht2 by done. by apply Ht1.
    + intros Hlive. apply Hl2. by apply Hl1.
  - destruct Hs as (Hi1&Hr1&Hm1&[Ht1 He1]&Hl1). split_and!; try done; [by eexists|].
    intros Hlive. destruct (Hl1 Hlive) as [_ Hr]. rewrite Ho in Hr. by specialize (Hr (ex_intro _ t' eq_refl)).
Qed.

(** ** Import *)
Definition live_text (L : rstring) : FileEntry := mkFileEntry Text Live (text_hash L) None None.
Definition synced_at (key t : rstring) : Sidecar := mkSidecar SIDECAR_VERSION key (text_hash t) t.

(** The text the store must hold after importing [L]: [L] itself when the store is
    at the last synced text, otherwise the three-way merge. *)
Definition import_target (osc : option Sidecar) (R L : rstring) : rstring :=
  let A := match osc with Some sc => last_synced_text sc | None => R end in
  if bool_decide (R = A) then L else weave (atoms (from_chars A L)) (atoms (from_chars A R)).

Lemma import_target_eq osc R L :
  fst (if bool_decide (R = match osc with Some sc => last_synced_text sc | None => R end) then (L, [])
       else merged (merge_local_onto_remote match osc with Some sc => last_synced_text sc | None => R end L R))
  = import_target osc R L.
Proof. unfold import_target. case_bool_decide; [done|]. by rewrite merge_eq. Qed.

Lemma reconcile_sidecar_spec key L X A n e s :
  fs_inv (bs_disk s) → fs_path (sp key) → fs_path (spt key) → spt key ≠ sp key →
  let '(r, s') := reconcile_sidecar meta_dir key L X A n e s in
  bs_store s' = bs_store s ∧ fs_inv (bs_disk s') ∧
  match r with
  | Ok o => o = mkOutcome n true [] ∧ e = None ∧ A = X ∧
      dfiles s' = <[sp key := utf8 (to_json (synced_at key L))]> (delete (spt key) (dfiles s))
  | Err e' =>
      ((∃ i, e' = FIo i) ∧ delete (spt key) (dfiles s') = delete (spt key) (dfiles s)) ∨
      ((e = Some e' ∨ e = None ∧ A ≠ X ∧ e' = Desync key) ∧
       dfiles s' = <[sp key := utf8 (to_json (synced_at key A))]> (delete (spt key) (dfiles s)))
  end.
Proof.
  intros Hi Hp Ht Hne. unfold reconcile_sidecar.
  destruct (bool_decide (e = None) && bool_decide (A = X)) eqn:Hok.
  - apply andb_true_iff in Hok as [->%bool_decide_eq_true ->%bool_decide_eq_true].
    pose proof (sidecar_store_spec (synced_at key L) key s Hi Hp Ht Hne) as Hs.
    unfold mbind, SM_bind. fold (synced_at key L). destruct (sidecar_store _ _ _ s) as [[u|i] s1]; naive_solver.
  - pose proof (sidecar_store_spec (synced_at key A) key s Hi Hp Ht Hne) as Hs.
    unfold mbind, SM_bind. fold (synced_at key A). destruct (sidecar_store _ _ _ s) as [[u|i] s1]; [|naive_solver].
    destruct Hs as (?&?&Hf). destruct e as [e|]; simpl; split_and!; try done; right; (split; [|done]); [by left|right].
    split_and!; try done. by apply bool_decide_eq_false in Hok.
Qed.

Lemma import_text_spec key L s osc :
  bs_inv s → fs_path (sp key) → fs_path (spt key) → spt key ≠ sp key →
  sidecar_load meta_dir key (bs_disk s) = Ok osc →
  let R := st_text key (bs_store s) in
  let X := import_target osc R L in
  let '(r, s') := import_text meta_dir key L s in
  let st := bs_store s in let st' := bs_store s' in
  bs_inv s' ∧ same_rest st st' ∧ (∀ id, id ≠ key → st_text id st' = st_text id st) ∧
  (diff_to_ops R X = [] → r = Ok unchanged ∧ s' = s) ∧
  match r with
  | Ok o =>
      o = unchanged ∧ s' = s ∧ X = R ∧ diff_to_ops R X = [] ∨
      changed o = true ∧ st_text key st' = X ∧ diff_to_ops R X ≠ [] ∧
      st_map st' = <[key := to_value (live_text L)]> (st_map st) ∧
      dfiles s' = <[sp key := utf8 (to_json (synced_at key L))]> (delete (spt key) (dfiles s))
  | Err e =>
      (∃ i, e = FIo i) ∧ st_map st' = st_map st ∧ delete (spt key) (dfiles s') = delete (spt key) (dfiles s) ∨
      (∃ i, e = FStorage i) ∧ st_map st' = st_map st ∧
        dfiles s' = <[sp key := utf8 (to_json (synced_at key (st_text key st')))]> (delete (spt key) (dfiles s)) ∨
      (∃ i, e = FStorage i) ∧ st_text key st' = X ∧
        dfiles s' = <[sp key := utf8 (to_json (synced_at key L))]> (delete (spt key) (dfiles s))
  end ∧
  (st_live st → st_live st' ∧ (∀ e, r = Err e → ∃ i, e = FIo i)).
Proof.
  intros [Hd Hs] Hp Ht Hne Hsc R X. unfold import_text, load_sidecar, get_store. unfold mbind, SM_bind. rewrite Hsc.
  cbn beta iota. fold R. pose proof (import_target_eq osc R L) as HX. fold X in HX.
  destruct (if bool_decide (R = _) then _ else _) as [X' cs]. simpl in HX. subst X'.
  case_bool_decide as Hops.
  { split_and!; try done. left. split_and!; try done.
    pose proof (diff_to_ops_bounded_applies R X DIFF_MAX_CHARS) as Ha. unfold diff_to_ops in Hops.
    rewrite Hops in Ha. by injection Ha. }
  pose proof (store_ops_spec key (diff_to_ops R X) (bs_store s) X Hs (diff_to_ops_bounded_applies _ _ _)) as Ho.
  destruct (store_ops key (diff_to_ops R X) (bs_store s)) as [e st1]. destruct Ho as (Hi1&Hr1&Hm1&Ht1&He1&Hl1).
  cbn beta iota. cbn [bs_store bs_disk].
  pose proof (reconcile_sidecar_spec key L X (st_text key st1) (length (diff_to_ops R X)) e
                (mkBS (bs_disk s) st1) Hd Hp Ht Hne) as Hrec.
  destruct (reconcile_sidecar _ _ _ _ _ _ _ _) as [[o|e'] s2]; cbn [bs_disk bs_store] in Hrec;
    destruct Hrec as (Hst2&Hd2&Hrec).
  - destruct Hrec as (->&->&Hact&Hf2).
    assert (bs_inv s2) as Hinv2 by (split; [done|by rewrite Hst2]).
    pose proof (set_file_entry_spec key (live_text L) s2 Hinv2) as Hent. fold (live_text L).
    destruct (set_file_entry key (live_text L) s2) as [[u|e3] s3];
      destruct Hent as (Hinv3&Hd3&Hr3&Htx3&Hm3&Hl3); rewrite Hst2 in *.
    + split_and!; try done.
      * destruct Hr1, Hr3. split; [congruence|]. intros h. congruence.
      * intros id Hid. rewrite Htx3. by apply Ht1.
      * right. rewrite Htx3, Hd3, Hm3, Hf2, Hm1. by split_and!.
      * intros Hlive. split; [|done]. apply Hl3. by apply Hl1.
    + split_and!; try done.
      * destruct Hr1, Hr3. split; [congruence|]. intros h. congruence.
      * intros id Hid. rewrite Htx3. by apply Ht1.
      * right; right. rewrite Htx3, Hd3, Hf2. split_and!; naive_solver.
      * intros Hlive. destruct (Hl3 (proj2 (Hl1 Hlive))) as [_ ?]. done.
  - split_and!; try done.
    + by split; [|rewrite Hst2].
    + by rewrite Hst2.
    + rewrite Hst2. done.
    + rewrite Hst2. destruct Hrec as [[Hio Hf]|[[->|(->&Hne'&->)] Hf]].
      * left. by split_and!.
      * right; left. simpl in He1. by split_and!.
      * done.
    + intros Hlive. destruct (Hl1 Hlive) as [-> Hlive1]. rewrite Hst2. split; [done|].
      intros e0 [= ->]. destruct Hrec as [[Hio _]|[[?|(_&Hne'&_)] _]]; done.
Qed.

(** *** The import of a text file *)
Abbreviation import := (import_file vault_root meta_dir single_version_threshold).

(** An import gets past its guards and reads text. *)
Definition importable (file : Path) (key L : rstring) s : Prop :=
  st_may_write (bs_store s) = true ∧ container_id vault_root file = Ok key ∧
  live_case_collision (bs_store s) key = None ∧
  dfiles s !! os file = Some (utf8 L) ∧ forallb is_scalar L = true.

Lemma import_text_file file key L s :
  bs_inv s → importable file key L s → import file s = import_text meta_dir key L s.
Proof.
  intros [Hd Hs] (Hw&Hid&Hc&Hf&Hsc). unfold import_file. unfold mbind, SM_bind, get_store, sm_lift, get_disk.
  rewrite Hw, Hid. cbn beta iota. rewrite Hc. change (negb true) with false. cbn beta iota.
  rewrite (fs_read_file _ _ _ Hd Hf). cbn. by rewrite from_utf8_utf8.
Qed.



(** ** Projection *)
Variable canonicalize : Path → D → option path.
Abbreviation project := (project_file canonicalize vault_root meta_dir).
Definition disk_text (file : Path) s : option rstring := dfiles s !! os file ≫= from_utf8.

Lemma project_file_inner_spec file key force s osc :
  bs_inv s → separate file key → container_id vault_root file = Ok key →
  sidecar_load meta_dir key (bs_disk s) = Ok osc →
  let T := st_text key (bs_store s) in
  let odisk := disk_text file s in
  let '(r, s') := project_file_inner canonicalize vault_root meta_dir file force s in
  bs_store s' = bs_store s ∧ bs_inv s' ∧
  if synced odisk osc T then r = Ok unchanged ∧ s' = s
  else if negb force && dirty odisk osc T then r = Err (DirtyFile file) ∧ s' = s
  else match ensure_within_vault canonicalize vault_root file (bs_disk s) with
  | Err e => r = Err e ∧ s' = s
  | Ok _ =>
      match r with
      | Ok o => o = changed_no_ops ∧
          dfiles s' = <[sp key := utf8 (to_json (synced_at key T))]>
                        (delete (spt key) (<[os file := utf8 T]> (delete (tmp file) (dfiles s))))
      | Err e => (∃ i, e = FIo i) ∧
          (dfiles s' !! os file = dfiles s !! os file ∨ dfiles s' !! os file = Some (utf8 T))
      end
  end.
Proof.
  intros [Hd Hs] [Hpaths Hnd] Hid Hsc T odisk. unfold project_file_inner.
  rewrite !Forall_cons in Hpaths. destruct Hpaths as (Hp1&Hp2&Hp3&Hp4&_).
  rewrite !NoDup_cons in Hnd. destruct Hnd as (Hn1&Hn2&Hn3&Hn4&_).
  unfold mbind, SM_bind, sm_lift, get_store, get_disk, load_sidecar. rewrite Hid. cbn beta iota. fold T.
  assert (match fs_read (os file) (bs_disk s) with
          | Ok b => Ok (from_utf8 b) | Err NotFound => Ok None | Err e => Err (FIo e) end = Ok odisk) as ->.
  { unfold odisk, disk_text. rewrite fs_read_spec by done. by destruct (dfiles s !! os file). }
  cbn beta iota. rewrite Hsc. cbn beta iota.
  destruct (synced odisk osc T); [by split_and!|].
  destruct (negb force && dirty odisk osc T); [by split_and!|].
  destruct (ensure_within_vault canonicalize vault_root file (bs_disk s)); [|by split_and!].
  rewrite on_disk_spec. pose proof (create_parent_spec (os file) (bs_disk s) Hd) as Hc.
  destruct (create_parent (os file) (bs_disk s)) as [r1 d1]. destruct Hc as (->&Hi1&Hf1). cbn [fst snd map_err].
  pose proof (atomic_write_spec file (utf8 T) (mkBS d1 (bs_store s)) Hi1 Hp1 Hp2 ltac:(set_solver)) as Hw.
  destruct (atomic_write file (utf8 T) _) as [[u|e] s2]; destruct Hw as (Hst2&Hi2&Hf2);
    cbn [bs_store bs_disk] in *; rewrite Hf1 in Hf2.
  - pose proof (sidecar_store_spec (synced_at key T) key s2 Hi2 Hp3 Hp4 ltac:(set_solver)) as Hw.
    fold (synced_at key T). destruct (sidecar_store meta_dir _ key s2) as [[v|e] s3]; destruct Hw as (Hst3&Hi3&Hf3).
    + split_and!; [congruence|split; [done|congruence]|done|]. by rewrite Hf3, Hf2.
    + destruct Hf3 as [He Hf3]. split_and!; [congruence|split; [done|congruence]|done|]. right.
      assert (delete (spt key) (dfiles s3) !! os file = Some (utf8 T)) as Hl.
      { rewrite Hf3, Hf2, lookup_delete_ne, lookup_insert_eq by set_solver. done. }
      by rewrite lookup_delete_ne in Hl by set_solver.
  - destruct Hf2 as [He Hf2]. split_and!; [congruence|split; [done|congruence]|done|]. left.
    apply (f_equal (lookup (os file))) in Hf2. by rewrite !lookup_delete_ne in Hf2 by set_solver.
Qed.

(** ** Imports of bytes that are not text *)

(** At most the blob store differs. *)
Definition only_blobs s s' : Prop :=
  bs_inv s' ∧ bs_disk s' = bs_disk s ∧ same_texts (bs_store s) (bs_store s') ∧
  st_map (bs_store s') = st_map (bs_store s) ∧ st_may_write (bs_store s') = st_may_write (bs_store s).

Lemma blob_put_effect b s h s' :
  bs_inv s → on_store (st_blob_put b) s = (Ok h, s') → only_blobs s s' ∧ h = blob_hash b.
Proof.
  intros [Hd Hs]. rewrite on_store_spec. pose proof (st_blob_put_spec b (bs_store s) Hs) as Hp.
  destruct (st_blob_put b (bs_store s)) as [[h'|e] st']; simpl; [|done]. intros [= <- <-].
  destruct Hp as (?&?&?&?&?&?&?&?). by split_and!.
Qed.
Lemma blob_remove_effect h s r s' :
  bs_inv s → on_store (st_blob_remove h) s = (r, s') → only_blobs s s'.
Proof.
  intros [Hd Hs]. rewrite on_store_spec. pose proof (st_blob_remove_spec h (bs_store s) Hs) as Hp.
  destruct (st_blob_remove h (bs_store s)) as [r' st']; simpl. intros [= _ <-].
  destruct Hp as (?&?&?&?&?). by split_and!.
Qed.

Lemma import_blob_effect key b s o s' :
  bs_inv s → import_blob single_version_threshold key b s = (Ok o, s') →
  bs_inv s' ∧ bs_disk s' = bs_disk s ∧ same_texts (bs_store s) (bs_store s') ∧
  (∀ k, k ≠ key → st_map (bs_store s') !! k = st_map (bs_store s) !! k).
Proof.
  intros Hinv Hrun. unfold import_blob in Hrun. step_ok Hrun st s0 Hg. injection Hg as <- <-.
  step_ok Hrun h s1 Hput. destruct (blob_put_effect _ _ _ _ Hinv Hput) as [(Hi1&Hd1&Ht1&Hm1&Hw1) ->].
  step_ok Hrun st1 s1' Hg. injection Hg as <- <-.
  destruct (match get_file_entry key (bs_store s1) with Some _ => _ | None => false end) in Hrun.
  { injection Hrun as _ <-. split_and!; try done. intros k _. by rewrite Hm1. }
  case_bool_decide. { injection Hrun as _ <-. split_and!; try done. intros k _. by rewrite Hm1. }
  step_ok Hrun u s2 Hset.
  pose proof (set_file_entry_spec key (mkFileEntry BlobKind Live (blob_hash b) None None) s1 Hi1) as He.
  unfold set_file_entry in He. rewrite Hset in He. destruct He as (Hi2&Hd2&[Hw2 _]&Ht2&Hm2&_).
  step_ok Hrun st2 s2' Hg. injection Hg as <- <-. step_ok Hrun v s3 Hrel. injection Hrun as _ <-.
  assert (only_blobs s2 s3) as (Hi3&Hd3&Ht3&Hm3&Hw3).
  { assert (mret (M := SM (BridgeState D St) FilesError) tt s2 = (Ok v, s3) → only_blobs s2 s3) as Hret
      by (by intros [= _ <-]).
    destruct single_version_threshold, (content_hash <$> get_file_entry key (bs_store s)); auto.
    destruct (_ && _) in Hrel; eauto using blob_remove_effect. }
  split_and!; [done|congruence| |].
  - intros id. by rewrite Ht3, Ht2, Ht1.
  - intros k Hk. by rewrite Hm3, Hm2, lookup_insert_ne, Hm1.
Qed.

Lemma write_blob_marker_effect key s u s' :
  fs_inv (bs_disk s) → fs_path (mp key) → write_blob_marker meta_dir key s = (Ok u, s') →
  bs_store s' = bs_store s ∧ fs_inv (bs_disk s') ∧ dfiles s' = <[mp key := []]> (dfiles s).
Proof.
  intros Hi Hp Hrun. unfold write_blob_marker in Hrun. step_ok Hrun v s1 Hc. rewrite on_disk_spec in Hc, Hrun.
  pose proof (create_parent_spec (mp key) (bs_disk s) Hi) as Hcp.
  destruct (create_parent (mp key) (bs_disk s)) as [r1 d1]. destruct Hcp as (->&Hi1&Hf1). injection Hc as _ <-.
  cbn [bs_disk] in Hrun. pose proof (fs_write_spec (mp key) [] d1 Hi1 Hp) as Hw.
  destruct (fs_write (mp key) [] d1) as [[?|?] d2]; simpl in Hrun; [|done]. injection Hrun as _ <-.
  destruct Hw as [? Hf]. simpl in *. by rewrite Hf, Hf1.
Qed.

Lemma dirty_spec t osc T :
  dirty (Some t) osc T = true ↔ t ≠ T ∧ ∀ sc, osc = Some sc → t ≠ last_synced_text sc.
Proof.
  unfold dirty. rewrite andb_true_iff, bool_decide_eq_true. destruct osc as [sc|]; [rewrite bool_decide_eq_true|]; naive_solver.
Qed.

(** A projection never overwrites text that was not imported: if the file holds text
    that differs from the store's and from the last synced text, it refuses and
    changes nothing. *)
Theorem dirty_projection_refused file key t s osc :
  bs_inv s → separate file key → container_id vault_root file = Ok key →
  sidecar_load meta_dir key (bs_disk s) = Ok osc →
  dfiles s !! os file = Some (utf8 t) → forallb is_scalar t = true →
  t ≠ st_text key (bs_store s) → (∀ sc, osc = Some sc → t ≠ last_synced_text sc) →
  project file s = (Err (DirtyFile file), s).
Proof.
  intros Hinv Hsep Hid Hsc Hf Hscal Hne Hbase. unfold project_file.
  pose proof (project_file_inner_spec file key false s osc Hinv Hsep Hid Hsc) as Hspec. cbv zeta in Hspec.
  assert (disk_text file s = Some t) as Hdt by (unfold disk_text; rewrite Hf; simpl; by apply from_utf8_utf8).
  rewrite Hdt in Hspec. destruct (project_file_inner _ _ _ file false s) as [r s'].
  destruct Hspec as (_&_&Hspec). unfold synced in Hspec at 1.
  rewrite bool_decide_eq_false_2 in Hspec by congruence. cbn [andb negb] in Hspec.
  rewrite (proj2 (dirty_spec t osc _)) in Hspec by done. by destruct Hspec as [-> ->].
Qed.

Lemma no_collision st key :
  live_case_collision st key = None ↔ ∀ k v, st_map st !! k = Some v → collides key (k, v) = false.
Proof.
  unfold live_case_collision. rewrite fmap_None, head_None.
  destruct (st_entries_spec st) as [_ Hin]. setoid_rewrite <-Hin. split.
  - intros Hf k v Hkv. destruct (collides key (k, v)) eqn:Hc; [|done].
    assert ((k, v) ∈ filter (λ kv, collides key kv = true) (st_entries FILESET_MAP_ID st)) as Hin'
      by (by apply list_elem_of_filter). rewrite Hf in Hin'. by apply not_elem_of_nil in Hin'.
  - intros Hall. destruct (filter _ _) as [|[k v] l] eqn:Hf; [done|]. exfalso.
    assert ((k, v) ∈ filter (λ kv, collides key kv = true) (st_entries FILESET_MAP_ID st)) as Hin'
      by (rewrite Hf; set_solver). apply list_elem_of_filter in Hin' as [Hc Hin'].
    rewrite (Hall _ _ Hin') in Hc. done.
Qed.
Lemma no_collision_insert st st' key v :
  st_map st' = <[key := v]> (st_map st) → live_case_collision st key = None → live_case_collision st' key = None.
Proof.
  intros Hm Hc. apply no_collision. intros k w. rewrite Hm, lookup_insert. case_decide as Hk.
  - intros _. subst k. unfold collides. by rewrite bool_decide_eq_false_2 by naive_solver.
  - intros Hkw. by eapply no_collision.
Qed.

(** Disk, sidecar and store agree on one text. *)
Definition settled (file : Path) (key : rstring) s : Prop :=
  let T := st_text key (bs_store s) in
  dfiles s !! os file = Some (utf8 T) ∧ ∃ sc, sidecar_load meta_dir key (bs_disk s) = Ok (Some sc) ∧ last_synced_text sc = T.

Lemma project_settles file key s o s' osc :
  bs_inv s → separate file key → container_id vault_root file = Ok key →
  sidecar_load meta_dir key (bs_disk s) = Ok osc →
  (∀ b, dfiles s !! os file = Some b → ∃ t, b = utf8 t ∧ forallb is_scalar t = true) →
  project file s = (Ok o, s') → bs_inv s' ∧ bs_store s' = bs_store s ∧ settled file key s'.
Proof.
  intros Hinv Hsep Hid Hsc Htext Hrun. unfold project_file in Hrun.
  pose proof (project_file_inner_spec file key false s osc Hinv Hsep Hid Hsc) as Hspec. cbv zeta in Hspec.
  rewrite Hrun in Hspec. destruct Hspec as (Hst&Hinv'&Hspec). split_and!; [done..|].
  unfold settled. rewrite Hst. set (T := st_text key (bs_store s)) in *.
  destruct (synced (disk_text file s) osc T) eqn:Hsy.
  { destruct Hspec as [_ ->]. unfold synced in Hsy. apply andb_true_iff in Hsy as [Hd%bool_decide_eq_true Hb].
    destruct osc as [sc|]; [|done]. apply bool_decide_eq_true in Hb. split; [|eauto].
    unfold disk_text in Hd. destruct (dfiles s !! os file) as [b|] eqn:Hf; [|done]. simpl in Hd.
    destruct (Htext b eq_refl) as (t&->&Ht). rewrite from_utf8_utf8 in Hd by done. by simplify_eq. }
  destruct (negb false && _); [by destruct Hspec|].
  destruct (ensure_within_vault _ _ _ _); [|by destruct Hspec]. destruct Hspec as [_ Hf].
  destruct Hsep as [_ Hnd]. rewrite !NoDup_cons in Hnd. destruct Hnd as (Hn1&Hn2&Hn3&Hn4&_).
  split; [|exists (synced_at key T); split; [|done]].
  - by rewrite Hf, lookup_insert_ne, lookup_delete_ne, lookup_insert_eq by set_solver.
  - apply sidecar_load_some; [apply Hinv'|]. by rewrite Hf, lookup_insert_eq.
Qed.

Lemma settled_project file key s :
  bs_inv s → separate file key → container_id vault_root file = Ok key → settled file key s →
  forallb is_scalar (st_text key (bs_store s)) = true →
  project file s = (Ok unchanged, s).
Proof.
  intros Hinv Hsep Hid (Hf&sc&Hsc&Ht) HT. unfold project_file.
  pose proof (project_file_inner_spec file key false s _ Hinv Hsep Hid Hsc) as Hspec. cbv zeta in Hspec.
  assert (disk_text file s = Some (st_text key (bs_store s))) as Hdt.
  { unfold disk_text. rewrite Hf. simpl. by apply from_utf8_utf8. }
  destruct (project_file_inner _ _ _ file false s) as [r s']. destruct Hspec as (_&_&Hspec).
  unfold synced in Hspec. rewrite Hdt, !bool_decide_eq_true_2 in Hspec by done. by destruct Hspec as [-> ->].
Qed.

Lemma settled_import file key s :
  bs_inv s → separate file key → settled file key s →
  forallb is_scalar (st_text key (bs_store s)) = true →
  st_may_write (bs_store s) = true → container_id vault_root file = Ok key →
  live_case_collision (bs_store s) key = None →
  (N.of_nat (length (st_text key (bs_store s))) ≤ DIFF_MAX_CHARS)%N →
  import file s = (Ok unchanged, s).
Proof.
  intros Hinv [Hp Hnd] (Hf&sc&Hsc&Ht) HT Hw Hid Hc Hlen. rewrite !Forall_cons in Hp. destruct Hp as (Hp1&Hp2&Hp3&Hp4&_).
  rewrite !NoDup_cons in Hnd. destruct Hnd as (Hn1&Hn2&Hn3&Hn4&_).
  rewrite (import_text_file file key (st_text key (bs_store s))); [|done|].
  2: { by split_and!. }
  pose proof (import_text_spec key (st_text key (bs_store s)) s _ Hinv Hp3 Hp4 ltac:(set_solver) Hsc) as Hspec.
  cbv zeta in Hspec. assert (import_target (Some sc) (st_text key (bs_store s)) (st_text key (bs_store s))
    = st_text key (bs_store s)) as HX.
  { unfold import_target. by rewrite bool_decide_eq_true_2. }
  rewrite HX in Hspec. destruct (import_text meta_dir key _ s) as [r s']. destruct Hspec as (_&_&_&Hr&_).
  destruct Hr as [-> ->]; [by apply diff_to_ops_same|done].
Qed.

(** Importing a file and projecting the store back settles it: afterwards the disk,
    the sidecar and the store hold the same text, the merge of both sides, and
    repeating either operation changes nothing (for texts up to the diff bound; the
    store's text is a string of Unicode scalar values). *)
Theorem import_project_settles file key L s o1 s1 o2 s2 osc :
  bs_inv s → separate file key → importable file key L s →
  sidecar_load meta_dir key (bs_disk s) = Ok osc →
  import file s = (Ok o1, s1) → project file s1 = (Ok o2, s2) →
  st_text key (bs_store s2) = import_target osc (st_text key (bs_store s)) L ∧
  settled file key s2 ∧
  (forallb is_scalar (st_text key (bs_store s2)) = true →
   project file s2 = (Ok unchanged, s2) ∧
   ((N.of_nat (length (st_text key (bs_store s2))) ≤ DIFF_MAX_CHARS)%N → import file s2 = (Ok unchanged, s2))).
Proof.
  intros Hinv Hsep Himp Hsc Hrun1 Hrun2. pose proof Himp as (Hw&Hid&Hc&Hf&HL).
  rewrite (import_text_file file key L) in Hrun1 by done.
  destruct (Hsep) as [Hp Hnd]. rewrite !Forall_cons in Hp. destruct Hp as (Hp1&Hp2&Hp3&Hp4&_).
  rewrite !NoDup_cons in Hnd. destruct Hnd as (Hn1&Hn2&Hn3&Hn4&_).
  pose proof (import_text_spec key L s osc Hinv Hp3 Hp4 ltac:(set_solver) Hsc) as Hspec. cbv zeta in Hspec.
  rewrite Hrun1 in Hspec. destruct Hspec as (Hinv1&[Hw1 _]&_&_&Hr&_).
  assert (∃ osc1, sidecar_load meta_dir key (bs_disk s1) = Ok osc1 ∧ dfiles s1 !! os file = Some (utf8 L) ∧
    st_text key (bs_store s1) = import_target osc (st_text key (bs_store s)) L ∧
    live_case_collision (bs_store s1) key = None) as (osc1&Hsc1&Hf1&Ht1&Hc1).
  { destruct Hr as [(->&->&HX&_)|(_&Ht&_&Hm&Hf')]; [by exists osc|].
    exists (Some (synced_at key L)). split_and!; [| |done|by eapply no_collision_insert].
    - apply sidecar_load_some; [apply Hinv1|]. by rewrite Hf', lookup_insert_eq.
    - by rewrite Hf', lookup_insert_ne, lookup_delete_ne by set_solver. }
  destruct (project_settles file key s1 o2 s2 osc1) as (Hinv2&Hst2&Hset); [done..| |done|].
  { intros b Hb. rewrite Hf1 in Hb. simplify_eq. eauto. }
  split_and!; [by rewrite Hst2|done|]. intros HT. split; [by apply settled_project with key|].
  intros Hlen. apply settled_import with key; try done; rewrite Hst2; [congruence|done].
Qed.

(** *** Read-only devices *)

(** A device without a write role changes nothing: every call that would author an
    operation is refused and leaves disk and store as they were. *)
Theorem read_only_refuses file from to target files ts s :
  st_may_write (bs_store s) = false →
  import file s = (Err ReadOnly, s) ∧
  delete_file vault_root meta_dir file s = (Err ReadOnly, s) ∧
  resurrect canonicalize vault_root meta_dir file s = (Err ReadOnly, s) ∧
  restore_paths canonicalize vault_root meta_dir files s = (Err ReadOnly, s) ∧
  restore_all canonicalize vault_root meta_dir s = (Err ReadOnly, s) ∧
  rename_file canonicalize vault_root meta_dir single_version_threshold from to s = (Err ReadOnly, s) ∧
  restore_blob_version canonicalize vault_root meta_dir file ts s = (Err ReadOnly, s) ∧
  revert_file canonicalize vault_root meta_dir file target s = (Err ReadOnly, s).
Proof.
  intros Hw.
  unfold import_file, delete_file, resurrect, restore_paths, restore_all, rename_file, restore_blob_version,
    revert_file, mbind, SM_bind, get_store. rewrite Hw. by split_and!.
Qed.

(** *** Tombstones *)
Lemma write_tombstone_effect key kind h s u s' :
  bs_inv s → write_tombstone key kind h s = (Ok u, s') →
  bs_inv s' ∧ bs_disk s' = bs_disk s ∧ same_rest (bs_store s) (bs_store s') ∧
  same_texts (bs_store s) (bs_store s') ∧
  ∃ at_, st_map (bs_store s') = <[key := to_value (mkFileEntry kind Tombstoned h None (Some at_))]> (st_map (bs_store s)).
Proof.
  intros Hinv Hrun. unfold write_tombstone in Hrun. step_ok Hrun v s1 Hset1. step_ok Hrun st s1' Hg. injection Hg as <- <-.
  pose proof (set_file_entry_spec key (mkFileEntry kind Tombstoned h None None) s Hinv) as He1. rewrite Hset1 in He1.
  destruct He1 as (Hi1&Hd1&[Hw1 Hb1]&Ht1&Hm1&_).
  pose proof (set_file_entry_spec key (mkFileEntry kind Tombstoned h None
    (Some (hex_encode (st_doc_version_bytes (bs_store s1))))) s1 Hi1) as He2. rewrite Hrun in He2.
  destruct He2 as (Hi2&Hd2&[Hw2 Hb2]&Ht2&Hm2&_). split_and!; [done|congruence| | |].
  - split; [congruence|]. intros h'. by rewrite Hb2, Hb1.
  - intros id. by rewrite Ht2, Ht1.
  - eexists. by rewrite Hm2, Hm1, insert_insert_eq.
Qed.

(** The tombstone's hash of a text file: what this device last synced. *)
Definition tombstone_hash (osc : option Sidecar) (T : rstring) : rstring :=
  match osc with Some sc => last_synced_hash sc | None => text_hash T end.

(** Deleting a text file tombstones its entry with the hash this device last synced,
    not with the store's current text, removes the file and its sidecar from disk and
    keeps every text container. *)
Theorem delete_file_tombstones file key s o s' osc :
  bs_inv s → separate file key → container_id vault_root file = Ok key →
  match get_file_entry key (bs_store s) with Some e => fe_kind e = Text | None => True end →
  sidecar_load meta_dir key (bs_disk s) = Ok osc →
  delete_file vault_root meta_dir file s = (Ok o, s') →
  dfiles s' !! os file = None ∧ dfiles s' !! sp key = None ∧ same_texts (bs_store s) (bs_store s') ∧
  ∃ at_, st_map (bs_store s') !! key =
    Some (to_value (mkFileEntry Text Tombstoned (tombstone_hash osc (st_text key (bs_store s))) None (Some at_))).
Proof.
  intros Hinv [Hp Hnd] Hid Hkind Hsc Hrun. rewrite !Forall_cons in Hp. destruct Hp as (Hp1&Hp2&Hp3&Hp4&_).
  unfold delete_file in Hrun. step_ok Hrun st s0 Hg. injection Hg as <- <-.
  destruct (negb _) in Hrun; [done|]. step_ok Hrun k s0 Hk. unfold sm_lift in Hk. rewrite Hid in Hk.
  injection Hk as <- <-.
  assert (match get_file_entry key (bs_store s) with Some e => fe_kind e | None => Text end = Text) as Hk
    by (by destruct (get_file_entry key (bs_store s))). rewrite Hk in Hrun.
  step_ok Hrun u s1 Hts. step_ok Hts sc0 s0 Hl. unfold load_sidecar in Hl. rewrite Hsc in Hl. injection Hl as <- <-.
  destruct (write_tombstone_effect _ _ _ _ _ _ Hinv Hts) as ([Hd1 Hs1]&He1&_&Ht1&at_&Hm1).
  step_ok Hrun u2 s2 Hr2. destruct (disk_remove_spec file s1 Hd1 Hp1) as (s2'&Hr2'&Hst2&Hd2&Hf2).
  rewrite Hr2 in Hr2'. injection Hr2' as _ <-.
  step_ok Hrun u3 s3 Hr3. destruct (disk_remove_spec (sidecar_path meta_dir key) s2 Hd2 Hp3) as (s3'&Hr3'&Hst3&Hd3&Hf3).
  rewrite Hr3 in Hr3'. injection Hr3' as _ <-. injection Hrun as _ <-.
  rewrite Hf3, Hf2, Hst3, Hst2. split_and!.
  - rewrite lookup_delete. case_decide; [done|]. by rewrite lookup_delete_eq.
  - by rewrite lookup_delete_eq.
  - done.
  - exists at_. rewrite Hm1. apply lookup_insert_eq.
Qed.

(** *** Reconciling *)
Lemma keeps_load_sidecar key : keeps_store (D := D) (St := St) (load_sidecar meta_dir key).
Proof. done. Qed.
Lemma keeps_sidecar_store sc key : keeps_store (D := D) (St := St) (sidecar_store meta_dir sc key).
Proof. unfold sidecar_store. solve_keeps. Qed.
Lemma keeps_atomic_write file b : keeps_store (D := D) (St := St) (atomic_write file b).
Proof. apply keeps_on_disk. Qed.
Lemma keeps_remove file : keeps_store (D := D) (St := St) (disk_remove_if_present file).
Proof. apply keeps_on_disk. Qed.
Lemma keeps_marker key : keeps_store (D := D) (St := St) (write_blob_marker meta_dir key).
Proof. unfold write_blob_marker. solve_keeps. Qed.
Local Hint Resolve keeps_load_sidecar keeps_sidecar_store keeps_atomic_write keeps_remove keeps_marker : roam.

Lemma keeps_project_inner file force :
  keeps_store (D := D) (St := St) (project_file_inner canonicalize vault_root meta_dir file force).
Proof. unfold project_file_inner. solve_keeps. Qed.
Lemma keeps_project_blob file h :
  keeps_store (D := D) (St := St) (project_blob canonicalize vault_root meta_dir file h).
Proof. unfold project_blob. solve_keeps. Qed.
Local Hint Resolve keeps_project_inner keeps_project_blob : roam.
Lemma keeps_revert_local file :
  keeps_store (D := D) (St := St) (revert_local canonicalize vault_root meta_dir file).
Proof. unfold revert_local, project_file_forced. solve_keeps. Qed.
Lemma keeps_apply_live present key e file :
  keeps_store (D := D) (St := St) (apply_live canonicalize vault_root meta_dir present key e file).
Proof.
  unfold apply_live, project_file. solve_keeps. apply keeps_unless_dirty. solve_keeps.
Qed.

(** A tombstoned text file that is still on disk, reached by the last reconcile step. *)
Definition tombstone_on_disk (file : Path) (key : rstring) (e : FileEntry) (present : gset rstring) s : Prop :=
  file = key_to_path vault_root key ∧ fe_status e = Tombstoned ∧ fe_kind e = Text ∧ key ∈ present ∧
  ensure_within_vault canonicalize vault_root file (bs_disk s) = Ok tt.

Lemma apply_remote_tombstone file key e present s :
  tombstone_on_disk file key e present s →
  apply_remote canonicalize vault_root meta_dir present (key, to_value e) s =
  apply_tombstone canonicalize vault_root meta_dir present key e file s.
Proof.
  intros (->&Hst&Hk&Hin&Hens). unfold apply_remote, from_value, to_value. rewrite from_to_json.
  unfold mbind, SM_bind, sm_lift, get_disk. cbn beta iota. change (ok_or (Some e) FEntry) with (Ok (E := FilesError) e).
  cbn beta iota. by rewrite Hens, Hst.
Qed.

Lemma tombstone_effect file key e present s osc r s' :
  bs_inv s → separate file key → container_id vault_root file = Ok key →
  sidecar_load meta_dir key (bs_disk s) = Ok osc → tombstone_on_disk file key e present s →
  apply_remote canonicalize vault_root meta_dir present (key, to_value e) s = (r, s') →
  let T := st_text key (bs_store s) in
  if decide (text_hash T = content_hash e) then
    r = Ok [(file, changed_no_ops)] ∧ bs_store s' = bs_store s ∧
    dfiles s' = delete (sp key) (delete (os file) (dfiles s))
  else
    same_texts (bs_store s) (bs_store s') ∧
    (dfiles s' !! os file = dfiles s !! os file ∨ dfiles s' !! os file = Some (utf8 T)) ∧
    match r with
    | Ok _ => st_map (bs_store s') = <[key := to_value (live_text T)]> (st_map (bs_store s))
    | Err _ => True
    end.
Proof.
  intros Hinv Hsep Hid Hsc Htod Hrun T. rewrite (apply_remote_tombstone file) in Hrun by done.
  destruct Htod as (_&Hst&Hk&Hin&Hens). unfold apply_tombstone in Hrun.
  rewrite Hk, (bool_decide_eq_false_2 (Text = BlobKind)), bool_decide_eq_false_2 in Hrun by naive_solver.
  unfold mbind, SM_bind, get_store in Hrun. cbn beta iota in Hrun. fold T in Hrun.
  pose proof Hsep as [Hp _]. rewrite !Forall_cons in Hp. destruct Hp as (Hp1&Hp2&Hp3&Hp4&_).
  case_decide as Hh.
  - rewrite bool_decide_eq_true_2 in Hrun by done.
    destruct (disk_remove_spec file s (proj1 Hinv) Hp1) as (s1&Hr1&Hs1&Hi1&Hf1). rewrite Hr1 in Hrun.
    destruct (disk_remove_spec (sidecar_path meta_dir key) s1 Hi1 Hp3) as (s2&Hr2&Hs2&Hi2&Hf2). rewrite Hr2 in Hrun.
    injection Hrun as <- <-. split_and!; [done|congruence|]. by rewrite Hf2, Hf1.
  - rewrite bool_decide_eq_false_2 in Hrun by done. fold (live_text T) in Hrun.
    pose proof (set_file_entry_spec key (live_text T) s Hinv) as He.
    destruct (set_file_entry key (live_text T) s) as [[u|e1] s1]; destruct He as (Hi1&Hd1&_&Ht1&Hm1&_).
    + unfold unless_dirty, project_file in Hrun.
      pose proof (project_file_inner_spec file key false s1 osc Hi1 Hsep Hid) as Hspec.
      rewrite Hd1 in Hspec. specialize (Hspec Hsc). cbv zeta in Hspec. rewrite (Ht1 key) in Hspec. fold T in Hspec.
      destruct (project_file_inner _ _ _ file false s1) as [r2 s2] eqn:Hpr. destruct Hspec as (Hst2&Hi2&Hspec).
      rewrite Hens in Hspec.
      assert (dfiles s2 !! os file = dfiles s !! os file ∨ dfiles s2 !! os file = Some (utf8 T)) as Hfile.
      { destruct (synced _ _ _); [left; destruct Hspec as [_ ->]; by rewrite Hd1|].
        destruct (negb false && _); [left; destruct Hspec as [_ ->]; by rewrite Hd1|].
        destruct r2 as [o2|e2]; [right; destruct Hspec as [_ ->]|by destruct Hspec].
        destruct Hsep as [_ Hnd]. rewrite !NoDup_cons in Hnd. destruct Hnd as (Hn1&Hn2&Hn3&Hn4&_).
        by rewrite lookup_insert_ne, lookup_delete_ne, lookup_insert_eq by set_solver. }
      assert (s' = s2) as ->.
      { destruct r2 as [o2|[]]; injection Hrun; congruence. }
      rewrite Hst2. split_and!; [done|done|]. by destruct r.
    + injection Hrun as <- <-. split_and!; [done| |done]. left. by rewrite Hd1.
Qed.

(** A tombstone on a file that is still present removes it exactly when the store's
    text still has the hash the deleting device last synced; if an edit came in since,
    the entry turns live again and the file is kept, holding the edited text or the
    user's own edits. *)
Theorem tombstone_guard file key e present s osc r s' :
  bs_inv s → separate file key → container_id vault_root file = Ok key →
  sidecar_load meta_dir key (bs_disk s) = Ok osc → tombstone_on_disk file key e present s →
  apply_remote canonicalize vault_root meta_dir present (key, to_value e) s = (r, s') →
  let T := st_text key (bs_store s) in
  if decide (text_hash T = content_hash e) then
    r = Ok [(file, changed_no_ops)] ∧ bs_store s' = bs_store s ∧
    dfiles s' = delete (sp key) (delete (os file) (dfiles s))
  else
    same_texts (bs_store s) (bs_store s') ∧
    (dfiles s' !! os file = dfiles s !! os file ∨ dfiles s' !! os file = Some (utf8 T)) ∧
    match r with
    | Ok _ => st_map (bs_store s') = <[key := to_value (live_text T)]> (st_map (bs_store s))
    | Err _ => True
    end.
Proof. apply tombstone_effect. Qed.

(** A file created again with the text the store still holds for its tombstoned entry
    is not taken up: the import sees no change and leaves the tombstone, and the
    reconcile step that follows deletes the file. *)
Theorem recreated_file_deleted file key e present s :
  let T := st_text key (bs_store s) in
  bs_inv s → separate file key → importable file key T s →
  dfiles s !! sp key = None → (N.of_nat (length T) ≤ DIFF_MAX_CHARS)%N →
  tombstone_on_disk file key e present s → content_hash e = text_hash T →
  import file s = (Ok unchanged, s) ∧
  dfiles (apply_remote canonicalize vault_root meta_dir present (key, to_value e) s).2 !! os file = None.
Proof.
  intros T Hinv Hsep Himp Hnosc Hlen Htod Hh.
  pose proof (sidecar_load_none key (bs_disk s) (proj1 Hinv) Hnosc) as Hsc. split.
  - rewrite (import_text_file file key T) by done. pose proof Hsep as [Hp Hnd].
    rewrite !Forall_cons in Hp. destruct Hp as (Hp1&Hp2&Hp3&Hp4&_).
    rewrite !NoDup_cons in Hnd. destruct Hnd as (Hn1&Hn2&Hn3&Hn4&_).
    pose proof (import_text_spec key T s None Hinv Hp3 Hp4 ltac:(set_solver) Hsc) as Hspec. cbv zeta in Hspec.
    fold T in Hspec. assert (import_target None T T = T) as HX
      by (unfold import_target; by rewrite bool_decide_eq_true_2).
    rewrite HX in Hspec. destruct (import_text meta_dir key T s) as [r s']. destruct Hspec as (_&_&_&Hr&_).
    destruct Hr as [-> ->]; [by apply diff_to_ops_same|done].
  - destruct (apply_remote _ _ _ present (key, to_value e) s) as [r s'] eqn:Hrun.
    pose proof (tombstone_effect file key e present s None r s' Hinv Hsep ltac:(apply Himp) Hsc Htod Hrun) as Hg.
    cbv zeta in Hg. rewrite decide_True in Hg by done. destruct Hg as (_&_&Hf). simpl. rewrite Hf.
    rewrite lookup_delete. case_decide; [done|]. apply lookup_delete_eq.
Qed.

(** A projection that writes destroys a neighbour: the file whose name is the
    target's followed by [.tmp] is gone afterwards, also when it was the user's. *)
Theorem projection_destroys_tmp file key s s' osc :
  bs_inv s → separate file key → container_id vault_root file = Ok key →
  sidecar_load meta_dir key (bs_disk s) = Ok osc →
  project file s = (Ok changed_no_ops, s') → dfiles s' !! tmp file = None.
Proof.
  intros Hinv Hsep Hid Hsc Hrun. unfold project_file in Hrun.
  pose proof (project_file_inner_spec file key false s osc Hinv Hsep Hid Hsc) as Hspec. cbv zeta in Hspec.
  rewrite Hrun in Hspec. destruct Hspec as (_&_&Hspec).
  destruct (synced _ _ _); [by destruct Hspec|]. destruct (negb false && _); [by destruct Hspec|].
  destruct (ensure_within_vault _ _ _ _); [|by destruct Hspec]. destruct Hspec as [_ ->].
  destruct Hsep as [_ Hnd]. rewrite !NoDup_cons in Hnd. destruct Hnd as (Hn1&Hn2&Hn3&Hn4&_).
  rewrite lookup_insert_ne, lookup_delete_ne, lookup_insert_ne by set_solver. apply lookup_delete_eq.
Qed.

(** *** Across devices *)
Lemma apply_remote_new file key e present s :
  file = key_to_path vault_root key → fe_status e = Live → fe_kind e = Text → key ∉ present →
  ensure_within_vault canonicalize vault_root file (bs_disk s) = Ok tt →
  fs_exists (sp key) (bs_disk s) = false →
  apply_remote canonicalize vault_root meta_dir present (key, to_value e) s =
  (o ← project file; mret [(file, o)]) s.
Proof.
  intros -> Hst Hk Hin Hens Hex. unfold apply_remote, from_value, to_value. rewrite from_to_json.
  change (ok_or (Some e) FEntry) with (Ok (E := FilesError) e).
  unfold mbind, SM_bind, sm_lift, get_disk. cbn beta iota. rewrite Hens, Hst. cbn beta iota.
  unfold apply_live, mbind, SM_bind, get_disk. rewrite Hk, (bool_decide_eq_false_2 (Text = BlobKind)) by done.
  cbn beta iota. by rewrite Hex, bool_decide_eq_true_2 by done.
Qed.

(** On storage with room a projection that may write does. *)
Section room.
Context `{!FsAccepts D}.
Lemma write_then_rename_ok temp p b clean (d : D) :
  fs_inv d → fs_path temp → fs_path p → temp ≠ p → is_ok (write_then_rename temp p b clean d).1 = true.
Proof.
  intros Hi Ht Hp Hne. unfold write_then_rename. pose proof (fs_write_spec temp b d Hi Ht) as Hw.
  destruct (acc_write temp b d Hi Ht) as [Hok _]. destruct (fs_write temp b d) as [[u|e] d1]; [|done].
  destruct Hw as [Hi1 Hf1]. simpl in Hf1. unfold rename_or_clean.
  destruct (acc_rename temp p d1 Hi1 Ht Hp Hne) as [Hr _]; [rewrite Hf1, lookup_insert_eq; by eexists|].
  by destruct (fs_rename temp p d1) as [[v|e] d2].
Qed.
Lemma sidecar_store_ok sc key s :
  fs_inv (bs_disk s) → fs_path (sp key) → fs_path (spt key) → spt key ≠ sp key → is_ok (sidecar_store meta_dir sc key s).1 = true.
Proof.
  intros Hi Hp Ht Hne. rewrite sidecar_store_eq. unfold mbind, SM_bind. rewrite on_disk_spec.
  pose proof (create_parent_spec (sp key) (bs_disk s) Hi) as Hc.
  destruct (create_parent (sp key) (bs_disk s)) as [r1 d1]. destruct Hc as (->&Hi1&_). simpl. rewrite on_disk_spec. simpl.
  pose proof (write_then_rename_ok (spt key) (sp key) (utf8 (to_json sc)) false d1 Hi1 Ht Hp Hne) as Hw.
  by destruct (write_then_rename _ _ _ _ d1) as [[v|e] d2].
Qed.
Lemma atomic_write_ok file b s :
  fs_inv (bs_disk s) → fs_path (os file) → fs_path (tmp file) → tmp file ≠ os file → is_ok (atomic_write file b s).1 = true.
Proof.
  intros Hi Hp Ht Hne. rewrite atomic_write_eq, on_disk_spec.
  pose proof (write_then_rename_ok (tmp file) (os file) b true (bs_disk s) Hi Ht Hp Hne) as Hw.
  by destruct (write_then_rename _ _ _ _ _) as [[v|e] d2].
Qed.
Lemma project_new_ok file key s :
  bs_inv s → separate file key → container_id vault_root file = Ok key → sidecar_load meta_dir key (bs_disk s) = Ok None →
  dfiles s !! os file = None → ensure_within_vault canonicalize vault_root file (bs_disk s) = Ok tt →
  ∃ s', project file s = (Ok changed_no_ops, s').
Proof.
  intros [Hd Hs] [Hpaths Hnd] Hid Hsc Hf Hens. unfold project_file, project_file_inner.
  rewrite !Forall_cons in Hpaths. destruct Hpaths as (Hp1&Hp2&Hp3&Hp4&_).
  rewrite !NoDup_cons in Hnd. destruct Hnd as (Hn1&Hn2&Hn3&Hn4&_).
  unfold mbind, SM_bind, sm_lift, get_store, get_disk, load_sidecar. rewrite Hid. cbn beta iota.
  rewrite fs_read_missing by done. cbn beta iota. rewrite Hsc. cbn beta iota. rewrite Hens.
  change (synced None None _) with false. change (negb false && dirty None None _) with false. cbn beta iota.
  rewrite on_disk_spec. pose proof (create_parent_spec (os file) (bs_disk s) Hd) as Hc.
  destruct (create_parent (os file) (bs_disk s)) as [r1 d1]. destruct Hc as (->&Hi1&_). cbn [fst snd map_err].
  set (T := st_text key (bs_store s)).
  pose proof (atomic_write_ok file (utf8 T) (mkBS d1 (bs_store s)) Hi1 Hp1 Hp2 ltac:(set_solver)) as Ha.
  pose proof (atomic_write_spec file (utf8 T) (mkBS d1 (bs_store s)) Hi1 Hp1 Hp2 ltac:(set_solver)) as Hw.
  destruct (atomic_write file (utf8 T) _) as [[u|e] s2]; [|done]. destruct Hw as (_&Hi2&_).
  fold (synced_at key T). pose proof (sidecar_store_ok (synced_at key T) key s2 Hi2 Hp3 Hp4 ltac:(set_solver)) as Hk.
  destruct (sidecar_store meta_dir _ key s2) as [[v|e] s3]; [|done]. by eexists.
Qed.

(** C35: What one device imports another projects.  A first device's import of a text file succeeded and
    changed its text; a second device's store has received that text and entry; its storage takes
    its writes, it has neither the file nor a sidecar for it, and the file's path passes the
    check against leaving the vault.  Then the second device's reconcile step for the entry succeeds, and
    leaves the file there with exactly the merged text, byte for byte, and the store unchanged. *)
Theorem imported_file_reaches_peer file key L s o s1 osc (sB : BridgeState D St) :
  bs_inv s → separate file key → importable file key L s →
  sidecar_load meta_dir key (bs_disk s) = Ok osc →
  import file s = (Ok o, s1) → changed o = true →
  bs_inv sB → file = key_to_path vault_root key →
  st_text key (bs_store sB) = st_text key (bs_store s1) →
  st_map (bs_store sB) !! key = st_map (bs_store s1) !! key →
  dfiles sB !! os file = None → dfiles sB !! sp key = None → fs_is_dir (sp key) (bs_disk sB) = false →
  ensure_within_vault canonicalize vault_root file (bs_disk sB) = Ok tt →
  ∃ v sB', st_map (bs_store sB) !! key = Some v ∧
    apply_remote canonicalize vault_root meta_dir ∅ (key, v) sB = (Ok [(file, changed_no_ops)], sB') ∧
    dfiles sB' !! os file = Some (utf8 (import_target osc (st_text key (bs_store s)) L)) ∧ bs_store sB' = bs_store sB.
Proof.
  intros Hinv Hsep Himp Hsc Hrun Hch HinvB Hfile Htext Hmap HfB HscB HdirB Hens.
  rewrite (import_text_file file key L) in Hrun by done. pose proof Hsep as [Hp Hnd].
  rewrite !Forall_cons in Hp. destruct Hp as (Hp1&Hp2&Hp3&Hp4&_).
  rewrite !NoDup_cons in Hnd. destruct Hnd as (Hn1&Hn2&Hn3&Hn4&_).
  pose proof (import_text_spec key L s osc Hinv Hp3 Hp4 ltac:(set_solver) Hsc) as Hspec. cbv zeta in Hspec.
  rewrite Hrun in Hspec. destruct Hspec as (_&_&_&_&Hr&_).
  destruct Hr as [(->&_)|(_&Ht&_&Hm&_)]; [done|].
  assert (fs_exists (sp key) (bs_disk sB) = false) as Hex.
  { apply not_true_iff_false. intros He. destruct (fs_exists_spec (sp key) (bs_disk sB) (proj1 HinvB)) as [_ Hx].
    destruct (Hx He) as [[b Hb]|]; congruence. }
  assert (sidecar_load meta_dir key (bs_disk sB) = Ok None) as HscN by (by apply sidecar_load_none; [apply HinvB|]).
  destruct (project_new_ok file key sB) as [sB' Hpr]; try done; [apply Himp|].
  destruct (project_settles file key sB changed_no_ops sB' None) as (_&Hst&[Hf _]); try done; [apply Himp|congruence|].
  exists (to_value (live_text L)), sB'. split_and!; [by rewrite Hmap, Hm, lookup_insert_eq| |by rewrite Hf, Hst, Htext, Ht|done].
  rewrite (apply_remote_new file) by (done || set_solver). unfold mbind, SM_bind. by rewrite Hpr.
Qed.
End room.

(** *** Renaming *)
Lemma import_blob_file file key b s o s' :
  bs_inv s → separate file key → container_id vault_root file = Ok key →
  dfiles s !! os file = Some b → from_utf8 b = None →
  import file s = (Ok o, s') →
  bs_inv s' ∧ same_texts (bs_store s) (bs_store s') ∧ dfiles s' = <[mp key := []]> (dfiles s) ∧
  (∀ k, k ≠ key → st_map (bs_store s') !! k = st_map (bs_store s) !! k).
Proof.
  intros Hinv [Hp _] Hid Hf Hb Hrun. rewrite !Forall_cons in Hp. destruct Hp as (Hp1&Hp2&Hp3&Hp4&Hp5&_).
  unfold import_file in Hrun. step_ok Hrun st s0 Hg. injection Hg as <- <-.
  destruct (negb _) in Hrun; [done|]. step_ok Hrun k s0 Hk. unfold sm_lift in Hk. rewrite Hid in Hk.
  injection Hk as <- <-. destruct (live_case_collision _ _); [done|].
  step_ok Hrun d s0 Hg. injection Hg as <- <-. step_ok Hrun b' s0 Hg. unfold sm_lift in Hg.
  rewrite (fs_read_file _ _ _ (proj1 Hinv) Hf) in Hg. injection Hg as <- <-. rewrite Hb in Hrun.
  step_ok Hrun o1 s1 Himp. destruct (import_blob_effect _ _ _ _ _ Hinv Himp) as ([Hi1 Hs1]&Hd1&Ht1&Hm1).
  step_ok Hrun u s2 Hmk. injection Hrun as _ <-.
  destruct (write_blob_marker_effect _ _ _ _ Hi1 Hp5 Hmk) as (Hst2&Hi2&Hf2).
  unfold bs_inv, same_texts in *. rewrite Hst2. split_and!; try done. by rewrite Hf2, Hd1.
Qed.

(** Renaming a file whose bytes are not text empties it: the old file is removed, the
    new one is written from the empty text container, and the new entry is a live text
    entry of the empty text instead of a reference to the bytes. *)
Theorem rename_blob_empties from to kf kt b s o s' :
  bs_inv s → separate from kf → separate to kt →
  container_id vault_root from = Ok kf → container_id vault_root to = Ok kt → kf ≠ kt →
  dfiles s !! os from = Some b → from_utf8 b = None →
  st_text kf (bs_store s) = [] → st_text kt (bs_store s) = [] →
  dfiles s !! os to = None → dfiles s !! sp kt = None →
  (mp kf ∉ [os to; sp kt]) → (os from ∉ [os to; sp kf; sp kt]) → sp kf ≠ os to →
  rename_file canonicalize vault_root meta_dir single_version_threshold from to s = (Ok o, s') →
  dfiles s' !! os to = Some [] ∧ dfiles s' !! os from = None ∧
  st_map (bs_store s') !! kt = Some (to_value (mkFileEntry Text Live (text_hash []) (Some kf) None)).
Proof.
  intros Hinv Hsf Hst Hidf Hidt Hne Hf Hb Htf Htt Hto Hsk Hd1 Hd2 Hd3 Hrun.
  unfold rename_file in Hrun. step_ok Hrun st s0 Hg. injection Hg as <- <-. destruct (negb _) in Hrun; [done|].
  step_ok Hrun k1 s0 Hg. unfold sm_lift in Hg. rewrite Hidf in Hg. injection Hg as <- <-.
  step_ok Hrun k2 s0 Hg. unfold sm_lift in Hg. rewrite Hidt in Hg. injection Hg as <- <-.
  rewrite bool_decide_eq_false_2 in Hrun by done. step_ok Hrun d s0 Hg. injection Hg as <- <-.
  rewrite (proj1 (fs_exists_spec (os from) (bs_disk s) (proj1 Hinv))) in Hrun by (by rewrite Hf).
  step_ok Hrun u s1 Himp. step_ok Himp o1 s1' Himp'. injection Himp as _ <-.
  destruct (import_blob_file from kf b s o1 s1' Hinv Hsf Hidf Hf Hb Himp') as (Hi1&Ht1&Hf1&_).
  step_ok Hrun st1 s0 Hg. injection Hg as <- <-. rewrite Ht1, Htf, bool_decide_eq_true_2 in Hrun by done.
  step_ok Hrun u1 s0 Hg. injection Hg as _ <-.
  step_ok Hrun u2 s2 Hset. pose proof (set_file_entry_spec kt (mkFileEntry Text Live (text_hash []) (Some kf) None) s1' Hi1) as He.
  rewrite Hset in He. destruct He as (Hi2&Hdk2&_&Ht2&Hm2&_).
  step_ok Hrun u3 s3 Hts. destruct (write_tombstone_effect _ _ _ _ _ _ Hi2 Hts) as (Hi3&Hdk3&_&Ht3&at_&Hm3).
  assert (dfiles s3 = <[mp kf := []]> (dfiles s)) as Hf3 by congruence.
  step_ok Hrun o4 s4 Hpr. destruct (project_settles to kt s3 o4 s4 None) as (Hi4&Hst4&Hset4); try done.
  { apply sidecar_load_none; [apply Hi3|]. rewrite Hf3, lookup_insert_ne by set_solver. done. }
  { intros b'. rewrite Hf3, lookup_insert_ne, Hto by set_solver. done. }
  destruct Hset4 as [Hf4 _]. rewrite Hst4, Ht3, Ht2, Ht1, Htt in Hf4.
  destruct Hsf as [Hpf _]. rewrite !Forall_cons in Hpf. destruct Hpf as (Hp1&Hp2&Hp3&_).
  step_ok Hrun u5 s5 Hr5. destruct (disk_remove_spec from s4 (proj1 Hi4) Hp1) as (s5'&Hr5'&Hst5&Hi5&Hf5).
  rewrite Hr5 in Hr5'. injection Hr5' as _ <-.
  step_ok Hrun u6 s6 Hr6. destruct (disk_remove_spec (sidecar_path meta_dir kf) s5 Hi5 Hp3) as (s6'&Hr6'&Hst6&Hi6&Hf6).
  rewrite Hr6 in Hr6'. injection Hr6' as _ <-. injection Hrun as _ <-.
  rewrite Hf6, Hf5, Hst6, Hst5, Hst4, Hm3, Hm2. split_and!.
  - rewrite !lookup_delete_ne by set_solver. done.
  - rewrite lookup_delete_ne by set_solver. apply lookup_delete_eq.
  - rewrite lookup_insert_ne by done. apply lookup_insert_eq.
Qed.

(** *** The whole reconcile on a read-only device *)
Variable is_symlink : path → D → bool.
Variable hash_order : gset rstring → list rstring.
Variable depth : nat.
Abbreviation scan_with :=
  (scan_gc canonicalize is_symlink hash_order depth vault_root meta_dir single_version_threshold).

Definition text_tombstone (kv : rstring * rstring) : Prop :=
  ∃ e, from_value kv.2 = Some e ∧ fe_status e = Tombstoned ∧ fe_kind e = Text.

Lemma keeps_apply_remote present kv :
  ¬ text_tombstone kv →
  keeps_store (D := D) (St := St) (apply_remote canonicalize vault_root meta_dir present kv).
Proof.
  destruct kv as [key v]. intros Hnt. unfold apply_remote. apply keeps_lift_bind. intros e He.
  unfold text_tombstone in Hnt. simpl in Hnt. destruct (from_value v) as [e'|]; simplify_eq/=.
  apply keeps_bind; [done|]. intros d. destruct (ensure_within_vault _ _ _ _); [|done].
  destruct (fe_status e) eqn:Hs; [apply keeps_apply_live|]. unfold apply_tombstone.
  destruct (fe_kind e) eqn:Hk; [exfalso; eauto|]. rewrite bool_decide_eq_true_2 by done. solve_keeps.
Qed.

(** A reconcile on a read-only device leaves the store untouched as long as no text
    file is tombstoned: local edits are reverted on disk and nothing is authored. *)
Theorem reader_scan_keeps_store hint s :
  st_may_write (bs_store s) = false →
  (∀ kv, kv ∈ st_entries FILESET_MAP_ID (bs_store s) → ¬ text_tombstone kv) →
  bs_store (scan_with hint s).2 = bs_store s.
Proof.
  intros Hw Hnt. unfold scan_gc. unfold mbind, SM_bind, get_disk, sm_lift, get_store. cbn beta iota.
  destruct (collect_vault_files _ _ _ _) as [fl|]; [|done]. cbn beta iota.
  destruct (collect _) as [keys|]; [|done]. cbn beta iota. rewrite Hw. change (negb false) with true. cbn beta iota.
  set (imp := filter _ _). set (present := list_to_set keys : gset rstring).
  pose proof (keeps_flat (revert_local (St := St) canonicalize vault_root meta_dir) imp
    (λ x _, keeps_revert_local x) s) as H1'.
  destruct (sm_flat _ imp s) as [[o1|e1] s1]; cbn [snd] in *; [|done]. cbn beta iota.
  unfold mret at 1, SM_ret at 1. cbn beta iota.
  rewrite H1'.
  pose proof (keeps_flat (apply_remote (St := St) canonicalize vault_root meta_dir present)
    (st_entries FILESET_MAP_ID (bs_store s)) (λ kv Hin, keeps_apply_remote present kv (Hnt kv Hin)) s1) as H2'.
  destruct (sm_flat _ _ s1) as [[o2|e2] s2]; unfold mret, SM_ret; cbn [snd] in *; congruence.
Qed.

(** A read-only device authors an operation after all: when the reconcile meets the
    tombstone of a present text file whose container was edited since, it sets the
    entry live again, although the device has no write role. *)
Theorem reader_scan_authors_entry hint key e s fl keys out s' :
  st_inv (bs_store s) → st_may_write (bs_store s) = false →
  st_entries FILESET_MAP_ID (bs_store s) = [(key, to_value e)] →
  fe_status e = Tombstoned → fe_kind e = Text →
  text_hash (st_text key (bs_store s)) ≠ content_hash e →
  collect_vault_files is_symlink depth vault_root (bs_disk s) = Ok fl →
  collect (container_id vault_root <$> merge_sort path_le fl) = Ok keys → key ∈ keys →
  (∀ d, ensure_within_vault canonicalize vault_root (key_to_path vault_root key) d = Ok tt) →
  scan_with hint s = (Ok out, s') →
  st_map (bs_store s') !! key = Some (to_value (live_text (st_text key (bs_store s)))).
Proof.
  intros Hinv Hw Hent Hst Hk Hh Hfl Hkeys Hin Hens Hrun. unfold scan_gc in Hrun.
  step_ok Hrun d s0 Hg. injection Hg as <- <-. step_ok Hrun fl' s0 Hg. unfold sm_lift in Hg. rewrite Hfl in Hg.
  injection Hg as <- <-. step_ok Hrun keys' s0 Hg. unfold sm_lift in Hg. rewrite Hkeys in Hg. injection Hg as <- <-.
  step_ok Hrun st s0 Hg. injection Hg as <- <-. rewrite Hw in Hrun. change (negb false) with true in Hrun.
  step_ok Hrun o1 s1 H1'. step_ok Hrun o2 s1' Hg. injection Hg as _ <-.
  step_ok Hrun st1 s0 Hg. injection Hg as <- <-. step_ok Hrun o3 s3 H3'. injection Hrun as _ <-.
  assert (bs_store s1 = bs_store s) as Hst1.
  { change s1 with (Ok (E := FilesError) o1, s1).2. rewrite <-H1'. apply keeps_flat. intros. apply keeps_revert_local. }
  rewrite Hst1, Hent in H3'. cbn [sm_flat] in H3'. step_ok H3' ys s2 H2'. step_ok H3' zs s2' Hg. injection Hg as _ <-.
  injection H3' as _ <-.
  rewrite (apply_remote_tombstone (key_to_path vault_root key)) in H2'
    by (split_and!; try done; by apply elem_of_list_to_set).
  unfold apply_tombstone in H2'.
  rewrite Hk, (bool_decide_eq_false_2 (Text = BlobKind)), bool_decide_eq_false_2 in H2'
    by (done || (intros Hn; apply Hn; by apply elem_of_list_to_set)).
  step_ok H2' st2 s0 Hg. injection Hg as <- <-. rewrite Hst1, bool_decide_eq_false_2 in H2' by done.
  step_ok H2' u s4 Hset. fold (live_text (st_text key (bs_store s))) in Hset. unfold set_file_entry in Hset.
  rewrite on_store_spec, Hst1 in Hset.
  pose proof (st_set_entry_spec key (to_value (live_text (st_text key (bs_store s)))) (bs_store s) Hinv) as He.
  destruct (st_set_entry _ _ _ _) as [[v|e4] st4]; simpl in Hset; [|done]. injection Hset as _ <-.
  destruct He as (_&_&_&Hm&_).
  assert (bs_store s2 = st4) as ->; [|by rewrite Hm, lookup_insert_eq].
  change s2 with (Ok (E := FilesError) ys, s2).2. rewrite <-H2'.
  assert (keeps_store (D := D) (St := St) (unless_dirty (o ← project_file canonicalize vault_root meta_dir
    (key_to_path vault_root key); mret [(key_to_path vault_root key, o)]) [(key_to_path vault_root key, changed_no_ops)]))
    as Hkeep by (apply keeps_unless_dirty; unfold project_file; solve_keeps). apply Hkeep.
Qed.
End steps.
