(* ===== verification/StoreEdit.v ===== *)
(** * Editing through the store (roam-storage, store.rs)

    Text and map edits, their persistence, history reads, and sizes; and the proof
    that the store keeps the promises the folder bridge relies on
    ([VaultStoreLaws]).  The CRDT's text and map operations are the interface
    [DocText] with the laws [DocTextLaws]. *)
From S2P Require Import Prelude RustStr Vfs Roster Wire Logs Keychain Blob Trust Store StoreRoster StoreSync.
From S2P Require Import Checkpoint Textdiff Rebase Paths Bridge BridgeSpec.

(** ** The document's text and map operations (crates/roam-crdt) *)
Class DocText (Doc Ver Fr : Type) := {
  doc_text : rstring → Doc → rstring;
  doc_insert_text : rstring → nat → rstring → SM Doc StorageError unit;
  doc_delete_text : rstring → nat → nat → SM Doc StorageError unit;
  doc_get_entry : rstring → rstring → Doc → option rstring;
  doc_set_entry : rstring → rstring → rstring → SM Doc StorageError unit;
  doc_remove_entry : rstring → rstring → SM Doc StorageError unit;
  doc_entries : rstring → Doc → list (rstring * rstring);
  doc_revert_container : rstring → Fr → SM Doc StorageError unit;
  doc_commit_at : Z → Doc → Doc;
  ver_to_bytes : Ver → bytes;
  (** [checkout(frontier)], [get_entry], [checkout_latest]: [None] if the frontier
      cannot be checked out; the document is back at the latest state. *)
  doc_entry_at : bytes → rstring → rstring → Doc → option (option rstring);
}.

(** Edits within the text apply; others fail and change nothing.  Committing changes
    no content. *)
Class DocTextLaws (Doc Ver Fr : Type) `{DocOps Doc Ver, DocText Doc Ver Fr} := {
  doc_map : Doc → gmap rstring rstring;
  doc_get_entry_spec k d : doc_get_entry FILESET_MAP_ID k d = doc_map d !! k;
  doc_entries_spec d :
    NoDup (doc_entries FILESET_MAP_ID d).*1 ∧
    ∀ k v, (k, v) ∈ doc_entries FILESET_MAP_ID d ↔ doc_map d !! k = Some v;
  doc_insert_text_spec id p t d :
    let '(r, d') := doc_insert_text id p t d in
    doc_map d' = doc_map d ∧ (∀ id', id' ≠ id → doc_text id' d' = doc_text id' d) ∧
    match apply_op (doc_text id d) (OpInsert p t) with
    | Some x => r = Ok tt ∧ doc_text id d' = x
    | None => (∃ e, r = Err e) ∧ d' = d
    end;
  doc_delete_text_spec id p n d :
    let '(r, d') := doc_delete_text id p n d in
    doc_map d' = doc_map d ∧ (∀ id', id' ≠ id → doc_text id' d' = doc_text id' d) ∧
    match apply_op (doc_text id d) (OpDelete p n) with
    | Some x => r = Ok tt ∧ doc_text id d' = x
    | None => (∃ e, r = Err e) ∧ d' = d
    end;
  doc_set_entry_spec k v d :
    let '(r, d') := doc_set_entry FILESET_MAP_ID k v d in
    r = Ok tt ∧ doc_map d' = <[k := v]> (doc_map d) ∧ ∀ id, doc_text id d' = doc_text id d;
  doc_commit_spec d :
    doc_map (doc_commit d) = doc_map d ∧ ∀ id, doc_text id (doc_commit d) = doc_text id d;
}.

(** ** Operations *)
Section edit.
Context `{Ed25519, B64, JsonOf EntryLine, JsonOf Marker}.
Context {Fs Doc Ver Fr : Type} `{VaultFs Fs, DocOps Doc Ver, DocHistory Doc, DocText Doc Ver Fr}.
Abbreviation ST := (Store Fs Doc Ver).

Definition text (id : rstring) (s : ST) : rstring := doc_text id (doc s).
Definition edit_text (id : rstring) (pos : nat) (t : rstring) : SM ST StorageError unit :=
  _ ← on_doc (doc_insert_text id pos t); persist_new_ops.
Definition delete_text (id : rstring) (pos len : nat) : SM ST StorageError unit :=
  _ ← on_doc (doc_delete_text id pos len); persist_new_ops.
Definition set_entry (map_id key value : rstring) : SM ST StorageError unit :=
  _ ← on_doc (doc_set_entry map_id key value); persist_new_ops.
Definition remove_entry (map_id key : rstring) : SM ST StorageError unit :=
  _ ← on_doc (doc_remove_entry map_id key); persist_new_ops.
Definition get_entry (map_id key : rstring) (s : ST) : option rstring := doc_get_entry map_id key (doc s).
Definition entries (map_id : rstring) (s : ST) : list (rstring * rstring) := doc_entries map_id (doc s).
Definition edit_text_at (id : rstring) (pos : nat) (t : rstring) (secs : Z) : SM ST StorageError unit :=
  _ ← on_doc (doc_insert_text id pos t);
  _ ← modify (λ s, set_doc (doc_commit_at secs (doc s)) s);
  export_and_append.
Definition doc_version_bytes (s : ST) : bytes := ver_to_bytes (doc_version (doc s)).
Definition revert_text (container : rstring) (target : Fr) : SM ST StorageError unit :=
  _ ← on_doc (doc_revert_container container target);
  persist_new_ops.

Definition historical_entry (map_id key : rstring) (before_ts : Z) (s : ST)
    : result StorageError (option rstring) :=
  m ← marker_before (history_dir (root s)) before_ts (fs s);
  match m with
  | None => mret None
  | Some m =>
      fbytes ← ok_or (b64_decode (frontier m)) Base64;
      if frontier_ok fbytes then
        mret match doc_entry_at fbytes map_id key (doc s) with Some v => v | None => None end
      else Err Crdt
  end.
End edit.

(** ** The store behind the bridge *)
Section instance.
Context `{Crypto, Ed25519, B64, JsonOf EntryLine, JsonOf Marker}.
Context {Fs Doc Ver Fr : Type} `{VaultFs Fs, DocOps Doc Ver, DocHistory Doc, DocText Doc Ver Fr}.
Abbreviation ST := (Store Fs Doc Ver).

#[global] Instance store_vault : VaultStore ST Fr := {
  st_text := text;
  st_edit_text := edit_text;
  st_delete_text := delete_text;
  st_get_entry := get_entry;
  st_set_entry := set_entry;
  st_entries := entries;
  st_may_write := may_write;
  st_doc_version_bytes := doc_version_bytes;
  st_historical_entry := historical_entry;
  st_revert_text := revert_text;
  st_blob_put b := λ s, on_fs (blob_put (assets_dir (root s)) b) s;
  st_blob_get h s := blob_get (assets_dir (root s)) h (fs s);
  st_blob_has h s := blob_has (assets_dir (root s)) h (fs s);
  st_blob_remove h := λ s, on_fs (blob_remove (assets_dir (root s)) h) s;
}.
End instance.

(** A backend whose writes do not fail, and a document that always exports. *)
Class Reliable (Fs Doc Ver : Type) `{VaultFs Fs, DocOps Doc Ver} := {
  fs_up : Fs → Prop;
  up_append_sync p b f : fs_up f → (fs_append_sync p b f).1 = Ok tt ∧ fs_up (fs_append_sync p b f).2;
  up_create_dir p f : fs_up f → fs_up (fs_create_dir_all p f).2;
  up_write p b f : fs_up f → fs_up (fs_write p b f).2;
  up_rename p q f : fs_up f → fs_up (fs_rename p q f).2;
  up_remove p f : fs_up f → fs_up (fs_remove_file p f).2;
  up_export (v : Ver) (d : Doc) : is_ok (doc_export_from v d) = true;
}.

Section laws.
Context `{CryptoI : Crypto, !CryptoLaws, EdI : Ed25519, B64I : B64, ElI : JsonOf EntryLine, MkI : JsonOf Marker}.
Context {Fs Doc Ver Fr : Type} `{VaultFsLaws Fs, DocTextLaws Doc Ver Fr, DhI : DocHistory Doc, !Reliable Fs Doc Ver}.
Abbreviation ST := (Store Fs Doc Ver).
Implicit Types s : ST.

(** The backend keeps its invariant and can name the own log and the blobs. *)
Definition store_inv s : Prop :=
  fs_inv (fs s) ∧ fs_path (op_path (own_log s)) ∧
  ∀ h, is_valid_hash h = true → blob_paths (assets_dir (root s)) h.

(** What persisting leaves alone. *)
Definition persisted_from s s' : Prop :=
  store_inv s' ∧ root s' = root s ∧ identity s' = identity s ∧ peers s' = peers s ∧
  (∀ h, blob_get (assets_dir (root s)) h (fs s') = blob_get (assets_dir (root s)) h (fs s)) ∧
  (fs_up (fs s) → fs_up (fs s')).

Lemma log_not_asset (r : path) n h : op_path (OpLog_new (ops_dir r) n) ≠ assets_dir r ++ [h].
Proof.
  unfold OpLog_new, op_path, log_path, ops_dir, assets_dir. rewrite <-!(assoc_L app).
  by intros Heq%app_inv_head.
Qed.

Lemma oplog_append_effect log id u (f : Fs) :
  fs_inv f → fs_path (op_path log) →
  let '(r, f') := oplog_append log id u f in
  fs_inv f' ∧ (∀ q, q ≠ op_path log → files f' !! q = files f !! q) ∧
  (fs_up f → r = Ok tt ∧ fs_up f').
Proof.
  intros Hi Hp. unfold oplog_append, mbind, SM_bind.
  pose proof (ensure_parent_spec (op_path log) f Hi) as Hd.
  assert (fs_up f → fs_up (ensure_parent (op_path log) f).2) as Hu1.
  { intros Hu. unfold ensure_parent. destruct (parent _); [|done]. unfold io, sm_map_err. simpl. by apply up_create_dir. }
  destruct (ensure_parent (op_path log) f) as [r1 f1]. destruct Hd as (->&Hi1&Hf1). simpl in Hu1.
  unfold append_line, io, sm_map_err.
  pose proof (fs_append_sync_spec (op_path log) (utf8 (to_json (oplog_line log id u) ++ [LF])) f1 Hi1 Hp) as Ha.
  pose proof (up_append_sync (op_path log) (utf8 (to_json (oplog_line log id u) ++ [LF])) f1) as Hu2.
  destruct (fs_append_sync _ _ f1) as [r2 f2]. destruct Ha as [Hi2 Hf2]. simpl in *. split_and!; [done| |].
  - intros q Hq. rewrite Hf2, <-Hf1. unfold files_after. destruct r2; [by rewrite lookup_insert_ne|done].
  - intros Hu. destruct (Hu2 (Hu1 Hu)) as [-> ?]. done.
Qed.

Lemma blob_get_ext dir h (f f' : Fs) :
  fs_inv f → fs_inv f' → files f' !! (dir ++ [h]) = files f !! (dir ++ [h]) →
  blob_get dir h f' = blob_get dir h f.
Proof.
  intros Hi Hi' Hf. unfold blob_get, blob_path. destruct (is_valid_hash h); [|done].
  unfold mbind, result_bind. by rewrite !fs_read_spec, Hf.
Qed.

Lemma persist_effect s :
  store_inv s →
  let '(r, s') := persist_new_ops s in
  persisted_from s s' ∧ doc s' = doc_commit (doc s) ∧ (fs_up (fs s) → r = Ok tt).
Proof.
  intros Hinv. pose proof Hinv as (Hi&Hp&Hb). unfold persist_new_ops, export_and_append.
  unfold mbind, SM_bind, modify, sm_get. cbn [doc set_doc fst snd persisted].
  destruct (decide (doc_version (doc_commit (doc s)) = persisted s)) as [Hv|Hv].
  { cbn. by split_and!. }
  unfold sm_lift. pose proof (up_export (Fs := Fs) (persisted s) (doc_commit (doc s))) as Hx.
  destruct (doc_export_from (persisted s) (doc_commit (doc s))) as [delta|e]; cbn; [|by split_and!].
  pose proof (oplog_append_effect (own_log s) (identity s) delta (fs s) Hi Hp) as Ha. unfold on_fs. cbn.
  change (own_log (set_doc (doc_commit (doc s)) s)) with (own_log s).
  destruct (oplog_append (own_log s) (identity s) delta (fs s)) as [r f'] eqn:Eo.
  destruct Ha as (Hi'&Hq&Hu).
  assert (∀ v, persisted_from s (set_persisted v (set_fs f' (set_doc (doc_commit (doc s)) s)))) as Hpf.
  { intros v. split_and!; try done; cbn.
    - intros h. apply blob_get_ext; [done..|]. apply Hq. apply not_eq_sym, log_not_asset.
    - intros Hup. by apply Hu. }
  destruct r as [u|e]; cbn.
  - split_and!; [apply Hpf..|done|]. intros Hup. by destruct (Hu Hup).
  - split_and!; [apply (Hpf (persisted s))..|done|]. intros Hup. by destruct (Hu Hup).
Qed.

(** An edit of the document followed by persisting it. *)
Lemma edit_then_persist (m : SM Doc StorageError unit) s :
  store_inv s →
  let '(r, s') := (_ ← on_doc m; persist_new_ops) s in
  persisted_from s s' ∧
  (∀ id, doc_text id (doc s') = doc_text id (m (doc s)).2) ∧ doc_map (doc s') = doc_map (m (doc s)).2 ∧
  (∀ e, (m (doc s)).1 = Err e → r = Err e) ∧ (fs_up (fs s) → (m (doc s)).1 = Ok tt → r = Ok tt).
Proof.
  intros Hinv. unfold mbind, SM_bind, on_doc. destruct (m (doc s)) as [[u|e] d]; cbn.
  - pose proof (persist_effect (set_doc d s) Hinv) as Hp. destruct (persist_new_ops (set_doc d s)) as [r s'].
    destruct Hp as (Hp&Hd&Hu). destruct (doc_commit_spec d) as [Hm Ht]. rewrite Hd.
    split_and!; [exact Hp|exact Ht|exact Hm|done|]. intros Hup _. by apply Hu.
  - by split_and!.
Qed.

Lemma same_rest_from s s' : persisted_from s s' → same_rest (Fr := Fr) s s'.
Proof.
  intros (_&Hr&Hid&Hp&Hb&_). split.
  - unfold st_may_write, store_vault, may_write, self_role, role_of, find_peer. by rewrite Hid, Hp.
  - intros h. unfold st_blob_get, store_vault. by rewrite Hr, Hb.
Qed.

Lemma text_effect_from id o (m : SM Doc StorageError unit) s :
  store_inv s →
  (let '(r, d') := m (doc s) in
   doc_map d' = doc_map (doc s) ∧ (∀ id', id' ≠ id → doc_text id' d' = doc_text id' (doc s)) ∧
   match apply_op (doc_text id (doc s)) o with
   | Some x => r = Ok tt ∧ doc_text id d' = x
   | None => (∃ e, r = Err e) ∧ d' = doc s
   end) →
  let '(r, s') := (_ ← on_doc m; persist_new_ops) s in
  store_inv s' ∧ same_rest (Fr := Fr) s s' ∧ doc_map (doc s') = doc_map (doc s) ∧ text_effect (Fr := Fr) id o s r s' ∧
  (fs_up (fs s) → fs_up (fs s') ∧ (is_Some (apply_op (doc_text id (doc s)) o) → r = Ok tt)).
Proof.
  intros Hinv Hm. pose proof (edit_then_persist m s Hinv) as He.
  destruct ((_ ← on_doc m; persist_new_ops) s) as [r s']. destruct He as (Hp&Ht&Hmap&Herr&Hup).
  destruct (m (doc s)) as [r0 d']. destruct Hm as (Hm1&Hm2&Hm3). simpl in *.
  split_and!; [apply Hp|by apply same_rest_from|congruence| |].
  - split; [intros id' Hid'; unfold st_text, store_vault, text; by rewrite Ht, Hm2|].
    unfold st_text, store_vault, text. rewrite Ht.
    destruct (apply_op (doc_text id (doc s)) o) as [x|].
    + destruct Hm3 as [_ <-]. destruct r; auto.
    + destruct Hm3 as [[e ->] ->]. rewrite (Herr e) by done. by left.
  - intros Hu. split; [by apply Hp|]. intros [x Hx]. rewrite Hx in Hm3. destruct Hm3 as [-> _]. by apply Hup.
Qed.

(** The blob operations of the store touch only the blob's own files. *)
Lemma blob_put_up dir b (f : Fs) : fs_up f → fs_up (blob_put dir b f).2.
Proof.
  intros Hu. unfold blob_put. cbv zeta. destruct (fs_exists _ f); [done|].
  pose proof (up_write (temp_path dir (blob_hash b)) b f Hu) as H1'.
  destruct (fs_write _ b f) as [[|] f1]; [|done]. simpl in H1'.
  pose proof (up_rename (temp_path dir (blob_hash b)) (dir ++ [blob_hash b]) f1 H1') as H2'.
  destruct (fs_rename _ _ f1) as [[|] f2]; [done|]. simpl in *. by apply up_remove.
Qed.

Lemma blob_get_stored dir b (f : Fs) :
  fs_inv f → files f !! (dir ++ [blob_hash b]) = Some b → blob_get dir (blob_hash b) f = Ok (Some b).
Proof.
  intros Hi Hf. unfold blob_get, blob_path. rewrite blob_hash_valid. unfold mbind, result_bind.
  rewrite fs_read_spec, Hf by done. simpl. by rewrite decide_True.
Qed.
Lemma blob_get_invalid dir h (f f' : Fs) : is_valid_hash h = false → blob_get dir h f' = blob_get dir h f.
Proof. intros Hv. unfold blob_get, blob_path. by rewrite Hv. Qed.

Lemma store_inv_set_fs s f : store_inv s → fs_inv f → store_inv (set_fs f s).
Proof. intros (_&?&?) ?. by split_and!. Qed.

Lemma store_blob_put b s :
  store_inv s →
  let '(r, s') := on_fs (blob_put (assets_dir (root s)) b) s in
  store_inv s' ∧ doc s' = doc s ∧ root s' = root s ∧ st_may_write (Fr := Fr) s' = st_may_write (Fr := Fr) s ∧
  (∀ h, h ≠ blob_hash b → st_blob_get (Fr := Fr) h s' = st_blob_get (Fr := Fr) h s) ∧ (fs_up (fs s) → fs_up (fs s')) ∧
  match r with
  | Ok h => h = blob_hash b ∧
      (st_blob_get (Fr := Fr) h s' = Ok (Some b) ∨ st_blob_get (Fr := Fr) h s' = st_blob_get (Fr := Fr) h s)
  | Err _ => True
  end.
Proof.
  intros Hinv. pose proof Hinv as (Hi&_&Hb). unfold on_fs.
  pose proof (blob_put_up (assets_dir (root s)) b (fs s)) as Hup.
  destruct (blob_put (assets_dir (root s)) b (fs s)) as [r f'] eqn:Ep. simpl in Hup.
  pose proof (blob_put_files (assets_dir (root s)) b (fs s) r f' Hi (Hb _ (blob_hash_valid b)) Ep) as (Hi'&Hq&_&Hr).
  split_and!; try done; [by apply store_inv_set_fs| |].
  - intros h Hne. simpl. destruct (is_valid_hash h) eqn:Hv; [|by apply blob_get_invalid].
    apply blob_get_ext; [done..|]. apply Hq; [by intros ?%blob_inj|].
    intros Heq. symmetry in Heq. revert Heq. apply temp_not_blob; [apply blob_hash_valid|done].
  - destruct r as [h|e]; [|done]. destruct (Hr h eq_refl) as [-> [[_ ->]|Hf]]; [by auto|].
    split; [done|left]. simpl. by apply blob_get_stored.
Qed.

Lemma store_blob_remove h s :
  store_inv s →
  let '(r, s') := on_fs (blob_remove (assets_dir (root s)) h) s in
  store_inv s' ∧ doc s' = doc s ∧ st_may_write (Fr := Fr) s' = st_may_write (Fr := Fr) s ∧
  ∀ h', h' ≠ h → st_blob_get (Fr := Fr) h' s' = st_blob_get (Fr := Fr) h' s.
Proof.
  intros Hinv. pose proof Hinv as (Hi&_&Hb). unfold on_fs, blob_remove, blob_path.
  destruct (is_valid_hash h) eqn:Hv; [|by cbn; split_and!].
  unfold mbind, SM_bind, sm_lift. cbn beta iota.
  destruct (remove_if_present (assets_dir (root s) ++ [h]) (fs s)) as [r f'] eqn:Er.
  destruct (remove_if_present_files _ _ _ _ Hi (proj1 (Hb h Hv)) Er) as (Hi'&Hf&_).
  split_and!; try done; [by apply store_inv_set_fs|]. intros h' Hne. simpl.
  apply blob_get_ext; [done..|]. rewrite Hf. apply lookup_delete_ne. by intros ?%blob_inj.
Qed.

#[export] Program Instance store_vault_laws : VaultStoreLaws ST Fr := {
  st_map s := doc_map (doc s);
  st_inv := store_inv;
  st_live s := fs_up (fs s);
}.
Next Obligation. intros k s. apply doc_get_entry_spec. Qed.
Next Obligation. intros s. apply doc_entries_spec. Qed.
Next Obligation. intros id p t s Hinv. by apply text_effect_from, doc_insert_text_spec. Qed.
Next Obligation. intros id p n s Hinv. by apply text_effect_from, doc_delete_text_spec. Qed.
Next Obligation.
  intros k v s Hinv. pose proof (edit_then_persist (doc_set_entry FILESET_MAP_ID k v) s Hinv) as He.
  pose proof (doc_set_entry_spec k v (doc s)) as Hd. unfold st_set_entry, store_vault, set_entry.
  destruct ((_ ← on_doc _; persist_new_ops) s) as [r s']. destruct (doc_set_entry FILESET_MAP_ID k v (doc s)) as [r0 d'].
  destruct He as (Hp&Ht&Hm&_&Hup), Hd as (->&Hdm&Hdt). simpl in *. rewrite Hm, Hdm.
  split_and!; [apply Hp|by apply same_rest_from| | |].
  - intros id. simpl. unfold text. by rewrite Ht, Hdt.
  - destruct r; auto.
  - intros Hu. split; [by apply Hp|by apply Hup].
Qed.
Next Obligation.
  intros b s Hinv. pose proof (store_blob_put b s Hinv) as Hp. unfold st_blob_put, store_vault.
  destruct (on_fs _ s) as [r s']. destruct Hp as (?&Hd&?&?&?&?&?). split_and!; try done; [|by rewrite Hd].
  intros id. simpl. unfold text. by rewrite Hd.
Qed.
Next Obligation.
  intros h s Hinv. pose proof (store_blob_remove h s Hinv) as Hp. unfold st_blob_remove, store_vault.
  destruct (on_fs _ s) as [r s']. destruct Hp as (?&Hd&?&?). split_and!; try done; [|by rewrite Hd].
  intros id. simpl. unfold text. by rewrite Hd.
Qed.
End laws.
