(* ===== verification/Snapshots.v ===== *)
(** * Snapshots: producing, holding and adopting snapshot objects

    The signed manifest and the framing of a snapshot object (snapshot_msg.rs), the
    store's bookkeeping of the snapshots it holds and of poisoned backend ids
    (store.rs), and the receiver's verification (snapshot_bootstrap.rs), shared by
    the relay client and the peer-to-peer engine. *)
From S2P Require Import Prelude RustStr Vfs Roster Wire Logs Keychain Blob Trust Store StoreRoster StoreSync.
From S2P Require Import Checkpoint Paths.

(** ** Data *)
Record SnapshotManifest := mkManifest {
  frontier_digest : bytes; snapshot_ct_hash : bytes;
  subsumed_entry_ids : list rstring; blob_ref_ids : list rstring;
  m_author : u64; m_sig : rstring;
}.
Record HeldSnapshot := mkHeld { h_id : rstring; h_subsumed : list rstring }.
Record BackendSnapshot := mkBackendSnapshot {
  b_bytes : bytes; b_frontier_digest : bytes;
  b_subsumed_lines : list (u64 * bytes); b_blob_refs : list rstring;
}.
Inductive AdoptOutcome :=
  | Adopted (id : rstring) (subsumed : list rstring)
  | Undecryptable
  | Rejected (why : rstring).

(** base64url without padding *)
Class B64Url := { b64url_encode : bytes → rstring; b64url_decode : rstring → option bytes }.
Class B64UrlLaws `{B64Url} := { b64url_decode_encode b : b64url_decode (b64url_encode b) = Some b }.

(** [Ord] on [String]: by the bytes. *)
Definition str_le (a b : rstring) : Prop := bytes_le (utf8 a) (utf8 b).
#[global] Instance str_le_dec : RelDecision str_le.
Proof. unfold str_le. intros a b. apply _. Defined.
#[global] Instance str_le_total : Total str_le.
Proof. intros a b. unfold str_le. apply (total bytes_le). Qed.
#[global] Instance str_le_trans : Transitive str_le.
Proof. intros a b c. unfold str_le. by etrans. Qed.

(** ** The signed manifest *)
Definition MANIFEST_DOMAIN : bytes := utf8 (str "roam-snapshot-manifest-v1").

Definition id_item (id : rstring) : bytes := le_bytes 8 (N.of_nat (length (utf8 id))) ++ utf8 id.
Definition append_id_list (ids : list rstring) : bytes :=
  let sorted := merge_sort str_le ids in
  le_bytes 8 (N.of_nat (length sorted)) ++ concat (id_item <$> sorted).

Definition signing_bytes (m : SnapshotManifest) : bytes :=
  MANIFEST_DOMAIN ++ frontier_digest m ++ snapshot_ct_hash m ++ le_bytes 8 (m_author m) ++
  append_id_list (subsumed_entry_ids m) ++ append_id_list (blob_ref_ids m).

Definition with_sig (m : SnapshotManifest) (author : u64) (sig : rstring) : SnapshotManifest :=
  mkManifest (frontier_digest m) (snapshot_ct_hash m) (subsumed_entry_ids m) (blob_ref_ids m) author sig.

Section manifest.
Context `{Ed25519, B64Url}.
Definition signed (id : Identity) (m : SnapshotManifest) : SnapshotManifest :=
  let m := with_sig m (id_peer id) [] in
  with_sig m (id_peer id) (b64url_encode (sign id (signing_bytes m))).

Definition decode_sig (s : rstring) : option bytes :=
  b ← b64url_decode s; if decide (length b = 64) then Some b else None.

Definition manifest_verify (m : SnapshotManifest) (key : bytes) : bool :=
  match decode_sig (m_sig m) with
  | None => false
  | Some sig => verify key (signing_bytes (with_sig m (m_author m) [])) sig
  end.
End manifest.

(** *** Framing; the length is cut to 32 bits. *)
Definition frame (manifest_json sealed_ct : bytes) : bytes :=
  le_bytes 4 (N.of_nat (length manifest_json) `mod` 2 ^ 32) ++ manifest_json ++ sealed_ct.
Definition unframe (b : bytes) : option (bytes * bytes) :=
  if decide (length b < 4) then None
  else
    let len := N.to_nat (from_le (take 4 b)) in
    let rest := drop 4 b in
    if decide (length rest < len) then None else Some (take len rest, drop len rest).

(** [dir.join(s)] for a string from outside: an absolute one replaces the directory;
    separators split, empty and [.] pieces vanish, [..] stays a component. *)
Definition path_names (s : rstring) : path := filter (λ n, n ≠ [] ∧ n ≠ str ".") (split_on SLASH s).
Definition join (dir : path) (s : rstring) : path :=
  if is_absolute s then path_names s else dir ++ path_names s.

(** ** The store's bookkeeping *)
Section shelf.
Context `{Ed25519, Crypto, B64, JsonOf EntryLine, JsonOf Marker, JsonOf HeldSnapshot}.
Context {Fs Doc Ver : Type} `{VaultFs Fs, DocOps Doc Ver, DocHistory Doc}.
Abbreviation St := (Store Fs Doc Ver).

Definition snapshots_dir (r : path) : path := r ++ [str "snapshots"].
Definition held_path (r : path) : path := snapshots_dir r ++ [str "held.jsonl"].
Definition poisoned_path (r : path) : path := r ++ [str "poisoned.jsonl"].

(** The first lines of each log, as many as the marker counted. *)
Fixpoint subsumed_of (s : St) (plan : list (u64 * u64)) : result StorageError (list (u64 * bytes)) :=
  match plan with
  | [] => Ok []
  | (p, n) :: plan =>
      log ← (if decide (p = id_peer (identity s)) then export_own_log s else export_peer_log s p);
      rest ← subsumed_of s plan;
      mret ((pair p <$> take (N.to_nat n) (split_log_lines_bytes log)) ++ rest)
  end.
Definition build_backend_snapshot (before : Z) (s : St) : result StorageError (option BackendSnapshot) :=
  t ← marker_before (history_dir (root s)) before (fs s);
  match t with
  | None => Ok None
  | Some target =>
      fb ← ok_or (b64_decode (frontier target)) Base64;
      _ ← (if frontier_ok fb then Ok tt else Err Crdt);
      b ← shallow_snapshot fb (doc s);
      lines ← subsumed_of s (btree_to_list N.le (drop_lines (plan_from_marker target)));
      refs ← referenced_at (doc s) [frontier target];
      mret (Some (mkBackendSnapshot b (blake3 fb) lines
                    (merge_sort str_le (elements (list_to_set refs : gset rstring)))))
  end.

Definition held_snapshots (s : St) : result StorageError (list HeldSnapshot) :=
  match fs_read_to_string (held_path (root s)) (fs s) with
  | Ok t => collect ((λ l, ok_or (from_json l) Json) <$> nonblank_lines t)
  | Err NotFound => Ok []
  | Err e => Err (Io e)
  end.
Definition record_held_snapshot (id : rstring) (subsumed : list rstring) : SM St StorageError unit :=
  s ← sm_get;
  held ← sm_lift (held_snapshots s);
  if existsb (λ h, bool_decide (h_id h = id)) held then mret tt
  else
    _ ← on_fs (io (fs_create_dir_all (snapshots_dir (root s))));
    on_fs (io (fs_append (held_path (root s)) (utf8 (to_json (mkHeld id subsumed) ++ [LF])))).

Definition poisoned_ids (s : St) : result StorageError (gset rstring) :=
  match fs_read_to_string (poisoned_path (root s)) (fs s) with
  | Ok t => Ok (list_to_set (filter (λ l, l ≠ []) (trim <$> lines t)))
  | Err NotFound => Ok ∅
  | Err e => Err (Io e)
  end.
Definition mark_poisoned (id : rstring) : SM St StorageError unit :=
  s ← sm_get;
  bad ← sm_lift (poisoned_ids s);
  if decide (id ∈ bad) then mret tt
  else on_fs (io (fs_append (poisoned_path (root s)) (utf8 (id ++ [LF])))).

Definition persist_snapshot_object (id : rstring) (framed : bytes) : SM St StorageError unit :=
  s ← sm_get;
  let dir := snapshots_dir (root s) in
  _ ← on_fs (io (fs_create_dir_all dir));
  let tmp := join dir (id ++ str ".tmp") in
  _ ← on_fs (io (fs_write tmp framed));
  on_fs (io (fs_rename tmp (join dir id))).

Definition is_object_name (n : rstring) : bool :=
  negb (bool_decide (n = str "snapshot.loro") || bool_decide (n = str "held.jsonl")
        || bool_decide (str ".tmp" `suffix_of` n)).
Definition held_snapshot_ids (s : St) : result StorageError (list rstring) :=
  match fs_read_dir (snapshots_dir (root s)) (fs s) with
  | Ok es => Ok (merge_sort str_le (filter (λ n, is_object_name n = true) (omap last es)))
  | Err NotFound => Ok []
  | Err e => Err (Io e)
  end.
Definition load_snapshot_object (id : rstring) (s : St) : result StorageError (option bytes) :=
  match fs_read (join (snapshots_dir (root s)) id) (fs s) with
  | Ok b => Ok (Some b)
  | Err NotFound => Ok None
  | Err e => Err (Io e)
  end.

Definition drop_snapshot (id : rstring) : SM St StorageError unit :=
  s ← sm_get;
  _ ← on_fs (remove_if_present (join (snapshots_dir (root s)) id));
  s ← sm_get;
  held ← sm_lift (held_snapshots s);
  let kept := filter (λ h, h_id h ≠ id) held in
  match kept with
  | [] => on_fs (remove_if_present (held_path (root s)))
  | _ => on_fs (io (fs_write (held_path (root s)) (utf8 (concat ((λ h, to_json h ++ [LF]) <$> kept)))))
  end.
End shelf.

(** ** Verification on the receiver *)
Section bootstrap.
Context `{Ed25519, Crypto, B64, B64Url, JsonOf EntryLine, JsonOf Marker, JsonOf HeldSnapshot, JsonOf SnapshotManifest}.
Context {Fs Doc Ver : Type} `{VaultFs Fs, DocOps Doc Ver, DocHistory Doc}.
Abbreviation St := (Store Fs Doc Ver).

Definition add_admin_key (m : gmap u64 bytes) (r : PeerRecord) : gmap u64 bytes :=
  if bool_decide (role r = Admin) && bool_decide (status r = Active) && ed_key_ok (verifying_key r)
  then <[peer_id r := verifying_key r]> m else m.
Definition admin_author_keys (s : St) : gmap u64 bytes :=
  let m := foldl add_admin_key ∅ (peers s) in
  if bool_decide (self_role s = Some Admin) && ed_key_ok (id_key (identity s))
  then <[id_peer (identity s) := id_key (identity s)]> m else m.

Definition open_classified (kc : Keychain) (payload : bytes) : option bytes :=
  let plan := classify kc payload in
  key ← rp_key plan;
  match open_epoch key (drop (rp_body_offset plan) payload) with Ok pt => Some pt | Err _ => None end.

(** The guards, before anything is changed: what is adopted, or why not. *)
Definition check_snapshot (kc : Keychain) (author_keys : gmap u64 bytes) (framed : bytes)
    : AdoptOutcome + (SnapshotManifest * bytes) :=
  match unframe framed with
  | None => inl (Rejected (str "malformed frame"))
  | Some (mj, sealed) =>
      match from_utf8 mj ≫= from_json with
      | None => inl (Rejected (str "manifest parse"))
      | Some m =>
          match author_keys !! m_author m with
          | None => inl (Rejected (str "author not admin"))
          | Some vk =>
              if negb (manifest_verify m vk) then inl (Rejected (str "bad signature"))
              else if decide (blake3 sealed ≠ snapshot_ct_hash m) then inl (Rejected (str "ct hash mismatch"))
              else match open_classified kc sealed with
                   | None => inl Undecryptable
                   | Some plaintext => inr (m, plaintext)
                   end
          end
      end
  end.
Definition verify_and_adopt_snapshot (kc : Keychain) (author_keys : gmap u64 bytes) (id : rstring)
    (framed : bytes) : SM St StorageError AdoptOutcome :=
  match check_snapshot kc author_keys framed with
  | inl out => mret out
  | inr (m, plaintext) =>
      _ ← adopt_snapshot plaintext;
      _ ← record_held_snapshot id (subsumed_entry_ids m);
      _ ← persist_snapshot_object id framed;
      mret (Adopted id (subsumed_entry_ids m))
  end.
End bootstrap.

(** ** Framing *)
Lemma from_le_take4 n (r : bytes) : (n < 2 ^ 32)%N → from_le (take 4 (le_bytes 4 n ++ r)) = n.
Proof.
  intros Hn. rewrite take_app_length' by (by rewrite length_le_bytes).
  rewrite from_le_le_bytes. by apply N.mod_small.
Qed.

(** Splitting a framed snapshot object gives back the manifest and the ciphertext it
    was framed from, for every manifest shorter than 4 GiB, and every object that
    splits is the frame of its two parts. *)
Theorem unframe_frame m ct b :
  ((N.of_nat (length m) < 2 ^ 32)%N → unframe (frame m ct) = Some (m, ct)) ∧
  (unframe b = Some (m, ct) → frame m ct = b).
Proof.
  unfold unframe, frame. split.
  - intros Hm. rewrite N.mod_small by done. rewrite length_app, length_le_bytes.
    rewrite decide_False by lia. rewrite from_le_take4 by done.
    rewrite drop_app_length' by (by rewrite length_le_bytes). rewrite Nat2N.id, length_app.
    rewrite decide_False by lia. by rewrite take_app_length, drop_app_length.
  - case_decide as Hl; [done|]. case_decide as Hr; [done|]. intros [= <- <-].
    rewrite length_take_le by lia. rewrite N2Nat.id.
    assert (length (take 4 b) = 4) as H4 by (rewrite length_take; lia).
    rewrite N.mod_small by (pose proof (from_le_bound (take 4 b)); rewrite H4 in *; done).
    rewrite <-H4 at 1. rewrite le_bytes_from_le, take_drop. apply take_drop.
Qed.

(** ** The signature covers the manifest *)
Section signing.
Definition is_str (s : rstring) : Prop := forallb is_scalar s = true ∧ is_u64 (N.of_nat (length (utf8 s))).
Definition ids_ok (ids : list rstring) : Prop := Forall is_str ids ∧ is_u64 (N.of_nat (length ids)).
(** What every manifest of the code has: 32-byte digests, 64-bit numbers, and strings. *)
Definition manifest_ok (m : SnapshotManifest) : Prop :=
  length (frontier_digest m) = 32 ∧ length (snapshot_ct_hash m) = 32 ∧ is_u64 (m_author m) ∧
  ids_ok (subsumed_entry_ids m) ∧ ids_ok (blob_ref_ids m).
(** The same manifest up to the order of the ids, whatever its signature field. *)
Definition same_manifest (m m' : SnapshotManifest) : Prop :=
  frontier_digest m = frontier_digest m' ∧ snapshot_ct_hash m = snapshot_ct_hash m' ∧
  m_author m = m_author m' ∧ subsumed_entry_ids m ≡ₚ subsumed_entry_ids m' ∧
  blob_ref_ids m ≡ₚ blob_ref_ids m'.

Lemma id_items_inj l l' r r' :
  Forall is_str l → Forall is_str l' → length l = length l' →
  concat (id_item <$> l) ++ r = concat (id_item <$> l') ++ r' → l = l' ∧ r = r'.
Proof.
  revert l'. induction l as [|x l IH]; intros [|y l'] Hl Hl' Hlen; try done.
  apply Forall_cons in Hl as [[Hx Hxn] Hl]. apply Forall_cons in Hl' as [[Hy Hyn] Hl'].
  rewrite !fmap_cons, !concat_cons. change (id_item x) with (le_bytes 8 (N.of_nat (length (utf8 x))) ++ utf8 x).
  change (id_item y) with (le_bytes 8 (N.of_nat (length (utf8 y))) ++ utf8 y). rewrite <-!(assoc_L (++)).
  intros [En E]%app_inj_1; [|by rewrite !length_le_bytes].
  apply u64_le_bytes_inj, Nat2N.inj in En; [|done..]. apply app_inj_1 in E as [Exy E]; [|done].
  apply utf8_inj in Exy as ->; [|done..]. destruct (IH l' Hl Hl') as [-> ->]; auto with lia.
Qed.

Lemma append_id_list_inj l l' r r' :
  ids_ok l → ids_ok l' → append_id_list l ++ r = append_id_list l' ++ r' → l ≡ₚ l' ∧ r = r'.
Proof.
  intros [Hl Hn] [Hl' Hn']. unfold append_id_list. cbv zeta. rewrite <-!(assoc_L (++)).
  pose proof (merge_sort_Permutation str_le l) as Hp. pose proof (merge_sort_Permutation str_le l') as Hp'.
  rewrite (Permutation_length Hp), (Permutation_length Hp').
  intros [En E]%app_inj_1; [|by rewrite !length_le_bytes]. apply u64_le_bytes_inj, Nat2N.inj in En; [|done..].
  apply id_items_inj in E as [E ->].
  - split; [|done]. by rewrite <-Hp, E, Hp'.
  - by rewrite Hp.
  - by rewrite Hp'.
  - by rewrite Hp, Hp'.
Qed.

Lemma append_id_list_perm l l' : Forall is_str l → l ≡ₚ l' → append_id_list l = append_id_list l'.
Proof.
  intros Hl Hp. unfold append_id_list.
  enough (merge_sort str_le l = merge_sort str_le l') as -> by done.
  apply (StronglySorted_unique_strong str_le).
  - intros x y. rewrite !merge_sort_Permutation. intros Hx Hy Hxy Hyx. rewrite <-Hp in Hy.
    rewrite Forall_forall in Hl. apply utf8_inj; [by apply Hl..|]. by apply (anti_symm bytes_le).
  - apply StronglySorted_merge_sort; apply _.
  - apply StronglySorted_merge_sort; apply _.
  - by rewrite !merge_sort_Permutation, Hp.
Qed.

(** The signed bytes of a snapshot manifest determine it: two manifests have the same
    signed bytes exactly when their digests, their author and both id lists agree, the
    lists up to order; no id can move from one list to the other. *)
Theorem signing_bytes_bind m m' :
  manifest_ok m → manifest_ok m' → signing_bytes m = signing_bytes m' ↔ same_manifest m m'.
Proof.
  intros (Hf&Hc&Ha&Hs&Hb) (Hf'&Hc'&Ha'&Hs'&Hb'). unfold signing_bytes, same_manifest. split.
  - intros E. apply (inj (app MANIFEST_DOMAIN)) in E. apply app_inj_1 in E as [-> E]; [|lia].
    apply app_inj_1 in E as [-> E]; [|lia]. apply app_inj_1 in E as [E1 E]; [|by rewrite !length_le_bytes].
    apply u64_le_bytes_inj in E1 as ->; [|done..].
    apply append_id_list_inj in E as [? E]; [|done..].
    apply (f_equal (λ x, x ++ [])) in E. apply append_id_list_inj in E as [? _]; [|done..]. done.
  - intros (->&->&->&Ps&Pb).
    rewrite (append_id_list_perm (subsumed_entry_ids m) (subsumed_entry_ids m')) by (done || apply Hs).
    by rewrite (append_id_list_perm (blob_ref_ids m) (blob_ref_ids m')) by (done || apply Hb).
Qed.
End signing.

(** ** Adoption *)
Section adoption.
Context `{Ed25519, Crypto, B64, B64Url, JsonOf EntryLine, JsonOf Marker, JsonOf HeldSnapshot, JsonOf SnapshotManifest}.
Context {Fs Doc Ver : Type} `{VaultFs Fs, DocOps Doc Ver, DocHistory Doc}.
Implicit Types s : Store Fs Doc Ver.

(** [framed] is an authentic snapshot by [author], sealed for [kc], with this content. *)
Definition authentic (kc : Keychain) (author : u64) (vk framed : bytes) (m : SnapshotManifest)
    (plaintext : bytes) : Prop :=
  ∃ mj sealed, unframe framed = Some (mj, sealed) ∧ from_utf8 mj ≫= from_json = Some m ∧
    m_author m = author ∧ manifest_verify m vk = true ∧ blake3 sealed = snapshot_ct_hash m ∧
    open_classified kc sealed = Some plaintext.

Lemma check_snapshot_ok kc keys framed m pt :
  check_snapshot kc keys framed = inr (m, pt) ↔
  ∃ vk, keys !! m_author m = Some vk ∧ authentic kc (m_author m) vk framed m pt.
Proof.
  unfold check_snapshot, authentic. split.
  - destruct (unframe framed) as [[mj sealed]|]; [|done]. destruct (from_utf8 mj ≫= from_json) as [m'|] eqn:Em; [|done].
    destruct (keys !! m_author m') as [vk|] eqn:Ek; [|done]. destruct (manifest_verify m' vk) eqn:Ev; [|done].
    simpl. case_decide; [done|]. destruct (open_classified kc sealed) as [pt'|] eqn:Eo; [|done].
    intros [= -> ->]. exists vk. split; [done|]. exists mj, sealed. split_and!; try done.
  - intros (vk&Hk&mj&sealed&Hu&Hm&_&Hv&Hh&Ho). rewrite Hu, Hm, Hk, Hv. simpl.
    rewrite decide_False by (by rewrite Hh; intros []). by rewrite Ho.
Qed.

Lemma add_admin_keys_lookup ps (m : gmap u64 bytes) p vk :
  foldl add_admin_key m ps !! p = Some vk →
  m !! p = Some vk ∨ ∃ r, r ∈ ps ∧ peer_id r = p ∧ role r = Admin ∧ status r = Active ∧ verifying_key r = vk.
Proof.
  revert m. induction ps as [|r ps IH]; intros m; simpl; [by left|]. intros Hl.
  destruct (IH _ Hl) as [Hm|(r'&Hr'&?)]; [|right; exists r'; set_solver].
  unfold add_admin_key in Hm. destruct (bool_decide_reflect (role r = Admin)), (bool_decide_reflect (status r = Active));
    simpl in Hm; try by left. destruct (ed_key_ok _); [|by left].
  apply lookup_insert_Some in Hm as [[<- <-]|[_ ?]]; [|by left]. right. exists r. set_solver.
Qed.

Lemma admin_author_keys_lookup s p vk :
  admin_author_keys s !! p = Some vk →
  (∃ r, r ∈ peers s ∧ peer_id r = p ∧ role r = Admin ∧ status r = Active ∧ verifying_key r = vk) ∨
  p = id_peer (identity s) ∧ vk = id_key (identity s) ∧ self_role s = Some Admin.
Proof.
  unfold admin_author_keys. cbv zeta. intros Hl.
  assert (foldl add_admin_key ∅ (peers s) !! p = Some vk ∨
    p = id_peer (identity s) ∧ vk = id_key (identity s) ∧ self_role s = Some Admin) as [Hm|Hme].
  { destruct (bool_decide_reflect (self_role s = Some Admin)); [|by left].
    destruct (ed_key_ok _); [|by left]. simpl in Hl.
    apply lookup_insert_Some in Hl as [[<- <-]|[_ ?]]; [by right|by left]. }
  - left. by destruct (add_admin_keys_lookup _ _ _ _ Hm) as [?|].
  - by right.
Qed.

(** C22: Only an active admin's snapshot changes anything: if handling a snapshot object
    changes the store, its manifest names an active admin of the roster (or this
    device, itself an admin), carries that admin's signature over exactly this
    ciphertext, and opens under a key of the chain; an object that is rejected or
    cannot be opened leaves the store as it was. *)
Theorem adoption_guarded kc id framed s r s' :
  verify_and_adopt_snapshot kc (admin_author_keys s) id framed s = (r, s') →
  s' = s ∧ (∃ out, r = Ok out ∧ (out = Undecryptable ∨ ∃ why, out = Rejected why)) ∨
  ∃ m pt vk, authentic kc (m_author m) vk framed m pt ∧
    ((∃ p, p ∈ peers s ∧ peer_id p = m_author m ∧ role p = Admin ∧ status p = Active ∧ verifying_key p = vk) ∨
     m_author m = id_peer (identity s) ∧ vk = id_key (identity s) ∧ self_role s = Some Admin).
Proof.
  unfold verify_and_adopt_snapshot. destruct (check_snapshot _ _ framed) as [out|[m pt]] eqn:Ec.
  - intros [= <- <-]. left. split; [done|]. exists out. split; [done|]. revert Ec. unfold check_snapshot.
    repeat (case_match; try (intros [= <-]; eauto)); done.
  - intros _. right. apply check_snapshot_ok in Ec as (vk&Hk&Ha). exists m, pt, vk. split; [done|].
    by apply admin_author_keys_lookup.
Qed.
End adoption.

Section own_signature.
Context `{Ed25519Laws, B64UrlLaws}.
(** A manifest signed by an identity verifies under that identity's key and names it
    as the author. *)
Theorem signed_verifies id m :
  manifest_verify (signed id m) (id_key id) = true ∧ m_author (signed id m) = id_peer id.
Proof.
  split; [|done]. unfold manifest_verify, signed, decode_sig. simpl. rewrite b64url_decode_encode. simpl.
  rewrite decide_True by apply ed_sign_len. apply ed_verify_sign.
Qed.
End own_signature.

(** ** Ordinary names *)
Lemma join_good dir n : good_name n = true → join dir n = dir ++ [n].
Proof.
  intros (Hn&Hd&_&Hs)%good_name_spec. unfold join, path_names.
  destruct (is_absolute n) eqn:Ea.
  - apply is_absolute_spec in Ea as [q ->]. set_solver.
  - rewrite split_on_no_sep by done. by rewrite filter_cons_True, filter_nil.
Qed.
Lemma good_tmp n : good_name n = true → good_name (n ++ str ".tmp") = true.
Proof.
  intros Hn. apply good_name_suffix; [done|simpl; lia|]. by apply (bool_decide_eq_true_1 _), (eq_refl true).
Qed.

(** ** The shelf of held snapshots

    What the bookkeeping amounts to: objects by id, and the list of held snapshots. *)
Record Shelf := mkShelf { objects : gmap rstring bytes; ledger : list HeldSnapshot }.
Inductive ShelfOp :=
  | Hold (id : rstring) (subsumed : list rstring)
  | Put (id : rstring) (framed : bytes)
  | DropObject (id : rstring).
Definition op_id (o : ShelfOp) : rstring := match o with Hold i _ | Put i _ | DropObject i => i end.

Definition shelf_step (sh : Shelf) (o : ShelfOp) : Shelf :=
  match o with
  | Hold id subsumed =>
      mkShelf (objects sh)
        (if existsb (λ h, bool_decide (h_id h = id)) (ledger sh) then ledger sh
         else ledger sh ++ [mkHeld id subsumed])
  | Put id framed => mkShelf (<[id := framed]> (objects sh)) (ledger sh)
  | DropObject id => mkShelf (delete id (objects sh)) (filter (λ h, h_id h ≠ id) (ledger sh))
  end.

Section shelf_refinement.
Context `{Ed25519, Crypto, B64, JsonOf EntryLine, JsonOf Marker, JsonLaws HeldSnapshot}.
Context {Fs Doc Ver : Type} `{VaultFsLaws Fs, DocOps Doc Ver, DocHistory Doc}.
Implicit Types s : Store Fs Doc Ver.

Definition run_shelf_op (o : ShelfOp) : SM (Store Fs Doc Ver) StorageError unit :=
  match o with
  | Hold id subsumed => record_held_snapshot id subsumed
  | Put id framed => persist_snapshot_object id framed
  | DropObject id => drop_snapshot id
  end.

(** An id that names an object: one ordinary component, not a file of its own use. *)
Definition object_id (id : rstring) : Prop := good_name id = true ∧ is_object_name id = true.
Definition object_path s (id : rstring) : path := snapshots_dir (root s) ++ [id].
Definition shelf_paths s (o : ShelfOp) : Prop :=
  object_id (op_id o) ∧ fs_path (held_path (root s)) ∧ fs_path (object_path s (op_id o)) ∧
  fs_path (object_path s (op_id o ++ str ".tmp")).

Definition shelf_of s (sh : Shelf) : Prop :=
  fs_inv (fs s) ∧ log_holds (fs s) (held_path (root s)) (ledger sh) ∧
  ∀ id, object_id id → files (fs s) !! object_path s id = objects sh !! id.

Lemma object_not_tmp id n : object_id id → id ≠ n ++ str ".tmp".
Proof.
  intros [_ Ho] ->. unfold is_object_name in Ho. rewrite (bool_decide_eq_true_2 (_ `suffix_of` _)) in Ho by (by eexists).
  by rewrite orb_true_r in Ho.
Qed.
Lemma object_not_held s id : object_id id → object_path s id ≠ held_path (root s).
Proof.
  intros [_ Ho] Heq. apply (inj (app _)) in Heq. injection Heq as ->.
  unfold is_object_name in Ho. by rewrite (bool_decide_eq_true_2 (_ = str "held.jsonl")), orb_true_r in Ho.
Qed.
Lemma tmp_not_held s id : object_path s (id ++ str ".tmp") ≠ held_path (root s).
Proof.
  intros Heq. apply (inj (app _)) in Heq. injection Heq as Heq. apply (f_equal last) in Heq.
  by rewrite last_app in Heq.
Qed.
Lemma object_path_inj s id n : object_path s id = object_path s n → id = n.
Proof. intros Heq. apply (inj (app _)) in Heq. by injection Heq. Qed.

Lemma held_snapshots_holds s hs :
  fs_inv (fs s) → log_holds (fs s) (held_path (root s)) hs → held_snapshots s = Ok hs.
Proof.
  intros Hinv Hh. unfold held_snapshots. destruct (read_log_text _ _ _ Hinv Hh) as [->|[-> ->]]; [|done].
  rewrite nonblank_log_text, <-list_fmap_compose. apply collect_map_ok.
  apply Forall_Forall2_diag, Forall_forall. intros h _. simpl. by rewrite from_to_json.
Qed.

Lemma hold_refines s s' sh id subsumed :
  shelf_of s sh → shelf_paths s (Hold id subsumed) → record_held_snapshot id subsumed s = (Ok tt, s') →
  root s' = root s ∧ shelf_of s' (shelf_step sh (Hold id subsumed)).
Proof.
  intros (Hinv&Hl&Ho) (_&Hp&_) Hrun. unfold record_held_snapshot in Hrun.
  step_ok Hrun s0 s1 Hg. injection Hg as <- <-. step_ok Hrun hs s1 Hg.
  unfold sm_lift in Hg. rewrite (held_snapshots_holds s _ Hinv Hl) in Hg. injection Hg as <- <-. simpl.
  destruct (existsb _ _); [by injection Hrun as <-|]. 
  step_ok Hrun u s1 Hm. apply on_fs_frame in Hm as [Hm Hs1]. apply io_mkdir in Hm as (Hi1&Hf1&_); [|done].
  apply on_fs_frame in Hrun as [Ha Hs2]. unfold io, sm_map_err in Ha.
  pose proof (fs_append_spec (held_path (root s)) (utf8 (to_json (mkHeld id subsumed) ++ [LF])) (fs s1) Hi1 Hp) as Hs.
  destruct (fs_append _ _ _) as [[[]|] f]; [|done]. injection Ha as ->. destruct Hs as [Hi2 Hf2].
  destruct Hs1 as (Hr1&_), Hs2 as (Hr2&_). split; [congruence|]. simpl in Hf2.
  split_and!; [done| |].
  - unfold log_holds in *. rewrite Hr2, Hr1, Hf2, lookup_insert_eq. simpl.
    by rewrite Hf1, Hl, log_text_snoc, (utf8_app (log_text _)).
  - intros n Hn. simpl. rewrite <-Ho by done. unfold object_path. rewrite Hr2, Hr1, Hf2.
    rewrite lookup_insert_ne by (intros Heq; by apply (object_not_held s n)). by rewrite Hf1.
Qed.

Lemma put_refines s s' sh id framed :
  shelf_of s sh → shelf_paths s (Put id framed) → persist_snapshot_object id framed s = (Ok tt, s') →
  root s' = root s ∧ shelf_of s' (shelf_step sh (Put id framed)).
Proof.
  intros (Hinv&Hl&Ho) (Hid&Hp&Hpo&Hpt) Hrun. unfold persist_snapshot_object in Hrun. cbn [op_id] in *.
  step_ok Hrun s0 s1 Hg. injection Hg as <- <-.
  step_ok Hrun u s1 Hm. apply on_fs_frame in Hm as [Hm Hs1]. apply io_mkdir in Hm as (Hi1&Hf1&_); [|done].
  rewrite !join_good in Hrun by (by try apply good_tmp; apply Hid).
  step_ok Hrun u2 s2 Hw. apply on_fs_frame in Hw as [Hw Hs2]. apply on_fs_frame in Hrun as [Hr Hs3].
  destruct Hs1 as (Hr1&_), Hs2 as (Hr2&_), Hs3 as (Hr3&_).
  assert (object_path s (id ++ str ".tmp") ≠ object_path s id) as Hne
    by (intros Heq%object_path_inj; by apply (object_not_tmp id id)).
  destruct (write_rename_spec (fs s1) (fs s') _ _ framed Hi1 Hpt Hpo Hne) as (Hi&Hput&Hother).
  { unfold mbind, SM_bind. unfold object_path. destruct u2. by rewrite Hw. }
  split; [congruence|]. split_and!; [done| |].
  - simpl. unfold log_holds. rewrite Hr3, Hr2, Hr1, Hother, Hf1; [done| |].
    + intros Heq. by apply (object_not_held s id).
    + intros Heq. by apply (tmp_not_held s id).
  - intros n Hn. simpl. unfold object_path at 1. rewrite Hr3, Hr2, Hr1. destruct (decide (n = id)) as [->|Hni].
    + by rewrite lookup_insert_eq.
    + rewrite lookup_insert_ne, <-Ho by done. fold (object_path s n). rewrite Hother, Hf1; [done| |].
      * by intros Heq%object_path_inj.
      * intros Heq%object_path_inj. by apply (object_not_tmp n id).
Qed.

Lemma drop_refines s s' sh id :
  shelf_of s sh → shelf_paths s (DropObject id) → drop_snapshot id s = (Ok tt, s') →
  root s' = root s ∧ shelf_of s' (shelf_step sh (DropObject id)).
Proof.
  intros (Hinv&Hl&Ho) (Hid&Hp&Hpo&_) Hrun. unfold drop_snapshot in Hrun. cbn [op_id] in *.
  step_ok Hrun s0 s1 Hg. injection Hg as <- <-. rewrite join_good in Hrun by apply Hid.
  step_ok Hrun u s1 Hm. apply on_fs_frame in Hm as [Hm Hs1]. destruct Hs1 as (Hr1&_).
  apply remove_if_present_files in Hm as (Hi1&Hf1&_); [|done..].
  step_ok Hrun s0 s2 Hg. injection Hg as <- <-. step_ok Hrun hs s2 Hg. unfold sm_lift in Hg.
  rewrite (held_snapshots_holds s1 (ledger sh)) in Hg; [|done|].
  2: { unfold log_holds in *. rewrite Hr1, Hf1, lookup_delete_ne; [done|]. by apply object_not_held. }
  injection Hg as <- <-. rewrite Hr1 in Hrun. set (kept := filter _ _) in Hrun.
  assert (root s' = root s1 ∧ fs_inv (fs s') ∧ log_holds (fs s') (held_path (root s)) kept ∧
    ∀ p, p ≠ held_path (root s) → files (fs s') !! p = files (fs s1) !! p) as (Hr2&Hi2&Hk&Hother).
  { destruct kept as [|h kept'] eqn:Ek.
    - apply on_fs_frame in Hrun as [Hm (Hr2&_)]. apply remove_if_present_files in Hm as (Hi2&Hf2&_); [|done..].
      split_and!; [done|done| |]; unfold log_holds; rewrite Hf2; [by rewrite lookup_delete_eq|].
      intros p Hpp. by rewrite lookup_delete_ne.
    - apply on_fs_frame in Hrun as [Hm (Hr2&_)]. apply io_write_files in Hm as (Hi2&Hf2); [|done..].
      split_and!; [done|done| |]; unfold log_holds; rewrite Hf2; [by rewrite lookup_insert_eq|].
      intros p Hpp. by rewrite lookup_insert_ne. }
  split; [congruence|]. split_and!; [done|by rewrite Hr2, Hr1|].
  intros n Hn. simpl. unfold object_path at 1. rewrite Hr2, Hr1. fold (object_path s n).
  rewrite Hother, Hf1 by (by apply object_not_held). destruct (decide (n = id)) as [->|Hne].
  - by rewrite !lookup_delete_eq.
  - rewrite !lookup_delete_ne; [by apply Ho|done|]. by intros Heq%object_path_inj.
Qed.

(** The files of held snapshots implement a shelf: after any run of recording,
    storing and dropping snapshots that succeeds, the ledger read back is the
    recorded snapshots in order, each id once, without the dropped ones, and every
    object read back is the last one stored under its id, if it was not dropped. *)
Theorem shelf_refines ops s s' sh :
  shelf_of s sh → Forall (shelf_paths s) ops → sm_iter run_shelf_op ops s = (Ok tt, s') →
  held_snapshots s' = Ok (ledger (foldl shelf_step sh ops)) ∧
  ∀ id, object_id id → load_snapshot_object id s' = Ok (objects (foldl shelf_step sh ops) !! id).
Proof.
  intros Hsh Hops Hrun.
  assert (shelf_of s' (foldl shelf_step sh ops)) as (Hinv&Hl&Ho).
  { revert s sh Hsh Hops Hrun. induction ops as [|o ops IH]; intros s sh Hsh Hops Hrun; simpl.
    - by injection Hrun as <-.
    - apply Forall_cons in Hops as [Ho Hops]. simpl in Hrun. step_ok Hrun u s1 Hop. destruct u.
      assert (root s1 = root s ∧ shelf_of s1 (shelf_step sh o)) as [Hr Hs1].
      { destruct o; [eapply hold_refines|eapply put_refines|eapply drop_refines]; eauto. }
      eapply (IH s1); eauto. eapply Forall_impl; [done|]. intros o'. unfold shelf_paths, object_path.
      by rewrite Hr. }
  split; [by apply held_snapshots_holds|]. intros id Hid. unfold load_snapshot_object.
  rewrite join_good by apply Hid. fold (object_path s' id). rewrite fs_read_spec, Ho by done.
  by destruct (objects _ !! id).
Qed.
End shelf_refinement.

(** ** What a snapshot claims to replace *)
Lemma byte_NL n : byte_of_N n = NL → (n mod 256 = 10)%N.
Proof. intros Hb. apply (f_equal Byte.to_N) in Hb. by rewrite to_N_byte_of_N in Hb. Qed.

Lemma utf8_char_NL c : is_scalar c = true → NL ∈ utf8_char c → c = LF.
Proof.
  unfold is_scalar, utf8_char, LF. intros Hc.
  repeat (case_match; [|try done]); rewrite ?elem_of_cons, ?elem_of_nil; intros Hin;
    repeat match goal with Hin : _ ∨ _ |- _ => destruct Hin as [Hin|Hin] end; try done;
    symmetry in Hin; apply byte_NL in Hin; repeat match goal with Hb : (_ <? _)%N = _ |- _ =>
      first [apply N.ltb_lt in Hb | apply N.ltb_ge in Hb] end; lia.
Qed.

Lemma utf8_no_NL s : forallb is_scalar s = true → LF ∉ s → NL ∉ utf8 s.
Proof.
  intros Hs Hl Hin. unfold utf8 in Hin. apply list_elem_of_bind in Hin as (c&Hc&Hcs). apply Hl.
  rewrite forallb_forall in Hs. rewrite <-(utf8_char_NL c); [done| |done].
  apply Hs, list_elem_of_In, Hcs.
Qed.

Section subsumed.
Context `{Ed25519, B64, JsonLaws EntryLine, JsonOf Marker}.
Context {Fs Doc Ver : Type} `{VaultFsLaws Fs, DocOps Doc Ver, DocHistory Doc}.
Implicit Types s : Store Fs Doc Ver.

Definition line_bytes (l : EntryLine) : bytes := utf8 (to_json l ++ [LF]).

Lemma line_complete l : complete_line (line_bytes l).
Proof.
  exists (utf8 (to_json l)). unfold line_bytes. rewrite utf8_app. split; [done|].
  apply utf8_no_NL; [apply to_json_scalar|apply to_json_no_LF].
Qed.
Lemma log_text_lines ls : utf8 (log_text ls) = concat (line_bytes <$> ls).
Proof.
  unfold log_text, utf8. induction ls as [|l ls IH]; [done|]. csimpl. rewrite bind_app, IH. done.
Qed.
Lemma split_log_text_bytes ls : split_log_lines_bytes (utf8 (log_text ls)) = line_bytes <$> ls.
Proof.
  rewrite log_text_lines. apply split_concat_lines. apply Forall_fmap, Forall_forall. intros l _. apply line_complete.
Qed.

Lemma subsumed_of_log s p n ls :
  fs_inv (fs s) → log_holds (fs s) (log_file (root s) p) ls →
  subsumed_of s [(p, n)] = Ok (pair p <$> (line_bytes <$> take (N.to_nat n) ls)).
Proof.
  intros Hinv Hl. simpl.
  assert ((if decide (p = id_peer (identity s)) then export_own_log s else export_peer_log s p)
    = Ok (utf8 (log_text ls))) as ->.
  { assert (export_peer_log s p = Ok (utf8 (log_text ls))) as Hx.
    { unfold export_peer_log, read_or_empty. rewrite fs_read_spec by done. unfold log_holds in Hl.
      change (op_path (peer_log s p)) with (log_file (root s) p).
      destruct (files (fs s) !! log_file (root s) p); simpl in *; by rewrite Hl. }
    case_decide as Hme; [|done]. rewrite <-Hx, Hme. done. }
  simpl. unfold mbind, result_bind, mret, result_ret. rewrite app_nil_r, split_log_text_bytes. by rewrite <-fmap_take.
Qed.

(** A snapshot built for a marker that was compacted away claims lines it does not
    contain: after a checkpoint dropped the lines the marker counted, the same count is
    applied to the shortened log, so the lines reported as replaced by the snapshot are
    the ones written after the marker. *)
Theorem stale_marker_subsumes_new_lines s p n (ls : list EntryLine) f' :
  let log := log_file (root s) p in
  let tmp := with_extension log (str "jsonl.tmp") in
  fs_inv (fs s) → fs_path log → fs_path tmp → tmp ≠ log → log_holds (fs s) log ls →
  truncate_leading_lines log (N.to_nat n) (fs s) = (Ok tt, f') →
  subsumed_of s [(p, n)] = Ok (pair p <$> (line_bytes <$> take (N.to_nat n) ls)) ∧
  subsumed_of (set_fs f' s) [(p, n)] = Ok (pair p <$> (line_bytes <$> take (N.to_nat n) (drop (N.to_nat n) ls))).
Proof.
  intros log tmp Hinv Hp Ht Hne Hl Htr. split; [by apply subsumed_of_log|].
  destruct (truncate_spec _ _ _ _ _ Hinv Hp Ht Hne Hl Htr) as (Hi'&Hl'&_). by apply subsumed_of_log.
Qed.
End subsumed.
