(* ===== verification/Engine.v ===== *)
(** * The sync engine (roam-sync-core, engine.rs, frame.rs, transport.rs)

    One device's side of peer-to-peer synchronisation: the frames, the engine's state
    and its handler for every inbound frame, the connection bundle, live pushes, blob
    and snapshot transfer, and the administration calls that gossip their effect.

    The engine calls the store's operations (Store.v to Snapshots.v) and the
    transport; what it asks of the transport is recorded as a list of events, oldest
    first, and whether a dial succeeds is an argument.  Every operation runs to its
    end before the next one starts.  Frames are values: the postcard encoding is the
    transport's. *)
From S2P Require Import Prelude RustStr Vfs Roster Wire Logs Keychain Blob Trust Store StoreRoster StoreSync.
From S2P Require Import StoreKeys Checkpoint Paths Bridge StoreEdit Snapshots.

(** ** Frames *)
Inductive Frame :=
  | Hello (vault : bytes)
  | Have (version : bytes)
  | Ops (author : u64) (jsonl : bytes)
  | RosterHave (authors : list (u64 * u64))
  | RosterOps (author : u64) (jsonl : bytes)
  | Ping
  | BlobWant (hash : rstring)
  | BlobData (hash : rstring) (b : bytes)
  | KeylogHave (authors : list (u64 * u64))
  | KeylogOps (author : u64) (jsonl : bytes)
  | SnapshotHave (ids : list rstring)
  | SnapshotWant (id : rstring)
  | SnapshotData (framed : bytes)
  | BlobChunk (hash : rstring) (offset total_len : u64) (b : bytes).

Definition kind (f : Frame) : rstring :=
  str match f with
      | Hello _ => "Hello" | Have _ => "Have" | Ops _ _ => "Ops" | RosterHave _ => "RosterHave"
      | RosterOps _ _ => "RosterOps" | Ping => "Ping" | BlobWant _ => "BlobWant" | BlobData _ _ => "BlobData"
      | KeylogHave _ => "KeylogHave" | KeylogOps _ _ => "KeylogOps" | SnapshotHave _ => "SnapshotHave"
      | SnapshotWant _ => "SnapshotWant" | SnapshotData _ => "SnapshotData" | BlobChunk _ _ _ _ => "BlobChunk"
      end.

(** ** Version vectors (roam-crdt, [Version]) *)
Class VersionOps (Ver : Type) := { ver_from_bytes : bytes → option Ver; ver_includes : Ver → Ver → bool }.
Class VersionLaws (Doc Ver Fr : Type) `{VersionOps Ver, DocText Doc Ver Fr} := {
  ver_from_to_bytes v : ver_from_bytes (ver_to_bytes v) = Some v;
  ver_includes_refl v : ver_includes v v = true;
  ver_includes_trans u v w : ver_includes u v = true → ver_includes v w = true → ver_includes u w = true;
}.
Definition version_dominates {Ver} `{VersionOps Ver} (superset subset : bytes) : bool :=
  match ver_from_bytes superset, ver_from_bytes subset with
  | Some sup, Some sub => ver_includes sup sub
  | _, _ => false
  end.

(** ** Chunks of a blob *)
Definition BLOB_CHUNK_SIZE : N := 1048576.
Definition MAX_INCOMING_BLOB_BYTES : N := 17179869184.

Record IncomingBlob := mkIncoming { ib_total_len : u64; ib_received : u64; ib_seen : gset u64 }.

Definition chunk_offset_is_admissible (offset total_len : u64) : bool :=
  if (total_len =? 0)%N then (offset =? 0)%N
  else (offset <? total_len)%N && (offset mod BLOB_CHUNK_SIZE =? 0)%N.
Definition expected_chunk_len (offset total_len : u64) : u64 := N.min BLOB_CHUNK_SIZE (total_len - offset).
Definition chunk_is_admissible (offset total_len : u64) (len : nat) : bool :=
  chunk_offset_is_admissible offset total_len && (N.of_nat len =? expected_chunk_len offset total_len)%N.

(** ** State *)
Inductive Event :=
  | Sent (peer : u64) (f : Frame)
  | AddRoute (peer : u64) (key : bytes)
  | RemoveRoute (peer : u64)
  | Changed
  | LocalFlush.

Inductive EngineError := EStore (e : StorageError) | EUnreachable (peer : u64).

Record Engine (ST : Type) := mkEngine {
  e_identity : Identity;
  e_vault : bytes;
  e_vault_key : bytes;
  e_store : ST;
  sent_offsets : gmap u64 nat;
  acked_versions : gmap u64 bytes;
  e_connected : gset u64;
  incoming_blobs : gmap rstring IncomingBlob;
  e_events : list Event;
}.
Arguments mkEngine {ST} _ _ _ _ _ _ _ _ _.
Arguments e_identity {ST} _.
Arguments e_vault {ST} _.
Arguments e_vault_key {ST} _.
Arguments e_store {ST} _.
Arguments sent_offsets {ST} _.
Arguments acked_versions {ST} _.
Arguments e_connected {ST} _.
Arguments incoming_blobs {ST} _.
Arguments e_events {ST} _.

Section setters.
Context {ST : Type}.
Implicit Types e : Engine ST.
Definition set_store x e : Engine ST :=
  mkEngine (e_identity e) (e_vault e) (e_vault_key e) x (sent_offsets e)
    (acked_versions e) (e_connected e) (incoming_blobs e) (e_events e).
Definition set_offsets x e : Engine ST :=
  mkEngine (e_identity e) (e_vault e) (e_vault_key e) (e_store e) x
    (acked_versions e) (e_connected e) (incoming_blobs e) (e_events e).
Definition set_acked x e : Engine ST :=
  mkEngine (e_identity e) (e_vault e) (e_vault_key e) (e_store e) (sent_offsets e)
    x (e_connected e) (incoming_blobs e) (e_events e).
Definition set_connected x e : Engine ST :=
  mkEngine (e_identity e) (e_vault e) (e_vault_key e) (e_store e) (sent_offsets e)
    (acked_versions e) x (incoming_blobs e) (e_events e).
Definition set_incoming x e : Engine ST :=
  mkEngine (e_identity e) (e_vault e) (e_vault_key e) (e_store e) (sent_offsets e)
    (acked_versions e) (e_connected e) x (e_events e).
Definition add_event x e : Engine ST :=
  mkEngine (e_identity e) (e_vault e) (e_vault_key e) (e_store e) (sent_offsets e)
    (acked_versions e) (e_connected e) (incoming_blobs e) (e_events e ++ [x]).

(** A new engine over a store. *)
Definition with_store (id : Identity) (vault : bytes) (store : ST) (vault_key : bytes) : Engine ST :=
  mkEngine id vault vault_key store ∅ ∅ ∅ ∅ [].

Definition upd (f : Engine ST → Engine ST) : SM (Engine ST) EngineError unit := λ e, (Ok tt, f e).
Definition emit (x : Event) : SM (Engine ST) EngineError unit := upd (add_event x).
Definition send (peer : u64) (f : Frame) : SM (Engine ST) EngineError unit := emit (Sent peer f).

(** A call on the store whose result is inspected ([match], [let _ =]), or returned
    early on failure ([?]); the store keeps what the call did in either case. *)
Definition try_store {A} (m : SM ST StorageError A) : SM (Engine ST) EngineError (result StorageError A) := λ e,
  let '(r, s) := m (e_store e) in (Ok r, set_store s e).
Definition in_store {A} (m : SM ST StorageError A) : SM (Engine ST) EngineError A := λ e,
  let '(r, s) := m (e_store e) in (map_err EStore r, set_store s e).
End setters.

(** [unwrap_or_default] on bytes, [ok().flatten()] and the like *)
Definition or_empty {E} (r : result E bytes) : bytes := match r with Ok b => b | Err _ => [] end.

(** ** Operations *)
Section engine.
Context `{Ed25519, Crypto, EdX, B64, B64Url}.
Context `{JsonOf EntryLine, JsonOf RosterLine, JsonOf (list PeerRecord), JsonOf KeyLine, JsonOf Marker}.
Context `{JsonOf HeldSnapshot, JsonOf SnapshotManifest, JsonOf FileEntry}.
Context {Fs Doc Ver Fr : Type} `{VaultFs Fs, DocOps Doc Ver, DocHistory Doc, DocText Doc Ver Fr, VersionOps Ver}.
(** Hash-map orders, the bound of the roster closure, and the transport's dial. *)
Variable pick : gset u64 → option u64.
Variable fuel : nat.
Variable set_order : gset u64 → list u64.
Variable dial_ok : u64 → bool.

Abbreviation ST := (Store Fs Doc Ver).
Abbreviation Eng := (Engine ST).
Abbreviation M A := (SM Eng EngineError A).
Implicit Types e : Eng.

Definition me e : u64 := id_peer (e_identity e).
Definition blobs_dir (s : ST) : path := assets_dir (root s).

(** *** Reading the roster *)
Definition active (p : PeerRecord) : bool := bool_decide (status p = Active).
Definition is_active (peer : u64) e : bool :=
  existsb (λ p, bool_decide (peer_id p = peer) && active p) (peers (e_store e)).
Definition key_for (peer : u64) e : option bytes :=
  r ← find_peer (e_store e) peer; if ed_key_ok (verifying_key r) then Some (verifying_key r) else None.
Definition other_active e : list PeerRecord :=
  filter (λ p, active p = true ∧ peer_id p ≠ me e) (peers (e_store e)).

Definition held_logs (export : ST → u64 → result StorageError bytes) e : list (u64 * bytes) :=
  omap (λ p, match export (e_store e) (peer_id p) with
             | Ok b => if decide (b = []) then None else Some (peer_id p, b)
             | Err _ => None
             end) (other_active e).
Definition held_peer_logs e : list (u64 * bytes) := held_logs export_peer_log e.
Definition held_keylogs e : list (u64 * bytes) := held_logs export_keylog e.

(** *** Offering what we hold *)
Record Offer := mkOffer {
  o_doc_version : bytes; o_roster_have : list (u64 * u64); o_own_log : bytes; o_own_roster : bytes;
  o_peer_logs : list (u64 * bytes); o_own_keylog : bytes; o_keylogs : list (u64 * bytes);
}.
Definition gather_offer e : Offer :=
  let s := e_store e in
  mkOffer (doc_version_bytes s) ((λ p, (peer_id p, 0%N)) <$> peers s) (or_empty (export_own_log s))
    (or_empty (export_own_roster s)) (held_peer_logs e) (or_empty (export_own_keylog s)) (held_keylogs e).

Definition send_bundle (peer : u64) : M unit :=
  e ← sm_get;
  let o := gather_offer e in
  _ ← upd (λ e, set_offsets (<[peer := length (o_own_log o)]> (sent_offsets e)) e);
  _ ← upd (λ e, set_connected ({[peer]} ∪ e_connected e) e);
  _ ← send peer (Hello (e_vault e));
  _ ← send peer (RosterHave (o_roster_have o));
  _ ← send peer (Have (o_doc_version o));
  _ ← send peer (Ops (me e) (o_own_log o));
  _ ← sm_iter (λ x, send peer (Ops x.1 x.2)) (o_peer_logs o);
  _ ← send peer (RosterOps (me e) (o_own_roster o));
  _ ← send peer (KeylogHave ((me e, 0%N) :: ((λ x, (x.1, 0%N)) <$> o_keylogs o)));
  _ ← send peer (KeylogOps (me e) (o_own_keylog o));
  sm_iter (λ x, send peer (KeylogOps x.1 x.2)) (o_keylogs o).

Definition connect (peer : u64) : M unit :=
  if dial_ok peer then send_bundle peer else sm_fail (EUnreachable peer).
Definition reconnect_active : M unit :=
  e ← sm_get;
  sm_iter (λ p, if dial_ok (peer_id p) then send_bundle (peer_id p) else mret tt) (other_active e).

Definition push_logs (peer : u64) : M unit :=
  e ← sm_get;
  _ ← send peer (Ops (me e) (or_empty (export_own_log (e_store e))));
  sm_iter (λ x, send peer (Ops x.1 x.2)) (held_peer_logs e).

Definition offer_snapshots (peer : u64) (incoming : Ver) : M unit :=
  e ← sm_get;
  let behind := match ver_from_bytes (doc_version_bytes (e_store e)) with
                | Some ours => negb (ver_includes incoming ours)
                | None => false
                end in
  let ids := if behind then match held_snapshot_ids (e_store e) with Ok ids => ids | Err _ => [] end else [] in
  if decide (ids = []) then mret tt else send peer (SnapshotHave ids).

(** *** Live push *)
Definition push_of (own : bytes) e (peer : u64) : option (u64 * bytes) :=
  o ← sent_offsets e !! peer;
  let suffix := drop (o `min` length own) own in
  if decide (suffix = []) then None else Some (peer, suffix).
Definition flush_local : M unit :=
  e ← sm_get;
  let own := or_empty (export_own_log (e_store e)) in
  let pushes := omap (push_of own e) (set_order (dom (sent_offsets e))) in
  _ ← upd (λ e, set_offsets ((λ _, length own) <$> sent_offsets e) e);
  _ ← sm_iter (λ x, send x.1 (Ops (me e) x.2)) pushes;
  emit LocalFlush.

Definition engine_edit_text (id : rstring) (pos : nat) (t : rstring) : M unit :=
  _ ← in_store (edit_text id pos t); flush_local.

(** *** Blobs we lack *)
Definition wants (v : rstring) : option rstring :=
  match from_value v with
  | Some en => if bool_decide (fe_kind en = BlobKind) && bool_decide (fe_status en = Live)
               then Some (content_hash en) else None
  | None => None
  end.
(** [filter(|h| seen.insert(h))] *)
Definition first_of_each (l : list rstring) : list rstring := reverse (remove_dups (reverse l)).
Definition missing_blob_hashes (s : ST) : list rstring :=
  first_of_each (filter (λ h, blob_has (blobs_dir s) h (fs s) = false)
                        (omap (λ kv, wants kv.2) (entries FILESET_MAP_ID s))).
Definition fileset_wants (s : ST) (hash : rstring) : bool :=
  existsb (λ kv, bool_decide (wants kv.2 = Some hash)) (entries FILESET_MAP_ID s).

Definition request_missing_blobs : M unit :=
  e ← sm_get;
  let wanted := missing_blob_hashes (e_store e) in
  if decide (wanted = []) then mret tt
  else
    let act := peer_id <$> other_active e in
    sm_iter (λ p, sm_iter (λ h, send p (BlobWant h)) wanted)
            (filter (λ p, p ∈ act) (set_order (e_connected e))).

(** *** Gossip after a change *)
Definition broadcast_own_roster : M unit :=
  e ← sm_get;
  let b := or_empty (export_own_roster (e_store e)) in
  sm_iter (λ p, send p (RosterOps (me e) b)) (set_order (e_connected e)).
Definition broadcast_own_keylog : M unit :=
  e ← sm_get;
  let b := or_empty (export_own_keylog (e_store e)) in
  sm_iter (λ p, send p (KeylogOps (me e) b)) (set_order (e_connected e)).

Definition engine_add_peer (peer : u64) (key : bytes) (r : Role) : M unit :=
  _ ← in_store (add_peer pick fuel peer key r);
  _ ← emit (AddRoute peer key);
  broadcast_own_roster.
Definition engine_revoke_peer (peer : u64) (key : bytes) : M unit :=
  _ ← in_store (revoke_peer pick fuel peer key);
  _ ← emit (RemoveRoute peer);
  _ ← upd (λ e, set_connected (e_connected e ∖ {[peer]}) e);
  _ ← upd (λ e, set_offsets (delete peer (sent_offsets e)) e);
  _ ← upd (λ e, set_acked (delete peer (acked_versions e)) e);
  broadcast_own_roster.
Definition engine_set_role (peer : u64) (key : bytes) (r : Role) : M unit :=
  _ ← in_store (set_role pick fuel peer key r); broadcast_own_roster.
Definition engine_set_device_name (name : rstring) : M unit :=
  _ ← in_store (set_device_name pick fuel name); broadcast_own_roster.

(** *** Epoch keys; the randomness of a rotation is an argument. *)
Definition engine_rotate_epoch (rng : nat → bytes * bytes) (nonce new_key : bytes) (paper : option bytes) : M bytes :=
  e ← sm_get;
  let '(id_key0, epoch0_key) := vault_subkeys (e_vault_key e) in
  epoch ← in_store (rotate_epoch rng nonce new_key id_key0 epoch0_key paper);
  _ ← broadcast_own_keylog;
  mret epoch.
Definition engine_recover_with_paper (rng : nat → bytes * bytes) (paper_secret : rstring → bytes)
    (phrase : rstring) : M nat :=
  e ← sm_get;
  let '(id_key0, epoch0_key) := vault_subkeys (e_vault_key e) in
  n ← in_store (recover_with_paper rng paper_secret phrase id_key0 epoch0_key);
  _ ← (if decide (0 < n) then broadcast_own_keylog else mret tt);
  mret n.
Definition engine_backfill_wraps (rng : nat → bytes * bytes) : M nat :=
  e ← sm_get;
  let '(id_key0, epoch0_key) := vault_subkeys (e_vault_key e) in
  n ← in_store (backfill_wraps rng id_key0 epoch0_key);
  _ ← (if decide (0 < n) then broadcast_own_keylog else mret tt);
  mret n.

(** *** Inbound frames *)
Definition ensure_offset (peer : u64) : M unit :=
  upd (λ e, set_offsets (match sent_offsets e !! peer with Some _ => sent_offsets e | None => <[peer := 0]> (sent_offsets e) end) e).

Definition on_hello (peer : u64) (vault : bytes) : M unit :=
  e ← sm_get;
  if decide (vault ≠ e_vault e) then mret tt
  else if negb (is_active peer e) then mret tt
  else
    _ ← ensure_offset peer;
    let first_time := bool_decide (peer ∉ e_connected e) in
    _ ← upd (λ e, set_connected ({[peer]} ∪ e_connected e) e);
    if first_time then send_bundle peer else mret tt.

(** The version recorded for a peer only moves forward. *)
Definition record_ack (peer : u64) (doc_version : bytes) (incoming : Ver) (acked : gmap u64 bytes) : gmap u64 bytes :=
  let replace := match acked !! peer with
                 | None => true
                 | Some prev => match ver_from_bytes prev with
                                | Some prev => ver_includes incoming prev
                                | None => true
                                end
                 end in
  if replace then <[peer := doc_version]> acked else acked.
Definition on_have (peer : u64) (doc_version : bytes) : M unit :=
  match ver_from_bytes doc_version with
  | None => mret tt
  | Some incoming =>
      e ← sm_get;
      if negb (is_active peer e) then mret tt
      else
        _ ← upd (λ e, set_acked (record_ack peer doc_version incoming (acked_versions e)) e);
        _ ← push_logs peer;
        offer_snapshots peer incoming
  end.

Definition on_ops (author : u64) (jsonl : bytes) : M unit :=
  e ← sm_get;
  if decide (author = me e) then mret tt
  else match key_for author e with
       | None => mret tt
       | Some key =>
           let before := doc_version_bytes (e_store e) in
           r ← try_store (apply_peer_ops author key jsonl);
           e ← sm_get;
           match r with
           | Ok _ => if decide (doc_version_bytes (e_store e) ≠ before) then emit Changed else mret tt
           | Err _ => mret tt
           end
       end.

(** [if let Err(err) = self.connect(..).await { let _ = err; }] *)
Definition try_connect (p : PeerRecord) : M unit :=
  _ ← emit (AddRoute (peer_id p) (verifying_key p));
  if dial_ok (peer_id p) then send_bundle (peer_id p) else mret tt.
Definition on_roster_ops (author : u64) (jsonl : bytes) : M unit :=
  e ← sm_get;
  if decide (author = me e) then mret tt
  else match key_for author e with
       | None => mret tt
       | Some key =>
           r ← try_store (import_roster pick fuel author key jsonl);
           e ← sm_get;
           let new_peers := match r with
                            | Err _ => []
                            | Ok _ => filter (λ p, peer_id p ∉ e_connected e) (other_active e)
                            end in
           sm_iter try_connect new_peers
       end.
Definition on_roster_have (peer : u64) : M unit :=
  e ← sm_get;
  if negb (is_active peer e) then mret tt
  else send peer (RosterOps (me e) (or_empty (export_own_roster (e_store e)))).

Definition on_keylog_ops (author : u64) (jsonl : bytes) : M unit :=
  e ← sm_get;
  if decide (author = me e) then mret tt
  else match key_for author e with
       | None => mret tt
       | Some key => _ ← try_store (import_keylog author key jsonl); mret tt
       end.
Definition on_keylog_have (peer : u64) : M unit :=
  e ← sm_get;
  if negb (is_active peer e) then mret tt
  else
    _ ← send peer (KeylogOps (me e) (or_empty (export_own_keylog (e_store e))));
    sm_iter (λ x, send peer (KeylogOps x.1 x.2)) (held_keylogs e).

(** The serving loop: one chunk per iteration; each reads at least one byte, so
    [total_len] iterations are enough. *)
Fixpoint serve_chunks (n : nat) (peer : u64) (hash : rstring) (offset total_len : u64) : M unit :=
  match n with
  | O => mret tt
  | S n =>
      if (offset <? total_len)%N then
        let want := N.to_nat (N.min BLOB_CHUNK_SIZE (total_len - offset)) in
        e ← sm_get;
        match blob_read_range (blobs_dir (e_store e)) hash offset want (fs (e_store e)) with
        | Ok (b :: chunk) =>
            _ ← send peer (BlobChunk hash offset total_len (b :: chunk));
            serve_chunks n peer hash (offset + N.of_nat (length (b :: chunk))) total_len
        | _ => mret tt
        end
      else mret tt
  end.
Definition on_blob_want (peer : u64) (hash : rstring) : M unit :=
  e ← sm_get;
  if negb (is_active peer e) then mret tt
  else match blob_size (blobs_dir (e_store e)) hash (fs (e_store e)) with
       | Ok (Some total_len) =>
           if (total_len =? 0)%N then send peer (BlobChunk hash 0 0 [])
           else serve_chunks (N.to_nat total_len) peer hash 0 total_len
       | _ => mret tt
       end.

Definition on_blob_data (hash : rstring) (b : bytes) : M unit :=
  if decide (blob_hash b ≠ hash) then mret tt
  else
    e ← sm_get;
    if blob_has (blobs_dir (e_store e)) hash (fs (e_store e)) || negb (fileset_wants (e_store e) hash) then mret tt
    else
      r ← try_store (on_fs (blob_put (blobs_dir (e_store e)) b));
      match r with Ok _ => emit Changed | Err _ => mret tt end.

(** The bookkeeping of a chunk: distinct offsets count once. *)
Definition note_chunk (offset total_len : u64) (len : nat) (old : option IncomingBlob) : IncomingBlob :=
  let entry := default (mkIncoming total_len 0 ∅) old in
  if bool_decide (ib_total_len entry = total_len) && bool_decide (offset ∉ ib_seen entry)
  then mkIncoming (ib_total_len entry) (ib_received entry + N.of_nat len) ({[offset]} ∪ ib_seen entry)
  else entry.
Definition finish_blob (hash : rstring) : M unit :=
  e ← sm_get;
  let dir := blobs_dir (e_store e) in
  stored ← (if blob_has dir hash (fs (e_store e)) then
              _ ← try_store (on_fs (discard_incoming dir hash)); mret false
            else
              r ← try_store (on_fs (finalize_incoming dir hash));
              mret match r with Ok b => b | Err _ => false end);
  if stored : bool then emit Changed else mret tt.
Definition on_blob_chunk (hash : rstring) (offset total_len : u64) (b : bytes) : M unit :=
  if (MAX_INCOMING_BLOB_BYTES <? total_len)%N then mret tt
  else if negb (chunk_is_admissible offset total_len (length b)) then mret tt
  else
    e ← sm_get;
    let dir := blobs_dir (e_store e) in
    if blob_has dir hash (fs (e_store e)) || negb (fileset_wants (e_store e) hash) then mret tt
    else
      r ← try_store (on_fs (write_incoming_chunk dir hash offset total_len b));
      match r with
      | Err _ => mret tt
      | Ok _ =>
          let entry := note_chunk offset total_len (length b) (incoming_blobs e !! hash) in
          if (ib_received entry <? ib_total_len entry)%N
          then upd (λ e, set_incoming (<[hash := entry]> (incoming_blobs e)) e)
          else
            _ ← upd (λ e, set_incoming (delete hash (incoming_blobs e)) e);
            finish_blob hash
      end.

Definition on_snapshot_have (peer : u64) (ids : list rstring) : M unit :=
  e ← sm_get;
  if negb (is_active peer e) then mret tt
  else
    let held := match held_snapshot_ids (e_store e) with Ok h => h | Err _ => [] end in
    sm_iter (λ id, if decide (id ∈ held) then mret tt else send peer (SnapshotWant id)) ids.
Definition on_snapshot_want (peer : u64) (id : rstring) : M unit :=
  e ← sm_get;
  if negb (is_active peer e) then mret tt
  else match load_snapshot_object id (e_store e) with
       | Ok (Some framed) => send peer (SnapshotData framed)
       | _ => mret tt
       end.
Definition on_snapshot_data (peer : u64) (framed : bytes) : M unit :=
  e ← sm_get;
  if negb (is_active peer e) then mret tt
  else
    let id := blob_hash framed in
    let '(id_key0, epoch0_key) := vault_subkeys (e_vault_key e) in
    match keychain id_key0 epoch0_key (e_store e) with
    | Err _ => mret tt
    | Ok kc =>
        let before := doc_version_bytes (e_store e) in
        r ← try_store (verify_and_adopt_snapshot kc (admin_author_keys (e_store e)) id framed);
        e ← sm_get;
        match r with
        | Ok (Adopted _ _) => if decide (doc_version_bytes (e_store e) ≠ before) then emit Changed else mret tt
        | _ => mret tt
        end
    end.

Definition handle (peer : u64) (f : Frame) : M unit :=
  match f with
  | Hello vault => on_hello peer vault
  | Have v => on_have peer v
  | Ops author jsonl => on_ops author jsonl
  | RosterHave _ => on_roster_have peer
  | RosterOps author jsonl => on_roster_ops author jsonl
  | Ping => mret tt
  | BlobWant hash => on_blob_want peer hash
  | BlobData hash b => on_blob_data hash b
  | KeylogHave _ => on_keylog_have peer
  | KeylogOps author jsonl => on_keylog_ops author jsonl
  | SnapshotHave ids => on_snapshot_have peer ids
  | SnapshotWant id => on_snapshot_want peer id
  | SnapshotData framed => on_snapshot_data peer framed
  | BlobChunk hash offset total_len b => on_blob_chunk hash offset total_len b
  end.

End engine.

(** [run]: the receive loop over the frames a transport delivers, each with the dials
    that succeed while it is handled; errors are dropped. *)
Section run.
Context `{Ed25519, Crypto, EdX, B64, B64Url}.
Context `{JsonOf EntryLine, JsonOf RosterLine, JsonOf (list PeerRecord), JsonOf KeyLine, JsonOf Marker}.
Context `{JsonOf HeldSnapshot, JsonOf SnapshotManifest, JsonOf FileEntry}.
Context {Fs Doc Ver Fr : Type} `{VaultFs Fs, DocOps Doc Ver, DocHistory Doc, DocText Doc Ver Fr, VersionOps Ver}.
Variable pick : gset u64 → option u64.
Variable fuel : nat.

Record Inbound := mkIn { in_peer : u64; in_frame : Frame; in_dial : u64 → bool }.
Fixpoint run (inbound : list Inbound) (e : Engine (Store Fs Doc Ver)) : Engine (Store Fs Doc Ver) :=
  match inbound with
  | [] => e
  | x :: inbound => run inbound (handle pick fuel (in_dial x) (in_peer x) (in_frame x) e).2
  end.
End run.
