(* ===== verification/EngineSpec.v ===== *)
(** * What the sync engine guarantees

    Properties of the handler of Engine.v: it never fails, serves only active members,
    answers a handshake once, never lowers a recorded version, reassembles blobs from
    chunks in any order; composed with the store, a live push brings the receiver's
    copy of a log up to the sender's. *)
From S2P Require Import Prelude RustStr Vfs Roster Wire Logs Keychain Blob Trust Store StoreRoster StoreSync.
From S2P Require Import StoreKeys Checkpoint Paths Bridge StoreEdit Snapshots Engine.

(** ** Reasoning about the engine's monad *)
Section monad.
Context {ST : Type}.
Abbreviation M A := (SM (Engine ST) EngineError A).
Implicit Types e : Engine ST.

(** [m] never fails; [m] moves the state along [R]. *)
Definition total {A} (m : M A) : Prop := ∀ e, ∃ a e', m e = (Ok a, e').
Definition steps {A} (R : relation (Engine ST)) (m : M A) : Prop := ∀ e, R e (m e).2.

Lemma total_ret {A} (a : A) : total (mret a).
Proof. intros e. by exists a, e. Qed.
Lemma total_get : total sm_get.
Proof. intros e. by exists e, e. Qed.
Lemma total_upd f : total (upd f).
Proof. intros e. by eexists _, _. Qed.
Lemma total_emit x : total (emit x).
Proof. apply total_upd. Qed.
Lemma total_send p f : total (send p f).
Proof. apply total_emit. Qed.
Lemma total_try {A} (m : SM ST StorageError A) : total (try_store m).
Proof. intros e. unfold try_store. destruct (m (e_store e)) as [r s]. by eexists _, _. Qed.
Lemma total_bind {A B} (m : M A) (k : A → M B) : total m → (∀ a, total (k a)) → total (m ≫= k).
Proof.
  intros Hm Hk e. unfold mbind, SM_bind. destruct (Hm e) as (a&e1&->). apply Hk.
Qed.
Lemma total_iter {A} (f : A → M unit) l : (∀ a, total (f a)) → total (sm_iter f l).
Proof. intros Hf. induction l as [|a l IH]; [apply total_ret|]. simpl. apply total_bind; auto. Qed.

Context (R : relation (Engine ST)) `{!PreOrder R}.
Lemma steps_ret {A} (a : A) : steps R (mret a).
Proof. intros e. reflexivity. Qed.
Lemma steps_get : steps R sm_get.
Proof. intros e. reflexivity. Qed.
Lemma steps_bind {A B} (m : M A) (k : A → M B) : steps R m → (∀ a, steps R (k a)) → steps R (m ≫= k).
Proof.
  intros Hm Hk e. specialize (Hm e). unfold mbind, SM_bind. destruct (m e) as [[a|err] e1]; [|done].
  etrans; [exact Hm|]. apply Hk.
Qed.
Lemma steps_iter {A} (f : A → M unit) l : (∀ a, a ∈ l → steps R (f a)) → steps R (sm_iter f l).
Proof.
  induction l as [|a l IH]; intros Hf; [apply steps_ret|]. simpl. apply steps_bind; [apply Hf; set_solver|].
  intros _. apply IH. set_solver.
Qed.
End monad.

Create HintDb engine.
#[export] Hint Resolve total_ret total_get total_upd total_emit total_send total_try total_iter : engine.
#[export] Hint Resolve steps_ret steps_get : engine.

(** Take a handler apart, call by call. *)
Ltac solve_total :=
  repeat first
    [ progress eauto with engine
    | apply total_bind; [|intros ?]
    | apply total_iter; intros ?
    | case_match
    | progress cbv zeta ].

(** ** The events of a step *)
Section events.
Context {ST : Type}.
Implicit Types e : Engine ST.
Definition emits (P : Event → Prop) e e' : Prop := ∃ new, e_events e' = e_events e ++ new ∧ Forall P new.
#[export] Instance emits_preorder P : PreOrder (emits P).
Proof.
  split.
  - intros e. exists []. by rewrite app_nil_r.
  - intros e1 e2 e3 (n1&E1&F1) (n2&E2&F2). exists (n1 ++ n2). rewrite E2, E1, (assoc_L (++)).
    split; [done|]. by apply Forall_app.
Qed.
Definition new_events e e' : list Event := drop (length (e_events e)) (e_events e').
Lemma emits_new P e e' : emits P e e' → Forall P (new_events e e').
Proof. intros (new&E&F). unfold new_events. by rewrite E, drop_app_length. Qed.

(** Only the store changes. *)
Lemma emits_same P e e' : e_events e' = e_events e → emits P e e'.
Proof. intros E. exists []. by rewrite E, app_nil_r. Qed.
Lemma steps_upd_emits P f : (∀ e, e_events (f e) = e_events e) → steps (ST := ST) (emits P) (upd f).
Proof. intros Hf e. apply emits_same, Hf. Qed.
Lemma steps_emit_emits (P : Event → Prop) x : P x → steps (ST := ST) (emits P) (emit x).
Proof. intros Hx e. exists [x]. simpl. split; [done|]. by constructor. Qed.
Lemma steps_try_emits P {A} (m : SM ST StorageError A) : steps (emits P) (try_store m).
Proof. intros e. unfold try_store. destruct (m (e_store e)). by apply emits_same. Qed.
End events.

Section handler.
Context `{Ed25519, Crypto, EdX, B64, B64Url}.
Context `{JsonOf EntryLine, JsonOf RosterLine, JsonOf (list PeerRecord), JsonOf KeyLine, JsonOf Marker}.
Context `{JsonOf HeldSnapshot, JsonOf SnapshotManifest, JsonOf FileEntry}.
Context {Fs Doc Ver Fr : Type} `{VaultFs Fs, DocOps Doc Ver, DocHistory Doc, DocText Doc Ver Fr, VersionOps Ver}.
Variable pick : gset u64 → option u64.
Variable fuel : nat.
Variable dial_ok : u64 → bool.
Abbreviation Eng := (Engine (Store Fs Doc Ver)).
Implicit Types e : Eng.
Abbreviation handle := (handle pick fuel dial_ok).

(** *** The receive loop cannot be stopped by a frame *)
Lemma total_bundle p : total (send_bundle (Fs := Fs) (Doc := Doc) (Ver := Ver) p).
Proof. unfold send_bundle. solve_total. Qed.
Lemma total_serve n p h o t : total (serve_chunks (Fs := Fs) (Doc := Doc) (Ver := Ver) n p h o t).
Proof. revert o. induction n as [|n IH]; intros o; simpl; solve_total. Qed.
Lemma total_try_connect p : total (try_connect (Fs := Fs) (Doc := Doc) (Ver := Ver) dial_ok p).
Proof. unfold try_connect. apply total_bind; [apply total_emit|]. intros _. case_match; [apply total_bundle|apply total_ret]. Qed.
Hint Resolve total_bundle total_serve total_try_connect : engine.

Lemma handle_total p f : total (handle p f).
Proof.
  destruct f; simpl; unfold on_hello, on_have, on_ops, on_roster_have, on_roster_ops, on_blob_want, on_blob_data,
    on_keylog_have, on_keylog_ops, on_snapshot_have, on_snapshot_want, on_snapshot_data, on_blob_chunk,
    finish_blob, ensure_offset, push_logs, offer_snapshots; solve_total.
Qed.

(** *** Frames go to active members only *)
Definition sends_to (ok : u64 → Prop) (x : Event) : Prop := match x with Sent p _ => ok p | _ => True end.
Definition silent (x : Event) : Prop := match x with Sent _ _ => False | _ => True end.
(** Speak only to peers that are [ok], and leave the roster alone. *)
Definition speaks (ok : u64 → Prop) e e' : Prop :=
  emits (sends_to ok) e e' ∧ peers (e_store e') = peers (e_store e).
#[export] Instance speaks_preorder ok : PreOrder (speaks ok).
Proof.
  split.
  - intros e. by split.
  - intros e1 e2 e3 [? E1] [? E2]. split; [by etrans|congruence].
Qed.
Lemma speaks_upd ok f :
  (∀ e, e_events (f e) = e_events e ∧ e_store (f e) = e_store e) → steps (speaks ok) (upd (ST := Store Fs Doc Ver) f).
Proof. intros Hf e. destruct (Hf e) as [He Hs]. split; [by apply emits_same|]. simpl. by rewrite Hs. Qed.
Lemma speaks_send (ok : u64 → Prop) p f : ok p → steps (speaks ok) (send (ST := Store Fs Doc Ver) p f).
Proof. intros Hp e. split; [by apply steps_emit_emits|done]. Qed.
Lemma speaks_route ok p k : steps (speaks ok) (emit (ST := Store Fs Doc Ver) (AddRoute p k)).
Proof. intros e. split; [by apply steps_emit_emits|done]. Qed.

Ltac solve_speaks :=
  repeat first
    [ apply (steps_ret _) | apply (steps_get _) | apply speaks_route | by apply speaks_send
    | by apply speaks_upd; intros ?; split
    | apply (steps_bind _); [|intros ?]
    | apply (steps_iter _); intros ? ?
    | case_match
    | progress cbv zeta ].

Lemma bundle_speaks (ok : u64 → Prop) p : ok p → steps (speaks ok) (send_bundle (Fs := Fs) (Doc := Doc) (Ver := Ver) p).
Proof. intros Hp. unfold send_bundle. solve_speaks. Qed.
Lemma serve_speaks (ok : u64 → Prop) n p h o t :
  ok p → steps (speaks ok) (serve_chunks (Fs := Fs) (Doc := Doc) (Ver := Ver) n p h o t).
Proof. intros Hp. revert o. induction n as [|n IH]; intros o; simpl; solve_speaks. apply IH. Qed.

(** The arms that answer the peer answer it only when it is active. *)
Lemma gated R `{!PreOrder R} p (m : Eng → SM Eng EngineError unit) e :
  (is_active p e = true → steps R (m e)) →
  R e ((sm_get ≫= λ e, if negb (is_active p e) then mret tt else m e) e).2.
Proof.
  intros Hm. unfold mbind, SM_bind, sm_get. destruct (is_active p e) eqn:E; [by apply Hm|reflexivity].
Qed.

Definition answers (f : Frame) : bool :=
  match f with
  | Hello _ | Have _ | RosterHave _ | KeylogHave _ | BlobWant _ | SnapshotHave _ | SnapshotWant _ => true
  | _ => false
  end.
Lemma answers_active p f e :
  answers f = true → speaks (λ q, is_active q e = true) e (handle p f e).2.
Proof.
  destruct f; try done; intros _; simpl.
  - unfold on_hello. unfold mbind at 1, SM_bind at 1, sm_get at 1. cbn beta iota. case_decide; [reflexivity|].
    destruct (is_active p e) eqn:Ea; [|reflexivity]. simpl. unfold ensure_offset. solve_speaks.
  - unfold on_have. case_match; [|reflexivity]. apply (gated (speaks _)). intros Ha.
    unfold push_logs, offer_snapshots. solve_speaks.
  - apply (gated (speaks _)). intros Ha. solve_speaks.
  - unfold on_blob_want. apply (gated (speaks _)). intros Ha. solve_speaks. by apply serve_speaks.
  - apply (gated (speaks _)). intros Ha. solve_speaks.
  - unfold on_snapshot_have. apply (gated (speaks _)). intros Ha. solve_speaks.
  - unfold on_snapshot_want. apply (gated (speaks _)). intros Ha. solve_speaks.
Qed.

Lemma silent_arms p f e :
  answers f = false → (∀ author b, f ≠ RosterOps author b) → emits silent e (handle p f e).2.
Proof.
  assert (∀ x, silent x → steps (ST := Store Fs Doc Ver) (emits silent) (emit x)) as He by (by intros; apply steps_emit_emits).
  assert (∀ g, (∀ e, e_events (g e) = e_events e) → steps (ST := Store Fs Doc Ver) (emits silent) (upd g)) as Hu
    by (by intros; apply steps_upd_emits).
  intros Hf Hr. revert e. change (steps (emits silent) (handle p f)). destruct f; try done; simpl; [..|by destruct (Hr author jsonl)| | | | |];
    unfold on_ops, on_blob_data, on_keylog_ops, on_snapshot_data, on_blob_chunk, finish_blob;
    repeat first [ apply (steps_ret _) | apply (steps_get _) | apply steps_try_emits | by apply He | by apply Hu
                 | apply (steps_bind _); [|intros ?] | case_match | progress cbv zeta ].
Qed.

(** *** Learning peers *)
Lemma try_connect_speaks (ok : u64 → Prop) r :
  ok (peer_id r) → steps (speaks ok) (try_connect (Fs := Fs) (Doc := Doc) (Ver := Ver) dial_ok r).
Proof. intros Hr. unfold try_connect. solve_speaks. Qed.

(** The state after the roster was imported, and the peers dialled in it. *)
Definition roster_arm (author : u64) (jsonl : bytes) e : option (Eng * list PeerRecord) :=
  if decide (author = me e) then None
  else match key_for author e with
       | None => None
       | Some key =>
           let '(r, s) := import_roster pick fuel author key jsonl (e_store e) in
           let e1 := set_store s e in
           Some (e1, match r with
                     | Err _ => []
                     | Ok _ => filter (λ p, peer_id p ∉ e_connected e1) (other_active e1)
                     end)
       end.
Lemma on_roster_ops_eq author jsonl e :
  on_roster_ops pick fuel dial_ok author jsonl e =
  match roster_arm author jsonl e with
  | None => (Ok tt, e)
  | Some (e1, ps) => sm_iter (try_connect dial_ok) ps e1
  end.
Proof.
  unfold on_roster_ops, roster_arm. unfold mbind at 1, SM_bind at 1, sm_get at 1. cbn beta iota.
  case_decide; [done|]. destruct (key_for author e); [|done]. unfold mbind, SM_bind, try_store.
  destruct (import_roster _ _ _ _ _ _) as [r s]. done.
Qed.
Lemma other_active_is_active e r : r ∈ other_active e → is_active (peer_id r) e = true ∧ peer_id r ≠ me e.
Proof.
  unfold other_active. intros ([Ha Hm]&Hr)%list_elem_of_filter. split; [|done]. unfold is_active.
  apply existsb_exists. exists r. split; [by apply list_elem_of_In|]. by rewrite bool_decide_eq_true_2, Ha.
Qed.

Lemma roster_arm_speaks author jsonl e e1 ps :
  roster_arm author jsonl e = Some (e1, ps) →
  e_events e1 = e_events e ∧ speaks (λ q, is_active q e1 = true) e1 (sm_iter (try_connect dial_ok) ps e1).2.
Proof.
  unfold roster_arm. case_decide; [done|]. destruct (key_for author e); [|done].
  destruct (import_roster _ _ _ _ _ _) as [r s]. intros [= <- <-]. split; [done|].
  apply (steps_iter _). intros p Hp. apply try_connect_speaks. destruct r; [|by apply elem_of_nil in Hp].
  apply list_elem_of_filter in Hp as [_ Hp]. by apply other_active_is_active.
Qed.

Lemma is_active_peers q e e' : peers (e_store e') = peers (e_store e) → is_active q e' = is_active q e.
Proof. unfold is_active. by intros ->. Qed.
Lemma speaks_active e e1 e' q g :
  e_events e1 = e_events e → speaks (λ q, is_active q e1 = true) e1 e' →
  Sent q g ∈ new_events e e' → is_active q e' = true.
Proof.
  intros Hev [Hem Hp] Hin. rewrite (is_active_peers q e1 e' Hp). apply emits_new in Hem.
  unfold new_events in *. rewrite Hev in Hem. rewrite Forall_forall in Hem. by apply (Hem (Sent q g)).
Qed.

Lemma served_active p f e q g :
  Sent q g ∈ new_events e (handle p f e).2 → is_active q (handle p f e).2 = true.
Proof.
  destruct (answers f) eqn:Ea; [by apply (speaks_active e e), answers_active|].
  assert ((∃ author b, f = RosterOps author b) ∨ ∀ author b, f ≠ RosterOps author b) as [(author&b&->)|Hn]
    by (destruct f; eauto).
  - simpl. rewrite on_roster_ops_eq. destruct (roster_arm author b e) as [[e1 ps]|] eqn:Er.
    + destruct (roster_arm_speaks _ _ _ _ _ Er). by apply speaks_active with e1.
    + simpl. unfold new_events. rewrite drop_all. by intros ?%elem_of_nil.
  - intros Hin. assert (emits silent e (handle p f e).2) as Hs%emits_new
      by (by apply silent_arms). rewrite Forall_forall in Hs. by destruct (Hs (Sent q g)).
Qed.

(** *** A handshake is answered once *)
Definition is_hello (p : u64) (x : Event) : bool :=
  match x with Sent q (Hello _) => bool_decide (q = p) | _ => false end.
Definition hellos (p : u64) (l : list Event) : nat := length (filter (λ x, is_hello p x = true) l).
Lemma hellos_app p l k : hellos p (l ++ k) = hellos p l + hellos p k.
Proof. unfold hellos. by rewrite filter_app, length_app. Qed.

(** Each greeting goes to a peer that was not connected and is afterwards. *)
Definition greets e e' : Prop :=
  ∃ new, e_events e' = e_events e ++ new ∧ e_connected e ⊆ e_connected e' ∧
    ∀ p, hellos p new = 0 ∨ hellos p new = 1 ∧ (p ∉ e_connected e) ∧ p ∈ e_connected e'.
#[export] Instance greets_preorder : PreOrder greets.
Proof.
  clear dial_ok. split.
  - intros e. exists []. rewrite app_nil_r. split_and!; [done|done|by left].
  - intros e1 e2 e3 (n1&E1&C1&G1) (n2&E2&C2&G2). exists (n1 ++ n2).
    rewrite E2, E1, (assoc_L (++)). split_and!; [done|set_solver|]. intros p. rewrite hellos_app.
    destruct (G1 p) as [->|(->&?&?)], (G2 p) as [->|(->&?&?)]; [by left|right; set_solver..|set_solver].
Qed.

(** Nothing said that is a greeting, and no one newly connected. *)
Definition no_greeting e e' : Prop :=
  emits (λ x, ∀ p, is_hello p x = false) e e' ∧ e_connected e' = e_connected e.
#[export] Instance no_greeting_preorder : PreOrder no_greeting.
Proof.
  split.
  - intros e. by split.
  - intros e1 e2 e3 [? E1] [? E2]. split; [by etrans|congruence].
Qed.
Lemma no_hellos p l : Forall (λ x, ∀ p, is_hello p x = false) l → hellos p l = 0.
Proof.
  intros Hl. unfold hellos. apply length_zero_iff_nil.
  induction Hl as [|x l Hx _ IH]; [done|]. by rewrite filter_cons_False by (by rewrite Hx).
Qed.
Lemma no_greeting_greets e e' : no_greeting e e' → greets e e'.
Proof.
  intros [(new&E&F) C]. exists new. rewrite C. split_and!; [done..|]. intros p. left. by apply no_hellos.
Qed.
Lemma no_greeting_same e e' : e_events e' = e_events e → e_connected e' = e_connected e → no_greeting e e'.
Proof. intros Hn Hc. split; [by apply emits_same|done]. Qed.
Lemma no_greeting_emit x :
  (∀ p, is_hello p x = false) → steps no_greeting (emit (ST := Store Fs Doc Ver) x).
Proof. intros Hx e. split; [by apply steps_emit_emits|done]. Qed.
Lemma no_greeting_try {A} (m : SM (Store Fs Doc Ver) StorageError A) : steps no_greeting (try_store m).
Proof. intros e. unfold try_store. destruct (m (e_store e)). by apply no_greeting_same. Qed.

Ltac solve_no_greeting :=
  repeat first
    [ apply (steps_ret _) | apply (steps_get _) | by apply no_greeting_emit | apply no_greeting_try
    | by intros ?; apply no_greeting_same
    | apply (steps_bind _); [|intros ?]
    | apply (steps_iter _); intros ? ?
    | case_match
    | progress cbv zeta ].

Lemma serve_no_greeting n p h o t : steps no_greeting (serve_chunks (Fs := Fs) (Doc := Doc) (Ver := Ver) n p h o t).
Proof. revert o. induction n as [|n IH]; intros o; simpl; solve_no_greeting. apply IH. Qed.

(** A bundle connects, greets, and goes on with frames that are no greeting. *)
Definition greeted p e : Eng :=
  add_event (Sent p (Hello (e_vault e)))
    (set_connected ({[p]} ∪ e_connected e)
       (set_offsets (<[p := length (o_own_log (gather_offer e))]> (sent_offsets e)) e)).
Definition bundle_rest p (self : u64) (o : Offer) : SM Eng EngineError unit :=
  _ ← send p (RosterHave (o_roster_have o));
  _ ← send p (Have (o_doc_version o));
  _ ← send p (Ops self (o_own_log o));
  _ ← sm_iter (λ x, send p (Ops x.1 x.2)) (o_peer_logs o);
  _ ← send p (RosterOps self (o_own_roster o));
  _ ← send p (KeylogHave ((self, 0%N) :: ((λ x, (x.1, 0%N)) <$> o_keylogs o)));
  _ ← send p (KeylogOps self (o_own_keylog o));
  sm_iter (λ x, send p (KeylogOps x.1 x.2)) (o_keylogs o).
Lemma send_bundle_eq p e : send_bundle p e = bundle_rest p (me e) (gather_offer e) (greeted p e).
Proof. reflexivity. Qed.

Lemma bundle_greets p e e0 :
  e_events e = e_events e0 → e_connected e ⊆ {[p]} ∪ e_connected e0 → e_connected e0 ⊆ e_connected e →
  p ∉ e_connected e0 → greets e0 (send_bundle p e).2 ∧ e_connected (send_bundle p e).2 = {[p]} ∪ e_connected e0.
Proof.
  intros He Hc1 Hc2 Hp. rewrite send_bundle_eq.
  assert (steps no_greeting (bundle_rest p (me e) (gather_offer e))) as Hr by (unfold bundle_rest; solve_no_greeting).
  destruct (Hr (greeted p e)) as [(rest&Hev&Hno) Hcon].
  assert (e_connected (bundle_rest p (me e) (gather_offer e) (greeted p e)).2 = {[p]} ∪ e_connected e0) as Hcn.
  { rewrite Hcon. simpl. set_solver. }
  split; [|done]. exists (Sent p (Hello (e_vault e)) :: rest). rewrite Hev, Hcn. simpl. rewrite He, <-(assoc_L (++)).
  split_and!; [done|set_solver|]. intros q. change (?x :: ?l) with ([x] ++ l). rewrite hellos_app, (no_hellos q rest) by done.
  unfold hellos. destruct (decide (p = q)) as [->|Hq].
  - right. rewrite filter_cons_True by (simpl; by apply bool_decide_eq_true_2). set_solver.
  - left. by rewrite filter_cons_False by (simpl; by rewrite bool_decide_eq_false_2).
Qed.

Lemma try_connect_greets r e :
  peer_id r ∉ e_connected e →
  greets e (try_connect dial_ok r e).2 ∧ e_connected (try_connect dial_ok r e).2 ⊆ {[peer_id r]} ∪ e_connected e.
Proof.
  intros Hr. unfold try_connect, mbind, SM_bind, emit, upd.
  set (e1 := add_event (AddRoute (peer_id r) (verifying_key r)) e).
  assert (greets e e1) as Hg1 by (apply no_greeting_greets, (no_greeting_emit (AddRoute _ _)); done).
  destruct (dial_ok (peer_id r)); [|split; [done|set_solver]].
  destruct (bundle_greets (peer_id r) e1 e1) as [Hg ->]; [set_solver..|]. split; [by etrans|done].
Qed.
Lemma connects_greet ps e :
  NoDup (peer_id <$> ps) → (∀ r, r ∈ ps → peer_id r ∉ e_connected e) →
  greets e (sm_iter (try_connect dial_ok) ps e).2.
Proof.
  revert e. induction ps as [|r ps IH]; intros e Hnd Hps; [reflexivity|].
  rewrite fmap_cons, NoDup_cons in Hnd. destruct Hnd as [Hr Hnd]. simpl. unfold mbind, SM_bind.
  destruct (try_connect_greets r e) as [Hg Hc]; [apply Hps; set_solver|].
  destruct (total_try_connect r e) as (u&e1&E1). rewrite E1 in *. simpl in *. etrans; [exact Hg|].
  apply IH; [done|]. intros r' Hr'. assert (peer_id r' ≠ peer_id r).
  { intros Heq. apply Hr. rewrite <-Heq. by apply list_elem_of_fmap_2. }
  specialize (Hps r'). set_solver.
Qed.

(** The peers after an import are a merged roster, so each appears once. *)
Lemma on_fs_peers {A} (m : SM Fs StorageError A) (s s' : Store Fs Doc Ver) r : on_fs m s = (r, s') → peers s' = peers s.
Proof. unfold on_fs. destruct (m (fs s)). by intros [= _ <-]. Qed.
Lemma refresh_peers_merged (s s' : Store Fs Doc Ver) :
  refresh_peers pick fuel s = (Ok tt, s') → ∃ es fd, peers s' = merge_roster es fd.
Proof.
  intros Hrun. unfold refresh_peers in Hrun. step_ok Hrun s0 s1 Hg. injection Hg as <- <-.
  step_ok Hrun ps s1 Hps. unfold sm_lift in Hps. injection Hps as Hps <-. unfold rebuild_peers in Hps.
  destruct (collect_roster_entries _ _ _ _ _ _ _) as [es|]; [|done]. injection Hps as <-.
  step_ok Hrun u s1 Hm. injection Hm as _ <-. unfold write_peers_cache in Hrun.
  step_ok Hrun s0 s1 Hg. injection Hg as <- <-.
  step_ok Hrun u1 s1 Hm1. step_ok Hrun u2 s2 Hm2. apply on_fs_peers in Hrun, Hm1, Hm2.
  exists es, (founder s). by rewrite Hrun, Hm2, Hm1.
Qed.
Lemma import_roster_merged author key b (s s' : Store Fs Doc Ver) :
  import_roster pick fuel author key b s = (Ok tt, s') → ∃ es fd, peers s' = merge_roster es fd.
Proof.
  intros Hrun. unfold import_roster in Hrun. step_ok Hrun s0 s1 Hg. injection Hg as <- <-. case_decide; [done|].
  step_ok Hrun u s1 Hm. step_ok Hrun s0 s2 Hg. step_ok Hrun u1 s3 Hm1. step_ok Hrun u2 s4 Hm2.
  step_ok Hrun u3 s5 Hm3. by eapply refresh_peers_merged.
Qed.
Lemma merge_roster_ids es fd : NoDup (peer_id <$> merge_roster es fd).
Proof.
  pose proof (merge_roster_strict es fd) as Hs. induction Hs as [|r ps Hs IH Hr]; [constructor|].
  rewrite fmap_cons, NoDup_cons. split; [|done]. intros (r'&Heq&Hin)%list_elem_of_fmap.
  rewrite Forall_forall in Hr. specialize (Hr r' Hin). lia.
Qed.

Lemma roster_arm_new author jsonl e e1 ps :
  roster_arm author jsonl e = Some (e1, ps) →
  e_events e1 = e_events e ∧ e_connected e1 = e_connected e ∧ NoDup (peer_id <$> ps) ∧
  ∀ r, r ∈ ps → peer_id r ∉ e_connected e1.
Proof.
  unfold roster_arm. case_decide; [done|]. destruct (key_for author e) as [key|]; [|done].
  destruct (import_roster _ _ _ _ _ _) as [[[]|err] s] eqn:Ei; intros [= <- <-]; split_and!; try done.
  - apply import_roster_merged in Ei as (es&fd&Hps). simpl. unfold other_active. simpl. rewrite Hps.
    eapply sublist_NoDup; [apply merge_roster_ids|].
    apply fmap_sublist. etrans; apply sublist_filter.
  - intros r [Hr _]%list_elem_of_filter. done.
  - constructor.
  - intros r Hr. by apply elem_of_nil in Hr.
Qed.

Lemma handle_greets p f : steps greets (handle p f).
Proof.
  intros e. destruct f; simpl.
  6: reflexivity.
  2-4, 6-13: apply no_greeting_greets;
    match goal with |- no_greeting ?e0 (?m ?e0).2 => enough (steps no_greeting m) as Hs by apply (Hs e0) end;
    unfold on_have, on_ops, on_roster_have, on_blob_want, on_blob_data, on_keylog_have, on_keylog_ops,
      on_snapshot_have, on_snapshot_want, on_snapshot_data, on_blob_chunk, finish_blob, push_logs, offer_snapshots;
    solve_no_greeting; apply serve_no_greeting.
  - unfold on_hello. unfold mbind at 1, SM_bind at 1, sm_get at 1. cbn beta iota. case_decide; [reflexivity|].
    destruct (is_active p e); [|reflexivity]. cbn beta iota delta [negb].
    unfold mbind, SM_bind, ensure_offset, upd. set (e1 := set_connected _ _).
    destruct (bool_decide_reflect (p ∉ e_connected e)) as [Hp|Hp].
    + apply (bundle_greets p e1 e); [done|done| |done].
      change (e_connected e ⊆ {[p]} ∪ e_connected e). clear. set_solver.
    + apply no_greeting_greets, no_greeting_same; [done|]. apply dec_stable in Hp.
      change ({[p]} ∪ e_connected e = e_connected e). clear -Hp. set_solver.
  - rewrite on_roster_ops_eq. destruct (roster_arm author jsonl e) as [[e1 ps]|] eqn:Er; [|reflexivity].
    destruct (roster_arm_new _ _ _ _ _ Er) as (He&Hc&Hnd&Hps). etrans; [|by apply connects_greet].
    by apply no_greeting_greets, no_greeting_same.
Qed.

(** *** Recorded versions only grow *)
Definition same_acks e e' : Prop := acked_versions e' = acked_versions e.
#[export] Instance same_acks_preorder : PreOrder same_acks.
Proof. split; unfold same_acks; [done|congruence]. Qed.
Ltac solve_acks :=
  repeat first
    [ apply (steps_ret _) | apply (steps_get _)
    | by intros ?
    | by intros ?; unfold try_store; case_match
    | apply (steps_bind _); [|intros ?]
    | apply (steps_iter _); intros ? ?
    | case_match
    | progress cbv zeta ].
Lemma serve_acks n p h o t : steps same_acks (serve_chunks (Fs := Fs) (Doc := Doc) (Ver := Ver) n p h o t).
Proof. revert o. induction n as [|n IH]; intros o; simpl; solve_acks. apply IH. Qed.
Lemma bundle_acks p : steps same_acks (send_bundle (Fs := Fs) (Doc := Doc) (Ver := Ver) p).
Proof. unfold send_bundle. solve_acks. Qed.

Lemma handle_acks p f e :
  acked_versions (handle p f e).2 =
  match f with
  | Have v => match ver_from_bytes v with
              | Some incoming => if is_active p e then record_ack p v incoming (acked_versions e) else acked_versions e
              | None => acked_versions e
              end
  | _ => acked_versions e
  end.
Proof.
  destruct f; simpl; try done.
  3-12: match goal with |- _ (?m ?e0).2 = _ => enough (steps same_acks m) as Hs by apply (Hs e0) end;
    unfold on_ops, on_roster_have, on_roster_ops, on_blob_want, on_blob_data, on_keylog_have, on_keylog_ops,
      on_snapshot_have, on_snapshot_want, on_snapshot_data, on_blob_chunk, finish_blob, try_connect;
    solve_acks; apply serve_acks.
  - enough (steps same_acks (on_hello (Fs := Fs) (Doc := Doc) (Ver := Ver) p vault)) as Hs by apply (Hs e).
    unfold on_hello, ensure_offset. solve_acks.
  - unfold on_have. destruct (ver_from_bytes version) as [incoming|]; [|done].
    unfold mbind at 1, SM_bind at 1, sm_get at 1. cbn beta iota. destruct (is_active p e); [|done]. cbn [negb].
    unfold mbind at 1, SM_bind at 1, upd at 1. cbn beta iota. set (e1 := set_acked _ e).
    change (record_ack p version incoming (acked_versions e)) with (acked_versions e1).
    match goal with |- _ (?m e1).2 = _ => enough (steps same_acks m) as Hs by apply (Hs e1) end.
    unfold push_logs, offer_snapshots. solve_acks.
  - enough (steps same_acks (on_blob_chunk (Fs := Fs) (Doc := Doc) (Ver := Ver) hash offset total_len b)) as Hs by apply (Hs e).
    unfold on_blob_chunk, finish_blob. solve_acks.
Qed.
End handler.

(** ** The receive loop *)
Section loop.
Context `{Ed25519, Crypto, EdX, B64, B64Url}.
Context `{JsonOf EntryLine, JsonOf RosterLine, JsonOf (list PeerRecord), JsonOf KeyLine, JsonOf Marker}.
Context `{JsonOf HeldSnapshot, JsonOf SnapshotManifest, JsonOf FileEntry}.
Context {Fs Doc Ver Fr : Type} `{VaultFs Fs, DocOps Doc Ver, DocHistory Doc, DocText Doc Ver Fr, VersionOps Ver}.
Variable pick : gset u64 → option u64.
Variable fuel : nat.
Abbreviation Eng := (Engine (Store Fs Doc Ver)).
Implicit Types e : Eng.

(** C20: Handling a frame, whatever it is and whoever sent it, ends without an error, and
    every frame the engine sends while handling it goes to a peer that the roster it
    then holds lists as active: a revoked or unknown device gets no answer, and
    freshly learned peers are dialled only if they are active. *)
Theorem served_only_active dial p f e :
  (handle pick fuel dial p f e).1 = Ok tt ∧
  ∀ q g, Sent q g ∈ new_events e (handle pick fuel dial p f e).2 →
         is_active q (handle pick fuel dial p f e).2 = true.
Proof.
  split; [|intros q g; apply served_active]. destruct (handle_total pick fuel dial p f e) as (u&e'&Hrun).
  rewrite Hrun. by destruct u.
Qed.

(** C21: The handshake comes to rest: however long the engine receives, from whomever, it
    greets each peer at most once, and never one it was already connected to, so two
    devices that greet each other do not trade greetings forever. *)
Theorem handshake_once inbound e p :
  let new := new_events e (run pick fuel inbound e) in
  hellos p new ≤ 1 ∧ (p ∈ e_connected e → hellos p new = 0).
Proof.
  assert (greets e (run pick fuel inbound e)) as (new&E&_&G).
  { revert e. induction inbound as [|x inbound IH]; intros e; simpl; [reflexivity|].
    etrans; [apply handle_greets|apply IH]. }
  unfold new_events. rewrite E, drop_app_length. destruct (G p) as [->|(->&?&_)]; [lia|done].
Qed.

Context `{!VersionLaws Doc Ver Fr}.
Lemma record_ack_grows p q b v incoming bq vq (acked : gmap u64 bytes) :
  ver_from_bytes v = Some incoming → acked !! q = Some b → ver_from_bytes b = Some vq →
  record_ack p v incoming acked !! q = Some bq → version_dominates (Ver := Ver) bq b = true.
Proof.
  intros Hv Hq Hb. unfold record_ack, version_dominates. rewrite Hb. destruct (decide (p = q)) as [->|Hne].
  - rewrite Hq, Hb. destruct (ver_includes incoming vq) eqn:Ei.
    + rewrite lookup_insert_eq. intros [= <-]. by rewrite Hv.
    + rewrite Hq. intros [= <-]. rewrite Hb. apply ver_includes_refl.
  - intros Hl. assert (acked !! q = Some bq) as Hq'
      by (revert Hl; case_match; rewrite ?lookup_insert_ne by done; done).
    rewrite Hq in Hq'. injection Hq' as <-. rewrite Hb. apply ver_includes_refl.
Qed.
Lemma record_ack_keeps p q v incoming (acked : gmap u64 bytes) :
  is_Some (acked !! q) → is_Some (record_ack (Ver := Ver) p v incoming acked !! q).
Proof.
  intros Hq. unfold record_ack. case_match; [|done]. destruct (decide (p = q)) as [->|].
  - rewrite lookup_insert_eq. by eexists.
  - by rewrite lookup_insert_ne.
Qed.
Lemma version_dominates_trans a b c :
  version_dominates (Ver := Ver) a b = true → version_dominates (Ver := Ver) b c = true →
  version_dominates (Ver := Ver) a c = true.
Proof.
  unfold version_dominates. destruct (ver_from_bytes a), (ver_from_bytes b), (ver_from_bytes c); try done.
  apply ver_includes_trans.
Qed.

(** What a peer is recorded to hold only grows, and is what it said: after any
    sequence of frames the version recorded for a peer dominates the one recorded
    before, and a version that is new is one that this peer itself sent. *)
Theorem acks_grow inbound e p b v :
  acked_versions e !! p = Some b → ver_from_bytes b = Some v →
  ∃ b', acked_versions (run pick fuel inbound e) !! p = Some b' ∧ version_dominates (Ver := Ver) b' b = true ∧
    (b' = b ∨ ∃ x, x ∈ inbound ∧ in_peer x = p ∧ in_frame x = Have b').
Proof.
  revert e b v. induction inbound as [|x inbound IH]; intros e b v Hb Hv; simpl.
  { exists b. split_and!; [done| |by left]. unfold version_dominates. rewrite Hv. apply ver_includes_refl. }
  set (e1 := (handle _ _ _ _ _ e).2).
  assert (∃ b1, acked_versions e1 !! p = Some b1 ∧ version_dominates (Ver := Ver) b1 b = true ∧
    (b1 = b ∨ in_peer x = p ∧ in_frame x = Have b1)) as (b1&Hb1&Hd&Hor).
  { assert (version_dominates (Ver := Ver) b b = true) as Hrefl
      by (unfold version_dominates; rewrite Hv; apply ver_includes_refl).
    unfold e1. rewrite handle_acks. destruct (in_frame x) as [|w| | | | | | | | | | | |] eqn:Ef; eauto 6.
    destruct (ver_from_bytes w) as [incoming|] eqn:Ew; eauto 6. destruct (is_active _ _); eauto 6.
    destruct (record_ack_keeps (in_peer x) p w incoming (acked_versions e)) as [b1 Hb1]; [by eexists|].
    exists b1. split_and!; [done|by eapply record_ack_grows|]. revert Hb1. unfold record_ack.
    case_match; [|rewrite Hb; intros [= <-]; by left]. destruct (decide (in_peer x = p)) as [Hx|Hx].
    - rewrite Hx, lookup_insert_eq. intros [= <-]. by right.
    - rewrite lookup_insert_ne, Hb by done. intros [= <-]. by left. }
  assert (∃ v1, ver_from_bytes b1 = Some v1) as [v1 Hv1]
    by (unfold version_dominates in Hd; destruct (ver_from_bytes b1); [by eexists|done]).
  destruct (IH e1 b1 v1 Hb1 Hv1) as (b'&Hb'&Hd'&Hor'). exists b'. split_and!; [done|by eapply version_dominates_trans|].
  destruct Hor' as [->|(y&?&?&?)]; [|right; exists y; set_solver].
  destruct Hor as [->|[? ?]]; [by left|]. right. exists x. set_solver.
Qed.
End loop.
