(* ===== verification/EngineSync.v ===== *)
(** * Engine and store together

    Theorems that run the engine's handler over a store whose backend keeps the
    filesystem laws: serving and receiving blobs in chunks, live pushes, and the
    boundary cases where the handler does more or less than it should. *)
From S2P Require Import Prelude RustStr Vfs Roster Wire Logs Keychain Blob Trust Store StoreRoster StoreSync.
From S2P Require Import StoreKeys Checkpoint Paths Bridge StoreEdit Snapshots Engine EngineSpec.

Section sync.
Context `{Ed25519, Crypto, EdX, B64, B64Url}.
Context `{JsonOf EntryLine, JsonOf RosterLine, JsonOf (list PeerRecord), JsonOf KeyLine, JsonOf Marker}.
Context `{JsonOf HeldSnapshot, JsonOf SnapshotManifest, JsonOf FileEntry}.
Context {Fs Doc Ver Fr : Type} `{VaultFs Fs, DocOps Doc Ver, DocHistory Doc, DocText Doc Ver Fr, VersionOps Ver}.
Variable pick : gset u64 → option u64.
Variable fuel : nat.
Abbreviation Eng := (Engine (Store Fs Doc Ver)).
Implicit Types e : Eng.

(** ** Live pushes *)
Lemma iter_sends {A} (g : A → u64 * Frame) l e :
  sm_iter (λ x, send (g x).1 (g x).2) l e =
  (Ok tt, mkEngine (e_identity e) (e_vault e) (e_vault_key e) (e_store e) (sent_offsets e) (acked_versions e)
            (e_connected e) (incoming_blobs e) (e_events e ++ ((λ x, Sent (g x).1 (g x).2) <$> l))).
Proof.
  revert e. induction l as [|x l IH]; intros e; simpl.
  - unfold mret, SM_ret. rewrite app_nil_r. by destruct e.
  - unfold mbind, SM_bind, send, emit, upd. rewrite IH. simpl. by rewrite <-(assoc_L (++)).
Qed.

Section flush.
Variable set_order : gset u64 → list u64.
Hypothesis set_order_spec : ∀ X p, p ∈ set_order X ↔ p ∈ X.

Lemma flush_local_eq e own :
  export_own_log (e_store e) = Ok own →
  let pushes := omap (push_of own e) (set_order (dom (sent_offsets e))) in
  let e' := (flush_local set_order e).2 in
  sent_offsets e' = (λ _, length own) <$> sent_offsets e ∧ e_store e' = e_store e ∧
  new_events e e' = ((λ x, Sent x.1 (Ops (me e) x.2)) <$> pushes) ++ [LocalFlush].
Proof.
  intros Ho pushes.
  assert (flush_local set_order e =
    (sm_iter (λ x, send x.1 (Ops (me e) x.2)) pushes ≫= λ _, emit LocalFlush)
      (set_offsets ((λ _, length own) <$> sent_offsets e) e)) as ->.
  { unfold flush_local. unfold mbind at 1, SM_bind at 1, sm_get at 1. cbn beta iota zeta. by rewrite Ho. }
  unfold mbind, SM_bind.
  pose proof (iter_sends (λ x : u64 * bytes, (x.1, Ops (me e) x.2)) pushes
    (set_offsets ((λ _, length own) <$> sent_offsets e) e)) as Hi. simpl in Hi. rewrite Hi. simpl.
  split_and!; [done..|]. unfold new_events. simpl. by rewrite <-(assoc_L (++)), drop_app_length.
Qed.

Lemma push_of_spec own e p o :
  sent_offsets e !! p = Some o → o < length own → push_of own e p = Some (p, drop o own).
Proof.
  intros Hp Ho. unfold push_of. rewrite Hp. simpl. rewrite Nat.min_l by lia.
  rewrite decide_False; [done|]. intros Hnil. apply (f_equal length) in Hnil. rewrite length_drop in Hnil. simpl in Hnil. lia.
Qed.
Lemma flush_pushes e own p o :
  export_own_log (e_store e) = Ok own → sent_offsets e !! p = Some o → o < length own →
  Sent p (Ops (me e) (drop o own)) ∈ new_events e (flush_local set_order e).2.
Proof.
  intros Ho Hp Hlt. destruct (flush_local_eq e own Ho) as (_&_&->). apply elem_of_app. left.
  apply list_elem_of_fmap. exists (p, drop o own). split; [done|]. apply list_elem_of_omap.
  exists p. split; [|by apply push_of_spec]. apply set_order_spec, elem_of_dom. by eexists.
Qed.
End flush.

(** Connecting to other peers leaves a peer's offset as it is. *)
Lemma bundle_offsets p q e : p ≠ q → sent_offsets (send_bundle q e).2 !! p = sent_offsets e !! p.
Proof.
  intros Hne. rewrite send_bundle_eq.
  assert (∀ m o e0, sent_offsets (bundle_rest (Fs := Fs) (Doc := Doc) (Ver := Ver) q m o e0).2 = sent_offsets e0) as ->.
  { intros m o. set (R := λ e0 e1 : Eng, sent_offsets e1 = sent_offsets e0).
    assert (PreOrder R) by (split; unfold R; [done|congruence]).
    enough (steps R (bundle_rest q m o)) as Hs by apply Hs. unfold bundle_rest.
    repeat first [ apply (steps_bind _); [|intros ?] | apply (steps_iter _); intros ? ? | by intros ? ]. }
  simpl. by rewrite lookup_insert_ne.
Qed.
Lemma connects_offsets dial p ps e :
  p ∉ peer_id <$> ps → sent_offsets (sm_iter (try_connect dial) ps e).2 !! p = sent_offsets e !! p.
Proof.
  revert e. induction ps as [|r ps IH]; intros e Hp; [done|]. rewrite fmap_cons, not_elem_of_cons in Hp.
  destruct Hp as [Hpr Hp]. simpl. unfold mbind, SM_bind.
  destruct (total_try_connect dial r e) as (u&e1&E1). rewrite E1.
  rewrite IH by done. replace e1 with (try_connect dial r e).2 by (by rewrite E1).
  unfold try_connect, mbind, SM_bind, emit, upd. destruct (dial (peer_id r)); [|done].
  etrans; [by apply bundle_offsets|done].
Qed.

(** C39: A revocation that arrives from another device does not stop the live pushes: a
    peer that was connected keeps its place in the push list although the imported
    roster no longer lists it as active, and the next flush sends it every byte of our
    log it has not got. *)
Theorem revoked_peer_still_fed set_order dial from author jsonl p o own e :
  (∀ X q, q ∈ set_order X ↔ q ∈ X) →
  let e1 := (handle pick fuel dial from (RosterOps author jsonl) e).2 in
  p ∈ e_connected e → sent_offsets e !! p = Some o → is_active p e1 = false →
  export_own_log (e_store e1) = Ok own → o < length own →
  Sent p (Ops (me e1) (drop o own)) ∈ new_events e1 (flush_local set_order e1).2.
Proof.
  intros Hord e1 Hc Ho _ Hown Hlt. apply flush_pushes; try done. rewrite <-Ho. unfold e1. simpl.
  rewrite on_roster_ops_eq. destruct (roster_arm _ _ _ _ e) as [[e0 ps]|] eqn:Er; [|done].
  rewrite connects_offsets.
  - unfold roster_arm in Er. case_decide; [done|]. destruct (key_for author e); [|done].
    destruct (import_roster _ _ _ _ _ _). by injection Er as <- _.
  - destruct (roster_arm_new _ _ _ _ _ _ _ Er) as (_&Hcon&_&Hps). intros (r&->&Hr)%list_elem_of_fmap.
    apply (Hps r Hr). by rewrite Hcon.
Qed.

(** ** What a peer can read *)
Context `{!VaultFsLaws Fs}.

(** C12: A live push delivers.  A device's own log has the complete lines [A ++ B ++ C], no line twice and no
    line that is the tail of another one (otherwise the overlap that the receiver looks for
    would be ambiguous), with something in [B ++ C]; a connected peer was last sent [A] and
    meanwhile holds [A ++ B].  Then the device's flush sends it the Ops frame with exactly the lines [B ++ C], and
    if the peer lists the device as an active writer with a usable key, that log
    verifies, and the peer's storage takes the write, then handling this frame leaves the peer
    with the device's whole log [A ++ B ++ C], byte for byte. *)
Theorem live_push_delivers set_order dial p q A B C (e r : Eng) key :
  (∀ X x, x ∈ set_order X ↔ x ∈ X) →
  let own := concat (A ++ B ++ C) in
  let file := ops_file (root (e_store r)) (me e) in
  Forall complete_line (A ++ B ++ C) → NoDup (A ++ B ++ C) →
  suffix_free (A ++ B ++ C) → B ++ C ≠ [] →
  export_own_log (e_store e) = Ok own → sent_offsets e !! p = Some (length (concat A)) →
  fs_inv (fs (e_store r)) → fs_path file → files (fs (e_store r)) !! file = Some (concat (A ++ B)) →
  key_for (me e) r = Some key → me e ≠ me r →
  may_import (e_store r) (me e) key own → writable file own (fs (e_store r)) →
  Sent p (Ops (me e) (concat (B ++ C))) ∈ new_events e (flush_local set_order e).2 ∧
  files (fs (e_store (handle pick fuel dial q (Ops (me e) (concat (B ++ C))) r).2)) !! file = Some own.
Proof.
  intros Hord own file Hls Hnd Hsf Hne Hown Hoff Hinv Hp Hfile Hkey Hme Hmay Hw.
  assert (drop (length (concat A)) own = concat (B ++ C)) as Hdrop by (unfold own; by rewrite concat_app, drop_app_length).
  split.
  { rewrite <-Hdrop. apply flush_pushes; try done. unfold own. rewrite concat_app, length_app.
    destruct (B ++ C) as [|l ls] eqn:E; [done|]. apply Forall_app in Hls as [_ [(c&->&_) _]%Forall_cons].
    simpl. rewrite !length_app. simpl. lia. }
  cbn [handle]. unfold on_ops, mbind at 1, SM_bind at 1, sm_get at 1.
  rewrite decide_False, Hkey by done. cbn beta iota zeta. unfold mbind at 1, SM_bind at 1, try_store.
  assert (apply_peer_ops (me e) key (concat (B ++ C)) (e_store r) = import_peer (me e) key own (e_store r)) as ->.
  { unfold apply_peer_ops, mbind, SM_bind, sm_get, sm_lift. rewrite decide_False by apply Hmay.
    rewrite export_peer_log_spec by done. fold file. rewrite Hfile. simpl. by rewrite merge_reassembles. }
  pose proof (import_peer_stores (me e) key own (e_store r) Hinv Hp Hmay Hw) as Hst.
  destruct (import_peer (me e) key own (e_store r)) as [[u|er] s']; cbn beta iota.
  - unfold mbind, SM_bind, sm_get. cbn beta iota. by case_decide.
  - done.
Qed.

(** The absolute path with these names, as a string. *)
Definition absolute_str (names : path) : rstring := concat (cons SLASH <$> names).
Lemma split_absolute names :
  Forall (λ n, good_name n = true) names → names ≠ [] → split_on SLASH (absolute_str names) = [] :: names.
Proof.
  intros Hn Hne. induction Hn as [|n ns Hgood Hns IH]; [done|].
  unfold absolute_str. rewrite fmap_cons, concat_cons. change ((SLASH :: n) ++ ?x) with ([] ++ SLASH :: n ++ x).
  rewrite split_on_sep. simpl. f_equal. destruct ns as [|m ns]; csimpl.
  - rewrite app_nil_r. apply split_on_no_sep. by apply good_name_spec in Hgood as (_&_&_&?).
  - rewrite split_on_sep. rewrite split_on_no_sep by (by apply good_name_spec in Hgood as (_&_&_&?)). simpl. f_equal.
    specialize (IH ltac:(done)). unfold absolute_str in IH. rewrite fmap_cons, concat_cons in IH.
    change ((SLASH :: m) ++ ?x) with ([] ++ SLASH :: m ++ x) in IH. rewrite split_on_sep in IH. by injection IH.
Qed.
Lemma join_absolute dir names :
  Forall (λ n, good_name n = true) names → names ≠ [] → join dir (absolute_str names) = names.
Proof.
  intros Hn Hne. unfold join. assert (is_absolute (absolute_str names) = true) as ->.
  { destruct names as [|n ns]; [done|]. apply is_absolute_spec. by eexists. }
  unfold path_names. rewrite split_absolute by done. rewrite filter_cons_False by naive_solver.
  induction Hn as [|n ns Hg Hns IH]; [done|]. apply good_name_spec in Hg as (?&?&?&?).
  rewrite filter_cons_True by done. f_equal. destruct ns; [done|]. by apply IH.
Qed.

(** An active peer can read any file: the id of a snapshot request is joined to the
    snapshot directory unchecked, so for every file of the device the request that
    names its absolute path is answered with the file's content. *)
Theorem snapshot_want_reads_any_file dial p names b e :
  fs_inv (fs (e_store e)) → is_active p e = true → names ≠ [] → Forall (λ n, good_name n = true) names →
  files (fs (e_store e)) !! names = Some b →
  Sent p (SnapshotData b) ∈ new_events e (handle pick fuel dial p (SnapshotWant (absolute_str names)) e).2.
Proof.
  intros Hinv Ha Hne Hn Hf. simpl. unfold on_snapshot_want, mbind, SM_bind, sm_get. rewrite Ha. simpl.
  unfold load_snapshot_object. rewrite join_absolute, fs_read_spec, Hf by done. simpl.
  unfold new_events. simpl. rewrite drop_app_length. set_solver.
Qed.
End sync.
