(* ===== verification/EngineBlob.v ===== *)
(** * Blob transfer between engines

    A blob travels as chunks: the server cuts it at multiples of the chunk size, the
    receiver writes each chunk into a part file, counts distinct offsets and publishes
    the blob when every byte is there.  Chunks may arrive in any order, repeatedly and
    from several peers. *)
From S2P Require Import Prelude RustStr Vfs Roster Wire Logs Keychain Blob Trust Store StoreRoster StoreSync.
From S2P Require Import StoreKeys Checkpoint Paths Bridge StoreEdit Snapshots Engine EngineSpec.

(** ** The offsets of a blob *)
Definition chunk_count (total : N) : nat := N.to_nat ((total + BLOB_CHUNK_SIZE - 1) / BLOB_CHUNK_SIZE).
Definition chunk_offsets (total : N) : list N :=
  if (total =? 0)%N then [0%N] else (λ i, N.of_nat i * BLOB_CHUNK_SIZE)%N <$> Stdlib.Lists.List.seq 0 (chunk_count total).
Abbreviation all_offsets total := (list_to_set (chunk_offsets total) : gset N).

Lemma chunk_size_pos : (0 < BLOB_CHUNK_SIZE)%N.
Proof. done. Qed.

Lemma chunk_count_spec total i : (N.of_nat i * BLOB_CHUNK_SIZE < total)%N ↔ i < chunk_count total.
Proof.
  unfold chunk_count. pose proof chunk_size_pos as Hc. set (C := BLOB_CHUNK_SIZE) in *.
  pose proof (N.div_mod (total + C - 1) C ltac:(lia)). pose proof (N.mod_lt (total + C - 1) C ltac:(lia)).
  split; intros Hi.
  - apply Nat.lt_nge. intros Hge.
    assert ((total + C - 1) / C * C ≤ N.of_nat i * C)%N by (apply N.mul_le_mono_r; lia). lia.
  - assert (N.of_nat (S i) * C ≤ (total + C - 1) / C * C)%N by (apply N.mul_le_mono_r; lia). lia.
Qed.

Lemma elem_of_chunk_offsets total o : o ∈ chunk_offsets total ↔ chunk_offset_is_admissible o total = true.
Proof.
  unfold chunk_offsets, chunk_offset_is_admissible. destruct (total =? 0)%N.
  - rewrite list_elem_of_singleton, N.eqb_eq. done.
  - rewrite andb_true_iff, N.ltb_lt, N.eqb_eq, list_elem_of_fmap. setoid_rewrite elem_of_seq. split.
    + intros (i&->&Hi). split; [apply chunk_count_spec; lia|by apply N.Div0.mod_mul].
    + intros [Hlt Hm]. exists (N.to_nat (o / BLOB_CHUNK_SIZE)).
      assert (o = N.of_nat (N.to_nat (o / BLOB_CHUNK_SIZE)) * BLOB_CHUNK_SIZE)%N as Ho.
      { rewrite N2Nat.id. pose proof (N.div_mod o BLOB_CHUNK_SIZE ltac:(done)). lia. }
      split; [done|]. split; [lia|]. apply chunk_count_spec. by rewrite <-Ho.
Qed.
Lemma chunk_offsets_NoDup total : NoDup (chunk_offsets total).
Proof.
  unfold chunk_offsets. case_match; [apply NoDup_singleton|]. apply NoDup_fmap_2; [|apply NoDup_seq].
  intros i j Hij. apply N.mul_cancel_r in Hij; [lia|done].
Qed.

(** ** Counting the bytes *)
Definition bytes_at (total : N) (l : list N) : N := foldr N.add 0%N ((λ o, expected_chunk_len o total) <$> l).
Definition bytes_of (total : N) (seen : gset N) : N := bytes_at total (elements seen).

Lemma bytes_at_perm total l k : l ≡ₚ k → bytes_at total l = bytes_at total k.
Proof. unfold bytes_at. induction 1; csimpl; lia. Qed.
Lemma bytes_at_app total l k : bytes_at total (l ++ k) = (bytes_at total l + bytes_at total k)%N.
Proof. unfold bytes_at. induction l as [|x l IH]; csimpl; lia. Qed.
Lemma bytes_of_insert total o seen :
  o ∉ seen → bytes_of total ({[o]} ∪ seen) = (bytes_of total seen + expected_chunk_len o total)%N.
Proof.
  intros Ho. unfold bytes_of. rewrite (bytes_at_perm _ _ (o :: elements seen)).
  - unfold bytes_at. csimpl. lia.
  - by apply elements_union_singleton.
Qed.

Lemma bytes_at_seq total n :
  bytes_at total ((λ i, N.of_nat i * BLOB_CHUNK_SIZE)%N <$> Stdlib.Lists.List.seq 0 n) = N.min (N.of_nat n * BLOB_CHUNK_SIZE) total.
Proof.
  induction n as [|n IH]; [unfold bytes_at; simpl; lia|]. rewrite seq_S, fmap_app, bytes_at_app, IH. unfold bytes_at, expected_chunk_len. simpl. lia.
Qed.
Lemma bytes_all total : bytes_of total (all_offsets total) = total.
Proof.
  unfold bytes_of. rewrite (bytes_at_perm _ _ (chunk_offsets total)) by apply elements_list_to_set, chunk_offsets_NoDup.
  unfold chunk_offsets. destruct (N.eqb_spec total 0) as [->|Hne]; [done|]. rewrite bytes_at_seq.
  pose proof (chunk_count_spec total (chunk_count total)). lia.
Qed.
Lemma bytes_partial total seen :
  seen ⊆ all_offsets total → seen ≠ all_offsets total → seen ≠ ∅ → (bytes_of total seen < total)%N.
Proof.
  intros Hsub Hne Hnil.
  assert (∃ o, o ∈ all_offsets total ∖ seen) as [o Ho].
  { apply set_choose_L. intros Hemp. apply Hne. apply (anti_symm (⊆)); [done|]. intros x Hx.
    destruct (decide (x ∈ seen)); [done|]. assert (x ∈ all_offsets total ∖ seen) as Hbad by set_solver. rewrite Hemp in Hbad. set_solver. }
  rewrite <-(bytes_all total) at 2. unfold bytes_of.
  rewrite (bytes_at_perm _ (elements (all_offsets total)) (elements seen ++ elements (all_offsets total ∖ seen))).
  2: { rewrite <-elements_disj_union by set_solver. apply elements_proper. set_unfold. intros x.
       destruct (decide (x ∈ seen)); naive_solver. }
  rewrite bytes_at_app. enough (0 < bytes_at total (elements (all_offsets total ∖ seen)))%N by lia.
  assert (o ∈ elements (all_offsets total ∖ seen)) as Hin by (by apply elem_of_elements).
  assert (0 < expected_chunk_len o total)%N as Hpos.
  { apply elem_of_difference in Ho as [Ho Hns]. rewrite elem_of_list_to_set, elem_of_chunk_offsets in Ho.
    unfold chunk_offset_is_admissible in Ho. destruct (N.eqb_spec total 0) as [->|Ht].
    - exfalso. apply Hnil. apply N.eqb_eq in Ho as ->. unfold chunk_offsets in *. simpl in *. set_solver.
    - apply andb_true_iff in Ho as [Ho%N.ltb_lt _]. unfold expected_chunk_len. pose proof chunk_size_pos. lia. }
  apply list_elem_of_split in Hin as (l1&l2&->). rewrite bytes_at_app. unfold bytes_at at 2. csimpl. lia.
Qed.

(** ** Receiving *)
Section receive.
Context `{Ed25519, CryptoLaws, EdX, B64, B64Url}.
Context `{JsonOf EntryLine, JsonOf RosterLine, JsonOf (list PeerRecord), JsonOf KeyLine, JsonOf Marker}.
Context `{JsonOf HeldSnapshot, JsonOf SnapshotManifest, JsonOf FileEntry}.
Context {Fs Doc Ver Fr : Type} `{VaultFsLaws Fs, DocOps Doc Ver, DocHistory Doc, DocText Doc Ver Fr, VersionOps Ver}.
Abbreviation Eng := (Engine (Store Fs Doc Ver)).
Implicit Types e : Eng.

(** The blob, and the store of the device that receives it. *)
Variable b : bytes.
Variable s0 : Store Fs Doc Ver.
Let h := blob_hash b.
Let total := N.of_nat (length b).
Let dir := blobs_dir s0.
Let part := part_path dir h.
Let final := dir ++ [h].

(** A backend that does not refuse to store this blob: creating the part file, making
    its directory, writing into it and moving it into place work. *)
Record accepting (up : Fs → Prop) : Prop := {
  up_inv f : up f → fs_inv f ∧ fs_is_dir final f = false ∧ fs_is_dir part f = false;
  up_mkdir f : up f → up (fs_create_dir_all (incoming_dir dir) f).2;
  up_create n f : up f → ∃ f', fs_create_sized part n f = (Ok tt, f') ∧ up f';
  up_write_range o c f : up f → up (fs_write_range part o c f).2;
  up_rename f : up f → is_Some (files f !! part) → ∃ f', fs_rename part final f = (Ok tt, f') ∧ up f';
}.
Context (up : Fs → Prop) (Hup : accepting up).
Hypothesis Hpaths : blob_paths (Fs := Fs) dir h.
Hypothesis Hmax : (total ≤ MAX_INCOMING_BLOB_BYTES)%N.
Hypothesis Hwant : fileset_wants s0 h = true.

Definition piece (o : N) : bytes := take (N.to_nat (expected_chunk_len o total)) (drop (N.to_nat o) b).
Definition chunk (o : N) : u64 * bytes := (o, piece o).

Lemma piece_len o : o ∈ chunk_offsets total → N.of_nat (length (piece o)) = expected_chunk_len o total ∧ (o ≤ total)%N.
Proof.
  rewrite elem_of_chunk_offsets. unfold chunk_offset_is_admissible. intros Ho.
  assert (o ≤ total)%N as Hle.
  { destruct (N.eqb_spec total 0) as [E|]; [apply N.eqb_eq in Ho; lia|]. apply andb_true_iff in Ho as [Ho%N.ltb_lt _]. lia. }
  split; [|done]. unfold piece, expected_chunk_len, total in *. rewrite length_take, length_drop. lia.
Qed.
Lemma piece_chunk o : chunk_of b (chunk o).
Proof.
  unfold chunk_of. simpl. unfold piece. rewrite length_take, <-take_take. by rewrite (take_ge _ (length (drop _ _))).
Qed.

Lemma filled_subset done done' l : filled b done' l → done ⊆ done' → filled b done l.
Proof. intros [Hl Hf] Hsub. split; [done|]. intros c i Hc. apply Hf. by apply Hsub. Qed.
Lemma filled_all l : filled b (chunk <$> chunk_offsets total) l → l = b.
Proof.
  intros [Hl Hf]. apply list_eq. intros i. destruct (decide (i < length b)) as [Hi|]; [|by rewrite !lookup_ge_None_2 by lia].
  set (o := (N.of_nat i / BLOB_CHUNK_SIZE * BLOB_CHUNK_SIZE)%N). pose proof chunk_size_pos as Hc.
  pose proof (N.div_mod (N.of_nat i) BLOB_CHUNK_SIZE ltac:(lia)). pose proof (N.mod_lt (N.of_nat i) BLOB_CHUNK_SIZE ltac:(lia)).
  assert (o ≤ N.of_nat i < o + BLOB_CHUNK_SIZE)%N as Ho by lia.
  assert (o ∈ chunk_offsets total) as Hin.
  { rewrite elem_of_chunk_offsets. unfold chunk_offset_is_admissible. destruct (N.eqb_spec total 0); [lia|].
    rewrite andb_true_iff, N.ltb_lt, N.eqb_eq. split; [lia|]. by apply N.Div0.mod_mul. }
  apply (Hf (chunk o) i); [by apply list_elem_of_fmap_2|]. unfold in_chunk. simpl.
  destruct (piece_len o Hin) as [Hpl _]. unfold expected_chunk_len in Hpl. lia.
Qed.

(** Where a transfer stands: the offsets seen so far, or the blob in place. *)
Definition receiving (seen : gset N) e : Prop :=
  ∃ f, e_store e = set_fs f s0 ∧ up f ∧ files f !! final = None ∧ seen ⊆ all_offsets total ∧ seen ≠ all_offsets total ∧
    if decide (seen = ∅) then files f !! part = None ∧ incoming_blobs e !! h = None
    else (∃ l, files f !! part = Some l ∧ filled b (chunk <$> elements seen) l) ∧
         incoming_blobs e !! h = Some (mkIncoming total (bytes_of total seen) seen).
Definition received e : Prop := ∃ f, e_store e = set_fs f s0 ∧ up f ∧ files f !! final = Some b.

Lemma no_final f : up f → files f !! final = None → blob_has dir h f = false.
Proof.
  intros Hf Hn. destruct (up_inv _ Hup f Hf) as (Hinv&Hd&_). unfold blob_has, blob_path. unfold h. rewrite blob_hash_valid. fold h.
  destruct (fs_exists_spec (dir ++ [h]) f Hinv) as [_ Hex]. destruct (fs_exists (dir ++ [h]) f); [|done].
  destruct (Hex eq_refl) as [[x Hx]|Hx]; unfold final in *; congruence.
Qed.
Lemma has_final f x : up f → files f !! final = Some x → blob_has dir h f = true.
Proof.
  intros Hf Hn. destruct (up_inv _ Hup f Hf) as (Hinv&Hd&_). unfold blob_has, blob_path. unfold h. rewrite blob_hash_valid. fold h.
  destruct (fs_exists_spec (dir ++ [h]) f Hinv) as [Hex _]. apply Hex. by exists x.
Qed.

(** The backend stores any chunk that lies inside the length of the part file. *)
Lemma write_accepted f o t c :
  up f → (o + N.of_nat (length c) ≤ t)%N → is_u64 t → (∀ l, files f !! part = Some l → N.of_nat (length l) = t) →
  ∃ f', write_incoming_chunk dir h o t c f = (Ok tt, f') ∧ up f'.
Proof.
  clear Hmax Hwant. intros Hf Hend Ht Hl. destruct (up_inv _ Hup f Hf) as (Hinv&_&Hdir).
  unfold write_incoming_chunk. unfold h at 1. rewrite blob_hash_valid. cbn [negb].
  unfold mbind at 1, SM_bind at 1, sm_lift at 1, checked_add. rewrite decide_True by (unfold is_u64 in *; lia).
  simpl. rewrite (proj2 (N.ltb_ge _ _) Hend).
  unfold io, sm_map_err, mbind, SM_bind.
  pose proof (fs_create_dir_all_spec (incoming_dir dir) f Hinv) as Hd. pose proof (up_mkdir _ Hup f Hf) as Hf1.
  destruct (fs_create_dir_all (incoming_dir dir) f) as [r1 f1]. destruct Hd as (->&Hi1&Hff). simpl in *.
  unfold sm_get. fold part. destruct (fs_exists_spec part f1 Hi1) as [Hex1 Hex2].
  destruct (fs_exists part f1) eqn:Ex; simpl.
  - assert (is_Some (files f1 !! part)) as [l Hl1].
    { destruct (Hex2 eq_refl) as [|Hbad]; [done|]. by rewrite (proj2 (proj2 (up_inv _ Hup f1 Hf1))) in Hbad. }
    rewrite fs_file_len_spec, Hl1 by done. simpl. rewrite Hff in Hl1. rewrite decide_False by (rewrite (Hl l Hl1); lia).
    unfold mret, SM_ret. cbn beta iota.
    pose proof (fs_write_range_spec part (N.to_nat o) c f1 Hi1 (proj2 (proj2 Hpaths))) as Hwr.
    pose proof (up_write_range _ Hup (N.to_nat o) c f1 Hf1) as Hf2.
    destruct (fs_write_range part (N.to_nat o) c f1) as [r2 f2]. destruct Hwr as [_ Hwr].
    rewrite Hff, Hl1 in Hwr. destruct Hwr as [-> _]. by exists f2.
  - destruct (up_create _ Hup (N.to_nat t) f1 Hf1) as (f2&E2&Hf2). unfold part in E2 |- *. rewrite E2. simpl. fold part.
    pose proof (fs_create_sized_spec part (N.to_nat t) f1 Hi1 (proj2 (proj2 Hpaths))) as Hcs. unfold part in Hcs.
    rewrite E2 in Hcs. destruct Hcs as [Hi2 Hff2]. simpl in Hff2. fold part in Hff2.
    pose proof (fs_write_range_spec part (N.to_nat o) c f2 Hi2 (proj2 (proj2 Hpaths))) as Hwr.
    pose proof (up_write_range _ Hup (N.to_nat o) c f2 Hf2) as Hf3. unfold part in *.
    destruct (fs_write_range _ (N.to_nat o) c f2) as [r3 f3]. destruct Hwr as [_ Hwr].
    rewrite Hff2, lookup_insert_eq in Hwr. destruct Hwr as [-> _]. by exists f3.
Qed.
Lemma write_chunk_ok f o :
  up f → o ∈ chunk_offsets total → (∀ l, files f !! part = Some l → length l = length b) →
  ∃ f' l, write_incoming_chunk dir h o total (piece o) f = (Ok tt, f') ∧ up f' ∧ length l = length b ∧
    (files f !! part = Some l ∨ files f !! part = None ∧ l = replicate (length b) Byte.x00) ∧
    files f' = <[part := splice (N.to_nat o) (piece o) l]> (files f).
Proof.
  intros Hf Ho Hl. destruct (piece_len o Ho) as [Hpl Hle]. destruct (up_inv _ Hup f Hf) as (Hinv&_).
  destruct (write_accepted f o total (piece o)) as (f'&Hw&Hf'); [done|..].
  { rewrite Hpl. unfold expected_chunk_len. lia. }
  { unfold MAX_INCOMING_BLOB_BYTES, is_u64, U64_MAX in *. lia. }
  { intros l Hpart. by rewrite (Hl l Hpart). }
  exists f'. destruct (chunk_files dir h o total (piece o) f (Ok tt) f' Hinv Hpaths Hw) as [_ (_&_&l&Hll&Hor&Hff)].
  exists l. unfold total in Hll, Hor. rewrite Nat2N.id in Hll, Hor. by split_and!.
Qed.

(** The bookkeeping after one more chunk. *)
Lemma note_chunk_spec seen o e :
  o ∈ chunk_offsets total → seen ⊆ all_offsets total →
  (if decide (seen = ∅) then incoming_blobs e !! h = None
   else incoming_blobs e !! h = Some (mkIncoming total (bytes_of total seen) seen)) →
  note_chunk o total (length (piece o)) (incoming_blobs e !! h) =
    mkIncoming total (bytes_of total ({[o]} ∪ seen)) ({[o]} ∪ seen).
Proof.
  intros Ho Hsub Hinc. destruct (piece_len o Ho) as [Hpl _].
  assert (default (mkIncoming total 0 ∅) (incoming_blobs e !! h) = mkIncoming total (bytes_of total seen) seen) as Hd.
  { case_decide as Hs; rewrite Hinc; [|done]. by subst. }
  unfold note_chunk. rewrite Hd. simpl. rewrite bool_decide_eq_true_2 by done. simpl.
  case_bool_decide as Hin.
  - by rewrite Hpl, bytes_of_insert.
  - by replace ({[o]} ∪ seen) with seen by set_solver.
Qed.

(** The chunk that completes the blob publishes it. *)
Lemma finish_blob_ok e f :
  e_store e = set_fs f s0 → up f → files f !! final = None → files f !! part = Some b →
  received (finish_blob h e).2.
Proof.
  intros He Hf Hn Hp. unfold finish_blob, mbind, SM_bind, sm_get. rewrite He. simpl fs.
  change (blobs_dir (set_fs f s0)) with dir. rewrite no_final by done.
  destruct (up_inv _ Hup f Hf) as (Hinv&_). destruct (up_rename _ Hup f Hf) as (f'&Hr&Hf'); [by exists b|].
  assert (finalize_incoming dir h f = (Ok true, f')) as Hfin.
  { unfold finalize_incoming. unfold h at 1. rewrite blob_hash_valid. cbn [negb]. fold part.
    rewrite fs_read_spec, Hp by done. simpl. rewrite decide_False by (unfold h; intros []; done).
    unfold final in Hr. by rewrite Hr. }
  destruct (finalize_files dir h f (Ok true) f' Hinv Hpaths Hfin) as (_&_&_&Hpub).
  destruct (Hpub b Hp eq_refl true eq_refl) as (_&Hb&_).
  unfold try_store, on_fs. rewrite He. simpl. rewrite Hfin. simpl. exists f'. by split_and!.
Qed.

(** An honest chunk passes every guard. *)
Lemma on_blob_chunk_eq o e f f' :
  e_store e = set_fs f s0 → up f → files f !! final = None → o ∈ chunk_offsets total →
  write_incoming_chunk dir h o total (piece o) f = (Ok tt, f') →
  let entry := note_chunk o total (length (piece o)) (incoming_blobs e !! h) in
  let e1 := set_store (set_fs f' s0) e in
  on_blob_chunk h o total (piece o) e =
    if (ib_received entry <? ib_total_len entry)%N
    then (Ok tt, set_incoming (<[h := entry]> (incoming_blobs e)) e1)
    else finish_blob h (set_incoming (delete h (incoming_blobs e)) e1).
Proof.
  intros He Hf Hn Ho Hw entry e1. pose proof (piece_len o Ho) as [Hpl _].
  unfold on_blob_chunk. replace (MAX_INCOMING_BLOB_BYTES <? total)%N with false by (symmetry; by apply N.ltb_ge).
  assert (chunk_is_admissible o total (length (piece o)) = true) as ->.
  { unfold chunk_is_admissible. rewrite (proj1 (elem_of_chunk_offsets total o)) by done. by apply N.eqb_eq. }
  cbn [negb]. unfold mbind at 1, SM_bind at 1, sm_get at 1. cbn beta iota zeta. rewrite He. simpl fs.
  change (blobs_dir (set_fs f s0)) with dir. change (fileset_wants (set_fs f s0) h) with (fileset_wants s0 h).
  rewrite no_final, Hwant by done. cbn [orb negb].
  unfold mbind at 1, SM_bind at 1, try_store, on_fs. rewrite He. simpl fs. rewrite Hw. cbn beta iota.
  by destruct (ib_received _ <? _)%N.
Qed.

Lemma chunk_step seen o e :
  receiving seen e → o ∈ chunk_offsets total →
  let e' := (on_blob_chunk h o total (piece o) e).2 in
  if decide ({[o]} ∪ seen = all_offsets total) then received e' else receiving ({[o]} ∪ seen) e'.
Proof.
  intros (f&He&Hf&Hn&Hsub&Hne&Hst) Ho. cbv zeta.
  assert (o ∈ all_offsets total) as Hoa by (by apply elem_of_list_to_set).
  destruct (write_chunk_ok f o Hf Ho) as (f'&l&Hw&Hf'&Hll&Hor&Hff).
  { intros l Hl. case_decide; destruct Hst as [Hpart _]; [congruence|]. destruct Hpart as (l'&Hl'&[Hlen _]). congruence. }
  assert (filled b (chunk <$> elements ({[o]} ∪ seen)) (splice (N.to_nat o) (piece o) l)) as Hfill.
  { apply filled_subset with ((chunk <$> elements seen) ++ [chunk o]).
    - apply (filled_splice b (chunk <$> elements seen) l (chunk o)); [|apply piece_chunk|].
      + case_decide as Hs; destruct Hst as [Hpart _].
        * subst. split; [done|]. intros c i Hc. by apply elem_of_nil in Hc.
        * destruct Hpart as (l'&Hl'&Hfl). destruct Hor as [Hor|[Hor _]]; congruence.
      + simpl. destruct (piece_len o Ho) as [Hpl Hle]. unfold expected_chunk_len, total in *. lia.
    - intros c (x&->&Hx)%list_elem_of_fmap. apply elem_of_app. apply elem_of_elements, elem_of_union in Hx as [Hx|Hx].
      + right. apply elem_of_singleton in Hx as ->. set_solver.
      + left. by apply list_elem_of_fmap_2, elem_of_elements. }
  assert (files f' !! final = None) as Hn' by (rewrite Hff, lookup_insert_ne; [done|apply part_not_blob]).
  rewrite (on_blob_chunk_eq o e f f'), (note_chunk_spec seen o e Ho Hsub) by (done || (case_decide; apply Hst)).
  cbn [ib_received ib_total_len]. destruct (decide ({[o]} ∪ seen = all_offsets total)) as [Hall|Hpart].
  - rewrite Hall, bytes_all, N.ltb_irrefl. apply finish_blob_ok with f'; [done..|].
    rewrite Hff, lookup_insert_eq. f_equal. apply filled_all. eapply filled_subset; [exact Hfill|].
    rewrite Hall. intros c (x&->&Hx)%list_elem_of_fmap. apply list_elem_of_fmap_2. set_solver.
  - assert (bytes_of total ({[o]} ∪ seen) < total)%N as Hlt%N.ltb_lt by (apply bytes_partial; set_solver).
    rewrite Hlt. exists f'. split_and!; [done..|set_solver|done|].
    rewrite decide_False by set_solver. simpl. rewrite lookup_insert_eq. split; [|done].
    exists (splice (N.to_nat o) (piece o) l). by rewrite Hff, lookup_insert_eq.
Qed.


(** A blob that has arrived stays: later chunks are ignored. *)
Lemma received_stable o t c e : received e → received (on_blob_chunk h o t c e).2.
Proof.
  intros (f&He&Hf&Hb). enough ((on_blob_chunk h o t c e).2 = e) as -> by (by exists f).
  unfold on_blob_chunk. destruct (_ <? _)%N; [done|]. destruct (negb _); [done|].
  unfold mbind at 1, SM_bind at 1, sm_get at 1. cbn beta iota zeta. rewrite He. simpl fs.
  change (blobs_dir (set_fs f s0)) with dir. change (fs (set_fs f s0)) with f. by rewrite (has_final f b).
Qed.

(** A delivery of honest chunks: any of them, from anyone. *)
Variable pick : gset u64 → option u64.
Variable fuel : nat.
Definition delivers (x : Inbound) (o : N) : Prop := in_frame x = BlobChunk h o total (piece o) ∧ o ∈ chunk_offsets total.

Lemma received_run xs os e : received e → Forall2 delivers xs os → received (run pick fuel xs e).
Proof.
  intros He Hd. revert e He. induction Hd as [|x o xs os [Hx _] _ IH]; intros e He; [done|].
  simpl. apply IH. rewrite Hx. by apply received_stable.
Qed.
Lemma transfer_from seen xs os e :
  receiving seen e → Forall2 delivers xs os → all_offsets total ⊆ seen ∪ list_to_set os → received (run pick fuel xs e).
Proof.
  intros He Hd. revert seen e He. induction Hd as [|x o xs os [Hx Ho] Hd IH]; intros seen e He Hcov.
  - destruct He as (f&_&_&_&Hsub&Hne&_). exfalso. apply Hne. apply (anti_symm (⊆)); [done|]. set_solver.
  - simpl. rewrite Hx. simpl. pose proof (chunk_step seen o e He Ho) as Hstep. cbv zeta in Hstep. case_decide.
    + by eapply received_run.
    + apply (IH _ _ Hstep). set_solver.
Qed.

(** Once every chunk of a wanted blob has been delivered the receiving engine has
    published the blob, and reading it gives exactly the sender's bytes. *)
Lemma transfer_completes xs os e f :
  e_store e = set_fs f s0 → up f → files f !! final = None → files f !! part = None → incoming_blobs e !! h = None →
  Forall2 delivers xs os → (∀ o, o ∈ chunk_offsets total → o ∈ os) →
  let e' := run pick fuel xs e in
  blob_get (blobs_dir (e_store e')) h (fs (e_store e')) = Ok (Some b).
Proof.
  intros He Hf Hn Hp Hi Hd Hcov.
  assert (receiving ∅ e) as Hr.
  { exists f. split_and!; [done..|set_solver| |by rewrite decide_True].
    intros Hbad. pose proof (bytes_all total) as Hb. enough (∃ o, o ∈ chunk_offsets total) as [o Ho].
    { apply (elem_of_list_to_set (C := gset N)) in Ho. rewrite <-Hbad in Ho. set_solver. }
    unfold chunk_offsets. destruct (N.eqb_spec total 0); [by exists 0%N; left|].
    exists 0%N. apply list_elem_of_fmap. exists 0. split; [done|]. apply elem_of_seq. split; [lia|]. simpl.
    apply chunk_count_spec. lia. }
  destruct (transfer_from ∅ xs os e Hr Hd) as (f'&He'&Hf'&Hb).
  { intros o Ho. apply elem_of_list_to_set in Ho. apply elem_of_union. right. by apply elem_of_list_to_set, Hcov. }
  cbv zeta. rewrite He'. change (blobs_dir (set_fs f' s0)) with dir. simpl fs.
  destruct (up_inv _ Hup f' Hf') as (Hinv&_).
  unfold blob_get, blob_path. assert (is_valid_hash h = true) as -> by apply blob_hash_valid. simpl.
  rewrite fs_read_spec by done. fold final. rewrite Hb. simpl. by rewrite decide_True.
Qed.
End receive.

(** ** Serving *)
Section serve.
Context `{Ed25519, CryptoLaws, EdX, B64, B64Url}.
Context `{JsonOf EntryLine, JsonOf RosterLine, JsonOf (list PeerRecord), JsonOf KeyLine, JsonOf Marker}.
Context `{JsonOf HeldSnapshot, JsonOf SnapshotManifest, JsonOf FileEntry}.
Context {Fs Doc Ver Fr : Type} `{VaultFsLaws Fs, DocOps Doc Ver, DocHistory Doc, DocText Doc Ver Fr, VersionOps Ver}.
Abbreviation Eng := (Engine (Store Fs Doc Ver)).
Implicit Types e : Eng.

Variable b : bytes.
Let h := blob_hash b.
Let total := N.of_nat (length b).
Definition reply (p : u64) (o : N) : Event := Sent p (BlobChunk h o total (piece b o)).

Lemma slice_piece o : (o < total)%N → slice (N.to_nat o) (N.to_nat (expected_chunk_len o total)) b = piece b o.
Proof.
  intros Ho. unfold slice, piece. fold total. rewrite (Nat.min_l (N.to_nat o)) by (unfold total in *; lia). f_equal.
  unfold expected_chunk_len, total in *. lia.
Qed.
Lemma piece_full o : (o < total)%N → length (piece b o) = N.to_nat (expected_chunk_len o total).
Proof. intros Ho. unfold piece. fold total. rewrite length_take, length_drop. unfold expected_chunk_len, total in *. lia. Qed.

Lemma serve_from n p i e :
  fs_inv (fs (e_store e)) → files (fs (e_store e)) !! (blobs_dir (e_store e) ++ [h]) = Some b →
  let o := N.min (N.of_nat i * BLOB_CHUNK_SIZE) total in
  (total ≤ N.of_nat n + o)%N → i ≤ chunk_count total →
  e_events (serve_chunks n p h o total e).2 = e_events e ++
    (reply p <$> ((λ i, N.of_nat i * BLOB_CHUNK_SIZE)%N <$> Stdlib.Lists.List.seq i (chunk_count total - i))).
Proof.
  revert i e. induction n as [|n IH]; intros i e Hinv Hb o Hn Hi; pose proof chunk_size_pos as Hc.
  - assert (¬ i < chunk_count total) by (rewrite <-chunk_count_spec; lia).
    replace (chunk_count total - i) with 0 by lia. simpl. by rewrite app_nil_r.
  - cbn [serve_chunks]. destruct (N.ltb_spec o total) as [Hlt|Hge].
    2: { assert (¬ i < chunk_count total) by (rewrite <-chunk_count_spec; lia).
         replace (chunk_count total - i) with 0 by lia. simpl. by rewrite app_nil_r. }
    assert (o = N.of_nat i * BLOB_CHUNK_SIZE)%N as Ho by lia.
    assert (i < chunk_count total) as Hic by (apply chunk_count_spec; lia).
    unfold mbind at 1, SM_bind at 1, sm_get at 1. cbn beta iota zeta.
    assert (blob_read_range (blobs_dir (e_store e)) h o (N.to_nat (N.min BLOB_CHUNK_SIZE (total - o))) (fs (e_store e))
            = Ok (piece b o)) as ->.
    { unfold blob_read_range, blob_path. assert (is_valid_hash h = true) as -> by apply blob_hash_valid. simpl.
      rewrite fs_read_range_spec, Hb by done. simpl. by rewrite <-slice_piece. }
    pose proof (piece_full o Hlt) as Hlen. unfold expected_chunk_len in Hlen.
    destruct (piece b o) as [|x c] eqn:Ep; [simpl in Hlen; lia|]. rewrite <-Ep in *.
    assert (o + N.of_nat (length (piece b o)) = N.min (N.of_nat (S i) * BLOB_CHUNK_SIZE) total)%N as -> by lia.
    unfold mbind, SM_bind, send, emit, upd. rewrite IH by (done || lia).
    replace (chunk_count total - i) with (S (chunk_count total - S i)) by lia. simpl.
    rewrite <-(assoc_L (++)). by rewrite <-Ho.
Qed.

(** The reply to a request is the blob, cut at the chunk boundaries. *)
Lemma want_reply p e :
  fs_inv (fs (e_store e)) → files (fs (e_store e)) !! (blobs_dir (e_store e) ++ [h]) = Some b → is_active p e = true →
  new_events e (on_blob_want p h e).2 = reply p <$> chunk_offsets total.
Proof.
  intros Hinv Hb Ha. unfold on_blob_want, mbind, SM_bind, sm_get. rewrite Ha. simpl.
  unfold blob_size, blob_path. assert (is_valid_hash h = true) as -> by apply blob_hash_valid. simpl.
  rewrite fs_file_len_spec, Hb by done. simpl. fold total. unfold chunk_offsets, new_events.
  destruct (N.eqb_spec total 0) as [E|Hne].
  - simpl. rewrite drop_app_length. unfold reply, piece. fold total. by rewrite E.
  - pose proof (serve_from (N.to_nat total) p 0 e Hinv Hb) as Hs. cbv zeta in Hs.
    change (N.of_nat 0 * BLOB_CHUNK_SIZE)%N with 0%N in Hs. rewrite N.min_0_l in Hs. rewrite Hs by lia. rewrite drop_app_length. by rewrite Nat.sub_0_r.
Qed.
End serve.

(** ** A false length *)
Section stall.
Context `{Ed25519, CryptoLaws, EdX, B64, B64Url}.
Context `{JsonOf EntryLine, JsonOf RosterLine, JsonOf (list PeerRecord), JsonOf KeyLine, JsonOf Marker}.
Context `{JsonOf HeldSnapshot, JsonOf SnapshotManifest, JsonOf FileEntry}.
Context {Fs Doc Ver Fr : Type} `{VaultFsLaws Fs, DocOps Doc Ver, DocHistory Doc, DocText Doc Ver Fr, VersionOps Ver}.
Abbreviation Eng := (Engine (Store Fs Doc Ver)).
Implicit Types e : Eng.
Variable pick : gset u64 → option u64.
Variable fuel : nat.
Variable b : bytes.
Variable dir : path.
Let h := blob_hash b.
Let total := N.of_nat (length b).
Hypothesis Hpaths : blob_paths (Fs := Fs) dir h.

(** The part file has a length that is not the blob's. *)
Definition stalled e : Prop :=
  blobs_dir (e_store e) = dir ∧ fs_inv (fs (e_store e)) ∧ files (fs (e_store e)) !! (dir ++ [h]) = None ∧
  ∃ l, files (fs (e_store e)) !! part_path dir h = Some l ∧ length l ≠ length b.

Lemma stalled_chunk o e : stalled e → stalled (on_blob_chunk h o total (piece b o) e).2.
Proof.
  intros (Hd&Hinv&Hn&l&Hl&Hne). unfold on_blob_chunk.
  destruct (_ <? _)%N; [split_and!; eauto|]. destruct (negb _); [split_and!; eauto|].
  unfold mbind at 1, SM_bind at 1, sm_get at 1. cbn beta iota zeta. destruct (_ || _); [split_and!; eauto|].
  unfold mbind at 1, SM_bind at 1, try_store, on_fs. rewrite Hd.
  destruct (write_incoming_chunk dir h o total (piece b o) (fs (e_store e))) as [r f'] eqn:Ew.
  destruct (chunk_files dir h o total (piece b o) _ r f' Hinv Hpaths Ew) as [Hinv' Hr]. destruct r as [[]|].
  - exfalso. destruct Hr as (_&_&l'&Hl'&[Hpart|[Hpart _]]&_); [|congruence].
    unfold total in Hl'. rewrite Nat2N.id in Hl'. congruence.
  - unfold stalled. simpl. rewrite Hr. split_and!; eauto.
Qed.
Lemma stalled_run xs os e : stalled e → Forall2 (delivers b) xs os → stalled (run pick fuel xs e).
Proof.
  intros He Hd. revert e He. induction Hd as [|x o xs os [Hx _] _ IH]; intros e He; [done|].
  simpl. apply IH. rewrite Hx. by apply stalled_chunk.
Qed.

(** One chunk with a false length blocks a transfer for good: if the first chunk of
    a wanted blob announces another, longer length than the blob has, whoever sends
    it, then no number of honest chunks, in any order, makes the blob available,
    because the part file keeps the announced length and each of them is refused. *)
Theorem false_length_blocks_transfer p dial t c up xs os e :
  let e1 := (handle pick fuel dial p (BlobChunk h 0 t c) e).2 in
  blobs_dir (e_store e) = dir → accepting b (e_store e) up → up (fs (e_store e)) →
  files (fs (e_store e)) !! (dir ++ [h]) = None → files (fs (e_store e)) !! part_path dir h = None →
  (t ≤ MAX_INCOMING_BLOB_BYTES)%N → (BLOB_CHUNK_SIZE < t)%N → t ≠ total → N.of_nat (length c) = BLOB_CHUNK_SIZE →
  fileset_wants (e_store e) h = true → incoming_blobs e !! h = None →
  Forall2 (delivers b) xs os →
  let e' := run pick fuel xs e1 in
  blob_get (blobs_dir (e_store e')) h (fs (e_store e')) = Ok None.
Proof.
  intros e1 Hd Hup Hf0 Hn Hpart Hmax Hbig Hne Hc Hw Hi Hxs e'.
  destruct (up_inv _ _ _ Hup _ Hf0) as (Hinv&_).
  assert (blob_has dir h (fs (e_store e)) = false) as Hhas by (rewrite <-Hd in *; by apply (no_final b (e_store e) up)).
  destruct (write_accepted b (e_store e) up Hup) with (fs (e_store e)) 0%N t c as (f'&Hwr&_); rewrite ?Hd; try done.
  { lia. }
  { unfold MAX_INCOMING_BLOB_BYTES, is_u64, U64_MAX in *. lia. }
  { intros l Hl. fold h in Hl. congruence. }
  rewrite Hd in Hwr. fold h in Hwr.
  assert (stalled e1) as Hst.
  { destruct (chunk_files dir h 0 t c _ _ f' Hinv Hpaths Hwr) as [Hinv' (_&_&l&Hl&_&Hf)].
    unfold e1. cbn [handle]. unfold on_blob_chunk. rewrite (proj2 (N.ltb_ge _ _) Hmax).
    assert (chunk_is_admissible 0 t (length c) = true) as ->.
    { unfold chunk_is_admissible, chunk_offset_is_admissible, expected_chunk_len.
      destruct (N.eqb_spec t 0); [unfold BLOB_CHUNK_SIZE in *; lia|]. rewrite N.sub_0_r, N.min_l, Hc by lia.
      rewrite N.eqb_refl. destruct (N.ltb_spec 0 t); [done|lia]. }
    cbn [negb]. unfold mbind at 1, SM_bind at 1, sm_get at 1. cbn beta iota zeta. rewrite Hd, Hhas, Hw. cbn [orb negb].
    unfold mbind at 1, SM_bind at 1, try_store, on_fs. rewrite Hwr. cbn beta iota.
    unfold note_chunk. rewrite Hi. cbn [default from_option ib_received ib_total_len ib_seen].
    rewrite bool_decide_eq_true_2 by done.
    rewrite bool_decide_eq_true_2 by set_solver. cbn [andb ib_received ib_total_len].
    rewrite Hc, N.add_0_l, (proj2 (N.ltb_lt _ _) Hbig). cbn [fst snd].
    split_and!; [done..| |].
    - simpl. rewrite Hf, lookup_insert_ne; [done|apply part_not_blob].
    - simpl. rewrite Hf, lookup_insert_eq. eexists. split; [done|]. rewrite length_splice. unfold total in *. lia. }
  destruct (stalled_run xs os e1 Hst Hxs) as (Hd'&Hinv'&Hn'&_). unfold e'.
  unfold blob_get, blob_path. assert (is_valid_hash h = true) as -> by apply blob_hash_valid. simpl.
  by rewrite Hd', fs_read_spec, Hn'.
Qed.
End stall.

(** ** From one device to another *)
Section fetch.
Context `{Ed25519, CryptoLaws, EdX, B64, B64Url}.
Context `{JsonOf EntryLine, JsonOf RosterLine, JsonOf (list PeerRecord), JsonOf KeyLine, JsonOf Marker}.
Context `{JsonOf HeldSnapshot, JsonOf SnapshotManifest, JsonOf FileEntry}.
Context {Fs Doc Ver Fr : Type} `{VaultFsLaws Fs, DocOps Doc Ver, DocHistory Doc, DocText Doc Ver Fr, VersionOps Ver}.
Abbreviation Eng := (Engine (Store Fs Doc Ver)).

(** C11: A blob transfer completes.  A device that is an active peer of the serving engine asks it for a blob
    that it stores, of at most 16 GiB; the frames of the reply are delivered, each at least
    once, in any order, any of them repeatedly and through any peers.  The asking engine
    wants the blob, has neither it nor a part of it nor a transfer of it under way, its storage takes
    every write of the transfer and the blob's file names are legal there.  Then it ends with the blob
    published and reads back exactly the stored bytes.  (An asker that is not active gets no frame, and a
    larger blob is refused.) *)
Theorem blob_fetch_completes pick fuel dial b p (srv e : Eng) up (xs : list Inbound) :
  let h := blob_hash b in
  let dir := blobs_dir (e_store e) in
  let f := fs (e_store e) in
  let sent := new_events srv (handle pick fuel dial p (BlobWant h) srv).2 in
  let e' := run pick fuel xs e in
  fs_inv (fs (e_store srv)) → files (fs (e_store srv)) !! (blobs_dir (e_store srv) ++ [h]) = Some b → is_active p srv = true →
  (N.of_nat (length b) ≤ MAX_INCOMING_BLOB_BYTES)%N → fileset_wants (e_store e) h = true →
  accepting b (e_store e) up → up f → blob_paths (Fs := Fs) dir h →
  files f !! (dir ++ [h]) = None → files f !! part_path dir h = None → incoming_blobs e !! h = None →
  (∀ x, x ∈ xs → Sent p (in_frame x) ∈ sent) → (∀ fr, Sent p fr ∈ sent → ∃ x, x ∈ xs ∧ in_frame x = fr) →
  blob_get (blobs_dir (e_store e')) h (fs (e_store e')) = Ok (Some b).
Proof.
  intros h dir f sent e' Hsi Hsb Hsa Hmax Hw Hup Hf Hpaths Hn Hp Hi Honly Hall.
  assert (sent = reply b p <$> chunk_offsets (N.of_nat (length b))) as Hs by (by apply want_reply).
  assert (∃ os, Forall2 (delivers b) xs os) as [os Hos].
  { assert (∀ x, x ∈ xs → ∃ o, delivers b x o) as Hx.
    { intros x Hx. specialize (Honly x Hx). rewrite Hs in Honly. apply list_elem_of_fmap in Honly as (o&E&Ho).
      exists o. split; [by injection E|done]. }
    clear -Hx. induction xs as [|x xs IH]; [by exists []|]. destruct (Hx x) as [o Ho]; [by left|].
    destruct IH as [os Hos]; [intros; apply Hx; by right|]. exists (o :: os). by constructor. }
  apply (transfer_completes b (e_store e) up Hup Hpaths Hmax Hw pick fuel xs os e f); try done.
  - unfold f. by destruct (e_store e).
  - intros o Ho. destruct (Hall (BlobChunk h o (N.of_nat (length b)) (piece b o))) as (x&Hx&Hfr).
    { rewrite Hs. apply list_elem_of_fmap. by exists o. }
    apply list_elem_of_lookup in Hx as [i Hx]. destruct (Forall2_lookup_l _ _ _ _ _ Hos Hx) as (o'&Ho'&[Hd _]).
    rewrite Hd in Hfr. injection Hfr as -> _. by eapply list_elem_of_lookup_2.
Qed.
End fetch.
