(* ===== verification/LogLines.v ===== *)
(** * A line more in a stored log

    What the line readers make of a log to which one more line is appended: the
    decoder of UTF-8 inverts the encoder on everything it accepts, a log that ends
    with a newline verifies together with a further genuine line, and a complete line
    is found again by the splitter wherever it starts a line. *)
From S2P Require Import Prelude RustStr Vfs Roster Wire Logs Keychain Blob Trust Store StoreRoster StoreSync.
From S2P Require Import StoreKeys Checkpoint Paths Snapshots.

(** ** UTF-8, backwards *)
Lemma cont_inv b x : cont b = Some x → (x < 64)%N ∧ b = byte_of_N (0x80 + x).
Proof.
  unfold cont. case_match eqn:E; [|done]. intros [= <-]. apply andb_true_iff in E as [E1 E2].
  split; [lia|]. replace (0x80 + (Byte.to_N b - 0x80))%N with (Byte.to_N b) by lia. by rewrite byte_of_N_to_N.
Qed.
Lemma divmod64 q r : (r < 64)%N → ((q * 64 + r) / 64 = q ∧ (q * 64 + r) mod 64 = r)%N.
Proof.
  intros Hr. rewrite N.add_comm, N.div_add, N.Div0.mod_add, N.div_small, N.mod_small by lia. lia.
Qed.
Lemma utf8_next_inv bs c r : utf8_next bs = Some (c, r) → is_scalar c = true ∧ bs = utf8_char c ++ r.
Proof.
  destruct bs as [|b0 bs]; [done|]. cbn [utf8_next]. pose proof (byte_of_N_to_N b0) as Hb0.
  set (n := Byte.to_N b0) in *. clearbody n. subst b0.
  destruct (N.ltb_spec n 0x80) as [Hn|Hn].
  { intros [= <- <-]. unfold utf8_char, is_scalar. solve_if. split; [lia|done]. }
  destruct ((_ && _)%N) eqn:E1.
  { apply andb_true_iff in E1 as [_ E1%N.ltb_lt]. destruct bs as [|b1 bs]; [done|].
    destruct (cont b1) as [x|] eqn:Ex; [|done]. apply cont_inv in Ex as [Hx ->]. cbn [mbind option_bind].
    destruct (N.leb_spec 0x80 ((n - 0xC0) * 64 + x)) as [Hc|]; [|done]. intros [= <- <-].
    destruct (divmod64 (n - 0xC0) x Hx) as [D M]. set (c := ((n - 0xC0) * 64 + x)%N) in *.
    assert (c < 0x800)%N by lia. unfold utf8_char, is_scalar. solve_if. rewrite D, M. split; [lia|].
    replace (0xC0 + (n - 0xC0))%N with n by (destruct (N.leb_spec 0xC0 n); lia). done. }
  clear E1. destruct ((_ && _)%N) eqn:E1.
  { apply andb_true_iff in E1 as [E0%N.leb_le E1%N.ltb_lt]. destruct bs as [|b1 [|b2 bs]]; [done|done|].
    destruct (cont b1) as [x|] eqn:Ex; [|done]. apply cont_inv in Ex as [Hx ->]. cbn [mbind option_bind].
    destruct (cont b2) as [y|] eqn:Ey; [|done]. apply cont_inv in Ey as [Hy ->]. cbn [mbind option_bind].
    destruct (_ && _) eqn:Ec; [|done]. apply andb_true_iff in Ec as [Hc%N.leb_le Hs]. intros [= <- <-].
    replace ((n - 0xE0) * 4096 + x * 64 + y)%N with (((n - 0xE0) * 64 + x) * 64 + y)%N in * by lia.
    destruct (divmod64 (n - 0xE0) x Hx) as [D M]. destruct (divmod64 ((n - 0xE0) * 64 + x) y Hy) as [D' M'].
    set (c := (((n - 0xE0) * 64 + x) * 64 + y)%N) in *. split; [done|].
    assert (c / 4096 = n - 0xE0)%N as D2 by (change 4096%N with (64 * 64)%N; by rewrite <-N.Div0.div_div, D', D).
    assert (c < 0x10000)%N by lia. unfold utf8_char. solve_if. rewrite D2, D', M, M'.
    replace (0xE0 + (n - 0xE0))%N with n by lia. done. }
  clear E1. destruct ((_ && _)%N) eqn:E1; [|done].
  apply andb_true_iff in E1 as [E0%N.leb_le E1%N.ltb_lt]. destruct bs as [|b1 [|b2 [|b3 bs]]]; [done..|].
  destruct (cont b1) as [x|] eqn:Ex; [|done]. apply cont_inv in Ex as [Hx ->]. cbn [mbind option_bind].
  destruct (cont b2) as [y|] eqn:Ey; [|done]. apply cont_inv in Ey as [Hy ->]. cbn [mbind option_bind].
  destruct (cont b3) as [z|] eqn:Ez; [|done]. apply cont_inv in Ez as [Hz ->]. cbn [mbind option_bind].
  destruct (_ && _) eqn:Ec; [|done]. apply andb_true_iff in Ec as [Hc%N.leb_le Hs]. intros [= <- <-].
  replace ((n - 0xF0) * 262144 + x * 4096 + y * 64 + z)%N with ((((n - 0xF0) * 64 + x) * 64 + y) * 64 + z)%N in * by lia.
  destruct (divmod64 (n - 0xF0) x Hx) as [D M]. destruct (divmod64 ((n - 0xF0) * 64 + x) y Hy) as [D' M'].
  destruct (divmod64 (((n - 0xF0) * 64 + x) * 64 + y) z Hz) as [D'' M''].
  set (c := ((((n - 0xF0) * 64 + x) * 64 + y) * 64 + z)%N) in *. split; [done|].
  assert (c / 4096 = (n - 0xF0) * 64 + x)%N as D2 by (change 4096%N with (64 * 64)%N; by rewrite <-N.Div0.div_div, D'', D').
  assert (c / 262144 = n - 0xF0)%N as D3 by (change 262144%N with (4096 * 64)%N; by rewrite <-N.Div0.div_div, D2, D).
  unfold utf8_char. solve_if. rewrite D3, D2, D'', M, M', M''. replace (0xF0 + (n - 0xF0))%N with n by lia. done.
Qed.
Lemma from_utf8_inv b t : from_utf8 b = Some t → forallb is_scalar t = true ∧ b = utf8 t.
Proof.
  unfold from_utf8. generalize (length b) as fuel. intros fuel. revert b t.
  induction fuel as [|fuel IH]; intros b t; destruct b as [|x b]; cbn [from_utf8_go]; try done; try by intros [= <-].
  destruct (utf8_next (x :: b)) as [[c r]|] eqn:En; [|done]. apply utf8_next_inv in En as [Hc ->]. simpl.
  destruct (from_utf8_go fuel r) as [s|] eqn:Er; [|done]. intros [= <-]. destruct (IH r s Er) as [Hs ->].
  simpl. by rewrite Hc, Hs.
Qed.

(** ** Appending a line to a text that ends with a newline *)
Lemma lines_go_app A B : B ≠ [] → lines_go (A ++ B) = (strip_cr <$> A) ++ lines_go B.
Proof.
  intros HB. induction A as [|a A IH]; [done|]. simpl.
  destruct (A ++ B) as [|x l] eqn:E; [by apply app_nil in E as [_ ->]|]. by rewrite IH.
Qed.
Lemma lines_snoc t j : LF ∉ j → strip_cr j = j → lines ((t ++ [LF]) ++ j ++ [LF]) = lines (t ++ [LF]) ++ [j].
Proof.
  intros Hj Hc. unfold lines. rewrite <-(assoc_L (++)). simpl. rewrite !split_on_sep, (split_on_no_sep LF j) by done.
  rewrite !lines_go_app by done. simpl. by rewrite Hc, app_nil_r.
Qed.

Section verify.
Context {L E : Type} `{JsonLaws L} (check : L → result StorageError E).

Lemma verify_lines_snoc ss l es e :
  verify_lines check false ss = Ok es → check l = Ok e → verify_lines check false (ss ++ [to_json l]) = Ok (es ++ [e]).
Proof.
  intros Hs Hl. revert es Hs. induction ss as [|s ss IH]; intros es; simpl.
  { intros [= <-]. by rewrite from_to_json, Hl. }
  destruct (from_json s) as [p|]; [|by rewrite andb_false_r]. destruct (check p) as [x|]; [|done].
  simpl. destruct (verify_lines check false ss) as [out|]; [|done]. rewrite (IH out eq_refl). by intros [= <-].
Qed.
(** A log that verifies and ends with a newline verifies with one more genuine line. *)
Lemma verify_bytes_snoc b l es e :
  verify_bytes check b = Ok es → b = [] ∨ ends_with b [NL] = true → check l = Ok e →
  verify_bytes check (b ++ utf8 (to_json l ++ [LF])) = Ok (es ++ [e]).
Proof.
  intros Hv Hend Hl. unfold verify_bytes in *. destruct (from_utf8 b) as [t|] eqn:Et; [|done].
  apply from_utf8_inv in Et as [Ht ->]. rewrite <-utf8_app.
  assert (∃ t', t = [] ∧ t' = [] ∨ t = t' ++ [LF]) as [t' Ht'].
  { destruct t as [|c t' _] using rev_ind; [by exists []; left|]. exists t'. right. f_equal. f_equal.
    destruct Hend as [Hn|Hend].
    { rewrite utf8_app in Hn. apply app_nil in Hn as [_ Hn]. unfold utf8 in Hn. csimpl in Hn. rewrite app_nil_r in Hn.
      by apply utf8_char_nonempty in Hn. }
    rewrite forallb_app in Ht. apply andb_true_iff in Ht as [_ Hc%andb_true_iff]. apply utf8_char_NL; [apply Hc|].
    apply ends_with_spec in Hend as [k Hk]. rewrite utf8_app in Hk. unfold utf8 at 2 in Hk. csimpl in Hk.
    rewrite app_nil_r in Hk. pose proof (utf8_char_nonempty c).
    destruct (utf8_char c) as [|y ys _] using rev_ind; [done|]. rewrite (assoc_L (++)) in Hk.
    apply app_inj_tail in Hk as [_ ->]. set_solver. }
  rewrite from_utf8_utf8.
  2:{ rewrite !forallb_app, Ht. simpl. by rewrite to_json_scalar. }
  assert (∀ x, torn_tail (x ++ [LF]) = false) as Htorn.
  { intros x. unfold torn_tail, ends_with_char. rewrite last_snoc, (bool_decide_eq_true_2 (Some LF = _)) by done. by rewrite andb_false_r. }
  unfold verify_text, nonblank_lines in *. rewrite (assoc_L (++)), Htorn, <-(assoc_L (++)).
  assert (torn_tail t = false) as Htt by (destruct Ht' as [[-> _]| ->]; [done|apply Htorn]). rewrite Htt in Hv.
  assert (lines (t ++ to_json l ++ [LF]) = lines t ++ [to_json l]) as ->.
  { destruct Ht' as [[-> _]| ->]; [|apply lines_snoc; [apply to_json_no_LF|apply to_json_strip_cr]].
    unfold lines. simpl. rewrite split_on_sep, split_on_no_sep by apply to_json_no_LF. simpl. by rewrite to_json_strip_cr. }
  rewrite filter_app. change [to_json l] with (to_json <$> [l]). rewrite nonblank_json. by apply verify_lines_snoc.
Qed.
End verify.

(** ** Complete lines *)
Definition starts_line (x : bytes) : Prop := x = [] ∨ ends_with x [NL] = true.
Lemma starts_line_app x y : starts_line (x ++ y ++ [NL]).
Proof. right. apply ends_with_spec. exists (x ++ y). by rewrite (assoc_L (++)). Qed.
Lemma starts_line_mid x : starts_line (if bool_decide (x ≠ []) && negb (ends_with x [NL]) then x ++ [NL] else x).
Proof.
  case_bool_decide as Hx; simpl; [|left; by destruct x].
  destruct (ends_with x [NL]) eqn:E; simpl; [by right|apply (starts_line_app x [])].
Qed.

Lemma split_go_app cur x y : ends_with x [NL] = true → split_log_lines_go cur (x ++ y) = split_log_lines_go cur x ++ split_log_lines_go [] y.
Proof.
  intros Hx. apply ends_with_spec in Hx as [k ->]. rewrite <-(assoc_L (++)). revert cur.
  induction k as [|c k IH]; intros cur; simpl; [done|]. case_decide; [|apply IH]. simpl. by rewrite IH.
Qed.
Lemma split_app x y : starts_line x → split_log_lines_bytes (x ++ y) = split_log_lines_bytes x ++ split_log_lines_bytes y.
Proof. intros [->|Hx]; [done|]. by apply split_go_app. Qed.
Lemma split_complete l : complete_line l → split_log_lines_bytes l = [l].
Proof. intros Hl. rewrite <-(app_nil_r l) at 1. change (l ++ []) with (concat [l]). apply split_concat_lines. by constructor. Qed.
Lemma line_starts l : complete_line l → starts_line l.
Proof. intros (c&->&_). apply (starts_line_app [] c). Qed.

(** The line [l] is one of the lines of [w]. *)
Definition has_line (l w : bytes) : Prop := l ∈ split_log_lines_bytes w.
Lemma has_line_at x l y : starts_line x → complete_line l → has_line l (x ++ l ++ y).
Proof.
  intros Hx Hl. unfold has_line. rewrite split_app, (split_app l), (split_complete l) by (done || by apply line_starts). set_solver.
Qed.
Lemma split_go_ends cur w A l B : split_log_lines_go cur w = A ++ l :: B → Forall (λ x, ends_with x [NL] = true) A.
Proof.
  revert cur A. induction w as [|c w IH]; intros cur A; simpl.
  { destruct A as [|a A]; [constructor|]. case_decide; [done|]. intros [= _ E]. by destruct A. }
  case_decide as Hc; [|apply IH]. destruct A as [|a A]; [constructor|]. intros [= <- E]. constructor; [|by eapply IH].
  apply ends_with_spec. subst c. by eexists.
Qed.
Lemma has_line_inv l w : has_line l w → ∃ x y, starts_line x ∧ w = x ++ l ++ y.
Proof.
  intros (A&B&E)%list_elem_of_split. exists (concat A), (concat B). split.
  - apply split_go_ends in E. destruct A as [|a A _] using rev_ind; [by left|]. right.
    apply Forall_app in E as [_ [Ha _]%Forall_cons]. rewrite concat_app. simpl. rewrite app_nil_r.
    apply ends_with_spec in Ha as [k ->]. apply ends_with_spec. exists (concat A ++ k). by rewrite (assoc_L (++)).
  - by rewrite <-(split_log_concat w), E, concat_app.
Qed.
Lemma has_line_extend l w w' : complete_line l → has_line l w → w `prefix_of` w' → has_line l w'.
Proof.
  intros Hl Hw [k ->]. apply has_line_inv in Hw as (x&y&Hx&->). rewrite <-!(assoc_L (++)). by apply has_line_at.
Qed.

(** Every complete line among those offered is in the result. *)
Lemma append_unseen_has (l : bytes) (seen : list bytes) whole n ls :
  complete_line l → (l ∈ seen → has_line l whole) → l ∈ seen ∨ l ∈ ls → has_line l (append_unseen seen whole n ls).1.
Proof.
  intros Hl. revert seen whole n. induction ls as [|x ls IH]; intros seen whole n Hs Hin; simpl; [set_solver|].
  case_decide as Hx; [apply IH; [done|set_solver]|]. set (w := if _ && _ then _ else _).
  assert (whole `prefix_of` w) as Hw by (unfold w; destruct (_ && _); [by eexists|done]).
  apply IH; [|set_solver]. rewrite elem_of_cons. intros [->|Hl'].
  - rewrite <-(app_nil_r (w ++ x)), <-(assoc_L (++)). apply has_line_at; [apply starts_line_mid|done].
  - eapply has_line_extend; [done|by apply Hs|]. destruct Hw as [k ->]. rewrite <-(assoc_L (++)). by eexists.
Qed.
