(* ===== verification/Relay.v ===== *)
(** * The relay client

    Synchronisation through an untrusted server (src/crates/roam-backend-client, with
    the set reconciliation of src/crates/roam-rbsr): opaque keyed ids, the trait of the
    server and its in-memory implementation, the exchange of trust bundles, and one pass
    of reconciliation over entries, blobs and snapshots. *)
From S2P Require Import Prelude RustStr Vfs Roster Wire Logs Keychain Blob Trust Store StoreRoster StoreSync.
From S2P Require Import StoreKeys Checkpoint Paths Snapshots.

(** ** Set reconciliation (roam-rbsr) *)
Inductive SetKind := KEntries | KBlobs | KSnapshots | KTrust.
#[global] Instance SetKind_eq_dec : EqDecision SetKind.
Proof. solve_decision. Defined.
Definition as_str (k : SetKind) : rstring :=
  match k with
  | KEntries => str "entries"
  | KBlobs => str "blobs"
  | KSnapshots => str "snapshots"
  | KTrust => str "trust"
  end.

(** The negentropy engine over a sorted set of ids: the first message, what the
    initiator makes of a reply (next message, have, need), and the other side's reply. *)
Class Negentropy := {
  neg_initiate : list bytes → bytes;
  neg_reconcile_with_ids : list bytes → bytes → option (option bytes * list bytes * list bytes);
  neg_reconcile : list bytes → bytes → option bytes;
}.

(** Ids are 32 bytes wherever they come from. *)
Class NegentropyIds `{Negentropy} := {
  neg_need_len items msg next have need x :
    neg_reconcile_with_ids items msg = Some (next, have, need) → x ∈ need → length x = 32;
}.

Definition from_ids (ids : list bytes) : list bytes := bset_to_list bytes_le (list_to_set ids).
Record Reconciled := mkReconciled { next_msg : option bytes; rc_have : list bytes; rc_need : list bytes }.

Section rbsr.
Context `{Negentropy}.
Definition initiate (items : list bytes) : bytes := neg_initiate items.
Definition reconcile (items : list bytes) (msg : bytes) : option Reconciled :=
  x ← neg_reconcile_with_ids items msg; Some (mkReconciled x.1.1 x.1.2 x.2).
Definition reconcile_server (items : list bytes) (msg : bytes) : option bytes := neg_reconcile items msg.
End rbsr.

(** ** Ids and sealing (crypto.rs) *)
Class KeyedHash := { keyed_hash : bytes → bytes → bytes }.
Class KeyedHashLaws `{KeyedHash} := { keyed_hash_len k b : length (keyed_hash k b) = 32 }.
(** The base64url alphabet: letters, digits, minus and underscore. *)
Class B64UrlNames `{B64Url} := {
  b64url_name b : b ≠ [] → good_name (b64url_encode b) = true;
  b64url_scalar b : forallb is_scalar (b64url_encode b) = true;
}.

Section crypto.
Context `{Crypto, B64Url, KeyedHash}.

Definition keyed (key input : bytes) : rstring := b64url_encode (keyed_hash (vault_subkeys key).1 input).
Definition bucket_id (key : bytes) : rstring := keyed key (utf8 (str "roam-bucket-v2")).
Definition entry_id (key : bytes) (peer index : u64) : rstring :=
  keyed key (utf8 (str "entry") ++ le_bytes 8 peer ++ le_bytes 8 index).
Definition blob_id (key : bytes) (content_hash : rstring) : rstring :=
  keyed key (utf8 (str "blob") ++ utf8 content_hash).
Definition entry_id_content (key : bytes) (peer : u64) (line : bytes) : rstring :=
  keyed key (utf8 (str "entry") ++ le_bytes 8 peer ++ blake3 line).
Definition trust_id (key : bytes) (content_hash : rstring) : rstring :=
  keyed key (utf8 (str "trust") ++ utf8 content_hash).
Definition snapshot_id (key digest : bytes) : rstring := keyed key (utf8 (str "snapshot") ++ digest).

Definition vk_seal (nonce key plaintext : bytes) : bytes :=
  nonce ++ aead_seal (vault_subkeys key).2 nonce plaintext.
Definition vk_open (key payload : bytes) : result CryptoError bytes :=
  if decide (length payload < 24) then Err Short
  else ok_or (aead_open (vault_subkeys key).2 (take 24 payload) (drop 24 payload)) Open.

(** H1: with the head rotated past epoch 0 and no head key, nothing is sealed. *)
Definition seal_under_head (nonce : bytes) (kc : Keychain) (key plaintext : bytes) : option bytes :=
  match head_write_key kc with
  | Some (eid, k) => if decide (eid ≠ EPOCH0_ID) then Some (seal_epoch nonce k eid plaintext)
                     else Some (vk_seal nonce key plaintext)
  | None => if decide (kc_head kc = EPOCH0_ID) then Some (vk_seal nonce key plaintext) else None
  end.

Definition id_to_str (id : bytes) : rstring := b64url_encode id.
Definition str_to_id (s : rstring) : option bytes :=
  b ← b64url_decode s; if decide (length b = 32) then Some b else None.
End crypto.

(** ** The server as the client sees it (transport.rs) *)
Record Manifest := mkServerManifest {
  entry_ids : list rstring; blob_ids : list rstring; snapshot_ids : list rstring; snapshot_wanted : bool;
}.
Inductive PutOutcome := Created | Exists.
Inductive RelayError := RStore (e : StorageError) | RBackend | RRbsr | RNotConverged.

(** One get and one put per kind. *)
Class Backend (Bk : Type) := {
  bk_manifest : rstring → SM Bk RelayError Manifest;
  bk_get : SetKind → rstring → rstring → SM Bk RelayError (option bytes);
  bk_put : SetKind → rstring → rstring → bytes → SM Bk RelayError PutOutcome;
  bk_reconcile : rstring → SetKind → bytes → SM Bk RelayError bytes;
}.

(** *** The in-memory server *)
Abbreviation Buckets := (gmap rstring (gmap rstring bytes)).
Record MemoryBackend := mkMemoryBackend {
  mb_entries : Buckets; mb_blobs : Buckets; mb_snapshots : Buckets; mb_trust : Buckets;
  mb_snapshot_wanted : gset rstring;
  mb_entry_gets : gmap rstring nat;
}.
Definition mb_empty : MemoryBackend := mkMemoryBackend ∅ ∅ ∅ ∅ ∅ ∅.
Definition mb_map (k : SetKind) (m : MemoryBackend) : Buckets :=
  match k with KEntries => mb_entries m | KBlobs => mb_blobs m | KSnapshots => mb_snapshots m | KTrust => mb_trust m end.
Definition mb_set (k : SetKind) (x : Buckets) (m : MemoryBackend) : MemoryBackend :=
  match k with
  | KEntries => mkMemoryBackend x (mb_blobs m) (mb_snapshots m) (mb_trust m) (mb_snapshot_wanted m) (mb_entry_gets m)
  | KBlobs => mkMemoryBackend (mb_entries m) x (mb_snapshots m) (mb_trust m) (mb_snapshot_wanted m) (mb_entry_gets m)
  | KSnapshots => mkMemoryBackend (mb_entries m) (mb_blobs m) x (mb_trust m) (mb_snapshot_wanted m) (mb_entry_gets m)
  | KTrust => mkMemoryBackend (mb_entries m) (mb_blobs m) (mb_snapshots m) x (mb_snapshot_wanted m) (mb_entry_gets m)
  end.
Definition set_snapshot_wanted (bucket : rstring) (wanted : bool) (m : MemoryBackend) : MemoryBackend :=
  mkMemoryBackend (mb_entries m) (mb_blobs m) (mb_snapshots m) (mb_trust m)
    (if wanted then {[bucket]} ∪ mb_snapshot_wanted m else mb_snapshot_wanted m ∖ {[bucket]}) (mb_entry_gets m).
Definition count_get (id : rstring) (m : MemoryBackend) : MemoryBackend :=
  mkMemoryBackend (mb_entries m) (mb_blobs m) (mb_snapshots m) (mb_trust m) (mb_snapshot_wanted m)
    (<[id := S (default 0 (mb_entry_gets m !! id))]> (mb_entry_gets m)).

Definition in_bucket (k : SetKind) (bucket : rstring) (m : MemoryBackend) : gmap rstring bytes :=
  default ∅ (mb_map k m !! bucket).
Definition mb_ids (k : SetKind) (bucket : rstring) (m : MemoryBackend) : list rstring :=
  btree_keys str_le (in_bucket k bucket m).
Definition mb_get (k : SetKind) (bucket id : rstring) : SM MemoryBackend RelayError (option bytes) := λ m,
  (Ok (in_bucket k bucket m !! id), match k with KEntries => count_get id m | _ => m end).
Definition mb_put (k : SetKind) (bucket id : rstring) (ct : bytes) : SM MemoryBackend RelayError PutOutcome := λ m,
  let b := in_bucket k bucket m in
  match b !! id with
  | Some _ => (Ok Exists, mb_set k (<[bucket := b]> (mb_map k m)) m)
  | None => (Ok Created, mb_set k (<[bucket := <[id := ct]> b]> (mb_map k m)) m)
  end.
Definition mb_manifest (bucket : rstring) : SM MemoryBackend RelayError Manifest := λ m,
  (Ok (mkServerManifest (mb_ids KEntries bucket m) (mb_ids KBlobs bucket m) (mb_ids KSnapshots bucket m)
         (bool_decide (bucket ∈ mb_snapshot_wanted m))), m).
Definition id_set `{B64Url} (bucket : rstring) (k : SetKind) (m : MemoryBackend) : list bytes :=
  omap str_to_id (mb_ids k bucket m).
Definition mb_reconcile `{B64Url, Negentropy} (bucket : rstring) (k : SetKind) (msg : bytes) : SM MemoryBackend RelayError bytes := λ m,
  (ok_or (reconcile_server (from_ids (id_set bucket k m)) msg) RRbsr, m).
#[global] Instance MemoryBackend_backend `{B64Url, Negentropy} : Backend MemoryBackend :=
  {| bk_manifest := mb_manifest; bk_get := mb_get; bk_put := mb_put; bk_reconcile := mb_reconcile |}.

(** ** Reading numbers out of file names *)
Fixpoint digits_val (acc : N) (s : rstring) : option N :=
  match s with
  | [] => Some acc
  | c :: s => if ((48 <=? c) && (c <=? 57))%N then digits_val (10 * acc + (c - 48)) s else None
  end.
(** [s.parse::<u64>()]: an optional plus sign, then digits; overflow is an error. *)
Definition parse_u64 (s : rstring) : option u64 :=
  let d := match s with c :: s' => if (c =? 43)%N then s' else s | [] => [] end in
  if decide (d = []) then None
  else n ← digits_val 0 d; if decide (is_u64 n) then Some n else None.
Definition str_strip_prefix (p s : rstring) : option rstring :=
  if decide (take (length p) s = p) then Some (drop (length p) s) else None.
Definition str_strip_suffix (p s : rstring) : option rstring :=
  if decide (length p ≤ length s ∧ drop (length s - length p) s = p) then Some (take (length s - length p) s) else None.

(** ** Trust bundles (trust.rs) *)
Record SignedLog := mkSignedLog { sl_peer : u64; sl_bytes : rstring }.
Record TrustBundle := mkTrustBundle { tb_v : N; rosters : list SignedLog; keylogs : list SignedLog }.
Definition TRUST_BUNDLE_V1 : N := 1.

(** [if let Err(..) = ..], [match .. { Ok(..) .., Err(..) .. }]: the outcome, as a value. *)
Definition attempt {S E F A} (m : SM S E A) : SM S F (result E A) := λ s, let '(r, s') := m s in (Ok r, s').

(** serde_json's [Value]: the number under the key [peer] of an object. *)
Class EntryPeer := { json_peer : rstring → option u64 }.
Definition parse_entry_author `{EntryPeer} (line : bytes) : option u64 := from_utf8 line ≫= json_peer.

Section relay.
Context `{Ed25519, Crypto, EdX, B64, B64Url, KeyedHash, Negentropy, EntryPeer}.
Context `{JsonOf EntryLine, JsonOf RosterLine, JsonOf (list PeerRecord), JsonOf KeyLine, JsonOf Marker}.
Context `{JsonOf HeldSnapshot, JsonOf SnapshotManifest, JsonOf TrustBundle}.
Context {Fs Doc Ver : Type} `{VaultFs Fs, DocOps Doc Ver, DocHistory Doc}.
Variable pick : gset u64 → option u64.
Variable fuel : nat.
Abbreviation St := (Store Fs Doc Ver).

Definition SignedLog_new (peer : u64) (raw : bytes) : SignedLog := mkSignedLog peer (b64_encode raw).
Definition sl_decode (l : SignedLog) : option bytes := b64_decode (sl_bytes l).

Definition roster_author (entry : path) : option u64 :=
  name ← last entry; rest ← str_strip_prefix (str "roster-") name;
  author ← str_strip_suffix (str ".jsonl") rest; parse_u64 author.
Fixpoint read_rosters (f : Fs) (es : list path) : result StorageError (list (u64 * bytes)) :=
  match es with
  | [] => Ok []
  | e :: es =>
      match roster_author e with
      | None => read_rosters f es
      | Some author => b ← map_err Io (fs_read e f); rest ← read_rosters f es; mret ((author, b) :: rest)
      end
  end.
Definition export_all_rosters (s : St) : result StorageError (list (u64 * bytes)) :=
  match fs_read_dir (roster_dir (root s)) (fs s) with
  | Ok es => read_rosters (fs s) es
  | Err NotFound => Ok []
  | Err e => Err (Io e)
  end.

Fixpoint export_keylogs (s : St) (ps : list u64) : result StorageError (list SignedLog) :=
  match ps with
  | [] => Ok []
  | p :: ps =>
      b ← export_keylog s p;
      rest ← export_keylogs s ps;
      mret (if decide (b = []) then rest else SignedLog_new p b :: rest)
  end.
Definition by_peer (x y : u64 * bytes) : Prop := (x.1 ≤ y.1)%N.
#[local] Instance by_peer_dec : RelDecision by_peer.
Proof. unfold by_peer. intros x y. apply _. Defined.
Definition from_store (s : St) : result StorageError TrustBundle :=
  all ← export_all_rosters s;
  let held := merge_sort by_peer (filter (λ x, x.2 ≠ []) all) in
  kls ← export_keylogs s (bset_to_list N.le (list_to_set ((peer_id <$> peers s) ++ [id_peer (identity s)])));
  mret (mkTrustBundle TRUST_BUNDLE_V1 ((λ x, SignedLog_new x.1 x.2) <$> held) kls).

Definition to_canonical_bytes (b : TrustBundle) : bytes := utf8 (to_json b).
Definition bundle_id (key : bytes) (b : TrustBundle) : rstring := trust_id key (blob_hash (to_canonical_bytes b)).
Definition bundle_is_empty (b : TrustBundle) : bool := bool_decide (rosters b = []) && bool_decide (keylogs b = []).

(** One key log of a bundle. *)
Definition apply_keylog (known : gmap u64 bytes) (me : u64) (l : SignedLog) : SM St StorageError nat :=
  if decide (sl_peer l = me) then mret 0
  else match known !! sl_peer l with
       | None => mret 0
       | Some k =>
           if negb (ed_key_ok k) then mret 0
           else match sl_decode l with
                | None => mret 0
                | Some b => r ← attempt (import_keylog (sl_peer l) k b);
                            mret match r with Ok _ => 1 | Err _ => 0 end
                end
       end.
Fixpoint apply_keylogs (known : gmap u64 bytes) (me : u64) (ls : list SignedLog) : SM St StorageError nat :=
  match ls with
  | [] => mret 0
  | l :: ls => n ← apply_keylog known me l; m ← apply_keylogs known me ls; mret (n + m)
  end.
Definition apply_bundle (b : TrustBundle) : SM St StorageError nat :=
  if decide (tb_v b ≠ TRUST_BUNDLE_V1) then mret 0
  else
    let logs := omap (λ l, pair (sl_peer l) <$> sl_decode l) (rosters b) in
    _ ← (if decide (logs = []) then mret tt else import_roster_bundle pick fuel logs);
    s ← sm_get;
    let known := foldl (λ m p, <[peer_id p := verifying_key p]> m) ∅ (peers s) in
    apply_keylogs known (id_peer (identity s)) (keylogs b).

(** ** Local ids (entries.rs) *)
Definition split_log_lines (log : bytes) : list bytes := split_log_lines_bytes log.
Definition reassemble_log (lines : list bytes) : bytes := concat lines.
Definition held_peers (s : St) : list u64 :=
  let me := id_peer (identity s) in
  bset_to_list N.le (list_to_set
    (me :: (peer_id <$> filter (λ p, peer_id p ≠ me ∧ status p = Active) (peers s)))).
Fixpoint entries_of (key : bytes) (s : St) (ps : list u64) : result StorageError (list (rstring * bytes)) :=
  match ps with
  | [] => Ok []
  | p :: ps =>
      log ← (if decide (p = id_peer (identity s)) then export_own_log s else export_peer_log s p);
      rest ← entries_of key s ps;
      mret (((λ l, (entry_id_content key p l, l)) <$> split_log_lines log) ++ rest)
  end.
Definition local_entries (key : bytes) (s : St) : result StorageError (list (rstring * bytes)) :=
  entries_of key s (held_peers s).
Definition local_blobs (key : bytes) (s : St) : result StorageError (list (rstring * rstring)) :=
  blob_list (assets_dir (root s)) (fs s) ≫= λ hs : list rstring, mret ((λ h, (blob_id key h, h)) <$> hs).

(** ** Producing snapshots *)
Definition produce_held_snapshot (nonce key : bytes) (before : Z) : SM St StorageError (option (rstring * bytes)) :=
  s ← sm_get;
  if decide (self_role s ≠ Some Admin) then mret None
  else
    kc ← sm_lift (keychain (vault_subkeys key).1 (vault_subkeys key).2 s);
    snap ← sm_lift (build_backend_snapshot before s);
    match snap with
    | None => mret None
    | Some snap =>
        match seal_under_head nonce kc key (b_bytes snap) with
        | None => mret None
        | Some sealed =>
            let id := snapshot_id key (b_frontier_digest snap) in
            let m := signed (identity s)
              (mkManifest (b_frontier_digest snap) (blake3 sealed)
                 ((λ x, entry_id_content key x.1 x.2) <$> b_subsumed_lines snap)
                 (blob_id key <$> b_blob_refs snap) 0 []) in
            let framed := frame (utf8 (to_json m)) sealed in
            _ ← persist_snapshot_object id framed;
            _ ← record_held_snapshot id (subsumed_entry_ids m);
            mret (Some (id, framed))
        end
    end.
Record Checkpointed := mkCheckpointed {
  freed : u64; ck_snapshot : option (rstring * bytes); compacted_without_bootstrap : bool;
}.
Definition checkpoint_with_bootstrap (nonce key : bytes) (before : Z) : SM St StorageError Checkpointed :=
  snap ← produce_held_snapshot nonce key before;
  n ← checkpoint before;
  s ← sm_get;
  mret (mkCheckpointed n snap (bool_decide (snap = None) && negb (bool_decide (self_role s = Some Admin)))).

(** ** One pass (sync.rs) *)
Context {Bk : Type} `{Backend Bk}.
(** The store and the server, and the count of what could not be opened yet. *)
Record Pass := mkPass { ps_store : St; ps_backend : Bk; undecryptable : nat }.
Abbreviation M := (SM Pass RelayError).
Definition in_store {A} (m : SM St StorageError A) : M A := λ p,
  let '(r, s) := m (ps_store p) in (map_err RStore r, mkPass s (ps_backend p) (undecryptable p)).
Definition read_store {A} (r : St → result StorageError A) : M A := λ p, (map_err RStore (r (ps_store p)), p).
Definition in_backend {A} (m : SM Bk RelayError A) : M A := λ p,
  let '(r, b) := m (ps_backend p) in (r, mkPass (ps_store p) b (undecryptable p)).
Definition note_undecryptable : M unit := λ p, (Ok tt, mkPass (ps_store p) (ps_backend p) (S (undecryptable p))).

Definition RBSR_ROUND_CAP : nat := 32.
Fixpoint rounds (n : nat) (bucket : rstring) (k : SetKind) (set : list bytes) (msg : bytes) (have need : gset rstring)
    : M (gset rstring * gset rstring) :=
  match n with
  | O => sm_fail RNotConverged
  | S n =>
      reply ← in_backend (bk_reconcile bucket k msg);
      out ← sm_lift (ok_or (reconcile set reply) RRbsr);
      let have := have ∪ list_to_set (id_to_str <$> rc_have out) in
      let need := need ∪ list_to_set (id_to_str <$> rc_need out) in
      match next_msg out with
      | Some next => rounds n bucket k set next have need
      | None => mret (have, need)
      end
  end.
Definition reconcile_set (bucket : rstring) (k : SetKind) (local : gset rstring) : M (gset rstring * gset rstring) :=
  let set := from_ids (omap str_to_id (bset_to_list str_le local)) in
  rounds RBSR_ROUND_CAP bucket k set (initiate set) ∅ ∅.

(** *** Trust *)
Definition fetch_bundle (key : bytes) (bucket id : rstring) : M bool :=
  x ← in_backend (bk_get KTrust bucket id);
  match x with
  | None => mret false
  | Some ct =>
      match vk_open key ct with
      | Err _ => mret false
      | Ok pt => match from_utf8 pt ≫= from_json with
                 | None => mret false
                 | Some b => _ ← in_store (apply_bundle b); mret true
                 end
      end
  end.
Fixpoint fetch_bundles (key : bytes) (bucket : rstring) (ids : list rstring) : M bool :=
  match ids with
  | [] => mret false
  | id :: ids => a ← fetch_bundle key bucket id; r ← fetch_bundles key bucket ids; mret (a || r)
  end.
Definition reconcile_trust (rng : nat → bytes * bytes) (nonce key : bytes) (bucket : rstring) : M bool :=
  b ← read_store from_store;
  let id := bundle_id key b in
  x ← reconcile_set bucket KTrust (if bundle_is_empty b then ∅ else {[id]});
  _ ← (if decide (id ∈ x.1) then _ ← in_backend (bk_put KTrust bucket id (vk_seal nonce key (to_canonical_bytes b))); mret tt
       else mret tt);
  applied ← fetch_bundles key bucket (bset_to_list str_le x.2);
  _ ← (if applied : bool then
         _ ← in_store (attempt (backfill_wraps rng (vault_subkeys key).1 (vault_subkeys key).2)); mret tt
       else mret tt);
  mret applied.

(** *** Snapshots *)
Definition fetch_snapshot (kc : Keychain) (keys : gmap u64 bytes) (bucket id : rstring) : M unit :=
  x ← in_backend (bk_get KSnapshots bucket id);
  match x with
  | None => mret tt
  | Some framed =>
      out ← in_store (verify_and_adopt_snapshot kc keys id framed);
      match out with Undecryptable => note_undecryptable | _ => mret tt end
  end.
Definition import_needed_snapshots (bucket : rstring) (kc : Keychain) : M unit :=
  held ← read_store held_snapshots;
  x ← reconcile_set bucket KSnapshots (list_to_set (h_id <$> held));
  if decide (x.2 = ∅) then mret tt
  else
    p ← sm_get;
    sm_iter (fetch_snapshot kc (admin_author_keys (ps_store p)) bucket) (bset_to_list str_le x.2).
Definition maybe_produce_snapshot (now before : Z) (nonce key : bytes) (bucket : rstring) : M unit :=
  m ← in_backend (bk_manifest bucket);
  if negb (snapshot_wanted m) then mret tt
  else
    p ← sm_get;
    if decide (self_role (ps_store p) ≠ Some Admin) then mret tt
    else
      produced ← in_store (_ ← write_snapshot now; produce_held_snapshot nonce key before);
      match produced with
      | None => mret tt
      | Some (id, framed) => _ ← in_backend (bk_put KSnapshots bucket id framed); mret tt
      end.

(** *** Entries and blobs *)
Fixpoint upload_entries (nonces : nat → bytes) (kc : Keychain) (key : bytes) (bucket : rstring) (have : gset rstring)
    (es : list (rstring * bytes)) : M unit :=
  match es with
  | [] => mret tt
  | (id, line) :: es =>
      _ ← (if decide (id ∈ have) then
             match seal_under_head (nonces (length es)) kc key line with
             | None => mret tt
             | Some ct => _ ← in_backend (bk_put KEntries bucket id ct); mret tt
             end
           else mret tt);
      upload_entries nonces kc key bucket have es
  end.
Fixpoint upload_blobs (nonces : nat → bytes) (kc : Keychain) (key : bytes) (bucket : rstring) (have : gset rstring)
    (bs : list (rstring * rstring)) : M unit :=
  match bs with
  | [] => mret tt
  | (id, h) :: bs =>
      _ ← (if decide (id ∈ have) then
             x ← read_store (λ s, blob_get (assets_dir (root s)) h (fs s));
             match x with
             | None => mret tt
             | Some b =>
                 match seal_under_head (nonces (length bs)) kc key b with
                 | None => mret tt
                 | Some ct => _ ← in_backend (bk_put KBlobs bucket id ct); mret tt
                 end
             end
           else mret tt);
      upload_blobs nonces kc key bucket have bs
  end.
Definition fetch_blob (kc : Keychain) (key : bytes) (bucket id : rstring) : M unit :=
  x ← in_backend (bk_get KBlobs bucket id);
  match x with
  | None => mret tt
  | Some ct =>
      match open_classified kc ct with
      | None => note_undecryptable
      | Some pt =>
          if decide (blob_id key (blob_hash pt) ≠ id) then in_store (mark_poisoned id)
          else p ← sm_get; _ ← in_store (on_fs (blob_put (assets_dir (root (ps_store p))) pt)); mret tt
      end
  end.

(** All requests are made before any reply is looked at. *)
Fixpoint fetch_entries (bucket : rstring) (ids : list rstring) : M (list (rstring * result RelayError (option bytes))) :=
  match ids with
  | [] => mret []
  | id :: ids => r ← in_backend (attempt (bk_get KEntries bucket id)); rest ← fetch_entries bucket ids; mret ((id, r) :: rest)
  end.
(** The peers whose lines are accepted. *)
Definition author_keys (self : u64) (s : St) : gmap u64 bytes :=
  foldl (λ m p, if ed_key_ok (verifying_key p) then <[peer_id p := verifying_key p]> m else m) ∅
    (filter (λ p, peer_id p ≠ self ∧ status p = Active) (peers s)).
Fixpoint sort_entries (kc : Keychain) (key : bytes) (keys : gmap u64 bytes)
    (fetched : list (rstring * result RelayError (option bytes))) (by_author : gmap u64 (list bytes))
    : M (gmap u64 (list bytes)) :=
  match fetched with
  | [] => mret by_author
  | (id, r) :: fetched =>
      x ← sm_lift r;
      match x with
      | None => sort_entries kc key keys fetched by_author
      | Some ct =>
          match open_classified kc ct with
          | None => _ ← note_undecryptable; sort_entries kc key keys fetched by_author
          | Some line =>
              match parse_entry_author line with
              | None => sort_entries kc key keys fetched by_author
              | Some author =>
                  if decide (entry_id_content key author line ≠ id)
                  then _ ← in_store (mark_poisoned id); sort_entries kc key keys fetched by_author
                  else match keys !! author with
                       | None => sort_entries kc key keys fetched by_author
                       | Some _ => sort_entries kc key keys fetched
                                     (<[author := default [] (by_author !! author) ++ [line]]> by_author)
                       end
              end
          end
      end
  end.
Definition import_author (keys : gmap u64 bytes) (x : u64 * list bytes) : M unit :=
  match keys !! x.1 with
  | None => mret tt
  | Some k =>
      r ← in_store (attempt (dedup_append_peer_lines x.1 k x.2));
      match r with
      | Ok _ => mret tt
      | Err _ => sm_iter (λ line, _ ← in_store (attempt (dedup_append_peer_line x.1 k line)); mret tt) x.2
      end
  end.
Definition import_needed_entries (self : u64) (bucket : rstring) (need poisoned : gset rstring) (kc : Keychain) (key : bytes) : M unit :=
  p ← sm_get;
  let keys := author_keys self (ps_store p) in
  fetched ← fetch_entries bucket (bset_to_list str_le (need ∖ poisoned));
  by_author ← sort_entries kc key keys fetched ∅;
  sm_iter (import_author keys) (btree_to_list N.le by_author).

(** The whole pass; nonces and clock readings are arguments. *)
Record Oracle := mkOracle {
  or_wraps : nat → bytes * bytes; or_trust : bytes; or_entries : nat → bytes; or_blobs : nat → bytes;
  or_snapshot : bytes; or_now : Z; or_before : Z;
}.
Definition reconcile_once (o : Oracle) (key : bytes) : M unit :=
  let bucket := bucket_id key in
  _ ← reconcile_trust (or_wraps o) (or_trust o) key bucket;
  kc ← read_store (keychain (vault_subkeys key).1 (vault_subkeys key).2);
  _ ← import_needed_snapshots bucket kc;
  held ← read_store held_snapshots;
  let subsumed : gset rstring := list_to_set (held ≫= h_subsumed) in
  entries ← read_store (local_entries key);
  blobs ← read_store (local_blobs key);
  p ← sm_get;
  let blob_ids : gmap rstring rstring := foldl (λ m x, <[x.1 := x.2]> m) ∅ blobs in
  es ← reconcile_set bucket KEntries (list_to_set entries.*1);
  bs ← reconcile_set bucket KBlobs (dom blob_ids);
  _ ← upload_entries (or_entries o) kc key bucket es.1 entries;
  _ ← upload_blobs (or_blobs o) kc key bucket bs.1 (btree_to_list str_le blob_ids);
  poisoned ← read_store poisoned_ids;
  _ ← sm_iter (fetch_blob kc key bucket) (bset_to_list str_le (bs.2 ∖ poisoned));
  let need := es.2 ∖ subsumed in
  _ ← (if decide (need = ∅) then mret tt
       else import_needed_entries (id_peer (identity (ps_store p))) bucket need poisoned kc key);
  maybe_produce_snapshot (or_now o) (or_before o) (or_snapshot o) key bucket.
End relay.
