(* ===== verification/RelaySpec.v ===== *)
(** * What a pass with an untrusted relay can do

    The server is any implementation of [Backend]: nothing is assumed of its replies.
    A pass moves the vault's files along [vault_grows]: logs only ever get longer, the
    own logs keep their content, stored blobs stay, and so do the files at the top of
    the vault. *)
From S2P Require Import Prelude RustStr Vfs Roster Wire Logs Keychain Blob Trust Store StoreRoster StoreSync.
From S2P Require Import StoreKeys Checkpoint Paths Snapshots Relay.

(** ** The relation *)
Definition log_dirs : list rstring := [str "ops"; str "roster"; str "keylog"].
Lemma assets_not_log : str "assets" ∉ log_dirs.
Proof. decide_true. Qed.
Definition in_vault (r : path) (d n : rstring) : path := r ++ [d; n].
(** The files at the top of a vault that a pass may write. *)
Definition local_files : list rstring := [str "peers.json"; str "peers.json.tmp"; str "poisoned.jsonl"].
Definition protected (r q : path) : Prop :=
  (∃ d n, q = in_vault r d n ∧ (d ∈ log_dirs ∨ d = str "assets" ∧ is_valid_hash n = true)) ∨
  ∃ n, q = r ++ [n] ∧ n ∉ local_files.

Section relation.
Context (r : path) (me : u64).
Implicit Types m : gmap path bytes.

Record vault_grows m m' : Prop := {
  vg_logs d n : d ∈ log_dirs → default [] (m !! in_vault r d n) `prefix_of` default [] (m' !! in_vault r d n);
  vg_own : m' !! ops_file r me = m !! ops_file r me;
  vg_own_roster : m' !! roster_file r me = m !! roster_file r me;
  vg_blobs h b : is_valid_hash h = true → m !! in_vault r (str "assets") h = Some b →
                 m' !! in_vault r (str "assets") h = Some b;
  vg_top n : n ∉ local_files → m' !! (r ++ [n]) = m !! (r ++ [n]);
}.
#[global] Instance vault_grows_preorder : PreOrder vault_grows.
Proof.
  split; [by split|]. intros m1 m2 m3 [L12 O12 R12 B12 T12] [L23 O23 R23 B23 T23]. split.
  - intros d n Hd. etrans; [by apply L12|by apply L23].
  - congruence.
  - congruence.
  - eauto.
  - intros n Hn. rewrite T23 by done. by apply T12.
Qed.

Lemma in_vault_inj d n d' n' : in_vault r d n = in_vault r d' n' → d = d' ∧ n = n'.
Proof. intros E. apply (inj (app r)) in E. by injection E. Qed.
Lemma ops_file_in a : ∃ n, ops_file r a = in_vault r (str "ops") n.
Proof. unfold ops_file, OpLog_new, log_path, ops_dir, in_vault. simpl. eexists. by rewrite <-(assoc_L (++)). Qed.
Lemma roster_file_in a : ∃ n, roster_file r a = in_vault r (str "roster") n.
Proof. unfold roster_file, RosterLog_new, log_path, roster_dir, in_vault. simpl. eexists. by rewrite <-(assoc_L (++)). Qed.
Lemma key_file_in a : ∃ n, kl_path (KeyLog_new (keylog_dir r) a) = in_vault r (str "keylog") n.
Proof. unfold KeyLog_new, log_path, keylog_dir, in_vault. simpl. eexists. by rewrite <-(assoc_L (++)). Qed.

(** A change of one file that is not protected. *)
Lemma grows_alter q m m' : ¬ protected r q → (∀ x, x ≠ q → m' !! x = m !! x) → vault_grows m m'.
Proof.
  intros Hq Ho.
  assert (∀ d n, d ∈ log_dirs ∨ d = str "assets" ∧ is_valid_hash n = true →
            m' !! in_vault r d n = m !! in_vault r d n) as Hp.
  { intros d n Hd. apply Ho. intros <-. apply Hq. left. by exists d, n. }
  split.
  - intros d n Hd. by rewrite Hp by auto.
  - destruct (ops_file_in me) as [n ->]. apply Hp. left. decide_true.
  - destruct (roster_file_in me) as [n ->]. apply Hp. left. decide_true.
  - intros h b Hh Hb. rewrite Hp by auto. done.
  - intros n Hn. apply Ho. intros <-. apply Hq. right. by exists n.
Qed.
(** A log of another device, or a key log, that is extended. *)
Lemma grows_log d n x m :
  d ∈ log_dirs → in_vault r d n ≠ ops_file r me → in_vault r d n ≠ roster_file r me →
  default [] (m !! in_vault r d n) `prefix_of` x → vault_grows m (<[in_vault r d n := x]> m).
Proof.
  intros Hd Ho Hr Hx. split.
  - intros d' n' Hd'. rewrite lookup_insert. case_decide as E; [|done]. by rewrite <-E.
  - by rewrite lookup_insert_ne.
  - by rewrite lookup_insert_ne.
  - intros h b Hh Hb. rewrite lookup_insert_ne; [done|]. intros [-> ->]%in_vault_inj. by apply assets_not_log.
  - intros n' _. rewrite lookup_insert_ne; [done|]. intros E. apply (inj (app r)) in E. discriminate E.
Qed.
End relation.

(** ** Computations that only move along it *)
Section moves.
Context {Fs : Type} `{VaultFsLaws Fs}.
Context (r : path) (R : relation (gmap path bytes)) `{!PreOrder R}.
Hypothesis Hpaths : ∀ q, r `prefix_of` q → fs_path q.

(** Changing only the file [q] is a step of [R]. *)
Definition free (q : path) : Prop := ∀ m m' : gmap path bytes, (∀ x, x ≠ q → m' !! x = m !! x) → R m m'.

Definition moves {E A} (m : SM Fs E A) : Prop := ∀ f, fs_inv f → fs_inv (m f).2 ∧ R (files f) (files (m f).2).

Lemma moves_ret {E A} (a : A) : moves (mret a : SM Fs E A).
Proof. intros f Hf. by split. Qed.
Lemma moves_fail {E A} (e : E) : moves (sm_fail e : SM Fs E A).
Proof. intros f Hf. by split. Qed.
Lemma moves_lift {E A} (x : result E A) : moves (sm_lift x).
Proof. intros f Hf. by split. Qed.
Lemma moves_get {E} : moves (sm_get : SM Fs E Fs).
Proof. intros f Hf. by split. Qed.
Lemma moves_bind {E A B} (m : SM Fs E A) (k : A → SM Fs E B) : moves m → (∀ a, moves (k a)) → moves (m ≫= k).
Proof.
  intros Hm Hk f Hf. destruct (Hm f Hf) as [Hi Hr]. unfold mbind, SM_bind. destruct (m f) as [[a|e] f1]; [|done].
  destruct (Hk a f1 Hi) as [Hi2 Hr2]. split; [done|]. by etrans.
Qed.
Lemma moves_io {A} (m : SM Fs io_error A) : moves m → moves (io m).
Proof. intros Hm f Hf. unfold io, sm_map_err. simpl. by apply Hm. Qed.

Lemma moves_mkdir d : moves (fs_create_dir_all d).
Proof.
  intros f Hf. pose proof (fs_create_dir_all_spec d f Hf) as Hd. destruct (fs_create_dir_all d f) as [x f1].
  simpl. destruct Hd as (_&Hi&->). by split.
Qed.
Section free.
Variable q : path.
Hypothesis Hq : r `prefix_of` q.
Hypothesis Hfree : free q.
Lemma moves_write b : moves (fs_write q b).
Proof.
  intros f Hf. pose proof (fs_write_spec q b f Hf (Hpaths q Hq)) as Hw. destruct (fs_write q b f) as [x f1].
  simpl. destruct Hw as [Hi ->]. split; [done|]. unfold files_after. destruct x; [|done].
  apply Hfree. intros y Hy. by rewrite lookup_insert_ne.
Qed.
Lemma moves_append b : moves (fs_append q b).
Proof.
  intros f Hf. pose proof (fs_append_spec q b f Hf (Hpaths q Hq)) as Hw. destruct (fs_append q b f) as [x f1].
  simpl. destruct Hw as [Hi ->]. split; [done|]. unfold files_after. destruct x; [|done].
  apply Hfree. intros y Hy. by rewrite lookup_insert_ne.
Qed.
Lemma moves_remove : moves (fs_remove_file q).
Proof.
  intros f Hf. pose proof (fs_remove_file_spec q f Hf (Hpaths q Hq)) as Hw. destruct (fs_remove_file q f) as [x f1].
  simpl. destruct Hw as [Hi Hw]. split; [done|]. destruct (files f !! q).
  - destruct Hw as [_ ->]. apply Hfree. intros y Hy. by rewrite lookup_delete_ne.
  - by destruct Hw as [_ ->].
Qed.
Lemma moves_rename p : r `prefix_of` p → free p → q ≠ p → moves (fs_rename q p).
Proof.
  intros Hp Hfp Hne f Hf. pose proof (fs_rename_spec q p f Hf (Hpaths q Hq) (Hpaths p Hp) Hne) as Hw.
  destruct (fs_rename q p f) as [x f1]. simpl. destruct Hw as [Hi Hw]. split; [done|].
  destruct (files f !! q) as [b|]; [|by destruct Hw as [_ ->]]. rewrite Hw. unfold files_after. destruct x; [|done].
  transitivity (delete q (files f)).
  - apply Hfree. intros y Hy. by rewrite lookup_delete_ne.
  - apply Hfp. intros y Hy. by rewrite lookup_insert_ne.
Qed.
End free.
Lemma moves_ensure_parent p : moves (ensure_parent p).
Proof. unfold ensure_parent. case_match; [apply moves_io, moves_mkdir|apply moves_ret]. Qed.
Lemma moves_append_line {L} `{JsonOf L} q (l : L) :
  r `prefix_of` q → (∀ m b, R m (<[q := default [] (m !! q) ++ b]> m)) → moves (append_line q l).
Proof.
  intros Hq Hr. apply moves_io. intros f Hf.
  pose proof (fs_append_sync_spec q (utf8 (to_json l ++ [LF])) f Hf (Hpaths q Hq)) as Hw.
  destruct (fs_append_sync q _ f) as [x f1]. simpl. destruct Hw as [Hi ->]. split; [done|].
  unfold files_after. by destruct x.
Qed.
End moves.

(** *** Computations over the store *)
Section smoves.
Context {Fs Doc Ver : Type} `{VaultFsLaws Fs}.
Context (r : path) (i : Identity) (R : relation (gmap path bytes)) `{!PreOrder R}.
Abbreviation St := (Store Fs Doc Ver).

(** A vault at [r] that belongs to [i]. *)
Definition vault_at (s : St) : Prop := fs_inv (fs s) ∧ root s = r ∧ identity s = i.
Definition smoves {E A} (m : SM St E A) : Prop :=
  ∀ s, vault_at s → vault_at (m s).2 ∧ R (files (fs s)) (files (fs (m s).2)).

Lemma smoves_ret {E A} (a : A) : smoves (mret a : SM St E A).
Proof. intros s Hs. by split. Qed.
Lemma smoves_fail {E A} (e : E) : smoves (sm_fail e : SM St E A).
Proof. intros s Hs. by split. Qed.
Lemma smoves_lift {E A} (x : result E A) : smoves (sm_lift x).
Proof. intros s Hs. by split. Qed.
Lemma smoves_bind {E A B} (m : SM St E A) (k : A → SM St E B) : smoves m → (∀ a, smoves (k a)) → smoves (m ≫= k).
Proof.
  intros Hm Hk s Hs. destruct (Hm s Hs) as [Hs1 Hr]. unfold mbind, SM_bind. destruct (m s) as [[a|e] s1]; [|done].
  destruct (Hk a s1 Hs1) as [Hs2 Hr2]. split; [done|]. by etrans.
Qed.
(** The state that is read is a vault at [r]. *)
Lemma smoves_get {E B} (k : St → SM St E B) : (∀ s, vault_at s → smoves (k s)) → smoves (sm_get ≫= k).
Proof. intros Hk s Hs. unfold mbind, SM_bind, sm_get. by apply Hk. Qed.
Lemma smoves_iter {E A} (f : A → SM St E unit) l : (∀ a, a ∈ l → smoves (f a)) → smoves (sm_iter f l).
Proof.
  induction l as [|a l IH]; intros Hf; [apply smoves_ret|]. simpl. apply smoves_bind; [apply Hf; set_solver|].
  intros _. apply IH. set_solver.
Qed.
Lemma smoves_attempt {E F A} (m : SM St E A) : smoves m → smoves (attempt m : SM St F (result E A)).
Proof. intros Hm s Hs. destruct (Hm s Hs) as [Hv Hr]. unfold attempt. by destruct (m s) as [x s1]. Qed.
Lemma smoves_on_fs {A} (m : SM Fs StorageError A) : moves R m → smoves (on_fs m).
Proof.
  intros Hm s (Hi&Hr&Hid). destruct (Hm (fs s) Hi) as [Hi1 Hr1]. unfold on_fs.
  destruct (m (fs s)) as [x f1]. simpl in *. by split_and!.
Qed.
Lemma smoves_on_doc {A} (m : SM Doc StorageError A) : smoves (on_doc m).
Proof. intros s (Hi&Hr&Hid). unfold on_doc. destruct (m (doc s)) as [x d]. simpl. by split_and!. Qed.
Lemma smoves_modify (g : St → St) :
  (∀ s, fs (g s) = fs s ∧ root (g s) = root s ∧ identity (g s) = identity s) → smoves (modify g).
Proof.
  intros Hg s (Hi&Hr&Hid). unfold modify. simpl. destruct (Hg s) as (E1&E2&E3). unfold vault_at.
  rewrite E1, E2, E3. by split_and!.
Qed.
End smoves.

Create HintDb moves discriminated.
#[export] Hint Constants Opaque : moves.
#[export] Hint Resolve moves_ret moves_fail moves_lift moves_get moves_mkdir moves_ensure_parent : moves.
#[export] Hint Resolve smoves_ret smoves_fail smoves_lift smoves_on_doc : moves.
#[export] Hint Extern 1 (PreOrder _) => apply _ : moves.
(** Take a computation apart, call by call. *)
Ltac moves_step :=
  lazymatch goal with
  | |- smoves _ _ _ (mbind _ sm_get) =>
      apply smoves_get; let s := fresh "s" in let E1 := fresh "Eroot" in let E2 := fresh "Eid" in
      intros s (?&E1&E2); rewrite ?E1, ?E2
  | |- smoves _ _ _ (mbind _ _) => apply (smoves_bind _ _ _); [|intros ?]
  | |- smoves _ _ _ (sm_iter _ _) => apply (smoves_iter _ _ _); intros ? ?
  | |- smoves _ _ _ (on_fs _) => apply smoves_on_fs
  | |- smoves _ _ _ (attempt _) => apply smoves_attempt
  | |- smoves _ _ _ (modify _) => apply (smoves_modify _ _ _); intros ?; by split_and!
  | |- smoves _ _ _ (match _ with _ => _ end) => case_match
  | |- moves _ (mbind _ _) => apply (moves_bind _); [|intros ?]
  | |- moves _ (io _) => apply moves_io
  | |- moves _ (match _ with _ => _ end) => case_match
  end.
Ltac solve_moves := repeat (cbv zeta; first [solve [eauto with moves] | moves_step]).

(** ** The store's operations *)
Section store_ops.
Context `{Ed25519, CryptoLaws, EdX, B64, B64Url, KeyedHash}.
Context `{JsonOf EntryLine, JsonOf RosterLine, JsonOf (list PeerRecord), JsonOf KeyLine, JsonOf Marker}.
Context `{JsonOf HeldSnapshot, JsonOf SnapshotManifest, JsonOf TrustBundle}.
Context {Fs Doc Ver : Type} `{VaultFsLaws Fs, DocOps Doc Ver, DocHistory Doc}.
Variable pick : gset u64 → option u64.
Variable fuel : nat.
Context (r : path) (i : Identity).
Hypothesis Hpaths : ∀ q, r `prefix_of` q → fs_path q.
Abbreviation St := (Store Fs Doc Ver).
Abbreviation G := (vault_grows r (id_peer i)).
Implicit Types s : St.

(** *** Paths *)
Lemma in_vault_under d n : r `prefix_of` in_vault r d n.
Proof. by eexists. Qed.
Lemma top_under n : r `prefix_of` r ++ [n].
Proof. by eexists. Qed.
Lemma free_top n : n ∈ local_files → free G (r ++ [n]).
Proof.
  intros Hn m m' Hm. eapply grows_alter; [|exact Hm].
  intros [(d&n'&E&_)|(n'&E&Hn')]; apply (inj (app r)) in E; [discriminate E|]. by injection E as <-.
Qed.
Lemma free_dir d n : d ∉ log_dirs → d ≠ str "assets" → free G (in_vault r d n).
Proof.
  intros Hd Ha m m' Hm. eapply grows_alter; [|exact Hm].
  intros [(d'&n'&[-> ->]%in_vault_inj&[?|[? _]])|(n'&E&_)]; [done..|]. apply (inj (app r)) in E. discriminate E.
Qed.
Lemma free_asset n : is_valid_hash n = false → free G (in_vault r (str "assets") n).
Proof.
  intros Hn m m' Hm. eapply grows_alter; [|exact Hm].
  intros [(d'&n'&[<- <-]%in_vault_inj&[Hd|[_ Hv]])|(n'&E&_)]; [by apply assets_not_log|congruence|].
  apply (inj (app r)) in E. discriminate E.
Qed.

(** *** Members *)
Lemma smoves_write_cache : smoves r i G (write_peers_cache (Fs := Fs) (Doc := Doc) (Ver := Ver)).
Proof.
  unfold write_peers_cache. solve_moves; rewrite with_extension_snoc.
  - apply (moves_write r _ Hpaths); [apply top_under|apply free_top; decide_true].
  - apply (moves_rename r _ Hpaths); [apply top_under|apply free_top; decide_true|apply top_under|apply free_top; decide_true|]. intros E. apply (inj (app r)) in E. by injection E.
Qed.
Lemma smoves_refresh : smoves r i G (refresh_peers pick fuel : SM St StorageError unit).
Proof. pose proof smoves_write_cache. unfold refresh_peers. solve_moves. Qed.

(** *** From a given state *)
Definition from_here {E A} (m : SM St E A) (s : St) : Prop :=
  vault_at r i (m s).2 ∧ G (files (fs s)) (files (fs (m s).2)).
Lemma from_lift {E A B} (x : result E A) (k : A → SM St E B) s :
  vault_at r i s → (∀ a, x = Ok a → from_here (k a) s) → from_here (sm_lift x ≫= k) s.
Proof. intros Hs Hk. unfold from_here, mbind, SM_bind, sm_lift. destruct x as [a|e]; [by apply Hk|by split]. Qed.
Lemma from_get {E B} (k : St → SM St E B) s : from_here (k s) s → from_here (sm_get ≫= k) s.
Proof. done. Qed.
Lemma from_ret {E A} (a : A) s : vault_at r i s → from_here (mret a : SM St E A) s.
Proof. intros Hs. by split. Qed.
Lemma from_bind {E A B} (m : SM St E A) (k : A → SM St E B) s :
  from_here m s → (∀ a, smoves r i G (k a)) → from_here (m ≫= k) s.
Proof.
  intros [Hv Hg] Hk. unfold from_here, mbind, SM_bind. destruct (m s) as [[a|e] s1]; [|done].
  destruct (Hk a s1 Hv) as [Hv2 Hg2]. split; [done|]. by etrans.
Qed.

(** A log of another author is written only as an extension. *)
Lemma from_extend d n b s :
  vault_at r i s → d ∈ log_dirs → in_vault r d n ≠ ops_file r (id_peer i) → in_vault r d n ≠ roster_file r (id_peer i) →
  default [] (files (fs s) !! in_vault r d n) `prefix_of` b →
  from_here (on_fs (io (fs_write (in_vault r d n) b))) s.
Proof.
  intros (Hi&Hr&Hid) Hd Ho Hro Hpre. unfold from_here, on_fs, io, sm_map_err.
  pose proof (fs_write_spec (in_vault r d n) b (fs s) Hi (Hpaths _ (in_vault_under d n))) as Hw.
  destruct (fs_write (in_vault r d n) b (fs s)) as [x f1]. destruct Hw as [Hi1 Hf1]. simpl.
  split; [by split_and!|]. rewrite Hf1. unfold files_after. destruct x; [|done]. by apply grows_log.
Qed.
(** The guard of the imports: the new bytes start with the stored ones. *)
Lemma starts_with_stored (f : Fs) q b :
  fs_inv f → match fs_read q f with Ok existing => starts_with b existing = true | Err _ => True end →
  default [] (files f !! q) `prefix_of` b.
Proof.
  intros Hi. rewrite fs_read_spec by done. destruct (files f !! q); simpl; [|intros _; apply prefix_nil].
  apply starts_with_prefix.
Qed.
(** Other authors' rosters, and all key logs, are not the own logs. *)
Lemma other_roster a n : a ≠ id_peer i → roster_file r a = in_vault r (str "roster") n →
  in_vault r (str "roster") n ≠ ops_file r (id_peer i) ∧ in_vault r (str "roster") n ≠ roster_file r (id_peer i).
Proof.
  intros Ha E. rewrite <-E. split; [|by intros ?%roster_file_inj].
  rewrite E. destruct (ops_file_in r (id_peer i)) as [n' ->]. by intros [? _]%in_vault_inj.
Qed.
Lemma other_ops a n : a ≠ id_peer i → ops_file r a = in_vault r (str "ops") n →
  in_vault r (str "ops") n ≠ ops_file r (id_peer i) ∧ in_vault r (str "ops") n ≠ roster_file r (id_peer i).
Proof.
  intros Ha E. rewrite <-E. split; [by intros ?%log_path_inj|].
  rewrite E. destruct (roster_file_in r (id_peer i)) as [n' ->]. by intros [? _]%in_vault_inj.
Qed.
Lemma other_keylog n :
  in_vault r (str "keylog") n ≠ ops_file r (id_peer i) ∧ in_vault r (str "keylog") n ≠ roster_file r (id_peer i).
Proof.
  destruct (ops_file_in r (id_peer i)) as [n1 ->]. destruct (roster_file_in r (id_peer i)) as [n2 ->].
  split; by intros [? _]%in_vault_inj.
Qed.

Lemma smoves_bundle_log x : smoves r i G (import_bundle_log x : SM St StorageError unit).
Proof.
  intros s Hs. pose proof Hs as (Hi&Hr&Hid). unfold import_bundle_log. destruct x as [author b].
  unfold mbind, SM_bind, sm_get. rewrite Hr, Hid. case_decide as Hme; [by split|].
  fold (roster_file r author). destruct (roster_file_in r author) as [n E]. rewrite E.
  destruct (other_roster author n Hme E) as [Ho Hro].
  pose proof (starts_with_stored (fs s) (in_vault r (str "roster") n) b Hi) as Hpre.
  destruct (fs_read (in_vault r (str "roster") n) (fs s)) as [old|e].
  - destruct (starts_with b old); [|by split]. apply from_extend; auto. decide_true.
  - apply from_extend; auto. decide_true.
Qed.
Lemma smoves_bundle logs : smoves r i G (import_roster_bundle pick fuel logs : SM St StorageError unit).
Proof. pose proof smoves_refresh. unfold import_roster_bundle. solve_moves. apply smoves_bundle_log. Qed.

Lemma smoves_import_keylog a k b : smoves r i G (import_keylog a k b : SM St StorageError unit).
Proof.
  unfold import_keylog. apply smoves_get. intros s0 (_&Hr0&Hid0). rewrite Hr0, Hid0. case_decide; [apply smoves_fail; apply _|].
  destruct (key_file_in r a) as [n E]. rewrite E. apply (smoves_bind _ _ _); [solve_moves|]. intros _ s Hs.
  pose proof Hs as (Hi&Hr&Hid). unfold mbind at 1, SM_bind at 1, sm_get at 1. apply from_lift; [done|]. intros [] Hok.
  apply from_lift; [done|]. intros es _. destruct (other_keylog n) as [Ho Hro].
  apply from_extend; auto; [decide_true|]. apply starts_with_stored; [done|].
  destruct (fs_read _ (fs s)); [|done]. by destruct (starts_with _ _).
Qed.

Lemma smoves_keylogs known me ls : smoves r i G (apply_keylogs known me ls : SM St StorageError nat).
Proof.
  pose proof smoves_import_keylog. induction ls as [|l ls IH]; simpl; solve_moves. unfold apply_keylog. solve_moves.
Qed.
Lemma smoves_apply_bundle b : smoves r i G (apply_bundle pick fuel b : SM St StorageError nat).
Proof.
  pose proof smoves_bundle. unfold apply_bundle. solve_moves. apply smoves_keylogs.
Qed.

(** *** Keys *)
Lemma moves_key_append a e body :
  moves G (key_append (KeyLog_new (keylog_dir r) a) i e body : SM Fs StorageError KeyLogEntry).
Proof.
  unfold key_append. destruct (key_file_in r a) as [n E]. solve_moves. rewrite E.
  apply (moves_append_line r _); [done|apply in_vault_under|]. intros m b. destruct (other_keylog n).
  apply grows_log; auto; [decide_true|by eexists].
Qed.
Lemma smoves_publish rng a n ts :
  smoves r i G (publish_targets rng (KeyLog_new (keylog_dir r) a) n ts : SM St StorageError nat).
Proof.
  revert n. induction ts as [|[[e k] p] ts IH]; intros n; simpl; solve_moves. apply moves_key_append.
Qed.
Lemma smoves_backfill rng k1 k2 : smoves r i G (backfill_wraps rng k1 k2 : SM St StorageError nat).
Proof.
  unfold backfill_wraps, own_keylog. solve_moves. apply smoves_publish.
Qed.

(** *** Snapshots *)
Abbreviation snap := (str "snapshots").
Lemma free_snap n : free G (in_vault r snap n).
Proof. apply free_dir; decide_true. Qed.
Lemma with_extension_vault d n e : with_extension (in_vault r d n) e = in_vault r d (file_stem n ++ DOT :: e).
Proof.
  unfold in_vault. change [d; n] with ([d] ++ [n]). rewrite (assoc_L (++)), with_extension_snoc.
  by rewrite <-(assoc_L (++)).
Qed.
Lemma snap_path : snapshot_path r = in_vault r snap (str "snapshot.loro").
Proof. done. Qed.
Lemma smoves_save b : smoves r i G (on_fs (snapshot_save (snapshot_path r) b) : SM St StorageError unit).
Proof.
  unfold snapshot_save. rewrite snap_path, with_extension_vault. solve_moves.
  - apply (moves_write r _); auto using in_vault_under, free_snap.
  - apply (moves_rename r _); auto using in_vault_under, free_snap. by intros [_ E]%in_vault_inj.
Qed.
Lemma smoves_adopt b : smoves r i G (adopt_snapshot b : SM St StorageError unit).
Proof. pose proof smoves_save. unfold adopt_snapshot. solve_moves. Qed.

Lemma smoves_record id sub : smoves r i G (record_held_snapshot id sub : SM St StorageError unit).
Proof.
  unfold record_held_snapshot, held_path, snapshots_dir. solve_moves. rewrite <-(assoc_L (++)).
  apply (moves_append r _ Hpaths (in_vault r snap (str "held.jsonl"))); auto using in_vault_under, free_snap.
Qed.
Lemma smoves_persist id b : good_name id = true → smoves r i G (persist_snapshot_object id b : SM St StorageError unit).
Proof.
  intros Hid. unfold persist_snapshot_object, snapshots_dir. solve_moves; rewrite !join_good by auto using good_tmp;
    rewrite <-!(assoc_L (++)).
  - apply (moves_write r _ Hpaths (in_vault r snap (id ++ str ".tmp"))); auto using in_vault_under, free_snap.
  - apply (moves_rename r _ Hpaths (in_vault r snap (id ++ str ".tmp")) (in_vault_under _ _) (free_snap _) (in_vault r snap id));
      auto using in_vault_under, free_snap. intros [_ E]%in_vault_inj.
    apply (f_equal length) in E. rewrite length_app in E. simpl in E. lia.
Qed.
Lemma smoves_verify kc keys id b :
  good_name id = true → smoves r i G (verify_and_adopt_snapshot kc keys id b : SM St StorageError AdoptOutcome).
Proof.
  intros Hid. pose proof smoves_adopt. pose proof smoves_record. pose proof (smoves_persist id b Hid).
  unfold verify_and_adopt_snapshot. solve_moves.
Qed.
Lemma smoves_poison id : smoves r i G (mark_poisoned id : SM St StorageError unit).
Proof.
  unfold mark_poisoned, poisoned_path. solve_moves.
  apply (moves_append r _ Hpaths); [apply top_under|apply free_top; decide_true].
Qed.
Lemma smoves_write_snapshot now : smoves r i G (write_snapshot now : SM St StorageError unit).
Proof.
  pose proof smoves_save. unfold write_snapshot, history_append, history_path, history_dir. solve_moves.
  rewrite <-(assoc_L (++)). apply (moves_append r _); [done|apply (in_vault_under (str "history"))|].
  apply free_dir; decide_true.
Qed.

(** *** Blobs *)
Lemma smoves_blob_put b : smoves r i G (on_fs (blob_put (assets_dir r) b) : SM St StorageError rstring).
Proof.
  apply smoves_on_fs. intros f Hf. destruct (blob_put (assets_dir r) b f) as [x f'] eqn:E.
  assert (∀ n, r `prefix_of` assets_dir r ++ [n]) as Hpre.
  { intros n. unfold assets_dir. rewrite <-(assoc_L (++)). by eexists. }
  assert (blob_paths (Fs := Fs) (assets_dir r) (blob_hash b)) as Hb.
  { split_and!; apply Hpaths; [apply Hpre|apply Hpre|]. unfold part_path, incoming_dir, assets_dir.
    rewrite <-!(assoc_L (++)). by eexists. }
  destruct (blob_put_files (assets_dir r) b f x f' Hf Hb E) as (Hi&Ho&Hp&_). split; [done|]. simpl.
  set (p := assets_dir r ++ [blob_hash b]) in *. set (t := temp_path (assets_dir r) (blob_hash b)) in *.
  assert (p = in_vault r (str "assets") (blob_hash b)) as Ep by (unfold p, assets_dir; by rewrite <-(assoc_L (++))).
  assert (t = in_vault r (str "assets") (blob_hash b ++ str ".tmp")) as Et
    by (unfold t, temp_path, assets_dir; by rewrite <-(assoc_L (++))).
  assert (∀ n, str "assets" ∈ log_dirs ∨ is_valid_hash n = true → in_vault r (str "assets") n ≠ t) as Ht.
  { intros n [?|Hn]; [by destruct assets_not_log|]. rewrite Et. intros [_ ->]%in_vault_inj.
    by apply (valid_not_temp _ (blob_hash b) Hn (blob_hash_valid b)). }
  destruct (files f !! p) as [b0|] eqn:Eb.
  { enough (f' = f) as -> by done. destruct (fs_exists_spec p f Hf) as [Hex _].
    unfold blob_put in E. fold p in E. rewrite Hex in E by (by eexists). by injection E as _ <-. }
  assert (∀ d n, d ∈ log_dirs → files f' !! in_vault r d n = files f !! in_vault r d n) as Hlog.
  { intros d n Hd. apply Ho; [rewrite Ep|rewrite Et]; intros [-> _]%in_vault_inj; by apply assets_not_log. }
  split.
  - intros d n Hd. by rewrite Hlog.
  - destruct (ops_file_in r (id_peer i)) as [n ->]. apply Hlog. decide_true.
  - destruct (roster_file_in r (id_peer i)) as [n ->]. apply Hlog. decide_true.
  - intros h x0 Hh Hx. rewrite Ho; [done| |by apply Ht; right]. intros Eq. rewrite Eq in Hx. congruence.
  - intros n _. apply Ho; [rewrite Ep|rewrite Et]; intros Eq; apply (inj (app r)) in Eq; discriminate Eq.
Qed.

(** *** Received lines *)
Definition anything (_ _ : gmap path bytes) : Prop := True.
#[local] Instance anything_preorder : PreOrder anything.
Proof. by split. Qed.
Lemma ops_under p : r `prefix_of` ops_file r p.
Proof. destruct (ops_file_in r p) as [n ->]. apply in_vault_under. Qed.
Lemma import_peer_stays p k b : smoves r i anything (import_peer p k b : SM St StorageError unit).
Proof.
  unfold import_peer, peer_log. solve_moves. apply (moves_write r _); auto; [apply ops_under|done].
Qed.
Lemma from_import_peer p k b s :
  vault_at r i s → p ≠ id_peer i → default [] (files (fs s) !! ops_file r p) `prefix_of` b → from_here (import_peer p k b) s.
Proof.
  intros Hs Hp Hpre. pose proof Hs as (Hi&Hr&Hid). destruct (import_peer_stays p k b s Hs) as [Hv _]. split; [done|].
  destruct (import_peer p k b s) as [x s'] eqn:E. simpl.
  apply import_peer_spec in E as (_&_&[->|[-> _]]); [done| |done|rewrite Hr; apply Hpaths, ops_under].
  rewrite Hr. destruct (ops_file_in r p) as [n En]. rewrite En in *. destruct (other_ops p n Hp En).
  apply grows_log; auto. decide_true.
Qed.
Lemma append_unseen_extends seen whole n ls : whole `prefix_of` (append_unseen seen whole n ls).1.
Proof.
  revert seen whole n. induction ls as [|l ls IH]; intros seen whole n; simpl; [done|]. case_decide; [apply IH|].
  etrans; [|apply IH]. destruct (_ && _); rewrite <-?(assoc_L (++)); by eexists.
Qed.
Lemma newline_extends (x y : bytes) : x `prefix_of` y → x `prefix_of` (if ends_with y [NL] then y else y ++ [NL]).
Proof. intros Hx. case_match; [done|]. etrans; [exact Hx|]. by eexists. Qed.
Lemma smoves_dedup_lines p k ls : smoves r i G (dedup_append_peer_lines p k ls : SM St StorageError nat).
Proof.
  intros s Hs. pose proof Hs as (Hi&Hr&Hid). apply from_get. rewrite Hid. case_decide as Hp; [by apply from_ret|].
  apply from_lift; [done|]. intros ex Hex. rewrite export_peer_log_spec, Hr in Hex by done. injection Hex as <-.
  set (ex := default [] _). pose proof (append_unseen_extends (split_log_lines_bytes ex) ex 0 ls) as Hext.
  destruct (append_unseen _ _ _ _) as [whole added]. simpl in Hext. case_decide; [by apply from_ret|].
  apply from_bind; [|intros; apply smoves_ret; apply _]. apply from_import_peer; [done..|]. by apply newline_extends.
Qed.
Lemma smoves_dedup_line p k l : smoves r i G (dedup_append_peer_line p k l : SM St StorageError unit).
Proof.
  intros s Hs. pose proof Hs as (Hi&Hr&Hid). apply from_get. rewrite Hid. case_decide as Hp; [by apply from_ret|].
  apply from_lift; [done|]. intros ex Hex. rewrite export_peer_log_spec, Hr in Hex by done. injection Hex as <-.
  case_decide; [by apply from_ret|]. apply from_import_peer; [done..|]. apply newline_extends.
  destruct (_ && _); rewrite <-?(assoc_L (++)); by eexists.
Qed.

Context `{!KeyedHashLaws, !B64UrlNames}.
Lemma snapshot_id_good key d : good_name (snapshot_id key d) = true.
Proof.
  apply b64url_name. intros E. apply (f_equal length) in E. rewrite keyed_hash_len in E. discriminate E.
Qed.
Lemma smoves_produce nonce key before :
  smoves r i G (produce_held_snapshot nonce key before : SM St StorageError (option (rstring * bytes))).
Proof.
  pose proof smoves_record. pose proof smoves_persist. pose proof snapshot_id_good.
  unfold produce_held_snapshot. solve_moves.
Qed.
End store_ops.

(** ** The pass *)
Section pass.
Context `{Ed25519, CryptoLaws, EdX, B64, B64Url, !B64UrlNames, KeyedHashLaws, NegentropyIds, EntryPeer}.
Context `{JsonOf EntryLine, JsonOf RosterLine, JsonOf (list PeerRecord), JsonOf KeyLine, JsonOf Marker}.
Context `{JsonOf HeldSnapshot, JsonOf SnapshotManifest, JsonOf TrustBundle}.
Context {Fs Doc Ver : Type} `{VaultFsLaws Fs, DocOps Doc Ver, DocHistory Doc}.
Context {Bk : Type} `{Backend Bk}.
Variable pick : gset u64 → option u64.
Variable fuel : nat.
Context (r : path) (i : Identity).
Hypothesis Hpaths : ∀ q, r `prefix_of` q → fs_path q.
Abbreviation St := (Store Fs Doc Ver).
Abbreviation P := (Pass (Fs := Fs) (Doc := Doc) (Ver := Ver) (Bk := Bk)).
Abbreviation G := (vault_grows r (id_peer i)).

Definition pmoves {A} (m : SM P RelayError A) : Prop :=
  ∀ p, vault_at r i (ps_store p) → vault_at r i (ps_store (m p).2) ∧ G (files (fs (ps_store p))) (files (fs (ps_store (m p).2))).

Lemma pmoves_ret {A} (a : A) : pmoves (mret a).
Proof. intros p Hp. by split. Qed.
Lemma pmoves_fail {A} e : pmoves (sm_fail e : SM P RelayError A).
Proof. intros p Hp. by split. Qed.
Lemma pmoves_lift {A} (x : result RelayError A) : pmoves (sm_lift x).
Proof. intros p Hp. by split. Qed.
Lemma pmoves_note : pmoves note_undecryptable.
Proof. intros p Hp. by split. Qed.
Lemma pmoves_read {A} (g : St → result StorageError A) : pmoves (read_store g).
Proof. intros p Hp. by split. Qed.
Lemma pmoves_backend {A} (m : SM Bk RelayError A) : pmoves (in_backend m).
Proof. intros p Hp. unfold in_backend. destruct (m (ps_backend p)) as [x b]. by split. Qed.
Lemma pmoves_store {A} (m : SM St StorageError A) : smoves r i G m → pmoves (in_store m).
Proof. intros Hm p Hp. unfold in_store. destruct (Hm _ Hp) as [??]. by destruct (m (ps_store p)) as [x s]. Qed.
Lemma pmoves_bind {A B} (m : SM P RelayError A) (k : A → SM P RelayError B) :
  pmoves m → (∀ a, pmoves (k a)) → pmoves (m ≫= k).
Proof.
  intros Hm Hk p Hp. destruct (Hm p Hp) as [Hp1 Hr]. unfold mbind, SM_bind. destruct (m p) as [[a|e] p1]; [|done].
  destruct (Hk a p1 Hp1) as [Hp2 Hr2]. split; [done|]. by etrans.
Qed.
Lemma pmoves_get {B} (k : P → SM P RelayError B) :
  (∀ p, vault_at r i (ps_store p) → pmoves (k p)) → pmoves (sm_get ≫= k).
Proof. intros Hk p Hp. unfold mbind, SM_bind, sm_get. by apply Hk. Qed.
Lemma pmoves_iter {A} (f : A → SM P RelayError unit) l : (∀ a, a ∈ l → pmoves (f a)) → pmoves (sm_iter f l).
Proof.
  induction l as [|a l IH]; intros Hf; [apply pmoves_ret|]. simpl. apply pmoves_bind; [apply Hf; set_solver|].
  intros _. apply IH. set_solver.
Qed.
(** The continuation may use that the value was returned. *)
Lemma pmoves_result {A B} (m : SM P RelayError A) (k : A → SM P RelayError B) :
  pmoves m → (∀ a p p', m p = (Ok a, p') → pmoves (k a)) → pmoves (m ≫= k).
Proof.
  intros Hm Hk p Hp. destruct (Hm p Hp) as [Hp1 Hr]. unfold mbind, SM_bind. destruct (m p) as [[a|e] p1] eqn:E; [|done].
  destruct (Hk a p p1 E p1 Hp1) as [Hp2 Hr2]. split; [done|]. by etrans.
Qed.
End pass.

#[export] Hint Resolve pmoves_ret pmoves_fail pmoves_lift pmoves_note pmoves_read pmoves_backend : moves.
Ltac pass_step :=
  lazymatch goal with
  | |- pmoves _ _ (mbind _ sm_get) =>
      apply pmoves_get; let p := fresh "p" in let E1 := fresh "Eroot" in let E2 := fresh "Eid" in
      intros p (?&E1&E2); rewrite ?E1, ?E2
  | |- pmoves _ _ (mbind _ _) => apply pmoves_bind; [|intros ?]
  | |- pmoves _ _ (sm_iter _ _) => apply pmoves_iter; intros ? ?
  | |- pmoves _ _ (in_store _) => apply pmoves_store
  | |- pmoves _ _ (match _ with _ => _ end) => case_match
  end.
Ltac solve_pass := repeat (cbv zeta; first [solve [eauto with moves] | pass_step | moves_step]).

Section hostile.
Context `{Ed25519, CryptoLaws, EdX, B64, B64Url, !B64UrlNames, KeyedHashLaws, NegentropyIds, EntryPeer}.
Context `{JsonOf EntryLine, JsonOf RosterLine, JsonOf (list PeerRecord), JsonOf KeyLine, JsonOf Marker}.
Context `{JsonOf HeldSnapshot, JsonOf SnapshotManifest, JsonOf TrustBundle}.
Context {Fs Doc Ver : Type} `{VaultFsLaws Fs, DocOps Doc Ver, DocHistory Doc}.
Context {Bk : Type} `{Backend Bk}.
Variable pick : gset u64 → option u64.
Variable fuel : nat.
Context (r : path) (i : Identity).
Hypothesis Hpaths : ∀ q, r `prefix_of` q → fs_path q.
Abbreviation St := (Store Fs Doc Ver).
Abbreviation P := (Pass (Fs := Fs) (Doc := Doc) (Ver := Ver) (Bk := Bk)).
Abbreviation pm m := (pmoves r i (Fs := Fs) (Doc := Doc) (Ver := Ver) (Bk := Bk) m).

Lemma pm_rounds n bucket k set msg have need : pm (rounds n bucket k set msg have need).
Proof. revert msg have need. induction n as [|n IH]; intros; simpl; solve_pass. Qed.
Lemma pm_reconcile bucket k local : pm (reconcile_set bucket k local).
Proof. apply pm_rounds. Qed.

(** Whatever the server answers, the ids to fetch are encodings of 32 bytes. *)
Lemma rounds_need n bucket k set msg have need (p p' : P) x id :
  rounds n bucket k set msg have need p = (Ok x, p') → id ∈ x.2 → id ∈ need ∨ good_name id = true.
Proof.
  revert msg have need p. induction n as [|n IH]; intros msg have need p; [done|]. cbn [rounds]. intros Hrun Hid.
  step_ok Hrun reply p1 Hb. step_ok Hrun out p2 Hl. unfold sm_lift in Hl. injection Hl as Hout ->.
  unfold reconcile in Hout. destruct (neg_reconcile_with_ids set reply) as [[[nx hv] nd]|] eqn:En; [|done].
  injection Hout as <-. simpl in Hrun.
  assert (∀ y, y ∈ need ∪ list_to_set (id_to_str <$> nd) → y ∈ need ∨ good_name y = true) as Hgood.
  { intros y [?|Hy]%elem_of_union; [by left|]. right. apply elem_of_list_to_set, list_elem_of_fmap in Hy as (z&->&Hz).
    apply b64url_name. intros ->. by apply (neg_need_len _ _ _ _ _ _ En) in Hz. }
  destruct nx as [next|].
  - destruct (IH _ _ _ _ Hrun Hid) as [Hn|Hn]; [by apply Hgood|by right].
  - injection Hrun as <- _. by apply Hgood.
Qed.
Lemma reconcile_need bucket k local (p p' : P) x id :
  reconcile_set bucket k local p = (Ok x, p') → id ∈ x.2 → good_name id = true.
Proof. intros Hrun Hid. destruct (rounds_need _ _ _ _ _ _ _ _ _ _ _ Hrun Hid); [set_solver|done]. Qed.

Lemma pm_trust rng nonce key bucket : pm (reconcile_trust pick fuel rng nonce key bucket).
Proof.
  pose proof pm_reconcile. pose proof (smoves_backfill (Doc := Doc) (Ver := Ver) r i Hpaths).
  assert (∀ ids, pm (fetch_bundles pick fuel key bucket ids)).
  { induction ids as [|id ids IH]; simpl; solve_pass. unfold fetch_bundle. solve_pass. by apply smoves_apply_bundle. }
  unfold reconcile_trust. solve_pass.
Qed.
Lemma pm_snapshots bucket kc : pm (import_needed_snapshots bucket kc).
Proof.
  apply pmoves_bind; [apply pmoves_read|]. intros held. apply pmoves_result; [apply pm_reconcile|].
  intros x p p' Hx. solve_pass. unfold fetch_snapshot. solve_pass. apply smoves_verify; [done|].
  apply (reconcile_need _ _ _ _ _ _ _ Hx). by apply (elem_of_bset str_le).
Qed.
Lemma pm_produce now before nonce key bucket : pm (maybe_produce_snapshot now before nonce key bucket).
Proof.
  pose proof (smoves_write_snapshot (Doc := Doc) (Ver := Ver) r i Hpaths).
  pose proof (smoves_produce (Doc := Doc) (Ver := Ver) r i Hpaths). unfold maybe_produce_snapshot. solve_pass.
Qed.
Lemma pm_upload_entries nonces kc key bucket have es : pm (upload_entries nonces kc key bucket have es).
Proof. induction es as [|[id l] es IH]; simpl; solve_pass. Qed.
Lemma pm_upload_blobs nonces kc key bucket have bs : pm (upload_blobs nonces kc key bucket have bs).
Proof. induction bs as [|[id l] bs IH]; simpl; solve_pass. Qed.
Lemma pm_fetch_blob kc key bucket id : pm (fetch_blob kc key bucket id).
Proof.
  pose proof (smoves_poison (Doc := Doc) (Ver := Ver) r i Hpaths).
  pose proof (smoves_blob_put (Doc := Doc) (Ver := Ver) r i Hpaths). unfold fetch_blob. solve_pass.
Qed.
Lemma pm_fetch_entries bucket ids : pm (fetch_entries bucket ids).
Proof. induction ids as [|id ids IH]; simpl; solve_pass. Qed.
Lemma pm_sort kc key keys fetched acc : pm (sort_entries kc key keys fetched acc).
Proof.
  pose proof (smoves_poison (Doc := Doc) (Ver := Ver) r i Hpaths).
  revert acc. induction fetched as [|[id x] fetched IH]; intros acc; simpl; solve_pass.
Qed.
Lemma pm_import_entries self bucket need poisoned kc key : pm (import_needed_entries self bucket need poisoned kc key).
Proof.
  pose proof pm_fetch_entries. pose proof pm_sort.
  pose proof (smoves_dedup_lines (Doc := Doc) (Ver := Ver) r i Hpaths).
  pose proof (smoves_dedup_line (Doc := Doc) (Ver := Ver) r i Hpaths).
  unfold import_needed_entries, import_author. solve_pass.
Qed.

Lemma pm_pass o key : pm (reconcile_once pick fuel o key).
Proof.
  pose proof pm_trust. pose proof pm_snapshots. pose proof pm_reconcile. pose proof pm_produce.
  pose proof pm_upload_entries. pose proof pm_upload_blobs. pose proof pm_fetch_blob. pose proof pm_import_entries.
  unfold reconcile_once. solve_pass.
Qed.

(** C14: An untrusted relay can only add: whatever the server answers in a pass, and
    whether or not the pass fails on the way, afterwards every op log, roster log and
    key log on disk has its former content as a prefix, this device's own op log and
    roster log are unchanged, no stored blob is altered or removed, and at the top of the
    vault only the peers cache and the list of poisoned ids are written, so the founder
    pin and the device's key stay.  Every path below the vault's root is taken to be one that
    the storage can name. *)
Theorem relay_only_adds o key (p : P) res p' :
  vault_at r i (ps_store p) → reconcile_once pick fuel o key p = (res, p') →
  vault_at r i (ps_store p') ∧ vault_grows r (id_peer i) (files (fs (ps_store p))) (files (fs (ps_store p'))).
Proof. intros Hp Hrun. pose proof (pm_pass o key p Hp) as Hm. by rewrite Hrun in Hm. Qed.
End hostile.
