(* ===== verification/RelaySync.v ===== *)
(** * Delivery through the relay

    What a pass uploads and fetches when the server behaves, what it seals, and a
    bundle of trust that damages the roster of the device that receives it. *)
From S2P Require Import Prelude RustStr Vfs Roster Wire Logs Keychain Blob Trust Store StoreRoster StoreSync.
From S2P Require Import StoreKeys Checkpoint Paths Snapshots Relay RelaySpec.

(** ** A forged trust bundle *)
Section forged.
Context `{Ed25519, CryptoLaws, EdX, B64Laws, B64Url, KeyedHash, JsonLaws RosterLine}.
Context `{JsonOf (list PeerRecord), JsonOf KeyLine, JsonOf TrustBundle}.
Context {Fs Doc Ver : Type} `{VaultFsLaws Fs}.
Variable pick : gset u64 → option u64.
Variable fuel : nat.
Implicit Types s : Store Fs Doc Ver.

(** The bundle with this one roster log. *)
Definition one_roster (author : u64) (b : bytes) : TrustBundle :=
  mkTrustBundle TRUST_BUNDLE_V1 [SignedLog_new author b] [].

Lemma apply_one_roster author b s :
  let f := roster_file (root s) author in
  fs_inv (fs s) → vault_paths (Fs := Fs) (root s) → fs_path f → author ≠ id_peer (identity s) →
  default [] (files (fs s) !! f) `prefix_of` b → writable f b (fs s) →
  let s' := (apply_bundle pick fuel (one_roster author b) s).2 in
  fs_inv (fs s') ∧ root s' = root s ∧ identity s' = identity s ∧ files (fs s') !! f = Some b.
Proof.
  intros f Hi Hv Hf Ha Hpre Hw. destruct (apply_bundle pick fuel (one_roster author b) s) as [x s'] eqn:Hrun. cbn [snd].
  unfold apply_bundle, one_roster in Hrun. simpl in Hrun. unfold sl_decode in Hrun. simpl in Hrun.
  rewrite b64_decode_encode in Hrun. simpl in Hrun. unfold import_roster_bundle in Hrun.
  unfold mbind at 1, SM_bind at 1 in Hrun. unfold mbind at 1, SM_bind at 1, sm_get at 1 in Hrun.
  unfold mbind at 1, SM_bind at 1 in Hrun.
  destruct (on_fs (io (fs_create_dir_all (roster_dir (root s)))) s) as [r1 s1] eqn:E1.
  apply on_fs_frame in E1 as [E1 Hs1]. apply io_mkdir in E1 as (Hi1&Hf1&->); [|done]. destruct Hs1 as (Hr1&Hid1&_).
  unfold mbind at 1, SM_bind at 1 in Hrun. cbn [sm_iter] in Hrun.
  assert (∃ s2, (import_bundle_log (author, b) ≫= λ _, mret tt) s1 = (Ok tt, s2) ∧ fs_inv (fs s2) ∧
            root s2 = root s ∧ identity s2 = identity s ∧ files (fs s2) !! f = Some b) as (s2&E2&Hi2&Hr2&Hid2&Hf2).
  { unfold mbind, SM_bind, import_bundle_log, mbind, SM_bind, sm_get. rewrite Hid1, decide_False, Hr1 by done.
    change (ro_path (RosterLog_new (roster_dir (root s)) author)) with f. rewrite <-Hf1 in Hpre.
    assert (∃ s2, on_fs (io (fs_write f b)) s1 = (Ok tt, s2) ∧ fs_inv (fs s2) ∧
              root s2 = root s ∧ identity s2 = identity s ∧ files (fs s2) !! f = Some b) as (s2&Hwr&Hs2).
    { destruct (on_fs (io (fs_write f b)) s1) as [r2 s2] eqn:E2. apply on_fs_frame in E2 as [E2 (Hr2&Hid2&_)].
      assert (r2 = Ok tt) as ->.
      { unfold io, sm_map_err in E2. specialize (Hw (fs s1) Hi1 Hf1). destruct (fs_write f b (fs s1)) as [y f1].
        simpl in *. subst y. by injection E2 as <- _. }
      apply io_write_files in E2 as [Hi2 Hf2]; [|done..]. exists s2. rewrite Hf2, lookup_insert_eq, Hr2, Hid2. by split_and!. }
    exists s2. split; [|done]. rewrite fs_read_spec by done. destruct (files (fs s1) !! f) as [old|]; cbn [ok_or].
    - assert (starts_with b old = true) as -> by (by apply starts_with_prefix). by rewrite Hwr.
    - by rewrite Hwr. }
  rewrite E2 in Hrun.
  destruct (refresh_peers pick fuel s2) as [r3 s3] eqn:E3. clear E2. rewrite <-Hr2 in Hv.
  destruct (roster_file_not_cache (root s) author) as [Hc1 Hc2]. fold f in Hc1, Hc2. rewrite <-Hr2 in Hc1, Hc2.
  destruct (refresh_peers_frame pick fuel s2 r3 s3 f Hi2 Hv E3 Hc1 Hc2) as (Hr3&Hid3&_&Hi3&Hf3&_).
  assert (fs_inv (fs s3) ∧ root s3 = root s ∧ identity s3 = identity s ∧ files (fs s3) !! f = Some b) as Hfin
    by (split_and!; congruence || done).
  destruct r3 as [[]|]; injection Hrun as _ <-; exact Hfin.
Qed.

(** One forged line in a trust bundle removes a member's decisions for good: a
    bundle that repeats an author's roster log with one more line that does not verify
    is stored, since it extends the stored bytes; from then on the author's whole log
    is left out of the roster, and every genuine later version of it is refused. *)
Theorem forged_bundle_sticks author key ls forged e s :
  let f := roster_file (root s) author in
  let b := utf8 (log_text (ls ++ [forged])) in
  let s' := (apply_bundle pick fuel (one_roster author b) s).2 in
  fs_inv (fs s) → vault_paths (Fs := Fs) (root s) → fs_path f → author ≠ id_peer (identity s) →
  log_holds (fs s) f ls → writable f b (fs s) →
  roster_check author key forged = Err e →
  read_author (root s) (fs s') author key = None ∧
  ∀ honest, ¬ b `prefix_of` honest →
    (import_roster pick fuel author key honest s').1 = Err Peer ∧
    files (fs (import_roster pick fuel author key honest s').2) = files (fs s').
Proof.
  intros f b s' Hi Hv Hf Ha Hl Hw He.
  destruct (apply_one_roster author b s Hi Hv Hf Ha) as (Hi'&Hr'&Hid'&Hf'); [|done|].
  { fold f. unfold log_holds in Hl. rewrite Hl. unfold b. rewrite log_text_snoc, utf8_app. by eexists. }
  fold s' in Hi', Hr', Hid', Hf'. split.
  - unfold read_author, roster_read_verified. rewrite (read_verified_holds _ (fs s') _ (ls ++ [forged])); [|done|].
    + rewrite fmap_app. csimpl. rewrite He. destruct (collect (_ ++ _)) as [es|] eqn:Ec; [|done]. exfalso.
      clear -Ec. revert es Ec. induction (roster_check _ key <$> ls) as [|[x|e'] l IH]; intros es; simpl; [done| |done].
      destruct (collect (l ++ _)) as [es'|]; [|done]. intros _. by apply (IH es').
    + unfold log_holds. change (ro_path _) with f. fold f in Hf'. by rewrite Hf'.
  - intros honest Hh. destruct (import_roster pick fuel author key honest s') as [x s2] eqn:Hrun. cbn [fst snd].
    unfold import_roster in Hrun. unfold mbind at 1, SM_bind at 1, sm_get at 1 in Hrun.
    rewrite Hid', decide_False, Hr' in Hrun by done. unfold mbind at 1, SM_bind at 1 in Hrun.
    destruct (on_fs (io (fs_create_dir_all (roster_dir (root s)))) s') as [r1 s1] eqn:E1.
    apply on_fs_frame in E1 as [E1 Hs1]. apply io_mkdir in E1 as (Hi1&Hf1&->); [|done].
    unfold mbind, SM_bind, sm_get, sm_lift in Hrun. rewrite fs_read_spec, Hf1 in Hrun by done.
    change (ro_path (RosterLog_new (roster_dir (root s)) author)) with f in Hrun. fold f in Hf'.
    rewrite Hf' in Hrun. simpl in Hrun. destruct (starts_with honest b) eqn:Es; [by apply starts_with_prefix in Es|].
    by injection Hrun as <- <-.
Qed.
End forged.

(** ** Discovery: the symmetric difference *)
Section session.
Context `{Negentropy}.
(** A whole session between the initiator's ids [mine] and the server's [theirs]. *)
Fixpoint neg_session (n : nat) (mine theirs : list bytes) (msg : bytes) (have need : list bytes)
    : option (list bytes * list bytes) :=
  match n with
  | O => None
  | S n =>
      reply ← neg_reconcile theirs msg;
      x ← neg_reconcile_with_ids mine reply;
      match x.1.1 with
      | Some next => neg_session n mine theirs next (have ++ x.1.2) (need ++ x.2)
      | None => Some (have ++ x.1.2, need ++ x.2)
      end
  end.
End session.
(** Negentropy's promise: a session that ends has found exactly the differences. *)
Class NegentropyLaws `{Negentropy} := {
  neg_exact n mine theirs have need :
    (∀ x, x ∈ mine ∨ x ∈ theirs → length x = 32) →
    neg_session n mine theirs (neg_initiate mine) [] [] = Some (have, need) →
    (∀ x, x ∈ have ↔ x ∈ mine ∧ x ∉ theirs) ∧ (∀ x, x ∈ need ↔ x ∈ theirs ∧ x ∉ mine);
}.

Section discovery.
Context `{Ed25519, Crypto, EdX, B64, B64UrlLaws, KeyedHash, NegentropyLaws, EntryPeer}.
Context `{JsonOf EntryLine, JsonOf RosterLine, JsonOf (list PeerRecord), JsonOf KeyLine, JsonOf Marker}.
Context `{JsonOf HeldSnapshot, JsonOf SnapshotManifest, JsonOf TrustBundle}.
Context {Fs Doc Ver : Type} `{VaultFs Fs, DocOps Doc Ver, DocHistory Doc}.
Abbreviation P := (Pass (Fs := Fs) (Doc := Doc) (Ver := Ver) (Bk := MemoryBackend)).

Definition is_id (s : rstring) : Prop := ∃ b, length b = 32 ∧ s = id_to_str b.
Lemma str_to_id_str b : length b = 32 → str_to_id (id_to_str b) = Some b.
Proof. intros Hb. unfold str_to_id, id_to_str. rewrite b64url_decode_encode. simpl. by rewrite decide_True. Qed.
Lemma id_to_str_inj b b' : id_to_str b = id_to_str b' → b = b'.
Proof. intros E. apply (f_equal b64url_decode) in E. unfold id_to_str in E. rewrite !b64url_decode_encode in E. by injection E. Qed.
Lemma elem_of_from_ids l x : x ∈ from_ids l ↔ x ∈ l.
Proof. unfold from_ids. by rewrite elem_of_bset, elem_of_list_to_set. Qed.
(** The decoded ids of a list of ids. *)
Lemma elem_of_decoded (l : list rstring) (b : bytes) : (∀ s, s ∈ l → is_id s) → length b = 32 → b ∈ omap str_to_id l ↔ id_to_str b ∈ l.
Proof.
  intros Hl Hb. rewrite list_elem_of_omap. split.
  - intros (s&Hs&Es). destruct (Hl s Hs) as (c&Hc&->). rewrite str_to_id_str in Es by done. by injection Es as <-.
  - intros Hs. exists (id_to_str b). split; [done|]. by apply str_to_id_str.
Qed.
Lemma decoded_len (l : list rstring) (b : bytes) : b ∈ omap str_to_id l → length b = 32.
Proof.
  rewrite list_elem_of_omap. intros (s&_&Es). unfold str_to_id in Es. destruct (b64url_decode s); simpl in Es; [|done].
  case_decide; [by injection Es as <-|done].
Qed.

Lemma rounds_session (n : nat) (bucket : rstring) (k : SetKind) (set : list bytes) (msg : bytes) (Hv N0 : gset rstring) (hv nd have need : list bytes) (p : P) :
  let theirs := from_ids (id_set bucket k (ps_backend p)) in
  Hv = list_to_set (id_to_str <$> hv) → N0 = list_to_set (id_to_str <$> nd) →
  neg_session n set theirs msg hv nd = Some (have, need) →
  rounds n bucket k set msg Hv N0 p =
    (Ok (list_to_set (id_to_str <$> have), list_to_set (id_to_str <$> need)), p).
Proof.
  intros theirs. revert msg Hv N0 hv nd. induction n as [|n IH]; intros msg Hv N0 hv nd -> ->; [done|].
  cbn [neg_session rounds]. unfold mbind at 1 2, option_bind. intros Hs.
  destruct (neg_reconcile theirs msg) as [reply|] eqn:Er; [|done].
  destruct (neg_reconcile_with_ids set reply) as [[[nx h1] n1]|] eqn:Ec; [|done]. simpl in Hs.
  unfold mbind at 1, SM_bind at 1, in_backend. simpl. unfold mb_reconcile, reconcile_server. fold theirs.
  change (neg_reconcile (from_ids (id_set bucket k (ps_backend p))) msg) with (neg_reconcile theirs msg). rewrite Er. simpl.
  replace (mkPass (ps_store p) (ps_backend p) (undecryptable p)) with p by (by destruct p).
  unfold mbind at 1, SM_bind at 1, sm_lift, reconcile. rewrite Ec. simpl.
  rewrite <-!list_to_set_app_L, <-!fmap_app. destruct nx as [next|].
  - by eapply IH.
  - by injection Hs as <- <-.
Qed.

(** The ids of a kind that the server holds. *)
Abbreviation held k bucket p := (in_bucket k bucket (ps_backend p)).
Definition local_ids (local : gset rstring) : list bytes := from_ids (omap str_to_id (bset_to_list str_le local)).
(** The session for these ids ends within the cap on rounds. *)
Definition converges (bucket : rstring) (k : SetKind) (local : gset rstring) (p : P) : Prop :=
  is_Some (neg_session RBSR_ROUND_CAP (local_ids local) (from_ids (id_set bucket k (ps_backend p)))
             (neg_initiate (local_ids local)) [] []).

Lemma elem_of_local_ids (local : gset rstring) (b : bytes) :
  (∀ x, x ∈ local → is_id x) → length b = 32 → b ∈ local_ids local ↔ id_to_str b ∈ local.
Proof.
  intros Hl Hb. unfold local_ids. rewrite elem_of_from_ids, elem_of_decoded; [by rewrite elem_of_bset| |done].
  intros x. rewrite elem_of_bset. apply Hl.
Qed.
Lemma elem_of_server_ids (bucket : rstring) (k : SetKind) (p : P) (b : bytes) :
  (∀ x, x ∈ dom (held k bucket p) → is_id x) → length b = 32 →
  b ∈ from_ids (id_set bucket k (ps_backend p)) ↔ id_to_str b ∈ dom (held k bucket p).
Proof.
  intros Hl Hb. unfold id_set. rewrite elem_of_from_ids, elem_of_decoded; [| |done].
  - unfold mb_ids. by rewrite elem_of_btree_keys, elem_of_dom.
  - intros x. unfold mb_ids. rewrite elem_of_btree_keys, <-elem_of_dom. apply Hl.
Qed.

(** Discovery finds exactly the two differences. *)
Lemma reconcile_exact (bucket : rstring) (k : SetKind) (local : gset rstring) (p : P) :
  (∀ x, x ∈ local → is_id x) → (∀ x, x ∈ dom (held k bucket p) → is_id x) → converges bucket k local p →
  ∃ have need : gset rstring, reconcile_set bucket k local p = (Ok (have, need), p) ∧
    (∀ x, x ∈ have ↔ x ∈ local ∧ x ∉ dom (held k bucket p)) ∧
    (∀ x, x ∈ need ↔ x ∈ dom (held k bucket p) ∧ x ∉ local).
Proof.
  intros Hl Hs [[have need] Hc]. exists (list_to_set (id_to_str <$> have)), (list_to_set (id_to_str <$> need)).
  split; [by eapply (rounds_session _ _ _ _ _ ∅ ∅ [] [])|]. 
  assert (∀ b, b ∈ local_ids local → length b = 32) as L1.
  { intros b. unfold local_ids. rewrite elem_of_from_ids. apply decoded_len. }
  assert (∀ b, b ∈ from_ids (id_set bucket k (ps_backend p)) → length b = 32) as L2.
  { intros b. rewrite elem_of_from_ids. apply decoded_len. }
  apply neg_exact in Hc as [Hh Hn]; [|intros b [Hb|Hb]; auto].
  split; intros x; rewrite elem_of_list_to_set, list_elem_of_fmap; split.
  - intros (b&->&Hb). apply Hh in Hb as [Hb1 Hb2]. pose proof (L1 _ Hb1).
    rewrite elem_of_local_ids in Hb1 by done. by rewrite elem_of_server_ids in Hb2 by done.
  - intros [Hx1 Hx2]. destruct (Hl x Hx1) as (b&Hb&->). exists b. split; [done|]. apply Hh.
    by rewrite elem_of_local_ids, elem_of_server_ids.
  - intros (b&->&Hb). apply Hn in Hb as [Hb1 Hb2]. pose proof (L2 _ Hb1).
    rewrite elem_of_local_ids in Hb2 by done. by rewrite elem_of_server_ids in Hb1 by done.
  - intros [Hx1 Hx2]. destruct (Hs x Hx1) as (b&Hb&->). exists b. split; [done|]. apply Hn.
    by rewrite elem_of_local_ids, elem_of_server_ids.
Qed.

(** ** Uploading *)
Lemma in_bucket_put (k : SetKind) (bucket id : rstring) (ct : bytes) (m : MemoryBackend) :
  in_bucket k bucket (mb_put k bucket id ct m).2 =
    match in_bucket k bucket m !! id with Some _ => in_bucket k bucket m | None => <[id := ct]> (in_bucket k bucket m) end.
Proof.
  unfold mb_put. destruct (in_bucket k bucket m !! id) eqn:E; unfold in_bucket at 1; destruct k; simpl;
    by rewrite lookup_insert_eq.
Qed.
Lemma upload_spec (nonces : nat → bytes) (kc : Keychain) (key : bytes) (bucket : rstring) (have : gset rstring) es (p : P) :
  (∀ n l, is_Some (seal_under_head (nonces n) kc key l)) →
  ∃ p', upload_entries nonces kc key bucket have es p = (Ok tt, p') ∧ ps_store p' = ps_store p ∧
    held KEntries bucket p ⊆ held KEntries bucket p' ∧
    (∀ id l, (id, l) ∈ es → id ∈ have → is_Some (held KEntries bucket p' !! id)) ∧
    (∀ id ct, held KEntries bucket p' !! id = Some ct → held KEntries bucket p !! id = Some ct ∨
       ∃ l n, (id, l) ∈ es ∧ id ∈ have ∧ seal_under_head (nonces n) kc key l = Some ct).
Proof.
  intros Hseal. revert p. induction es as [|[id0 l0] es IH]; intros p.
  { exists p. split_and!; [done..|set_solver|naive_solver]. }
  cbn [upload_entries]. unfold mbind at 1, SM_bind at 1. case_decide as Hin.
  2:{ destruct (IH p) as (p'&E&Hst&Hsub&Hget&Hnew). exists p'. split; [done|]. split_and!; [done|done| |].
      - intros id l [[= -> ->]|Hl]%elem_of_cons; [done|]. by eapply Hget.
      - intros id ct Hct. destruct (Hnew id ct Hct) as [?|(l&n&?&?&?)]; [by left|right]. exists l, n. set_solver. }
  destruct (Hseal (length es) l0) as [ct0 Hct0]. rewrite Hct0. unfold mbind at 1, SM_bind at 1, in_backend.
  pose proof (in_bucket_put KEntries bucket id0 ct0 (ps_backend p)) as Hput.
  assert (∃ x m, bk_put KEntries bucket id0 ct0 (ps_backend p) = (Ok x, m)) as (x&m&Em).
  { simpl. unfold mb_put. destruct (_ !! id0); by eexists _, _. }
  rewrite Em. change (bk_put KEntries bucket id0 ct0 (ps_backend p)) with (mb_put KEntries bucket id0 ct0 (ps_backend p)) in Em.
  rewrite Em in Hput. simpl in Hput. set (p1 := mkPass (ps_store p) m (undecryptable p)).
  unfold mret at 1, SM_ret at 1. destruct (IH p1) as (p'&E&Hst&Hsub&Hget&Hnew). exists p'.
  change (ps_backend p1) with m in *. split; [done|]. split; [done|].
  assert (held KEntries bucket p ⊆ in_bucket KEntries bucket m ∧ is_Some (in_bucket KEntries bucket m !! id0) ∧
    ∀ id ct, in_bucket KEntries bucket m !! id = Some ct → held KEntries bucket p !! id = Some ct ∨ id = id0 ∧ ct = ct0)
    as (Hs1&Hs2&Hs3).
  { rewrite Hput. destruct (held KEntries bucket p !! id0) eqn:E0.
    - split_and!; [done|rewrite E0; by eexists|by left].
    - split_and!; [by apply insert_subseteq|rewrite lookup_insert_eq; by eexists|].
      intros id ct. rewrite lookup_insert_Some. intros [[<- <-]|[_ ?]]; [by right|by left]. }
  split_and!; [by etrans| |].
  - intros id l [[= -> ->]|Hl]%elem_of_cons Hid; [|by eapply Hget].
    destruct Hs2 as [ct Hs2]. exists ct. by eapply lookup_weaken.
  - intros id ct Hct. destruct (Hnew id ct Hct) as [Hx1|(l&n&?&?&?)]; [|right; exists l, n; set_solver].
    destruct (Hs3 id ct Hx1) as [?|[-> ->]]; [by left|right]. exists l0, (length es). set_solver.
Qed.
End discovery.
