(* ===== verification/RelayDeliver.v ===== *)
(** * What one device uploads, another stores

    The fetching half of a pass, over any server content: an author's log on disk stays
    sound whatever is fetched, and every genuine line that is offered ends up in it. *)
From S2P Require Import Prelude RustStr Vfs Roster Wire Logs Keychain Blob Trust Store StoreRoster StoreSync.
From S2P Require Import StoreKeys Checkpoint Paths Snapshots LogLines Relay RelaySpec RelaySync.

Section receive.
Context `{Ed25519, CryptoLaws, EdX, B64, B64Url, KeyedHash, Negentropy, EntryPeer}.
Context `{JsonLaws EntryLine, JsonOf RosterLine, JsonOf (list PeerRecord), JsonOf KeyLine, JsonOf Marker}.
Context `{JsonOf HeldSnapshot, JsonOf SnapshotManifest, JsonOf TrustBundle}.
Context {Fs Doc Ver : Type} `{VaultFsLaws Fs, DocOps Doc Ver, DocHistory Doc}.
Abbreviation St := (Store Fs Doc Ver).
Implicit Types s : St.

(** The receiving device at [r], its roster [ps], and an author it accepts lines from. *)
Context (r : path) (i : Identity) (ps : list PeerRecord) (a : u64) (k : bytes).
Hypothesis Hpaths : ∀ q, r `prefix_of` q → fs_path q.
Hypothesis Hother : a ≠ id_peer i.

Abbreviation alog := (OpLog_new (ops_dir r) a).
Definition stored s : bytes := default [] (files (fs s) !! ops_file r a).
(** A log whose every line verifies and carries only the author's ops. *)
Definition sound_log (b : bytes) : Prop :=
  starts_line b ∧ ∃ es, oplog_verify_bytes alog k b = Ok es ∧ probe_all (Doc := Doc) (id_peer i) a es = Ok tt.
(** A line the author really wrote. *)
Definition genuine (l : bytes) : Prop :=
  ∃ el e, l = line_bytes el ∧ oplog_check alog k el = Ok e ∧ probe_all (Doc := Doc) (id_peer i) a [e] = Ok tt.
Definition receiving s : Prop := vault_at r i s ∧ peers s = ps ∧ sound_log (stored s).
(** The file of refused ids is text. *)
Definition poison_text s : Prop :=
  ∃ t, default [] (files (fs s) !! poisoned_path r) = utf8 t ∧ forallb is_scalar t = true.

Lemma probe_snoc self es e :
  probe_all (Doc := Doc) self a es = Ok tt → probe_all (Doc := Doc) self a [e] = Ok tt →
  probe_all (Doc := Doc) self a (es ++ [e]) = Ok tt.
Proof.
  intros Hes He. induction es as [|x es IH]; [done|]. simpl in Hes |- *.
  destruct (doc_new self) as [d|]; [|done]. simpl in *. destruct (doc_import_authored_by a (e_update x) d).1; [|done].
  simpl in *. by apply IH.
Qed.
Lemma genuine_complete l : genuine l → complete_line l.
Proof. intros (el&e&->&_). apply line_complete. Qed.
Lemma sound_snoc b l : sound_log b → genuine l → sound_log (b ++ l).
Proof.
  intros [Hb (es&Hv&Hp)] Hl. pose proof (genuine_complete l Hl) as (c&Hc&_). destruct Hl as (el&e&->&Hch&Hpe). split.
  - rewrite Hc. apply starts_line_app.
  - exists (es ++ [e]). split; [|by apply probe_snoc]. by apply verify_bytes_snoc.
Qed.
Lemma ends_nl_app (x : bytes) l : complete_line l → ends_with (x ++ l) [NL] = true.
Proof. intros (c&->&_). apply ends_with_spec. exists (x ++ c). by rewrite (assoc_L (++)). Qed.
Lemma starts_mid_same (x : bytes) : starts_line x → (if bool_decide (x ≠ []) && negb (ends_with x [NL]) then x ++ [NL] else x) = x.
Proof. intros [->| ->]; [done|]. by rewrite andb_false_r. Qed.

(** ** One import *)
Lemma import_receiving p key b s x s' :
  receiving s → import_peer p key b s = (x, s') → (p = a → key = k ∧ stored s `prefix_of` b ∧ starts_line b) →
  receiving s' ∧ stored s `prefix_of` stored s' ∧ (p = a → x = Ok tt → stored s' = b) ∧
  (poison_text s → poison_text s').
Proof.
  intros (Hv&Hps&Hlog) Hrun Hb. pose proof Hv as (Hi&Hr&Hid).
  destruct (import_peer_stays (Doc := Doc) (Ver := Ver) r i Hpaths p key b s Hv) as [Hv' _]. rewrite Hrun in Hv'.
  apply import_peer_spec in Hrun as (Hps'&Hok&Hf); [|done|rewrite Hr; apply Hpaths, ops_under].
  rewrite Hr in Hok, Hf. cbn [snd] in Hv'.
  assert (ops_file r p ≠ poisoned_path r) as Hne.
  { destruct (ops_file_in r p) as [n ->]. unfold in_vault, poisoned_path. by intros [=]%app_inv_head. }
  assert (p ≠ a → ops_file r p ≠ ops_file r a) as Hpa.
  { intros Hpa E. by apply log_path_inj in E. }
  split_and!.
  - split; [done|]. split; [congruence|]. unfold stored. destruct Hf as [->|[-> Hmay]]; [done|].
    destruct (decide (p = a)) as [->|Hn]; [|rewrite lookup_insert_ne; [done|by apply Hpa]].
    rewrite lookup_insert_eq. destruct Hb as (->&_&Hsb); [done|]. split; [done|].
    destruct Hmay as (_&_&_&es&Hes&Hpr). rewrite Hr in Hes. rewrite Hid in Hpr. by exists es.
  - unfold stored. destruct Hf as [->|[-> Hmay]]; [done|].
    destruct (decide (p = a)) as [->|Hn]; [|by rewrite lookup_insert_ne; [|apply Hpa]].
    rewrite lookup_insert_eq. by destruct Hb as (_&?&_).
  - intros -> Hx. unfold stored. by rewrite Hok.
  - unfold poison_text. destruct Hf as [->|[-> _]]; [done|]. by rewrite lookup_insert_ne.
Qed.

(** ** Lines, as a batch and one at a time *)
Lemma append_unseen_count (seen : list bytes) (whole : bytes) n ls :
  n ≤ (append_unseen seen whole n ls).2 ∧ ((append_unseen seen whole n ls).2 = n → (append_unseen seen whole n ls).1 = whole).
Proof.
  revert seen whole n. induction ls as [|l ls IH]; intros seen whole n; simpl; [done|]. case_decide; [apply IH|].
  destruct (IH (l :: seen) ((if bool_decide (whole ≠ []) && negb (ends_with whole [NL]) then whole ++ [NL] else whole) ++ l) (S n)).
  split; [lia|]. intros E. lia.
Qed.
Lemma closed_starts (x : bytes) : starts_line (if ends_with x [NL] then x else x ++ [NL]).
Proof. destruct (ends_with x [NL]) eqn:E; [by right|]. apply (starts_line_app x []). Qed.

(** Nothing that is received damages the author's log. *)
Definition keeps s s' : Prop :=
  receiving s' ∧ stored s `prefix_of` stored s' ∧ (poison_text s → poison_text s').
Lemma keeps_refl s : receiving s → keeps s s.
Proof. intros Hs. split; [done|]. by split. Qed.
Lemma keeps_trans s1 s2 s3 : keeps s1 s2 → keeps s2 s3 → keeps s1 s3.
Proof. intros (?&?&?) (?&?&?). split_and!; [done|by etrans|auto]. Qed.

Lemma dedup_lines_keeps p key ls s x s' :
  receiving s → (p = a → key = k) → dedup_append_peer_lines p key ls s = (x, s') →
  keeps s s' ∧ (p = a → ∀ n l, x = Ok n → complete_line l → l ∈ ls → has_line l (stored s')).
Proof.
  intros Hs Hk Hrun. pose proof Hs as ((Hi&Hr&Hid)&_). unfold dedup_append_peer_lines in Hrun.
  unfold mbind at 1, SM_bind at 1, sm_get at 1 in Hrun. rewrite Hid in Hrun.
  case_decide as Hme; [injection Hrun as <- <-; split; [by apply keeps_refl|congruence]|].
  unfold mbind at 1, SM_bind at 1, sm_lift in Hrun. rewrite export_peer_log_spec, Hr in Hrun by done.
  set (ex := default [] (files (fs s) !! ops_file r p)) in Hrun.
  pose proof (append_unseen_extends (split_log_lines_bytes ex) ex 0 ls) as Hext.
  destruct (append_unseen_count (split_log_lines_bytes ex) ex 0 ls) as [_ Hcnt].
  assert (∀ l, complete_line l → l ∈ ls → has_line l (append_unseen (split_log_lines_bytes ex) ex 0 ls).1) as Hhas.
  { intros l Hl Hin. apply append_unseen_has; [done|done|by right]. }
  destruct (append_unseen (split_log_lines_bytes ex) ex 0 ls) as [whole added]. cbn [fst snd] in *.
  case_decide as Ha.
  { injection Hrun as <- <-. split; [by apply keeps_refl|]. intros -> n l _ Hl Hin. rewrite (Hcnt Ha) in Hhas. by apply Hhas. }
  set (b := if ends_with whole [NL] then whole else whole ++ [NL]) in *. unfold mbind at 1, SM_bind at 1 in Hrun.
  destruct (import_peer p key b s) as [y s1] eqn:E1.
  apply import_receiving in E1 as (Hs1&Hpre&Hst&Hpo); [|done|].
  2:{ intros ->. split; [by apply Hk|]. split; [by apply newline_extends|apply closed_starts]. }
  destruct y as [[]|e]; injection Hrun as <- <-; (split; [split; [done|by split]|]); [|done].
  intros -> n l _ Hl Hin. rewrite (Hst eq_refl eq_refl). eapply has_line_extend; [done|by apply Hhas|].
  by apply newline_extends.
Qed.

(** A backend that always writes the author's log. *)
Hypothesis Hwrite : ∀ b f, fs_inv f → (fs_write (ops_file r a) b f : result io_error unit * Fs).1 = Ok tt.
(** The roster lists the author as an active writer. *)
Hypothesis Hauthor : ∃ rec, head (filter (λ p, peer_id p = a) ps) = Some rec ∧ status rec = Active ∧ role rec ≠ Reader.

Lemma dedup_line_keeps p key l s x s' :
  receiving s → (p = a → key = k) → dedup_append_peer_line p key l s = (x, s') →
  keeps s s' ∧ (p = a → genuine l → has_line l (stored s')).
Proof.
  intros Hs Hk Hrun. pose proof Hs as ((Hi&Hr&Hid)&Hps&Hlog). unfold dedup_append_peer_line in Hrun.
  unfold mbind at 1, SM_bind at 1, sm_get at 1 in Hrun. rewrite Hid in Hrun.
  case_decide as Hme; [injection Hrun as <- <-; split; [by apply keeps_refl|congruence]|].
  unfold mbind at 1, SM_bind at 1, sm_lift in Hrun. rewrite export_peer_log_spec, Hr in Hrun by done.
  set (ex := default [] (files (fs s) !! ops_file r p)) in Hrun.
  case_decide as Hin; [injection Hrun as <- <-; split; [by apply keeps_refl|by intros ->]|].
  set (w := (if bool_decide (ex ≠ []) && negb (ends_with ex [NL]) then ex ++ [NL] else ex) ++ l) in *.
  set (b := if ends_with w [NL] then w else w ++ [NL]) in *. cbv zeta in Hrun.
  assert (ex `prefix_of` w) as Hew by (unfold w; destruct (_ && _); rewrite <-?(assoc_L (++)); by eexists).
  pose proof Hrun as E1.
  apply import_receiving in E1 as (Hs1&Hpre&Hst&Hpo); [|done|].
  2:{ intros ->. split; [by apply Hk|]. split; [by apply newline_extends|apply closed_starts]. }
  split; [split; [done|by split]|]. intros -> Hg. pose proof (genuine_complete l Hg) as Hl.
  change ex with (stored s) in *. assert (b = stored s ++ l) as Eb.
  { unfold b, w. rewrite starts_mid_same by apply Hlog. by rewrite (ends_nl_app _ l Hl). }
  assert (stored s' = b) as ->.
  { pose proof (import_peer_stores a key b s Hi) as Hst'. rewrite Hr, Hrun in Hst'. cbn [snd] in Hst'.
    unfold stored. rewrite Hst'; [done|apply Hpaths, ops_under| |].
    - rewrite (Hk eq_refl). destruct (sound_snoc _ _ Hlog Hg) as [_ (es&Hes&Hpr)]. rewrite <-Eb in Hes.
      split; [congruence|]. split; [unfold find_peer; by rewrite Hps|]. rewrite Hr, Hid. split; [|by exists es].
      fold (stored s). rewrite Eb, length_app. lia.
    - intros f' Hf' _. by apply Hwrite. }
  rewrite Eb. pose proof (has_line_at (stored s) l [] (proj1 Hlog) Hl) as Hat. by rewrite app_nil_r in Hat.
Qed.

(** ** The authors in turn *)
Context {Bk : Type} `{Backend Bk}.
Abbreviation P := (Pass (Fs := Fs) (Doc := Doc) (Ver := Ver) (Bk := Bk)).
Abbreviation store p := (ps_store p).

Lemma single_lines_keep p key ls (q : P) :
  receiving (store q) → (p = a → key = k) →
  ∃ q', sm_iter (λ line, _ ← in_store (attempt (dedup_append_peer_line p key line)); mret tt) ls q = (Ok tt, q') ∧
    keeps (store q) (store q') ∧ (p = a → ∀ l, l ∈ ls → genuine l → has_line l (stored (store q'))).
Proof.
  intros Hq Hk. revert q Hq. induction ls as [|x ls IH]; intros q Hq.
  { exists q. split; [done|]. split; [by apply keeps_refl|set_solver]. }
  cbn [sm_iter]. unfold mbind at 1, SM_bind at 1. unfold mbind at 1, SM_bind at 1, in_store, attempt.
  destruct (dedup_append_peer_line p key x (store q)) as [y s1] eqn:E1.
  apply dedup_line_keeps in E1 as [Hk1 Hg1]; [|done|done]. simpl.
  destruct (IH (mkPass s1 (ps_backend q) (undecryptable q)) (proj1 Hk1)) as (q'&E&Hk2&Hg2).
  exists q'. split; [done|]. split; [by eapply keeps_trans|]. intros Hp l [->|Hl]%elem_of_cons Hg; [|by apply Hg2].
  eapply has_line_extend; [by apply genuine_complete|by apply Hg1|apply Hk2].
Qed.
Lemma import_author_keeps keys x (q : P) :
  receiving (store q) → keys !! a = Some k →
  ∃ q', import_author keys x q = (Ok tt, q') ∧ keeps (store q) (store q') ∧
    (x.1 = a → ∀ l, l ∈ x.2 → genuine l → has_line l (stored (store q'))).
Proof.
  intros Hq Hkeys. destruct x as [p ls]. unfold import_author. cbn [fst snd]. destruct (keys !! p) as [key|] eqn:Ep.
  2:{ exists q. split; [done|]. split; [by apply keeps_refl|]. intros ->. congruence. }
  assert (p = a → key = k) as Hk by (intros ->; congruence).
  unfold mbind at 1, SM_bind at 1. unfold in_store at 1, attempt at 1.
  destruct (dedup_append_peer_lines p key ls (store q)) as [y s1] eqn:E1.
  apply dedup_lines_keeps in E1 as [Hk1 Hg1]; [|done|done]. simpl. destruct y as [n|e].
  - eexists. split; [done|]. split; [done|]. intros Hp l Hl Hg. eapply Hg1; [done..| |done]. by apply genuine_complete.
  - destruct (single_lines_keep p key ls (mkPass s1 (ps_backend q) (undecryptable q)) (proj1 Hk1) Hk) as (q'&E&Hk2&Hg2).
    exists q'. split; [done|]. split; [by eapply keeps_trans|done].
Qed.
Lemma import_authors_keep keys xs (q : P) :
  receiving (store q) → keys !! a = Some k →
  ∃ q', sm_iter (import_author keys) xs q = (Ok tt, q') ∧ keeps (store q) (store q') ∧
    (∀ ls l, (a, ls) ∈ xs → l ∈ ls → genuine l → has_line l (stored (store q'))).
Proof.
  intros Hq Hkeys. revert q Hq. induction xs as [|x xs IH]; intros q Hq.
  { exists q. split; [done|]. split; [by apply keeps_refl|set_solver]. }
  cbn [sm_iter]. unfold mbind at 1, SM_bind at 1. destruct (import_author_keeps keys x q Hq Hkeys) as (q1&E1&Hk1&Hg1).
  rewrite E1. destruct (IH q1 (proj1 Hk1)) as (q'&E&Hk2&Hg2). exists q'. split; [done|].
  split; [by eapply keeps_trans|]. intros ls l [<-|Hin]%elem_of_cons Hl Hg; [|by eapply Hg2].
  eapply has_line_extend; [by apply genuine_complete|by apply Hg1|apply Hk2].
Qed.

(** ** Refusing a relabelled object *)
Hypothesis Hpoison : ∀ b f, fs_inv f → (fs_append (poisoned_path r) b f : result io_error unit * Fs).1 = Ok tt.
Lemma poison_keeps id s :
  receiving s → poison_text s → forallb is_scalar id = true →
  ∃ s', mark_poisoned id s = (Ok tt, s') ∧ keeps s s'.
Proof.
  intros Hs (t&Ht&Hsc) Hid. pose proof Hs as ((Hi&Hr&Hme)&Hps&Hlog). unfold mark_poisoned.
  unfold mbind at 1, SM_bind at 1, sm_get at 1.
  assert (∃ bad, poisoned_ids s = Ok bad) as [bad Hbad].
  { unfold poisoned_ids, fs_read_to_string. rewrite fs_read_spec, Hr by done.
    destruct (files (fs s) !! poisoned_path r) as [b|]; [|by eexists]. simpl in Ht. subst b. simpl.
    rewrite from_utf8_utf8 by done. simpl. by eexists. }
  unfold mbind at 1, SM_bind at 1, sm_lift. rewrite Hbad. case_decide; [exists s; split; [done|by apply keeps_refl]|].
  rewrite Hr. pose proof (Hpoison (utf8 (id ++ [LF])) (fs s) Hi) as Hok.
  pose proof (fs_append_spec (poisoned_path r) (utf8 (id ++ [LF])) (fs s) Hi) as Ha.
  unfold on_fs, io, sm_map_err. destruct (fs_append _ _ (fs s)) as [y f]. simpl in *. subst y.
  destruct Ha as [Hif Hf]; [apply Hpaths, top_under|]. simpl in Hf. eexists. split; [done|].
  assert (ops_file r a ≠ poisoned_path r) as Hne.
  { destruct (ops_file_in r a) as [n ->]. unfold in_vault, poisoned_path. by intros [=]%app_inv_head. }
  unfold keeps, receiving, vault_at, stored, poison_text. simpl. rewrite Hf, lookup_insert_ne by done.
  split; [by split_and!|]. split; [done|]. intros _. rewrite lookup_insert_eq. exists (t ++ id ++ [LF]).
  rewrite (utf8_app t), Ht. split; [done|]. rewrite !forallb_app, Hsc, Hid. done.
Qed.

(** ** Sorting what was fetched by author *)
Lemma sort_keeps kc key keys fetched acc (q : P) :
  receiving (store q) → poison_text (store q) → keys !! a = Some k →
  (∀ id x, (id, x) ∈ fetched → forallb is_scalar id = true ∧ ∃ o, x = Ok o) →
  ∃ acc' q', sort_entries kc key keys fetched acc q = (Ok acc', q') ∧ keeps (store q) (store q') ∧
    (∀ l, l ∈ default [] (acc !! a) → l ∈ default [] (acc' !! a)) ∧
    (∀ id ct l, (id, Ok (Some ct)) ∈ fetched → open_classified kc ct = Some l → parse_entry_author l = Some a →
       entry_id_content key a l = id → l ∈ default [] (acc' !! a)).
Proof.
  intros Hq Hpt Hkeys. revert acc q Hq Hpt. induction fetched as [|[id x] fetched IH]; intros acc q Hq Hpt Hall.
  { exists acc, q. split; [done|]. split; [by apply keeps_refl|]. split; [done|set_solver]. }
  destruct (Hall id x) as [Hsc [o ->]]; [set_solver|].
  assert (∀ id' x', (id', x') ∈ fetched → forallb is_scalar id' = true ∧ ∃ o, x' = Ok o) as Hall' by set_solver.
  (** Going on from [q1] with [acc1] is enough if the head entry is dealt with. *)
  assert (∀ acc1 (q1 : P), keeps (store q) (store q1) → (∀ l, l ∈ default [] (acc !! a) → l ∈ default [] (acc1 !! a)) →
    (∀ ct l, o = Some ct → open_classified kc ct = Some l → parse_entry_author l = Some a →
       entry_id_content key a l = id → l ∈ default [] (acc1 !! a)) →
    ∃ acc' q', sort_entries kc key keys fetched acc1 q1 = (Ok acc', q') ∧ keeps (store q) (store q') ∧
    (∀ l, l ∈ default [] (acc !! a) → l ∈ default [] (acc' !! a)) ∧
    (∀ id' ct l, (id', Ok (Some ct)) ∈ (id, Ok o) :: fetched → open_classified kc ct = Some l → parse_entry_author l = Some a →
       entry_id_content key a l = id' → l ∈ default [] (acc' !! a))) as Hgo.
  { intros acc1 q1 Hk1 Hm Hh. destruct (IH acc1 q1) as (acc'&q'&E&Hk2&Hm2&Hh2); [apply Hk1|by apply Hk1|done|].
    exists acc', q'. split; [done|]. split; [by eapply keeps_trans|]. split; [auto|].
    intros id' ct l [[= -> Ho]|Hin]%elem_of_cons; [intros ???; apply Hm2; by eapply Hh|by apply Hh2]. }
  cbn [sort_entries]. unfold mbind at 1, SM_bind at 1, sm_lift. destruct o as [ct|]; [|apply Hgo; [by apply keeps_refl|done|done]].
  destruct (open_classified kc ct) as [line|] eqn:Eo.
  2:{ unfold mbind at 1, SM_bind at 1, note_undecryptable. apply Hgo; [by apply keeps_refl|done|]. naive_solver. }
  destruct (parse_entry_author line) as [author|] eqn:Ea; [|apply Hgo; [by apply keeps_refl|done|naive_solver]].
  case_decide as Hid.
  { unfold mbind at 1, SM_bind at 1, in_store.
    destruct (poison_keeps id (store q) Hq Hpt Hsc) as (s'&->&Hk'). apply Hgo; [done|done|]. naive_solver. }
  destruct (keys !! author) as [ky|] eqn:Ek; [|apply Hgo; [by apply keeps_refl|done|naive_solver]].
  apply Hgo; [by apply keeps_refl| |].
  - intros l Hl. destruct (decide (author = a)) as [->|Hn]; [|by rewrite lookup_insert_ne].
    rewrite lookup_insert_eq. simpl. set_solver.
  - intros ct' l [= <-] Hl Hp _. assert (l = line) as -> by congruence. assert (author = a) as -> by congruence.
    rewrite lookup_insert_eq. simpl. set_solver.
Qed.
End receive.

(** ** Both devices and the server *)
Section fetch.
Context `{Ed25519, Crypto, EdX, B64, B64Url, KeyedHash, Negentropy}.
Context {Fs Doc Ver : Type}.
Abbreviation P := (Pass (Fs := Fs) (Doc := Doc) (Ver := Ver) (Bk := MemoryBackend)).
Lemma fetch_spec (bucket : rstring) ids (p : P) :
  ∃ p', fetch_entries bucket ids p = (Ok ((λ id, (id, Ok (in_bucket KEntries bucket (ps_backend p) !! id))) <$> ids), p') ∧
    ps_store p' = ps_store p.
Proof.
  revert p. induction ids as [|id ids IH]; intros p; [by exists p|]. cbn [fetch_entries].
  unfold mbind at 1, SM_bind at 1, in_backend. simpl. unfold mbind at 1, SM_bind at 1.
  destruct (IH (mkPass (ps_store p) (count_get id (ps_backend p)) (undecryptable p))) as (p'&->&Hs).
  exists p'. split; [|done]. done.
Qed.
End fetch.

Section deliver.
Context `{Ed25519, CryptoLaws, EdX, B64, B64UrlLaws, !B64UrlNames, KeyedHashLaws, NegentropyLaws, EntryPeer}.
Context `{JsonLaws EntryLine, JsonOf RosterLine, JsonOf (list PeerRecord), JsonOf KeyLine, JsonOf Marker}.
Context `{JsonOf HeldSnapshot, JsonOf SnapshotManifest, JsonOf TrustBundle}.
Context {Fs Doc Ver : Type} `{VaultFsLaws Fs, DocOps Doc Ver, DocHistory Doc}.
Abbreviation P := (Pass (Fs := Fs) (Doc := Doc) (Ver := Ver) (Bk := MemoryBackend)).
Abbreviation held bucket p := (in_bucket KEntries bucket (ps_backend p)).

Lemma keyed_is_id key b : is_id (keyed key b).
Proof. eexists. split; [apply keyed_hash_len|done]. Qed.
Lemma is_id_scalar x : is_id x → forallb is_scalar x = true.
Proof. intros (b&_&->). apply b64url_scalar. Qed.
Lemma entries_of_ids key (s : Store Fs Doc Ver) ps es id l : entries_of key s ps = Ok es → (id, l) ∈ es → is_id id.
Proof.
  revert es. induction ps as [|p ps IH]; intros es; simpl; [intros [= <-]; set_solver|].
  destruct (if decide (p = id_peer (identity s)) then _ else _) as [log|]; [|done]. simpl.
  destruct (entries_of key s ps) as [rest|]; [|done]. intros [= <-] [Hin|Hin]%elem_of_app; [|by eapply IH].
  apply list_elem_of_fmap in Hin as (x&[= -> ->]&_). apply keyed_is_id.
Qed.
Lemma entries_of_own key (s : Store Fs Doc Ver) ps es log l :
  let me := id_peer (identity s) in
  entries_of key s ps = Ok es → me ∈ ps → export_own_log s = Ok log → has_line l log → (entry_id_content key me l, l) ∈ es.
Proof.
  intros me Hes Hme Hlog Hl. revert es Hes. induction ps as [|p ps IH]; intros es; simpl; [set_solver|].
  destruct (if decide (p = id_peer (identity s)) then _ else _) as [lg|] eqn:Elog; [|done]. simpl.
  destruct (entries_of key s ps) as [rest|]; [|done]. intros [= <-]. apply elem_of_app.
  destruct (decide (p = me)) as [->|Hn].
  - left. rewrite decide_True in Elog by done. assert (lg = log) as -> by congruence. apply list_elem_of_fmap. by exists l.
  - right. apply IH; [set_solver|done].
Qed.
Lemma local_entries_own key (s : Store Fs Doc Ver) es log l :
  local_entries key s = Ok es → export_own_log s = Ok log → has_line l log →
  (entry_id_content key (id_peer (identity s)) l, l) ∈ es.
Proof.
  intros Hes. apply entries_of_own with (ps := held_peers s); [done|]. unfold held_peers. rewrite elem_of_bset. set_solver.
Qed.

(** The two halves of a pass that deal with entries. *)
Definition send_entries (nonces : nat → bytes) (kc : Keychain) (key : bytes) (es : list (rstring * bytes)) : SM P RelayError unit :=
  x ← reconcile_set (bucket_id key) KEntries (list_to_set es.*1);
  upload_entries nonces kc key (bucket_id key) x.1 es.
Definition receive_entries (self : u64) (kc : Keychain) (key : bytes) (es : list (rstring * bytes)) (subsumed poisoned : gset rstring) : SM P RelayError unit :=
  x ← reconcile_set (bucket_id key) KEntries (list_to_set es.*1);
  import_needed_entries self (bucket_id key) (x.2 ∖ subsumed) poisoned kc key.
(** What one device seals, the other opens. *)
Definition shares_head (nonces : nat → bytes) (kc kc' : Keychain) (key : bytes) : Prop :=
  ∀ n l, ∃ ct, seal_under_head (nonces n) kc key l = Some ct ∧ open_classified kc' ct = Some l.
(** It holds after a rotation, if both hold the key of the sender's head epoch. *)
Lemma shares_head_rotated nonces kc kc' key k :
  kc_head kc ≠ EPOCH0_ID → length (kc_head kc) = 32 → epoch_key kc (kc_head kc) = Some k →
  epoch_key kc' (kc_head kc) = Some k → (∀ n, length (nonces n) = 24) → shares_head nonces kc kc' key.
Proof.
  intros Hh Hl Hk Hk' Hn n l. exists (seal_epoch (nonces n) k (kc_head kc) l). split.
  - unfold seal_under_head, head_write_key. rewrite Hk. simpl. by rewrite decide_True.
  - unfold open_classified. destruct (seal_classify_open kc' (kc_head kc) k (nonces n) l) as [-> Ho]; try done.
    simpl in *. by rewrite Ho.
Qed.
(** The server has not replaced what it was given for these entries. *)
Definition kept_faithfully (kc : Keychain) (bucket : rstring) (es : list (rstring * bytes)) (p : P) : Prop :=
  (∀ x, x ∈ dom (held bucket p) → is_id x) ∧
  (∀ id l ct, (id, l) ∈ es → held bucket p !! id = Some ct → open_classified kc ct = Some l).
Definition ids_unique (es : list (rstring * bytes)) : Prop := ∀ id l l', (id, l) ∈ es → (id, l') ∈ es → l = l'.

Lemma send_spec (nonces : nat → bytes) (kc kc' : Keychain) (key : bytes) es (p : P) :
  local_entries key (ps_store p) = Ok es → ids_unique es → shares_head nonces kc kc' key →
  kept_faithfully kc' (bucket_id key) es p → converges (bucket_id key) KEntries (list_to_set es.*1) p →
  ∃ p', send_entries nonces kc key es p = (Ok tt, p') ∧ ps_store p' = ps_store p ∧
    (∀ x, x ∈ dom (held (bucket_id key) p') → is_id x) ∧
    (∀ id l, (id, l) ∈ es → ∃ ct, held (bucket_id key) p' !! id = Some ct ∧ open_classified kc' ct = Some l).
Proof.
  intros Hes Huniq Hsh [Hnames Hkept] Hc. unfold send_entries.
  assert (∀ x, x ∈ (list_to_set es.*1 : gset rstring) → is_id x) as Hids.
  { intros x. rewrite elem_of_list_to_set. intros ([id l]&->&Hin)%list_elem_of_fmap. by eapply entries_of_ids. }
  destruct (reconcile_exact (bucket_id key) KEntries _ p Hids Hnames Hc) as (have&need&E&Hh&_).
  unfold mbind at 1, SM_bind at 1. rewrite E. cbn [fst].
  destruct (upload_spec nonces kc key (bucket_id key) have es p) as (p'&E'&Hst&Hsub&Hget&Hnew).
  { intros n l. destruct (Hsh n l) as (ct&->&_). by eexists. }
  exists p'. split; [done|]. split; [done|]. split.
  - intros x [ct Hx]%elem_of_dom. destruct (Hnew x ct Hx) as [Hold|(l&n&Hin&_)]; [apply Hnames, elem_of_dom; by eexists|].
    apply Hids, elem_of_list_to_set, list_elem_of_fmap. by exists (x, l).
  - intros id l Hin.
    assert (is_Some (held (bucket_id key) p' !! id)) as [ct Hct].
    { destruct (decide (id ∈ dom (held (bucket_id key) p))) as [[ct Hct]%elem_of_dom|Hn].
      - exists ct. by eapply lookup_weaken.
      - eapply Hget; [done|]. apply Hh. split; [|done]. apply elem_of_list_to_set, list_elem_of_fmap. by exists (id, l). }
    exists ct. split; [done|]. destruct (Hnew id ct Hct) as [Hold|(l'&n&Hin'&_&Hseal)]; [by eapply Hkept|].
    rewrite (Huniq id l l' Hin Hin'). destruct (Hsh n l') as (ct'&Hs'&Ho). congruence.
Qed.

(** The backend takes every write of these two files. *)
Definition takes_writes (r : path) (a : u64) : Prop :=
  (∀ b (f : Fs), fs_inv f → (fs_write (ops_file r a) b f).1 = Ok tt) ∧
  (∀ b (f : Fs), fs_inv f → (fs_append (poisoned_path r) b f).1 = Ok tt).
Definition active_writer (ps : list PeerRecord) (a : u64) : Prop :=
  ∃ rec, head (filter (λ p, peer_id p = a) ps) = Some rec ∧ status rec = Active ∧ role rec ≠ Reader.

Lemma receive_spec (r : path) (i : Identity) (ps : list PeerRecord) (a : u64) (k : bytes) (kc : Keychain) (key : bytes) (es : list (rstring * bytes)) (subsumed poisoned : gset rstring) (p : P) :
  (∀ q, r `prefix_of` q → fs_path q) → a ≠ id_peer i → takes_writes r a → active_writer ps a →
  receiving r i ps a k (ps_store p) → poison_text r (ps_store p) → author_keys (id_peer i) (ps_store p) !! a = Some k →
  local_entries key (ps_store p) = Ok es → (∀ x, x ∈ dom (held (bucket_id key) p) → is_id x) →
  converges (bucket_id key) KEntries (list_to_set es.*1) p →
  ∃ p', receive_entries (id_peer i) kc key es subsumed poisoned p = (Ok tt, p') ∧
    stored r a (ps_store p) `prefix_of` stored r a (ps_store p') ∧
    ∀ l ct, let id := entry_id_content key a l in
      held (bucket_id key) p !! id = Some ct → open_classified kc ct = Some l → parse_entry_author l = Some a →
      genuine (Doc := Doc) r i a k l → id ∉ es.*1 → id ∉ subsumed → id ∉ poisoned →
      has_line l (stored r a (ps_store p')).
Proof.
  intros Hpaths Ha [Hw Hpw] Hact Hq Hpt Hk Hes Hnames Hc. unfold receive_entries.
  assert (∀ x, x ∈ (list_to_set es.*1 : gset rstring) → is_id x) as Hids.
  { intros x. rewrite elem_of_list_to_set. intros ([id l]&->&Hin)%list_elem_of_fmap. by eapply entries_of_ids. }
  destruct (reconcile_exact (bucket_id key) KEntries _ p Hids Hnames Hc) as (have&need&E&_&Hn).
  unfold mbind at 1, SM_bind at 1. rewrite E. cbn [snd]. unfold import_needed_entries.
  unfold mbind at 1, SM_bind at 1, sm_get at 1.
  set (ids := bset_to_list str_le ((need ∖ subsumed) ∖ poisoned)).
  destruct (fetch_spec (bucket_id key) ids p) as (p1&E1&Hs1). unfold mbind at 1, SM_bind at 1. rewrite E1.
  rewrite <-Hs1 in Hq, Hpt.
  destruct (sort_keeps r i ps a k Hpaths Ha Hw Hact Hpw kc key (author_keys (id_peer i) (ps_store p))
              ((λ id, (id, Ok (held (bucket_id key) p !! id))) <$> ids) ∅ p1 Hq Hpt Hk) as (acc&p2&E2&Hk2&_&Hh2).
  { intros id x (id'&[= -> ->]&Hin)%list_elem_of_fmap. unfold ids in Hin. rewrite elem_of_bset in Hin.
    split; [|by eexists]. apply is_id_scalar, Hnames. apply Hn. set_solver. }
  unfold mbind at 1, SM_bind at 1. rewrite E2.
  destruct (import_authors_keep r i ps a k Hpaths Ha Hw Hact (author_keys (id_peer i) (ps_store p))
              (btree_to_list N.le acc) p2 (proj1 Hk2) Hk) as (p3&E3&Hk3&Hh3).
  exists p3. split; [done|]. split.
  { rewrite <-Hs1. etrans; [apply Hk2|apply Hk3]. }
  intros l ct Hct Ho Hp Hg Hl Hsub Hpoi. set (id := entry_id_content key a l) in *.
  assert (l ∈ default [] (acc !! a)) as Hin.
  { apply (Hh2 id ct l); [|done..]. apply list_elem_of_fmap. exists id. rewrite Hct. split; [done|].
    unfold ids. rewrite elem_of_bset, !elem_of_difference, Hn, elem_of_dom, elem_of_list_to_set. split_and!; [|done..]. by eexists. }
  destruct (acc !! a) as [ls|] eqn:Eacc; [|set_solver]. eapply Hh3; [|exact Hin|done]. by apply elem_of_btree.
Qed.

(** C13: A line that one device writes reaches another through the server.  The two reconcile sessions end within
    the cap of 32 rounds; the sender's entry ids name one line each; the server's ids are well
    formed, and where it already holds an entry of the sender's it still opens to that line; what the
    sender seals the receiver can open; the receiver's storage takes its writes, its copy of the log
    verifies and its list of refused ids is text; the sender is an active writer with a known key in its roster.  Then upload and fetch both
    succeed, what the receiver stored of the sender's log stays in place, and every genuine line of the
    sender's log that the receiver had not got, nor replaced by a snapshot, nor refused before, is a
    line of what it stores.  Under the other ids the server may hold anything, lines
    that do not open or verify included. *)
Theorem relay_delivers (nonces : nat → bytes) (kcA kcB : Keychain) (key k log l : bytes) (pA pB : P) (r : path) (i : Identity)
    (ps : list PeerRecord) (esA esB : list (rstring * bytes)) (subsumed poisoned : gset rstring) :
  let a := id_peer (identity (ps_store pA)) in
  let id := entry_id_content key a l in
  let up := send_entries nonces kcA key esA pA in
  let down := receive_entries (id_peer i) kcB key esB subsumed poisoned pB in
  (** the sender *)
  local_entries key (ps_store pA) = Ok esA → ids_unique esA → export_own_log (ps_store pA) = Ok log → has_line l log →
  (** the server *)
  kept_faithfully kcB (bucket_id key) esA pA → shares_head nonces kcA kcB key →
  converges (bucket_id key) KEntries (list_to_set esA.*1) pA → ps_backend pB = ps_backend up.2 →
  converges (bucket_id key) KEntries (list_to_set esB.*1) pB →
  (** the receiver *)
  (∀ q, r `prefix_of` q → fs_path q) → a ≠ id_peer i → takes_writes r a → active_writer ps a →
  receiving r i ps a k (ps_store pB) → poison_text r (ps_store pB) →
  author_keys (id_peer i) (ps_store pB) !! a = Some k → local_entries key (ps_store pB) = Ok esB →
  parse_entry_author l = Some a → genuine (Doc := Doc) r i a k l →
  id ∉ esB.*1 → id ∉ subsumed → id ∉ poisoned →
  up.1 = Ok tt ∧ down.1 = Ok tt ∧ stored r a (ps_store pB) `prefix_of` stored r a (ps_store down.2) ∧
  has_line l (stored r a (ps_store down.2)).
Proof.
  intros a id up down HesA Huniq Hlog Hl Hkept Hsh HcA Hbk HcB Hpaths Ha Hw Hact Hrec Hpt Hk HesB Hp Hg H1' H2' H3'.
  destruct (send_spec nonces kcA kcB key esA pA HesA Huniq Hsh Hkept HcA) as (pA'&EA&_&Hnames&Hheld).
  unfold up in *. rewrite EA in *. cbn [fst snd] in *. rewrite <-Hbk in Hnames, Hheld.
  destruct (receive_spec r i ps a k kcB key esB subsumed poisoned pB Hpaths Ha Hw Hact Hrec Hpt Hk HesB Hnames HcB)
    as (pB'&EB&Hpre&Hall). unfold down. rewrite EB. cbn [fst snd]. split; [done|]. split; [done|]. split; [done|].
  destruct (Hheld id l) as (ct&Hct&Ho); [by eapply local_entries_own|]. by eapply Hall.
Qed.
End deliver.
