(* ===== verification/Paper.v ===== *)
(** * The printed recovery phrase, vault ids (paper.rs, ids.rs)

    A paper key is derived from a phrase that the program mints: 20 random bytes
    written as 32 symbols of Crockford's alphabet in eight groups of four.  The phrase is
    the only copy of the secret, so it has to carry every bit of it.  Argon2id is the parameter
    [argon2]; a vault id derived from a key is a keyed hash. *)
From S2P Require Import Prelude RustStr Vfs Roster Wire Logs Keychain Trust Store StoreKeys Snapshots Relay.
From Stdlib Require Import Strings.Byte.

(** ** Encoding *)
Definition CROCKFORD : rstring := str "0123456789ABCDEFGHJKMNPQRSTVWXYZ".
Definition HYPHEN : rchar := 45.
Definition u32_shl8 (acc : N) : N := (N.shiftl acc 8) mod 2 ^ 32.
Definition symbol (d : N) : rchar := default 0%N (CROCKFORD !! N.to_nat d).
(** [while bits >= 5]; it runs at most [bits] times. *)
Fixpoint emit_symbols (fuel : nat) (acc bits : N) (symbols : rstring) : N * rstring :=
  match fuel with
  | O => (bits, symbols)
  | S fuel =>
      if (5 <=? bits)%N then
        let bits := (bits - 5)%N in
        emit_symbols fuel acc bits (symbols ++ [symbol (N.land (N.shiftr acc bits) 31)])
      else (bits, symbols)
  end.
Fixpoint encode_symbols (entropy : bytes) (acc bits : N) (symbols : rstring) : rstring :=
  match entropy with
  | [] => symbols
  | byte :: entropy =>
      let acc := N.lor (u32_shl8 acc) (Byte.to_N byte) in
      let bits := (bits + 8)%N in
      let '(bits, symbols) := emit_symbols (N.to_nat bits) acc bits symbols in
      encode_symbols entropy acc bits symbols
  end.
(** [symbols.chunks(4)], with a hyphen before all but the first. *)
Fixpoint group4 (fuel : nat) (symbols : rstring) : list rstring :=
  match fuel with
  | O => []
  | S fuel => if decide (symbols = []) then [] else take 4 symbols :: group4 fuel (drop 4 symbols)
  end.
Definition encode_phrase (entropy : bytes) : rstring :=
  let symbols := encode_symbols entropy 0 0 [] in join_on HYPHEN (group4 (length symbols) symbols).

(** ** Keys and ids *)
Record PaperKey := mkPaperKey { pk_secret : bytes }.
Definition PAPER_SALT : bytes := utf8 (str "roam-paper-recovery-v1--").
Section keys.
Context `{Crypto, KeyedHash}.
(** Argon2id with the program's parameters: password, salt. *)
Variable argon2 : bytes → bytes → bytes.
Definition from_passphrase (passphrase : rstring) : PaperKey := mkPaperKey (argon2 (utf8 passphrase) PAPER_SALT).
Definition paper_generate (entropy : bytes) : PaperKey * rstring :=
  let phrase := encode_phrase entropy in (from_passphrase phrase, phrase).
Definition paper_public (k : PaperKey) : bytes := x_public (pk_secret k).
Definition VaultId_generate (random : bytes) : bytes := random.
Definition VaultId_derive (vault_key : bytes) : bytes := keyed_hash (vault_subkeys vault_key).1 (utf8 (str "roam-vault-id")).
End keys.

(** ** The phrase carries the bits *)
(** A phrase read back: hyphens dropped, each symbol its place in the alphabet. *)
Fixpoint place (c : rchar) (l : rstring) : N := match l with [] => 0 | x :: l => if decide (x = c) then 0 else 1 + place c l end.
Definition digits_of (p : rstring) : list N := (λ c, place c CROCKFORD) <$> filter (.≠ HYPHEN) p.
Definition value_in (base : N) (ds : list N) : N := foldl (λ v d, base * v + d)%N 0%N ds.
Definition bits_of (b : bytes) : N := value_in 256 (Byte.to_N <$> b).
Definition phrase_value (p : rstring) : N := value_in 32 (digits_of p).

Lemma symbol_place d : (d < 32)%N → place (symbol d) CROCKFORD = d ∧ symbol d ∈ CROCKFORD ∧ symbol d ≠ HYPHEN.
Proof.
  intros Hd. assert (Forall (λ n, place (symbol (N.of_nat n)) CROCKFORD = N.of_nat n ∧ symbol (N.of_nat n) ∈ CROCKFORD ∧
    symbol (N.of_nat n) ≠ HYPHEN) (List.seq 0 32)) as Hall by (apply (bool_decide_unpack _); vm_compute; exact I).
  rewrite Forall_forall in Hall. specialize (Hall (N.to_nat d)). rewrite N2Nat.id in Hall. apply Hall, elem_of_seq. lia.
Qed.
Lemma value_snoc base ds d : value_in base (ds ++ [d]) = (base * value_in base ds + d)%N.
Proof. unfold value_in. by rewrite foldl_app. Qed.
Lemma land31 x : N.land x 31 = (x mod 32)%N.
Proof. change 31%N with (N.ones 5). by rewrite N.land_ones. Qed.
(** The symbols so far and the bits that wait are the bytes so far. *)
Definition carries (ds : list N) (acc bits total : N) : Prop := (value_in 32 ds * 2 ^ bits + acc mod 2 ^ bits = total)%N.
Lemma carries_emit ds acc bits total :
  carries ds acc (bits + 5) total → carries (ds ++ [N.land (N.shiftr acc bits) 31]) acc bits total.
Proof.
  unfold carries. intros <-. rewrite value_snoc, land31, N.shiftr_div_pow2, N.pow_add_r.
  rewrite N.Div0.mod_mul_r. change (2 ^ 5)%N with 32%N. lia.
Qed.
Lemma lor_byte x b : (x mod 256 = 0)%N → (b < 256)%N → N.lor x b = (x + b)%N.
Proof.
  intros Hx Hb. assert (N.land x b = 0%N) as Hl; [|by rewrite N.add_nocarry_lxor, N.lxor_lor].
  replace b with (N.land b (N.ones 8)) by (rewrite N.land_ones; by apply N.mod_small).
  rewrite (N.land_comm b), N.land_assoc, N.land_ones. change (2 ^ 8)%N with 256%N. by rewrite Hx.
Qed.
Lemma carries_byte ds acc bits total b :
  (bits ≤ 4)%N → (b < 256)%N → carries ds acc bits total → carries ds (N.lor (u32_shl8 acc) b) (bits + 8) (256 * total + b).
Proof.
  unfold carries, u32_shl8. intros Hb Hl <-. rewrite N.shiftl_mul_pow2. change (2 ^ 8)%N with 256%N. change (2 ^ 32)%N with 4294967296%N.
  rewrite lor_byte by (done || lia).
  assert (bits = 0 ∨ bits = 1 ∨ bits = 2 ∨ bits = 3 ∨ bits = 4)%N as [->|[->|[->|[->| ->]]]] by lia;
    cbn [N.pow N.add Pos.pow Pos.iter Pos.add Pos.mul]; lia.
Qed.
Lemma emit_spec fuel acc bits ds total :
  Forall (λ d, (d < 32)%N) ds → carries ds acc bits total → (bits ≤ 5 * N.of_nat fuel + 4)%N →
  ∃ bits' ds', emit_symbols fuel acc bits (symbol <$> ds) = (bits', symbol <$> ds') ∧ Forall (λ d, (d < 32)%N) ds' ∧
    carries ds' acc bits' total ∧ (bits' ≤ 4)%N ∧ (5 * N.of_nat (length ds') + bits' = 5 * N.of_nat (length ds) + bits)%N.
Proof.
  revert bits ds. induction fuel as [|fuel IH]; intros bits ds Hds Hc Hf; cbn [emit_symbols].
  { exists bits, ds. split_and!; [done..|lia|done]. }
  destruct (5 <=? bits)%N eqn:Hb; [|exists bits, ds; split_and!; [done..|lia|done]].
  set (d := N.land (N.shiftr acc (bits - 5)) 31). change [symbol d] with (symbol <$> [d]). rewrite <-fmap_app.
  destruct (IH (bits - 5)%N (ds ++ [d])) as (bits'&ds'&E&Hds'&Hc'&Hb'&Hlen).
  - apply Forall_app. split; [done|]. apply Forall_singleton. unfold d. rewrite land31. by apply N.mod_lt.
  - apply carries_emit. by replace (bits - 5 + 5)%N with bits by lia.
  - lia.
  - exists bits', ds'. split_and!; [done..|]. rewrite length_app in Hlen. simpl in Hlen. lia.
Qed.
Lemma to_N_small (b : byte) : (Byte.to_N b < 256)%N.
Proof. pose proof (to_N_bound b). lia. Qed.
Lemma encode_spec entropy acc bits ds total :
  Forall (λ d, (d < 32)%N) ds → carries ds acc bits total → (bits ≤ 4)%N →
  ∃ ds' acc' bits', encode_symbols entropy acc bits (symbol <$> ds) = symbol <$> ds' ∧ Forall (λ d, (d < 32)%N) ds' ∧
    carries ds' acc' bits' (foldl (λ v d, 256 * v + d)%N total (Byte.to_N <$> entropy)) ∧ (bits' ≤ 4)%N ∧
    (5 * N.of_nat (length ds') + bits' = 5 * N.of_nat (length ds) + bits + 8 * N.of_nat (length entropy))%N.
Proof.
  revert acc bits ds total. induction entropy as [|b entropy IH]; intros acc bits ds total Hds Hc Hb; cbn [encode_symbols].
  { exists ds, acc, bits. split_and!; [done..|simpl; lia]. }
  set (acc1 := N.lor (u32_shl8 acc) (Byte.to_N b)).
  destruct (emit_spec (N.to_nat (bits + 8)) acc1 (bits + 8) ds (256 * total + Byte.to_N b)) as (bits1&ds1&E&Hds1&Hc1&Hb1&Hl1);
    [done|by apply carries_byte; [|apply to_N_small|]|lia|].
  rewrite E. destruct (IH acc1 bits1 ds1 _ Hds1 Hc1 Hb1) as (ds2&acc2&bits2&E2&Hds2&Hc2&Hb2&Hl2).
  exists ds2, acc2, bits2. split_and!; [done..|]. simpl length. lia.
Qed.
Lemma group4_spec n fuel s :
  length s = 4 * n → n ≤ fuel → length (group4 fuel s) = n ∧ Forall (λ g, length g = 4) (group4 fuel s) ∧ concat (group4 fuel s) = s.
Proof.
  revert fuel s. induction n as [|n IH]; intros fuel s Hs Hf.
  { destruct s; [|done]. by destruct fuel. }
  destruct fuel as [|fuel]; [lia|]. cbn [group4]. rewrite decide_False by (by intros ->).
  destruct (IH fuel (drop 4 s)) as (Hl&Hg&Hc); [rewrite length_drop; lia|lia|]. split_and!; [by rewrite <-Hl| |].
  - constructor; [rewrite length_take; lia|done].
  - cbn [concat]. by rewrite Hc, take_drop.
Qed.
Lemma filter_join gs : filter (.≠ HYPHEN) (join_on HYPHEN gs) = filter (.≠ HYPHEN) (concat gs).
Proof.
  induction gs as [|g gs IH]; [done|]. destruct gs as [|g' gs]; [simpl; by rewrite app_nil_r|].
  change (join_on HYPHEN (g :: g' :: gs)) with (g ++ HYPHEN :: join_on HYPHEN (g' :: gs)).
  change (concat (g :: g' :: gs)) with (g ++ concat (g' :: gs)). rewrite !filter_app, <-IH, filter_cons_False; [done|]. by intros Hne.
Qed.
Lemma filter_symbols ds : Forall (λ d, (d < 32)%N) ds → filter (.≠ HYPHEN) (symbol <$> ds) = symbol <$> ds.
Proof. induction 1 as [|d ds Hd _ IH]; [done|]. cbn [fmap list_fmap]. rewrite filter_cons_True by (by apply symbol_place). by rewrite IH. Qed.
Lemma places_symbols ds : Forall (λ d, (d < 32)%N) ds → (λ c, place c CROCKFORD) <$> (symbol <$> ds) = ds.
Proof. induction 1 as [|d ds Hd _ IH]; [done|]. cbn [fmap list_fmap]. rewrite IH. f_equal. by apply symbol_place. Qed.
Lemma bits_of_inj b b' : length b = length b' → bits_of b = bits_of b' → b = b'.
Proof.
  revert b'. induction b as [|x b IH] using rev_ind; intros b' Hl; [by destruct b'|].
  destruct b' as [|x' b' _] using rev_ind; [rewrite length_app in Hl; simpl in Hl; lia|]. rewrite !length_app in Hl. simpl in Hl.
  unfold bits_of. rewrite !fmap_app. cbn [fmap list_fmap]. rewrite !value_snoc. pose proof (to_N_small x). pose proof (to_N_small x').
  intros E. assert (Byte.to_N x = Byte.to_N x') as Ex by lia. f_equal; [apply IH; [lia|]; unfold bits_of; lia|].
  f_equal. apply (f_equal Byte.of_N) in Ex. rewrite !Byte.of_to_N in Ex. by injection Ex.
Qed.
(** C38: A recovery phrase has the printed form and carries every bit: 20 random bytes become eight groups of four
    symbols of the alphabet, with hyphens between them, and the phrase read back as a number in
    base 32 is the bytes as a number in base 256; so two different draws never share a phrase. *)
Theorem phrase_carries_entropy entropy :
  length entropy = 20 →
  (∃ groups, encode_phrase entropy = join_on HYPHEN groups ∧ length groups = 8 ∧
    Forall (λ g, length g = 4 ∧ Forall (.∈ CROCKFORD) g) groups) ∧
  phrase_value (encode_phrase entropy) = bits_of entropy ∧
  ∀ entropy', length entropy' = 20 → encode_phrase entropy' = encode_phrase entropy → entropy' = entropy.
Proof.
  assert (∀ b, length b = 20 → ∃ ds, encode_symbols b 0 0 [] = symbol <$> ds ∧ Forall (λ d, (d < 32)%N) ds ∧ length ds = 32 ∧
    value_in 32 ds = bits_of b) as Henc.
  { intros b Hb. destruct (encode_spec b 0 0 [] 0) as (ds&acc&bits&E&Hds&Hc&Hbits&Hl); [constructor|done|done|].
    simpl in Hl. rewrite Hb in Hl. assert (bits = 0%N) as -> by lia. exists ds. split_and!; [done..|lia|].
    unfold carries in Hc. rewrite N.mod_1_r in Hc. change (2 ^ 0)%N with 1%N in Hc. rewrite N.mul_1_r, N.add_0_r in Hc. exact Hc. }
  assert (∀ b, length b = 20 → phrase_value (encode_phrase b) = bits_of b) as Hval.
  { intros b Hb. destruct (Henc b Hb) as (ds&E&Hds&Hl&Hv). unfold phrase_value, digits_of, encode_phrase. rewrite E, filter_join.
    destruct (group4_spec 8 (length (symbol <$> ds)) (symbol <$> ds)) as (_&_&->); [by rewrite length_fmap, Hl|rewrite length_fmap; lia|].
    by rewrite filter_symbols, places_symbols. }
  intros Hl. split_and!; [|by apply Hval|].
  - destruct (Henc entropy Hl) as (ds&E&Hds&Hn&_). unfold encode_phrase. rewrite E. eexists. split; [done|].
    destruct (group4_spec 8 (length (symbol <$> ds)) (symbol <$> ds)) as (H1&H2&H3); [by rewrite length_fmap, Hn|rewrite length_fmap; lia|].
    split; [done|]. apply Forall_and. split; [done|].
    assert (Forall (.∈ CROCKFORD) (concat (group4 (length (symbol <$> ds)) (symbol <$> ds)))) as Hall.
    { rewrite H3. apply Forall_fmap. eapply Forall_impl; [exact Hds|]. intros d Hd. by apply symbol_place. }
    by apply Forall_concat.
  - intros entropy' Hl' E. apply bits_of_inj; [by rewrite Hl, Hl'|]. by rewrite <-!Hval, E.
Qed.
Lemma phrase_carries_entropy_witness :
  encode_phrase (replicate 19 Byte.x00 ++ [Byte.xff]) = str "0000-0000-0000-0000-0000-0000-0000-007Z" ∧
  phrase_value (encode_phrase (replicate 19 Byte.x00 ++ [Byte.xff])) = 255%N.
Proof.
  split; [vm_compute; reflexivity|]. destruct (phrase_carries_entropy (replicate 19 Byte.x00 ++ [Byte.xff]) eq_refl) as (_&E&_).
  rewrite E. vm_compute. reflexivity.
Defined.
