(* ===== verification/Pairing.v ===== *)
(** * Pairing

    Letting a device into a vault (src/crates/roam-pake and src/crates/roam-pairing): the
    six-digit code, the password-authenticated exchange with its budget of guesses, the
    sealed channel, the mailbox of write-once slots, what a host hands over and how a
    joiner applies it, and the two sides of the handshake through a mailbox. *)
From stdpp Require Import pretty.
From S2P Require Import Prelude RustStr Vfs Roster Wire Logs Keychain Blob Trust Store StoreRoster StoreSync.
From S2P Require Import StoreKeys Checkpoint Paths Snapshots Relay.

(** ** The code (code.rs) *)
Definition CODE_DIGITS : nat := 6.
Definition CODE_SPACE : N := 1000000.
Inductive CodeError := WrongLength | NotAllDigits.
Abbreviation PairingCode := rstring.

(** [format!("{:06}", n)] *)
Definition pad_digits (n : N) : PairingCode :=
  let s := str (pretty n) in replicate (CODE_DIGITS - length s) 48%N ++ s.
Definition CODE_LIMIT : N := ((2 ^ 32 - 1) / CODE_SPACE) * CODE_SPACE.
(** The draws of the random generator are an argument; [None] if all were rejected. *)
Fixpoint code_generate (draws : list N) : option PairingCode :=
  match draws with
  | [] => None
  | candidate :: draws =>
      if (candidate <? CODE_LIMIT)%N then Some (pad_digits (candidate mod CODE_SPACE)) else code_generate draws
  end.
Definition is_ascii_digit (c : rchar) : bool := ((48 <=? c) && (c <=? 57))%N.
Definition code_parse (raw : rstring) : result CodeError PairingCode :=
  let trimmed := trim raw in
  if decide (length trimmed ≠ CODE_DIGITS) then Err WrongLength
  else if negb (forallb is_ascii_digit trimmed) then Err NotAllDigits
  else Ok trimmed.

(** ** The exchange (roam-pake lib.rs) *)
Definition MAX_ATTEMPTS : nat := 3.
Definition CONFIRM_CONTEXT : rstring := str "roam.pake.v1 key confirmation".
Definition SEAL_I2R_CONTEXT : rstring := str "roam.pake.v1 payload seal initiator-to-responder".
Definition SEAL_R2I_CONTEXT : rstring := str "roam.pake.v1 payload seal responder-to-initiator".
Inductive PakeError := BadCode | MalformedMessage | NoAttemptsLeft | UndecryptablePayload.
#[global] Instance PakeError_eq_dec : EqDecision PakeError.
Proof. solve_decision. Defined.

(** The SPAKE2 package: each side starts with its randomness, the password and the two
    identities, and finishes with the other's message. *)
Class Spake2 := {
  spake_state : Type;
  spake_start_a : bytes → bytes → bytes → bytes → spake_state * bytes;
  spake_start_b : bytes → bytes → bytes → bytes → spake_state * bytes;
  spake_finish : spake_state → bytes → option bytes;
}.
Class Spake2Laws `{Spake2} := {
  spake_agree ra rb pw ida idb : ∃ k,
    spake_finish (spake_start_a ra pw ida idb).1 (spake_start_b rb pw ida idb).2 = Some k ∧
    spake_finish (spake_start_b rb pw ida idb).1 (spake_start_a ra pw ida idb).2 = Some k;
}.
(** ChaCha20-Poly1305. *)
Class ChaCha := {
  chacha_seal : bytes → bytes → bytes → bytes;
  chacha_open : bytes → bytes → bytes → option bytes;
}.
Class ChaChaLaws `{ChaCha} := {
  chacha_open_seal k n p : chacha_open k n (chacha_seal k n p) = Some p;
  (** Nothing that was sealed under another nonce opens. *)
  chacha_bound k n n' p : length n = 12 → length n' = 12 → n ≠ n' → chacha_open k n' (chacha_seal k n p) = None;
}.

Record SessionKey := mkSessionKey { initiator_to_responder : bytes; responder_to_initiator : bytes }.
Inductive Side := SInitiator | SResponder.
Record Channel := mkChannel { ch_key : bytes; ch_counter : u64 }.
Definition key_split (k : SessionKey) (side : Side) : Channel * Channel :=
  let '(send, receive) := match side with
    | SInitiator => (initiator_to_responder k, responder_to_initiator k)
    | SResponder => (responder_to_initiator k, initiator_to_responder k) end in
  (mkChannel send 0, mkChannel receive 0).
Definition nonce_for (counter : u64) : bytes := le_bytes 8 counter ++ replicate 4 Byte.x00.
(** [checked_add(1).expect(..)]: [None] is the panic. *)
Definition next_counter (c : u64) : option u64 := if decide (is_u64 (c + 1)) then Some (c + 1)%N else None.

Section pake.
Context `{Spake2, ChaCha, Crypto, KeyedHash}.

Definition ch_seal (c : Channel) (plaintext : bytes) : option (bytes * Channel) :=
  n ← next_counter (ch_counter c);
  Some (chacha_seal (ch_key c) (nonce_for (ch_counter c)) plaintext, mkChannel (ch_key c) n).
Definition ch_open (c : Channel) (ciphertext : bytes) : option (result PakeError (bytes * Channel)) :=
  match chacha_open (ch_key c) (nonce_for (ch_counter c)) ciphertext with
  | None => Some (Err UndecryptablePayload)
  | Some p => n ← next_counter (ch_counter c); Some (Ok (p, mkChannel (ch_key c) n))
  end.

Definition role_tag (s : Side) : byte := match s with SInitiator => Byte.x01 | SResponder => Byte.x02 end.
Definition confirm_mac (spake_key : bytes) (role : Side) (initiator_id responder_id msg1 msg2 : bytes) : bytes :=
  keyed_hash (blake3_derive CONFIRM_CONTEXT spake_key)
    (role_tag role :: initiator_id ++ responder_id ++
     le_bytes 8 (N.of_nat (length msg1)) ++ msg1 ++ le_bytes 8 (N.of_nat (length msg2)) ++ msg2).
Definition session_key (spake_key : bytes) : SessionKey :=
  mkSessionKey (blake3_derive SEAL_I2R_CONTEXT spake_key) (blake3_derive SEAL_R2I_CONTEXT spake_key).
Definition macs_match (a b : bytes) : bool := bool_decide (a = b).

Record Initiator := mkInitiator { in_state : spake_state; in_initiator_id : bytes; in_responder_id : bytes; in_msg1 : bytes }.
Definition initiator_start (rng : bytes) (code : PairingCode) (initiator_id responder_id : bytes) : Initiator * bytes :=
  let '(state, msg1) := spake_start_a rng (utf8 code) initiator_id responder_id in
  (mkInitiator state initiator_id responder_id msg1, msg1).
Record PendingInitiator := mkPendingI { pi_expected : bytes; pi_key : SessionKey }.
Definition initiator_accept (i : Initiator) (msg2 : bytes) : result PakeError (PendingInitiator * bytes) :=
  match spake_finish (in_state i) msg2 with
  | None => Err MalformedMessage
  | Some k =>
      let mac r := confirm_mac k r (in_initiator_id i) (in_responder_id i) (in_msg1 i) msg2 in
      Ok (mkPendingI (mac SResponder) (session_key k), mac SInitiator)
  end.
Definition initiator_verify (p : PendingInitiator) (responder_confirm : bytes) : result PakeError SessionKey :=
  if negb (macs_match (pi_expected p) responder_confirm) then Err BadCode else Ok (pi_key p).

Record Responder := mkResponder { re_code : PairingCode; re_responder_id : bytes; attempts_left : nat }.
Definition responder_new (code : PairingCode) (responder_id : bytes) : Responder := mkResponder code responder_id MAX_ATTEMPTS.
Record PendingResponder := mkPendingR { pr_expected : bytes; pr_ours : bytes; pr_key : SessionKey }.
Definition respond (rng : bytes) (r : Responder) (initiator_id msg1 : bytes) : result PakeError (PendingResponder * bytes) :=
  if decide (attempts_left r = 0) then Err NoAttemptsLeft
  else
    let '(state, msg2) := spake_start_b rng (utf8 (re_code r)) initiator_id (re_responder_id r) in
    match spake_finish state msg1 with
    | None => Err MalformedMessage
    | Some k =>
        let mac s := confirm_mac k s initiator_id (re_responder_id r) msg1 msg2 in
        Ok (mkPendingR (mac SInitiator) (mac SResponder) (session_key k), msg2)
    end.
Definition responder_verify (r : Responder) (p : PendingResponder) (initiator_confirm : bytes)
    : result PakeError (SessionKey * bytes) * Responder :=
  if decide (attempts_left r = 0) then (Err NoAttemptsLeft, r)
  else if negb (macs_match (pr_expected p) initiator_confirm)
       then (Err BadCode, mkResponder (re_code r) (re_responder_id r) (attempts_left r - 1))
       else (Ok (pr_key p, pr_ours p), r).
End pake.

(** ** The mailbox (mailbox.rs) *)
Inductive Slot := Msg1 | Msg2 | ConfirmJoiner | ConfirmHost | Request | Accept.
#[global] Instance Slot_eq_dec : EqDecision Slot.
Proof. solve_decision. Defined.
Definition ALL : list Slot := [Msg1; Msg2; ConfirmJoiner; ConfirmHost; Request; Accept].
Definition slot_index (s : Slot) : nat :=
  match s with Msg1 => 0 | Msg2 => 1 | ConfirmJoiner => 2 | ConfirmHost => 3 | Request => 4 | Accept => 5 end.
#[global] Program Instance Slot_countable : Countable Slot :=
  inj_countable slot_index (λ n, ALL !! n) _.
Next Obligation. by intros []. Qed.
Definition slot_as_str (s : Slot) : rstring :=
  match s with
  | Msg1 => str "msg1" | Msg2 => str "msg2" | ConfirmJoiner => str "confirm-joiner"
  | ConfirmHost => str "confirm-host" | Request => str "request" | Accept => str "accept"
  end.
Definition slot_parse (name : rstring) : option Slot := head (filter (λ s, slot_as_str s = name) ALL).
Inductive SlotOutcome := Written | AlreadyTaken.
#[global] Instance SlotOutcome_eq_dec : EqDecision SlotOutcome.
Proof. solve_decision. Defined.

Inductive PairError :=
  | PStore (e : StorageError) | PPake (e : PakeError) | PMailbox | PTaken (s : Slot) | PTimeout (s : Slot)
  | PSession | PConfirm | PJson | PHostKey | PNotFounded | PNotAdmin | PUsedUp | PWindow | PPanic | PStuck.

(** The mailbox and the clock, as one device sees them: whatever the relay, the other
    device and time do happens inside these calls. *)
Class Mailbox (W : Type) := {
  mx_put : rstring → Slot → bytes → SM W PairError SlotOutcome;
  mx_get : rstring → Slot → SM W PairError (option bytes);
  mx_sessions : SM W PairError (list rstring);
  now_ms : W → Z;
  sleep : Z → W → W;
}.

(** *** The in-process mailbox; its clock is that of the caller. *)
Record MemoryMailbox := mkMemoryMailbox { slots : gmap (rstring * Slot) bytes; mm_clock : Z }.
Definition mm_put (session : rstring) (slot : Slot) (body : bytes) : SM MemoryMailbox PairError SlotOutcome := λ m,
  match slots m !! (session, slot) with
  | Some _ => (Ok AlreadyTaken, m)
  | None => (Ok Written, mkMemoryMailbox (<[(session, slot) := body]> (slots m)) (mm_clock m))
  end.
Definition mm_get (session : rstring) (slot : Slot) : SM MemoryMailbox PairError (option bytes) := λ m,
  (Ok (slots m !! (session, slot)), m).
Definition mm_sessions : SM MemoryMailbox PairError (list rstring) := λ m,
  (Ok (bset_to_list str_le (set_map fst (dom (slots m)))), m).
Definition mm_force (session : rstring) (slot : Slot) (body : bytes) (m : MemoryMailbox) : MemoryMailbox :=
  mkMemoryMailbox (<[(session, slot) := body]> (slots m)) (mm_clock m).
#[global] Instance MemoryMailbox_mailbox : Mailbox MemoryMailbox :=
  {| mx_put := mm_put; mx_get := mm_get; mx_sessions := mm_sessions; now_ms := mm_clock;
     sleep d m := mkMemoryMailbox (slots m) (mm_clock m + d) |}.

(** ** The invitation (invite.rs) *)
Record Invite := mkInvite { rendezvous : bytes; relay_url : rstring; host_key : bytes }.
Fixpoint trim_end_slashes (s : rstring) : rstring :=
  match s with
  | [] => []
  | c :: s => match trim_end_slashes s with [] => if decide (c = SLASH) then [] else [c] | t => c :: t end
  end.
Definition invite_generate (rng : bytes) (relay : rstring) (key : bytes) : Invite := mkInvite rng (trim_end_slashes relay) key.
Section invite.
Context `{B64Url, JsonOf Invite}.
Definition rendezvous_id (i : Invite) : rstring := b64url_encode (rendezvous i).
Definition invite_encode (i : Invite) : rstring := b64url_encode (utf8 (to_json i)).
Definition invite_decode (s : rstring) : option Invite := b ← b64url_decode (trim s); t ← from_utf8 b; from_json t.
End invite.

(** ** Handing over and taking in a vault (accept.rs) *)
Record JoinAccept := mkJoinAccept {
  ja_vault : bytes; ja_vault_key : bytes; ja_rosters : list (u64 * bytes);
  keylog_author : u64; keylog_jsonl : bytes; ja_founder : u64;
}.
Record Joined := mkJoined { jd_vault : bytes; jd_vault_key : bytes; jd_founder : u64 }.
Record MailboxJoinRequest := mkJoinRequest { rq_verifying_key : bytes; rq_peer_id : u64 }.

Definition STEP_TIMEOUT : Z := 20000.
Definition POLL_INTERVAL : Z := 400.
Definition DEFAULT_WINDOW : Z := 300000.

Section join.
Context `{Ed25519, Crypto, EdX, B64, B64Url, KeyedHash, Spake2, ChaCha}.
Context `{JsonOf RosterLine, JsonOf (list PeerRecord), JsonOf KeyLine, JsonOf MailboxJoinRequest, JsonOf JoinAccept}.
Context {Fs Doc Ver : Type} `{VaultFs Fs}.
Variable pick : gset u64 → option u64.
Variable fuel : nat.
Abbreviation St := (Store Fs Doc Ver).

Definition enrol_joiner (rng : nat → bytes * bytes) (id : Identity) (vault vault_key : bytes) (role : Role)
    (joiner_key : bytes) (joiner_peer_id : u64) : SM St PairError JoinAccept :=
  s ← sm_get;
  match founder s with
  | None => sm_fail PNotFounded
  | Some f =>
      _ ← sm_map_err PStore (add_peer pick fuel joiner_peer_id joiner_key role);
      let '(id_key0, epoch0) := vault_subkeys vault_key in
      _ ← sm_map_err PStore (backfill_wraps rng id_key0 epoch0);
      s ← sm_get;
      rosters ← sm_lift (map_err PStore (export_all_rosters s));
      kl ← sm_lift (map_err PStore (export_own_keylog s));
      mret (mkJoinAccept vault vault_key rosters (id_peer id) kl f)
  end.

Definition adopt_accept (a : JoinAccept) (hkey : bytes) : SM St PairError Joined :=
  _ ← sm_map_err PStore (pin_founder pick fuel (ja_founder a));
  _ ← sm_map_err PStore (import_roster_bundle pick fuel (ja_rosters a));
  _ ← (if decide (keylog_jsonl a = []) then mret tt
       else sm_map_err PStore (import_keylog (keylog_author a) hkey (keylog_jsonl a)));
  mret (mkJoined (ja_vault a) (ja_vault_key a) (ja_founder a)).

(** ** The handshake (handshake.rs) *)
Context {W : Type} `{Mailbox W}.

Definition decode_session_id (session : rstring) : result PairError bytes :=
  match b64url_decode session with
  | None => Err PSession
  | Some b => if decide (length b = 32) then Ok b else Err PSession
  end.
Definition new_session_id (rng : bytes) : rstring * bytes := (b64url_encode rng, rng).

(** Milliseconds since the epoch, saturating at the largest [i64]. *)
Definition deadline_from_now (window : Z) (w : W) : Z := Z.min (now_ms w + window) (2 ^ 63 - 1).
Definition past (deadline : Z) (w : W) : bool := (deadline <=? now_ms w)%Z.
Definition do_sleep (d : Z) : SM W PairError unit := λ w, (Ok tt, sleep d w).

(** [polls] bounds the number of reads. *)
Fixpoint await_loop (polls : nat) (session : rstring) (slot : Slot) (deadline poll : Z) : SM W PairError bytes :=
  match polls with
  | O => sm_fail PStuck
  | S polls =>
      x ← mx_get session slot;
      match x with
      | Some body => mret body
      | None =>
          w ← sm_get;
          if past deadline w then sm_fail (PTimeout slot)
          else _ ← do_sleep poll; await_loop polls session slot deadline poll
      end
  end.
Definition await_slot (polls : nat) (session : rstring) (slot : Slot) (timeout poll : Z) : SM W PairError bytes :=
  w ← sm_get; await_loop polls session slot (deadline_from_now timeout w) poll.
Definition as_confirm (b : bytes) : result PairError bytes := if decide (length b = 32) then Ok b else Err PConfirm.

Record MailboxHost := mkHost {
  mh_world : W; mh_invite : Invite; mh_responder : Responder; mh_identity : Identity; mh_vault : bytes;
  mh_vault_key : bytes; mh_role : Role; mh_store : St; step_timeout : Z; poll_interval : Z;
}.
Definition host_via_mailbox (id : Identity) (vault vault_key : bytes) (role : Role) (s : St) (w : W) (i : Invite)
    (draws : list N) : option (PairingCode * MailboxHost) :=
  code ← code_generate draws;
  Some (code, mkHost w i (responder_new code (host_key i)) id vault vault_key role s STEP_TIMEOUT POLL_INTERVAL).

Definition set_world (w : W) (h : MailboxHost) : MailboxHost :=
  mkHost w (mh_invite h) (mh_responder h) (mh_identity h) (mh_vault h) (mh_vault_key h) (mh_role h) (mh_store h)
    (step_timeout h) (poll_interval h).
Definition set_responder (r : Responder) (h : MailboxHost) : MailboxHost :=
  mkHost (mh_world h) (mh_invite h) r (mh_identity h) (mh_vault h) (mh_vault_key h) (mh_role h) (mh_store h)
    (step_timeout h) (poll_interval h).
Definition set_host_store (s : St) (h : MailboxHost) : MailboxHost :=
  mkHost (mh_world h) (mh_invite h) (mh_responder h) (mh_identity h) (mh_vault h) (mh_vault_key h) (mh_role h) s
    (step_timeout h) (poll_interval h).
Abbreviation HM := (SM MailboxHost PairError).
Definition in_world {A} (m : SM W PairError A) : HM A := λ h, let '(r, w) := m (mh_world h) in (r, set_world w h).
Definition in_host_store {A} (m : SM St PairError A) : HM A := λ h,
  let '(r, s) := m (mh_store h) in (r, set_host_store s h).

Definition host_write (session : rstring) (slot : Slot) (body : bytes) : HM unit :=
  out ← in_world (mx_put session slot body);
  match out with Written => mret tt | AlreadyTaken => sm_fail (PTaken slot) end.
Definition host_read (polls : nat) (session : rstring) (slot : Slot) : HM bytes :=
  h ← sm_get; in_world (await_slot polls session slot (step_timeout h) (poll_interval h)).
Definition host_verify (p : PendingResponder) (confirm : bytes) : HM (SessionKey * bytes) := λ h,
  let '(r, re) := responder_verify (mh_responder h) p confirm in (map_err PPake r, set_responder re h).

(** The three legs of a session, between what the host waits for. *)
Definition serve_msg1 (rng : bytes) (session : rstring) (msg1 : bytes) : HM PendingResponder :=
  initiator_id ← sm_lift (decode_session_id session);
  h ← sm_get;
  x ← sm_lift (map_err PPake (respond rng (mh_responder h) initiator_id msg1));
  _ ← host_write session Msg2 x.2;
  mret x.1.
Definition serve_confirm (session : rstring) (pending : PendingResponder) (body : bytes) : HM SessionKey :=
  their_confirm ← sm_lift (as_confirm body);
  x ← host_verify pending their_confirm;
  _ ← host_write session ConfirmHost x.2;
  mret x.1.
Definition serve_request (rng : nat → bytes * bytes) (session : rstring) (key : SessionKey) (body : bytes) : HM u64 :=
  let '(sealer, opener) := key_split key SResponder in
  opened ← sm_lift (ok_or (ch_open opener body) PPanic);
  x ← sm_lift (map_err PPake opened);
  request ← sm_lift (ok_or (from_utf8 x.1 ≫= from_json : option MailboxJoinRequest) PJson);
  h ← sm_get;
  accept ← in_host_store (enrol_joiner rng (mh_identity h) (mh_vault h) (mh_vault_key h) (mh_role h)
                            (rq_verifying_key request) (rq_peer_id request));
  sealed ← sm_lift (ok_or (ch_seal sealer (utf8 (to_json accept))) PPanic);
  _ ← host_write session Accept sealed.1;
  mret (rq_peer_id request).
Definition serve (polls : nat) (rng : bytes) (wraps : nat → bytes * bytes) (session : rstring) (msg1 : bytes) : HM u64 :=
  pending ← serve_msg1 rng session msg1;
  c ← host_read polls session ConfirmJoiner;
  key ← serve_confirm session pending c;
  b ← host_read polls session Request;
  serve_request wraps session key b.

(** The randomness of a session depends on how many were served before. *)
Record HostRng := mkHostRng { hr_spake : nat → bytes; hr_wraps : nat → nat → bytes * bytes }.
(** [Some] is the peer that was enrolled; the list is of the sessions served. *)
Fixpoint serve_all (polls : nat) (rng : HostRng) (served sessions : list rstring) (worked : bool)
    : HM (option u64 * list rstring * bool) :=
  match sessions with
  | [] => mret (None, served, worked)
  | session :: sessions =>
      if decide (session ∈ served) then serve_all polls rng served sessions worked
      else
        x ← in_world (mx_get session Msg1);
        match x with
        | None => serve_all polls rng served sessions worked
        | Some msg1 =>
            let served' := served ++ [session] in
            r ← attempt (serve polls (hr_spake rng (length served)) (hr_wraps rng (length served)) session msg1);
            match r with
            | Ok peer_id => mret (Some peer_id, served', true)
            | Err _ => serve_all polls rng served' sessions true
            end
        end
  end.
(** [ticks] bounds the rounds of the loop. *)
Fixpoint accept_loop (ticks polls : nat) (rng : HostRng) (deadline : Z) (served : list rstring) : HM u64 :=
  match ticks with
  | O => sm_fail PStuck
  | S ticks =>
      h ← sm_get;
      if decide (attempts_left (mh_responder h) = 0) then sm_fail PUsedUp
      else if past deadline (mh_world h) then sm_fail PWindow
      else
        sessions ← in_world mx_sessions;
        x ← serve_all polls rng served sessions false;
        match x.1.1 with
        | Some peer_id => mret peer_id
        | None =>
            _ ← (if x.2 : bool then mret tt else in_world (do_sleep (poll_interval h)));
            accept_loop ticks polls rng deadline x.1.2
        end
  end.
Definition accept_for (ticks polls : nat) (rng : HostRng) (window : Z) : HM u64 :=
  h ← sm_get;
  if decide (self_role (mh_store h) ≠ Some Admin) then sm_fail PNotAdmin
  else accept_loop ticks polls rng (deadline_from_now window (mh_world h)) [].
Definition accept_auto (ticks polls : nat) (rng : HostRng) : HM u64 := accept_for ticks polls rng DEFAULT_WINDOW.

(** *** The joiner *)
Definition join_put (session : rstring) (slot : Slot) (body : bytes) : SM W PairError unit :=
  out ← mx_put session slot body;
  if decide (out ≠ Written) then sm_fail (PTaken slot) else mret tt.
Definition join_start (rng : bytes) (invite : Invite) (code : PairingCode) (session : rstring * bytes) : SM W PairError Initiator :=
  let '(initiator, msg1) := initiator_start rng code session.2 (host_key invite) in
  _ ← join_put session.1 Msg1 msg1;
  mret initiator.
Definition join_confirm (session : rstring) (initiator : Initiator) (msg2 : bytes) : SM W PairError PendingInitiator :=
  x ← sm_lift (map_err PPake (initiator_accept initiator msg2));
  _ ← join_put session ConfirmJoiner x.2;
  mret x.1.
Definition join_request (session : rstring) (pending : PendingInitiator) (body : bytes) (claim : MailboxJoinRequest)
    : SM W PairError Channel :=
  their_confirm ← sm_lift (as_confirm body);
  key ← sm_lift (map_err PPake (initiator_verify pending their_confirm));
  let '(sealer, opener) := key_split key SInitiator in
  sealed ← sm_lift (ok_or (ch_seal sealer (utf8 (to_json claim))) PPanic);
  _ ← join_put session Request sealed.1;
  mret opener.
Definition join_open (opener : Channel) (body : bytes) : result PairError JoinAccept :=
  opened ← ok_or (ch_open opener body) PPanic;
  x ← map_err PPake opened;
  ok_or (from_utf8 x.1 ≫= from_json) PJson.
Definition fetch_accept_inner (polls : nat) (rng session_rng : bytes) (id : Identity) (invite : Invite) (code : PairingCode)
    (step poll : Z) (claim_instead : option (bytes * u64)) : SM W PairError (JoinAccept * bytes) :=
  if negb (ed_key_ok (host_key invite)) then sm_fail PHostKey
  else
    let session := new_session_id session_rng in
    initiator ← join_start rng invite code session;
    msg2 ← await_slot polls session.1 Msg2 step poll;
    pending ← join_confirm session.1 initiator msg2;
    c ← await_slot polls session.1 ConfirmHost step poll;
    let claimed := default (id_key id, id_peer id) claim_instead in
    opener ← join_request session.1 pending c (mkJoinRequest claimed.1 claimed.2);
    body ← await_slot polls session.1 Accept step poll;
    accept ← sm_lift (join_open opener body);
    mret (accept, host_key invite).

Record Joiner := mkJoiner { jn_world : W; jn_store : St }.
Definition join_via_mailbox (polls : nat) (rng session_rng : bytes) (id : Identity) (invite : Invite) (code : PairingCode)
    (step poll : Z) (claim_instead : option (bytes * u64)) : SM Joiner PairError Joined := λ j,
  let '(r, w) := fetch_accept_inner polls rng session_rng id invite code step poll claim_instead (jn_world j) in
  match r with
  | Err e => (Err e, mkJoiner w (jn_store j))
  | Ok (accept, hkey) => let '(r, s) := adopt_accept accept hkey (jn_store j) in (r, mkJoiner w s)
  end.
End join.
