(* ===== verification/Enrol.v ===== *)
(** * A device is enrolled

    When the enrolment of a new device by [enrol_joiner] (src/crates/roam-pairing/src/accept.rs)
    succeeds: the host is an active admin of a founded vault whose logs are intact, the device is
    new to the vault and goes by the id its key implies, and storage has room.  Then the
    device is an active member with the role it was invited with. *)
From stdpp Require Import pretty.
From S2P Require Import Prelude RustStr Vfs Roster Wire Logs Keychain Blob Trust Store StoreRoster StoreSync.
From S2P Require Import StoreKeys Checkpoint Paths Snapshots Relay Pairing.

(** ** Steps that write a few files and succeed *)
Section touch.
Context {Fs Doc Ver : Type} `{FsAccepts Fs}.
Implicit Types (f : Fs) (r : path) (ps : list path) (s : Store Fs Doc Ver).

Definition keylog_file r (a : u64) : path := kl_path (KeyLog_new (keylog_dir r) a).

(** Of the files only [ps] changed; new directories are those of the logs. *)
Record touched r ps f f' : Prop := {
  to_inv : fs_inv f';
  to_files x : x ∉ ps → files f' !! x = files f !! x;
  to_dirs q : q ∈ fs_dirs f' → q ∈ fs_dirs f ∨ q `prefix_of` roster_dir r ∨ q `prefix_of` keylog_dir r;
}.
Lemma touched_trans r ps f1 f2 f3 : touched r ps f1 f2 → touched r ps f2 f3 → touched r ps f1 f3.
Proof.
  intros [I1 F1 D1] [I2 F2 D2]. split; [done| |].
  - intros x Hx. by rewrite F2, F1.
  - intros q Hq. destruct (D2 q Hq) as [Hq1|]; [by apply D1|by right].
Qed.
Lemma touched_more r ps qs f f' : ps ⊆ qs → touched r ps f f' → touched r qs f f'.
Proof. intros Hs [I F D]. split; [done| |done]. intros x Hx. apply F. set_solver. Qed.
Lemma touched_same r ps f : fs_inv f → touched r ps f f.
Proof. intros Hi. split; auto. Qed.

Lemma write_ok r ps p b f :
  fs_inv f → fs_path p → p ∈ ps → ∃ f', io (fs_write p b) f = (Ok tt, f') ∧ touched r ps f f' ∧ files f' = <[p := b]> (files f).
Proof.
  intros Hi Hp Hin. unfold io, sm_map_err. destruct (acc_write p b f Hi Hp) as [Hok Hd].
  pose proof (fs_write_spec p b f Hi Hp) as Hw. destruct (fs_write p b f) as [[[]|e] f']; [|done].
  destruct Hw as [Hi' Hf]. simpl in Hf, Hd. exists f'. split; [done|]. split; [|done]. split; [done| |by rewrite Hd; left].
  intros x Hx. rewrite Hf, lookup_insert_ne; [done|]. by intros ->.
Qed.
Lemma append_ok {L} `{JsonOf L} r ps p (l : L) f :
  fs_inv f → fs_path p → p ∈ ps → ∃ f', append_line p l f = (Ok tt, f') ∧ touched r ps f f'.
Proof.
  intros Hi Hp Hin. unfold append_line, io, sm_map_err. destruct (acc_append_sync p (utf8 (to_json l ++ [LF])) f Hi Hp) as [Hok Hd].
  pose proof (fs_append_sync_spec p (utf8 (to_json l ++ [LF])) f Hi Hp) as Hw.
  destruct (fs_append_sync p _ f) as [[[]|e] f']; [|done]. destruct Hw as [Hi' Hf]. simpl in Hf, Hd.
  exists f'. split; [done|]. split; [done| |by rewrite Hd; left].
  intros x Hx. rewrite Hf, lookup_insert_ne; [done|]. by intros ->.
Qed.
Lemma rename_ok r ps p q f :
  fs_inv f → fs_path p → fs_path q → p ≠ q → is_Some (files f !! p) → p ∈ ps → q ∈ ps →
  ∃ f', io (fs_rename p q) f = (Ok tt, f') ∧ touched r ps f f'.
Proof.
  intros Hi Hp Hq Hne Hs Hpin Hqin. unfold io, sm_map_err. destruct (acc_rename p q f Hi Hp Hq Hne Hs) as [Hok Hd].
  pose proof (fs_rename_spec p q f Hi Hp Hq Hne) as Hw. destruct (fs_rename p q f) as [[[]|e] f']; [|done].
  destruct Hs as [b Hb]. rewrite Hb in Hw. destruct Hw as [Hi' Hf]. simpl in Hf, Hd.
  exists f'. split; [done|]. split; [done| |by rewrite Hd; left].
  intros x Hx. rewrite Hf, lookup_insert_ne, lookup_delete_ne; [done|..]; by intros ->.
Qed.
(** [create_dir_all] of a log's directory, or of the vault's. *)
Lemma parent_ok r ps d n f :
  fs_inv f → d = r ∨ d = roster_dir r ∨ d = keylog_dir r →
  ∃ f', ensure_parent (d ++ [n]) f = (Ok tt, f') ∧ touched r ps f f' ∧ files f' = files f.
Proof.
  intros Hi Hd. unfold ensure_parent.
  assert (parent (d ++ [n]) = Some d) as ->.
  { unfold parent. destruct (d ++ [n]) as [|c x] eqn:E; [by destruct d|]. rewrite <-E, length_app. simpl.
    by rewrite Nat.add_sub, take_app_length. }
  unfold io, sm_map_err. pose proof (fs_create_dir_all_spec d f Hi) as Hm. pose proof (λ q, acc_mkdir d f q Hi) as Ha.
  destruct (fs_create_dir_all d f) as [rr f']. destruct Hm as (->&Hi'&Hf). simpl in Ha. exists f'.
  split; [done|]. split; [|done]. split; [done|by intros; rewrite Hf|].
  intros q Hq. destruct (Ha q Hq) as [|Hp]; [by left|right]. destruct Hd as [->|[->| ->]]; [|by left|by right].
  left. etrans; [exact Hp|]. by apply prefix_app_r.
Qed.
Lemma log_file_split (d : path) prefix (a : u64) : ∃ n, log_path d prefix a = d ++ [n].
Proof. by eexists. Qed.
End touch.

Section members.
Context `{Ed25519Laws, B64Laws, JsonLaws RosterLine, JsonOf (list PeerRecord)}.
Context {Fs Doc Ver : Type} `{FsAccepts Fs}.
Variable pick : gset u64 → option u64.
Variable fuel : nat.
Abbreviation St := (Store Fs Doc Ver).
Implicit Types s : St.
Abbreviation member_files s := [cache_path (root s); cache_tmp (root s); roster_file (root s) (me s)].

Lemma write_cache_ok s :
  fs_inv (fs s) → vault_paths (Fs := Fs) (root s) →
  ∃ s', write_peers_cache s = (Ok tt, s') ∧ same_but_fs s s' ∧ touched (root s) (member_files s) (fs s) (fs s').
Proof.
  intros Hi [Hc Ht]. unfold write_peers_cache, mbind, SM_bind, sm_get, on_fs.
  destruct (parent_ok (root s) (member_files s) (root s) (str "peers.json") (fs s) Hi) as (f1&->&T1&_); [by left|]. cbn [fs set_fs].
  change (with_extension (root s ++ [str "peers.json"]) (str "json.tmp")) with (cache_tmp (root s)).
  change (root s ++ [str "peers.json"]) with (cache_path (root s)).
  destruct (write_ok (root s) (member_files s) (cache_tmp (root s)) (utf8 (to_json (peers s))) f1) as (f2&->&T2&Hf2);
    [apply T1|done|set_solver|]. cbn [fs set_fs].
  destruct (rename_ok (root s) (member_files s) (cache_tmp (root s)) (cache_path (root s)) f2) as (f3&->&T3); try done; try set_solver.
  { apply T2. } { apply cache_tmp_ne. } { rewrite Hf2, lookup_insert_eq. by eexists. }
  eexists. split; [done|]. split; [done|]. cbn [fs set_fs]. by do 2 (eapply touched_trans; [eassumption|]).
Qed.
Lemma refresh_ok s ps :
  fs_inv (fs s) → vault_paths (Fs := Fs) (root s) →
  rebuild_peers pick fuel (root s) (me s) (mykey s) (founder s) (fs s) = Ok ps →
  ∃ s', refresh_peers pick fuel s = (Ok tt, s') ∧ same_but_fs (set_peers ps s) s' ∧ touched (root s) (member_files s) (fs s) (fs s').
Proof.
  intros Hi Hv Hr. unfold refresh_peers, mbind, SM_bind, sm_get, sm_lift. unfold me, mykey in Hr. rewrite Hr.
  unfold modify. exact (write_cache_ok (set_peers ps s) Hi Hv).
Qed.
Lemma roster_append_ok s seeds universe lines own lam o p key :
  roster_state pick fuel s seeds universe lines own →
  ∃ e f', roster_append (own_roster s) (identity s) lam o p key (fs s) = (Ok e, f') ∧ touched (root s) (member_files s) (fs s) f'.
Proof.
  intros Hs. unfold roster_append. rewrite decide_False by (by intros []). unfold mbind, SM_bind.
  pose proof (rs_inv _ _ _ _ _ _ _ Hs) as Hi.
  destruct (parent_ok (root s) (member_files s) (roster_dir (root s)) (default [] (last (roster_file (root s) (me s)))) (fs s) Hi)
    as (f1&E1&T1&Hf1); [by right; left|].
  change (ro_path (own_roster s)) with (roster_file (root s) (me s)).
  assert (roster_dir (root s) ++ [default [] (last (roster_file (root s) (me s)))] = roster_file (root s) (me s)) as Hp.
  { unfold roster_file, RosterLog_new. simpl. unfold log_path. by rewrite last_snoc. }
  rewrite Hp in E1. rewrite E1. unfold sm_get, sm_lift, roster_last_seq.
  assert (roster_read_verified (own_roster s) (id_key (identity s)) f1 = Ok own) as ->.
  { rewrite <-(rs_own _ _ _ _ _ _ _ Hs). unfold roster_read_verified, read_verified, fs_read_to_string.
    rewrite !fs_read_spec by (done || apply T1). by rewrite Hf1. }
  cbn -[append_line roster_file]. set (e := mkRosterEntry _ _ _ _ _ _).
  destruct (append_ok (root s) (member_files s) (roster_file (root s) (me s)) (roster_line (identity s) e) f1) as (f2&->&T2);
    [apply T1|apply Hs|set_solver|]. eexists _, _. split; [done|]. by eapply touched_trans.
Qed.

(** A device that nobody has heard of: no log of it is on disk and no other key is believed under its id. *)
Record newcomer s seeds (p : u64) (key : bytes) : Prop := {
  nc_bound : p = derived_peer_id key;
  nc_len : length key = 32;
  nc_other : p ≠ me s;
  nc_log : files (fs s) !! roster_file (root s) p = None;
  nc_key k : Believed ed_key_ok (read_author (root s) (fs s)) seeds p k → k = key;
}.

(** The collection after one more line of the own log, about a newcomer. *)
Lemma collect_new s seeds universe lines own es p key e (f' : Fs) :
  roster_state pick fuel s seeds universe lines own → S (size universe) < fuel → newcomer s seeds p key →
  collect_roster_entries pick fuel (root s) (me s) (mykey s) (founder s) (fs s) = Ok es →
  subject_peer e = p → subject_key e = key → fs_inv f' →
  roster_read_verified (own_roster s) (mykey s) f' = Ok (own ++ [e]) →
  (∀ a, a ≠ me s → files f' !! roster_file (root s) a = files (fs s) !! roster_file (root s) a) →
  ∃ es', collect_roster_entries pick fuel (root s) (me s) (mykey s) (founder s) f' = Ok es' ∧ ∀ x, x ∈ es' ↔ x ∈ e :: es.
Proof.
  intros Hs Hfuel [Hb _ Hne Hlog Hkey] Hes Hep Hek Hi' Hown' Ho.
  destruct (collect_ok _ _ _ _ _ _ _ Hs) as (es0&Hes0&Hel0). rewrite Hes in Hes0. injection Hes0 as <-.
  pose proof (rs_inv _ _ _ _ _ _ _ Hs) as Hi.
  set (rd := read_author (root s) (fs s)) in *. set (rd' := read_author (root s) f').
  assert (rd (me s) (mykey s) = Some own) as Hrd.
  { unfold rd, read_author. pose proof (rs_own _ _ _ _ _ _ _ Hs) as Hro. unfold own_roster in Hro. unfold me. by rewrite Hro. }
  assert (rd' (me s) (mykey s) = Some (own ++ [e])) as Hrd'.
  { unfold rd', read_author. unfold own_roster in Hown'. unfold me. by rewrite Hown'. }
  assert (∀ a k, a ≠ me s → rd' a k = rd a k) as Hrdo by (intros a k Ha; apply read_author_files; auto).
  assert (∀ k l x, rd (subject_peer e) k = Some l → x ∉ l) as Hsil.
  { intros k l x. rewrite Hep. unfold rd, read_author, roster_read_verified, read_verified, fs_read_to_string.
    rewrite fs_read_spec by done. change (ro_path _) with (roster_file (root s) p). rewrite Hlog. simpl. intros [= <-].
    by intros ?%elem_of_nil. }
  pose proof (seed_keys_me _ _ _ _ _ _ (rs_seeds _ _ _ _ _ _ _ Hs)) as Hme.
  pose proof (ed_public_ok (id_secret (identity s))) as Hok.
  pose proof (rs_collision _ _ _ _ _ _ _ Hs) as Hcol.
  assert (key_bound e) as Hbd by (unfold key_bound; by rewrite Hep, Hek).
  assert (subject_peer e ≠ me s) as Hem by (by rewrite Hep).
  pose proof (believed_new ed_key_ok rd rd' seeds (me s) (mykey s) own e Hme Hok Hcol Hrd Hrd' Hrdo Hbd Hem Hsil) as Hbel.
  pose proof (believed_entry_new ed_key_ok rd rd' seeds (me s) (mykey s) own e Hme Hok Hcol Hrd Hrd' Hrdo Hbd Hem Hsil) as Hent.
  destruct (rs_pick _ _ _ _ _ _ _ Hs) as [Hp1 Hp2].
  destruct (collect_spec ed_key_ok rd' seeds) with (universe := {[p]} ∪ universe) (pick := pick) (fuel := fuel)
    as (es'&Hes'&Hel'); try done.
  - intros a k k'. rewrite !Hbel, Hep, Hek. intros [Hk|[-> ->]] [Hk'|[Ha ->]]; subst; try done; [by eapply Hcol|by apply Hkey|].
    symmetry. by apply Hkey.
  - pose proof (rs_universe1 _ _ _ _ _ _ _ Hs). set_solver.
  - intros a k l x Ha Hr Hx. apply Hbel in Ha as [Ha|[-> ->]].
    + apply elem_of_union. destruct (decide (a = me s)) as [->|Hna].
      * assert (k = mykey s) as -> by (eapply Hcol; [exact Ha|by apply believed_seed]).
        rewrite Hrd' in Hr. injection Hr as <-. apply elem_of_app in Hx as [Hx| ->%list_elem_of_singleton].
        -- right. by eapply (rs_universe2 _ _ _ _ _ _ _ Hs).
        -- left. set_solver.
      * right. rewrite Hrdo in Hr by done. by eapply (rs_universe2 _ _ _ _ _ _ _ Hs).
    + rewrite Hrdo in Hr by done. by destruct (Hsil _ _ _ Hr Hx).
  - pose proof (size_union_alt {[p]} universe) as Hsz. rewrite size_singleton in Hsz.
    pose proof (subseteq_size (universe ∖ {[p]}) universe). set_solver by lia.
  - exists es'. split.
    + unfold collect_roster_entries. rewrite (seed_keys_files _ (fs s)), (rs_seeds _ _ _ _ _ _ _ Hs) by done. simpl.
      fold rd'. by rewrite Hes'.
    + intros x. by rewrite Hel', Hent, elem_of_cons, Hel0.
Qed.

(** Adding a newcomer succeeds, and the peer set becomes the merge of what was collected and the new entry. *)
Lemma add_new_ok s seeds universe lines own es p key r :
  roster_state pick fuel s seeds universe lines own → S (size universe) < fuel → newcomer s seeds p key → require_admin s = Ok tt →
  collect_roster_entries pick fuel (root s) (me s) (mykey s) (founder s) (fs s) = Ok es → (∀ x, x ∈ es → subject_peer x ≠ p) →
  let e := mkRosterEntry (N.of_nat (S (length own))) 1 (Add r) p key (me s) in
  ∃ es' s', add_peer pick fuel p key r s = (Ok tt, s') ∧ peers s' = merge_roster es' (founder s) ∧ (∀ x, x ∈ es' ↔ x ∈ e :: es) ∧
    root s' = root s ∧ identity s' = identity s ∧ founder s' = founder s ∧ touched (root s) (member_files s) (fs s) (fs s').
Proof.
  intros Hs Hfuel Hn Hadm Hes Hno e. pose proof Hn as [Hb Hlen _ _ _].
  unfold add_peer, admin_op, mbind at 1, SM_bind at 1, sm_get at 1. unfold mbind at 1, SM_bind at 1, sm_lift at 1. rewrite Hadm.
  unfold mbind at 1, SM_bind at 1, sm_lift at 1, check_peer_id_binding. rewrite decide_False by (by intros []).
  unfold author_op, mbind at 1, SM_bind at 1, sm_get at 1. unfold mbind at 1, SM_bind at 1, sm_lift at 1, next_role_lamport.
  change (id_peer (identity s)) with (me s). change (id_key (identity s)) with (mykey s). rewrite Hes.
  assert (filter (λ x, subject_peer x = p) es = []) as Hf.
  { clear -Hno. induction es as [|x es IH]; [done|]. rewrite filter_cons_False; [apply IH; set_solver|]. apply Hno. by left. }
  change ((x ← Ok es; mret (saturating_add (foldl N.max 0%N (lamport <$> filter (λ y, subject_peer y = p) x)) 1)) : result StorageError u64)
    with (Ok (E := StorageError) (saturating_add (foldl N.max 0%N (lamport <$> filter (λ y, subject_peer y = p) es)) 1)).
  rewrite Hf. change (saturating_add (foldl N.max 0%N (lamport <$> [])) 1) with 1%N. cbn beta iota.
  unfold mbind at 1, SM_bind at 1, on_fs at 1.
  destruct (roster_append_ok s seeds universe lines own 1 (Add r) p key Hs) as (e0&f1&E1&T1). rewrite E1.
  destruct (roster_append_spec (own_roster s) (identity s) 1 (Add r) p key (fs s) f1 lines own e0) as (->&Hown'&_&_&Hi1&Hoth);
    try done; try apply Hs. fold e in Hown'.
  destruct (collect_new s seeds universe lines own es p key e f1 Hs Hfuel Hn Hes) as (es'&Hes'&Heq); try done.
  { intros a Ha. apply Hoth. by intros Heq%roster_file_inj. }
  destruct (refresh_ok (set_fs f1 s) (merge_roster es' (founder s))) as (s'&E2&(Hr&Hid&_&_&Hp&Hfd)&T2); [done|apply Hs| |].
  { unfold rebuild_peers. change (me (set_fs f1 s)) with (me s). change (mykey (set_fs f1 s)) with (mykey s). cbn [root founder fs set_fs].
    by rewrite Hes'. }
  exists es', s'. rewrite E2. cbn [root identity peers founder set_peers set_fs] in *. split_and!; try done. by eapply touched_trans.
Qed.

(** The merge gives the newcomer its role. *)
Lemma newcomer_record es e fd r :
  op e = Add r → lamport e = 1%N → key_bound e → EverAdmin (valid_entries es) fd (added_by e) →
  (∀ x, x ∈ es → is_u64 (lamport x)) → (∀ x, x ∈ es → subject_peer x ≠ subject_peer e) →
  ∃ q, q ∈ merge_roster (e :: es) fd ∧ peer_id q = subject_peer e ∧ role q = r ∧ status q = Active ∧ verifying_key q = subject_key e.
Proof.
  intros Ho Hl Hb Ha Hu Hno.
  assert (∀ x, x ∈ authored (e :: es) fd → subject_peer x = subject_peer e → x = e) as Hone.
  { intros x (Hx&_)%elem_of_authored Hxs. apply elem_of_cons in Hx as [->|Hx]; [done|]. by destruct (Hno x Hx). }
  assert (∀ l, l ∉ subject_lamports (authored es fd) (subject_peer e)) as Hnol.
  { intros l (x&Hx&_&Hxs&_)%elem_of_subject_lamports. apply elem_of_authored in Hx as (Hx&_). by destruct (Hno x Hx). }
  assert (ceiling_at es fd (subject_peer e) = 0%N) as Hc.
  { unfold ceiling_at. assert (subject_lamports (authored es fd) (subject_peer e) = ∅) as -> by set_solver. done. }
  destruct (fresh_grant_role es e fd) as (q&Hq&Hqp&Hqr); try done.
  - intros x [->|Hx]%elem_of_cons; [by rewrite Hl|by apply Hu].
  - unfold is_grant. by rewrite Ho.
  - intros x Hx _ Hxs. left. by apply Hone.
  - intros l Hin. by destruct (Hnol l).
  - by rewrite Hc, Hl.
  - exists q. rewrite Ho in Hqr. split; [done|]. split; [done|]. split; [done|].
    apply elem_of_merge_roster in Hq as (_&Hst&[(x&Hx&Hxs&Hxk) _]&_). rewrite Hqp in *. split.
    + destruct (status q) eqn:E; [done|]. destruct (proj1 Hst eq_refl) as (y&Hy&Hyo&Hys). rewrite (Hone y Hy Hys), Ho in Hyo. done.
    + by rewrite <-Hxk, (Hone x Hx Hxs).
Qed.
Lemma find_merged s es es' fd q :
  peers s = merge_roster es' fd → (∀ x, x ∈ es' ↔ x ∈ es) → q ∈ merge_roster es fd →
  ∃ q', find_peer s (peer_id q) = Some q' ∧ without_name q' = without_name q.
Proof.
  intros Hps Heq Hq. unfold find_peer. rewrite Hps. pose proof (privileges_ext es es' fd) as Hw.
  assert (without_name q ∈ without_name <$> merge_roster es' fd) as (q'&Hqq&Hq')%list_elem_of_fmap.
  { rewrite <-Hw by (intros x; by rewrite Heq). by apply list_elem_of_fmap_2. }
  assert (peer_id q' = peer_id q) as <- by (by apply (f_equal peer_id) in Hqq).
  exists q'. split; [|done]. by apply find_sorted; [apply merge_roster_strict|].
Qed.
(** An admin of the collected roster is one that the fold believes. *)
Lemma admin_trusted es fd q : q ∈ merge_roster es fd → role q = Admin → EverAdmin (valid_entries es) fd (peer_id q).
Proof.
  intros ((e&((Hin&Hg&_)&_)&<-&Hr)&_)%elem_of_merge_roster Hq. apply elem_of_authored in Hin as (Hin&Hb&Ha).
  eapply ea_grant; [|..|exact Ha].
  - by apply elem_of_valid.
  - rewrite Hq in Hr. unfold grants_admin, is_grant in *. destruct (op e) as [[]|[]| |]; done.
Qed.
End members.

(** ** The rest of an enrolment *)
Section enrol.
Context `{Ed25519Laws, Crypto, EdX, B64Laws, JsonLaws RosterLine, JsonOf (list PeerRecord), JsonLaws KeyLine}.
Context {Fs Doc Ver : Type} `{FsAccepts Fs}.
Variable pick : gset u64 → option u64.
Variable fuel : nat.
Abbreviation St := (Store Fs Doc Ver).
Implicit Types s : St.

(** *** Wraps for the newcomer *)
Lemma key_append_ok s epoch body lines own :
  fs_inv (fs s) → fs_path (keylog_file (root s) (me s)) → log_holds (fs s) (keylog_file (root s) (me s)) lines →
  key_read_verified (own_keylog s) (mykey s) (fs s) = Ok own → length epoch = 32 → body_wf body →
  ∃ e f' lines' own', key_append (own_keylog s) (identity s) epoch body (fs s) = (Ok e, f') ∧
    touched (root s) [keylog_file (root s) (me s)] (fs s) f' ∧ log_holds f' (keylog_file (root s) (me s)) lines' ∧
    key_read_verified (own_keylog s) (mykey s) f' = Ok own'.
Proof.
  intros Hi Hp Hh Hr Hl Hb. unfold key_append. rewrite decide_False by (by intros []). unfold mbind, SM_bind.
  set (p := keylog_file (root s) (me s)) in *.
  assert (keylog_dir (root s) ++ [default [] (last p)] = p) as Hpp.
  { unfold p, keylog_file, KeyLog_new. simpl. unfold log_path. by rewrite last_snoc. }
  destruct (parent_ok (root s) [p] (keylog_dir (root s)) (default [] (last p)) (fs s) Hi) as (f1&E1&T1&Hf1); [by right; right|].
  change (kl_path (own_keylog s)) with p. rewrite Hpp in E1. rewrite E1. unfold sm_get, sm_lift, key_last_seq.
  assert (log_holds f1 p lines) as Hh1 by (unfold log_holds in *; by rewrite Hf1).
  assert (key_read_verified (own_keylog s) (mykey s) f1 = Ok own) as Hr1.
  { unfold key_read_verified in *. rewrite (read_verified_holds _ f1 _ lines) by (done || apply T1).
    by rewrite <-Hr, (read_verified_holds _ (fs s) _ lines) by done. }
  change (id_key (identity s)) with (mykey s). rewrite Hr1. cbn -[append_line p]. set (e := mkKeyLogEntry _ _ _ _).
  destruct (append_ok (root s) [p] p (key_line (identity s) e) f1) as (f2&E2&T2); [apply T1|done|set_solver|].
  pose proof (append_line_holds f1 p lines (key_line (identity s) e) (to_inv _ _ _ _ T1) Hp Hh1) as Ha.
  rewrite E2 in Ha. destruct Ha as (Hi2&_&Hh2). rewrite E2. exists e, f2, (lines ++ [key_line (identity s) e]), (own ++ [e]).
  split_and!; [done|by eapply touched_trans|done|].
  unfold key_read_verified in *. rewrite (read_verified_holds _ (fs s) _ lines) in Hr by done.
  rewrite (read_verified_holds _ f2 _ (lines ++ [key_line (identity s) e])) by done.
  assert (key_check (kl_owner (own_keylog s)) (mykey s) (key_line (identity s) e) = Ok e) as Hc by (by apply (key_check_line (identity s) e)).
  rewrite fmap_app. cbn [fmap list_fmap]. rewrite Hc. by apply collect_snoc.
Qed.
Lemma publish_ok rng i ts s lines own :
  fs_inv (fs s) → fs_path (keylog_file (root s) (me s)) → log_holds (fs s) (keylog_file (root s) (me s)) lines →
  key_read_verified (own_keylog s) (mykey s) (fs s) = Ok own → Forall (λ t, length t.1.1 = 32) ts →
  ∃ n s', publish_targets rng (own_keylog s) i ts s = (Ok n, s') ∧ same_but_fs s s' ∧
    touched (root s) [keylog_file (root s) (me s)] (fs s) (fs s').
Proof.
  intros Hi Hp Hh Hr Hts. revert i s lines own Hi Hp Hh Hr. induction Hts as [|[[epoch key] p] ts Hl _ IH]; intros i s lines own Hi Hp Hh Hr.
  { exists i, s. split; [done|]. split; [done|by apply touched_same]. }
  cbn [publish_targets]. unfold mbind at 1, SM_bind at 1, sm_get at 1.
  destruct (find_peer s p) as [rec|]; [|by eapply IH]. destruct (ed_key_ok (verifying_key rec)); [|by eapply IH].
  unfold mbind at 1, SM_bind at 1, on_fs at 1.
  set (body := Wrap (Device p) (wrap_i rng i (ed_to_x (verifying_key rec)) key)).
  destruct (key_append_ok s epoch body lines own Hi Hp Hh Hr Hl I) as (e&f1&lines'&own'&E1&T1&Hh1&Hr1). rewrite E1.
  destruct (IH (S i) (set_fs f1 s) lines' own') as (n&s'&E2&Hs&T2); try done; [apply T1|].
  change (own_keylog (set_fs f1 s)) with (own_keylog s) in E2. exists n, s'. split; [done|]. split; [done|]. by eapply touched_trans.
Qed.
Lemma targets_len id0 k0 self secret es roster t :
  (∀ e, e ∈ es → length (k_epoch_id e) = 32) → t ∈ backfill_targets (build id0 k0 self secret es) roster → length t.1.1 = 32.
Proof.
  intros Hids. destruct t as [[id k] p]. intros (Hne&_&node&Hn&_)%elem_of_targets. cbn [fst].
  assert (is_Some (kc_epochs (build id0 k0 self secret es) !! id)) as Hx by (by exists node).
  rewrite <-(fmap_is_Some announced_as), build_announced, fmap_is_Some, rotate_pass_dom in Hx.
  destruct Hx as [->|(a&e&ps&n&He&<-&_)]; [done|by apply Hids].
Qed.
Lemma admin_keylogs_ok r self (f : Fs) ps :
  (∀ q, q ∈ ps → peer_id q ≠ self → is_ok (key_read_verified (KeyLog_new (keylog_dir r) (peer_id q)) (verifying_key q) f) = true) →
  ∃ es, admin_keylogs r self f ps = Ok es.
Proof.
  induction ps as [|q ps IH]; intros Hq; simpl; [by eexists|]. destruct IH as [es Hes]; [intros x Hx; apply Hq; set_solver|].
  destruct (bool_decide (status q ≠ Active) || bool_decide (role q ≠ Admin)); [by eexists|]. simpl.
  case_bool_decide as Hself; [by eexists|]. simpl. destruct (negb _); [by eexists|].
  specialize (Hq q ltac:(set_solver) Hself). destruct (key_read_verified _ _ f) as [l|]; [|done]. simpl. rewrite Hes. by eexists.
Qed.
Lemma key_read_files r a k (f f' : Fs) :
  fs_inv f → fs_inv f' → files f' !! keylog_file r a = files f !! keylog_file r a →
  key_read_verified (KeyLog_new (keylog_dir r) a) k f' = key_read_verified (KeyLog_new (keylog_dir r) a) k f.
Proof.
  intros Hi Hi' Hf. unfold key_read_verified, read_verified, fs_read_to_string. rewrite !fs_read_spec by done.
  unfold keylog_file in Hf. by rewrite Hf.
Qed.

Lemma keychain_ok s k0 e0 own :
  key_read_verified (own_keylog s) (mykey s) (fs s) = Ok own →
  (∀ q, q ∈ peers s → peer_id q ≠ me s →
    is_ok (key_read_verified (KeyLog_new (keylog_dir (root s)) (peer_id q)) (verifying_key q) (fs s)) = true) →
  ∃ kc, keychain k0 e0 s = Ok kc ∧ Forall (λ t, length t.1.1 = 32) (backfill_targets kc (peers s)).
Proof.
  intros Hown Hq. destruct (admin_keylogs_ok (root s) (me s) (fs s) (peers s) Hq) as [rest Hrest].
  assert (merged_keylog s = Ok (own ++ rest)) as Hm.
  { unfold merged_keylog. unfold mykey in Hown. unfold me in Hrest. by rewrite Hown; simpl; rewrite Hrest. }
  unfold keychain. rewrite Hm. eexists. split; [done|]. apply Forall_forall. intros t Ht. eapply targets_len; [|exact Ht].
  intros x Hx. by eapply merged_keylog_ids.
Qed.
(** Membership changes leave the key logs alone. *)
Lemma keylogs_untouched r m (f f' : Fs) a :
  touched r [cache_path r; cache_tmp r; roster_file r m] f f' → files f' !! keylog_file r a = files f !! keylog_file r a.
Proof.
  intros T. apply T. rewrite !elem_of_cons, elem_of_nil. unfold cache_path. rewrite cache_tmp_eq.
  unfold keylog_file, roster_file, KeyLog_new, RosterLog_new, log_path, keylog_dir, roster_dir. simpl. rewrite <-!(assoc_L (++)).
  intros [Ha|[Ha|[Ha|[]]]]; by apply app_inv_head in Ha.
Qed.

(** *** The logs can be listed *)

(** Nothing but files goes by the name of a roster log. *)
Definition flat_rosters (r : path) (f : Fs) : Prop :=
  ∀ n x, is_Some (roster_author (roster_dir r ++ [n])) → (roster_dir r ++ [n]) `prefix_of` x →
    (x ∉ fs_dirs f) ∧ (is_Some (files f !! x) → x = roster_dir r ++ [n]).
Lemma no_longer (p q x : path) : length q ≤ length p → (p ++ x) `prefix_of` q → x = [].
Proof. intros Hl Hp%prefix_length. rewrite length_app in Hp. destruct x; [done|simpl in *; lia]. Qed.
Lemma flat_touched r m ps f f' :
  ps ⊆ [cache_path r; cache_tmp r; roster_file r m; keylog_file r m] → touched r ps f f' → flat_rosters r f → flat_rosters r f'.
Proof.
  intros Hps [_ Hf Hd] Hflat n x Hn Hx. destruct (Hflat n x Hn Hx) as [Hd0 Hf0]. split.
  - intros [Hq|Hq]%Hd; [done|]. assert (length (roster_dir r) = length (keylog_dir r)) as Hlen by (unfold roster_dir, keylog_dir; by rewrite !length_app).
    destruct Hq as [Hq|Hq]; pose proof (transitivity Hx Hq) as Hbad; apply no_longer in Hbad; simpl in *; try done; lia.
  - destruct (decide (x ∈ ps)) as [Hin%Hps|Hnot]; [intros _|by rewrite Hf].
    assert (length x ≤ length (roster_dir r ++ [n])) as Hle.
    { rewrite !elem_of_cons, elem_of_nil in Hin. unfold roster_dir. rewrite !length_app. simpl.
      destruct Hin as [->|[->|[->|[->|[]]]]]; unfold roster_file, keylog_file, RosterLog_new, KeyLog_new, log_path; simpl;
        rewrite ?cache_tmp_eq; unfold cache_path, roster_dir, keylog_dir; rewrite !length_app; simpl; lia. }
    destruct Hx as [y ->]. rewrite length_app in Hle. destruct y; [by rewrite app_nil_r|simpl in Hle; lia].
Qed.
Lemma export_ok s : fs_inv (fs s) → flat_rosters (root s) (fs s) → ∃ l, export_all_rosters s = Ok l.
Proof.
  intros Hi Hflat. unfold export_all_rosters. pose proof (acc_list (roster_dir (root s)) (fs s) Hi) as Hl.
  destruct (fs_read_dir (roster_dir (root s)) (fs s)) as [es|e] eqn:E; [|subst e; by eexists].
  destruct (fs_read_dir_spec _ _ _ Hi E) as (_&Hn&_).
  assert (∀ q, q ∈ es → is_Some (roster_author q) → is_Some (files (fs s) !! q)) as Hq.
  { intros q Hq Ha. destruct (Hn q Hq) as [n ->]. destruct (Hl _ Hq) as (x&Hx&Hor).
    destruct (Hflat n x Ha Hx) as [Hd Hf]. destruct Hor as [Hs|]; [|done]. by rewrite <-(Hf Hs). }
  clear -Hi Hq. induction es as [|q es IH]; [by eexists|]. destruct IH as [l IH]; [intros; apply Hq; [by right|done]|].
  simpl. destruct (roster_author q) as [a|] eqn:Ea; [|by eexists]. destruct (Hq q) as [b Hb]; [by left|by rewrite Ea|].
  rewrite fs_read_spec, Hb by done. simpl. rewrite IH. by eexists.
Qed.

(** ** Enrolling a newcomer *)

(** The host: an active admin of a founded vault, with its logs intact and the peer set it would rebuild.  [es] are the
    roster entries it believes. *)
Record ready_host s seeds universe lines own klines kown es : Prop := {
  rh_roster : roster_state pick fuel s seeds universe lines own;
  rh_fuel : S (size universe) < fuel;
  rh_entries : collect_roster_entries pick fuel (root s) (me s) (mykey s) (founder s) (fs s) = Ok es;
  rh_clocks x : x ∈ es → is_u64 (lamport x);
  rh_fresh : peers s = merge_roster es (founder s);
  rh_founded : is_Some (founder s);
  rh_admin : ∃ q, find_peer s (me s) = Some q ∧ status q = Active ∧ role q = Admin;
  rh_keylog : fs_path (keylog_file (root s) (me s)) ∧ log_holds (fs s) (keylog_file (root s) (me s)) klines ∧
    key_read_verified (own_keylog s) (mykey s) (fs s) = Ok kown;
  rh_keylogs x : x ∈ es → subject_peer x ≠ me s →
    is_ok (key_read_verified (KeyLog_new (keylog_dir (root s)) (subject_peer x)) (subject_key x) (fs s)) = true;
  rh_flat : flat_rosters (root s) (fs s);
}.

(** After the newcomer was added, what remains of the enrolment succeeds. *)
Lemma hand_over_ok s s1 m wraps k0 e0 lines own :
  m = me s → m = me s1 → root s1 = root s → mykey s1 = mykey s → fs_inv (fs s) →
  touched (root s) [cache_path (root s); cache_tmp (root s); roster_file (root s) m] (fs s) (fs s1) →
  fs_path (keylog_file (root s) m) → log_holds (fs s) (keylog_file (root s) m) lines →
  key_read_verified (own_keylog s) (mykey s) (fs s) = Ok own → flat_rosters (root s) (fs s) →
  (∀ q, q ∈ peers s1 → peer_id q ≠ m →
    is_ok (key_read_verified (KeyLog_new (keylog_dir (root s)) (peer_id q)) (verifying_key q) (fs s)) = true) →
  ∃ n s2 rosters kl, backfill_wraps wraps k0 e0 s1 = (Ok n, s2) ∧ export_all_rosters s2 = Ok rosters ∧ export_own_keylog s2 = Ok kl ∧
    same_but_fs s1 s2.
Proof.
  intros Hm Hm1 Hr Hk Hi T1 Hp Hh Hown Hflat Hq.
  assert (own_keylog s1 = own_keylog s) as Hlog.
  { unfold own_keylog. change (id_peer (identity s1)) with (me s1). by rewrite Hr, <-Hm1, Hm. }
  assert (∀ a k, key_read_verified (KeyLog_new (keylog_dir (root s)) a) k (fs s1) =
    key_read_verified (KeyLog_new (keylog_dir (root s)) a) k (fs s)) as Hrd.
  { intros a k. apply key_read_files; [done|apply T1|by eapply keylogs_untouched]. }
  assert (key_read_verified (own_keylog s1) (mykey s1) (fs s1) = Ok own) as Hown1.
  { rewrite Hlog, Hk, <-Hown. apply Hrd. }
  destruct (keychain_ok s1 k0 e0 own Hown1) as (kc&Ekc&Htg).
  { intros q Hin Hne. rewrite Hr, Hrd. apply Hq; [done|]. by rewrite Hm1. }
  destruct (publish_ok wraps 0 (backfill_targets kc (peers s1)) s1 lines own) as (n&s2&E2&Hs2&T2); try done.
  { apply T1. } { by rewrite Hr, <-Hm1. }
  { rewrite Hr, <-Hm1. unfold log_holds. by rewrite (keylogs_untouched (root s) m (fs s)). }
  pose proof Hs2 as (Hr2&_). destruct (export_ok s2) as [rosters Ero].
  { apply T2. }
  { rewrite Hr2, Hr in *. eapply (flat_touched _ m); [|exact T2|].
    - rewrite <-Hm1. set_solver.
    - eapply (flat_touched _ m); [|exact T1|exact Hflat]. set_solver. }
  assert (∃ kl, export_own_keylog s2 = Ok kl) as [kl Ekl].
  { unfold export_own_keylog, export_keylog, read_or_empty. rewrite fs_read_spec by apply T2. destruct (files (fs s2) !! _); by eexists. }
  exists n, s2, rosters, kl. split_and!; try done. unfold backfill_wraps, mbind, SM_bind, sm_get, sm_lift. by rewrite Ekc.
Qed.

Lemma enrol_succeeds s seeds universe lines own klines kown es wraps id vault vkey r key p :
  ready_host s seeds universe lines own klines kown es → newcomer s seeds p key →
  (∀ x, x ∈ es → subject_peer x ≠ p) → files (fs s) !! keylog_file (root s) p = None →
  ∃ accept s', enrol_joiner pick fuel wraps id vault vkey r key p s = (Ok accept, s') ∧
    ja_vault accept = vault ∧ ja_vault_key accept = vkey ∧ Some (ja_founder accept) = founder s ∧
    ∃ q, find_peer s' p = Some q ∧ status q = Active ∧ role q = r ∧ verifying_key q = key.
Proof.
  intros [Hs Hfuel Hes Hu Hps [fd Hfd] (qa&Hqa&Hact&Hadm) (Hkp&Hkh&Hkr) Hkl Hflat] Hn Hno Hpk.
  pose proof (rs_inv _ _ _ _ _ _ _ Hs) as Hi.
  assert (require_admin s = Ok tt) as Hreq.
  { unfold require_admin. unfold me in Hqa. by rewrite Hqa, !bool_decide_eq_true_2. }
  destruct (add_new_ok pick fuel s seeds universe lines own es p key r Hs Hfuel Hn Hreq Hes Hno)
    as (es'&s1&E1&Hps1&Heq&Hr1&Hi1&Hf1&T1).
  set (e := mkRosterEntry _ _ _ _ _ _) in Heq.
  assert (qa ∈ merge_roster es (founder s) ∧ peer_id qa = me s) as [Hqin Hqme].
  { unfold find_peer in Hqa. rewrite Hps in Hqa. apply head_Some_elem_of, list_elem_of_filter in Hqa. naive_solver. }
  destruct (newcomer_record es e (founder s) r) as (q&Hq&Hqp&Hqr&Hqs&Hqk); try done.
  { apply Hn. } { change (added_by e) with (me s). rewrite <-Hqme. by apply admin_trusted. }
  destruct (find_merged s1 (e :: es) es' (founder s) q Hps1 Heq Hq) as (q'&Hfind&Hqq).
  destruct (hand_over_ok s s1 (me s) wraps (vault_subkeys vkey).1 (vault_subkeys vkey).2 klines kown)
    as (n&s2&rosters&kl&Eb&Ero&Ekl&(_&_&_&_&Hp2&_)); try done.
  { unfold me. by rewrite Hi1. } { unfold mykey. by rewrite Hi1. }
  { intros x Hx Hxm. rewrite Hps1 in Hx. apply elem_of_merge_roster in Hx as (_&_&[(y&Hy&Hys&Hyk) _]&_).
    rewrite <-Hys in Hxm |- *. rewrite <-Hyk. apply elem_of_authored in Hy as (Hy&_).
    apply Heq, elem_of_cons in Hy as [->|Hy]; [|by apply Hkl].
    cbn [subject_peer subject_key e]. unfold key_read_verified, read_verified, fs_read_to_string. rewrite fs_read_spec by done.
    change (kl_path _) with (keylog_file (root s) p). by rewrite Hpk. }
  exists (mkJoinAccept vault vkey rosters (id_peer id) kl fd), s2. split.
  - unfold enrol_joiner, mbind at 1, SM_bind at 1, sm_get at 1. rewrite Hfd. unfold mbind at 1, SM_bind at 1, sm_map_err at 1. rewrite E1.
    cbn [fst snd map_err]. destruct (vault_subkeys vkey) as [k0 e0]. cbn [fst snd] in Eb.
    unfold mbind at 1, SM_bind at 1, sm_map_err at 1. rewrite Eb. cbn [fst snd map_err].
    unfold mbind, SM_bind, sm_get, sm_lift. rewrite Ero. cbn [map_err]. by rewrite Ekl.
  - split_and!; [done..|by rewrite Hfd|]. exists q'.
    pose proof (f_equal status Hqq) as Q1. pose proof (f_equal role Hqq) as Q2. pose proof (f_equal verifying_key Hqq) as Q3.
    simpl in Q1, Q2, Q3. rewrite Q1, Q2, Q3. split_and!; try done. unfold find_peer in *. rewrite Hp2. by rewrite <-Hfind, Hqp.
Qed.

(** The host can enrol the device [p]: it is ready, and nothing on its disk is about [p]. *)
Definition can_enrol s (p : u64) (key : bytes) : Prop :=
  ∃ seeds universe lines own klines kown es, ready_host s seeds universe lines own klines kown es ∧ newcomer s seeds p key ∧
    (∀ x, x ∈ es → subject_peer x ≠ p) ∧ files (fs s) !! keylog_file (root s) p = None.
(** [p] is an active member with this role and key. *)
Definition member s (p : u64) (r : Role) (key : bytes) : Prop :=
  ∃ q, find_peer s p = Some q ∧ status q = Active ∧ role q = r ∧ verifying_key q = key.
Lemma can_enrol_ok s wraps id vault vkey r key p :
  can_enrol s p key →
  ∃ accept s', enrol_joiner pick fuel wraps id vault vkey r key p s = (Ok accept, s') ∧
    ja_vault accept = vault ∧ ja_vault_key accept = vkey ∧ Some (ja_founder accept) = founder s ∧ member s' p r key.
Proof. intros (seeds&universe&lines&own&klines&kown&es&Hh&Hn&Hno&Hk). by eapply enrol_succeeds. Qed.
End enrol.
