(* ===== verification/PairingSpec.v ===== *)
(** * What pairing guarantees

    The budget of guesses over any sequence of calls, the channel that opens messages
    only in order, and the host's loop over any mailbox: nobody is enrolled without a
    confirmation that matches, and only a wrong confirmation costs an attempt. *)
From S2P Require Import Prelude RustStr Vfs Roster Wire Logs Keychain Blob Trust Store StoreRoster StoreSync.
From S2P Require Import StoreKeys Checkpoint Paths Snapshots Relay Pairing.

(** ** The budget *)
Section budget.
Context `{Spake2, ChaCha, Crypto, KeyedHash}.

(** What can be asked of a responder, in any order and from any number of peers. *)
Inductive GuessOp :=
  | Begin (rng initiator_id msg1 : bytes)
  | Guess (p : PendingResponder) (confirm : bytes).
Definition outcome {A} (r : result PakeError A) : option PakeError := match r with Ok _ => None | Err e => Some e end.
Definition guess_step (op : GuessOp) (r : Responder) : option PakeError * Responder :=
  match op with
  | Begin rng id msg1 => (outcome (respond rng r id msg1), r)
  | Guess p c => let '(x, r') := responder_verify r p c in (outcome x, r')
  end.
Fixpoint run_guesses (ops : list GuessOp) (r : Responder) : list (option PakeError) * Responder :=
  match ops with
  | [] => ([], r)
  | op :: ops => let '(o, r') := guess_step op r in let '(os, r'') := run_guesses ops r' in (o :: os, r'')
  end.
Definition wrong_guesses (os : list (option PakeError)) : nat := length (filter (λ o, o = Some BadCode) os).

Lemma guess_step_budget op r o r' :
  guess_step op r = (o, r') →
  attempts_left r' + wrong_guesses [o] = attempts_left r ∧ (attempts_left r = 0 → o = Some NoAttemptsLeft).
Proof.
  destruct op as [rng id msg1|p c]; simpl.
  - intros [= <- <-]. unfold respond. case_decide; [done|]. destruct (spake_start_b _ _ _ _) as [st msg2].
    by destruct (spake_finish st msg1).
  - unfold responder_verify. case_decide as Ha; [by intros [= <- <-]|].
    destruct (macs_match _ _); intros [= <- <-]; simpl; [done|]. unfold wrong_guesses.
    rewrite filter_cons_True by done. simpl. lia.
Qed.
Lemma wrong_guesses_cons o os : wrong_guesses (o :: os) = wrong_guesses [o] + wrong_guesses os.
Proof. unfold wrong_guesses. rewrite !filter_cons. by case_decide. Qed.
Lemma run_guesses_budget ops r :
  let '(os, r') := run_guesses ops r in
  attempts_left r' + wrong_guesses os = attempts_left r ∧
  ∀ i o, os !! i = Some o → wrong_guesses (take i os) = attempts_left r → o = Some NoAttemptsLeft.
Proof.
  revert r. induction ops as [|op ops IH]; intros r; simpl; [split; [unfold wrong_guesses; simpl; lia|done]|].
  destruct (guess_step op r) as [o r1] eqn:E. specialize (IH r1). destruct (run_guesses ops r1) as [os r2].
  apply guess_step_budget in E as [E1 E2]. destruct IH as [I1 I2]. split; [rewrite wrong_guesses_cons; lia|].
  intros [|i] o' Hi; simpl in Hi |- *.
  - injection Hi as <-. unfold wrong_guesses. simpl. intros Hz. by apply E2.
  - rewrite wrong_guesses_cons. intros Hw. apply (I2 i o' Hi). lia.
Qed.

(** A code allows three guesses, however they are made: over any sequence of runs begun
    and confirmations checked, by any number of peers, interleaved in any way, the wrong
    confirmations are charged one each and nothing else is, at most MAX_ATTEMPTS of them are ever
    answered as wrong, and once they are spent every later call, a right confirmation
    included, is refused. *)
Theorem guess_budget ops code id :
  let '(os, r') := run_guesses ops (responder_new code id) in
  attempts_left r' + wrong_guesses os = MAX_ATTEMPTS ∧ wrong_guesses os ≤ MAX_ATTEMPTS ∧
  ∀ i o, os !! i = Some o → wrong_guesses (take i os) = MAX_ATTEMPTS → o = Some NoAttemptsLeft.
Proof.
  pose proof (run_guesses_budget ops (responder_new code id)) as Hr.
  destruct (run_guesses ops (responder_new code id)) as [os r']. destruct Hr as [H1' H2']. split; [done|]. split; [|done].
  change (attempts_left (responder_new code id)) with MAX_ATTEMPTS in H1'. lia.
Qed.
End budget.

(** ** The channel *)
Section channel.
Context `{ChaChaLaws, Crypto, KeyedHash}.

Fixpoint seal_all (c : Channel) (ps : list bytes) : option (list bytes) :=
  match ps with
  | [] => Some []
  | p :: ps => x ← ch_seal c p; cts ← seal_all x.2 ps; Some (x.1 :: cts)
  end.
Fixpoint open_all (c : Channel) (cts : list bytes) : option (list (option bytes)) :=
  match cts with
  | [] => Some []
  | ct :: cts =>
      x ← ch_open c ct;
      match x with
      | Ok (p, c') => ps ← open_all c' cts; Some (Some p :: ps)
      | Err _ => ps ← open_all c cts; Some (None :: ps)
      end
  end.
Lemma nonce_len c : length (nonce_for c) = 12.
Proof. unfold nonce_for. by rewrite length_app, length_le_bytes. Qed.
Lemma nonce_inj c c' : is_u64 c → is_u64 c' → nonce_for c = nonce_for c' → c = c'.
Proof. intros Hc Hc' E. apply app_inj_1 in E as [E _]; [by apply u64_le_bytes_inj|by rewrite !length_le_bytes]. Qed.

Lemma seal_all_spec k n ps cts :
  seal_all (mkChannel k n) ps = Some cts →
  length cts = length ps ∧ ∀ j p, ps !! j = Some p →
    is_u64 (n + N.of_nat j + 1) ∧ cts !! j = Some (chacha_seal k (nonce_for (n + N.of_nat j)) p).
Proof.
  revert n cts. induction ps as [|p ps IH]; intros n cts; simpl; [by intros [= <-]|].
  unfold ch_seal, next_counter. simpl. case_decide as Hn; [|done]. simpl.
  destruct (seal_all (mkChannel k (n + 1)) ps) as [rest|] eqn:E; [|done]. intros [= <-].
  destruct (IH _ _ E) as [Hl Hj]. split; [simpl; by rewrite Hl|]. intros [|j] q; simpl.
  - intros [= <-]. by rewrite N.add_0_r.
  - intros Hq. destruct (Hj j q Hq) as [H1' H2']. replace (n + N.of_nat (S j))%N with (n + 1 + N.of_nat j)%N by lia. done.
Qed.

Section delivery.
Context (k : bytes) (ps cts : list bytes).
Hypothesis Hseal : seal_all (mkChannel k 0) ps = Some cts.
Lemma sealed_at j ct : cts !! j = Some ct →
  ∃ p, ps !! j = Some p ∧ is_u64 (N.of_nat j + 1) ∧ ct = chacha_seal k (nonce_for (N.of_nat j)) p.
Proof.
  destruct (seal_all_spec _ _ _ _ Hseal) as [Hl Hj]. intros Hct. pose proof (lookup_lt_Some _ _ _ Hct) as Hlt.
  rewrite Hl in Hlt. apply lookup_lt_is_Some in Hlt as [p Hp]. exists p. destruct (Hj j p Hp) as [Hu Hc].
  rewrite N.add_0_l in Hu, Hc. split_and!; [done|done|congruence].
Qed.
(** Of the sealed messages the opener takes the next one and refuses every other. *)
Lemma open_one i j ct : i ≤ length ps → cts !! j = Some ct →
  ch_open (mkChannel k (N.of_nat i)) ct =
    if decide (i = j) then p ← ps !! j; Some (Ok (p, mkChannel k (N.of_nat (S i)))) else Some (Err UndecryptablePayload).
Proof.
  intros Hi Hct. destruct (sealed_at j ct Hct) as (p&Hp&Hu&->). unfold ch_open. simpl. case_decide as Hij.
  - subst j. rewrite chacha_open_seal, Hp. simpl. unfold next_counter. rewrite decide_True by done. simpl.
    replace (N.of_nat i + 1)%N with (N.of_nat (S i)) by lia. done.
  - rewrite chacha_bound; [done|apply nonce_len..|]. intros E. apply nonce_inj in E; [lia| |].
    + unfold is_u64 in *. lia.
    + destruct (decide (i = 0)) as [->|]; [done|].
      assert (is_Some (cts !! (i - 1))) as [ct' Hct'].
      { apply lookup_lt_is_Some. destruct (seal_all_spec _ _ _ _ Hseal) as [-> _]. lia. }
      destruct (sealed_at _ _ Hct') as (_&_&Hu'&_). replace (N.of_nat i) with (N.of_nat (i - 1) + 1)%N by lia. done.
Qed.
Lemma open_delivered i arrived :
  i ≤ length ps → (∀ ct, ct ∈ arrived → ct ∈ cts) →
  ∃ outs, open_all (mkChannel k (N.of_nat i)) arrived = Some outs ∧ omap id outs `prefix_of` drop i ps.
Proof.
  revert i. induction arrived as [|ct arrived IH]; intros i Hi Hin; simpl; [exists []; split; [done|apply prefix_nil]|].
  assert (ct ∈ cts) as [j Hj]%list_elem_of_lookup by (apply Hin; set_solver).
  rewrite (open_one i j ct Hi Hj). case_decide as Hij.
  - subst j. destruct (sealed_at i ct Hj) as (p&Hp&_). rewrite Hp. simpl. pose proof (lookup_lt_Some _ _ _ Hp).
    destruct (IH (S i)) as (outs&E&Hpre); [lia|set_solver|]. rewrite E. simpl. exists (Some p :: outs). split; [done|].
    simpl. rewrite (drop_S ps p i Hp). by apply prefix_cons.
  - simpl. destruct (IH i) as (outs&E&Hpre); [done|set_solver|]. rewrite E. simpl. exists (None :: outs). done.
Qed.
End delivery.

(** A sealed channel delivers in order or not at all: of the messages one side sealed,
    however the carrier drops, repeats and reorders them, the other side opens a prefix, in
    the order they were sealed, and refuses the rest; delivered as they were sealed, all
    open. *)
Theorem channel_in_order k ps cts arrived :
  seal_all (mkChannel k 0) ps = Some cts → (∀ ct, ct ∈ arrived → ct ∈ cts) →
  (∃ outs, open_all (mkChannel k 0) arrived = Some outs ∧ omap id outs `prefix_of` ps) ∧
  open_all (mkChannel k 0) cts = Some (Some <$> ps).
Proof.
  intros Hseal Hin. split; [exact (open_delivered k ps cts Hseal 0 arrived (Nat.le_0_l _) Hin)|].
  enough (∀ i, i ≤ length ps → open_all (mkChannel k (N.of_nat i)) (drop i cts) = Some (Some <$> drop i ps)) as Hall
    by (apply (Hall 0); lia).
  destruct (seal_all_spec _ _ _ _ Hseal) as [Hl _].
  enough (∀ n i, n = length ps - i → i ≤ length ps →
    open_all (mkChannel k (N.of_nat i)) (drop i cts) = Some (Some <$> drop i ps)) by eauto.
  induction n as [|n IH]; intros i Hn Hi.
  - rewrite !drop_ge by lia. done.
  - assert (is_Some (cts !! i)) as [ct Hct] by (apply lookup_lt_is_Some; lia).
    destruct (sealed_at k ps cts Hseal i ct Hct) as (p&Hp&_).
    rewrite (drop_S cts ct i Hct), (drop_S ps p i Hp). cbn [open_all].
    rewrite (open_one k ps cts Hseal i i ct Hi Hct), decide_True, Hp by done. cbn [mbind option_bind].
    rewrite IH by lia. done.
Qed.
End channel.

(** ** The host's loop, over any mailbox

    A mailbox that also keeps a log of what was read from it; the host, like any client,
    runs on it as on the mailbox itself. *)
Record Traced (W : Type) := mkTraced { tr_world : W; tr_log : list (rstring * Slot * bytes) }.
Arguments mkTraced {W} _ _.
Arguments tr_world {W} _.
Arguments tr_log {W} _.
Definition untraced {W E A} (m : SM W E A) : SM (Traced W) E A := λ t,
  let '(r, w) := m (tr_world t) in (r, mkTraced w (tr_log t)).
Definition traced_get `{Mailbox W} (session : rstring) (slot : Slot) : SM (Traced W) PairError (option bytes) := λ t,
  let '(r, w) := mx_get session slot (tr_world t) in
  (r, mkTraced w (match r with Ok (Some b) => tr_log t ++ [(session, slot, b)] | _ => tr_log t end)).
#[global] Instance Traced_mailbox `{Mailbox W} : Mailbox (Traced W) :=
  {| mx_put se sl b := untraced (mx_put se sl b); mx_get := traced_get; mx_sessions := untraced mx_sessions;
     now_ms t := now_ms (tr_world t); sleep d t := mkTraced (sleep d (tr_world t)) (tr_log t) |}.

Section host.
Context `{Ed25519, Crypto, EdX, B64, B64Url, KeyedHash, Spake2, ChaCha}.
Context `{JsonOf RosterLine, JsonOf (list PeerRecord), JsonOf KeyLine, JsonOf MailboxJoinRequest, JsonOf JoinAccept}.
Context {Fs Doc Ver W : Type} `{VaultFs Fs, Mailbox W}.
Variable pick : gset u64 → option u64.
Variable fuel : nat.
Abbreviation Host := (MailboxHost (Fs := Fs) (Doc := Doc) (Ver := Ver) (W := Traced W)).
Implicit Types h : Host.
(** The code that is shown, the host's key, and the randomness of the sessions. *)
Context (code : PairingCode) (rid : bytes) (rng : HostRng).

(** The confirmation the host expects of a session. *)
Definition expected (n : nat) (session : rstring) (msg1 : bytes) : option bytes :=
  match decode_session_id session with
  | Err _ => None
  | Ok id => match respond (hr_spake rng n) (responder_new code rid) id msg1 with
             | Ok (p, _) => Some (pr_expected p)
             | Err _ => None
             end
  end.
(** What the host has read so far. *)
Definition was_read (h : Host) (session : rstring) (slot : Slot) (body : bytes) : Prop :=
  (session, slot, body) ∈ tr_log (mh_world h).
Definition proof_seen (h : Host) : Prop :=
  ∃ n session msg1 c, was_read h session Msg1 msg1 ∧ was_read h session ConfirmJoiner c ∧ expected n session msg1 = Some c.
Definition wrong_seen (h : Host) (x : nat * rstring * bytes * bytes) : Prop :=
  let '(n, session, msg1, c) := x in
  was_read h session Msg1 msg1 ∧ was_read h session ConfirmJoiner c ∧ length c = 32 ∧
  ∃ e, expected n session msg1 = Some e ∧ c ≠ e.

Definition shows h : Prop := re_code (mh_responder h) = code ∧ re_responder_id (mh_responder h) = rid.
Definition later h h' : Prop := tr_log (mh_world h) ⊆ tr_log (mh_world h').
#[local] Instance later_preorder : PreOrder later.
Proof. split; [intros h x; done|intros h1 h2 h3 Ha Hb x Hx; by apply Hb, Ha]. Qed.
Definition stable (P : Host → Prop) : Prop := ∀ h h', later h h' → P h → P h'.
Lemma stable_read se sl b : stable (λ h, was_read h se sl b).
Proof. intros h h' Hl. unfold was_read. by apply Hl. Qed.
Lemma stable_proof : stable proof_seen.
Proof. intros h h' Hl (n&se&m&c&H1'&H2'&H3'). exists n, se, m, c. split_and!; [by apply Hl|by apply Hl|done]. Qed.
Lemma wrong_later h h' x : later h h' → wrong_seen h x → wrong_seen h' x.
Proof. destruct x as [[[n se] m] c]. intros Hl (?&?&?&?). split_and!; [by apply Hl|by apply Hl|done|done]. Qed.

(** What a part of the loop may do to the host. *)
Definition guarded h h' : Prop :=
  later h h' ∧ ∃ wrongs, attempts_left (mh_responder h) = length wrongs + attempts_left (mh_responder h') ∧
    Forall (wrong_seen h') wrongs ∧ (mh_store h' = mh_store h ∨ proof_seen h').
#[local] Instance guarded_preorder : PreOrder guarded.
Proof.
  split.
  - intros h. split; [reflexivity|]. exists []. split_and!; [done|constructor|by left].
  - intros h1 h2 h3 (L1&w1&E1&F1&S1) (L2&w2&E2&F2&S2). split; [by etrans|]. exists (w1 ++ w2).
    rewrite length_app. split_and!; [lia| |].
    + apply Forall_app. split; [|done]. eapply Forall_impl; [exact F1|]. intros x. by apply wrong_later.
    + destruct S2 as [S2|]; [|by right]. destruct S1 as [S1|S1]; [left; congruence|].
      right. by eapply stable_proof.
Qed.
Lemma guarded_same h h' :
  later h h' → mh_responder h' = mh_responder h → mh_store h' = mh_store h → guarded h h'.
Proof. intros Hl Hr Hs. split; [done|]. exists []. rewrite Hr. split_and!; [done|constructor|by left]. Qed.

(** From a host in [Q], a part of the loop is guarded, and if it succeeds ends in [R]. *)
Definition triple {A} (Q : Host → Prop) (m : SM Host PairError A) (R : A → Host → Prop) : Prop :=
  ∀ h x h', shows h → Q h → m h = (x, h') → shows h' ∧ guarded h h' ∧ ∀ a, x = Ok a → R a h'.

Lemma triple_bind {A B} Q (R : A → Host → Prop) (T : B → Host → Prop) (m : SM Host PairError A) (k : A → SM Host PairError B) :
  triple Q m R → (∀ a, triple (R a) (k a) T) → triple Q (m ≫= k) T.
Proof.
  intros Hm Hk h x h' Hs Hq. unfold mbind, SM_bind. destruct (m h) as [[a|e] h1] eqn:E; intros Hrun.
  - destruct (Hm _ _ _ Hs Hq E) as (Hs1&G1&Hr). destruct (Hk _ _ _ _ Hs1 (Hr _ eq_refl) Hrun) as (Hs2&G2&Ht).
    split_and!; [done| |done]. by etrans.
  - injection Hrun as <- <-. destruct (Hm _ _ _ Hs Hq E) as (Hs1&G1&_). by split_and!.
Qed.
Lemma triple_stable {A} (Q : Host → Prop) (m : SM Host PairError A) :
  stable Q → triple Q m (λ _ _, True) → triple Q m (λ _, Q).
Proof.
  intros Hq Hm h x h' Hs Hh Hrun. destruct (Hm _ _ _ Hs Hh Hrun) as (?&[Hl ?]&_). split_and!; [done|by split|].
  intros a _. by eapply Hq.
Qed.
Lemma triple_pre {A} (Q Q' : Host → Prop) (m : SM Host PairError A) R : (∀ h, Q h → Q' h) → triple Q' m R → triple Q m R.
Proof. intros Hq Hm h x h' Hs Hh. by apply Hm, Hq. Qed.
Lemma triple_post {A} Q (m : SM Host PairError A) (R R' : A → Host → Prop) :
  (∀ a h, R a h → R' a h) → triple Q m R → triple Q m R'.
Proof. intros Hr Hm h x h' Hs Hh Hrun. destruct (Hm _ _ _ Hs Hh Hrun) as (?&?&Hx). split_and!; [done..|]. intros a Ha. by apply Hr, Hx. Qed.
Lemma triple_ret {A} (a : A) (Q : A → Host → Prop) : triple (Q a) (mret a) Q.
Proof. intros h x h' Hs Hq [= <- <-]. split_and!; [done|reflexivity|]. by intros b [= <-]. Qed.
Lemma triple_done {A} (a : A) Q : triple Q (mret a) (λ _ _, True).
Proof. intros h x h' Hs Hq [= <- <-]. split_and!; [done|reflexivity|done]. Qed.
Lemma triple_fail {A} e Q (R : A → Host → Prop) : triple Q (sm_fail e) R.
Proof. intros h x h' Hs Hq [= <- <-]. split_and!; [done|reflexivity|done]. Qed.
Lemma triple_lift {A} (r : result PairError A) Q : triple Q (sm_lift r) (λ a h, r = Ok a ∧ Q h).
Proof. intros h x h' Hs Hq [= <- <-]. split_and!; [done|reflexivity|done]. Qed.
Lemma triple_get {B} (Q : Host → Prop) (k : Host → SM Host PairError B) T :
  (∀ h, triple (λ h', h' = h ∧ shows h ∧ Q h) (k h) T) → triple Q (sm_get ≫= k) T.
Proof. intros Hk. intros h x h' Hs Hq Hrun. by apply (Hk h h x h' Hs). Qed.

(** *** Calls on the mailbox *)
Definition grows {A} (m : SM (Traced W) PairError A) : Prop := ∀ t, tr_log t ⊆ tr_log (m t).2.
Lemma grows_untraced {A} (m : SM W PairError A) : grows (untraced m).
Proof. intros t. unfold untraced. by destruct (m (tr_world t)). Qed.
Lemma grows_get se sl : grows (mx_get se sl).
Proof. intros t. simpl. unfold traced_get. destruct (mx_get se sl (tr_world t)) as [[[b|]|e] w]; set_solver. Qed.
Lemma grows_bind {A B} (m : SM (Traced W) PairError A) (k : A → SM (Traced W) PairError B) :
  grows m → (∀ a, grows (k a)) → grows (m ≫= k).
Proof.
  intros Hm Hk t. unfold mbind, SM_bind. specialize (Hm t). destruct (m t) as [[a|e] t1]; [|done].
  etrans; [exact Hm|apply Hk].
Qed.
Lemma triple_world {A} Q (m : SM (Traced W) PairError A) : grows m → triple Q (in_world m) (λ _ _, True).
Proof.
  intros Hm h x h' Hs _. unfold in_world. specialize (Hm (mh_world h)). destruct (m (mh_world h)) as [r w].
  intros [= <- <-]. split_and!; [done| |done]. by apply guarded_same.
Qed.
Lemma triple_get_slot Q session slot :
  triple Q (in_world (mx_get session slot)) (λ x h, ∀ b, x = Some b → was_read h session slot b).
Proof.
  intros h x h' Hs _ Hrun. pose proof (grows_get session slot (mh_world h)) as Hg. revert Hrun Hg.
  unfold in_world. simpl. unfold traced_get. destruct (mx_get session slot (tr_world (mh_world h))) as [r w]. simpl.
  intros [= <- <-] Hg. split_and!; [done|by apply guarded_same|]. intros a -> b ->. unfold was_read. simpl. set_solver.
Qed.
Lemma await_reads polls session slot deadline poll : ∀ (t t' : Traced W) b,
  await_loop polls session slot deadline poll t = (Ok b, t') → (session, slot, b) ∈ tr_log t'.
Proof.
  induction polls as [|n IH]; intros t t' b; [done|]. cbn [await_loop]. unfold mbind at 1, SM_bind at 1.
  simpl mx_get. unfold traced_get at 1.
  destruct (mx_get session slot (tr_world t)) as [[[body|]|e] w1]; [|clear -IH|done].
  - intros [= <- <-]. simpl. set_solver.
  - unfold mbind at 1, SM_bind at 1, sm_get. destruct (past _ _); [done|]. apply IH.
Qed.
Lemma grows_await polls session slot deadline poll : grows (await_loop polls session slot deadline poll).
Proof.
  induction polls as [|n IH]; [by intros t ?|]. cbn [await_loop]. apply grows_bind; [apply grows_get|].
  intros [b|]; [by intros t ?|]. apply grows_bind; [by intros t ?|intros t]. destruct (past _ _); [by intros ? ?|].
  apply grows_bind; [by intros ? ?|done].
Qed.
Lemma triple_read Q polls session slot : triple Q (host_read polls session slot) (λ b h, was_read h session slot b).
Proof.
  apply triple_get. intros h0 h x h' Hs _. unfold in_world, await_slot, mbind, SM_bind, sm_get.
  pose proof (grows_await polls session slot (deadline_from_now (step_timeout h0) (mh_world h)) (poll_interval h0) (mh_world h)) as Hg.
  destruct (await_loop _ _ _ _ _ _) as [r w] eqn:E. intros [= <- <-]. split_and!; [done|by apply guarded_same|].
  intros b ->. by eapply await_reads.
Qed.
Lemma triple_write Q session slot body : triple Q (host_write session slot body) (λ _ _, True).
Proof.
  eapply triple_bind; [apply triple_world, grows_untraced|]. intros []; [apply triple_done|apply triple_fail].
Qed.

(** *** One session *)
Section session.
Context (n : nat) (session : rstring) (msg1 : bytes).
Abbreviation opened := (λ h, was_read h session Msg1 msg1).
Definition pending_here (p : PendingResponder) (h : Host) : Prop :=
  opened h ∧ expected n session msg1 = Some (pr_expected p).
Lemma stable_pending p : stable (pending_here p).
Proof. intros h h' Hl [Ho He]. split; [|done]. by eapply stable_read. Qed.

Lemma respond_shown rng0 h id x :
  shows h → respond rng0 (mh_responder h) id msg1 = Ok x → respond rng0 (responder_new code rid) id msg1 = Ok x.
Proof. intros [Hc Hr]. unfold respond. case_decide; [done|]. rewrite Hc, Hr. done. Qed.
Lemma triple_msg1 : triple opened (serve_msg1 (hr_spake rng n) session msg1) pending_here.
Proof.
  eapply triple_bind; [apply triple_lift|]. intros id. apply triple_get. intros h.
  eapply triple_bind; [apply triple_lift|]. intros x.
  eapply (triple_bind _ (λ _, pending_here x.1)); [|intros _; apply (triple_ret x.1 pending_here)].
  apply (triple_pre _ (pending_here x.1)); [|apply triple_stable; [apply stable_pending|apply triple_write]].
  intros h' (Hx&->&Hs&Hid&Ho). split; [done|]. unfold expected. rewrite Hid.
  destruct (respond _ (mh_responder h) id msg1) as [y|] eqn:Er; [|done]. injection Hx as ->.
  apply respond_shown in Er; [|done]. rewrite Er. by destruct x.
Qed.

Lemma triple_verify p c :
  length c = 32 →
  triple (λ h, pending_here p h ∧ was_read h session ConfirmJoiner c) (host_verify p c) (λ _, proof_seen).
Proof.
  intros Hl h x h' Hs [[Ho He] Hr]. unfold host_verify, responder_verify. case_decide as Ha.
  { intros [= <- <-]. split_and!; [done| |done]. apply guarded_same; [by intros ?|done|done]. }
  unfold macs_match. destruct (bool_decide (pr_expected p = c)) eqn:Em; intros [= <- <-]; (split_and!; [done| |]).
  - apply guarded_same; [by intros ?|done|done].
  - intros y _. apply bool_decide_eq_true in Em. exists n, session, msg1, c. by subst c.
  - split; [by intros ?|]. apply bool_decide_eq_false in Em. exists [(n, session, msg1, c)]. split_and!; [simpl; lia| |by left].
    constructor; [|constructor]. split_and!; [done..|]. exists (pr_expected p). split; [done|]. by intros ->.
  - done.
Qed.
Lemma as_confirm_ok b c : as_confirm b = Ok c → c = b ∧ length c = 32.
Proof. unfold as_confirm. case_decide; [by intros [= <-]|done]. Qed.
Lemma triple_confirm p b :
  triple (λ h, pending_here p h ∧ was_read h session ConfirmJoiner b) (serve_confirm session p b) (λ _, proof_seen).
Proof.
  eapply triple_bind; [apply triple_lift|]. intros c.
  eapply triple_bind.
  - intros h x h' Hs [[-> Hl]%as_confirm_ok Hq]. by apply triple_verify.
  - intros x. eapply (triple_bind _ (λ _, proof_seen)); [apply triple_stable; [apply stable_proof|apply triple_write]|].
    intros _. apply (triple_ret x.1 (λ _, proof_seen)).
Qed.
End session.

(** Once a proof was seen, the store may change. *)
Lemma triple_enrolled {A} (m : SM (Store Fs Doc Ver) PairError A) : triple proof_seen (in_host_store m) (λ _, proof_seen).
Proof.
  intros h x h' Hs Hp. unfold in_host_store. destruct (m (mh_store h)) as [r s]. intros [= <- <-]. split_and!; [done| |done].
  split; [by intros ?|]. exists []. split_and!; [done|constructor|by right].
Qed.
Lemma triple_request wraps session key body :
  triple proof_seen (serve_request pick fuel wraps session key body) (λ _, proof_seen).
Proof.
  assert (∀ A (r : result PairError A), triple proof_seen (sm_lift r) (λ _, proof_seen)) as Hlift
    by (intros A r; eapply triple_post, triple_lift; by intros a h []).
  unfold serve_request. destruct (key_split key SResponder) as [sealer opener].
  eapply triple_bind; [apply Hlift|intros o]. eapply triple_bind; [apply Hlift|intros x].
  eapply triple_bind; [apply Hlift|intros q]. apply triple_get. intros h. apply (triple_pre _ proof_seen); [by intros h' (->&_&?)|].
  eapply triple_bind; [apply triple_enrolled|intros acc]. eapply triple_bind; [apply Hlift|intros sealed].
  eapply (triple_bind _ (λ _, proof_seen)); [apply triple_stable; [apply stable_proof|apply triple_write]|].
  intros _. apply (triple_ret _ (λ _, proof_seen)).
Qed.
Lemma triple_serve polls n wraps session msg1 :
  triple (λ h, was_read h session Msg1 msg1) (serve pick fuel polls (hr_spake rng n) wraps session msg1) (λ _, proof_seen).
Proof.
  eapply triple_bind; [apply triple_msg1|intros p].
  eapply (triple_bind _ (λ c h, pending_here n session msg1 p h ∧ was_read h session ConfirmJoiner c)).
  { intros h x h' Hs Hq Hrun. destruct (triple_read _ _ _ _ _ _ _ Hs Hq Hrun) as (?&G&Hx). split_and!; [done..|].
    intros c Hc. split; [|by apply Hx]. eapply stable_pending; [apply G|done]. }
  intros c. eapply triple_bind; [apply triple_confirm|intros key].
  eapply (triple_bind _ (λ _, proof_seen)); [|intros b; apply triple_request].
  apply triple_stable; [apply stable_proof|]. by eapply triple_post, triple_read.
Qed.
Lemma triple_attempt {A} Q (m : SM Host PairError A) R :
  triple Q m R → triple Q (attempt m) (λ r h, ∀ a, r = Ok a → R a h).
Proof.
  intros Hm h x h' Hs Hq. unfold attempt. destruct (m h) as [r h1] eqn:E. intros [= <- <-].
  destruct (Hm _ _ _ Hs Hq E) as (?&?&?). split_and!; [done..|]. by intros r' [= <-].
Qed.
Definition enrolled_proved (x : option u64 * list rstring * bool) (h : Host) : Prop := is_Some x.1.1 → proof_seen h.
Lemma triple_serve_all polls served sessions worked :
  triple (λ _, True) (serve_all pick fuel polls rng served sessions worked) enrolled_proved.
Proof.
  revert served worked. induction sessions as [|session sessions IH]; intros served worked.
  { eapply triple_pre; [|apply (triple_ret (None, served, worked) enrolled_proved)]. by intros h _ [??]. }
  cbn [serve_all]. case_decide; [apply IH|]. eapply triple_bind; [apply triple_get_slot|]. intros [msg1|].
  - eapply triple_bind.
    + eapply triple_pre; [|apply triple_attempt, triple_serve]. cbv beta. intros h Hr. by apply Hr.
    + intros [x|e]; [|by eapply triple_pre, IH].
      eapply triple_pre; [|apply (triple_ret _ enrolled_proved)]. cbv beta. intros h Hx _. by eapply Hx.
  - by eapply triple_pre, IH.
Qed.
Lemma triple_accept_loop ticks polls deadline served :
  triple (λ _, True) (accept_loop pick fuel ticks polls rng deadline served) (λ _, proof_seen).
Proof.
  revert served. induction ticks as [|t IH]; intros served; [apply triple_fail|]. cbn [accept_loop].
  apply triple_get. intros h. case_decide; [apply triple_fail|]. destruct (past _ _); [apply triple_fail|].
  eapply triple_bind; [apply triple_world, grows_untraced|intros ss].
  eapply triple_bind; [eapply triple_pre, triple_serve_all; done|]. intros [[[x|] sv] wk]; simpl.
  - eapply triple_pre; [|apply (triple_ret x (λ _, proof_seen))]. cbv beta. intros h' Hx. by apply Hx.
  - eapply (triple_bind _ (λ _ _, True)); [|intros _; apply IH].
    destruct wk; [apply triple_done|]. apply triple_world. by intros ? ?.
Qed.

(** C15: Nobody joins without the code, whatever the mailbox does: after the host's loop has
    run on any mailbox and clock, for any number of sessions, every attempt that was
    spent was spent by a 32-byte confirmation that the host read, in a session whose first message it
    read, and that did not match its run; and the store was left alone, and no peer was reported enrolled,
    unless the host read a confirmation that equals the one it computes from its code, its
    key, the session and the first message it read there. *)
Theorem enrolled_only_proved ticks polls window h res h' :
  re_code (mh_responder h) = code → re_responder_id (mh_responder h) = rid →
  accept_for pick fuel ticks polls rng window h = (res, h') →
  (∃ wrongs, attempts_left (mh_responder h) = length wrongs + attempts_left (mh_responder h') ∧ Forall (wrong_seen h') wrongs) ∧
  (mh_store h' = mh_store h ∨ proof_seen h') ∧ ((∃ p, res = Ok p) → proof_seen h').
Proof.
  intros Hc Hr. unfold accept_for, mbind, SM_bind, sm_get. case_decide.
  { intros [= <- <-]. split; [exists []; by split|]. split; [by left|by intros []]. }
  intros Hrun. assert (shows h) as Hs by done. destruct (triple_accept_loop _ _ _ _ _ _ _ Hs I Hrun) as (_&(_&ws&Ew&Fw&St)&Hok).
  split; [by exists ws|]. split; [done|]. intros [p Hp]. by eapply Hok.
Qed.
End host.
