(* ===== verification/PairingRun.v ===== *)
(** * An honest pairing

    The joiner's side of the handshake run against a host that takes its next step
    whenever the joiner sleeps: the two agree on a key and the joiner ends with what the
    host handed over. *)
From S2P Require Import Prelude RustStr Vfs Roster Wire Logs Keychain Blob Trust Store StoreRoster StoreSync.
From S2P Require Import StoreKeys Checkpoint Paths Snapshots Relay Pairing Enrol PairingSpec.

Section run.
Context `{Ed25519, Crypto, EdX, B64, B64UrlLaws, KeyedHashLaws, Spake2Laws, ChaChaLaws}.
Context `{JsonOf RosterLine, JsonOf (list PeerRecord), JsonOf KeyLine, JsonText MailboxJoinRequest, JsonText JoinAccept}.
Context {Fs Doc Ver : Type} `{VaultFs Fs}.
Variable pick : gset u64 → option u64.
Variable fuel : nat.
Abbreviation Host := (MailboxHost (Fs := Fs) (Doc := Doc) (Ver := Ver) (W := MemoryMailbox)).
Implicit Types h : Host.

(** Where the host stands in a session. *)
Inductive Phase :=
  | Idle | AwaitConfirm (p : PendingResponder) | AwaitRequest (key : SessionKey) | Served (peer : u64) | Abandoned (e : PairError).
Record PairWorld := mkPairWorld { pw_host : Host; pw_phase : Phase }.

Context (session : rstring) (rngB : bytes) (wraps : nat → bytes * bytes).
Abbreviation slot_of w s := (slots (mh_world (pw_host w)) !! (session, s)).
Definition next_phase {A} (f : A → Phase) (x : result PairError A * Host) : PairWorld :=
  mkPairWorld x.2 match x.1 with Ok a => f a | Err e => Abandoned e end.
(** The host's next step: the leg of [serve] that waits for the slot, if it is there. *)
Definition host_turn (w : PairWorld) : PairWorld :=
  match pw_phase w with
  | Idle => match slot_of w Msg1 with
            | Some m => next_phase AwaitConfirm (serve_msg1 rngB session m (pw_host w)) | None => w end
  | AwaitConfirm p => match slot_of w ConfirmJoiner with
                      | Some c => next_phase AwaitRequest (serve_confirm session p c (pw_host w)) | None => w end
  | AwaitRequest key => match slot_of w Request with
                        | Some b => next_phase Served (serve_request pick fuel wraps session key b (pw_host w)) | None => w end
  | _ => w
  end.
Definition pw_mail {A} (m : SM MemoryMailbox PairError A) : SM PairWorld PairError A := λ w,
  let '(r, mb) := m (mh_world (pw_host w)) in (r, mkPairWorld (set_world mb (pw_host w)) (pw_phase w)).
#[local] Instance PairWorld_mailbox : Mailbox PairWorld :=
  {| mx_put se sl b := pw_mail (mm_put se sl b); mx_get se sl := pw_mail (mm_get se sl); mx_sessions := pw_mail mm_sessions;
     now_ms w := mm_clock (mh_world (pw_host w));
     sleep d w := host_turn (mkPairWorld (set_world (Pairing.sleep d (mh_world (pw_host w))) (pw_host w)) (pw_phase w)) |}.

(** The joiner's side in this world. *)
Definition join_here (polls : nat) (rng sid : bytes) (id : Identity) (invite : Invite) (code : PairingCode) (step poll : Z)
    : SM PairWorld PairError (JoinAccept * bytes) :=
  fetch_accept_inner polls rng sid id invite code step poll None.

(** ** Reading and writing slots *)
Lemma pw_put_free w slot body :
  slot_of w slot = None →
  join_put session slot body w =
    (Ok tt, mkPairWorld (set_world (mkMemoryMailbox (<[(session, slot) := body]> (slots (mh_world (pw_host w))))
                                      (mm_clock (mh_world (pw_host w)))) (pw_host w)) (pw_phase w)).
Proof. intros Hf. unfold join_put, mbind, SM_bind. simpl. unfold pw_mail, mm_put. rewrite Hf. done. Qed.
Lemma host_put_free h slot body :
  slots (mh_world h) !! (session, slot) = None →
  host_write session slot body h =
    (Ok tt, set_world (mkMemoryMailbox (<[(session, slot) := body]> (slots (mh_world h))) (mm_clock (mh_world h))) h).
Proof. intros Hf. unfold host_write, mbind, SM_bind, in_world. simpl. unfold mm_put. rewrite Hf. done. Qed.

(** The joiner waits: the slot is empty, the host takes a turn, and the slot is full. *)
Lemma await_turn polls slot timeout poll w body :
  2 ≤ polls → (0 < timeout)%Z → (mm_clock (mh_world (pw_host w)) + timeout < 2 ^ 63)%Z → slot_of w slot = None →
  let w' := Pairing.sleep poll w in slot_of w' slot = Some body →
  await_slot polls session slot timeout poll w = (Ok body, w').
Proof.
  intros Hp Ht Hc Hn w' Hs. destruct polls as [|[|polls]]; [lia|lia|].
  unfold await_slot, mbind at 1, SM_bind at 1, sm_get at 1. cbn [await_loop].
  unfold mbind at 1, SM_bind at 1.
  assert (mx_get session slot w = (Ok None, w)) as ->.
  { simpl. unfold pw_mail, mm_get. simpl. rewrite Hn. by destruct w as [[]]. }
  unfold mbind at 1, SM_bind at 1, sm_get at 1.
  assert (past (deadline_from_now timeout w) w = false) as ->.
  { unfold past, deadline_from_now. apply Z.leb_gt. simpl. lia. }
  unfold mbind at 1, SM_bind at 1, do_sleep. fold w'. unfold mbind at 1, SM_bind at 1.
  assert (mx_get session slot w' = (Ok (Some body), w')) as ->; [|done].
  simpl. unfold pw_mail, mm_get. simpl. rewrite Hs. by destruct w' as [[]].
Qed.

(** ** The legs of an honest session *)
Section honest.
Context (sid rngA k : bytes) (code : PairingCode) (inv : Invite) (idn idj : Identity) (vault vkey : bytes) (role : Role).
Context (left : nat) (st st' : Store Fs Doc Ver) (stp pll : Z) (accept : JoinAccept).
Abbreviation rid := (host_key inv).
Abbreviation msg1 := (spake_start_a rngA (utf8 code) sid rid).2.
Abbreviation msg2 := (spake_start_b rngB (utf8 code) sid rid).2.
Abbreviation mac s := (confirm_mac k s sid rid msg1 msg2).
Hypothesis Hsession : session = b64url_encode sid.
Hypothesis Hsid : length sid = 32.
Hypothesis Hleft : left ≠ 0.
Hypothesis HkA : spake_finish (spake_start_a rngA (utf8 code) sid rid).1 msg2 = Some k.
Hypothesis HkB : spake_finish (spake_start_b rngB (utf8 code) sid rid).1 msg1 = Some k.
Abbreviation claim := (mkJoinRequest (id_key idj) (id_peer idj)).
Hypothesis Henrol :
  enrol_joiner pick fuel wraps idn vault vkey role (id_key idj) (id_peer idj) st = (Ok accept, st').

(** The host with this mailbox, clock and store. *)
Definition host_at (M : gmap (rstring * Slot) bytes) (clk : Z) (s : Store Fs Doc Ver) : Host :=
  mkHost (mkMemoryMailbox M clk) inv (mkResponder code rid left) idn vault vkey role s stp pll.
Definition put_slot (s : Slot) (b : bytes) (M : gmap (rstring * Slot) bytes) := <[(session, s) := b]> M.
Definition pend : PendingResponder := mkPendingR (mac SInitiator) (mac SResponder) (session_key k).
Definition request_ct : bytes :=
  chacha_seal (initiator_to_responder (session_key k)) (nonce_for 0) (utf8 (to_json claim)).
Definition accept_ct : bytes :=
  chacha_seal (responder_to_initiator (session_key k)) (nonce_for 0) (utf8 (to_json accept)).

Lemma from_utf8_json {A} `{JsonText A} (a : A) : (from_utf8 (utf8 (to_json a)) ≫= from_json) = Some a.
Proof. rewrite from_utf8_utf8 by apply to_json_scalar. simpl. apply from_to_json. Qed.
Lemma first_counter : next_counter 0 = Some 1%N.
Proof. done. Qed.

Lemma turn_msg1 M clk :
  M !! (session, Msg1) = Some msg1 → M !! (session, Msg2) = None →
  host_turn (mkPairWorld (host_at M clk st) Idle) =
    mkPairWorld (host_at (put_slot Msg2 msg2 M) clk st) (AwaitConfirm pend).
Proof.
  intros H1' H2'. unfold host_turn. cbn [pw_phase pw_host]. simpl. rewrite H1'.
  unfold serve_msg1. unfold mbind at 1, SM_bind at 1, sm_lift at 1.
  assert (decode_session_id session = Ok sid) as ->.
  { unfold decode_session_id. rewrite Hsession, b64url_decode_encode. simpl. by rewrite decide_True. }
  unfold mbind at 1, SM_bind at 1, sm_get at 1. cbn [mh_responder host_at].
  assert (respond rngB (mkResponder code rid left) sid msg1 = Ok (pend, msg2)) as ->.
  { unfold respond, pend. cbn [attempts_left re_code re_responder_id]. rewrite decide_False by done.
    pose proof HkB as Hk. destruct (spake_start_b _ _ _ _) as [sb mb]. simpl in *. by rewrite Hk. }
  unfold mbind at 1, SM_bind at 1, sm_lift at 1. simpl. unfold mbind at 1, SM_bind at 1. by rewrite host_put_free.
Qed.
Lemma turn_confirm M clk :
  M !! (session, ConfirmJoiner) = Some (mac SInitiator) → M !! (session, ConfirmHost) = None →
  host_turn (mkPairWorld (host_at M clk st) (AwaitConfirm pend)) =
    mkPairWorld (host_at (put_slot ConfirmHost (mac SResponder) M) clk st) (AwaitRequest (session_key k)).
Proof.
  intros H1' H2'. unfold host_turn. cbn [pw_phase pw_host]. simpl. rewrite H1'.
  unfold serve_confirm. unfold mbind at 1, SM_bind at 1, sm_lift at 1, as_confirm.
  rewrite decide_True by apply keyed_hash_len. unfold mbind at 1, SM_bind at 1, host_verify, responder_verify. simpl.
  rewrite decide_False by done. unfold macs_match. rewrite bool_decide_eq_true_2 by done. simpl.
  unfold mbind at 1, SM_bind at 1. by rewrite host_put_free.
Qed.
Lemma turn_request M clk :
  M !! (session, Request) = Some request_ct → M !! (session, Accept) = None →
  host_turn (mkPairWorld (host_at M clk st) (AwaitRequest (session_key k))) =
    mkPairWorld (host_at (put_slot Accept accept_ct M) clk st') (Served (id_peer idj)).
Proof.
  intros H1' H2'. unfold host_turn. cbn [pw_phase pw_host]. simpl. rewrite H1'.
  unfold serve_request, request_ct. cbn [key_split]. unfold mbind at 1, SM_bind at 1, sm_lift at 1, ch_open.
  cbn [ch_key ch_counter]. rewrite chacha_open_seal, first_counter. simpl.
  unfold mbind at 1, SM_bind at 1, sm_lift at 1. simpl. unfold mbind at 1, SM_bind at 1, sm_lift at 1. cbn [fst].
  rewrite from_utf8_json. simpl. unfold mbind at 1, SM_bind at 1, sm_get at 1.
  unfold mbind at 1, SM_bind at 1, in_host_store. simpl. rewrite Henrol. simpl.
  unfold mbind at 1, SM_bind at 1, sm_lift at 1, ch_seal. cbn [ch_key ch_counter]. rewrite ?first_counter. simpl.
  unfold mbind at 1, SM_bind at 1. rewrite host_put_free by done. done.
Qed.

Abbreviation world M clk s ph := (mkPairWorld (host_at M clk s) ph).
Lemma leg_start M clk :
  M !! (session, Msg1) = None →
  join_start rngA inv code (session, sid) (world M clk st Idle) =
    (Ok (mkInitiator (spake_start_a rngA (utf8 code) sid rid).1 sid rid msg1), world (put_slot Msg1 msg1 M) clk st Idle).
Proof.
  intros Hf. unfold join_start, initiator_start. cbn [snd fst]. destruct (spake_start_a _ _ _ _) as [sa ma]. simpl.
  unfold mbind at 1, SM_bind at 1. by rewrite pw_put_free.
Qed.
Lemma leg_confirm M clk ph :
  M !! (session, ConfirmJoiner) = None →
  join_confirm session (mkInitiator (spake_start_a rngA (utf8 code) sid rid).1 sid rid msg1) msg2 (world M clk st ph) =
    (Ok (mkPendingI (mac SResponder) (session_key k)), world (put_slot ConfirmJoiner (mac SInitiator) M) clk st ph).
Proof.
  intros Hf. unfold join_confirm, mbind at 1, SM_bind at 1, sm_lift at 1, initiator_accept. cbn [in_state].
  rewrite HkA. simpl. unfold mbind at 1, SM_bind at 1. by rewrite pw_put_free.
Qed.
Lemma leg_request M clk ph :
  M !! (session, Request) = None →
  join_request session (mkPendingI (mac SResponder) (session_key k)) (mac SResponder) claim (world M clk st ph) =
    (Ok (mkChannel (responder_to_initiator (session_key k)) 0), world (put_slot Request request_ct M) clk st ph).
Proof.
  intros Hf. unfold join_request, mbind at 1, SM_bind at 1, sm_lift at 1, as_confirm.
  rewrite decide_True by apply keyed_hash_len. unfold mbind at 1, SM_bind at 1, sm_lift at 1, initiator_verify, macs_match.
  cbn [pi_expected]. rewrite bool_decide_eq_true_2 by done. simpl.
  unfold mbind at 1, SM_bind at 1, sm_lift at 1, ch_seal. cbn [ch_key ch_counter]. rewrite ?first_counter. simpl.
  unfold mbind at 1, SM_bind at 1. by rewrite pw_put_free.
Qed.
Lemma leg_open : join_open (mkChannel (responder_to_initiator (session_key k)) 0) accept_ct = Ok accept.
Proof.
  unfold join_open, ch_open, accept_ct. cbn [ch_key ch_counter]. rewrite chacha_open_seal, first_counter. simpl.
  by rewrite from_utf8_json.
Qed.

(** The whole run; the clock stands at [clk] and no slot of the session is taken. *)
Lemma honest_run polls step poll M clk :
  2 ≤ polls → (0 < step)%Z → (0 ≤ poll)%Z → (clk + 3 * poll + step < 2 ^ 63)%Z → ed_key_ok rid = true →
  (∀ s, M !! (session, s) = None) →
  ∃ M' clk', join_here polls rngA sid idj inv code step poll (world M clk st Idle) =
    (Ok (accept, rid), world M' clk' st' (Served (id_peer idj))).
Proof.
  intros Hp Hst Hpo Hclk Hed Hfree. unfold join_here, fetch_accept_inner. rewrite Hed. cbn [negb].
  change (new_session_id sid) with (b64url_encode sid, sid). cbn [fst snd]. rewrite <-Hsession.
  unfold mbind at 1, SM_bind at 1. rewrite leg_start by done.
  set (M1 := put_slot Msg1 msg1 M). unfold mbind at 1, SM_bind at 1.
  assert (Pairing.sleep poll (world M1 clk st Idle) = world (put_slot Msg2 msg2 M1) (clk + poll) st (AwaitConfirm pend)) as S1.
  { apply (turn_msg1 M1 (clk + poll)); unfold M1, put_slot; [by rewrite lookup_insert_eq|by rewrite lookup_insert_ne]. }
  erewrite (await_turn polls Msg2 step poll _ msg2); [|done|done|simpl; lia|unfold M1, put_slot; simpl; by rewrite lookup_insert_ne
    |rewrite S1; unfold put_slot; simpl; by rewrite lookup_insert_eq].
  rewrite S1. unfold mbind at 1, SM_bind at 1.
  set (M2 := put_slot Msg2 msg2 M1).
  assert (∀ s, s ≠ Msg1 → s ≠ Msg2 → M2 !! (session, s) = None) as F2.
  { intros s ??. unfold M2, M1, put_slot. rewrite !lookup_insert_ne by congruence. apply Hfree. }
  rewrite leg_confirm by (by apply F2). set (M3 := put_slot ConfirmJoiner (mac SInitiator) M2).
  unfold mbind at 1, SM_bind at 1.
  assert (Pairing.sleep poll (world M3 (clk + poll) st (AwaitConfirm pend)) =
    world (put_slot ConfirmHost (mac SResponder) M3) (clk + poll + poll) st (AwaitRequest (session_key k))) as S2.
  { apply (turn_confirm M3 (clk + poll + poll)); unfold M3, put_slot; [by rewrite lookup_insert_eq|].
    rewrite lookup_insert_ne by done. by apply F2. }
  erewrite (await_turn polls ConfirmHost step poll _ (mac SResponder)); [|done|done|simpl; lia|
    unfold M3, put_slot; simpl; rewrite lookup_insert_ne by done; by apply F2
    |rewrite S2; unfold put_slot; simpl; by rewrite lookup_insert_eq].
  rewrite S2. unfold mbind at 1, SM_bind at 1. cbn [from_option fst snd default].
  set (M4 := put_slot ConfirmHost (mac SResponder) M3).
  assert (∀ s, s = Request ∨ s = Accept → M4 !! (session, s) = None) as F4.
  { intros s Hs. unfold M4, M3, put_slot. rewrite !lookup_insert_ne by naive_solver. apply F2; naive_solver. }
  rewrite leg_request by (apply F4; auto). set (M5 := put_slot Request request_ct M4).
  unfold mbind at 1, SM_bind at 1.
  assert (Pairing.sleep poll (world M5 (clk + poll + poll) st (AwaitRequest (session_key k))) =
    world (put_slot Accept accept_ct M5) (clk + poll + poll + poll) st' (Served (id_peer idj))) as S3.
  { apply (turn_request M5 (clk + poll + poll + poll)); unfold M5, put_slot; [by rewrite lookup_insert_eq|].
    rewrite lookup_insert_ne by done. apply F4; auto. }
  erewrite (await_turn polls Accept step poll _ accept_ct); [|done|done|simpl; lia|
    unfold M5, put_slot; simpl; rewrite lookup_insert_ne by done; apply F4; auto
    |rewrite S3; unfold put_slot; simpl; by rewrite lookup_insert_eq].
  rewrite S3. unfold mbind at 1, SM_bind at 1, sm_lift. rewrite leg_open. by eexists _, _.
Qed.
End honest.
End run.

Section pairing.
Context `{Ed25519Laws, Crypto, EdX, B64Laws, B64UrlLaws, KeyedHashLaws, Spake2Laws, ChaChaLaws}.
Context `{JsonLaws RosterLine, JsonOf (list PeerRecord), JsonLaws KeyLine, JsonText MailboxJoinRequest, JsonText JoinAccept}.
Context {Fs Doc Ver : Type} `{FsAccepts Fs}.
Variable pick : gset u64 → option u64.
Variable fuel : nat.
Abbreviation Host := (MailboxHost (Fs := Fs) (Doc := Doc) (Ver := Ver) (W := MemoryMailbox)).

(** C16: A device that types the code is let in.  The host is an active admin of a founded vault whose
    logs are intact and whose believed keys share no id, with a guess left, storage that takes its writes and turns taken while the joiner
    sleeps; the joiner goes by the id its key implies, is not mentioned in the host's logs,
    its invitation names the host's key and its code is the one shown; nobody touches its
    session's slots and the clock is not at the end of time.  Then the joiner finishes within two
    reads of each slot, the host has served it, the joiner holds an accept with the host's vault,
    vault key and founder, and in the host's store it is an active member with the role of the invitation
    and its own key. *)
Theorem honest_pairing polls rngA rngB wraps sid id code step poll (h : Host) :
  let invite := mh_invite h in
  let session := b64url_encode sid in
  let run := join_here pick fuel session rngB wraps polls rngA sid id invite code step poll in
  2 ≤ polls → (0 < step)%Z → (0 ≤ poll)%Z → (mm_clock (mh_world h) + 3 * poll + step < 2 ^ 63)%Z →
  ed_key_ok (host_key invite) = true → length sid = 32 →
  mh_responder h = mkResponder code (host_key invite) (attempts_left (mh_responder h)) → attempts_left (mh_responder h) ≠ 0 →
  (∀ s, slots (mh_world h) !! (session, s) = None) →
  can_enrol pick fuel (mh_store h) (id_peer id) (id_key id) →
  ∃ accept w', run (mkPairWorld h Idle) = (Ok (accept, host_key invite), w') ∧ pw_phase w' = Served (id_peer id) ∧
    ja_vault accept = mh_vault h ∧ ja_vault_key accept = mh_vault_key h ∧ Some (ja_founder accept) = founder (mh_store h) ∧
    member (mh_store (pw_host w')) (id_peer id) (mh_role h) (id_key id).
Proof.
  intros invite session run Hp Hst Hpo Hclk Hed Hsid Hresp Hleft Hfree Hcan.
  destruct (can_enrol_ok pick fuel (mh_store h) wraps (mh_identity h) (mh_vault h) (mh_vault_key h) (mh_role h) _ _ Hcan)
    as (accept&s'&Hen&Hv&Hk&Hfd&Hm).
  destruct (spake_agree rngA rngB (utf8 code) sid (host_key invite)) as (k&HkA&HkB).
  destruct (honest_run pick fuel session rngB wraps sid rngA k code invite (mh_identity h) id (mh_vault h) (mh_vault_key h)
    (mh_role h) _ (mh_store h) s' (step_timeout h) (poll_interval h) accept eq_refl Hsid Hleft HkA HkB Hen
    polls step poll (slots (mh_world h)) (mm_clock (mh_world h)) Hp Hst Hpo Hclk Hed Hfree) as (M&clk&Hrun).
  exists accept. eexists. split.
  - unfold run, session. etrans; [|exact Hrun]. f_equal. f_equal. unfold host_at. rewrite <-Hresp. by destruct h as [[]].
  - by split_and!.
Qed.
End pairing.
