(* ===== verification/Share.v ===== *)
(** * Nearby sharing

    One-shot transfers between two devices (src/crates/roam-share and
    src/crates/roam-share-iroh): names and relative paths chosen by a stranger, the
    offer and its streams, the frames and their framing on a byte stream, collecting
    what to offer, and the two sides of a transfer.  The exchange that proves the code
    is that of roam-pake.  The QUIC connection is the interface [Conn], postcard the
    interface [Postcard]; the disk is any [VaultFs]. *)
From S2P Require Import Prelude RustStr Vfs Roster Wire Keychain Blob Paths Bridge Relay Pairing.

(** A step that cannot fail. *)
Definition sm_modify {S E} (f : S → S) : SM S E unit := λ s, (Ok tt, f s).

(** ** Names (name.rs) *)
Inductive NameError :=
  | EmptyName | TooLong | Separator | DotSegment | ControlCharacter | BidiOverride | TrailingDotOrSpace
  | ReservedDeviceName (stem : rstring) | Absolute | NoComponents.
Definition MAX_NAME_BYTES : N := 255.
Definition RESERVED : list rstring :=
  str <$> ["CON"; "PRN"; "AUX"; "NUL"; "COM1"; "COM2"; "COM3"; "COM4"; "COM5"; "COM6"; "COM7"; "COM8"; "COM9";
           "LPT1"; "LPT2"; "LPT3"; "LPT4"; "LPT5"; "LPT6"; "LPT7"; "LPT8"; "LPT9"]%string.
Definition is_bidi_override (c : rchar) : bool :=
  (((0x202A <=? c) && (c <=? 0x202E)) || ((0x2066 <=? c) && (c <=? 0x2069)) || (c =? 0x200F) || (c =? 0x200E))%N.
Definition BACKSLASH : rchar := 92.
Definition SPACE : rchar := 32.
Definition COLON : byte := Byte.x3a.
Definition contains (c : rchar) (s : rstring) : bool := existsb (N.eqb c) s.
Definition eq_ignore_ascii_case (a b : rstring) : bool := bool_decide (to_ascii_lowercase a = to_ascii_lowercase b).

Abbreviation SafeName := rstring.
Definition SafeName_new (raw : rstring) : result NameError SafeName :=
  if bool_decide (raw = []) then Err EmptyName
  else if (MAX_NAME_BYTES <? str_len raw)%N then Err TooLong
  else if contains SLASH raw || contains BACKSLASH raw then Err Separator
  else if bool_decide (raw = str ".") || bool_decide (raw = str "..") then Err DotSegment
  else if existsb is_control raw then Err ControlCharacter
  else if existsb is_bidi_override raw then Err BidiOverride
  else if ends_with_char DOT raw || ends_with_char SPACE raw then Err TrailingDotOrSpace
  else
    let stem := default raw (head (split_on DOT raw)) in
    if existsb (eq_ignore_ascii_case stem) RESERVED then Err (ReservedDeviceName stem) else Ok raw.

Abbreviation RelPath := (list rstring).
(** [raw.len() >= 2 && raw.as_bytes()[1] == b':'] *)
Definition drive_prefix (raw : rstring) : bool := bool_decide (utf8 raw !! 1 = Some COLON).
Definition RelPath_new (raw : rstring) : result NameError RelPath :=
  if starts_with_char SLASH raw || starts_with_char BACKSLASH raw then Err Absolute
  else if drive_prefix raw then Err Absolute
  else
    parts ← collect (SafeName_new <$> split_on SLASH raw);
    if bool_decide (parts = []) then Err NoComponents else Ok parts.
(** [Display] and [Serialize]. *)
Definition path_display (p : RelPath) : rstring := join_on SLASH p.
Definition resolve_under (p : RelPath) (base : Path) : Path := foldl push base p.

(** ** The offer and the frames (payload.rs)

    The types are those of a decoded message; with raw strings for names and paths they
    are those that postcard reads and writes. *)
Record FileMeta := mkFileMeta { fm_path : RelPath; fm_len : u64 }.
Record Contact := mkContact { display_name : rstring; fields : list (rstring * rstring) }.
Inductive Payload :=
  | File (m : FileMeta) | Folder (name : SafeName) (files : list FileMeta)
  | TextItem (t : rstring) | Clipboard (t : rstring) | ContactItem (c : Contact).
Record StreamRef := mkStreamRef { sr_item : nat; sr_path : RelPath; sr_len : u64 }.
Record ShareOffer := mkShareOffer { from_name : rstring; items : list Payload }.
Inductive ShareFrame :=
  | FOffer (o : ShareOffer) | FAccept (streams : list N) | FDecline
  | FChunk (stream : N) (offset : u64) (b : bytes) | FDone.
Definition frame_kind (f : ShareFrame) : rstring :=
  match f with
  | FOffer _ => str "Offer" | FAccept _ => str "Accept" | FDecline => str "Decline" | FChunk _ _ _ => str "Chunk" | FDone => str "Done"
  end.

(** [None] is the panic of the [expect]. *)
Definition expect_ok {E A} (r : result E A) : option A := match r with Ok a => Some a | Err _ => None end.
Definition folder_stream (item : nat) (name : SafeName) (m : FileMeta) : option StreamRef :=
  p ← expect_ok (RelPath_new (name ++ SLASH :: path_display (fm_path m)));
  Some (mkStreamRef item p (fm_len m)).
Definition payload_streams (item : nat) (p : Payload) : option (list StreamRef) :=
  match p with
  | File m => Some [mkStreamRef item (fm_path m) (fm_len m)]
  | Folder name fs => mapM (folder_stream item name) fs
  | TextItem _ | Clipboard _ | ContactItem _ => Some []
  end.
Fixpoint streams_from (item : nat) (ps : list Payload) : option (list StreamRef) :=
  match ps with
  | [] => Some []
  | p :: ps => here ← payload_streams item p; rest ← streams_from (S item) ps; Some (here ++ rest)
  end.
Definition streams (o : ShareOffer) : option (list StreamRef) := streams_from 0 (items o).
Definition total_len (o : ShareOffer) : option u64 :=
  ss ← streams o; Some (foldl (λ acc s, saturating_add acc (sr_len s)) 0%N ss).

(** *** Encoding *)
Record WireMeta := mkWireMeta { wm_path : rstring; wm_len : u64 }.
Inductive WirePayload :=
  | WFile (m : WireMeta) | WFolder (name : rstring) (files : list WireMeta)
  | WText (t : rstring) | WClipboard (t : rstring) | WContact (c : Contact).
Inductive WireFrame :=
  | WOffer (from : rstring) (items : list WirePayload) | WAccept (streams : list N) | WDecline
  | WChunk (stream : N) (offset : u64) (b : bytes) | WDone.
(** postcard's derived codec. *)
Class Postcard := { pc_encode : WireFrame → bytes; pc_decode : bytes → option WireFrame }.

Definition meta_out (m : FileMeta) : WireMeta := mkWireMeta (path_display (fm_path m)) (fm_len m).
Definition payload_out (p : Payload) : WirePayload :=
  match p with
  | File m => WFile (meta_out m) | Folder n fs => WFolder n (meta_out <$> fs)
  | TextItem t => WText t | Clipboard t => WClipboard t | ContactItem c => WContact c
  end.
Definition frame_out (f : ShareFrame) : WireFrame :=
  match f with
  | FOffer o => WOffer (from_name o) (payload_out <$> items o)
  | FAccept ss => WAccept ss | FDecline => WDecline | FChunk s o b => WChunk s o b | FDone => WDone
  end.
Definition meta_in (m : WireMeta) : option FileMeta :=
  p ← expect_ok (RelPath_new (wm_path m)); Some (mkFileMeta p (wm_len m)).
Definition payload_in (p : WirePayload) : option Payload :=
  match p with
  | WFile m => File <$> meta_in m
  | WFolder n fs => n ← expect_ok (SafeName_new n); fs ← mapM meta_in fs; Some (Folder n fs)
  | WText t => Some (TextItem t) | WClipboard t => Some (Clipboard t) | WContact c => Some (ContactItem c)
  end.
Definition frame_in (f : WireFrame) : option ShareFrame :=
  match f with
  | WOffer from ps => ps ← mapM payload_in ps; Some (FOffer (mkShareOffer from ps))
  | WAccept ss => Some (FAccept ss) | WDecline => Some FDecline | WChunk s o b => Some (FChunk s o b) | WDone => Some FDone
  end.
Definition frame_encode `{Postcard} (f : ShareFrame) : bytes := pc_encode (frame_out f).
Definition frame_decode `{Postcard} (b : bytes) : option ShareFrame := pc_decode b ≫= frame_in.

(** ** Limits (roam-share-iroh lib.rs, wire.rs) *)
Definition CHUNK_BYTES : N := 65536.
Definition DEFAULT_MAX_ACCEPT_BYTES : N := 8589934592.
Definition MAX_FRAME_BYTES : N := 8388608.

Inductive ConnError := Stalled | Lost | EndpointClosed.
Inductive ShareError :=
  | SPake (e : PakeError) | SConfirm | SDecode | SUnexpected (kind : rstring) | STooBig | SUnknownStream (n : N)
  | SOverflow | SOverrun (n : N) | SLocal | SIo (e : io_error) | SConn (e : ConnError) | SFrame | SName (e : NameError) | SSymlink | SStat | SNoName
  | SPanic | SUsedUp | SStuck.

(** One QUIC connection at a time: what a peer sends, stalls, or breaks happens inside
    these calls; a read that times out is a read that fails. *)
Class Conn (W : Type) := {
  cn_incoming : SM W ConnError bool;
  cn_accept_bi : SM W ConnError unit;
  cn_remote_id : W → bytes;
  cn_write_all : bytes → SM W ConnError unit;
  cn_read_exact : N → SM W ConnError bytes;
  cn_finish : SM W ConnError unit;
  cn_closed : W → W;
  cn_close : W → W;
}.

Section wire.
Context {W : Type} `{Conn W}.
Definition write_frame (b : bytes) : SM W ShareError unit :=
  if decide (N.of_nat (length b) < 2 ^ 32)%N then
    _ ← sm_map_err SConn (cn_write_all (le_bytes 4 (N.of_nat (length b))));
    sm_map_err SConn (cn_write_all b)
  else sm_fail SFrame.
Definition read_frame : SM W ShareError bytes :=
  hdr ← sm_map_err SConn (cn_read_exact 4);
  if (MAX_FRAME_BYTES <? from_le hdr)%N then sm_fail SFrame else sm_map_err SConn (cn_read_exact (from_le hdr)).
End wire.

(** [slice::chunks]. *)
Fixpoint chunks_go (fuel n : nat) (l : bytes) : list bytes :=
  match fuel, l with
  | S fuel, _ :: _ => take n l :: chunks_go fuel n (drop n l)
  | _, _ => []
  end.
Definition chunks (n : nat) (l : bytes) : list bytes := chunks_go (length l) n l.

(** ** Collecting an offer (send.rs) *)
Abbreviation SourceMap := (gmap RelPath Path).
Section offer.
Context {D : Type} `{VaultFs D}.
(** [symlink_metadata(..).is_symlink()], and the depth the walk descends. *)
Variable is_symlink : path → D → bool.
Variable depth : nat.

Definition set_slashes (s : rstring) : rstring := (λ c, if decide (c = BACKSLASH) then SLASH else c) <$> s.
Definition collect_file (root : Path) (folder_name : SafeName) (p : Path) (len : N) (acc : list FileMeta * SourceMap)
    : result ShareError (list FileMeta * SourceMap) :=
  relative ← ok_or (Paths.strip_prefix p root) SPanic;
  rel ← map_err SName (RelPath_new (set_slashes relative));
  keyed ← ok_or (expect_ok (RelPath_new (folder_name ++ SLASH :: path_display rel))) SPanic;
  Ok (acc.1 ++ [mkFileMeta rel len], <[keyed := p]> acc.2).
Fixpoint collect_dir (fuel : nat) (root dir : Path) (folder_name : SafeName) (d : D) (acc : list FileMeta * SourceMap)
    : result ShareError (list FileMeta * SourceMap) :=
  match fuel with
  | O => Err SStuck
  | S fuel =>
      es ← map_err SIo (fs_read_dir (lexical_normalize dir) d);
      foldl (λ acc (e : path),
        acc ← acc;
        let p := push dir (default [] (last e)) in
        if is_symlink e d then Ok acc
        else if fs_is_dir e d then collect_dir fuel root p folder_name d acc
        else
          len ← map_err SIo (fs_file_len e d);
          collect_file root folder_name p (N.of_nat len) acc) (Ok acc) es
  end.
Definition offer_path (d : D) (acc : list Payload * SourceMap) (p : Path) : result ShareError (list Payload * SourceMap) :=
  let e := lexical_normalize p in
  if negb (fs_exists e d || is_symlink e d) then Err SStat
  else
    raw ← ok_or (file_name p) SNoName;
    name ← map_err SName (SafeName_new raw);
    if is_symlink e d then Err SSymlink
    else if fs_is_dir e d then
      x ← collect_dir depth p p name d ([], acc.2);
      Ok (acc.1 ++ [Folder name x.1], x.2)
    else
      len ← map_err SIo (fs_file_len e d);
      rel ← ok_or (expect_ok (RelPath_new name)) SPanic;
      Ok (acc.1 ++ [File (mkFileMeta rel (N.of_nat len))], <[rel := p]> acc.2).
Definition offer_paths (from : rstring) (paths : list Path) (d : D) : result ShareError (ShareOffer * SourceMap) :=
  x ← foldl (λ acc p, acc ← acc; offer_path d acc p) (Ok ([], ∅)) paths;
  Ok (mkShareOffer from x.1, x.2).
End offer.

(** ** The sender (send.rs) *)
Section sender.
Context `{Postcard, Spake2, ChaCha, Crypto, KeyedHash}.
Context {W : Type} `{Conn W}.

Definition sealed_frame (c : Channel) (f : ShareFrame) : SM W ShareError Channel :=
  x ← sm_lift (ok_or (ch_seal c (frame_encode f)) SPanic);
  _ ← write_frame x.1;
  mret x.2.
Definition open_frame (c : Channel) (b : bytes) : result ShareError (ShareFrame * Channel) :=
  opened ← ok_or (ch_open c b) SPanic;
  x ← map_err SPake opened;
  f ← ok_or (frame_decode x.1) SDecode;
  Ok (f, x.2).
Definition read_sealed (c : Channel) : SM W ShareError (ShareFrame * Channel) :=
  b ← read_frame; sm_lift (open_frame c b).
Definition as_confirmation (b : bytes) : result ShareError bytes := if decide (length b = 32) then Ok b else Err SConfirm.

(** What a connection can reach before the code is proved. *)
Record Door := mkDoor { dr_world : W; dr_responder : Responder }.
Definition door_conn {A} (m : SM W ShareError A) : SM Door ShareError A := λ d,
  let '(r, w) := m (dr_world d) in (r, mkDoor w (dr_responder d)).
Definition door_verify (p : PendingResponder) (confirm : bytes) : SM Door ShareError (SessionKey * bytes) := λ d,
  let '(r, re) := responder_verify (dr_responder d) p confirm in (map_err SPake r, mkDoor (dr_world d) re).
Definition authenticate (rng : bytes) : SM Door ShareError SessionKey :=
  d ← sm_get;
  let receiver_id := cn_remote_id (dr_world d) in
  _ ← door_conn (sm_map_err SConn cn_accept_bi);
  msg1 ← door_conn read_frame;
  d ← sm_get;
  x ← sm_lift (map_err SPake (respond rng (dr_responder d) receiver_id msg1));
  _ ← door_conn (write_frame x.2);
  c ← door_conn read_frame;
  confirm ← sm_lift (as_confirmation c);
  y ← door_verify x.1 confirm;
  _ ← door_conn (write_frame y.2);
  mret y.1.

Context {D : Type} `{VaultFs D}.
Record ShareSender := mkSender { sd_door : Door; sd_offer : ShareOffer; sd_sources : SourceMap; sd_disk : D }.
Definition in_door {A} (m : SM Door ShareError A) : SM ShareSender ShareError A := λ s,
  let '(r, d) := m (sd_door s) in (r, mkSender d (sd_offer s) (sd_sources s) (sd_disk s)).

Fixpoint send_stream_chunks (index : N) (n : N) (cs : list bytes) (sealer : Channel) : SM W ShareError Channel :=
  match cs with
  | [] => mret sealer
  | c :: cs =>
      sealer ← sealed_frame sealer (FChunk index (n * CHUNK_BYTES) c);
      send_stream_chunks index (n + 1) cs sealer
  end.
Fixpoint send_streams (ss : list StreamRef) (sources : SourceMap) (disk : D) (accepted : list N) (sealer : Channel)
    : SM W ShareError Channel :=
  match accepted with
  | [] => mret sealer
  | index :: accepted =>
      stream ← sm_lift (ok_or (ss !! N.to_nat index) (SUnknownStream index));
      source ← sm_lift (ok_or (sources !! sr_path stream) SLocal);
      b ← sm_lift (map_err (λ _, SLocal) (fs_read (lexical_normalize source) disk));
      sealer ← send_stream_chunks index 0 (chunks (N.to_nat CHUNK_BYTES) b) sealer;
      send_streams ss sources disk accepted sealer
  end.
(** After the code is proved. *)
Definition hand_over (offer : ShareOffer) (sources : SourceMap) (disk : D) (key : SessionKey) : SM W ShareError unit :=
  let '(sealer, opener) := key_split key SResponder in
  sealer ← sealed_frame sealer (FOffer offer);
  reply ← read_sealed opener;
  match reply.1 with
  | FAccept accepted =>
      ss ← sm_lift (ok_or (streams offer) SPanic);
      sealer ← send_streams ss sources disk accepted sealer;
      _ ← sealed_frame sealer FDone;
      sm_map_err SConn cn_finish
  | FDecline =>
      _ ← sealed_frame sealer FDone;
      _ ← sm_map_err SConn cn_finish;
      sm_modify cn_closed
  | other => sm_fail (SUnexpected (frame_kind other))
  end.
Definition serve_connection (rng : bytes) : SM ShareSender ShareError unit :=
  key ← in_door (authenticate rng);
  s ← sm_get;
  in_door (door_conn (hand_over (sd_offer s) (sd_sources s) (sd_disk s) key)).

Definition share_new (w : W) (id : bytes) (offer : ShareOffer) (sources : SourceMap) (disk : D) (draws : list N)
    : option (ShareSender * PairingCode) :=
  code ← code_generate draws;
  Some (mkSender (mkDoor w (responder_new code id)) offer sources disk, code).

Definition on_world (f : W → W) : SM ShareSender ShareError unit := λ s,
  (Ok tt, mkSender (mkDoor (f (dr_world (sd_door s))) (dr_responder (sd_door s))) (sd_offer s) (sd_sources s) (sd_disk s)).
(** Whether a failure is the sender's own: a panic ends the task. *)
Definition own_failure (e : ShareError) : bool := match e with SLocal | SPanic => true | _ => false end.
(** [ticks] bounds the connections that are accepted. *)
Fixpoint serve_one (ticks : nat) (rng : nat → bytes) : SM ShareSender ShareError unit :=
  match ticks with
  | O => sm_fail SStuck
  | S ticks =>
      s ← sm_get;
      if decide (attempts_left (dr_responder (sd_door s)) = 0) then sm_fail SUsedUp
      else
        connected ← in_door (door_conn (sm_map_err SConn cn_incoming));
        if (connected : bool) then
          r ← attempt (serve_connection (rng ticks));
          match r with
          | Ok _ => on_world cn_closed
          | Err e => _ ← on_world cn_close; if own_failure e then sm_fail e else serve_one ticks rng
          end
        else serve_one ticks rng
  end.
End sender.

(** ** The receiver (receive.rs) *)
Record Received := mkReceived { rc_files : list Path; rc_texts : list rstring }.
Section receiver.
Context `{Postcard, Spake2, ChaCha, Crypto, KeyedHash}.
Context {W : Type} `{Conn W}.

Definition prove_code (rng : bytes) (code : PairingCode) (our_id sender_id : bytes) : SM W ShareError SessionKey :=
  let '(initiator, msg1) := initiator_start rng code our_id sender_id in
  _ ← write_frame msg1;
  msg2 ← read_frame;
  x ← sm_lift (map_err SPake (initiator_accept initiator msg2));
  _ ← write_frame x.2;
  c ← read_frame;
  their_confirm ← sm_lift (as_confirmation c);
  sm_lift (map_err SPake (initiator_verify x.1 their_confirm)).

Definition on_chunk (ss : list StreamRef) (buffers : gmap N bytes) (stream : N) (offset : u64) (b : bytes)
    : result ShareError (gmap N bytes) :=
  meta ← ok_or (ss !! N.to_nat stream) (SUnknownStream stream);
  end_ ← ok_or (checked_add offset (N.of_nat (length b))) SOverflow;
  if (sr_len meta <? end_)%N then Err (SOverrun stream)
  else
    let buffer := default (replicate (N.to_nat (sr_len meta)) Byte.x00) (buffers !! stream) in
    Ok (<[stream := Vfs.splice (N.to_nat offset) b buffer]> buffers).
(** [ticks] bounds the frames that are read. *)
Fixpoint receive_loop (ticks : nat) (ss : list StreamRef) (opener : Channel) (buffers : gmap N bytes)
    : SM W ShareError (gmap N bytes) :=
  match ticks with
  | O => sm_fail SStuck
  | S ticks =>
      x ← read_sealed opener;
      match x.1 with
      | FChunk stream offset b =>
          buffers ← sm_lift (on_chunk ss buffers stream offset b);
          receive_loop ticks ss x.2 buffers
      | FDone => mret buffers
      | other => sm_fail (SUnexpected (frame_kind other))
      end
  end.

(** The offer once it is read: [None] if it was declined. *)
Definition receive_streams (ticks : nat) (decide_ : ShareOffer → bool) (offer : ShareOffer) (sealer opener : Channel)
    : SM W ShareError (option (list StreamRef * gmap N bytes)) :=
  claimed ← sm_lift (ok_or (total_len offer) SPanic);
  if (DEFAULT_MAX_ACCEPT_BYTES <? claimed)%N then
    _ ← sealed_frame sealer FDecline; sm_fail STooBig
  else if negb (decide_ offer) then
    _ ← sealed_frame sealer FDecline;
    ack ← read_sealed opener;
    match ack.1 with
    | FDone => _ ← sm_modify cn_close; mret None
    | other => sm_fail (SUnexpected (frame_kind other))
    end
  else
    ss ← sm_lift (ok_or (streams offer) SPanic);
    let wanted := N.of_nat <$> Stdlib.Lists.List.seq 0 (N.to_nat (N.of_nat (length ss) mod 2 ^ 32)) in
    _ ← sealed_frame sealer (FAccept wanted);
    buffers ← receive_loop ticks ss opener ∅;
    mret (Some (ss, buffers)).
Definition receive_offer (key : SessionKey) : SM W ShareError (ShareOffer * Channel) :=
  x ← read_sealed (key_split key SInitiator).2;
  match x.1 with
  | FOffer offer => mret (offer, x.2)
  | other => sm_fail (SUnexpected (frame_kind other))
  end.

Context {D : Type} `{VaultFs D}.
Record ShareReceiver := mkReceiver { rv_world : W; rv_disk : D }.
Definition rv_conn {A} (m : SM W ShareError A) : SM ShareReceiver ShareError A := λ s,
  let '(r, w) := m (rv_world s) in (r, mkReceiver w (rv_disk s)).
Definition rv_fs {A} (m : SM D io_error A) : SM ShareReceiver ShareError A := λ s,
  let '(r, d) := m (rv_disk s) in (map_err SIo r, mkReceiver (rv_world s) d).
Fixpoint write_streams (dest : Path) (ss : list StreamRef) (buffers : list (N * bytes)) : SM ShareReceiver ShareError (list Path) :=
  match buffers with
  | [] => mret []
  | (stream, b) :: buffers =>
      meta ← sm_lift (ok_or (ss !! N.to_nat stream) SPanic);
      let p := resolve_under (sr_path meta) dest in
      _ ← rv_fs (create_parent (lexical_normalize p));
      _ ← rv_fs (fs_write (lexical_normalize p) b);
      rest ← write_streams dest ss buffers;
      mret (p :: rest)
  end.
Definition inline_texts (o : ShareOffer) : list rstring :=
  omap (λ p, match p with TextItem t | Clipboard t => Some t | _ => None end) (items o).
(** From the opened stream on. *)
Definition receive_share (ticks : nat) (rng : bytes) (code : PairingCode) (our_id sender_id : bytes) (dest : Path)
    (decide_ : ShareOffer → bool) : SM ShareReceiver ShareError Received :=
  key ← rv_conn (prove_code rng code our_id sender_id);
  x ← rv_conn (receive_offer key);
  got ← rv_conn (receive_streams ticks decide_ x.1 (key_split key SInitiator).1 x.2);
  match got with
  | None => mret (mkReceived [] [])
  | Some (ss, buffers) =>
      files ← write_streams dest ss (btree_to_list N.le buffers);
      _ ← rv_conn (sm_modify cn_close);
      mret (mkReceived files (inline_texts x.1))
  end.
End receiver.
