(* ===== verification/ShareSpec.v ===== *)
(** * What a nearby share guarantees

    Names and paths from the wire stay inside the destination, frames round-trip, the
    streams of an offer exist unless a folder's name looks like a drive prefix, nothing is
    revealed or written without a proof of the code, and what a sender can make a
    receiver write. *)
From S2P Require Import Prelude RustStr Vfs Roster Wire Logs Keychain Blob Paths Bridge BridgeSpec Relay Pairing Share.

Create HintDb hears.

(** ** Names *)
Definition safe (n : rstring) : Prop := SafeName_new n = Ok n.

Lemma contains_elem c s : contains c s = true ↔ c ∈ s.
Proof.
  unfold contains. rewrite existsb_exists. split.
  - intros (x&Hx&->%N.eqb_eq). by apply list_elem_of_In.
  - intros Hc. exists c. split; [by apply list_elem_of_In|apply N.eqb_refl].
Qed.

Lemma SafeName_new_ok raw n : SafeName_new raw = Ok n → n = raw.
Proof. unfold SafeName_new. intros Hn. repeat (case_match; [done|]). by simplify_eq. Qed.

(** A name that passes is one ordinary component, without a separator of either kind. *)
Lemma safe_name n : safe n → good_name n = true ∧ (BACKSLASH ∉ n) ∧ (str_len n ≤ MAX_NAME_BYTES)%N.
Proof.
  unfold safe, SafeName_new. case_bool_decide as H1; [done|]. destruct (MAX_NAME_BYTES <? str_len n)%N eqn:Hl; [done|].
  destruct (contains SLASH n || contains BACKSLASH n) eqn:H2; [done|].
  destruct (bool_decide (n = str ".") || bool_decide (n = str "..")) eqn:H3; [done|]. intros _.
  apply orb_false_iff in H2 as [Hs Hb], H3 as [Hd Hdd].
  apply bool_decide_eq_false in Hd, Hdd. rewrite good_name_spec.
  rewrite <-not_true_iff_false, contains_elem in Hs, Hb. split_and!; [done..|lia].
Qed.

Lemma safe_nonempty n : safe n → n ≠ [].
Proof. intros [Hg _]%safe_name ->. done. Qed.

Lemma collect_safe raws parts : collect (SafeName_new <$> raws) = Ok parts → parts = raws ∧ Forall (λ n, safe n) raws.
Proof.
  intros Hc. apply collect_map_ok in Hc. induction Hc as [|r p raws parts Hp Hc IH]; [done|].
  destruct IH as [-> Hall]. apply SafeName_new_ok in Hp as Heq. subst p. split; [done|by constructor].
Qed.
Lemma safe_collect ps : Forall (λ n, safe n) ps → collect (SafeName_new <$> ps) = Ok ps.
Proof. intros Hall. apply collect_map_ok. induction Hall; constructor; done. Qed.

(** The second byte of a path whose first component is not empty is that of the first
    component, or a separator. *)
Lemma utf8_cons c s : utf8 (c :: s) = utf8_char c ++ utf8 s.
Proof. done. Qed.
Lemma drive_prefix_display n ps : n ≠ [] → drive_prefix (path_display (n :: ps)) = drive_prefix n.
Proof.
  intros Hn. destruct ps as [|q ps]; [done|]. unfold drive_prefix.
  change (path_display (n :: q :: ps)) with (n ++ SLASH :: path_display (q :: ps)).
  rewrite utf8_app. destruct n as [|c n]; [done|].
  pose proof (utf8_char_nonempty c) as Hc. rewrite utf8_cons. destruct (utf8_char c) as [|b [|b' bs]] eqn:Eu; [done| |].
  - simpl app. simpl lookup. destruct (utf8 n) as [|x xs] eqn:En; [|done]. done.
  - done.
Qed.

Lemma starts_display n ps c : n ≠ [] → starts_with_char c (path_display (n :: ps)) = starts_with_char c n.
Proof. intros Hn. destruct n as [|x n]; [done|]. by destruct ps. Qed.
Lemma starts_elem c s : starts_with_char c s = true → c ∈ s.
Proof. unfold starts_with_char. rewrite bool_decide_eq_true. destruct s; simpl; [done|]. intros [= ->]. set_solver. Qed.

(** What parsing a path accepts. *)
Lemma RelPath_new_spec raw p :
  RelPath_new raw = Ok p ↔
  raw = path_display p ∧ ∃ n ps, p = n :: ps ∧ Forall (λ n, safe n) p ∧ drive_prefix n = false.
Proof.
  unfold RelPath_new. split.
  - destruct (_ || _) eqn:Hs; [done|]. destruct (drive_prefix raw) eqn:Hd; [done|]. unfold mbind, result_bind.
    destruct (collect (SafeName_new <$> split_on SLASH raw)) as [parts|e] eqn:Hc; [|done].
    apply collect_safe in Hc as [-> Hall]. case_bool_decide; [done|]. intros [= <-].
    unfold path_display. rewrite join_split. split; [done|].
    pose proof (join_split SLASH raw) as Hj. destruct (split_on SLASH raw) as [|n ps]; [done|].
    exists n, ps. split_and!; [done|done|]. apply Forall_cons in Hall as [Hn _].
    rewrite <-Hd, <-Hj. symmetry. by apply drive_prefix_display, safe_nonempty.
  - intros (->&n&ps&->&Hall&Hd). apply Forall_cons in Hall as Hns. destruct Hns as [Hn _].
    pose proof (safe_nonempty n Hn) as Hne. rewrite !starts_display, drive_prefix_display, Hd by done.
    destruct (safe_name n Hn) as ((_&_&_&Hsl)%good_name_spec&Hb&_).
    destruct (starts_with_char SLASH n) eqn:E1; [by apply starts_elem in E1|].
    destruct (starts_with_char BACKSLASH n) eqn:E2; [by apply starts_elem in E2|]. simpl orb. cbv iota.
    unfold path_display. rewrite split_join; [|done|].
    + unfold mbind, result_bind. rewrite safe_collect by done. by rewrite bool_decide_false.
    + eapply Forall_impl; [exact Hall|]. intros x [(_&_&_&Hx)%good_name_spec _]%safe_name. exact Hx.
Qed.

Definition valid_path (p : RelPath) : Prop := RelPath_new (path_display p) = Ok p.
Lemma valid_path_cons n ps : valid_path (n :: ps) ↔ Forall (λ n, safe n) (n :: ps) ∧ drive_prefix n = false.
Proof.
  unfold valid_path. rewrite RelPath_new_spec. split; [intros (_&?&?&[= <- <-]&?&?); done|]. intros [??]. split; [done|]. eauto.
Qed.
Lemma valid_path_safe p : valid_path p → p ≠ [] ∧ Forall (λ n, good_name n = true) p.
Proof.
  intros (_&n&ps&->&Hall&_)%RelPath_new_spec. split; [done|]. eapply Forall_impl; [exact Hall|].
  by intros x [? _]%safe_name.
Qed.
Lemma RelPath_new_valid raw p : RelPath_new raw = Ok p → valid_path p ∧ raw = path_display p.
Proof. intros Hp. pose proof Hp as [-> _]%RelPath_new_spec. by split. Qed.

(** ** Frames *)
Definition meta_valid (m : FileMeta) : Prop := valid_path (fm_path m).
Definition payload_valid (p : Payload) : Prop :=
  match p with File m => meta_valid m | Folder n fs => safe n ∧ Forall meta_valid fs | _ => True end.
Definition offer_valid (o : ShareOffer) : Prop := Forall payload_valid (items o).
Definition frame_valid (f : ShareFrame) : Prop := match f with FOffer o => offer_valid o | _ => True end.

Class PostcardLaws `{Postcard} := { pc_decode_encode w : pc_decode (pc_encode w) = Some w }.

Lemma expect_ok_ok {E A} (r : result E A) a : expect_ok r = Some a ↔ r = Ok a.
Proof. destruct r; simpl; naive_solver. Qed.
Lemma meta_in_spec w m : meta_in w = Some m ↔ w = meta_out m ∧ meta_valid m.
Proof.
  unfold meta_in, meta_out, meta_valid. rewrite bind_Some. setoid_rewrite expect_ok_ok. split.
  - intros (p&[Hv Hr]%RelPath_new_valid&[= <-]). destruct w; simpl in *. by subst.
  - intros [-> Hv]. exists (fm_path m). split; [done|]. by destruct m.
Qed.
Lemma mapM_spec {A B} (f : A → option B) (g : B → A) (P : B → Prop) l k :
  (∀ a b, f a = Some b ↔ a = g b ∧ P b) → mapM f l = Some k ↔ l = g <$> k ∧ Forall P k.
Proof.
  intros Hf. rewrite mapM_Some. split.
  - induction 1 as [|a b l k [-> Hb]%Hf _ [-> Hk]]; [done|]. split; [done|by constructor].
  - intros [-> Hk]. induction Hk as [|b k Hb _ IH]; csimpl; constructor; [by apply Hf|done].
Qed.
Lemma payload_in_spec w p : payload_in w = Some p ↔ w = payload_out p ∧ payload_valid p.
Proof.
  destruct w as [m|n fs|t|t|c]; simpl.
  - rewrite fmap_Some. setoid_rewrite meta_in_spec. split; [by intros (x&[-> Hx]&->)|].
    destruct p; naive_solver.
  - rewrite bind_Some. setoid_rewrite expect_ok_ok. setoid_rewrite bind_Some.
    setoid_rewrite (mapM_spec meta_in meta_out meta_valid _ _ meta_in_spec). split.
    + intros (x&Hn&gs&[-> Hgs]&[= <-]). pose proof (SafeName_new_ok _ _ Hn) as ->. done.
    + destruct p as [|n' gs| | |]; try by intros []. intros [[= -> ->] [Hn Hgs]]. exists n'. split; [done|]. by exists gs.
  - destruct p; naive_solver.
  - destruct p; naive_solver.
  - destruct p; naive_solver.
Qed.
Lemma frame_in_spec w f : frame_in w = Some f ↔ w = frame_out f ∧ frame_valid f.
Proof.
  destruct w as [from ps|ss| |s o b|]; simpl; try by (destruct f; naive_solver).
  rewrite bind_Some. setoid_rewrite (mapM_spec payload_in payload_out payload_valid _ _ payload_in_spec). split.
  - intros (qs&[-> Hqs]&[= <-]). done.
  - destruct f as [[from' qs]| | | |]; try by intros []. intros [[= -> ->] Hqs]. by exists qs.
Qed.
Lemma frame_decode_encode `{PostcardLaws} f : frame_valid f → frame_decode (frame_encode f) = Some f.
Proof. intros Hv. unfold frame_decode, frame_encode. rewrite pc_decode_encode. simpl. by apply frame_in_spec. Qed.
Lemma decode_valid `{Postcard} b f : frame_decode b = Some f → frame_valid f.
Proof. unfold frame_decode. rewrite bind_Some. by intros (w&_&[_ Hv]%frame_in_spec). Qed.

(** ** Streams *)
Lemma folder_path_spec n p :
  safe n → valid_path p →
  RelPath_new (n ++ SLASH :: path_display p) = if drive_prefix n then Err Absolute else Ok (n :: p).
Proof.
  intros Hn Hp. pose proof Hp as (_&q&ps&->&Hall&_)%RelPath_new_spec.
  change (n ++ SLASH :: path_display (q :: ps)) with (path_display (n :: q :: ps)).
  destruct (drive_prefix n) eqn:Hd; [|apply valid_path_cons; split; [by constructor|done]].
  unfold RelPath_new. pose proof (safe_nonempty n Hn). rewrite drive_prefix_display, Hd by done. by destruct (_ || _).
Qed.

Definition stream_valid (r : StreamRef) : Prop := valid_path (sr_path r).
Lemma payload_streams_valid i p ss : payload_valid p → payload_streams i p = Some ss → Forall stream_valid ss.
Proof.
  destruct p as [m|n fs|t|t|c]; simpl; intros Hv; [intros [= <-]; by constructor| |by intros [= <-]..].
  intros Hm. apply mapM_Some in Hm. destruct Hv as [Hn Hv]. induction Hm as [|m r fs ss Hr _ IH]; [done|].
  apply Forall_cons in Hv as [Hm Hv]. constructor; [|by apply IH]. unfold folder_stream in Hr.
  apply bind_Some in Hr as (p&Hp%expect_ok_ok&[= <-]). by apply RelPath_new_valid in Hp as [? _].
Qed.
Lemma streams_valid o ss : offer_valid o → streams o = Some ss → Forall stream_valid ss.
Proof.
  unfold offer_valid, streams. generalize (items o) 0. intros ps. revert ss.
  induction ps as [|p ps IH]; intros ss i Hv; simpl; [intros [= <-]; done|].
  apply Forall_cons in Hv as [Hp Hv]. rewrite bind_Some. intros (here&Hh&Hr). apply bind_Some in Hr as (rest&Hr&[= <-]).
  apply Forall_app. split; [by eapply payload_streams_valid|by eapply IH].
Qed.

(** A folder whose name looks like a drive. *)
Definition drive_folder (p : Payload) : Prop :=
  match p with Folder n (_ :: _) => drive_prefix n = true | _ => False end.
Lemma payload_streams_None i p : payload_valid p → payload_streams i p = None ↔ drive_folder p.
Proof.
  destruct p as [m|n fs|t|t|c]; simpl; [naive_solver| |naive_solver..]. intros [Hn Hv].
  destruct (drive_prefix n) eqn:Hd.
  - destruct fs as [|m fs]; [simpl; naive_solver|]. apply Forall_cons in Hv as [Hm _].
    assert (folder_stream i n m = None) as Hf by (unfold folder_stream; by rewrite folder_path_spec, Hd).
    simpl. by rewrite Hf.
  - split; [|by destruct fs]. intros Hnone. exfalso.
    enough (is_Some (mapM (folder_stream i n) fs)) as [? ?] by congruence. apply mapM_is_Some. rewrite Forall_forall in Hv |- *. intros m Hm%Hv.
    change (is_Some (folder_stream i n m)). unfold folder_stream. rewrite folder_path_spec, Hd by done. simpl. eauto.
Qed.
Lemma streams_None o : offer_valid o → streams o = None ↔ ∃ p, p ∈ items o ∧ drive_folder p.
Proof.
  unfold offer_valid, streams. generalize (items o) 0. induction l as [|p ps IH]; intros i Hv; simpl; [set_solver|].
  apply Forall_cons in Hv as [Hp Hv]. pose proof (payload_streams_None i p Hp) as Hh. pose proof (IH (S i) Hv) as Hr.
  setoid_rewrite elem_of_cons. destruct (payload_streams i p), (streams_from (S i) ps); simpl; naive_solver.
Qed.
Lemma total_len_None o : total_len o = None ↔ streams o = None.
Proof. unfold total_len. by destruct (streams o). Qed.
(** The claimed total bounds the sum, unless it saturates. *)
Lemma total_len_sum o ss t :
  streams o = Some ss → total_len o = Some t → (t < U64_MAX)%N → t = foldl (λ a s, a + sr_len s)%N 0%N ss.
Proof.
  unfold total_len. intros ->. simpl. intros [= <-] Hlt.
  assert (∀ ss a, (foldl (λ acc s, saturating_add acc (sr_len s)) a ss < U64_MAX)%N →
    foldl (λ acc s, saturating_add acc (sr_len s)) a ss = foldl (λ a s, a + sr_len s)%N a ss ∧ (a < U64_MAX)%N) as Hgo.
  { clear. induction ss as [|s ss IH]; intros a; [done|]. intros Hl. destruct (IH _ Hl) as [Heq Hs].
    cbn [foldl] in *. rewrite Heq. unfold saturating_add in *. rewrite N.min_l by lia. split; [done|lia]. }
  by apply Hgo.
Qed.

(** ** What was heard

    A connection that also keeps a log of what was read from it. *)
Record Heard (W : Type) := mkHeard { hd_world : W; hd_log : list bytes }.
Arguments mkHeard {W} _ _.
Arguments hd_world {W} _.
Arguments hd_log {W} _.
Definition unheard {W E A} (m : SM W E A) : SM (Heard W) E A := λ t,
  let '(r, w) := m (hd_world t) in (r, mkHeard w (hd_log t)).
Definition heard_read `{Conn W} (n : N) : SM (Heard W) ConnError bytes := λ t,
  let '(r, w) := cn_read_exact n (hd_world t) in
  (r, mkHeard w (match r with Ok b => hd_log t ++ [b] | Err _ => hd_log t end)).
#[global] Instance Heard_conn `{Conn W} : Conn (Heard W) :=
  {| cn_incoming := unheard cn_incoming; cn_accept_bi := unheard cn_accept_bi; cn_remote_id t := cn_remote_id (hd_world t);
     cn_write_all b := unheard (cn_write_all b); cn_read_exact := heard_read; cn_finish := unheard cn_finish;
     cn_closed t := mkHeard (cn_closed (hd_world t)) (hd_log t); cn_close t := mkHeard (cn_close (hd_world t)) (hd_log t) |}.

Section heard.
Context `{Postcard, Spake2, ChaCha, Crypto, KeyedHash}.
Context {W : Type} `{Conn W}.
Abbreviation HW := (Heard W).

Definition hears {E A} (m : SM HW E A) : Prop := ∀ t, hd_log t ⊆ hd_log (m t).2.
Lemma hears_same {E A} (m : SM HW E A) : (∀ t, hd_log (m t).2 = hd_log t) → hears m.
Proof. intros Hm t. by rewrite Hm. Qed.
Lemma hears_unheard {E A} (m : SM W E A) : hears (unheard m).
Proof. apply hears_same. intros t. unfold unheard. by destruct (m (hd_world t)). Qed.
Lemma hears_ret {E A} (a : A) : hears (mret a : SM HW E A).
Proof. by apply hears_same. Qed.
Lemma hears_fail {E A} (e : E) : hears (sm_fail e : SM HW E A).
Proof. by apply hears_same. Qed.
Lemma hears_lift {E A} (r : result E A) : hears (sm_lift r : SM HW E A).
Proof. by apply hears_same. Qed.
Lemma hears_map_err {E F A} (f : E → F) (m : SM HW E A) : hears m → hears (sm_map_err f m).
Proof. intros Hm t. apply Hm. Qed.
Lemma hears_read_exact n : hears (cn_read_exact n : SM HW ConnError bytes).
Proof. intros t. simpl. unfold heard_read. destruct (cn_read_exact n (hd_world t)) as [[b|e] w]; set_solver. Qed.
Lemma hears_bind {E A B} (m : SM HW E A) (k : A → SM HW E B) : hears m → (∀ a, hears (k a)) → hears (m ≫= k).
Proof.
  intros Hm Hk t. unfold mbind, SM_bind. specialize (Hm t). destruct (m t) as [[a|e] t1]; [|done].
  etrans; [exact Hm|apply Hk].
Qed.
#[local] Hint Resolve hears_unheard hears_ret hears_fail hears_lift hears_map_err hears_read_exact hears_bind : hears.
Ltac hear := repeat (first [apply hears_bind; [|intros ?] | case_match | progress (eauto with hears)]).

Lemma hears_write b : hears (write_frame b : SM HW ShareError unit).
Proof. unfold write_frame. case_decide; [|apply hears_fail]. apply hears_bind; [|intros _]; apply hears_map_err, hears_unheard. Qed.
Lemma hears_read : hears (read_frame : SM HW ShareError bytes).
Proof. unfold read_frame. hear. Qed.
Lemma hears_accept : hears (sm_map_err SConn cn_accept_bi : SM HW ShareError unit).
Proof. apply hears_map_err. apply hears_unheard. Qed.
Lemma hears_sealed c f : hears (sealed_frame c f : SM HW ShareError Channel).
Proof. unfold sealed_frame. apply hears_bind; [apply hears_lift|intros x]. apply hears_bind; [apply hears_write|intros _]. apply hears_ret. Qed.
Lemma hears_read_sealed c : hears (read_sealed c : SM HW ShareError (ShareFrame * Channel)).
Proof. apply hears_bind; [apply hears_read|intros b]. apply hears_lift. Qed.
Lemma hears_chunks i n cs c : hears (send_stream_chunks i n cs c : SM HW ShareError Channel).
Proof. revert n c. induction cs as [|x cs IH]; intros n c; [apply hears_ret|]. apply hears_bind; [apply hears_sealed|intros; apply IH]. Qed.
Lemma hears_streams `{VaultFs D} ss src (d : D) acc c : hears (send_streams ss src d acc c : SM HW ShareError Channel).
Proof.
  revert c. induction acc as [|i acc IH]; intros c; [apply hears_ret|]. cbn [send_streams].
  do 3 (apply hears_bind; [apply hears_lift|intros ?]). apply hears_bind; [apply hears_chunks|intros; apply IH].
Qed.
Lemma hears_hand_over `{VaultFs D} o src (d : D) key : hears (hand_over o src d key : SM HW ShareError unit).
Proof.
  unfold hand_over. destruct (key_split key SResponder) as [sealer opener].
  apply hears_bind; [apply hears_sealed|intros c]. apply hears_bind; [apply hears_read_sealed|intros [[]?]]; cbn [fst];
    try apply hears_fail.
  - apply hears_bind; [apply hears_lift|intros ss]. apply hears_bind; [apply hears_streams|intros c'].
    apply hears_bind; [apply hears_sealed|intros _]. apply hears_map_err, hears_unheard.
  - apply hears_bind; [apply hears_sealed|intros _]. apply hears_bind; [apply hears_map_err, hears_unheard|intros _].
    by apply hears_same.
Qed.
(** A frame that was read is in the log. *)
Lemma read_heard (t t' : HW) b : read_frame t = (Ok b, t') → b ∈ hd_log t'.
Proof.
  unfold read_frame. intros (h&t1&_&Hrun)%sm_bind_ok. destruct (_ <? _)%N; [done|]. revert Hrun.
  unfold sm_map_err. simpl. unfold heard_read. destruct (cn_read_exact _ _) as [[x|e] w]; [|done]. simpl.
  intros [= <- <-]. simpl. set_solver.
Qed.

(** *** The sender at its door *)
Section sender.
Context {D : Type} `{VaultFs D}.
(** The code that is shown, the sender's id, and the randomness of its connections. *)
Context (code : PairingCode) (rid : bytes) (rng : nat → bytes).
Abbreviation HDoor := (Door (W := HW)).
Abbreviation Sender := (ShareSender (W := HW) (D := D)).

(** The sender has read a first message and the confirmation it expects of that run. *)
Definition proof_heard (t : HW) : Prop :=
  ∃ k id msg1 p msg2, msg1 ∈ hd_log t ∧ pr_expected p ∈ hd_log t ∧
    respond (rng k) (responder_new code rid) id msg1 = Ok (p, msg2).
Lemma proof_later (t t' : HW) : hd_log t ⊆ hd_log t' → proof_heard t → proof_heard t'.
Proof. intros Hl (k&id&m1&p&m2&Hm&Hp&Hr). exists k, id, m1, p, m2. split_and!; [by apply Hl|by apply Hl|done]. Qed.

Definition shows (d : HDoor) : Prop := re_code (dr_responder d) = code ∧ re_responder_id (dr_responder d) = rid.
(** From a door in [Q]: what is heard is kept, a success ends in [R], and a failure is not
    the sender's own. *)
Definition door_triple {A} (Q : HDoor → Prop) (m : SM HDoor ShareError A) (R : A → HDoor → Prop) : Prop :=
  ∀ d x d', shows d → Q d → m d = (x, d') →
    shows d' ∧ hd_log (dr_world d) ⊆ hd_log (dr_world d') ∧ match x with Ok a => R a d' | Err e => own_failure e = false end.
Lemma door_triple_bind {A B} Q R T (m : SM HDoor ShareError A) (k : A → SM HDoor ShareError B) :
  door_triple Q m R → (∀ a, door_triple (R a) (k a) T) → door_triple Q (m ≫= k) T.
Proof.
  intros Hm Hk d x d' Hs Hq. unfold mbind, SM_bind. destruct (m d) as [[a|e] d1] eqn:E; intros Hrun.
  - destruct (Hm _ _ _ Hs Hq E) as (Hs1&L1&Hr). destruct (Hk _ _ _ _ Hs1 Hr Hrun) as (Hs2&L2&Ht).
    split_and!; [done| |done]. by etrans.
  - injection Hrun as <- <-. by apply (Hm _ _ _ Hs Hq E).
Qed.
Lemma door_triple_lift {A} (r : result ShareError A) Q :
  match r with Ok _ => True | Err e => own_failure e = false end → door_triple Q (sm_lift r) (λ a d, r = Ok a ∧ Q d).
Proof. intros Hr d x d' Hs Hq [= <- <-]. split_and!; [done|by intros ?|]. by destruct r. Qed.
Lemma door_triple_get {B} Q (k : HDoor → SM HDoor ShareError B) T :
  (∀ d, door_triple (λ d', d' = d ∧ shows d ∧ Q d) (k d) T) → door_triple Q (sm_get ≫= k) T.
Proof. intros Hk d x d' Hs Hq Hrun. by apply (Hk d d x d' Hs). Qed.
(** A call on the connection: it hears the log and its failures are not the sender's. *)
Definition outside {A} (m : SM HW ShareError A) : Prop := ∀ t e t', m t = (Err e, t') → own_failure e = false.
Lemma outside_conn {A} (m : SM HW ConnError A) : outside (sm_map_err SConn m).
Proof. intros t e t'. unfold sm_map_err. by destruct (m t) as [[a|c] t1]; intros [= <- _]. Qed.
Lemma outside_bind {A B} (m : SM HW ShareError A) (k : A → SM HW ShareError B) :
  outside m → (∀ a, outside (k a)) → outside (m ≫= k).
Proof.
  intros Hm Hk t e t'. unfold mbind, SM_bind. destruct (m t) as [[a|c] t1] eqn:E; [apply Hk|]. intros [= <- _]. by eapply Hm.
Qed.
Lemma outside_fail {A} e : own_failure e = false → outside (sm_fail e : SM HW ShareError A).
Proof. by intros He t e' t' [= <- _]. Qed.
Lemma outside_write b : outside (write_frame b).
Proof. unfold write_frame. case_decide; [apply outside_bind; [|intros _]; apply outside_conn|by apply outside_fail]. Qed.
Lemma outside_read : outside read_frame.
Proof. apply outside_bind; [apply outside_conn|]. intros h. case_match; [by apply outside_fail|apply outside_conn]. Qed.
Lemma door_triple_conn {A} (m : SM HW ShareError A) (P : HW → Prop) :
  hears m → outside m → (∀ t t', hd_log t ⊆ hd_log t' → P t → P t') →
  door_triple (λ d, P (dr_world d)) (door_conn m) (λ a d, P (dr_world d) ∧ ∃ t, m t = (Ok a, dr_world d)).
Proof.
  intros Hg Ho Hp d x d' Hs Hq. unfold door_conn. specialize (Hg (dr_world d)).
  destruct (m (dr_world d)) as [[a|e] t] eqn:E; intros [= <- <-]; (split; [done|]; split; [done|]).
  - split; [|by exists (dr_world d)]. by eapply Hp.
  - by eapply Ho.
Qed.

Lemma door_respond k (d : HDoor) id msg1 x :
  shows d → respond (rng k) (dr_responder d) id msg1 = Ok x → respond (rng k) (responder_new code rid) id msg1 = Ok x.
Proof. intros [Hc Hr]. unfold respond. case_decide; [done|]. by rewrite Hc, Hr. Qed.
Lemma door_triple_verify p c :
  door_triple (λ d, True) (door_verify p c) (λ _ _, c = pr_expected p).
Proof.
  intros d x d' Hs _. unfold door_verify, responder_verify, macs_match. case_decide; [intros [= <- <-]; split_and!; [done|by intros ?|done]|].
  case_bool_decide as Hm; simpl; intros [= <- <-]; (split_and!; [done|by intros ?|done]).
Qed.
Lemma own_pake {A} (r : result PakeError A) : match map_err SPake r with Ok _ => True | Err e => own_failure e = false end.
Proof. by destruct r. Qed.
Lemma own_confirmation b : match as_confirmation b with Ok _ => True | Err e => own_failure e = false end.
Proof. unfold as_confirmation. by case_decide. Qed.
Lemma as_confirmation_ok b c : as_confirmation b = Ok c → c = b.
Proof. unfold as_confirmation. by case_decide; [intros [= <-]|]. Qed.

Definition kept (P : HW → Prop) : Prop := ∀ t t', hd_log t ⊆ hd_log t' → P t → P t'.
Lemma door_triple_write P b : kept P → door_triple (λ d, P (dr_world d)) (door_conn (write_frame b)) (λ _ d, P (dr_world d)).
Proof.
  intros Hp d x d' Hs Hq Hrun. destruct (door_triple_conn _ P (hears_write b) (outside_write b) Hp d x d' Hs Hq Hrun) as (?&?&?).
  split; [done|]. split; [done|]. destruct x; [tauto|done].
Qed.
Lemma door_triple_read P :
  kept P → door_triple (λ d, P (dr_world d)) (door_conn read_frame) (λ c d, P (dr_world d) ∧ c ∈ hd_log (dr_world d)).
Proof.
  intros Hp d x d' Hs Hq Hrun. destruct (door_triple_conn _ P hears_read outside_read Hp d x d' Hs Hq Hrun) as (?&?&Hx).
  split; [done|]. split; [done|]. destruct x as [c|]; [|done]. destruct Hx as (?&t&Ht). split; [done|]. by eapply read_heard.
Qed.
Lemma door_triple_accept : door_triple (λ _, True) (door_conn (sm_map_err SConn cn_accept_bi)) (λ _ _, True).
Proof.
  intros d x d' Hs _ Hrun.
  destruct (door_triple_conn (sm_map_err SConn cn_accept_bi) (λ _, True) hears_accept (outside_conn _)
    ltac:(done) d x d' Hs I Hrun) as (?&?&?). split_and!; [done..|]. by destruct x.
Qed.
Lemma door_triple_pre {A} (Q Q' : HDoor → Prop) (m : SM HDoor ShareError A) R :
  (∀ d, shows d → Q d → Q' d) → door_triple Q' m R → door_triple Q m R.
Proof. intros Hq Hm d x d' Hs Hd. apply Hm; auto. Qed.
(** A key is given out only to a proof. *)
Lemma door_triple_authenticate k : door_triple (λ _, True) (authenticate (rng k)) (λ _ d, proof_heard (dr_world d)).
Proof.
  unfold authenticate. apply door_triple_get. intros d0. eapply door_triple_bind; [by eapply door_triple_pre, door_triple_accept|intros ?].
  eapply door_triple_bind; [by apply (door_triple_read (λ _, True))|]. intros msg1. apply door_triple_get. intros d1.
  eapply door_triple_bind; [apply door_triple_lift, own_pake|]. intros [p msg2].
  set (opened := λ t : HW, ∃ id, msg1 ∈ hd_log t ∧ respond (rng k) (responder_new code rid) id msg1 = Ok (p, msg2)).
  assert (kept opened) as Hst by (intros t t' Hl (id&Hm&Hr); exists id; split; [by apply Hl|done]).
  eapply door_triple_bind; [eapply door_triple_pre, (door_triple_write opened); [|done]|intros ?].
  { intros d Hs (Hx&->&_&_&Hm). exists (cn_remote_id (dr_world d0)). split; [done|].
    destruct (respond _ (dr_responder d1) _ _) as [y|] eqn:Er; [|done]. injection Hx as ->. by eapply door_respond. }
  eapply door_triple_bind; [by apply door_triple_read|]. intros c.
  eapply door_triple_bind; [apply door_triple_lift, own_confirmation|]. intros confirm.
  eapply (door_triple_bind _ (λ _ d, proof_heard (dr_world d))).
  { intros d x d' Hs (->%as_confirmation_ok&(id&Hm&Hr)&Hc) Hrun.
    destruct (door_triple_verify p c d x d' Hs I Hrun) as (?&Hl&Hx). split_and!; [done..|]. destruct x as [y|]; [|done]. subst c.
    exists k, id, msg1, p, msg2. split_and!; [by apply Hl|by apply Hl|done]. }
  intros y. eapply door_triple_bind; [apply (door_triple_write proof_heard); exact proof_later|].
  intros ? d x d' Hs Hp [= <- <-]. split_and!; [done|by intros ?|done].
Qed.

(** *** The sender's loop *)
Definition slog (s : Sender) : list bytes := hd_log (dr_world (sd_door s)).
Lemma connection_log k s x s' : serve_connection (rng k) s = (x, s') → shows (sd_door s) → slog s ⊆ slog s' ∧ shows (sd_door s').
Proof.
  intros Hrun Hs. unfold serve_connection, mbind, SM_bind, in_door in Hrun.
  destruct (authenticate (rng k) (sd_door s)) as [[key|e] d] eqn:Ea;
    destruct (door_triple_authenticate k _ _ _ Hs I Ea) as (Hs'&Hl&_); [|by injection Hrun as _ <-].
  unfold sm_get, door_conn in Hrun. cbn [sd_door sd_offer sd_sources sd_disk] in Hrun.
  pose proof (hears_hand_over (sd_offer s) (sd_sources s) (sd_disk s) key (dr_world d)) as Hg.
  destruct (hand_over _ _ _ key (dr_world d)) as [r t]. injection Hrun as _ <-. split; [|done].
  unfold slog. simpl. by etrans.
Qed.
(** A connection that does not prove the code learns and does the same whatever is offered. *)
Lemma connection_blind k s1 s2 x1 s1' x2 s2' :
  shows (sd_door s1) → sd_door s1 = sd_door s2 →
  serve_connection (rng k) s1 = (x1, s1') → serve_connection (rng k) s2 = (x2, s2') →
  (x1 = x2 ∧ sd_door s1' = sd_door s2' ∧ ∃ e, x1 = Err e ∧ own_failure e = false) ∨
  (proof_heard (dr_world (sd_door s1')) ∧ proof_heard (dr_world (sd_door s2'))).
Proof.
  intros Hs Heq Hr1 Hr2. pose proof (connection_log _ _ _ _ Hr1 Hs) as [L1 _].
  unfold serve_connection, mbind, SM_bind, in_door in Hr1, Hr2. rewrite <-Heq in Hr2.
  destruct (authenticate (rng k) (sd_door s1)) as [[key|e] d] eqn:Ea;
    destruct (door_triple_authenticate k _ _ _ Hs I Ea) as (Hs'&Hl&Hx).
  - right. unfold sm_get, door_conn in Hr1, Hr2. cbn [sd_door sd_offer sd_sources sd_disk] in Hr1, Hr2.
    pose proof (hears_hand_over (sd_offer s1) (sd_sources s1) (sd_disk s1) key (dr_world d)) as Hg1.
    pose proof (hears_hand_over (sd_offer s2) (sd_sources s2) (sd_disk s2) key (dr_world d)) as Hg2.
    destruct (hand_over (sd_offer s1) _ _ key _) as [r1 t1], (hand_over (sd_offer s2) _ _ key _) as [r2 t2].
    injection Hr1 as _ <-. injection Hr2 as _ <-. simpl. split; by eapply proof_later.
  - left. injection Hr1 as <- <-. injection Hr2 as <- <-. split_and!; [done|done|]. eauto.
Qed.
Lemma incoming_log (s : Sender) x s' :
  in_door (door_conn (sm_map_err SConn cn_incoming)) s = (x, s') → slog s ⊆ slog s' ∧ (shows (sd_door s) → shows (sd_door s')).
Proof.
  unfold in_door, door_conn. pose proof (hears_map_err SConn (cn_incoming : SM HW ConnError bool)) as Hg.
  specialize (Hg (hears_unheard _) (dr_world (sd_door s))).
  destruct (sm_map_err SConn cn_incoming (dr_world (sd_door s))) as [r t]. by intros [= _ <-].
Qed.
(** One turn of the loop, and what follows a connection. *)
Definition after (ticks : nat) (q : result ShareError unit) : SM Sender ShareError unit :=
  match q with
  | Ok _ => on_world cn_closed
  | Err e => _ ← on_world cn_close; if own_failure e then sm_fail e else serve_one ticks rng
  end.
Lemma serve_one_step t (s : Sender) :
  serve_one (S t) rng s =
    if decide (attempts_left (dr_responder (sd_door s)) = 0) then (Err SUsedUp, s)
    else match in_door (door_conn (sm_map_err SConn cn_incoming)) s with
         | (Ok true, u) => let '(q, v) := serve_connection (rng t) u in after t q v
         | (Ok false, u) => serve_one t rng u
         | (Err e, u) => (Err e, u)
         end.
Proof.
  cbn [serve_one]. unfold mbind at 1, SM_bind at 1, sm_get at 1. case_decide; [done|]. unfold mbind at 1, SM_bind at 1.
  destruct (in_door _ s) as [[[|]|e] u]; [|done..]. unfold mbind at 1, SM_bind at 1, attempt.
  by destruct (serve_connection (rng t) u) as [q v].
Qed.
Lemma serve_one_log ticks s x s' : shows (sd_door s) → serve_one ticks rng s = (x, s') → slog s ⊆ slog s'.
Proof.
  revert s. induction ticks as [|t IH]; intros s Hs; [by intros [= _ <-]|]. rewrite serve_one_step.
  case_decide; [by intros [= _ <-]|]. destruct (in_door _ s) as [[[|]|e] u] eqn:E1; apply incoming_log in E1 as [L1 Hs1]; specialize (Hs1 Hs).
  - destruct (serve_connection (rng t) u) as [q v] eqn:E2. destruct (connection_log _ _ _ _ E2 Hs1) as [L2 Hs2].
    intros Hrun. etrans; [exact L1|]. etrans; [exact L2|]. destruct q as [y|e]; [by injection Hrun as _ <-|]. revert Hrun.
    unfold after, mbind, SM_bind, on_world. destruct (own_failure e); [by intros [= _ <-]|]. by intros Hrun%IH.
  - intros Hrun%IH; [|done]. by etrans.
  - by intros [= _ <-].
Qed.
Lemma after_log ticks (v : Sender) q x s' : shows (sd_door v) → after ticks q v = (x, s') → slog v ⊆ slog s'.
Proof.
  intros Hs. destruct q as [u|e]; [by intros [= _ <-]|]. unfold after, mbind, SM_bind, on_world.
  destruct (own_failure e); [by intros [= _ <-]|]. intros Hrun. by apply serve_one_log in Hrun.
Qed.

Abbreviation peer_end r := (r = Err SUsedUp ∨ r = Err SStuck ∨ ∃ c, r = Err (SConn c)).
(** C19: Without the code a peer learns nothing and ends nothing: two senders with the same code,
    connection and guesses left, whatever each of them offers, go through any sequence of
    connections in the same way - the same bytes on the wire, the same guesses spent, the same
    outcome, which is never a success and never a failure other than a spent budget or
    a closed endpoint - unless a connection sent the confirmation that the sender
    computes from its code. *)
Theorem offer_needs_code ticks (s1 s2 : Sender) r1 s1' r2 s2' :
  re_code (dr_responder (sd_door s1)) = code → re_responder_id (dr_responder (sd_door s1)) = rid → sd_door s1 = sd_door s2 →
  serve_one ticks rng s1 = (r1, s1') → serve_one ticks rng s2 = (r2, s2') →
  (r1 = r2 ∧ sd_door s1' = sd_door s2' ∧ peer_end r1) ∨
  (proof_heard (dr_world (sd_door s1')) ∧ proof_heard (dr_world (sd_door s2'))).
Proof.
  intros Hc Hi. assert (shows (sd_door s1)) as Hs by done. clear Hc Hi. revert s1 s2 Hs.
  induction ticks as [|t IH]; intros s1 s2 Hs Heq; [intros [= <- <-] [= <- <-]; left; eauto|].
  rewrite !serve_one_step, <-Heq. case_decide; [intros [= <- <-] [= <- <-]; left; eauto|].
  destruct (in_door _ s1) as [y1 u1] eqn:E1, (in_door _ s2) as [y2 u2] eqn:E2.
  assert (y1 = y2 ∧ sd_door u1 = sd_door u2 ∧ ∀ e, y1 = Err e → ∃ c, e = SConn c) as (<-&Hu&Hy).
  { unfold in_door, door_conn, sm_map_err in E1, E2. rewrite <-Heq in E2. destruct (cn_incoming _) as [z w].
    injection E1 as <- <-. injection E2 as <- <-. split_and!; [done..|]. intros e. destruct z; [done|]. intros [= <-]. eauto. }
  apply incoming_log in E1 as [_ Hs1]. specialize (Hs1 Hs). destruct y1 as [[|]|e].
  - destruct (serve_connection (rng t) u1) as [q1 v1] eqn:F1, (serve_connection (rng t) u2) as [q2 v2] eqn:F2.
    destruct (connection_log _ _ _ _ F1 Hs1) as [_ Hv1].
    assert (shows (sd_door u2)) as Hs2 by (by rewrite <-Hu). destruct (connection_log _ _ _ _ F2 Hs2) as [_ Hv2].
    destruct (connection_blind _ _ _ _ _ _ _ Hs1 Hu F1 F2) as [(<-&Hv&e&->&He)|[P1 P2]].
    + unfold after, mbind, SM_bind, on_world. rewrite He. apply IH; [done|]. simpl. by rewrite Hv.
    + intros R1%after_log R2%after_log; [|done..]. right. split; by eapply proof_later.
  - by apply IH.
  - intros [= <- <-] [= <- <-]. left. split_and!; [done|done|]. destruct (Hy e eq_refl) as [c ->]. eauto.
Qed.
End sender.
End heard.

(** ** What a receiver writes *)
Section receiver.
Context `{Postcard, Spake2, ChaCha, Crypto, KeyedHash}.
Context {W D : Type} `{Conn W} `{VaultFsLaws D}.
Context (rng : bytes) (code : PairingCode) (our_id sender_id : bytes) (dest : Path).
Abbreviation HW := (Heard W).
Abbreviation Receiver := (ShareReceiver (W := HW) (D := D)).

(** The receiver has read the confirmation it expects of a holder of the code. *)
Definition sender_proved (t : HW) : Prop :=
  ∃ msg2 p ours, msg2 ∈ hd_log t ∧ pi_expected p ∈ hd_log t ∧
    initiator_accept (initiator_start rng code our_id sender_id).1 msg2 = Ok (p, ours).
Lemma proved_later (t t' : HW) : hd_log t ⊆ hd_log t' → sender_proved t → sender_proved t'.
Proof. intros Hl (m&p&o&Hm&Hp&Ha). exists m, p, o. split_and!; [by apply Hl|by apply Hl|done]. Qed.
Lemma code_proved (t t' : HW) key : prove_code rng code our_id sender_id t = (Ok key, t') → sender_proved t'.
Proof.
  unfold prove_code, sender_proved. destruct (initiator_start rng code our_id sender_id) as [ini msg1].
  intros (u1&t1&_&Hr)%sm_bind_ok. apply sm_bind_ok in Hr as (msg2&t2&E2&Hr). apply read_heard in E2.
  apply sm_bind_ok in Hr as ([p ours]&t3&[= Ha <-]&Hr). apply sm_bind_ok in Hr as (u4&t4&E4&Hr).
  apply sm_bind_ok in Hr as (c&t5&E5&Hr). pose proof (read_heard _ _ _ E5) as Hc.
  apply sm_bind_ok in Hr as (c'&t6&[= ->%as_confirmation_ok <-]&Hr). injection Hr as Hv ->.
  exists msg2, p, ours. cbn [fst snd] in *.
  pose proof (hears_write ours t2) as G4. rewrite E4 in G4. pose proof (hears_read t4) as G5. rewrite E5 in G5. split_and!.
  - by apply G5, G4.
  - unfold initiator_verify, macs_match in Hv. case_bool_decide as Hm; [|done]. by rewrite Hm.
  - destruct (initiator_accept ini msg2); [|done]. by injection Ha as ->.
Qed.

(** Every buffer has the length its stream declares. *)
Definition buffer_ok (ss : list StreamRef) (i : N) (b : bytes) : Prop :=
  ∃ r, ss !! N.to_nat i = Some r ∧ N.of_nat (length b) = sr_len r.
Definition buffers_ok (ss : list StreamRef) (m : gmap N bytes) : Prop := ∀ i b, m !! i = Some b → buffer_ok ss i b.
Lemma on_chunk_ok ss m i o b m' : buffers_ok ss m → on_chunk ss m i o b = Ok m' → buffers_ok ss m'.
Proof.
  intros Hm. unfold on_chunk. destruct (ss !! N.to_nat i) as [r|] eqn:Er; [|done]. simpl. unfold checked_add.
  case_decide; [|done]. simpl. destruct (_ <? _)%N eqn:Hl; [done|]. intros [= <-] j c. rewrite lookup_insert.
  case_decide as Hj; [|apply Hm]. intros [= <-]. subst j. exists r. split; [done|]. rewrite length_splice.
  assert (N.of_nat (length (default (replicate (N.to_nat (sr_len r)) Byte.x00) (m !! i))) = sr_len r) as Hd.
  { destruct (m !! i) as [x|] eqn:Ex; simpl; [|rewrite length_replicate; lia]. destruct (Hm _ _ Ex) as (r'&Hr'&Hx). congruence. }
  lia.
Qed.
Lemma receive_loop_ok ticks ss c m (t : HW) m' t' :
  buffers_ok ss m → receive_loop ticks ss c m t = (Ok m', t') → buffers_ok ss m'.
Proof.
  revert c m t. induction ticks as [|k IH]; intros c m t Hm; [done|]. cbn [receive_loop].
  intros (x&t1&_&Hr)%sm_bind_ok. destruct (x.1); try done.
  - apply sm_bind_ok in Hr as (m1&t2&[= Hc <-]&Hr). by eapply IH, Hr; [eapply on_chunk_ok].
  - by injection Hr as <- _.
Qed.
Lemma hears_loop ticks ss c m : hears (receive_loop ticks ss c m : SM HW ShareError _).
Proof.
  revert c m. induction ticks as [|k IH]; intros c m; [apply hears_fail|]. cbn [receive_loop].
  apply hears_bind; [apply hears_read_sealed|]. intros x. destruct (x.1); try apply hears_fail; [|apply hears_ret].
  apply hears_bind; [apply hears_lift|]. intros m1. apply IH.
Qed.
Lemma hears_receive ticks dec o c1 c2 : hears (receive_streams ticks dec o c1 c2 : SM HW ShareError _).
Proof.
  unfold receive_streams. apply hears_bind; [apply hears_lift|]. intros n. destruct (_ <? n)%N.
  { apply hears_bind; [apply hears_sealed|intros; apply hears_fail]. }
  destruct (negb _).
  - apply hears_bind; [apply hears_sealed|intros _]. apply hears_bind; [apply hears_read_sealed|intros y].
    destruct (y.1); try apply hears_fail. by apply hears_bind; [apply hears_same|intros; apply hears_ret].
  - apply hears_bind; [apply hears_lift|intros ss]. apply hears_bind; [apply hears_sealed|intros _].
    apply hears_bind; [apply hears_loop|intros m; apply hears_ret].
Qed.
Lemma received_streams ticks dec o c1 c2 (t : HW) ss m t' :
  receive_streams ticks dec o c1 c2 t = (Ok (Some (ss, m)), t') →
  ∃ total, dec o = true ∧ streams o = Some ss ∧ total_len o = Some total ∧ (total ≤ DEFAULT_MAX_ACCEPT_BYTES)%N ∧ buffers_ok ss m.
Proof.
  unfold receive_streams. intros (n&t1&[= Hn <-]&Hr)%sm_bind_ok. exists n. destruct (total_len o) as [n'|]; [|done].
  injection Hn as ->. destruct (_ <? n)%N eqn:Hl; [by apply sm_bind_ok in Hr as (?&?&_&?)|].
  destruct (dec o); cbn [negb] in Hr; [|apply sm_bind_ok in Hr as (?&?&_&Hr); apply sm_bind_ok in Hr as (y&?&_&Hr)].
  - apply sm_bind_ok in Hr as (ss'&t2&[= Hs <-]&Hr). apply sm_bind_ok in Hr as (?&t3&_&Hr).
    apply sm_bind_ok in Hr as (m'&t4&Hloop&[= <- <- _]). destruct (streams o); [|done]. injection Hs as ->.
    split_and!; [done..|lia|]. eapply receive_loop_ok, Hloop. by intros i b.
  - by destruct (y.1).
Qed.
Lemma offer_read_valid key (t : HW) x t' : receive_offer key t = (Ok x, t') → offer_valid x.1.
Proof.
  unfold receive_offer. intros (y&t1&E&Hr)%sm_bind_ok. unfold read_sealed in E. apply sm_bind_ok in E as (b&t2&_&[= Ho _]).
  destruct y as [f c]. destruct f; try done. injection Hr as <- _. unfold open_frame in Ho. revert Ho.
  destruct (ch_open _ b) as [[p|e]|]; [|done..]. simpl. destruct (frame_decode p.1) as [f|] eqn:Ef; [|done].
  intros [= -> _]. by apply decode_valid in Ef.
Qed.

(** A path of the offer, written to the destination. *)
Definition written_for (ss : list StreamRef) (q : path) (b : bytes) : Prop :=
  ∃ r, r ∈ ss ∧ q = lexical_normalize dest ++ sr_path r ∧ Forall (λ n, good_name n = true) (sr_path r) ∧
    N.of_nat (length b) = sr_len r.
Definition only_wrote (ss : list StreamRef) (f f' : gmap path bytes) : Prop :=
  ∀ q, f' !! q = f !! q ∨ ∃ b, f' !! q = Some b ∧ written_for ss q b.
Lemma only_wrote_trans ss f1 f2 f3 : only_wrote ss f1 f2 → only_wrote ss f2 f3 → only_wrote ss f1 f3.
Proof. intros H12 H23 q. destruct (H23 q) as [->|]; [apply H12|by right]. Qed.
Lemma write_streams_ok ss l (s : Receiver) x s' :
  fs_inv (rv_disk s) → (∀ ns, Forall (λ n, good_name n = true) ns → fs_path (lexical_normalize dest ++ ns)) →
  Forall stream_valid ss → Forall (λ x, buffer_ok ss x.1 x.2) l → write_streams dest ss l s = (x, s') →
  fs_inv (rv_disk s') ∧ rv_world s' = rv_world s ∧ only_wrote ss (files (rv_disk s)) (files (rv_disk s')).
Proof.
  intros Hinv Hp Hss. revert s x s' Hinv. induction l as [|[i b] l IH]; intros s x s' Hinv Hl.
  { intros [= _ <-]. split_and!; [done..|]. by left. }
  apply Forall_cons in Hl as [(r&Hr&Hb) Hl]. cbn [fst snd] in *. cbn [write_streams]. rewrite Hr.
  unfold mbind at 1, SM_bind at 1. cbn [ok_or sm_lift]. unfold sm_lift.
  apply list_elem_of_lookup_2 in Hr as Hin. rewrite Forall_forall in Hss. destruct (valid_path_safe _ (Hss r Hin)) as [Hne Hgood].
  assert (lexical_normalize (resolve_under (sr_path r) dest) = lexical_normalize dest ++ sr_path r) as ->
    by (by apply normalize_push_names). set (p := lexical_normalize dest ++ sr_path r).
  unfold mbind at 1, SM_bind at 1, rv_fs at 1. pose proof (create_parent_spec p (rv_disk s) Hinv) as Hc.
  destruct (create_parent p (rv_disk s)) as [r1 d1]. destruct Hc as (->&Hi1&Hf1). cbn [map_err].
  unfold mbind at 1, SM_bind at 1, rv_fs at 1. cbn [rv_disk rv_world]. pose proof (fs_write_spec p b d1 Hi1 (Hp _ Hgood)) as Hw.
  destruct (fs_write p b d1) as [r2 d2]. destruct Hw as [Hi2 Hf2].
  assert (only_wrote ss (files (rv_disk s)) (files d2)) as Hstep.
  { rewrite Hf2, Hf1. destruct r2 as [u|e]; simpl; [|by left]. intros q. rewrite lookup_insert. case_decide as Hq; [|by left].
    right. exists b. split; [done|]. exists r. split_and!; done. }
  destruct r2 as [u|e]; cbn [map_err]; [|by intros [= _ <-]].
  unfold mbind, SM_bind. destruct (write_streams dest ss l (mkReceiver (rv_world s) d2)) as [r3 s3] eqn:E3.
  destruct (IH (mkReceiver (rv_world s) d2) r3 s3 Hi2 Hl E3) as (Hi3&Hw3&Ho3). cbn [rv_disk rv_world] in *.
  destruct r3; intros [= _ <-]; (split_and!; [done..|]); by eapply only_wrote_trans.
Qed.

(** C18: What a stranger can make this device write: after a receive has run against any sender,
    however it ended, either no file changed, or the sender proved the code, the offer
    was accepted, it claims at most the limit, and every file that changed is one of
    the offer's streams, inside the destination directory (its components are ordinary
    names, so no path climbs out of it), with exactly the length that was declared. *)
Theorem received_inside ticks dec (s : Receiver) res s' :
  fs_inv (rv_disk s) → (∀ ns, Forall (λ n, good_name n = true) ns → fs_path (lexical_normalize dest ++ ns)) →
  receive_share ticks rng code our_id sender_id dest dec s = (res, s') →
  fs_inv (rv_disk s') ∧
  (files (rv_disk s') = files (rv_disk s) ∨
   sender_proved (rv_world s') ∧
   ∃ offer ss total, dec offer = true ∧ streams offer = Some ss ∧ total_len offer = Some total ∧ (total ≤ DEFAULT_MAX_ACCEPT_BYTES)%N ∧
     only_wrote ss (files (rv_disk s)) (files (rv_disk s'))).
Proof.
  intros Hinv Hp. unfold receive_share. unfold mbind at 1, SM_bind at 1, rv_conn at 1.
  destruct (prove_code rng code our_id sender_id (rv_world s)) as [[key|e] t1] eqn:E1; [|intros [= _ <-]; split; [done|by left]].
  apply code_proved in E1. unfold mbind at 1, SM_bind at 1, rv_conn at 1. cbn [rv_world rv_disk].
  assert (hd_log t1 ⊆ hd_log (receive_offer key t1).2) as G2.
  { apply hears_bind; [apply hears_read_sealed|]. intros x. destruct (x.1); try apply hears_fail; apply hears_ret. }
  destruct (receive_offer key t1) as [[[offer c]|e] t2] eqn:E2; [|intros [= _ <-]; split; [done|by left]].
  apply offer_read_valid in E2. unfold mbind at 1, SM_bind at 1, rv_conn at 1. cbn [rv_world rv_disk fst snd] in *.
  pose proof (hears_receive ticks dec offer (key_split key SInitiator).1 c t2) as G3.
  destruct (receive_streams ticks dec offer _ c t2) as [[[[ss m]|]|e] t3] eqn:E3; [|intros [= _ <-]; split; [done|by left]..].
  destruct (received_streams _ _ _ _ _ _ _ _ _ E3) as (total&Hd&Hss&Ht&Hle&Hm). cbn [snd] in *.
  assert (sender_proved t3) as Hpr by (eapply proved_later, E1; by etrans).
  unfold mbind, SM_bind. destruct (write_streams dest ss _ (mkReceiver t3 (rv_disk s))) as [r4 s4] eqn:E4.
  apply write_streams_ok in E4 as (Hi4&Hw4&Ho4); [|done|done|by eapply streams_valid|].
  2:{ apply Forall_forall. intros [i b] Hin%elem_of_btree. by apply Hm. }
  cbn [rv_world rv_disk] in *.
  destruct r4 as [fs|e]; intros [= _ <-]; (split; [done|]; right; split; [cbn; by rewrite ?Hw4|]); exists offer, ss, total; done.
Qed.
End receiver.

(** ** Where an offer goes wrong *)
Section defects.
(** An offer can stop the receiver with a panic: every offer made of valid names decodes, and
    its streams are defined unless it has a non-empty folder whose name has a colon as its
    second byte, such as a:b; of such an offer [total_len] panics, before the human is asked
    and before any limit is checked. *)
Theorem drive_folder_panics `{PostcardLaws, Spake2, ChaCha, Crypto, KeyedHash} {W : Type} `{Conn W} (o : ShareOffer) :
  offer_valid o →
  frame_decode (frame_encode (FOffer o)) = Some (FOffer o) ∧
  (total_len o = None ↔ ∃ p, p ∈ items o ∧ drive_folder p) ∧
  (total_len o = None → ∀ ticks dec c1 c2 (t : W), receive_streams ticks dec o c1 c2 t = (Err SPanic, t)).
Proof.
  intros Hv. split_and!.
  - by apply frame_decode_encode.
  - rewrite total_len_None. by apply streams_None.
  - intros Hn ticks dec c1 c2 t. unfold receive_streams. by rewrite Hn.
Qed.

Context {D : Type} `{VaultFs D} (is_symlink : path → D → bool) (depth : nat) (d : D).
Definition regular (p : Path) : Prop := is_symlink (lexical_normalize p) d = false ∧ fs_is_dir (lexical_normalize p) d = false.
Lemma offer_regular acc p n x :
  regular p → file_name p = Some n → offer_path is_symlink depth d acc p = Ok x →
  ∃ len, fs_file_len (lexical_normalize p) d = Ok len ∧ safe n ∧ drive_prefix n = false ∧
    x = (acc.1 ++ [File (mkFileMeta [n] (N.of_nat len))], <[[n] := p]> acc.2).
Proof.
  intros [Hs Hd] Hn. unfold offer_path. rewrite Hs, Hd, Hn. destruct (negb _); [done|]. simpl.
  destruct (SafeName_new n) as [m|e] eqn:Em; [|done]. simpl. apply SafeName_new_ok in Em as Heq. subst m.
  destruct (fs_file_len (lexical_normalize p) d) as [len|e]; [|done]. simpl.
  destruct (RelPath_new n) as [rel|e] eqn:Er; [|done]. simpl. intros [= <-]. exists len.
  apply RelPath_new_spec in Er as (Hraw&m&ps&->&Hall&Hdr).
  assert (m = n ∧ ps = []) as [-> ->].
  { assert (split_on SLASH n = m :: ps) as Hsp.
    { rewrite Hraw. unfold path_display. apply split_join; [done|]. eapply Forall_impl; [exact Hall|].
      by intros y [(_&_&_&?)%good_name_spec _]%safe_name. }
    destruct (safe_name n Em) as ((_&_&_&Hsl)%good_name_spec&_). rewrite split_on_no_sep in Hsp by done. by injection Hsp as <- <-. }
  by split_and!.
Qed.
(** Two files of the same name cannot be shared together: when the last component of two
    regular files is the same, the offer lists two streams with one and the same path and
    the only source recorded for that path is the second file, so that its bytes are sent
    for both and the first file is never read. *)
Theorem same_name_offer_loses (from : rstring) (p1 p2 : Path) (n : rstring) (o : ShareOffer) (src : SourceMap) :
  regular p1 → regular p2 → file_name p1 = Some n → file_name p2 = Some n →
  offer_paths is_symlink depth from [p1; p2] d = Ok (o, src) →
  src = {[ [n] := p2 ]} ∧
  ∃ len1 len2, fs_file_len (lexical_normalize p1) d = Ok len1 ∧ fs_file_len (lexical_normalize p2) d = Ok len2 ∧
    streams o = Some [mkStreamRef 0 [n] (N.of_nat len1); mkStreamRef 1 [n] (N.of_nat len2)].
Proof.
  intros Hr1 Hr2 Hn1 Hn2. unfold offer_paths. cbn [foldl]. unfold mbind, result_bind.
  destruct (offer_path is_symlink depth d ([], ∅) p1) as [x1|e] eqn:E1; [|done].
  destruct (offer_regular _ _ _ _ Hr1 Hn1 E1) as (len1&Hl1&_&_&->).
  destruct (offer_path is_symlink depth d _ p2) as [x2|e] eqn:E2; [|done].
  destruct (offer_regular _ _ _ _ Hr2 Hn2 E2) as (len2&Hl2&_&_&->). cbn [fst snd app].
  intros [= <- <-]. split; [by rewrite insert_insert_eq|]. exists len1, len2. by split_and!.
Qed.
End defects.
