(* ===== verification/ShareRun.v ===== *)
(** * A complete share

    Two runs joined by their byte streams: what the sender reads is what the receiver
    wrote and the other way round.  Every offered file that is not empty arrives byte for
    byte. *)
From S2P Require Import Prelude RustStr Vfs Roster Wire Keychain Blob Paths Bridge BridgeSpec Relay Pairing PairingSpec Share ShareSpec.

(** ** A pair of byte streams *)
Record Pipe := mkPipe { p_in : bytes; p_out : bytes }.
Definition pipe_read (n : N) : SM Pipe ConnError bytes := λ p,
  if decide (N.to_nat n ≤ length (p_in p)) then (Ok (take (N.to_nat n) (p_in p)), mkPipe (drop (N.to_nat n) (p_in p)) (p_out p))
  else (Err Lost, p).
Definition pipe_write (b : bytes) : SM Pipe ConnError unit := λ p, (Ok tt, mkPipe (p_in p) (p_out p ++ b)).
(** [remote] is the id of the other end. *)
Definition pipe_conn (remote : bytes) : Conn Pipe :=
  {| cn_incoming := mret true; cn_accept_bi := mret tt; cn_remote_id _ := remote; cn_write_all := pipe_write;
     cn_read_exact := pipe_read; cn_finish := mret tt; cn_closed p := p; cn_close p := p |}.

(** Sizes of what is sent: ChaCha20-Poly1305 appends a 16-byte tag, postcard writes
    integers as varints of at most ten bytes. *)
Class ShareSizes `{ChaCha, Postcard} := {
  seal_len k n p : length (chacha_seal k n p) = length p + 16;
  chunk_len s o b : (s < 2 ^ 32)%N → is_u64 o → length (pc_encode (WChunk s o b)) ≤ length b + 21;
  done_len : length (pc_encode WDone) ≤ 21;
}.

Definition small (b : bytes) : Prop := (N.of_nat (length b) ≤ MAX_FRAME_BYTES)%N.
Definition framed (b : bytes) : bytes := le_bytes 4 (N.of_nat (length b)) ++ b.
Lemma small_u32 b : small b → (N.of_nat (length b) < 2 ^ 32)%N.
Proof. unfold small, MAX_FRAME_BYTES. lia. Qed.

Section pipe.
Context (remote : bytes).
#[local] Instance the_conn : Conn Pipe := pipe_conn remote.
Lemma write_pipe b i o : small b → write_frame b (mkPipe i o) = (Ok tt, mkPipe i (o ++ framed b)).
Proof.
  intros Hb%small_u32. unfold write_frame. rewrite decide_True by done. unfold mbind, SM_bind, sm_map_err. simpl.
  unfold pipe_write. simpl. unfold framed. by rewrite (assoc_L app).
Qed.
Lemma pipe_take b i o : pipe_read (N.of_nat (length b)) (mkPipe (b ++ i) o) = (Ok b, mkPipe i o).
Proof.
  unfold pipe_read. cbn [p_in p_out]. rewrite Nat2N.id, decide_True by (rewrite length_app; lia).
  by rewrite take_app_length, drop_app_length.
Qed.
Lemma read_pipe b i o : small b → read_frame (mkPipe (framed b ++ i) o) = (Ok b, mkPipe i o).
Proof.
  intros Hb. pose proof (small_u32 b Hb) as Hu. unfold read_frame, framed, mbind, SM_bind, sm_map_err. change (@cn_read_exact Pipe _) with pipe_read.
  rewrite <-(assoc_L app). pose proof (pipe_take (le_bytes 4 (N.of_nat (length b))) (b ++ i) o) as Hh.
  rewrite length_le_bytes in Hh. change (N.of_nat 4) with 4%N in Hh. rewrite Hh. cbn [fst snd map_err].
  rewrite from_le_le_bytes, N.mod_small by done. destruct (MAX_FRAME_BYTES <? _)%N eqn:El; [unfold small in Hb; lia|].
  by rewrite pipe_take.
Qed.

(** ** Sealed frames on the wire *)
Context `{PostcardLaws, ChaChaLaws, Spake2Laws, Crypto, KeyedHashLaws}.
Section sealed.
Context (key : bytes).

Definition sealed_at (n : N) (f : ShareFrame) : bytes := chacha_seal key (nonce_for n) (frame_encode f).
Fixpoint wire (n : N) (fs : list ShareFrame) : bytes :=
  match fs with [] => [] | f :: fs => framed (sealed_at n f) ++ wire (n + 1) fs end.
(** Every frame fits, the counter does not run out, and the other side can decode it. *)
Fixpoint fits (n : N) (fs : list ShareFrame) : Prop :=
  match fs with
  | [] => True
  | f :: fs => small (sealed_at n f) ∧ is_u64 (n + 1) ∧ frame_valid f ∧ fits (n + 1) fs
  end.
Lemma wire_app n fs gs : wire n (fs ++ gs) = wire n fs ++ wire (n + N.of_nat (length fs)) gs.
Proof.
  revert n. induction fs as [|f fs IH]; intros n; cbn [wire app length]; [by rewrite N.add_0_r|].
  rewrite IH, (assoc_L app). do 2 f_equal. lia.
Qed.
Lemma fits_app n fs gs : fits n (fs ++ gs) ↔ fits n fs ∧ fits (n + N.of_nat (length fs)) gs.
Proof.
  revert n. induction fs as [|f fs IH]; intros n; simpl; [rewrite N.add_0_r; tauto|].
  rewrite IH. replace (n + 1 + N.of_nat (length fs))%N with (n + N.of_nat (S (length fs)))%N by lia. tauto.
Qed.
Lemma next_counter_u64 n : is_u64 (n + 1) → next_counter n = Some (n + 1)%N.
Proof. intros Hn. unfold next_counter. by rewrite decide_True. Qed.
Lemma send_one n f i o :
  small (sealed_at n f) → is_u64 (n + 1) →
  sealed_frame (mkChannel key n) f (mkPipe i o) = (Ok (mkChannel key (n + 1)), mkPipe i (o ++ framed (sealed_at n f))).
Proof.
  intros Hs Hn. unfold sealed_frame, ch_seal. cbn [ch_counter ch_key]. rewrite next_counter_u64 by done.
  unfold mbind, SM_bind, option_bind, sm_lift. cbn [ok_or fst snd]. unfold sealed_at in *. by rewrite write_pipe.
Qed.
Lemma open_sealed n f : is_u64 (n + 1) → frame_valid f → open_frame (mkChannel key n) (sealed_at n f) = Ok (f, mkChannel key (n + 1)).
Proof.
  intros Hn Hv. unfold open_frame, ch_open, sealed_at. cbn [ch_counter ch_key]. rewrite chacha_open_seal, next_counter_u64 by done.
  unfold mbind, option_bind, result_bind. cbn [ok_or map_err fst snd]. by rewrite frame_decode_encode.
Qed.
Lemma read_one n f i o :
  small (sealed_at n f) → is_u64 (n + 1) → frame_valid f →
  read_sealed (mkChannel key n) (mkPipe (framed (sealed_at n f) ++ i) o) = (Ok (f, mkChannel key (n + 1)), mkPipe i o).
Proof.
  intros Hs Hn Hv. unfold read_sealed, mbind, SM_bind. rewrite read_pipe by done. unfold sm_lift. by rewrite open_sealed.
Qed.

(** *** The chunks of one stream *)
Fixpoint chunk_frames (index n : N) (cs : list bytes) : list ShareFrame :=
  match cs with [] => [] | c :: cs => FChunk index (n * CHUNK_BYTES) c :: chunk_frames index (n + 1) cs end.
Definition stream_frames (index : N) (b : bytes) : list ShareFrame := chunk_frames index 0 (chunks (N.to_nat CHUNK_BYTES) b).

Lemma send_chunks_wire index k cs n i o :
  fits n (chunk_frames index k cs) →
  send_stream_chunks index k cs (mkChannel key n) (mkPipe i o) =
    (Ok (mkChannel key (n + N.of_nat (length (chunk_frames index k cs)))), mkPipe i (o ++ wire n (chunk_frames index k cs))).
Proof.
  revert k n o. induction cs as [|c cs IH]; intros k n o; cbn [chunk_frames fits send_stream_chunks wire length].
  { intros _. by rewrite N.add_0_r, app_nil_r. }
  intros (Hs&Hn&_&Hf). unfold mbind, SM_bind. rewrite send_one by done. rewrite IH by done.
  rewrite <-(assoc_L app). do 3 f_equal. lia.
Qed.
Context {D : Type} `{VaultFs D}.
Lemma send_streams_wire ss src (d : D) (data : N → bytes) accepted n i o :
  (∀ j, j ∈ accepted → ∃ r p, ss !! N.to_nat j = Some r ∧ src !! sr_path r = Some p ∧ fs_read (lexical_normalize p) d = Ok (data j)) →
  let fs := accepted ≫= λ j, stream_frames j (data j) in
  fits n fs →
  send_streams ss src d accepted (mkChannel key n) (mkPipe i o) =
    (Ok (mkChannel key (n + N.of_nat (length fs))), mkPipe i (o ++ wire n fs)).
Proof.
  intros Hdata. simpl. revert n o. induction accepted as [|j acc IH]; intros n o; csimpl.
  { intros _. by rewrite N.add_0_r, app_nil_r. }
  destruct (Hdata j) as (r&p&Hr&Hp&Hb); [set_solver|]. rewrite fits_app. intros [Hf1 Hf2].
  unfold mbind, SM_bind, sm_lift. rewrite Hr. cbn [ok_or]. rewrite Hp. cbn [ok_or]. rewrite Hb. cbn [map_err].
  unfold stream_frames in *. rewrite send_chunks_wire by done.
  change (list_bind _ _ ?f ?l) with (l ≫= f) in *. rewrite IH; [|set_solver|done].
  rewrite wire_app, length_app, (assoc_L app). do 3 f_equal. lia.
Qed.
End sealed.

(** *** Putting chunks together *)
Fixpoint apply_chunks (ss : list StreamRef) (m : gmap N bytes) (fs : list ShareFrame) : result ShareError (gmap N bytes) :=
  match fs with
  | [] => Ok m
  | FChunk s o b :: fs => m ← on_chunk ss m s o b; apply_chunks ss m fs
  | f :: _ => Err (SUnexpected (frame_kind f))
  end.
Lemma apply_chunks_app ss m fs gs m1 : apply_chunks ss m fs = Ok m1 → apply_chunks ss m (fs ++ gs) = apply_chunks ss m1 gs.
Proof.
  revert m. induction fs as [|f fs IH]; intros m; simpl; [by intros [= <-]|]. destruct f; try done.
  unfold mbind, result_bind. destruct (on_chunk ss m stream offset b); [|done]. apply IH.
Qed.
Lemma splice_at (pre c : bytes) k :
  length c ≤ k → Vfs.splice (length pre) c (pre ++ replicate k Byte.x00) = (pre ++ c) ++ replicate (k - length c) Byte.x00.
Proof.
  intros Hk. pose proof (splice_app 0 c pre (replicate k Byte.x00)) as Hs. rewrite Nat.add_0_r in Hs. rewrite Hs, <-(assoc_L app).
  f_equal. replace k with (length c + (k - length c)) at 1 by lia. rewrite replicate_add. apply splice_0. by rewrite length_replicate.
Qed.
Section assemble.
Context (ss : list StreamRef) (index : N) (r : StreamRef) (b : bytes).
Context (Hr : ss !! N.to_nat index = Some r) (Hlen : sr_len r = N.of_nat (length b)) (Hu : is_u64 (sr_len r)).
Abbreviation CH := (N.to_nat CHUNK_BYTES).
Abbreviation buffer_of m := (default (replicate (N.to_nat (sr_len r)) Byte.x00) (m !! index)).
Lemma on_chunk_at (m : gmap N bytes) pre c k :
  buffer_of m = pre ++ replicate k Byte.x00 → length c ≤ k → length pre + k = length b →
  on_chunk ss m index (N.of_nat (length pre)) c = Ok (<[index := (pre ++ c) ++ replicate (k - length c) Byte.x00]> m).
Proof.
  intros Hb Hc Hk. unfold on_chunk, is_u64 in *. rewrite Hr. unfold mbind, result_bind. cbn [ok_or]. unfold checked_add, is_u64.
  rewrite decide_True by lia. cbn [ok_or]. destruct (_ <? _)%N eqn:El; [lia|]. rewrite Hb, Nat2N.id, splice_at by done. done.
Qed.
Lemma chunk_pos : 0 < CH.
Proof. unfold CHUNK_BYTES. lia. Qed.
Lemma assemble_go fuel rest pre n (m : gmap N bytes) :
  length rest ≤ fuel → b = pre ++ rest → (rest ≠ [] → N.of_nat (length pre) = n * CHUNK_BYTES)%N →
  buffer_of m = pre ++ replicate (length rest) Byte.x00 →
  apply_chunks ss m (chunk_frames index n (chunks_go fuel CH rest)) = Ok (if decide (rest = []) then m else <[index := b]> m).
Proof.
  revert rest pre n m. induction fuel as [|fuel IH]; intros rest pre n m Hf Hb Hn Hm; destruct rest as [|x rest]; try done;
    [simpl in Hf; lia|]. remember (x :: rest) as l eqn:El. assert (l ≠ []) as Hl by (by rewrite El).
  assert (chunks_go (S fuel) CH l = take CH l :: chunks_go fuel CH (drop CH l)) as -> by (by rewrite El).
  clear x rest El. pose proof chunk_pos as Hpos. cbn [chunk_frames apply_chunks]. rewrite <-Hn by done.
  assert (length (take CH l) ≤ length l) as Ht by (rewrite length_take; lia).
  rewrite (on_chunk_at m pre (take CH l) (length l) Hm Ht) by (rewrite Hb, length_app; lia). unfold mbind, result_bind.
  assert (length l ≠ 0) as Hl0 by (by destruct l).
  rewrite (IH (drop CH l) (pre ++ take CH l) (n + 1)%N).
  - rewrite (decide_False (P := l = [])) by done. f_equal. rewrite insert_insert_eq. case_decide as Hd; [|done].
    assert (length l ≤ CH) as Hle by (apply (f_equal length) in Hd; rewrite length_drop in Hd; simpl in Hd; lia).
    by rewrite take_ge, Nat.sub_diag, app_nil_r, Hb by done.
  - rewrite length_drop. lia.
  - by rewrite <-(assoc_L app), take_drop.
  - intros Hd. rewrite length_app, length_take. specialize (Hn Hl).
    assert (CH < length l) by (destruct (decide (length l ≤ CH)) as [Hle|]; [by rewrite drop_ge in Hd|lia]). lia.
  - rewrite lookup_insert_eq. simpl. f_equal. f_equal. rewrite length_drop, length_take. lia.
Qed.
Lemma assemble (m : gmap N bytes) :
  m !! index = None → apply_chunks ss m (stream_frames index b) = Ok (if decide (b = []) then m else <[index := b]> m).
Proof.
  intros Hm. apply (assemble_go (length b) b [] 0 m); [done..|]. rewrite Hm. simpl. by rewrite Hlen, Nat2N.id.
Qed.
End assemble.

(** *** All streams *)
Definition collected (data : N → bytes) (m : gmap N bytes) (acc : list N) : gmap N bytes :=
  foldl (λ m j, if decide (data j = []) then m else <[j := data j]> m) m acc.
Definition all_frames (data : N → bytes) (acc : list N) : list ShareFrame := acc ≫= λ j, stream_frames j (data j).
Lemma all_frames_cons data j acc : all_frames data (j :: acc) = stream_frames j (data j) ++ all_frames data acc.
Proof. done. Qed.
Lemma collected_other data m acc j : j ∉ acc → collected data m acc !! j = m !! j.
Proof.
  revert m. induction acc as [|k acc IH]; intros m Hj; [done|]. simpl. rewrite IH by set_solver.
  case_decide; [done|]. rewrite lookup_insert_ne; [done|set_solver].
Qed.
Lemma collected_in data m acc j :
  j ∈ acc → NoDup acc → m !! j = None → collected data m acc !! j = if decide (data j = []) then None else Some (data j).
Proof.
  revert m. induction acc as [|k acc IH]; intros m Hj Hnd Hm; [by apply not_elem_of_nil in Hj|].
  apply NoDup_cons in Hnd as [Hk Hnd]. simpl. apply elem_of_cons in Hj as [->|Hj].
  - fold (collected data (if decide (data k = []) then m else <[k := data k]> m) acc). rewrite collected_other by done.
    case_decide; [done|]. by rewrite lookup_insert_eq.
  - apply IH; [done..|]. destruct (decide (data k = [])); [done|]. rewrite lookup_insert_ne; [done|set_solver].
Qed.
Definition backed (ss : list StreamRef) (data : N → bytes) (j : N) : Prop :=
  ∃ r, ss !! N.to_nat j = Some r ∧ sr_len r = N.of_nat (length (data j)) ∧ is_u64 (sr_len r).
Lemma assemble_all ss data acc (m : gmap N bytes) :
  NoDup acc → (∀ j, j ∈ acc → m !! j = None ∧ backed ss data j) →
  apply_chunks ss m (all_frames data acc) = Ok (collected data m acc).
Proof.
  revert m. induction acc as [|j acc IH]; intros m Hnd Hacc; [done|]. rewrite all_frames_cons. cbn [collected foldl]. apply NoDup_cons in Hnd as [Hj Hnd].
  destruct (Hacc j) as [Hm (r&Hr&Hl&Hu)]; [set_solver|].
  erewrite apply_chunks_app by (by eapply assemble). rewrite IH; [done|done|]. intros k Hk. destruct (Hacc k) as [Hmk Hb]; [set_solver|].
  split; [|done]. case_decide; [done|]. rewrite lookup_insert_ne; [done|set_solver].
Qed.
Lemma receive_loop_wire key ticks ss fs n m m' i o :
  apply_chunks ss m fs = Ok m' → fits key n (fs ++ [FDone]) → length fs < ticks →
  receive_loop ticks ss (mkChannel key n) m (mkPipe (wire key n (fs ++ [FDone]) ++ i) o) = (Ok m', mkPipe i o).
Proof.
  revert ticks n m. induction fs as [|f fs IH]; intros [|ticks] n m; try (intros; simpl in *; lia).
  - intros [= <-] (Hs&Hn&Hv&_) _. cbn [app wire receive_loop]. rewrite app_nil_r. unfold mbind, SM_bind. by rewrite read_one.
  - intros Ha (Hs&Hn&Hv&Hf) Ht. cbn [app wire receive_loop]. rewrite <-(assoc_L app). unfold mbind at 1, SM_bind at 1.
    rewrite read_one by done. cbn [fst snd]. destruct f as [| | |s off b|]; try done. cbn [apply_chunks] in Ha. revert Ha.
    unfold mbind at 1, result_bind. unfold mbind, SM_bind, sm_lift. destruct (on_chunk ss m s off b) as [m1|]; [|done].
    intros Ha. apply IH; [done|done|]. simpl in Ht. lia.
Qed.

(** *** Sizes *)
Context `{!ShareSizes}.
Lemma small_encoded key n f : (N.of_nat (length (frame_encode f)) + 16 ≤ MAX_FRAME_BYTES)%N → small (sealed_at key n f).
Proof. unfold small, sealed_at. rewrite seal_len. lia. Qed.
Definition sendable (f : ShareFrame) : Prop := frame_valid f ∧ (N.of_nat (length (frame_encode f)) + 16 ≤ MAX_FRAME_BYTES)%N.
Lemma fits_sendable key n fs : Forall sendable fs → is_u64 (n + N.of_nat (length fs)) → fits key n fs.
Proof.
  revert n. induction fs as [|f fs IH]; intros n Hfs Hn; [done|]. apply Forall_cons in Hfs as [[Hv Hl] Hfs].
  cbn [length] in Hn. unfold is_u64 in *. cbn [fits]. unfold is_u64. split_and!; [by apply small_encoded|lia|done|].
  apply IH; [done|]. lia.
Qed.
Lemma chunk_frames_sendable index fuel rest n :
  (index < 2 ^ 32)%N → is_u64 (n * CHUNK_BYTES + N.of_nat (length rest)) →
  Forall sendable (chunk_frames index n (chunks_go fuel (N.to_nat CHUNK_BYTES) rest)).
Proof.
  intros Hi. revert rest n. induction fuel as [|fuel IH]; intros [|x rest] n Hn; try done.
  remember (x :: rest) as l eqn:El.
  assert (chunks_go (S fuel) (N.to_nat CHUNK_BYTES) l =
    take (N.to_nat CHUNK_BYTES) l :: chunks_go fuel (N.to_nat CHUNK_BYTES) (drop (N.to_nat CHUNK_BYTES) l)) as -> by (by rewrite El).
  clear El. cbn [chunk_frames]. unfold is_u64 in *. constructor.
  - split; [done|]. pose proof (chunk_len index (n * CHUNK_BYTES) (take (N.to_nat CHUNK_BYTES) l) Hi ltac:(unfold is_u64; lia)) as Hc.
    pose proof (length_take l (N.to_nat CHUNK_BYTES)) as Ht. unfold frame_encode. cbn [frame_out]. unfold CHUNK_BYTES, MAX_FRAME_BYTES in *. lia.
  - destruct (decide (length l ≤ N.to_nat CHUNK_BYTES)) as [Hle|Hgt].
    + rewrite drop_ge by done. by destruct fuel.
    + apply IH. rewrite length_drop. lia.
Qed.
Lemma length_chunk_frames index n cs : length (chunk_frames index n cs) = length cs.
Proof. revert n. induction cs as [|c cs IH]; intros n; simpl; [done|]. by rewrite IH. Qed.
Lemma length_chunks_go fuel n l : length (chunks_go fuel n l) ≤ fuel.
Proof. revert l. induction fuel as [|fuel IH]; intros [|x l]; simpl; try lia. apply le_n_S, IH. Qed.
Lemma stream_frames_ok index b :
  (index < 2 ^ 32)%N → is_u64 (N.of_nat (length b)) →
  Forall sendable (stream_frames index b) ∧ length (stream_frames index b) ≤ length b.
Proof.
  intros Hi Hb. unfold stream_frames, chunks. rewrite length_chunk_frames. split; [|apply length_chunks_go].
  by apply chunk_frames_sendable.
Qed.

(** ** The two runs *)
Section exchange.
(** The receiver's id is [remote]. *)
Context (rngA rngB : bytes) (code : PairingCode) (sender_id k : bytes).
Abbreviation startA := (spake_start_a rngA (utf8 code) remote sender_id).
Abbreviation startB := (spake_start_b rngB (utf8 code) remote sender_id).
Abbreviation mac side := (confirm_mac k side remote sender_id startA.2 startB.2).
Context (HkA : spake_finish startA.1 startB.2 = Some k) (HkB : spake_finish startB.1 startA.2 = Some k).
Context (HmA : small startA.2) (HmB : small startB.2).

Lemma mac_len side : length (mac side) = 32.
Proof. apply keyed_hash_len. Qed.
Lemma mac_small side : small (mac side).
Proof. unfold small. rewrite mac_len. unfold MAX_FRAME_BYTES. lia. Qed.
Lemma mac_confirmation side : as_confirmation (mac side) = Ok (mac side).
Proof. unfold as_confirmation. by rewrite decide_True by apply mac_len. Qed.

Lemma sender_auth left rest o :
  left ≠ 0 →
  authenticate rngB (mkDoor (mkPipe (framed startA.2 ++ framed (mac SInitiator) ++ rest) o) (mkResponder code sender_id left)) =
    (Ok (session_key k), mkDoor (mkPipe rest (o ++ framed startB.2 ++ framed (mac SResponder))) (mkResponder code sender_id left)).
Proof.
  intros Hl. unfold authenticate, mbind, SM_bind, sm_get, door_conn. cbn [dr_world dr_responder].
  change (sm_map_err SConn cn_accept_bi ?w) with (Ok (E := ShareError) tt, w). cbv beta iota.
  cbn [dr_world dr_responder]. rewrite read_pipe by done. cbn [dr_world dr_responder]. unfold respond at 1. cbn [attempts_left re_code re_responder_id].
  rewrite decide_False by done. change (cn_remote_id _) with remote. destruct startB as [stB m2] eqn:EB. cbn [fst snd] in *.
  rewrite HkB. cbn [map_err fst snd]. unfold sm_lift. cbn [dr_world dr_responder]. rewrite write_pipe by done. cbn [dr_world dr_responder].
  rewrite read_pipe by (pose proof (mac_small SInitiator) as Hs; by rewrite EB in Hs). cbn [dr_world dr_responder].
  pose proof (mac_confirmation SInitiator) as Hc. rewrite EB in Hc. cbn [snd] in Hc. rewrite Hc.
  unfold door_verify, responder_verify. cbn [attempts_left dr_responder]. rewrite decide_False by done.
  unfold macs_match. cbn [pr_expected pr_ours pr_key]. rewrite bool_decide_true by done. cbn [negb map_err fst snd dr_world dr_responder].
  rewrite write_pipe by (pose proof (mac_small SResponder) as Hs; by rewrite EB in Hs). by rewrite <-(assoc_L app).
Qed.
Lemma receiver_auth rest o :
  prove_code rngA code remote sender_id (mkPipe (framed startB.2 ++ framed (mac SResponder) ++ rest) o) =
    (Ok (session_key k), mkPipe rest (o ++ framed startA.2 ++ framed (mac SInitiator))).
Proof.
  unfold prove_code, initiator_start. destruct startA as [stA m1] eqn:EA. cbn [fst snd] in *.
  unfold mbind, SM_bind. rewrite write_pipe by done. rewrite read_pipe by done. unfold sm_lift, initiator_accept. cbn [in_state].
  rewrite HkA. cbn [map_err fst snd in_initiator_id in_responder_id in_msg1].
  rewrite write_pipe by (pose proof (mac_small SInitiator) as Hs; by rewrite EA in Hs).
  rewrite read_pipe by (pose proof (mac_small SResponder) as Hs; by rewrite EA in Hs).
  pose proof (mac_confirmation SResponder) as Hc. rewrite EA in Hc. cbn [snd] in Hc. rewrite Hc.
  unfold initiator_verify, macs_match. cbn [pi_expected pi_key]. rewrite bool_decide_true by done. cbn [negb map_err].
  by rewrite <-(assoc_L app).
Qed.
End exchange.

(** *** What is transferred *)
Abbreviation sum_len z ss := (foldl (λ a s, a + sr_len s)%N z ss).
Lemma sum_len_ge a ss : (a ≤ sum_len a ss)%N ∧ ∀ r, r ∈ ss → (sr_len r ≤ sum_len a ss)%N.
Proof.
  revert a. induction ss as [|s ss IH]; intros a; simpl; [split; [lia|intros r Hr; by apply not_elem_of_nil in Hr]|].
  destruct (IH (a + sr_len s)%N) as [H1' H2']. split; [lia|]. intros r [->|Hr]%elem_of_cons; [lia|by apply H2'].
Qed.
Abbreviation indices k n := (N.of_nat <$> Stdlib.Lists.List.seq k n).
Lemma elem_of_indices k n j : j ∈ indices k n ↔ (N.of_nat k ≤ j < N.of_nat (k + n))%N.
Proof.
  rewrite list_elem_of_fmap. setoid_rewrite elem_of_seq. split; [intros (i&->&?); lia|].
  intros Hj. exists (N.to_nat j). lia.
Qed.
Lemma NoDup_indices k n : NoDup (indices k n).
Proof. apply NoDup_fmap_2; [intros ???; lia|apply NoDup_seq]. Qed.
Lemma frames_ok data ss contents k :
  Forall2 (λ r b, sr_len r = N.of_nat (length b)) ss contents → (∀ i b, contents !! i = Some b → data (N.of_nat (k + i)) = b) →
  (N.of_nat (k + length ss) ≤ 2 ^ 32)%N → (∀ r, r ∈ ss → is_u64 (sr_len r)) →
  Forall sendable (all_frames data (indices k (length ss))) ∧
  ∀ a, (a + N.of_nat (length (all_frames data (indices k (length ss)))) ≤ sum_len a ss)%N.
Proof.
  intros Hf. revert k. induction Hf as [|r b ss contents Hr Hf IH]; intros k Hd Hk Hu; csimpl; rewrite ?all_frames_cons.
  { split; [done|]. intros a. simpl. lia. }
  simpl length in Hk. pose proof (Hd 0 b eq_refl) as Hb. rewrite Nat.add_0_r in Hb. rewrite Hb.
  destruct (stream_frames_ok (N.of_nat k) b) as [Hs Hl]; [lia|rewrite <-Hr; apply Hu; set_solver|].
  destruct (IH (S k)) as [Hs' Hl'].
  - intros i x Hx. rewrite <-(Hd (S i) x Hx). f_equal. lia.
  - lia.
  - intros x Hx. apply Hu. set_solver.
  - split; [apply Forall_app; by split|]. intros a. rewrite length_app. specialize (Hl' (a + sr_len r)%N). lia.
Qed.

Section deliver.
Context {D D' : Type} `{VaultFs D} `{VaultFsLaws D'}.
Context (offer : ShareOffer) (ss : list StreamRef) (src : SourceMap) (d : D) (contents : list bytes) (total : u64).
Definition served (r : StreamRef) (b : bytes) : Prop :=
  sr_len r = N.of_nat (length b) ∧ ∃ p, src !! sr_path r = Some p ∧ fs_read (lexical_normalize p) d = Ok b.
Context (Hss : streams offer = Some ss) (Htot : total_len offer = Some total) (Hmax : (total ≤ DEFAULT_MAX_ACCEPT_BYTES)%N).
Context (Hn : (N.of_nat (length ss) < 2 ^ 32)%N) (Hserved : Forall2 served ss contents).
Abbreviation wanted := (indices 0 (length ss)).
Definition data (j : N) : bytes := default [] (contents !! N.to_nat j).
Abbreviation frames := (all_frames data wanted).
Context (Hoffer : sendable (FOffer offer)) (Haccept : sendable (FAccept wanted)).

Lemma total_sum : total = sum_len 0%N ss.
Proof. eapply total_len_sum; [done..|]. unfold DEFAULT_MAX_ACCEPT_BYTES in Hmax. unfold U64_MAX. lia. Qed.
Lemma stream_u64 r : r ∈ ss → is_u64 (sr_len r).
Proof.
  intros Hr. destruct (sum_len_ge 0%N ss) as [_ Hle]. specialize (Hle r Hr). rewrite <-total_sum in Hle.
  unfold is_u64, U64_MAX, DEFAULT_MAX_ACCEPT_BYTES in *. lia.
Qed.
Lemma frames_total : Forall sendable frames ∧ (N.of_nat (length frames) ≤ total)%N.
Proof.
  destruct (frames_ok data ss contents 0) as [Hs Hl].
  - eapply Forall2_impl; [exact Hserved|]. by intros r b [].
  - intros i b Hb. unfold data. simpl. by rewrite Nat2N.id, Hb.
  - simpl. lia.
  - apply stream_u64.
  - split; [done|]. rewrite total_sum. exact (Hl 0%N).
Qed.
Lemma done_sendable : sendable FDone.
Proof. split; [done|]. pose proof done_len as Hd. unfold frame_encode. simpl. unfold MAX_FRAME_BYTES. lia. Qed.
Lemma sent_fits key : fits key 0 (FOffer offer :: frames ++ [FDone]).
Proof.
  destruct frames_total as [Hs Hl]. apply fits_sendable.
  - constructor; [done|]. apply Forall_app. split; [done|]. constructor; [apply done_sendable|done].
  - simpl length. rewrite length_app. simpl. unfold is_u64, U64_MAX, DEFAULT_MAX_ACCEPT_BYTES in *. lia.
Qed.
Lemma wanted_mod : N.of_nat <$> Stdlib.Lists.List.seq 0 (N.to_nat (N.of_nat (length ss) mod 2 ^ 32)) = wanted.
Proof. by rewrite N.mod_small, Nat2N.id. Qed.
Lemma served_at j : j ∈ wanted → ∃ r p, ss !! N.to_nat j = Some r ∧ src !! sr_path r = Some p ∧ fs_read (lexical_normalize p) d = Ok (data j).
Proof.
  intros Hj%elem_of_indices. destruct (lookup_lt_is_Some_2 ss (N.to_nat j)) as [r Hr]; [lia|].
  destruct (Forall2_lookup_l _ _ _ _ _ Hserved Hr) as (b&Hb&_&p&Hp&Hread). exists r, p. unfold data. by rewrite Hb.
Qed.
Lemma backed_at j : j ∈ wanted → backed ss data j.
Proof.
  intros Hj%elem_of_indices. destruct (lookup_lt_is_Some_2 ss (N.to_nat j)) as [r Hr]; [lia|].
  destruct (Forall2_lookup_l _ _ _ _ _ Hserved Hr) as (b&Hb&Hl&_). exists r. unfold data. rewrite Hb. split_and!; [done..|].
  apply stream_u64. by eapply list_elem_of_lookup_2.
Qed.

Lemma hand_over_wire sk o :
  let i2r := initiator_to_responder sk in let r2i := responder_to_initiator sk in
  hand_over offer src d sk (mkPipe (framed (sealed_at i2r 0 (FAccept wanted))) o) =
    (Ok tt, mkPipe [] (o ++ wire r2i 0 (FOffer offer :: frames ++ [FDone]))).
Proof.
  intros i2r r2i. pose proof (sent_fits r2i) as (Hs1&Hn1&_&Hf). apply fits_app in Hf as [Hf1 (Hs2&Hn2&_)].
  unfold hand_over, key_split. fold i2r r2i. unfold mbind, SM_bind. rewrite send_one by done.
  pose proof (read_one i2r 0 (FAccept wanted) [] (o ++ framed (sealed_at r2i 0 (FOffer offer)))) as Hr. rewrite app_nil_r in Hr.
  rewrite Hr; [|by apply small_encoded; apply Haccept|done|done]. cbn [fst snd]. unfold sm_lift. rewrite Hss. cbn [ok_or].
  rewrite (send_streams_wire r2i ss src d data wanted); [|exact served_at|exact Hf1]. rewrite send_one by done.
  change (sm_map_err SConn cn_finish ?w) with (Ok (E := ShareError) tt, w). do 2 f_equal.
  cbn [wire]. rewrite wire_app. cbn [wire]. rewrite app_nil_r. by rewrite !(assoc_L app).
Qed.
Lemma receive_wire ticks dec sk rest o :
  let i2r := initiator_to_responder sk in let r2i := responder_to_initiator sk in
  dec offer = true → (total < N.of_nat ticks)%N →
  receive_offer sk (mkPipe (wire r2i 0 (FOffer offer :: frames ++ [FDone]) ++ rest) o) =
    (Ok (offer, mkChannel r2i 1), mkPipe (wire r2i 1 (frames ++ [FDone]) ++ rest) o) ∧
  receive_streams ticks dec offer (mkChannel i2r 0) (mkChannel r2i 1) (mkPipe (wire r2i 1 (frames ++ [FDone]) ++ rest) o) =
    (Ok (Some (ss, collected data ∅ wanted)), mkPipe rest (o ++ framed (sealed_at i2r 0 (FAccept wanted)))).
Proof.
  intros i2r r2i Hdec Ht. pose proof (sent_fits r2i) as (Hs1&Hn1&Hv&Hf). destruct frames_total as [_ Hl]. split.
  - unfold receive_offer, key_split. cbn [snd]. fold r2i. unfold mbind, SM_bind. cbn [wire]. rewrite <-(assoc_L app).
    by rewrite read_one.
  - unfold receive_streams. rewrite Htot. unfold mbind, SM_bind, sm_lift. cbn [ok_or].
    destruct (DEFAULT_MAX_ACCEPT_BYTES <? total)%N eqn:El; [lia|]. rewrite Hdec. cbn [negb]. rewrite Hss. cbn [ok_or].
    rewrite wanted_mod, send_one by (done || (apply small_encoded; apply Haccept)).
        rewrite (receive_loop_wire r2i ticks ss frames 1 ∅ (collected data ∅ wanted)); [done| |exact Hf|lia].
    apply assemble_all; [apply NoDup_indices|]. intros j Hj. split; [apply lookup_empty|by apply backed_at].
Qed.

(** *** What is written *)
Section puts.
Context {X K V : Type} `{Countable K} (key : X → K) (val : X → V).
Abbreviation puts m l := (foldl (λ m x, <[key x := val x]> m) m l).
Lemma puts_other (m : gmap K V) l q : (∀ x, x ∈ l → key x ≠ q) → puts m l !! q = m !! q.
Proof.
  revert m. induction l as [|x l IH]; intros m Hl; [done|]. simpl. rewrite IH by set_solver.
  apply lookup_insert_ne. apply Hl. set_solver.
Qed.
Lemma puts_in (m : gmap K V) l x : NoDup (key <$> l) → x ∈ l → puts m l !! key x = Some (val x).
Proof.
  revert m. induction l as [|y l IH]; intros m Hnd Hx; [by apply not_elem_of_nil in Hx|]. csimpl in Hnd.
  apply NoDup_cons in Hnd as [Hy Hnd]. simpl. apply elem_of_cons in Hx as [->|Hx]; [|by apply IH].
  rewrite puts_other; [by rewrite lookup_insert_eq|]. intros z Hz Heq. apply Hy. rewrite <-Heq. by apply list_elem_of_fmap_2.
Qed.
End puts.

Context (dest : Path).
Context (Hpath : ∀ ns, Forall (λ n, good_name n = true) ns → fs_path (lexical_normalize dest ++ ns)).
Context (Hok : ∀ p b (f : D'), fs_inv f → fs_path p → is_ok (fs_write p b f).1 = true).
Definition rel_at (j : N) : RelPath := match ss !! N.to_nat j with Some r => sr_path r | None => [] end.
Lemma write_all l (w : Pipe) (f : D') :
  fs_inv f → Forall (λ x, is_Some (ss !! N.to_nat x.1)) l →
  ∃ f', write_streams dest ss l (mkReceiver w f) = (Ok ((λ x, resolve_under (rel_at x.1) dest) <$> l), mkReceiver w f') ∧ fs_inv f' ∧
    files f' = foldl (λ m x, <[lexical_normalize dest ++ rel_at x.1 := x.2]> m) (files f) l.
Proof.
  assert (Forall stream_valid ss) as Hvalid by (eapply streams_valid, Hss; apply Hoffer).
  revert f. induction l as [|[j b] l IH]; intros f Hinv Hl; [by exists f|].
  apply Forall_cons in Hl as [[r Hr] Hl]. cbn [fst snd] in *. cbn [write_streams]. csimpl.
  assert (rel_at j = sr_path r) as Hrel by (unfold rel_at; by rewrite Hr). rewrite Hr, Hrel.
  unfold mbind at 1, SM_bind at 1. cbn [ok_or]. unfold sm_lift.
  assert (r ∈ ss) as Hin by (by eapply list_elem_of_lookup_2). rewrite Forall_forall in Hvalid.
  destruct (valid_path_safe _ (Hvalid r Hin)) as [Hne Hgood].
  assert (lexical_normalize (resolve_under (sr_path r) dest) = lexical_normalize dest ++ sr_path r) as -> by (by apply normalize_push_names).
  set (p := lexical_normalize dest ++ sr_path r). unfold mbind at 1, SM_bind at 1, rv_fs at 1. cbn [rv_disk rv_world].
  pose proof (create_parent_spec p f Hinv) as Hc. destruct (create_parent p f) as [r1 d1]. destruct Hc as (->&Hi1&Hf1). cbn [map_err].
  unfold mbind at 1, SM_bind at 1, rv_fs at 1. cbn [rv_disk rv_world]. pose proof (Hok p b d1 Hi1 (Hpath _ Hgood)) as Hw.
  pose proof (fs_write_spec p b d1 Hi1 (Hpath _ Hgood)) as Hspec. destruct (fs_write p b d1) as [[u|e] d2]; [|done].
  destruct Hspec as [Hi2 Hf2]. cbn [map_err files_after] in *. unfold mbind, SM_bind. destruct (IH d2 Hi2 Hl) as (f'&Hrun&Hi'&Hf').
  rewrite Hrun. exists f'. split_and!; [done|done|]. by rewrite Hf', Hf2, Hf1.
Qed.

Context (Hdistinct : NoDup (sr_path <$> ss)).
Abbreviation arrived := (btree_to_list N.le (collected data ∅ wanted)).
Lemma arrived_in j b : (j, b) ∈ arrived ↔ j ∈ wanted ∧ b = data j ∧ b ≠ [].
Proof.
  rewrite elem_of_btree. destruct (decide (j ∈ wanted)) as [Hj|Hj].
  - rewrite collected_in; [|done|apply NoDup_indices|apply lookup_empty]. case_decide; naive_solver.
  - rewrite collected_other, lookup_empty by done. naive_solver.
Qed.
Lemma rel_at_inj i j : i ∈ wanted → j ∈ wanted → rel_at i = rel_at j → i = j.
Proof.
  intros Hi%elem_of_indices Hj%elem_of_indices. unfold rel_at.
  destruct (lookup_lt_is_Some_2 ss (N.to_nat i)) as [r Hr]; [lia|]. destruct (lookup_lt_is_Some_2 ss (N.to_nat j)) as [s Hs]; [lia|].
  rewrite Hr, Hs. intros Heq. enough (N.to_nat i = N.to_nat j) by lia.
  apply (NoDup_lookup _ _ _ (sr_path r) Hdistinct); rewrite list_lookup_fmap; [by rewrite Hr|]. by rewrite Hs, Heq.
Qed.
Lemma arrived_distinct : NoDup ((λ x : N * bytes, lexical_normalize dest ++ rel_at x.1) <$> arrived).
Proof.
  apply NoDup_fmap_2_strong.
  - intros [i b] [j c] Hi%arrived_in Hj%arrived_in Heq%app_inv_head. cbn [fst] in Heq. destruct Hi as (Hi&->&_), Hj as (Hj&->&_).
    by rewrite (rel_at_inj i j Hi Hj Heq).
  - eapply NoDup_fmap_1, (btree_NoDup N.le).
Qed.
Lemma write_arrived (w : Pipe) (f : D') :
  fs_inv f → ∃ paths f', write_streams dest ss arrived (mkReceiver w f) = (Ok paths, mkReceiver w f') ∧
    (∀ p, p ∈ paths ↔ ∃ r b, (r, b) ∈ zip ss contents ∧ b ≠ [] ∧ p = resolve_under (sr_path r) dest) ∧
    (∀ r b, (r, b) ∈ zip ss contents → files f' !! (lexical_normalize dest ++ sr_path r) =
      if decide (b = []) then files f !! (lexical_normalize dest ++ sr_path r) else Some b) ∧
    ∀ q, (∀ r, r ∈ ss → q ≠ lexical_normalize dest ++ sr_path r) → files f' !! q = files f !! q.
Proof.
  assert (∀ r b, (r, b) ∈ zip ss contents ↔ ∃ j, j ∈ wanted ∧ ss !! N.to_nat j = Some r ∧ data j = b ∧ rel_at j = sr_path r) as Hzip.
  { intros r b. rewrite list_elem_of_lookup. setoid_rewrite lookup_zip_with_Some. split.
    - intros (i&x&y&[= <- <-]&Hx&Hy). exists (N.of_nat i). apply lookup_lt_Some in Hx as Hlt. unfold data, rel_at.
      rewrite Nat2N.id, Hx, Hy, elem_of_indices. split_and!; [lia|lia|done..].
    - intros (j&Hj&Hr&<-&_). destruct (Forall2_lookup_l _ _ _ _ _ Hserved Hr) as (y&Hy&_). exists (N.to_nat j), r, y.
      unfold data. by rewrite Hy. }
  intros Hinv. destruct (write_all arrived w f Hinv) as (f'&Hrun&_&Hf').
  { apply Forall_forall. intros [j b] (Hj%elem_of_indices&_)%arrived_in. apply lookup_lt_is_Some_2. simpl. lia. }
  eexists _, f'. split; [exact Hrun|]. rewrite Hf'. split_and!.
  - intros p. rewrite list_elem_of_fmap. split.
    + intros ([j b]&->&(Hj&->&Hb)%arrived_in). destruct (served_at j Hj) as (r&_&Hr&_). exists r, (data j). cbn [fst].
      unfold rel_at. rewrite Hr. split_and!; [|done|done]. apply Hzip. exists j. unfold rel_at. by rewrite Hr.
    + intros (r&b&(j&Hj&Hr&<-&Hrel)%Hzip&Hb&->). exists (j, data j). cbn [fst]. rewrite Hrel. split; [done|]. by apply arrived_in.
  - intros r b (j&Hj&Hr&<-&Hrel)%Hzip. rewrite <-Hrel. case_decide as Hb.
    + apply (puts_other (λ x : N * bytes, lexical_normalize dest ++ rel_at x.1) snd). intros [i c] (Hi&->&Hc)%arrived_in Heq%app_inv_head.
      cbn [fst] in Heq. apply rel_at_inj in Heq; [|done..]. by subst i.
    + apply (puts_in (λ x : N * bytes, lexical_normalize dest ++ rel_at x.1) snd _ _ (j, data j)); [apply arrived_distinct|]. by apply arrived_in.
  - intros q Hq. apply (puts_other (λ x : N * bytes, lexical_normalize dest ++ rel_at x.1) snd). intros [i c] (Hi&->&_)%arrived_in.
    destruct (served_at i Hi) as (r&_&Hr&_). cbn [fst]. unfold rel_at. rewrite Hr. intros Heq. eapply (Hq r); [|done].
    by eapply list_elem_of_lookup_2.
Qed.
End deliver.

(** C17: A share delivers what was offered.  A sender that shows a code, has a guess left and offers fewer than
    2^32 streams with distinct paths, backed by files of the declared lengths, with names that pass
    the receiver's check, in all at most the 8 GiB that it takes, with offer and acceptance each fitting one frame (8 MiB), and a
    receiver that types the code and accepts, with storage that takes every write: there are two byte
    streams, what the sender writes and what the receiver writes, with which both succeed
    and read each other to the end; afterwards every offered file with content is at its path below the
    destination byte for byte, and no other file has changed.  A file of length zero is not created: it has no
    chunk, so nothing is kept for it. *)
Theorem share_delivers {D D' : Type} `{VaultFs D} `{VaultFsLaws D'}
    (rngA rngB sender_id : bytes) (code : PairingCode) (guesses ticks : nat) (dest : Path) (dec : ShareOffer → bool)
    (offer : ShareOffer) (ss : list StreamRef) (src : SourceMap) (d : D) (contents : list bytes) (total : u64) (f : D') :
  guesses ≠ 0 → small (spake_start_a rngA (utf8 code) remote sender_id).2 → small (spake_start_b rngB (utf8 code) remote sender_id).2 →
  streams offer = Some ss → total_len offer = Some total → (total ≤ DEFAULT_MAX_ACCEPT_BYTES)%N → (total < N.of_nat ticks)%N →
  (N.of_nat (length ss) < 2 ^ 32)%N → Forall2 (served src d) ss contents → NoDup (sr_path <$> ss) → dec offer = true →
  sendable (FOffer offer) → sendable (FAccept (indices 0 (length ss))) → fs_inv f →
  (∀ ns, Forall (λ n, good_name n = true) ns → fs_path (lexical_normalize dest ++ ns)) →
  (∀ p b (f : D'), fs_inv f → fs_path p → is_ok (fs_write p b f).1 = true) →
  ∃ a b s' paths f',
    serve_connection rngB (mkSender (mkDoor (mkPipe a []) (mkResponder code sender_id guesses)) offer src d) = (Ok tt, s') ∧
    dr_world (sd_door s') = mkPipe [] b ∧
    receive_share ticks rngA code remote sender_id dest dec (mkReceiver (mkPipe b []) f) =
      (Ok (mkReceived paths (inline_texts offer)), mkReceiver (mkPipe [] a) f') ∧
    (∀ p, p ∈ paths ↔ ∃ r b, (r, b) ∈ zip ss contents ∧ b ≠ [] ∧ p = resolve_under (sr_path r) dest) ∧
    (∀ r b, (r, b) ∈ zip ss contents → files f' !! (lexical_normalize dest ++ sr_path r) =
      if decide (b = []) then files f !! (lexical_normalize dest ++ sr_path r) else Some b) ∧
    (∀ q, (∀ r, r ∈ ss → q ≠ lexical_normalize dest ++ sr_path r) → files f' !! q = files f !! q).
Proof.
  intros Hg HmA HmB Hss Htot Hmax Hticks Hn Hserved Hnd Hdec Hoffer Haccept Hinv Hpath Hok.
  destruct (spake_agree rngA rngB (utf8 code) remote sender_id) as (k&HkA&HkB). set (sk := session_key k).
  set (frames := all_frames (data contents) (indices 0 (length ss))).
  set (mac side := confirm_mac k side remote sender_id (spake_start_a rngA (utf8 code) remote sender_id).2
    (spake_start_b rngB (utf8 code) remote sender_id).2).
  set (a1 := framed (spake_start_a rngA (utf8 code) remote sender_id).2 ++ framed (mac SInitiator)).
  set (a2 := framed (sealed_at (initiator_to_responder sk) 0 (FAccept (indices 0 (length ss))))).
  set (b1 := framed (spake_start_b rngB (utf8 code) remote sender_id).2 ++ framed (mac SResponder)).
  set (b2 := wire (responder_to_initiator sk) 0 (FOffer offer :: frames ++ [FDone])).
  destruct (write_arrived offer ss src d contents total Hss Htot Hmax Hn Hserved Hoffer Haccept dest Hpath Hok Hnd (mkPipe [] (a1 ++ a2)) f Hinv)
    as (paths&f'&Hwrite&Hpaths&Hfiles&Hrest).
  exists (a1 ++ a2), (b1 ++ b2). eexists _, paths, f'.
  destruct (receive_wire offer ss src d contents total Hss Htot Hmax Hn Hserved Hoffer Haccept ticks dec sk [] a1 Hdec Hticks) as [Hro Hrs].
  rewrite app_nil_r in Hro, Hrs. split_and!; [| | |exact Hpaths|exact Hfiles|exact Hrest].
  - unfold serve_connection, mbind, SM_bind, in_door. cbn [sd_door sd_offer sd_sources sd_disk]. unfold a1, mac. rewrite <-(assoc_L app).
    rewrite (sender_auth rngA rngB code sender_id k HkA HkB HmA HmB guesses a2 [] Hg). unfold sm_get, door_conn. cbn [sd_door sd_offer sd_sources sd_disk dr_world dr_responder].
    unfold a2. rewrite (hand_over_wire offer ss src d contents total Hss Htot Hmax Hn Hserved Hoffer Haccept). reflexivity.
  - reflexivity.
  - unfold receive_share. unfold mbind at 1, SM_bind at 1, rv_conn at 1. cbn [rv_world rv_disk]. unfold b1, mac. rewrite <-(assoc_L app).
    rewrite (receiver_auth rngA rngB code sender_id k HkA HkB HmA HmB b2 []). unfold mbind at 1, SM_bind at 1, rv_conn at 1. cbn [rv_world rv_disk].
    rewrite app_nil_l. fold (mac SInitiator). fold a1. fold sk. unfold b2, frames. rewrite Hro. unfold mbind at 1, SM_bind at 1, rv_conn at 1. cbn [rv_world rv_disk fst snd].
    change (key_split sk SInitiator).1 with (mkChannel (initiator_to_responder sk) 0). rewrite app_nil_r, Hrs.
    unfold mbind, SM_bind. fold a2. rewrite Hwrite. reflexivity.
Qed.
End pipe.
