(* ===== verification/PairingIroh.v ===== *)
(** * Pairing over a connection

    The other two ways of letting a device into a vault (src/crates/roam-transport-iroh,
    pairing.rs and pairing_lan.rs): a token that carries a secret, proved by a signature,
    and a code typed on the local network, proved by the exchange of roam-pake.  Both
    hand the vault over as the mailbox flow does.  Connections are the interface [Conn],
    the endpoint's accept queue and clock the interface [Listener], dialling the
    interface [Dialer]; a read that times out is a read that fails. *)
From S2P Require Import Prelude RustStr Vfs Roster Wire Logs Keychain Blob Trust Store StoreRoster StoreSync.
From S2P Require Import StoreKeys Checkpoint Paths Snapshots Relay Pairing Share.

Inductive IrohError :=
  | IConn (e : ConnError) | IFrame | IJson | IKey | IProof | IPair (e : PairError) | IPake (e : PakeError) | IConfirm
  | IClaim | IVault | IExpired | ITwoHosts | IToken | IUsedUp | IPanic | IStuck.

(** The endpoint: seconds since the epoch, a monotonic clock in milliseconds, the next
    connection within a remaining time ([Ok false] when one does not come up), closing. *)
Class Listener (W : Type) := {
  now_unix_secs : W → u64;
  ls_clock : W → Z;
  ls_accept : Z → SM W ConnError bool;
  ls_close : W → W;
}.
(** Dialling a device and opening a stream. *)
Class Dialer (W : Type) := { dl_connect : bytes → SM W ConnError unit }.

(** ** Messages *)
Definition MAX_MSG_LEN : N := 1048576.
Definition be_bytes (k : nat) (n : N) : bytes := reverse (le_bytes k n).
Definition from_be (l : bytes) : N := from_le (reverse l).
Section frames.
Context {W : Type} `{Conn W}.
Definition write_be (b : bytes) : SM W IrohError unit :=
  if decide (N.of_nat (length b) < 2 ^ 32)%N then
    _ ← sm_map_err IConn (cn_write_all (be_bytes 4 (N.of_nat (length b))));
    sm_map_err IConn (cn_write_all b)
  else sm_fail IFrame.
Definition read_be : SM W IrohError bytes :=
  hdr ← sm_map_err IConn (cn_read_exact 4);
  if (MAX_MSG_LEN <? from_be hdr)%N then sm_fail IFrame else sm_map_err IConn (cn_read_exact (from_be hdr)).
Definition write_msg {T} `{JsonOf T} (x : T) : SM W IrohError unit := write_be (utf8 (to_json x)).
Definition parse_msg {T} `{JsonOf T} (b : bytes) : option T := from_utf8 b ≫= from_json.
Definition read_msg {T} `{JsonOf T} : SM W IrohError T := b ← read_be; sm_lift (ok_or (parse_msg b) IJson).
End frames.

(** ** The token (pairing.rs) *)
Definition PAIRING_TOKEN_TTL : u64 := 120.
Definition PAIRING_PROOF_DOMAIN : bytes := utf8 (str "roam-pairing-proof-v1" ++ [0%N]).
(** iroh's address of an endpoint, with the id it names. *)
Class EndpointAddrs := { EndpointAddr : Type; addr_id : EndpointAddr → bytes }.
Record PairingToken `{EndpointAddrs} := mkToken {
  pt_addr : EndpointAddr; pt_verifying_key : bytes; pt_peer_id : u64; pt_vault : bytes; pt_secret : bytes; expires_at_unix_secs : u64;
}.
Arguments mkToken {_} _ _ _ _ _ _.
Arguments pt_addr {_} _.
Arguments pt_verifying_key {_} _.
Arguments pt_peer_id {_} _.
Arguments pt_vault {_} _.
Arguments pt_secret {_} _.
Arguments expires_at_unix_secs {_} _.
Record JoinRequest := mkTokenRequest { jr_verifying_key : bytes; jr_peer_id : u64; jr_proof : bytes }.

(** A host: what it shows, and what it hands over. *)
Record IrohHost (A W St : Type) := mkIrohHost {
  ih_world : W; ih_auth : A; ih_identity : Identity; ih_vault : bytes; ih_vault_key : bytes; ih_role : Role; ih_store : St;
}.
Arguments mkIrohHost {A W St} _ _ _ _ _ _ _.
Arguments ih_world {A W St} _.
Arguments ih_auth {A W St} _.
Arguments ih_identity {A W St} _.
Arguments ih_vault {A W St} _.
Arguments ih_vault_key {A W St} _.
Arguments ih_role {A W St} _.
Arguments ih_store {A W St} _.
Section hosting.
Context {A W St : Type}.
Abbreviation Host := (IrohHost A W St).
Definition with_world {B} (m : SM W IrohError B) : SM Host IrohError B := λ h,
  let '(r, w) := m (ih_world h) in
  (r, mkIrohHost w (ih_auth h) (ih_identity h) (ih_vault h) (ih_vault_key h) (ih_role h) (ih_store h)).
Definition with_auth {B} (m : SM A IrohError B) : SM Host IrohError B := λ h,
  let '(r, a) := m (ih_auth h) in
  (r, mkIrohHost (ih_world h) a (ih_identity h) (ih_vault h) (ih_vault_key h) (ih_role h) (ih_store h)).
Definition with_host_store {B} (m : SM St IrohError B) : SM Host IrohError B := λ h,
  let '(r, s) := m (ih_store h) in
  (r, mkIrohHost (ih_world h) (ih_auth h) (ih_identity h) (ih_vault h) (ih_vault_key h) (ih_role h) s).
End hosting.
Record TokenSecret := mkTokenSecret { ts_secret : bytes; ts_expires : u64 }.

Section iroh.
Context `{Ed25519, Crypto, EdX, B64, KeyedHash, Spake2, ChaCha, EndpointAddrs}.
Context `{JsonOf RosterLine, JsonOf (list PeerRecord), JsonOf KeyLine, JsonOf EntryLine, JsonOf JoinAccept, JsonOf PairingToken}.
Context `{JsonOf JoinRequest, JsonOf MailboxJoinRequest}.
Context {Fs Doc Ver W : Type} `{VaultFs Fs, Conn W, Listener W, Dialer W}.
Variable pick : gset u64 → option u64.
Variable fuel : nat.
Abbreviation St := (Store Fs Doc Ver).

Definition token_encode (t : PairingToken) : rstring := b64_encode (utf8 (to_json t)).
Definition token_decode (s : rstring) : option PairingToken := b ← b64_decode (trim s); parse_msg b.
Definition check_host_identity_is_consistent (t : PairingToken) : result IrohError unit :=
  if decide (addr_id (pt_addr t) = pt_verifying_key t) then Ok tt else Err ITwoHosts.

Abbreviation PairingHost := (IrohHost TokenSecret W St).
(** [addr] is the endpoint's address once it is ready. *)
Definition host_pairing_with_ttl (rng : bytes) (id : Identity) (vault vault_key : bytes) (role : Role) (s : St) (ttl : u64)
    (addr : EndpointAddr) (w : W) : rstring * PairingHost :=
  let expires := saturating_add (now_unix_secs w) ttl in
  (token_encode (mkToken addr (id_key id) (id_peer id) vault rng expires),
   mkIrohHost w (mkTokenSecret rng expires) id vault vault_key role s).
Definition host_pairing (rng : bytes) (id : Identity) (vault vault_key : bytes) (role : Role) (s : St) (addr : EndpointAddr) (w : W)
    : rstring * PairingHost := host_pairing_with_ttl rng id vault vault_key role s PAIRING_TOKEN_TTL addr w.

(** Whether a request proves that its key saw the secret. *)
Definition proves (secret : bytes) (req : JoinRequest) : result IrohError unit :=
  if negb (ed_key_ok (jr_verifying_key req)) then Err IKey
  else
    proof ← try_into_array 64 (jr_proof req) IProof;
    if negb (verify_in_domain (jr_verifying_key req) PAIRING_PROOF_DOMAIN secret proof) then Err IProof else Ok tt.
Definition enrol {A} (wraps : nat → bytes * bytes) (key : bytes) (peer : u64) : SM (IrohHost A W St) IrohError JoinAccept :=
  h ← sm_get;
  with_host_store (sm_map_err IPair (enrol_joiner pick fuel wraps (ih_identity h) (ih_vault h) (ih_vault_key h) (ih_role h) key peer)).
Definition token_handshake (wraps : nat → bytes * bytes) : SM PairingHost IrohError u64 :=
  _ ← with_world (sm_map_err IConn cn_accept_bi);
  req ← with_world (read_msg (T := JoinRequest));
  h ← sm_get;
  _ ← sm_lift (proves (ts_secret (ih_auth h)) req);
  accept ← enrol wraps (jr_verifying_key req) (jr_peer_id req);
  _ ← with_world (write_msg accept);
  _ ← with_world (sm_map_err IConn cn_finish);
  mret (jr_peer_id req).

(** One connection: [None] when it was rejected or did not come up. *)
Definition one_connection {A} (deadline : Z) (handshake : SM (IrohHost A W St) IrohError u64) : SM (IrohHost A W St) IrohError (option u64) :=
  h ← sm_get;
  up ← with_world (sm_map_err IConn (ls_accept (Z.max 0 (deadline - ls_clock (ih_world h)))));
  if (up : bool) then
    r ← attempt handshake;
    match r with
    | Ok peer => _ ← with_world (sm_modify cn_closed); mret (Some peer)
    | Err _ => _ ← with_world (sm_modify cn_close); mret None
    end
  else mret None.
(** [ticks] bounds the connections. *)
Fixpoint token_loop (ticks : nat) (wraps : nat → nat → bytes * bytes) (deadline : Z) : SM PairingHost IrohError u64 :=
  match ticks with
  | O => sm_fail IStuck
  | S ticks =>
      x ← one_connection deadline (token_handshake (wraps ticks));
      match x with Some peer => mret peer | None => token_loop ticks wraps deadline end
  end.
(** The endpoint is closed either way; [window] is in milliseconds. *)
Definition closing {A B} (m : SM (IrohHost A W St) IrohError B) : SM (IrohHost A W St) IrohError B :=
  r ← attempt m;
  _ ← with_world (sm_modify ls_close);
  sm_lift r.
Definition token_accept_for (ticks : nat) (wraps : nat → nat → bytes * bytes) (window : Z) : SM PairingHost IrohError u64 :=
  h ← sm_get;
  closing (token_loop ticks wraps (ls_clock (ih_world h) + window)).
Definition token_accept_auto (ticks : nat) (wraps : nat → nat → bytes * bytes) : SM PairingHost IrohError u64 :=
  h ← sm_get;
  token_accept_for ticks wraps (1000 * Z.of_N (ts_expires (ih_auth h) - now_unix_secs (ih_world h))).

(** *** The joiner with a token *)
Abbreviation Joiner := (Pairing.Joiner (Fs := Fs) (Doc := Doc) (Ver := Ver) (W := W)).
Definition joiner_world {A} (m : SM W IrohError A) : SM Joiner IrohError A := λ j,
  let '(r, w) := m (jn_world j) in (r, mkJoiner w (jn_store j)).
Definition joiner_store {A} (m : SM St IrohError A) : SM Joiner IrohError A := λ j,
  let '(r, s) := m (jn_store j) in (r, mkJoiner (jn_world j) s).
Definition run_join (id : Identity) (t : PairingToken) : SM Joiner IrohError (bytes * u64) :=
  j ← sm_get;
  if (expires_at_unix_secs t <=? now_unix_secs (jn_world j))%N then sm_fail IExpired
  else
    _ ← sm_lift (check_host_identity_is_consistent t);
    _ ← joiner_world (sm_map_err IConn (dl_connect (addr_id (pt_addr t))));
    let proof := sign_in_domain id PAIRING_PROOF_DOMAIN (pt_secret t) in
    _ ← joiner_world (write_msg (mkTokenRequest (id_key id) (id_peer id) proof));
    _ ← joiner_world (sm_map_err IConn cn_finish);
    accept ← joiner_world (read_msg (T := JoinAccept));
    if decide (ja_vault accept ≠ pt_vault t) then sm_fail IVault
    else if negb (ed_key_ok (pt_verifying_key t)) then sm_fail IKey
    else
      joined ← joiner_store (sm_map_err IPair (adopt_accept pick fuel accept (pt_verifying_key t)));
      _ ← joiner_world (sm_modify cn_close);
      mret (jd_vault_key joined, jd_founder joined).

(** ** The code on the local network (pairing_lan.rs) *)
Definition LAN_WINDOW : Z := 300000.
Abbreviation LanPairingHost := (IrohHost Responder W St).
(** [endpoint_id] is the id of the endpoint that was bound. *)
Definition host_lan_pairing (id : Identity) (vault vault_key : bytes) (role : Role) (s : St) (endpoint_id : bytes) (draws : list N) (w : W)
    : option (PairingCode * LanPairingHost) :=
  code ← code_generate draws;
  Some (code, mkIrohHost w (responder_new code endpoint_id) id vault vault_key role s).
Definition lan_verify (p : PendingResponder) (confirm : bytes) : SM Responder IrohError (SessionKey * bytes) := λ re,
  let '(r, re) := responder_verify re p confirm in (map_err IPake r, re).
Definition lan_confirmation (b : bytes) : result IrohError bytes := if decide (length b = 32) then Ok b else Err IConfirm.
Definition open_json {T} `{JsonOf T} (c : Channel) (b : bytes) : result IrohError T :=
  opened ← ok_or (ch_open c b) IPanic;
  x ← map_err IPake opened;
  ok_or (parse_msg x.1) IJson.
Definition lan_authenticate (rng : bytes) (joiner_id : bytes) : SM LanPairingHost IrohError SessionKey :=
  _ ← with_world (sm_map_err IConn cn_accept_bi);
  msg1 ← with_world read_be;
  h ← sm_get;
  x ← sm_lift (map_err IPake (respond rng (ih_auth h) joiner_id msg1));
  _ ← with_world (write_be x.2);
  c ← with_world read_be;
  confirm ← sm_lift (lan_confirmation c);
  y ← with_auth (lan_verify x.1 confirm);
  _ ← with_world (write_be y.2);
  mret y.1.
Definition lan_handshake (rng : bytes) (wraps : nat → bytes * bytes) : SM LanPairingHost IrohError u64 :=
  h ← sm_get;
  let joiner_id := cn_remote_id (ih_world h) in
  key ← lan_authenticate rng joiner_id;
  let '(sealer, opener) := key_split key SResponder in
  b ← with_world read_be;
  request ← sm_lift (open_json (T := MailboxJoinRequest) opener b);
  if decide (rq_verifying_key request ≠ joiner_id) then sm_fail IClaim
  else
    accept ← enrol wraps (rq_verifying_key request) (rq_peer_id request);
    sealed ← sm_lift (ok_or (ch_seal sealer (utf8 (to_json accept))) IPanic);
    _ ← with_world (write_be sealed.1);
    _ ← with_world (sm_map_err IConn cn_finish);
    mret (rq_peer_id request).
Fixpoint lan_loop (ticks : nat) (rng : HostRng) (deadline : Z) : SM LanPairingHost IrohError u64 :=
  match ticks with
  | O => sm_fail IStuck
  | S ticks =>
      h ← sm_get;
      if decide (attempts_left (ih_auth h) = 0) then sm_fail IUsedUp
      else
        x ← one_connection deadline (lan_handshake (hr_spake rng ticks) (hr_wraps rng ticks));
        match x with Some peer => mret peer | None => lan_loop ticks rng deadline end
  end.
Definition lan_accept_for (ticks : nat) (rng : HostRng) (window : Z) : SM LanPairingHost IrohError u64 :=
  h ← sm_get;
  closing (lan_loop ticks rng (ls_clock (ih_world h) + window)).
Definition lan_accept_auto (ticks : nat) (rng : HostRng) : SM LanPairingHost IrohError u64 := lan_accept_for ticks rng LAN_WINDOW.

Definition lan_prove (rng : bytes) (code : PairingCode) (our_id host_id : bytes) : SM W IrohError SessionKey :=
  let '(initiator, msg1) := initiator_start rng code our_id host_id in
  _ ← write_be msg1;
  msg2 ← read_be;
  x ← sm_lift (map_err IPake (initiator_accept initiator msg2));
  _ ← write_be x.2;
  c ← read_be;
  their_confirm ← sm_lift (lan_confirmation c);
  sm_lift (map_err IPake (initiator_verify x.1 their_confirm)).
(** [our_id] is the id of the joiner's endpoint. *)
Definition run_lan_join (rng : bytes) (our_id : bytes) (id : Identity) (host_id : bytes) (code : PairingCode)
    (claim_instead : option (bytes * u64)) : SM Joiner IrohError (bytes * bytes * u64) :=
  if negb (ed_key_ok host_id) then sm_fail IKey
  else
    _ ← joiner_world (sm_map_err IConn (dl_connect host_id));
    key ← joiner_world (lan_prove rng code our_id host_id);
    let '(sealer, opener) := key_split key SInitiator in
    let claimed := default (id_key id, id_peer id) claim_instead in
    sealed ← sm_lift (ok_or (ch_seal sealer (utf8 (to_json (mkJoinRequest claimed.1 claimed.2)))) IPanic);
    _ ← joiner_world (write_be sealed.1);
    b ← joiner_world read_be;
    accept ← sm_lift (open_json (T := JoinAccept) opener b);
    joined ← joiner_store (sm_map_err IPair (adopt_accept pick fuel accept host_id));
    _ ← joiner_world (sm_modify cn_close);
    mret (jd_vault joined, jd_vault_key joined, jd_founder joined).
End iroh.
