(* ===== verification/PairingIrohSpec.v ===== *)
(** * What pairing over a connection guarantees

    The two hosts over any network: their stores change only by enrolling devices, and
    each of those has proved the token or the code; a joiner that refuses a token; and
    what a failed answer and an expired token leave open. *)
From S2P Require Import Prelude RustStr Vfs Roster Wire Logs Keychain Blob Trust Store StoreRoster StoreSync.
From S2P Require Import StoreKeys Checkpoint Paths Snapshots Relay Pairing Share ShareSpec PairingIroh.

#[global] Instance Heard_listener `{Listener W} : Listener (Heard W) :=
  {| now_unix_secs t := now_unix_secs (hd_world t); ls_clock t := ls_clock (hd_world t);
     ls_accept d := unheard (ls_accept d); ls_close t := mkHeard (ls_close (hd_world t)) (hd_log t) |}.

(** ** Messages *)
Section frames.
Context {W : Type} `{Conn W}.
Abbreviation HW := (Heard W).
Lemma hears_conn {A} (m : SM HW ConnError A) : hears m → hears (sm_map_err IConn m).
Proof. apply hears_map_err. Qed.
Lemma hears_write_be b : hears (write_be b : SM HW IrohError unit).
Proof. unfold write_be. case_decide; [|apply hears_fail]. apply hears_bind; [|intros _]; apply hears_map_err, hears_unheard. Qed.
Lemma hears_read_be : hears (read_be : SM HW IrohError bytes).
Proof.
  apply hears_bind; [apply hears_map_err, hears_read_exact|]. intros h. case_match; [apply hears_fail|].
  apply hears_map_err, hears_read_exact.
Qed.
Lemma hears_read_msg {T} `{JsonOf T} : hears (read_msg : SM HW IrohError T).
Proof. apply hears_bind; [apply hears_read_be|intros b; apply hears_lift]. Qed.
(** What was read is in the log. *)
Lemma read_be_heard (t t' : HW) b : read_be t = (Ok b, t') → b ∈ hd_log t'.
Proof.
  unfold read_be. intros (h&t1&_&Hrun)%sm_bind_ok. destruct (_ <? _)%N; [done|]. revert Hrun.
  unfold sm_map_err. simpl. unfold heard_read. destruct (cn_read_exact _ _) as [[x|e] w]; [|done]. simpl.
  intros [= <- <-]. simpl. set_solver.
Qed.
Lemma read_msg_heard {T} `{JsonOf T} (t t' : HW) (x : T) : read_msg t = (Ok x, t') → ∃ b, b ∈ hd_log t' ∧ parse_msg b = Some x.
Proof.
  unfold read_msg. intros (b&t1&Hb&[= Hx ->])%sm_bind_ok. exists b. split; [by eapply read_be_heard|].
  by destruct (parse_msg b); [injection Hx as ->|].
Qed.
End frames.

(** ** The hosts

    [P log key peer]: by what was read, [key] and [peer] have earned their place; [Inv]
    is what a host's secret keeps. *)
Section hosts.
Context `{Ed25519, Crypto, EdX, B64, KeyedHash, Spake2, ChaCha}.
Context `{JsonOf RosterLine, JsonOf (list PeerRecord), JsonOf KeyLine}.
Context {Fs Doc Ver W : Type} `{VaultFs Fs, Conn W, Listener W}.
Variable pick : gset u64 → option u64.
Variable fuel : nat.
Abbreviation St := (Store Fs Doc Ver).
Abbreviation HW := (Heard W).

Definition terms {A} (h : IrohHost A HW St) := (ih_identity h, ih_vault h, ih_vault_key h, ih_role h).
Definition hlog {A} (h : IrohHost A HW St) : list bytes := hd_log (ih_world h).
(** One enrolment, of a device that has earned it. *)
Definition admits (P : list bytes → bytes → u64 → Prop) (log : list bytes) (t : Identity * bytes * bytes * Role) (s s' : St) : Prop :=
  let '(id, vault, vault_key, role) := t in
  ∃ wraps key peer, P log key peer ∧ (enrol_joiner pick fuel wraps id vault vault_key role key peer s).2 = s'.

Section logic.
Context {A : Type} (Inv : A → Prop) (P : list bytes → bytes → u64 → Prop).
Hypothesis Pmono : ∀ l l' key peer, l ⊆ l' → P l key peer → P l' key peer.
Abbreviation Host := (IrohHost A HW St).
Implicit Types h : Host.

Definition hguarded h h' : Prop :=
  hlog h ⊆ hlog h' ∧ terms h' = terms h ∧ rtc (admits P (hlog h') (terms h)) (ih_store h) (ih_store h').
Lemma admits_mono l l' t s s' : l ⊆ l' → admits P l t s s' → admits P l' t s s'.
Proof. destruct t as [[[??]?]?]. intros Hl (w&k&p&Hp&He). exists w, k, p. split; [by eapply Pmono|done]. Qed.
Lemma hguarded_refl h : hguarded h h.
Proof. by split_and!. Qed.
#[local] Instance hguarded_preorder : PreOrder hguarded.
Proof.
  split; [exact hguarded_refl|]. intros h1 h2 h3 (L1&T1&R1) (L2&T2&R2). split_and!; [by etrans|congruence|].
  rewrite T1 in R2. etrans; [|exact R2]. eapply rtc_subrel, R1. intros s s'. by apply admits_mono.
Qed.
Lemma hguarded_same h h' : hlog h ⊆ hlog h' → terms h' = terms h → ih_store h' = ih_store h → hguarded h h'.
Proof. intros Hl Ht Hs. split_and!; [done..|]. by rewrite Hs. Qed.

(** From a host in [Q], a part of the flow is guarded, and if it succeeds ends in [R]. *)
Definition htriple {B} (Q : Host → Prop) (m : SM Host IrohError B) (R : B → Host → Prop) : Prop :=
  ∀ h x h', Inv (ih_auth h) → Q h → m h = (x, h') → Inv (ih_auth h') ∧ hguarded h h' ∧ ∀ a, x = Ok a → R a h'.
Lemma htriple_bind {B C} Q R T (m : SM Host IrohError B) (k : B → SM Host IrohError C) :
  htriple Q m R → (∀ a, htriple (R a) (k a) T) → htriple Q (m ≫= k) T.
Proof.
  intros Hm Hk h x h' Hi Hq. unfold mbind, SM_bind. destruct (m h) as [[a|e] h1] eqn:E; intros Hrun.
  - destruct (Hm _ _ _ Hi Hq E) as (Hi1&G1&Hr). destruct (Hk _ _ _ _ Hi1 (Hr _ eq_refl) Hrun) as (Hi2&G2&Ht).
    split_and!; [done| |done]. by etrans.
  - injection Hrun as <- <-. destruct (Hm _ _ _ Hi Hq E) as (Hi1&G1&_). by split_and!.
Qed.
Lemma htriple_pre {B} (Q Q' : Host → Prop) (m : SM Host IrohError B) R :
  (∀ h, Inv (ih_auth h) → Q h → Q' h) → htriple Q' m R → htriple Q m R.
Proof. intros Hq Hm h x h' Hi Hh. apply Hm; auto. Qed.
Lemma htriple_post {B} Q (m : SM Host IrohError B) (R R' : B → Host → Prop) :
  (∀ a h, R a h → R' a h) → htriple Q m R → htriple Q m R'.
Proof. intros Hr Hm h x h' Hi Hh Hrun. destruct (Hm _ _ _ Hi Hh Hrun) as (?&?&Hx). split_and!; [done..|]. intros a Ha. by apply Hr, Hx. Qed.
Lemma htriple_ret {B} (a : B) (R : B → Host → Prop) : htriple (R a) (mret a) R.
Proof. intros h x h' Hi Hq [= <- <-]. split_and!; [done|apply hguarded_refl|]. by intros b [= <-]. Qed.
Lemma htriple_fail {B} e Q (R : B → Host → Prop) : htriple Q (sm_fail e) R.
Proof. intros h x h' Hi Hq [= <- <-]. split_and!; [done|apply hguarded_refl|done]. Qed.
Lemma htriple_lift {B} (r : result IrohError B) Q : htriple Q (sm_lift r) (λ a h, r = Ok a ∧ Q h).
Proof. intros h x h' Hi Hq [= <- <-]. split_and!; [done|apply hguarded_refl|done]. Qed.
Lemma htriple_get {B} (Q : Host → Prop) (k : Host → SM Host IrohError B) T :
  (∀ h, htriple (λ h', h' = h ∧ Inv (ih_auth h) ∧ Q h) (k h) T) → htriple Q (sm_get ≫= k) T.
Proof. intros Hk h x h' Hi Hq Hrun. by apply (Hk h h x h' Hi). Qed.
(** What holds of the log still holds later. *)
Definition hkept (Q : Host → Prop) : Prop := ∀ h h', hlog h ⊆ hlog h' → Q h → Q h'.
Lemma htriple_world {B} (Q : Host → Prop) (m : SM HW IrohError B) :
  hears m → hkept Q → htriple Q (with_world m) (λ a h, Q h ∧ ∃ t, m t = (Ok a, ih_world h)).
Proof.
  intros Hm Hq h x h' Hi Hh. unfold with_world. specialize (Hm (ih_world h)). destruct (m (ih_world h)) as [r w] eqn:E.
  intros [= <- <-]. split_and!; [done|by apply hguarded_same|]. intros a ->. split; [|by exists (ih_world h)]. by eapply Hq, Hh.
Qed.
Lemma htriple_quiet {B} (Q : Host → Prop) (m : SM HW IrohError B) : hears m → hkept Q → htriple Q (with_world m) (λ _, Q).
Proof. intros Hm Hq. eapply htriple_post, htriple_world; [|done|done]. by intros a h []. Qed.
Lemma htriple_read (Q : Host → Prop) : hkept Q → htriple Q (with_world read_be) (λ b h, Q h ∧ b ∈ hlog h).
Proof.
  intros Hq. eapply htriple_post, htriple_world; [|apply hears_read_be|done]. intros b h (?&t&Ht). split; [done|].
  by eapply read_be_heard.
Qed.
Lemma htriple_attempt {B} Q (m : SM Host IrohError B) R :
  htriple Q m R → htriple Q (attempt m) (λ r h, ∀ a, r = Ok a → R a h).
Proof.
  intros Hm h x h' Hi Hq. unfold attempt. destruct (m h) as [r h1] eqn:E. intros [= <- <-].
  destruct (Hm _ _ _ Hi Hq E) as (?&?&?). split_and!; [done..|]. by intros r' [= <-].
Qed.

(** The store changes only by enrolling a device that has earned it. *)
Lemma htriple_enrol wraps key peer :
  htriple (λ h, P (hlog h) key peer) (enrol pick fuel wraps key peer) (λ _ h, P (hlog h) key peer).
Proof.
  unfold enrol. apply htriple_get. intros h0 h x h' Hi (Heq&_&Hp). subst h. unfold with_host_store, sm_map_err.
  destruct (enrol_joiner _ _ _ _ _ _ _ key peer (ih_store h0)) as [r s] eqn:E. intros [= <- <-].
  split_and!; [done| |done]. split_and!; [done|done|]. apply rtc_once. exists wraps, key, peer. split; [done|].
  cbn [ih_store]. by rewrite E.
Qed.
Definition earned (peer : u64) h : Prop := ∃ key, P (hlog h) key peer.
Lemma hkept_earned peer : hkept (earned peer).
Proof. intros h h' Hl (key&Hp). exists key. by eapply Pmono. Qed.
(** After the enrolment: the answer, whatever it is. *)
Lemma htriple_answered {B} peer (m : SM HW IrohError B) : hears m → htriple (earned peer) (with_world m) (λ _, earned peer).
Proof. intros Hm. apply htriple_quiet; [done|apply hkept_earned]. Qed.
Lemma htriple_enrolled {B} wraps key peer (k : JoinAccept → SM Host IrohError B) T :
  (∀ a, htriple (earned peer) (k a) T) → htriple (λ h, P (hlog h) key peer) (enrol pick fuel wraps key peer ≫= k) T.
Proof.
  intros Hk. eapply htriple_bind; [apply htriple_enrol|]. intros a. eapply htriple_pre, Hk. intros h _ Hp. by exists key.
Qed.
Lemma htriple_sent peer : htriple (earned peer) (_ ← with_world (sm_map_err IConn cn_finish); mret peer) earned.
Proof.
  eapply (htriple_bind _ (λ _, earned peer)); [apply htriple_answered, hears_map_err, hears_unheard|].
  intros _. apply (htriple_ret peer earned).
Qed.

Lemma hears_ls_accept d : hears (sm_map_err IConn (ls_accept d) : SM HW IrohError bool).
Proof. apply hears_map_err. intros t. simpl. unfold unheard. by destruct (ls_accept d (hd_world t)). Qed.
Definition some_earned (x : option u64) h : Prop := ∀ peer, x = Some peer → earned peer h.
Lemma htriple_connection deadline handshake :
  htriple (λ _, True) handshake earned → htriple (λ _, True) (one_connection deadline handshake) some_earned.
Proof.
  assert (htriple (λ _, True) (mret None) some_earned) as Hnone
    by (eapply htriple_pre; [|apply (htriple_ret None some_earned)]; done).
  intros Hh. unfold one_connection. apply htriple_get. intros h0.
  eapply (htriple_bind _ (λ _ _, True)).
  { eapply htriple_pre, (htriple_quiet (λ _, True)); [done|apply hears_ls_accept|done]. }
  intros []; [|exact Hnone]. eapply htriple_bind; [apply htriple_attempt, Hh|]. intros [peer|e].
  - eapply (htriple_bind _ (λ _, earned peer)).
    + eapply htriple_pre, (htriple_quiet (earned peer)); [intros h _ Hx; by apply Hx|by apply hears_same|apply hkept_earned].
    + intros _. eapply htriple_pre, (htriple_ret (Some peer) some_earned). by intros h _ He p [= <-].
  - eapply (htriple_bind _ (λ _ _, True)); [|intros _; exact Hnone].
    eapply htriple_pre, (htriple_quiet (λ _, True)); [done|by apply hears_same|done].
Qed.
Lemma htriple_closing (m : SM Host IrohError u64) : htriple (λ _, True) m earned → htriple (λ _, True) (closing m) earned.
Proof.
  intros Hm. eapply htriple_bind; [apply htriple_attempt, Hm|]. intros r.
  eapply (htriple_bind _ (λ _ h, ∀ a, r = Ok a → earned a h)); [apply htriple_quiet; [by apply hears_same|]|].
  - intros h h' Hl Hr a Ha. by eapply hkept_earned, Hr.
  - intros _. eapply htriple_post, htriple_lift. intros peer h [Hr He]. by apply He.
Qed.
End logic.

(** *** The host with a token *)
Section token.
Context `{JsonOf JoinAccept, JsonOf JoinRequest}.
Context (secret : bytes).
Abbreviation THost := (IrohHost TokenSecret HW St).
Definition token_proved (log : list bytes) (key : bytes) (peer : u64) : Prop :=
  ∃ b proof, b ∈ log ∧ parse_msg b = Some (mkTokenRequest key peer proof) ∧ ed_key_ok key = true ∧ length proof = 64 ∧
    verify_in_domain key PAIRING_PROOF_DOMAIN secret proof = true.
Lemma token_proved_mono l l' key peer : l ⊆ l' → token_proved l key peer → token_proved l' key peer.
Proof. intros Hl (b&p&Hb&Hr). exists b, p. split; [by apply Hl|done]. Qed.
Lemma proves_ok req : proves secret req = Ok tt →
  ed_key_ok (jr_verifying_key req) = true ∧ length (jr_proof req) = 64 ∧
  verify_in_domain (jr_verifying_key req) PAIRING_PROOF_DOMAIN secret (jr_proof req) = true.
Proof.
  unfold proves, try_into_array. destruct (ed_key_ok _); [|done]. cbn [negb]. case_decide; [|done]. simpl.
  by destruct (verify_in_domain _ _ _ _).
Qed.
Abbreviation ttriple := (htriple (A := TokenSecret) (λ a, ts_secret a = secret) token_proved).
Lemma htriple_token_handshake wraps : ttriple (λ _, True) (token_handshake pick fuel wraps) (earned token_proved).
Proof.
  pose proof token_proved_mono as Hmono. unfold token_handshake.
  eapply (htriple_bind _ _ Hmono _ (λ _ _, True)); [apply htriple_quiet; [apply hears_map_err, hears_unheard|done]|]. intros _.
  eapply (htriple_bind _ _ Hmono); [apply (htriple_world _ _ (λ _, True)); [apply hears_read_msg|done]|]. intros req.
  apply htriple_get. intros h0. eapply (htriple_bind _ _ Hmono); [apply htriple_lift|]. intros u. cbv beta.
  apply (htriple_pre _ _ _ (λ h : THost, token_proved (hlog h) (jr_verifying_key req) (jr_peer_id req))).
  { intros h _ (Hp&->&Hs&_&t&Ht). rewrite Hs in Hp. destruct u. apply proves_ok in Hp as (?&?&?).
    apply read_msg_heard in Ht as (b&Hb&Hreq). exists b, (jr_proof req). by destruct req. }
  apply htriple_enrolled; [done|]. intros a.
  eapply (htriple_bind _ _ Hmono _ (λ _, earned token_proved (jr_peer_id req))); [apply htriple_answered; [done|apply hears_write_be]|].
  intros _. by apply htriple_sent.
Qed.
Lemma htriple_token_loop ticks wraps deadline : ttriple (λ _, True) (token_loop pick fuel ticks wraps deadline) (earned token_proved).
Proof.
  pose proof token_proved_mono as Hmono. induction ticks as [|n IH]; [apply htriple_fail|]. cbn [token_loop].
  eapply (htriple_bind _ _ Hmono); [apply htriple_connection; [done|apply htriple_token_handshake]|]. intros [peer|].
  - eapply htriple_pre; [|apply (htriple_ret _ _ peer (earned token_proved))]. intros h _ Hp. by apply Hp.
  - by eapply htriple_pre, IH.
Qed.

(** C26: Nobody joins without the token, whatever the network does: after a host has run over any
    connections, its store differs from what it was only by enrolments, each of a key and
    a peer id that came in one request the host read, with a 64-byte signature by that key
    over the token's secret in the pairing domain; a peer that is reported as joined is one
    of those; and the role, the vault and the vault key are those the host was given. *)
Theorem token_enrols_only_proved ticks wraps window (h : THost) res h' :
  ts_secret (ih_auth h) = secret → token_accept_for pick fuel ticks wraps window h = (res, h') →
  rtc (admits token_proved (hlog h') (terms h)) (ih_store h) (ih_store h') ∧ terms h' = terms h ∧
  ∀ peer, res = Ok peer → ∃ key, token_proved (hlog h') key peer.
Proof.
  intros Hs. unfold token_accept_for, mbind at 1, SM_bind at 1, sm_get. intros Hrun.
  destruct (htriple_closing _ _ token_proved_mono _ (htriple_token_loop ticks wraps _) h res h' Hs I Hrun) as (_&(_&Ht&Hr)&Hok).
  split_and!; [done..|]. intros peer ->. by apply Hok.
Qed.
End token.

(** *** The host with a code *)
Section lan.
Context `{JsonOf JoinAccept, JsonOf MailboxJoinRequest}.
(** The code that is shown, the endpoint's id, and the randomness of its connections. *)
Context (code : PairingCode) (rid : bytes) (rng : HostRng).
Abbreviation LHost := (IrohHost Responder HW St).
(** A run of the exchange with the device [id] that was confirmed, and its key. *)
Definition run_confirmed (id : bytes) (key : SessionKey) (log : list bytes) : Prop :=
  ∃ k msg1 p msg2, msg1 ∈ log ∧ pr_expected p ∈ log ∧ pr_key p = key ∧
    respond (hr_spake rng k) (responder_new code rid) id msg1 = Ok (p, msg2).
Definition lan_proved (log : list bytes) (id : bytes) (peer : u64) : Prop :=
  ∃ key ct, run_confirmed id key log ∧ ct ∈ log ∧ open_json (key_split key SResponder).2 ct = Ok (mkJoinRequest id peer).
Lemma run_confirmed_mono id key l l' : l ⊆ l' → run_confirmed id key l → run_confirmed id key l'.
Proof. intros Hl (k&m&p&m2&Hm&Hp&Hr). exists k, m, p, m2. split_and!; [by apply Hl|by apply Hl|tauto..]. Qed.
Lemma lan_proved_mono l l' id peer : l ⊆ l' → lan_proved l id peer → lan_proved l' id peer.
Proof. intros Hl (key&ct&Hr&Hc&Ho). exists key, ct. split_and!; [by eapply run_confirmed_mono|by apply Hl|done]. Qed.
Abbreviation ltriple := (htriple (A := Responder) (λ a, re_code a = code ∧ re_responder_id a = rid) lan_proved).

Lemma lan_respond_shown r0 (a : Responder) id msg1 x :
  re_code a = code ∧ re_responder_id a = rid → respond r0 a id msg1 = Ok x → respond r0 (responder_new code rid) id msg1 = Ok x.
Proof. intros [Hc Hr]. unfold respond. case_decide; [done|]. by rewrite Hc, Hr. Qed.
Lemma htriple_lan_verify (Q : LHost → Prop) p c :
  hkept Q → ltriple Q (with_auth (lan_verify p c)) (λ y h, Q h ∧ c = pr_expected p ∧ y.1 = pr_key p).
Proof.
  intros Hk h x h' Hi Hq. unfold with_auth, lan_verify, responder_verify, macs_match.
  case_decide; [|case_bool_decide as Hm]; simpl; intros [= <- <-]; (split; [done|split; [by apply hguarded_same|]]); try done.
  intros y [= <-]. split; [by eapply Hk, Hq|]. by subst c.
Qed.
Lemma lan_confirmation_ok b c : lan_confirmation b = Ok c → c = b.
Proof. unfold lan_confirmation. by case_decide; [intros [= <-]|]. Qed.
Lemma htriple_lan_authenticate k id :
  ltriple (λ _, True) (lan_authenticate (hr_spake rng k) id) (λ key h, run_confirmed id key (hlog h)).
Proof.
  pose proof lan_proved_mono as Hmono. unfold lan_authenticate.
  eapply (htriple_bind _ _ Hmono _ (λ _ _, True)); [apply htriple_quiet; [apply hears_map_err, hears_unheard|done]|]. intros _.
  eapply (htriple_bind _ _ Hmono); [by apply (htriple_read _ _ (λ _, True))|]. intros msg1.
  apply htriple_get. intros h0. eapply (htriple_bind _ _ Hmono); [apply htriple_lift|]. intros [p msg2]. cbv beta.
  set (opened := λ h : LHost, msg1 ∈ hlog h ∧ respond (hr_spake rng k) (responder_new code rid) id msg1 = Ok (p, msg2)).
  assert (hkept opened) as Hst by (intros h h' Hl [Hm Hr]; split; [by apply Hl|done]).
  apply (htriple_pre _ _ _ opened).
  { intros h _ (Hx&->&Hi&_&Hm). split; [done|]. destruct (respond _ (ih_auth h0) _ _) as [y|] eqn:Er; [|done].
    injection Hx as ->. by eapply lan_respond_shown. }
  eapply (htriple_bind _ _ Hmono _ (λ _, opened)); [apply htriple_quiet; [apply hears_write_be|done]|]. intros _.
  eapply (htriple_bind _ _ Hmono); [by apply htriple_read|]. intros c.
  eapply (htriple_bind _ _ Hmono); [apply htriple_lift|]. intros confirm. cbv beta.
  apply (htriple_pre _ _ _ (λ h, opened h ∧ confirm ∈ hlog h)); [by intros h _ (->%lan_confirmation_ok&?&?)|].
  assert (hkept (λ h : LHost, opened h ∧ confirm ∈ hlog h)) as Hkc.
  { intros h h' Hl [Ho Hc]. split; [by eapply Hst|by apply Hl]. }
  eapply (htriple_bind _ _ Hmono); [by apply htriple_lan_verify|]. intros y. cbv beta.
  apply (htriple_pre _ _ _ (λ h, run_confirmed id y.1 (hlog h))).
  { intros h _ ([[Hm Hr] Hc]&->&->). exists k, msg1, p, msg2. by split_and!. }
  eapply (htriple_bind _ _ Hmono _ (λ _ h, run_confirmed id y.1 (hlog h))); [apply htriple_quiet; [apply hears_write_be|]|].
  { intros h h' Hl. by apply run_confirmed_mono. }
  intros _. apply (htriple_ret _ _ y.1 (λ key h, run_confirmed id key (hlog h))).
Qed.
Lemma htriple_lan_handshake k wraps : ltriple (λ _, True) (lan_handshake pick fuel (hr_spake rng k) wraps) (earned lan_proved).
Proof.
  pose proof lan_proved_mono as Hmono. unfold lan_handshake. apply htriple_get. intros h0.
  set (id := cn_remote_id (ih_world h0)).
  eapply (htriple_bind _ _ Hmono); [eapply htriple_pre, htriple_lan_authenticate; done|]. intros key. cbv beta.
  destruct (key_split key SResponder) as [sealer opener] eqn:Ek.
  eapply (htriple_bind _ _ Hmono); [apply htriple_read; intros h h' Hl; by apply run_confirmed_mono|]. intros ct.
  eapply (htriple_bind _ _ Hmono); [apply htriple_lift|]. intros req. cbv beta.
  case_decide as Hid; [apply htriple_fail|].
  apply (htriple_pre _ _ _ (λ h : LHost, lan_proved (hlog h) (rq_verifying_key req) (rq_peer_id req))).
  { intros h _ (Ho&Hr&Hc). rewrite Hid. exists key, ct. rewrite Ek. split_and!; [done..|]. rewrite <-Hid. by destruct req. }
  apply htriple_enrolled; [done|]. intros a.
  eapply (htriple_bind _ _ Hmono); [apply htriple_lift|]. intros sealed. cbv beta.
  eapply (htriple_bind _ _ Hmono _ (λ _, earned lan_proved (rq_peer_id req))).
  { eapply htriple_pre, htriple_answered; [by intros h _ []|done|apply hears_write_be]. }
  intros _. by apply htriple_sent.
Qed.
Lemma htriple_lan_loop ticks deadline : ltriple (λ _, True) (lan_loop pick fuel ticks rng deadline) (earned lan_proved).
Proof.
  pose proof lan_proved_mono as Hmono. induction ticks as [|n IH]; [apply htriple_fail|]. cbn [lan_loop].
  apply htriple_get. intros h0. case_decide; [apply htriple_fail|].
  eapply (htriple_bind _ _ Hmono); [eapply htriple_pre, htriple_connection; [done|done|apply htriple_lan_handshake]|]. intros [peer|].
  - eapply htriple_pre; [|apply (htriple_ret _ _ peer (earned lan_proved))]. intros h _ Hp. by apply Hp.
  - by eapply htriple_pre, IH.
Qed.

(** C27: A code on the local network admits the device that typed it and no other: after a host has
    run over any connections, its store differs from what it was only by enrolments, and
    for each of them the host had read the confirmation it expects of a run of the exchange with
    the enrolled key itself as the other device's id, and a request for that key and peer id
    sealed under the key of that run; so a device that proved the code cannot enrol
    a key that is not the one its connection was authenticated with. *)
Theorem lan_enrols_only_proved ticks window (h : LHost) res h' :
  re_code (ih_auth h) = code → re_responder_id (ih_auth h) = rid → lan_accept_for pick fuel ticks rng window h = (res, h') →
  rtc (admits lan_proved (hlog h') (terms h)) (ih_store h) (ih_store h') ∧ terms h' = terms h ∧
  ∀ peer, res = Ok peer → ∃ key, lan_proved (hlog h') key peer.
Proof.
  intros Hc Hr. unfold lan_accept_for, mbind at 1, SM_bind at 1, sm_get. intros Hrun.
  destruct (htriple_closing _ _ lan_proved_mono _ (htriple_lan_loop ticks _) h res h' (conj Hc Hr) I Hrun) as (_&(_&Ht&Hs)&Hok).
  split_and!; [done..|]. intros peer ->. by apply Hok.
Qed.
End lan.
End hosts.

(** ** The joiners *)
#[global] Instance Heard_dialer `{Dialer W} : Dialer (Heard W) := {| dl_connect id := unheard (dl_connect id) |}.

Section joiners.
Context `{Ed25519, Crypto, EdX, B64, KeyedHash, Spake2, ChaCha, EndpointAddrs}.
Context `{JsonOf RosterLine, JsonOf (list PeerRecord), JsonOf KeyLine, JsonOf JoinAccept, JsonOf JoinRequest, JsonOf MailboxJoinRequest}.
Context {Fs Doc Ver W : Type} `{VaultFs Fs, Conn W, Listener W, Dialer W}.
Variable pick : gset u64 → option u64.
Variable fuel : nat.
Abbreviation HW := (Heard W).
Abbreviation HJoiner := (Pairing.Joiner (Fs := Fs) (Doc := Doc) (Ver := Ver) (W := HW)).
Implicit Types j : HJoiner.

(** Parts of a join that only talk leave the store alone and keep what was heard. *)
Definition talks {A} (m : SM HJoiner IrohError A) : Prop := ∀ j,
  jn_store (m j).2 = jn_store j ∧ hd_log (jn_world j) ⊆ hd_log (jn_world (m j).2).
Lemma talks_world {A} (m : SM HW IrohError A) : hears m → talks (joiner_world m).
Proof. intros Hm j. unfold joiner_world. specialize (Hm (jn_world j)). by destruct (m (jn_world j)) as [r w]. Qed.
Lemma talks_lift {A} (r : result IrohError A) : talks (sm_lift r).
Proof. done. Qed.
(** A join is talk until something is adopted: what it needed for that, [G], is known of the log. *)
Definition adopts {A} (G : list bytes → JoinAccept → bytes → Prop) (m : SM HJoiner IrohError A) : Prop := ∀ j x j',
  m j = (x, j') → jn_store j' = jn_store j ∨
  ∃ accept hkey, G (hd_log (jn_world j')) accept hkey ∧ jn_store j' = (adopt_accept pick fuel accept hkey (jn_store j)).2.
Lemma adopts_bind {A B} G (m : SM HJoiner IrohError A) (k : A → SM HJoiner IrohError B) :
  talks m → (∀ j a j', m j = (Ok a, j') → ∀ x j'', k a j' = (x, j'') → jn_store j'' = jn_store j' ∨
    ∃ accept hkey, G (hd_log (jn_world j'')) accept hkey ∧ jn_store j'' = (adopt_accept pick fuel accept hkey (jn_store j')).2) →
  adopts G (m ≫= k).
Proof.
  intros Hm Hk j x j'. unfold mbind, SM_bind. destruct (Hm j) as [Hs _]. destruct (m j) as [[a|e] j1] eqn:E; simpl in Hs.
  - intros Hrun. rewrite <-Hs. by eapply Hk.
  - intros [= _ <-]. by left.
Qed.
Lemma adopts_fail {A} G e : adopts G (sm_fail e : SM HJoiner IrohError A).
Proof. intros j x j' [= _ <-]. by left. Qed.
Lemma adopts_talk {A B} G (m : SM HJoiner IrohError A) (k : A → SM HJoiner IrohError B) :
  talks m → (∀ a, adopts G (k a)) → adopts G (m ≫= k).
Proof. intros Hm Hk. apply adopts_bind; [done|]. intros j a j' _ x j''. apply Hk. Qed.
(** The end of both joins: the accept is adopted and the connection closed. *)
Lemma adopts_end {B} (G : list bytes → JoinAccept → bytes → Prop) accept hkey (f : Joined → B) j x j' :
  G (hd_log (jn_world j)) accept hkey →
  (joined ← joiner_store (sm_map_err IPair (adopt_accept pick fuel accept hkey));
   _ ← joiner_world (sm_modify cn_close); mret (f joined)) j = (x, j') →
  jn_store j' = jn_store j ∨
  ∃ accept hkey, G (hd_log (jn_world j')) accept hkey ∧ jn_store j' = (adopt_accept pick fuel accept hkey (jn_store j)).2.
Proof.
  intros HG. unfold mbind, SM_bind, joiner_store, joiner_world, sm_map_err, sm_modify.
  destruct (adopt_accept pick fuel accept hkey (jn_store j)) as [[y|e] s] eqn:E; cbn; intros [= _ <-]; right; exists accept, hkey;
    (split; [done|]); cbn; by rewrite E.
Qed.

(** A joiner refuses a token before it acts on it: with an expired token, or one that names one device
    to dial and another to trust, it does nothing at all; otherwise its store changes only by
    adopting an accept it read, for the very vault the token names, under the key of the
    device the token lets it dial. *)
Theorem token_join_guarded id t j res j' :
  run_join pick fuel id t j = (res, j') →
  ((expires_at_unix_secs t ≤ now_unix_secs (jn_world j))%N ∨ addr_id (pt_addr t) ≠ pt_verifying_key t →
    j' = j ∧ ∃ e, res = Err e) ∧
  (jn_store j' = jn_store j ∨
   ∃ b accept, b ∈ hd_log (jn_world j') ∧ parse_msg b = Some accept ∧ ja_vault accept = pt_vault t ∧
     jn_store j' = (adopt_accept pick fuel accept (addr_id (pt_addr t)) (jn_store j)).2).
Proof.
  unfold run_join, mbind at 1, SM_bind at 1, sm_get. destruct (_ <=? _)%N eqn:He; [intros [= <- <-]|].
  { split; [by eauto|by left]. }
  apply N.leb_gt in He. unfold check_host_identity_is_consistent. case_decide as Ha; cycle 1.
  { intros [= <- <-]. split; [by eauto|by left]. }
  intros Hrun. split; [intros [Hx|Hx]; [lia|done]|].
  set (G := λ (l : list bytes) (accept : JoinAccept) (hkey : bytes),
    hkey = pt_verifying_key t ∧ ∃ b, b ∈ l ∧ parse_msg b = Some accept ∧ ja_vault accept = pt_vault t).
  enough (jn_store j' = jn_store j ∨ ∃ accept hkey, G (hd_log (jn_world j')) accept hkey ∧
    jn_store j' = (adopt_accept pick fuel accept hkey (jn_store j)).2) as [?|(a&k&(->&b&?&?&?)&?)]
    by (by left) || (right; exists b, a; by rewrite Ha).
  revert Hrun. match goal with |- ?m j = _ → _ => enough (adopts G m) as Hg by apply Hg end.
  apply adopts_talk; [apply talks_lift|intros _].
  apply adopts_talk; [apply talks_world, hears_map_err, hears_unheard|intros _].
  apply adopts_talk; [apply talks_world, hears_write_be|intros _].
  apply adopts_talk; [apply talks_world, hears_map_err, hears_unheard|intros _].
  apply adopts_bind; [apply talks_world, hears_read_msg|]. intros j0 accept j1 Hr x j2.
  case_decide as Hv; [intros [= _ <-]; by left|]. destruct (ed_key_ok _); cbn [negb]; [|intros [= _ <-]; by left].
  apply (adopts_end G accept (pt_verifying_key t) (λ joined, (jd_vault_key joined, jd_founder joined))).
  split; [done|]. unfold joiner_world in Hr. destruct (read_msg (jn_world j0)) as [r w] eqn:Em. injection Hr as -> <-.
  apply read_msg_heard in Em as (b&Hb&Hp). by exists b.
Qed.

(** *** With a code *)
Section lan.
Context (rng : bytes) (code : PairingCode) (our_id host_id : bytes).
(** The host has confirmed a run of the exchange with the device that was dialled. *)
Definition host_confirmed (key : SessionKey) (log : list bytes) : Prop :=
  ∃ msg2 p ours, msg2 ∈ log ∧ pi_expected p ∈ log ∧ pi_key p = key ∧
    initiator_accept (initiator_start rng code our_id host_id).1 msg2 = Ok (p, ours).
Lemma hears_lan_prove : hears (lan_prove rng code our_id host_id : SM HW IrohError SessionKey).
Proof.
  unfold lan_prove. destruct (initiator_start rng code our_id host_id) as [ini msg1].
  apply hears_bind; [apply hears_write_be|intros _]. apply hears_bind; [apply hears_read_be|intros msg2].
  apply hears_bind; [apply hears_lift|intros y]. apply hears_bind; [apply hears_write_be|intros _].
  apply hears_bind; [apply hears_read_be|intros c]. apply hears_bind; [apply hears_lift|intros d]. apply hears_lift.
Qed.
Lemma lan_prove_confirmed (t t' : HW) key : lan_prove rng code our_id host_id t = (Ok key, t') → host_confirmed key (hd_log t').
Proof.
  unfold lan_prove, host_confirmed. destruct (initiator_start rng code our_id host_id) as [ini msg1].
  intros (u1&t1&_&Hr)%sm_bind_ok. apply sm_bind_ok in Hr as (msg2&t2&E2&Hr). apply read_be_heard in E2.
  apply sm_bind_ok in Hr as ([p ours]&t3&[= Ha <-]&Hr). apply sm_bind_ok in Hr as (u4&t4&E4&Hr).
  apply sm_bind_ok in Hr as (c&t5&E5&Hr). pose proof (read_be_heard _ _ _ E5) as Hc.
  apply sm_bind_ok in Hr as (c'&t6&[= ->%lan_confirmation_ok <-]&Hr). injection Hr as Hv ->.
  exists msg2, p, ours. cbn [fst snd] in *. unfold initiator_verify, macs_match in Hv. case_bool_decide as Hm; [|done].
  pose proof (hears_write_be ours t2) as G4. rewrite E4 in G4. pose proof (hears_read_be t4) as G5. rewrite E5 in G5. split_and!.
  - by apply G5, G4.
  - by rewrite Hm.
  - by injection Hv.
  - destruct (initiator_accept ini msg2); [|done]. by injection Ha as ->.
Qed.

(** A device that joins with a code adopts only what a holder of the code sent: whatever answers,
    its store changes only by adopting an accept that opens under the key of a run of the
    exchange which the dialled host has confirmed, and it adopts it under that host's key. *)
Theorem lan_join_guarded id claim j res j' :
  run_lan_join pick fuel rng our_id id host_id code claim j = (res, j') →
  jn_store j' = jn_store j ∨
  ∃ key ct accept, host_confirmed key (hd_log (jn_world j')) ∧ ct ∈ hd_log (jn_world j') ∧
    open_json (key_split key SInitiator).2 ct = Ok accept ∧ jn_store j' = (adopt_accept pick fuel accept host_id (jn_store j)).2.
Proof.
  set (G := λ (l : list bytes) (accept : JoinAccept) (hkey : bytes), hkey = host_id ∧
    ∃ key ct, host_confirmed key l ∧ ct ∈ l ∧ open_json (key_split key SInitiator).2 ct = Ok accept).
  enough (adopts G (run_lan_join pick fuel rng our_id id host_id code claim)) as Hg.
  { intros [?|(a&k&(->&key&ct&?&?&?)&?)]%Hg; [by left|]. right. by exists key, ct, a. }
  unfold run_lan_join. destruct (ed_key_ok host_id); cbn [negb]; [|apply adopts_fail].
  apply adopts_talk; [apply talks_world, hears_map_err, hears_unheard|intros _].
  apply adopts_bind; [apply talks_world, hears_lan_prove|]. intros j0 key j1 Hp.
  assert (host_confirmed key (hd_log (jn_world j1))) as Hkey.
  { unfold joiner_world in Hp. destruct (lan_prove _ _ _ _ (jn_world j0)) as [r w] eqn:E. injection Hp as -> <-.
    by eapply lan_prove_confirmed. }
  clear Hp. intros x j2. cbn zeta. destruct (key_split key SInitiator) as [sealer opener] eqn:Ek.
  unfold mbind at 1, SM_bind at 1, sm_lift at 1. destruct (ch_seal _ _) as [sealed|]; cbn [ok_or]; [|intros [= _ <-]; by left].
  unfold mbind at 1, SM_bind at 1. destruct (talks_world _ (hears_write_be sealed.1) j1) as [S2 L2].
  destruct (joiner_world (write_be sealed.1) j1) as [[u2|e] k2]; cbn [snd] in *; [|intros [= _ <-]; by left].
  unfold mbind at 1, SM_bind at 1. destruct (talks_world _ hears_read_be k2) as [S3 L3].
  destruct (joiner_world read_be k2) as [[ct|e] k3] eqn:E3; cbn [snd] in *; [|intros [= _ <-]; left; congruence].
  assert (ct ∈ hd_log (jn_world k3)) as Hct.
  { unfold joiner_world in E3. destruct (read_be (jn_world k2)) as [r w] eqn:E. injection E3 as -> <-. by eapply read_be_heard. }
  unfold mbind at 1, SM_bind at 1, sm_lift at 1. destruct (open_json opener ct) as [accept|e] eqn:Eo; [|intros [= _ <-]; left; congruence].
  rewrite <-S2, <-S3.
  apply (adopts_end G accept host_id (λ joined, (jd_vault joined, jd_vault_key joined, jd_founder joined))).
  split; [done|]. exists key, ct. rewrite Ek. split_and!; [|done|done]. destruct Hkey as (m2&p&o&Hm&He&Hk).
  exists m2, p, o. split_and!; [by apply L3, L2|by apply L3, L2|tauto..].
Qed.
End lan.
End joiners.

(** ** A connection that is waiting *)
Section ready.
Context `{Ed25519, Crypto, EdX, B64, KeyedHash, Spake2, ChaCha}.
Context `{JsonOf RosterLine, JsonOf (list PeerRecord), JsonOf KeyLine, JsonOf JoinAccept, JsonOf JoinRequest, JsonOf MailboxJoinRequest}.
Context {Fs Doc Ver W : Type} `{VaultFs Fs, Conn W, Listener W}.
Variable pick : gset u64 → option u64.
Variable fuel : nat.
Definition at_world {A} (w : W) (h : IrohHost A W (Store Fs Doc Ver)) : IrohHost A W (Store Fs Doc Ver) :=
  mkIrohHost w (ih_auth h) (ih_identity h) (ih_vault h) (ih_vault_key h) (ih_role h) (ih_store h).
Lemma connection_ready {A} deadline handshake (h h2 : IrohHost A W (Store Fs Doc Ver)) w1 peer :
  ls_accept (Z.max 0 (deadline - ls_clock (ih_world h))) (ih_world h) = (Ok true, w1) → handshake (at_world w1 h) = (Ok peer, h2) →
  one_connection deadline handshake h = (Ok (Some peer), at_world (cn_closed (ih_world h2)) h2).
Proof.
  intros Ha Hs. unfold one_connection, with_world, sm_map_err, attempt, mbind, SM_bind, sm_get. rewrite Ha. cbn [map_err fst snd].
  unfold at_world in Hs. by rewrite Hs.
Qed.
Lemma closing_ok {A B} (m : SM (IrohHost A W (Store Fs Doc Ver)) IrohError B) h b h2 :
  m h = (Ok b, h2) → closing m h = (Ok b, at_world (ls_close (ih_world h2)) h2).
Proof. intros Hm. unfold closing, attempt, mbind, SM_bind. by rewrite Hm. Qed.
Definition remaining (expires now : u64) : Z := 1000 * Z.of_N (expires - now).
Lemma token_ready ticks wraps (h : IrohHost TokenSecret W (Store Fs Doc Ver)) w1 peer h2 :
  ls_accept (remaining (ts_expires (ih_auth h)) (now_unix_secs (ih_world h))) (ih_world h) = (Ok true, w1) →
  token_handshake pick fuel (wraps ticks) (at_world w1 h) = (Ok peer, h2) →
  token_accept_auto pick fuel (S ticks) wraps h = (Ok peer, at_world (ls_close (cn_closed (ih_world h2))) h2).
Proof.
  intros Ha Hs. unfold token_accept_auto, mbind at 1, SM_bind at 1, sm_get at 1.
  unfold token_accept_for, mbind at 1, SM_bind at 1, sm_get at 1. rewrite (closing_ok _ h peer (at_world (cn_closed (ih_world h2)) h2)); [reflexivity|].
  cbn [token_loop]. unfold mbind at 1, SM_bind at 1. rewrite (connection_ready _ _ h h2 w1 peer); [reflexivity| |exact Hs].
  rewrite <-Ha. f_equal. unfold remaining. lia.
Qed.
Lemma lan_ready ticks rng window (h : IrohHost Responder W (Store Fs Doc Ver)) w1 peer h2 :
  attempts_left (ih_auth h) ≠ 0 → (0 ≤ window)%Z → ls_accept window (ih_world h) = (Ok true, w1) →
  lan_handshake pick fuel (hr_spake rng ticks) (hr_wraps rng ticks) (at_world w1 h) = (Ok peer, h2) →
  lan_accept_for pick fuel (S ticks) rng window h = (Ok peer, at_world (ls_close (cn_closed (ih_world h2))) h2).
Proof.
  intros Hl Hw Ha Hs. unfold lan_accept_for, mbind at 1, SM_bind at 1, sm_get at 1. rewrite (closing_ok _ h peer (at_world (cn_closed (ih_world h2)) h2)); [reflexivity|].
  cbn [lan_loop]. unfold mbind at 1, SM_bind at 1, sm_get at 1. rewrite decide_False by done.
  unfold mbind at 1, SM_bind at 1. rewrite (connection_ready _ _ h h2 w1 peer); [reflexivity| |exact Hs].
  rewrite <-Ha. f_equal. lia.
Qed.

(** The host does not enforce the expiry of its own token: when the token has expired before the host
    starts to accept, a connection that is already waiting is still served, because a
    timeout of zero lets a ready accept through; if it proves the secret its device is
    enrolled, is answered with the vault key, and is reported as joined. *)
Theorem expired_token_admits ticks wraps (h : IrohHost TokenSecret W (Store Fs Doc Ver)) w1 peer h2 :
  (ts_expires (ih_auth h) ≤ now_unix_secs (ih_world h))%N → ls_accept 0 (ih_world h) = (Ok true, w1) →
  token_handshake pick fuel (wraps ticks) (at_world w1 h) = (Ok peer, h2) →
  token_accept_auto pick fuel (S ticks) wraps h = (Ok peer, at_world (ls_close (cn_closed (ih_world h2))) h2).
Proof.
  intros He Ha. apply token_ready. rewrite <-Ha. f_equal. unfold remaining.
  replace (ts_expires (ih_auth h) - now_unix_secs (ih_world h))%N with 0%N by lia. done.
Qed.
End ready.
