(* ===== verification/PairingIrohRun.v ===== *)
(** * Complete pairings over a connection

    Two runs joined by their byte streams, as in a share: the host with a token and the
    host with a code, each with a joiner that holds what was shown.  The joiner ends with what
    the host handed over and the host with the joiner enrolled. *)
From S2P Require Import Prelude RustStr Vfs Roster Wire Logs Keychain Blob Trust Store StoreRoster StoreSync.
From S2P Require Import StoreKeys Checkpoint Paths Snapshots Relay Pairing Enrol PairingSpec PairingRun Share ShareSpec ShareRun PairingIroh PairingIrohSpec.

(** ** Frames on a pipe *)
Lemma from_be_be_bytes k n : from_be (be_bytes k n) = (n mod 256 ^ N.of_nat k)%N.
Proof. unfold from_be, be_bytes. rewrite reverse_involutive. apply from_le_le_bytes. Qed.
Lemma length_be_bytes k n : length (be_bytes k n) = k.
Proof. unfold be_bytes. by rewrite length_reverse, length_le_bytes. Qed.
Definition fits_msg (b : bytes) : Prop := (N.of_nat (length b) ≤ MAX_MSG_LEN)%N.
Definition framed_be (b : bytes) : bytes := be_bytes 4 (N.of_nat (length b)) ++ b.
#[local] Arguments framed_be : simpl never.
#[local] Arguments to_json : simpl never.
#[local] Arguments utf8 : simpl never.
(** An endpoint at the time [now] at which a connection from [remote] is waiting. *)
Definition pipe_listener (now : u64) : Listener Pipe :=
  {| now_unix_secs _ := now; ls_clock _ := 0%Z; ls_accept _ := mret true; ls_close p := p |}.
#[global] Instance pipe_dialer : Dialer Pipe := {| dl_connect _ := mret tt |}.

Section pipe.
Context (remote : bytes) (now : u64).
#[local] Instance be_conn : Conn Pipe := pipe_conn remote.
#[local] Instance be_listener : Listener Pipe := pipe_listener now.
Lemma fits_u32 b : fits_msg b → (N.of_nat (length b) < 2 ^ 32)%N.
Proof. unfold fits_msg, MAX_MSG_LEN. lia. Qed.
Lemma write_be_pipe b i o : fits_msg b → write_be b (mkPipe i o) = (Ok tt, mkPipe i (o ++ framed_be b)).
Proof.
  intros Hb%fits_u32. unfold write_be. rewrite decide_True by done. unfold mbind, SM_bind, sm_map_err. simpl.
  unfold pipe_write. simpl. unfold framed_be. by rewrite (assoc_L app).
Qed.
Lemma read_be_pipe b i o : fits_msg b → read_be (mkPipe (framed_be b ++ i) o) = (Ok b, mkPipe i o).
Proof.
  intros Hb. pose proof (fits_u32 b Hb) as Hu. unfold read_be, framed_be, mbind, SM_bind, sm_map_err.
  change (@cn_read_exact Pipe _) with pipe_read. rewrite <-(assoc_L app).
  pose proof (pipe_take (be_bytes 4 (N.of_nat (length b))) (b ++ i) o) as Hh.
  rewrite length_be_bytes in Hh. change (N.of_nat 4) with 4%N in Hh. rewrite Hh. cbn [fst snd map_err].
  rewrite from_be_be_bytes, N.mod_small by done. destruct (MAX_MSG_LEN <? _)%N eqn:El; [unfold fits_msg in Hb; lia|].
  by rewrite pipe_take.
Qed.
Lemma parse_to_json {T} `{JsonText T} (x : T) : parse_msg (utf8 (to_json x)) = Some x.
Proof. apply from_utf8_json. Qed.
Lemma read_msg_pipe {T} `{JsonText T} (x : T) i o :
  fits_msg (utf8 (to_json x)) → read_msg (mkPipe (framed_be (utf8 (to_json x)) ++ i) o) = (Ok x, mkPipe i o).
Proof. intros Hf. unfold read_msg, mbind, SM_bind. rewrite read_be_pipe by done. unfold sm_lift. by rewrite parse_to_json. Qed.

(** ** The token flow *)
Section token.
Context `{Ed25519Laws, Crypto, EdX, B64Laws, EndpointAddrs}.
Context `{JsonOf RosterLine, JsonOf (list PeerRecord), JsonOf KeyLine}.
Context `{JsonText JoinAccept, JsonText JoinRequest, JsonText PairingToken}.
Context {Fs Doc Ver : Type} `{VaultFs Fs}.
Variable pick : gset u64 → option u64.
Variable fuel : nat.
Abbreviation St := (Store Fs Doc Ver).

(** What the joiner sends. *)
Definition request_for (id : Identity) (secret : bytes) : JoinRequest :=
  mkTokenRequest (id_key id) (id_peer id) (sign_in_domain id PAIRING_PROOF_DOMAIN secret).
Lemma request_proves id secret : proves secret (request_for id secret) = Ok tt.
Proof.
  unfold proves, request_for. cbn [jr_verifying_key jr_proof]. replace (ed_key_ok (id_key id)) with true by (symmetry; apply ed_public_ok). cbn [negb].
  unfold try_into_array, sign_in_domain. rewrite decide_True by apply ed_sign_len. unfold mbind, result_bind.
  pose proof (verify_in_domain_sign id PAIRING_PROOF_DOMAIN secret) as Hv. unfold sign_in_domain in Hv. by rewrite Hv.
Qed.
Lemma enrolled_vault wraps id vault vkey role key peer (s s' : St) accept :
  enrol_joiner pick fuel wraps id vault vkey role key peer s = (Ok accept, s') → ja_vault accept = vault ∧ ja_vault_key accept = vkey.
Proof.
  unfold enrol_joiner. intros (s0&s1&_&Hr)%sm_bind_ok. destruct (founder s0) as [f|]; [|done].
  apply sm_bind_ok in Hr as (?&?&_&Hr). destruct (vault_subkeys vkey). apply sm_bind_ok in Hr as (?&?&_&Hr).
  apply sm_bind_ok in Hr as (?&?&_&Hr). apply sm_bind_ok in Hr as (?&?&_&Hr). apply sm_bind_ok in Hr as (?&?&_&[= <- _]). done.
Qed.
Lemma adopted_keys accept hkey (s s' : St) joined :
  adopt_accept pick fuel accept hkey s = (Ok joined, s') →
  jd_vault joined = ja_vault accept ∧ jd_vault_key joined = ja_vault_key accept ∧ jd_founder joined = ja_founder accept.
Proof.
  unfold adopt_accept. intros (?&?&_&Had)%sm_bind_ok. apply sm_bind_ok in Had as (?&?&_&Had).
  by apply sm_bind_ok in Had as (?&?&_&[= <- _]).
Qed.
Lemma token_round_trip `{!B64Visible} (t : PairingToken) : token_decode (token_encode t) = Some t.
Proof. unfold token_decode, token_encode. rewrite trim_visible_all, b64_decode_encode by apply b64_visible. simpl. apply parse_to_json. Qed.

Context (idh id : Identity) (vault vkey rng : bytes) (role : Role) (s s' : St) (addr : EndpointAddr) (wraps : nat → nat → bytes * bytes).
Context (accept : JoinAccept).
Abbreviation req := (request_for id rng).
Abbreviation expiry := (saturating_add now PAIRING_TOKEN_TTL).
Definition the_token : PairingToken := mkToken addr (id_key idh) (id_peer idh) vault rng expiry.
Abbreviation a_bytes := (framed_be (utf8 (to_json req))).
Abbreviation b_bytes := (framed_be (utf8 (to_json accept))).
Hypothesis Henrol : enrol_joiner pick fuel (wraps 0) idh vault vkey role (id_key id) (id_peer id) s = (Ok accept, s').
Hypothesis Hreq : fits_msg (utf8 (to_json req)).
Hypothesis Hacc : fits_msg (utf8 (to_json accept)).

Lemma host_serves :
  token_handshake pick fuel (wraps 0) (mkIrohHost (mkPipe a_bytes []) (mkTokenSecret rng expiry) idh vault vkey role s) =
    (Ok (id_peer id), mkIrohHost (mkPipe [] b_bytes) (mkTokenSecret rng expiry) idh vault vkey role s').
Proof.
  unfold token_handshake. unfold mbind at 1, SM_bind at 1, with_world at 1. cbn.
  unfold mbind at 1, SM_bind at 1, with_world at 1. cbn [ih_world].
  rewrite <-(app_nil_r a_bytes), read_msg_pipe by done. cbn.
  unfold mbind at 1, SM_bind at 1, sm_get at 1. cbn [ih_auth ts_secret].
  unfold mbind at 1, SM_bind at 1, sm_lift at 1. rewrite request_proves.
  unfold mbind at 1, SM_bind at 1, enrol. unfold mbind at 1, SM_bind at 1, sm_get at 1.
  unfold with_host_store, sm_map_err at 1. cbn [ih_store ih_identity ih_vault ih_vault_key ih_role]. change (jr_verifying_key req) with (id_key id). change (jr_peer_id req) with (id_peer id).
  rewrite Henrol. cbn [map_err fst snd].
  unfold mbind at 1, SM_bind at 1, with_world at 1. cbn [ih_world]. unfold write_msg. rewrite write_be_pipe by done. done.
Qed.
(** The joiner ends the way its own store takes the accept. *)
Lemma joiner_joins (sj : St) :
  (now < expiry)%N → addr_id addr = id_key idh →
  run_join pick fuel id the_token (mkJoiner (mkPipe b_bytes []) sj) =
    (match (adopt_accept pick fuel accept (id_key idh) sj).1 with
     | Ok joined => Ok (jd_vault_key joined, jd_founder joined) | Err e => Err (IPair e) end,
     mkJoiner (mkPipe [] a_bytes) (adopt_accept pick fuel accept (id_key idh) sj).2).
Proof.
  intros Hn Ha. unfold run_join. unfold mbind at 1, SM_bind at 1, sm_get at 1. cbn [jn_world the_token expires_at_unix_secs].
  change (now_unix_secs _) with now. destruct (_ <=? _)%N eqn:He; [lia|].
  unfold mbind at 1, SM_bind at 1, sm_lift at 1, check_host_identity_is_consistent. cbn [the_token pt_addr pt_verifying_key].
  rewrite decide_True by done. unfold mbind at 1, SM_bind at 1, joiner_world at 1. cbn.
  unfold mbind at 1, SM_bind at 1, joiner_world at 1. cbn [jn_world]. unfold write_msg. fold (request_for id rng).
  rewrite write_be_pipe by done. cbn [fst snd]. unfold mbind at 1, SM_bind at 1, joiner_world at 1. cbn.
  unfold mbind at 1, SM_bind at 1, joiner_world at 1. cbn [jn_world].
  rewrite <-(app_nil_r b_bytes), read_msg_pipe by done. cbn [fst snd].
  destruct (enrolled_vault _ _ _ _ _ _ _ _ _ _ Henrol) as [Hv _]. rewrite decide_False by (intros []; exact Hv).
  replace (ed_key_ok (id_key idh)) with true by (symmetry; apply ed_public_ok). cbn [negb].
  unfold mbind at 1, SM_bind at 1, joiner_store at 1, sm_map_err at 1. cbn [jn_store jn_world].
  by destruct (adopt_accept pick fuel accept (id_key idh) sj) as [[joined|e] sj'].
Qed.
End token.

(** C33: A device that is shown the token is let in.  The host is an active admin of a founded vault whose
    logs are intact, whose believed keys share no id and whose storage takes its writes, dialled at its own key before the clock's
    end; the joiner goes by the id its key implies and is not mentioned in the host's logs;
    the request and the accept fit a message (1 MiB).  Then the token that the host prints
    decodes to the one it minted, and host and joiner, connected by two byte streams, both
    finish: the host reports exactly the joiner's peer id, and in its store the joiner is an active
    member with the token's role and its own key; the joiner receives an accept with the host's
    vault, vault key and founder and ends exactly as its own store takes that accept under the host's key:
    with the vault key and the founder where it does, with its error where it does not. *)
Theorem token_pairs `{Ed25519Laws, Crypto, EdX, B64Laws, !B64Visible, EndpointAddrs, JsonLaws RosterLine, JsonOf (list PeerRecord), JsonLaws KeyLine}
    `{JsonText JoinAccept, JsonText JoinRequest, JsonText PairingToken} {Fs Doc Ver : Type} `{FsAccepts Fs}
    (pick : gset u64 → option u64) (fuel : nat) (idh id : Identity) (vault vkey rng : bytes) (role : Role)
    (s sj : Store Fs Doc Ver) (addr : EndpointAddr) (wraps : nat → nat → bytes * bytes) :
  (now < U64_MAX)%N → addr_id addr = id_key idh → can_enrol pick fuel s (id_peer id) (id_key id) →
  fits_msg (utf8 (to_json (request_for id rng))) →
  (∀ accept s', enrol_joiner pick fuel (wraps 0) idh vault vkey role (id_key id) (id_peer id) s = (Ok accept, s') →
    fits_msg (utf8 (to_json accept))) →
  let shown := (host_pairing rng idh vault vkey role s addr (mkPipe [] [])).1 in
  ∃ a b t h' accept, token_decode shown = Some t ∧
    token_accept_auto pick fuel 1 wraps (host_pairing rng idh vault vkey role s addr (mkPipe a [])).2 = (Ok (id_peer id), h') ∧
    ih_world h' = mkPipe [] b ∧ member (ih_store h') (id_peer id) role (id_key id) ∧
    ja_vault accept = vault ∧ ja_vault_key accept = vkey ∧ Some (ja_founder accept) = founder s ∧
    let adopted := adopt_accept pick fuel accept (id_key idh) sj in
    run_join pick fuel id t (mkJoiner (mkPipe b []) sj) =
      (match adopted.1 with Ok _ => Ok (vkey, ja_founder accept) | Err e => Err (IPair e) end, mkJoiner (mkPipe [] a) adopted.2).
Proof.
  intros Hn Ha Hcan Hreq Hacc. cbn [host_pairing host_pairing_with_ttl].
  change (now_unix_secs (mkPipe [] [])) with now. fold (the_token idh vault rng addr).
  destruct (can_enrol_ok pick fuel s (wraps 0) idh vault vkey role _ _ Hcan) as (accept&s'&Hen&Hv&Hk&Hfd&Hm).
  specialize (Hacc _ _ Hen). pose proof (host_serves pick fuel idh id vault vkey rng role s s' wraps accept Hen Hreq Hacc) as Hs.
  exists (framed_be (utf8 (to_json (request_for id rng)))), (framed_be (utf8 (to_json accept))), (the_token idh vault rng addr).
  eexists _, accept. split_and!.
  - apply token_round_trip.
  - eapply token_ready; [reflexivity|]. exact Hs.
  - done.
  - exact Hm.
  - done.
  - done.
  - done.
  - erewrite joiner_joins; [|exact Hen|exact Hreq|exact Hacc| |exact Ha].
    + destruct (adopt_accept pick fuel accept (id_key idh) sj) as [[joined|e] sj'] eqn:Had; [|done].
      cbn [fst snd]. apply adopted_keys in Had as (_&->&->). by rewrite Hk.
    + unfold saturating_add, PAIRING_TOKEN_TTL. lia.
Qed.

(** ** The flow with a code; [remote] is the joiner *)
Section lan.
Context `{Ed25519Laws, Crypto, EdX, B64, KeyedHashLaws, Spake2Laws, ChaChaLaws}.
Context `{JsonOf RosterLine, JsonOf (list PeerRecord), JsonOf KeyLine, JsonText JoinAccept, JsonText MailboxJoinRequest}.
Context {Fs Doc Ver : Type} `{VaultFs Fs}.
Variable pick : gset u64 → option u64.
Variable fuel : nat.
Abbreviation St := (Store Fs Doc Ver).
Context (idh id : Identity) (vault vkey : bytes) (role : Role) (s s' : St) (wraps : nat → bytes * bytes).
Context (code : PairingCode) (rid rngA rngB k : bytes) (left : nat) (accept : JoinAccept).
Abbreviation msg1 := (spake_start_a rngA (utf8 code) remote rid).2.
Abbreviation msg2 := (spake_start_b rngB (utf8 code) remote rid).2.
Abbreviation mac side := (confirm_mac k side remote rid msg1 msg2).
Definition lan_request_ct : bytes :=
  chacha_seal (initiator_to_responder (session_key k)) (nonce_for 0) (utf8 (to_json (mkJoinRequest (id_key id) (id_peer id)))).
Definition lan_accept_ct : bytes := chacha_seal (responder_to_initiator (session_key k)) (nonce_for 0) (utf8 (to_json accept)).
Abbreviation a_bytes := (framed_be msg1 ++ framed_be (mac SInitiator) ++ framed_be lan_request_ct).
Abbreviation b_bytes := (framed_be msg2 ++ framed_be (mac SResponder) ++ framed_be lan_accept_ct).
Hypothesis HkA : spake_finish (spake_start_a rngA (utf8 code) remote rid).1 msg2 = Some k.
Hypothesis HkB : spake_finish (spake_start_b rngB (utf8 code) remote rid).1 msg1 = Some k.
Hypothesis Hremote : remote = id_key id.
Hypothesis Hleft : left ≠ 0.
Hypothesis Henrol : enrol_joiner pick fuel wraps idh vault vkey role (id_key id) (id_peer id) s = (Ok accept, s').
Hypothesis Hfits : fits_msg msg1 ∧ fits_msg msg2 ∧ fits_msg lan_request_ct ∧ fits_msg lan_accept_ct.

Lemma fits_mac side : fits_msg (mac side).
Proof. unfold fits_msg, confirm_mac. rewrite keyed_hash_len. unfold MAX_MSG_LEN. simpl. lia. Qed.
Lemma lan_mac_confirmation side : lan_confirmation (mac side) = Ok (mac side).
Proof. unfold lan_confirmation. by rewrite decide_True by apply keyed_hash_len. Qed.
Lemma open_first {T} `{JsonText T} key (x : T) :
  open_json (mkChannel key 0) (chacha_seal key (nonce_for 0) (utf8 (to_json x))) = Ok x.
Proof.
  unfold open_json, ch_open. cbn [ch_key ch_counter]. rewrite chacha_open_seal, first_counter. unfold mbind, option_bind, result_bind. cbn [ok_or map_err fst snd]. by rewrite parse_to_json.
Qed.
Abbreviation lhost i o st := (mkIrohHost (mkPipe i o) (mkResponder code rid left) idh vault vkey role st).
Lemma host_authenticates i :
  lan_authenticate rngB remote (lhost (framed_be msg1 ++ framed_be (mac SInitiator) ++ i) [] s) =
    (Ok (session_key k), lhost i (framed_be msg2 ++ framed_be (mac SResponder)) s).
Proof.
  destruct Hfits as (F1&F2&_). unfold lan_authenticate. unfold mbind at 1, SM_bind at 1, with_world at 1. cbn.
  unfold mbind at 1, SM_bind at 1, with_world at 1. cbn [ih_world]. rewrite read_be_pipe by done. cbn [fst snd].
  unfold mbind at 1, SM_bind at 1, sm_get at 1. cbn [ih_auth].
  assert (respond rngB (mkResponder code rid left) remote msg1 =
    Ok (mkPendingR (mac SInitiator) (mac SResponder) (session_key k), msg2)) as Hr.
  { unfold respond. cbn [attempts_left re_code re_responder_id]. rewrite decide_False by done.
    pose proof HkB as Hk. destruct (spake_start_b _ _ _ _) as [sb mb]. simpl in *. by rewrite Hk. }
  unfold mbind at 1, SM_bind at 1, sm_lift at 1. rewrite Hr. cbn [map_err fst snd].
  unfold mbind at 1, SM_bind at 1, with_world at 1. cbn [ih_world]. rewrite write_be_pipe by done. cbn [fst snd].
  unfold mbind at 1, SM_bind at 1, with_world at 1. cbn [ih_world]. rewrite read_be_pipe by apply fits_mac. cbn [fst snd].
  unfold mbind at 1, SM_bind at 1, sm_lift at 1. rewrite lan_mac_confirmation.
  unfold mbind at 1, SM_bind at 1, with_auth, lan_verify, responder_verify. cbn [ih_auth attempts_left pr_expected].
  rewrite decide_False by done. unfold macs_match. rewrite bool_decide_eq_true_2 by done. cbn [negb map_err pr_key pr_ours fst snd].
  unfold mbind at 1, SM_bind at 1, with_world at 1. cbn [ih_world]. rewrite write_be_pipe by apply fits_mac. done.
Qed.
Lemma lan_host_serves :
  lan_handshake pick fuel rngB wraps (lhost a_bytes [] s) = (Ok (id_peer id), lhost [] b_bytes s').
Proof.
  destruct Hfits as (_&_&F3&F4). unfold lan_handshake. unfold mbind at 1, SM_bind at 1, sm_get at 1. cbn [ih_world].
  change (cn_remote_id _) with remote. cbv zeta. unfold mbind at 1, SM_bind at 1. rewrite host_authenticates. cbn [key_split].
  unfold mbind at 1, SM_bind at 1, with_world at 1. cbn [ih_world]. rewrite <-(app_nil_r (framed_be lan_request_ct)), read_be_pipe by done.
  cbn [fst snd]. unfold mbind at 1, SM_bind at 1, sm_lift at 1. unfold lan_request_ct. rewrite open_first.
  cbn [rq_verifying_key rq_peer_id]. rewrite decide_False by (intros []; by rewrite Hremote).
  unfold mbind at 1, SM_bind at 1, enrol. unfold mbind at 1, SM_bind at 1, sm_get at 1.
  unfold with_host_store, sm_map_err at 1. cbn [ih_store ih_identity ih_vault ih_vault_key ih_role].
  rewrite Henrol. cbn [map_err fst snd]. unfold mbind at 1, SM_bind at 1, sm_lift at 1, ch_seal. cbn [ch_key ch_counter].
  rewrite first_counter. cbn [mbind option_bind ok_or fst snd]. fold lan_accept_ct.
  unfold mbind at 1, SM_bind at 1, with_world at 1. cbn [ih_world]. rewrite write_be_pipe by done. cbn. by rewrite <-(assoc_L app).
Qed.
Lemma joiner_proves i :
  lan_prove rngA code remote rid (mkPipe (framed_be msg2 ++ framed_be (mac SResponder) ++ i) []) =
    (Ok (session_key k), mkPipe i (framed_be msg1 ++ framed_be (mac SInitiator))).
Proof.
  destruct Hfits as (F1&F2&_). unfold lan_prove, initiator_start. pose proof HkA as Hk.
  destruct (spake_start_a rngA (utf8 code) remote rid) as [sa ma] eqn:Es. cbn [snd fst] in *.
  unfold mbind at 1, SM_bind at 1. rewrite write_be_pipe by done. cbn [fst snd].
  unfold mbind at 1, SM_bind at 1. rewrite read_be_pipe by done.
  unfold mbind at 1, SM_bind at 1, sm_lift at 1, initiator_accept. cbn [in_state]. rewrite Hk. cbn.
  unfold mbind at 1, SM_bind at 1. pose proof (fits_mac SInitiator) as Fi. pose proof (fits_mac SResponder) as Fr.
  pose proof (lan_mac_confirmation SResponder) as Hc. rewrite Es in Fi, Fr, Hc. cbn [snd] in *.
  rewrite write_be_pipe by done. unfold mbind at 1, SM_bind at 1. rewrite read_be_pipe by done.
  unfold mbind at 1, SM_bind at 1, sm_lift at 1. rewrite Hc. unfold sm_lift, initiator_verify, macs_match. cbn [pi_expected].
  rewrite bool_decide_eq_true_2 by done. done.
Qed.
Lemma lan_joiner_joins (sj sj' : St) joined :
  ed_key_ok rid = true → adopt_accept pick fuel accept rid sj = (Ok joined, sj') →
  run_lan_join pick fuel rngA remote id rid code None (mkJoiner (mkPipe b_bytes []) sj) =
    (Ok (jd_vault joined, jd_vault_key joined, jd_founder joined), mkJoiner (mkPipe [] a_bytes) sj').
Proof.
  destruct Hfits as (_&_&F3&F4). intros Hed Had. unfold run_lan_join. rewrite Hed. cbn [negb].
  unfold mbind at 1, SM_bind at 1, joiner_world at 1. cbn [dl_connect pipe_dialer jn_world sm_map_err]. cbn.
  unfold mbind at 1, SM_bind at 1, joiner_world at 1. cbn [jn_world]. rewrite joiner_proves. cbn [key_split].
  unfold mbind at 1, SM_bind at 1, sm_lift at 1, ch_seal. cbn [ch_key ch_counter]. rewrite first_counter.
  cbn [mbind option_bind ok_or fst snd default from_option]. fold lan_request_ct.
  unfold mbind at 1, SM_bind at 1, joiner_world at 1. cbn [jn_world]. rewrite write_be_pipe by done. cbn [fst snd].
  unfold mbind at 1, SM_bind at 1, joiner_world at 1. cbn [jn_world].
  rewrite <-(app_nil_r (framed_be lan_accept_ct)), read_be_pipe by done. cbn [fst snd].
  unfold mbind at 1, SM_bind at 1, sm_lift at 1. unfold lan_accept_ct. rewrite open_first.
  unfold mbind at 1, SM_bind at 1, joiner_store at 1, sm_map_err at 1. cbn [jn_store jn_world]. rewrite Had. cbn.
  by rewrite <-(assoc_L app).
Qed.
End lan.

(** A device on the local network that types the code is let in: the host that shows it and the joiner,
    connected by two byte streams, both finish: they agree on a key, the host has enrolled
    exactly the joiner's authenticated key and reports its peer id with no attempt spent, and the joiner
    has adopted the host's accept under the dialled host's key and holds the vault and its key. *)
Theorem lan_pairs `{Ed25519Laws, Crypto, EdX, KeyedHashLaws, Spake2Laws, ChaChaLaws, JsonOf RosterLine, JsonOf (list PeerRecord)}
    `{JsonOf KeyLine, JsonText JoinAccept, JsonText MailboxJoinRequest, B64} {Fs Doc Ver : Type} `{VaultFs Fs}
    (pick : gset u64 → option u64) (fuel : nat) (idh id : Identity) (vault vkey rid rngA : bytes) (role : Role) (rng : HostRng)
    (s s' sj sj' : Store Fs Doc Ver) (draws : list N) code h0 accept joined :
  host_lan_pairing idh vault vkey role s rid draws (mkPipe [] []) = Some (code, h0) →
  remote = id_key id → ed_key_ok rid = true →
  enrol_joiner pick fuel (hr_wraps rng 0) idh vault vkey role (id_key id) (id_peer id) s = (Ok accept, s') →
  adopt_accept pick fuel accept rid sj = (Ok joined, sj') →
  fits_msg (spake_start_a rngA (utf8 code) remote rid).2 → fits_msg (spake_start_b (hr_spake rng 0) (utf8 code) remote rid).2 →
  (∀ k, fits_msg (lan_request_ct id k) ∧ fits_msg (lan_accept_ct k accept)) →
  ∃ a b h h', host_lan_pairing idh vault vkey role s rid draws (mkPipe a []) = Some (code, h) ∧
    lan_accept_auto pick fuel 1 rng h = (Ok (id_peer id), h') ∧
    ih_world h' = mkPipe [] b ∧ ih_store h' = s' ∧ attempts_left (ih_auth h') = MAX_ATTEMPTS ∧
    run_lan_join pick fuel rngA remote id rid code None (mkJoiner (mkPipe b []) sj) =
      (Ok (vault, vkey, jd_founder joined), mkJoiner (mkPipe [] a) sj').
Proof.
  intros Hh Hrem Hed Hen Had F1 F2 F3. unfold host_lan_pairing in *. destruct (code_generate draws) as [c|] eqn:Ec; [|done].
  cbn [mbind option_bind] in *. injection Hh as -> <-.
  destruct (spake_agree rngA (hr_spake rng 0) (utf8 code) remote rid) as (k&HkA&HkB).
  pose proof (conj F1 (conj F2 (F3 k))) as Hf.
  eexists _, _, _, _. split_and!.
  - reflexivity.
  - eapply lan_ready; [done|done|reflexivity|]. by eapply lan_host_serves.
  - reflexivity.
  - reflexivity.
  - reflexivity.
  - erewrite lan_joiner_joins; [|exact HkA|exact HkB|exact (Nat.neq_succ_0 0)|exact Hf|exact Hed|exact Had]. destruct (enrolled_vault _ _ _ _ _ _ _ _ _ _ _ _ Hen) as [Hv Hk].
    apply adopted_keys in Had as (->&->&->). by rewrite Hv, Hk.
Qed.
End pipe.
