(* ===== verification/Transport.v ===== *)
(** * The iroh transport

    src/crates/roam-transport-iroh/src/transport.rs: routes, cached send streams, inbound
    connections and the bounded queue of inbound frames, shared by the tasks that the
    transport runs.  A task is cut into the pieces that run without a lock being released or
    an [await]; [tp_step] lets one task run one piece, so a list of events is an interleaving.
    What the network answers is part of the event.  Frames travel as
    [len(4, big-endian) ‖ postcard(frame)]. *)
From S2P Require Import Prelude RustStr Vfs Roster Wire Keychain Engine Relay Pairing Share PairingIroh.

(** ** Frames on a stream *)
Definition MAX_FRAME_LEN : N := 67108864.
Definition INBOUND_QUEUE_CAP : nat := 1024.
Inductive TransportError := Unreachable (peer : u64) | TClosed | TIo.
(** postcard on the engine's frames. *)
Class FrameCodec := { frame_to_bytes : Frame → bytes; frame_of_bytes : bytes → option Frame }.
Section frames.
Context {W : Type} `{Conn W, FrameCodec}.
Definition tp_write_frame (f : Frame) : SM W IrohError unit := write_be (frame_to_bytes f).
Definition tp_read_frame : SM W IrohError Frame :=
  hdr ← sm_map_err IConn (cn_read_exact 4);
  if (MAX_FRAME_LEN <? from_be hdr)%N then sm_fail IFrame
  else
    body ← sm_map_err IConn (cn_read_exact (from_be hdr));
    sm_lift (ok_or (frame_of_bytes body) IJson).
End frames.

(** ** The shared state and the tasks *)
Abbreviation ConnId := nat.
(** [handle_conn], after the handshake of connection [c] with the device [key]. *)
Inductive AcceptTask :=
  | AcGate (sync_alpn : bool) (key : bytes)
  | AcPeer (key : bytes)
  | AcInsert (key : bytes) (peer : u64)
  | AcRecheck (key : bytes) (peer : u64)
  | AcEvict (key : bytes) (peer : u64)
  | AcStream (key : bytes) (peer : u64)
  | AcRead (key : bytes) (peer : u64)
  | AcDereg (key : bytes) (peer : u64)
  | AcEnd.
(** [dial], called on its own or by [send] with a frame, and the rest of [send]. *)
Inductive CallTask :=
  | DlFast (peer : u64) (f : option Frame)
  | DlLock (peer : u64) (f : option Frame)
  | DlRecheck (peer : u64) (f : option Frame)
  | DlKey (peer : u64) (f : option Frame)
  | DlAddr (peer : u64) (key : bytes) (f : option Frame)
  | DlConnect (peer : u64) (key : bytes) (seeded : bool) (f : option Frame)
  | DlSpawn (peer : u64) (c : ConnId) (f : option Frame)
  | DlInsert (peer : u64) (c : ConnId) (f : option Frame)
  | SdStream (peer : u64) (f : Frame)
  | SdWrite (peer : u64) (c : ConnId) (f : Frame)
  | SdEvict (peer : u64)
  | CallDone (r : result TransportError unit).
Inductive RemoveTask := RmRoutes (peer : u64) | RmAddrs (peer : u64) | RmConns (peer : u64) | RmInbound (peer : u64).

(** [tp_addrs] are the peers with a seeded address; [tp_dialing] the dial locks that are
    held; [tp_closed] the connections this side has closed; [tp_next] numbers
    connections ([stable_id]); [tp_readers] the readers of dialled connections, which run
    [read_loop]; the receiver of the queue lives as long as the transport. *)
Record Shared := mkShared {
  tp_routes : gmap u64 bytes;
  tp_addrs : gset u64;
  tp_conns : gmap u64 ConnId;
  tp_inbound : gmap u64 ConnId;
  tp_dialing : gset u64;
  tp_queue : list (u64 * Frame);
  tp_closed : gset ConnId;
  tp_next : ConnId;
  tp_readers : gmap ConnId u64;
}.
Definition set_routes (x : gmap u64 bytes) (s : Shared) : Shared :=
  mkShared x (tp_addrs s) (tp_conns s) (tp_inbound s) (tp_dialing s) (tp_queue s) (tp_closed s) (tp_next s) (tp_readers s).
Definition set_addrs (x : gset u64) (s : Shared) : Shared :=
  mkShared (tp_routes s) x (tp_conns s) (tp_inbound s) (tp_dialing s) (tp_queue s) (tp_closed s) (tp_next s) (tp_readers s).
Definition set_conns (x : gmap u64 ConnId) (s : Shared) : Shared :=
  mkShared (tp_routes s) (tp_addrs s) x (tp_inbound s) (tp_dialing s) (tp_queue s) (tp_closed s) (tp_next s) (tp_readers s).
Definition set_inbound (x : gmap u64 ConnId) (s : Shared) : Shared :=
  mkShared (tp_routes s) (tp_addrs s) (tp_conns s) x (tp_dialing s) (tp_queue s) (tp_closed s) (tp_next s) (tp_readers s).
Definition set_dialing (x : gset u64) (s : Shared) : Shared :=
  mkShared (tp_routes s) (tp_addrs s) (tp_conns s) (tp_inbound s) x (tp_queue s) (tp_closed s) (tp_next s) (tp_readers s).
Definition set_queue (x : list (u64 * Frame)) (s : Shared) : Shared :=
  mkShared (tp_routes s) (tp_addrs s) (tp_conns s) (tp_inbound s) (tp_dialing s) x (tp_closed s) (tp_next s) (tp_readers s).
Definition set_closed (x : gset ConnId) (s : Shared) : Shared :=
  mkShared (tp_routes s) (tp_addrs s) (tp_conns s) (tp_inbound s) (tp_dialing s) (tp_queue s) x (tp_next s) (tp_readers s).
Definition set_next (x : ConnId) (s : Shared) : Shared :=
  mkShared (tp_routes s) (tp_addrs s) (tp_conns s) (tp_inbound s) (tp_dialing s) (tp_queue s) (tp_closed s) x (tp_readers s).
Definition set_readers (x : gmap ConnId u64) (s : Shared) : Shared :=
  mkShared (tp_routes s) (tp_addrs s) (tp_conns s) (tp_inbound s) (tp_dialing s) (tp_queue s) (tp_closed s) (tp_next s) x.
Record Transport := mkTransport {
  tp_shared : Shared;
  tp_accepts : gmap ConnId AcceptTask;
  tp_calls : gmap nat CallTask;
  tp_removes : gmap nat RemoveTask;
}.

(** What the network answers to the piece that runs. *)
Inductive Outcome := Done | Fails | Arrives (f : Frame).
Definition close_conn (c : ConnId) (s : Shared) : Shared := set_closed ({[c]} ∪ tp_closed s) s.

Section transport.
Context `{Ed25519}.
(** The order in which a [HashMap] is walked. *)
Variable iter : gmap u64 bytes → list (u64 * bytes).

Definition routes_contains_key (routes : gmap u64 bytes) (key : bytes) : bool := existsb (λ x, bool_decide (x.2 = key)) (iter routes).
Definition peer_id_for (routes : gmap u64 bytes) (key : bytes) : u64 :=
  match list_find (λ x, x.2 = key) (iter routes) with
  | Some (_, (peer, _)) => peer
  | None => from_le (take 8 key)
  end.
(** [try_send]: a full queue sheds the frame. *)
Definition enqueue_inbound (peer : u64) (f : Frame) (s : Shared) : Shared :=
  if decide (length (tp_queue s) < INBOUND_QUEUE_CAP) then set_queue (tp_queue s ++ [(peer, f)]) s else s.
(** Removes [c] if it is still the connection of [peer]. *)
Definition forget_inbound (c : ConnId) (peer : u64) (s : Shared) : Shared :=
  if decide (tp_inbound s !! peer = Some c) then set_inbound (delete peer (tp_inbound s)) s else s.
Definition insert_inbound (c : ConnId) (peer : u64) (s : Shared) : Shared :=
  let s' := set_inbound (<[peer := c]> (tp_inbound s)) s in
  match tp_inbound s !! peer with
  | Some old => if decide (old = c) then s' else close_conn old s'
  | None => s'
  end.

(** One piece of [handle_conn] on connection [c]. *)
Definition run_accept (c : ConnId) (t : AcceptTask) (o : Outcome) (s : Shared) : option (AcceptTask * Shared) :=
  match t, o with
  | AcGate alpn key, Done =>
      if negb alpn || negb (routes_contains_key (tp_routes s) key) then Some (AcEnd, close_conn c s) else Some (AcPeer key, s)
  | AcPeer key, Done => Some (AcInsert key (peer_id_for (tp_routes s) key), s)
  | AcInsert key peer, Done => Some (AcRecheck key peer, insert_inbound c peer s)
  | AcRecheck key peer, Done => if routes_contains_key (tp_routes s) key then Some (AcStream key peer, s) else Some (AcEvict key peer, s)
  | AcEvict key peer, Done => Some (AcEnd, close_conn c (forget_inbound c peer s))
  | AcStream key peer, Done => if decide (c ∈ tp_closed s) then None else Some (AcRead key peer, s)
  | AcStream key peer, Fails => Some (AcEnd, s)
  | AcRead key peer, Arrives f => if decide (c ∈ tp_closed s) then None else Some (AcRead key peer, enqueue_inbound peer f s)
  | AcRead key peer, Fails => Some (AcDereg key peer, s)
  | AcDereg key peer, Done => Some (AcEnd, forget_inbound c peer s)
  | _, _ => None
  end.

(** The end of [dial]: its own result, or the next step of [send]. *)
Definition dialled (peer : u64) (f : option Frame) : CallTask :=
  match f with None => CallDone (Ok tt) | Some f => SdStream peer f end.
Definition unlock (peer : u64) (s : Shared) : Shared := set_dialing (tp_dialing s ∖ {[peer]}) s.
(** One piece of [dial] or [send]. *)
Definition run_call (t : CallTask) (o : Outcome) (s : Shared) : option (CallTask * Shared) :=
  match t, o with
  | DlFast peer f, Done => if decide (is_Some (tp_conns s !! peer)) then Some (dialled peer f, s) else Some (DlLock peer f, s)
  | DlLock peer f, Done =>
      if decide (peer ∈ tp_dialing s) then None else Some (DlRecheck peer f, set_dialing ({[peer]} ∪ tp_dialing s) s)
  | DlRecheck peer f, Done =>
      if decide (is_Some (tp_conns s !! peer)) then Some (dialled peer f, unlock peer s) else Some (DlKey peer f, s)
  | DlKey peer f, Done =>
      match tp_routes s !! peer with
      | None => Some (CallDone (Err (Unreachable peer)), unlock peer s)
      | Some key => if ed_key_ok key then Some (DlAddr peer key f, s) else Some (CallDone (Err TIo), unlock peer s)
      end
  | DlAddr peer key f, Done => Some (DlConnect peer key (bool_decide (peer ∈ tp_addrs s)) f, s)
  | DlConnect peer key seeded f, Done => Some (DlSpawn peer (tp_next s) f, set_next (S (tp_next s)) s)
  | DlConnect peer key seeded f, Fails => Some (CallDone (Err TIo), unlock peer s)
  | DlSpawn peer c f, Done => Some (DlInsert peer c f, set_readers (<[c := peer]> (tp_readers s)) s)
  | DlInsert peer c f, Done => Some (dialled peer f, unlock peer (set_conns (<[peer := c]> (tp_conns s)) s))
  | SdStream peer f, Done =>
      match tp_conns s !! peer with
      | None => Some (CallDone (Err (Unreachable peer)), s)
      | Some c => Some (SdWrite peer c f, s)
      end
  | SdWrite peer c f, Done => Some (CallDone (Ok tt), s)
  | SdWrite peer c f, Fails => Some (SdEvict peer, s)
  | SdEvict peer, Done => Some (CallDone (Err TIo), set_conns (delete peer (tp_conns s)) s)
  | _, _ => None
  end.

(** One piece of [remove_route]; [None] is its end. *)
Definition run_remove (t : RemoveTask) (s : Shared) : option RemoveTask * Shared :=
  match t with
  | RmRoutes peer => (Some (RmAddrs peer), set_routes (delete peer (tp_routes s)) s)
  | RmAddrs peer => (Some (RmConns peer), set_addrs (tp_addrs s ∖ {[peer]}) s)
  | RmConns peer => (Some (RmInbound peer), set_conns (delete peer (tp_conns s)) s)
  | RmInbound peer =>
      (None, match tp_inbound s !! peer with
             | None => s
             | Some c => close_conn c (set_inbound (delete peer (tp_inbound s)) s)
             end)
  end.

(** ** Interleavings *)
Inductive TEvent :=
  | Incoming (sync_alpn : bool) (key : bytes)
  | RunAccept (c : ConnId) (o : Outcome)
  | CallDial (i : nat) (peer : u64)
  | CallSend (i : nat) (peer : u64) (f : Frame)
  | RunCall (i : nat) (o : Outcome)
  | CallRemove (i : nat) (peer : u64)
  | RunRemove (i : nat)
  | Reader (c : ConnId) (o : Outcome)
  | CallAdd (peer : u64) (key : bytes)
  | CallAddAddr (peer : u64)
  | Receive.
Definition set_shared (x : Shared) (t : Transport) : Transport := mkTransport x (tp_accepts t) (tp_calls t) (tp_removes t).
Definition set_accept (c : ConnId) (x : AcceptTask) (t : Transport) : Transport :=
  mkTransport (tp_shared t) (<[c := x]> (tp_accepts t)) (tp_calls t) (tp_removes t).
Definition set_call (i : nat) (x : CallTask) (t : Transport) : Transport :=
  mkTransport (tp_shared t) (tp_accepts t) (<[i := x]> (tp_calls t)) (tp_removes t).
Definition set_remove (i : nat) (x : option RemoveTask) (t : Transport) : Transport :=
  mkTransport (tp_shared t) (tp_accepts t) (tp_calls t) (partial_alter (λ _, x) i (tp_removes t)).
Definition tp_step (e : TEvent) (t : Transport) : option Transport :=
  let s := tp_shared t in
  match e with
  | Incoming alpn key => Some (set_accept (tp_next s) (AcGate alpn key) (set_shared (set_next (S (tp_next s)) s) t))
  | RunAccept c o =>
      x ← tp_accepts t !! c;
      y ← run_accept c x o s;
      Some (set_accept c y.1 (set_shared y.2 t))
  | CallDial i peer => if decide (tp_calls t !! i = None) then Some (set_call i (DlFast peer None) t) else None
  | CallSend i peer f => if decide (tp_calls t !! i = None) then Some (set_call i (DlFast peer (Some f)) t) else None
  | RunCall i o =>
      x ← tp_calls t !! i;
      y ← run_call x o s;
      Some (set_call i y.1 (set_shared y.2 t))
  | CallRemove i peer => if decide (tp_removes t !! i = None) then Some (set_remove i (Some (RmRoutes peer)) t) else None
  | RunRemove i =>
      x ← tp_removes t !! i;
      let '(y, s') := run_remove x s in Some (set_remove i y (set_shared s' t))
  | Reader c o =>
      peer ← tp_readers s !! c;
      match o with
      | Arrives f => if decide (c ∈ tp_closed s) then None else Some (set_shared (enqueue_inbound peer f s) t)
      | Fails => Some (set_shared (set_readers (delete c (tp_readers s)) s) t)
      | Done => None
      end
  | CallAdd peer key => Some (set_shared (set_routes (<[peer := key]> (tp_routes s)) s) t)
  | CallAddAddr peer => Some (set_shared (set_addrs ({[peer]} ∪ tp_addrs s) s) t)
  | Receive => Some (set_shared (set_queue (tail (tp_queue s)) s) t)
  end.
Fixpoint tp_run (es : list TEvent) (t : Transport) : option Transport :=
  match es with [] => Some t | e :: es => t ← tp_step e t; tp_run es t end.
(** [spawn] with its routes. *)
Definition tp_spawn (routes : gmap u64 bytes) : Transport := mkTransport (mkShared routes ∅ ∅ ∅ ∅ [] ∅ 0 ∅) ∅ ∅ ∅.
End transport.
