(* ===== verification/TransportSpec.v ===== *)
(** * What the transport guarantees under every interleaving

    A revoke ends the inbound readers of the peer, also when it races a reconnect; racing
    dials open one connection; the queue is bounded; and frames round-trip. *)
From S2P Require Import Prelude RustStr Vfs Roster Wire Keychain Engine Relay Pairing PairingRun Share ShareSpec ShareRun PairingIroh PairingIrohRun Transport.

Create HintDb tp.

Section invariant.
Context `{Ed25519}.
Variable iter : gmap u64 bytes → list (u64 * bytes).
Hypothesis iter_perm : ∀ m, iter m ≡ₚ map_to_list m.

(** Each route is under the id its key implies.  [add_route] does not check it; the engine adds routes for the
    records of the merged roster, which have it. *)
Definition bound_event (e : TEvent) : Prop := match e with CallAdd peer key => peer = derived_peer_id key | _ => True end.
Definition bound_routes (m : gmap u64 bytes) : Prop := ∀ p k, m !! p = Some k → p = derived_peer_id k.
Lemma roster_bound es fd r : r ∈ merge_roster es fd → peer_id r = derived_peer_id (verifying_key r).
Proof.
  intros (_&_&((e&He&Hs&Hk)&_)&_)%elem_of_merge_roster. apply elem_of_authored in He as (_&Hb&_). unfold key_bound in Hb. congruence.
Qed.
Lemma roster_routes_bound es fd :
  bound_routes (list_to_map ((λ r, (peer_id r, verifying_key r)) <$> merge_roster es fd)) ∧
  ∀ r, r ∈ merge_roster es fd → bound_event (CallAdd (peer_id r) (verifying_key r)).
Proof.
  split; [|intros r Hr; exact (roster_bound es fd r Hr)]. intros p k Hp%elem_of_list_to_map_2.
  apply list_elem_of_fmap in Hp as (r&[= -> ->]&Hr). exact (roster_bound es fd r Hr).
Qed.

Lemma contains_spec m k : routes_contains_key iter m k = true ↔ ∃ p, m !! p = Some k.
Proof.
  unfold routes_contains_key. rewrite existsb_exists. split.
  - intros ([p k']&Hin&Hk). apply bool_decide_eq_true in Hk. simpl in Hk. subst k'. exists p.
    apply elem_of_map_to_list. rewrite <-(iter_perm m). by apply list_elem_of_In.
  - intros [p Hp]. exists (p, k). split; [|by apply bool_decide_eq_true]. apply list_elem_of_In.
    rewrite (iter_perm m). by apply elem_of_map_to_list.
Qed.
Lemma contains_bound m k : bound_routes m → routes_contains_key iter m k = true → m !! derived_peer_id k = Some k.
Proof. intros Hb [p Hp]%contains_spec. by rewrite <-(Hb p k Hp). Qed.
Lemma peer_id_bound m k : bound_routes m → peer_id_for iter m k = derived_peer_id k.
Proof.
  intros Hb. unfold peer_id_for. destruct (list_find _ _) as [[i [p k']]|] eqn:Ef; [|done].
  apply list_find_Some in Ef as (Hi&Hk&_). simpl in Hk. subst k'. apply Hb, elem_of_map_to_list.
  rewrite <-(iter_perm m). by apply list_elem_of_lookup_2 in Hi.
Qed.

(** The peer a task works for, once it is known; whether its connection is registered;
    whether it has passed the recheck. *)
Definition task_peer (x : AcceptTask) : option (bytes * u64) :=
  match x with
  | AcInsert k p | AcRecheck k p | AcEvict k p | AcStream k p | AcRead k p | AcDereg k p => Some (k, p)
  | _ => None
  end.
Definition registered (x : AcceptTask) : option u64 :=
  match x with AcRecheck _ p | AcEvict _ p | AcStream _ p | AcRead _ p => Some p | _ => None end.
Definition admitted (x : AcceptTask) : option u64 := match x with AcStream _ p | AcRead _ p => Some p | _ => None end.
(** A removal that has dropped the route and has not yet looked at the connections. *)
Definition removing (p : u64) (x : RemoveTask) : Prop := x = RmAddrs p ∨ x = RmConns p ∨ x = RmInbound p.
Definition in_flight (p : u64) (t : Transport) : Prop := ∃ i x, tp_removes t !! i = Some x ∧ removing p x.

Record wf (t : Transport) : Prop := {
  wf_routes : bound_routes (tp_routes (tp_shared t));
  wf_peer c x k p : tp_accepts t !! c = Some x → task_peer x = Some (k, p) → p = derived_peer_id k;
  wf_inbound c x p : tp_accepts t !! c = Some x → registered x = Some p → c ∉ tp_closed (tp_shared t) → tp_inbound (tp_shared t) !! p = Some c;
  wf_admitted c x p : tp_accepts t !! c = Some x → admitted x = Some p → c ∉ tp_closed (tp_shared t) →
    is_Some (tp_routes (tp_shared t) !! p) ∨ in_flight p t;
  wf_queue : length (tp_queue (tp_shared t)) ≤ INBOUND_QUEUE_CAP;
}.
Lemma admitted_registered x p : admitted x = Some p → registered x = Some p.
Proof. by destruct x. Qed.
Lemma wf_spawn routes : bound_routes routes → wf (tp_spawn routes).
Proof. intros Hb. split; simpl; [done|intros c x k p; by rewrite lookup_empty|intros c x p; by rewrite lookup_empty..|unfold INBOUND_QUEUE_CAP; lia]. Qed.

(** Steps that leave the accepting side alone. *)
Lemma wf_same t t' :
  wf t → tp_accepts t' = tp_accepts t → tp_removes t' = tp_removes t → tp_routes (tp_shared t') = tp_routes (tp_shared t) →
  tp_inbound (tp_shared t') = tp_inbound (tp_shared t) → tp_closed (tp_shared t') = tp_closed (tp_shared t) →
  length (tp_queue (tp_shared t')) ≤ INBOUND_QUEUE_CAP → wf t'.
Proof.
  intros [W1 W2 W3 W4 W5] Ha Hr Hro Hi Hc Hq. unfold in_flight in *. split; unfold in_flight; rewrite ?Ha, ?Hr, ?Hro, ?Hi, ?Hc; done.
Qed.
Lemma enqueue_queue p f s : length (tp_queue s) ≤ INBOUND_QUEUE_CAP → length (tp_queue (enqueue_inbound p f s)) ≤ INBOUND_QUEUE_CAP.
Proof. unfold enqueue_inbound. case_decide; [|done]. simpl. rewrite length_app. simpl. lia. Qed.

(** One task of an accepted connection moves: what the others need of it. *)
Lemma wf_task t c y s' :
  wf t → tp_routes s' = tp_routes (tp_shared t) → tp_closed (tp_shared t) ⊆ tp_closed s' → length (tp_queue s') ≤ INBOUND_QUEUE_CAP →
  (∀ c' p, c' ≠ c → tp_inbound (tp_shared t) !! p = Some c' → tp_inbound s' !! p = Some c' ∨ c' ∈ tp_closed s') →
  (∀ k p, task_peer y = Some (k, p) → p = derived_peer_id k) →
  (∀ p, registered y = Some p → c ∉ tp_closed s' → tp_inbound s' !! p = Some c) →
  (∀ p, admitted y = Some p → c ∉ tp_closed s' → is_Some (tp_routes s' !! p) ∨ in_flight p t) →
  wf (set_accept c y (set_shared s' t)).
Proof.
  intros [W1 W2 W3 W4 W5] Hro Hcl Hq Hoth Hp Hreg Hadm. split; cbn [tp_shared tp_accepts set_accept set_shared].
  - by rewrite Hro.
  - intros c' x k p. rewrite lookup_insert. case_decide; [intros [= <-]; apply Hp|apply W2].
  - intros c' x p. rewrite lookup_insert. case_decide as Hc; [intros [= <-]; subst c'; apply Hreg|].
    intros Hx Hr Hn. destruct (Hoth c' p) as [|Hin]; [done| |done|done]. eapply W3; [done|done|]. set_solver.
  - intros c' x p. rewrite lookup_insert. case_decide as Hc; [intros [= <-]; subst c'; apply Hadm|].
    intros Hx Hr Hn. rewrite Hro. eapply W4; [done|done|]. set_solver.
  - done.
Qed.
(** Forgetting or replacing a registration leaves the other connections registered, or closes them. *)
Lemma forget_inbound_spec c p s :
  tp_routes (forget_inbound c p s) = tp_routes s ∧ tp_closed (forget_inbound c p s) = tp_closed s ∧
  tp_queue (forget_inbound c p s) = tp_queue s ∧
  ∀ c' q, c' ≠ c → tp_inbound s !! q = Some c' → tp_inbound (forget_inbound c p s) !! q = Some c'.
Proof.
  unfold forget_inbound. case_decide as Hp; split_and!; try done. intros c' q Hne Hq. cbn. rewrite lookup_delete_ne; [done|].
  intros ->. congruence.
Qed.
Lemma insert_inbound_spec c p s :
  tp_routes (insert_inbound c p s) = tp_routes s ∧ tp_closed s ⊆ tp_closed (insert_inbound c p s) ∧
  tp_queue (insert_inbound c p s) = tp_queue s ∧ tp_inbound (insert_inbound c p s) !! p = Some c ∧
  ∀ c' q, c' ≠ c → tp_inbound s !! q = Some c' →
    tp_inbound (insert_inbound c p s) !! q = Some c' ∨ c' ∈ tp_closed (insert_inbound c p s).
Proof.
  assert (∀ c' q, c' ≠ c → tp_inbound s !! q = Some c' → <[p := c]> (tp_inbound s) !! q = Some c' ∨ tp_inbound s !! p = Some c') as Hq.
  { intros c' q Hne Hq. destruct (decide (q = p)) as [->|]; [by right|]. left. by rewrite lookup_insert_ne. }
  unfold insert_inbound. destruct (tp_inbound s !! p) as [old|] eqn:Eo; [case_decide as Hold|]; cbn;
    (split_and!; [done|set_solver|done|by rewrite lookup_insert_eq|]); intros c' q Hne Hin; destruct (Hq c' q Hne Hin) as [|[= ->]]; auto.
  - congruence.
  - right. set_solver.
Qed.
Lemma wf_accept t c x o y s' :
  wf t → tp_accepts t !! c = Some x → run_accept iter c x o (tp_shared t) = Some (y, s') → wf (set_accept c y (set_shared s' t)).
Proof.
  intros Hw Hx. pose proof Hw as [W1 W2 W3 W4 W5]. pose proof (λ k p, W2 c x k p Hx) as P.
  pose proof (λ p, W3 c x p Hx) as I. pose proof (λ p, W4 c x p Hx) as Ad.
  assert (∀ c' p, c' ≠ c → tp_inbound (tp_shared t) !! p = Some c' →
    tp_inbound (tp_shared t) !! p = Some c' ∨ c' ∈ tp_closed (tp_shared t)) as Hkeep by (intros; by left).
  destruct x, o; cbn [run_accept]; try done.
  - destruct (_ || _); intros [= <- <-]; [|by apply wf_task]. apply wf_task; try done; [set_solver|intros; by left].
  - intros [= <- <-]. apply wf_task; try done. intros k p [= <- <-]. by apply peer_id_bound.
  - intros [= <- <-]. destruct (insert_inbound_spec c peer (tp_shared t)) as (Hro&Hcl&Hqu&Hin&Hoth).
    apply wf_task; try done; [by rewrite Hqu|]. by intros p [= <-].
  - destruct (routes_contains_key iter _ key) eqn:Er; intros [= <- <-]; apply wf_task; try done.
    intros p [= <-] _. left. rewrite (P key peer eq_refl). apply contains_bound in Er; [by exists key|done].
  - intros [= <- <-]. destruct (forget_inbound_spec c peer (tp_shared t)) as (Hro&Hcl&Hqu&Hoth).
    apply wf_task; cbn; rewrite ?Hro, ?Hcl, ?Hqu; try done; [set_solver|intros c' p Hne Hp; left; by apply Hoth].
  - case_decide; [done|]. intros [= <- <-]. by apply wf_task.
  - intros [= <- <-]. by apply wf_task.
  - intros [= <- <-]. by apply wf_task.
  - case_decide; [done|]. intros [= <- <-]. pose proof (enqueue_queue peer f _ W5). unfold enqueue_inbound in *.
    case_decide; by apply wf_task.
  - intros [= <- <-]. destruct (forget_inbound_spec c peer (tp_shared t)) as (Hro&Hcl&Hqu&Hoth).
    apply wf_task; rewrite ?Hro, ?Hcl, ?Hqu; try done. intros c' p Hne Hp. left. by apply Hoth.
Qed.
(** Dialling and sending do not touch the accepting side. *)
Lemma run_call_same x o s y s' :
  run_call x o s = Some (y, s') →
  tp_routes s' = tp_routes s ∧ tp_inbound s' = tp_inbound s ∧ tp_closed s' = tp_closed s ∧ tp_queue s' = tp_queue s.
Proof. destruct x, o; simpl; try done; repeat case_match; intros; simplify_eq; by split_and!. Qed.

(** A removal moves on: once its route is gone it stays in flight until it has closed the
    peer's connection. *)
Lemma in_flight_step t i x p :
  tp_removes t !! i = Some x → removing p x → ∀ y s', run_remove x (tp_shared t) = (Some y, s') →
  in_flight p (set_remove i (Some y) (set_shared s' t)).
Proof.
  intros Hi Hr y s' Hrun. exists i, y. cbn. rewrite lookup_partial_alter_eq. split; [done|].
  destruct Hr as [->|[->| ->]]; cbn in Hrun; simplify_eq; [right; by left|by right; right].
Qed.
Lemma in_flight_other t i y s' p :
  in_flight p t → (∀ x, tp_removes t !! i = Some x → removing p x → in_flight p (set_remove i y (set_shared s' t))) →
  in_flight p (set_remove i y (set_shared s' t)).
Proof.
  intros (j&x&Hj&Hx) Hi. destruct (decide (i = j)) as [->|]; [by eapply Hi|]. exists j, x.
  cbn. by rewrite lookup_partial_alter_ne.
Qed.
Lemma wf_remove t i x y s' :
  wf t → tp_removes t !! i = Some x → run_remove x (tp_shared t) = (y, s') → wf (set_remove i y (set_shared s' t)).
Proof.
  intros [W1 W2 W3 W4 W5] Hi Hrun.
  assert (bound_routes (tp_routes s') ∧ tp_closed (tp_shared t) ⊆ tp_closed s' ∧ tp_queue s' = tp_queue (tp_shared t) ∧
    ∀ p c, tp_inbound (tp_shared t) !! p = Some c → tp_inbound s' !! p = Some c ∨ c ∈ tp_closed s') as (Hb&Hcl&Hqu&Hin).
  { destruct x; cbn in Hrun; simplify_eq; cbn; split_and!; try done; try (intros; by left).
    - intros p k [_ Hp]%lookup_delete_Some. by apply W1.
    - by case_match.
    - case_match; set_solver.
    - by case_match.
    - intros p c Hp. destruct (tp_inbound (tp_shared t) !! peer) as [c'|] eqn:E; [|by left]. cbn.
      destruct (decide (p = peer)) as [->|]; [right; set_solver|left; by rewrite lookup_delete_ne]. }
  split; cbn [tp_shared tp_accepts set_remove set_shared]; [done|done| | |by rewrite Hqu].
  - intros c z p Hz Hr Hn. destruct (Hin p c) as [|]; [|done|done]. eapply W3; [done|done|]. set_solver.
  - intros c z p Hz Ha Hn.
    assert (∀ x', tp_removes t !! i = Some x' → removing p x' → in_flight p (set_remove i y (set_shared s' t))) as Hstep.
    { intros x' Hx' Hr. simplify_eq. destruct y as [y|]; [by eapply in_flight_step|]. exfalso.
      destruct Hr as [->|[->| ->]]; cbn in Hrun; simplify_eq.
      assert (tp_inbound (tp_shared t) !! p = Some c) as Hp.
      { eapply W3; [done|by apply admitted_registered|]. set_solver. }
      rewrite Hp in *. set_solver. }
    destruct (W4 c z p) as [Hro|Hfl]; [done|done|set_solver| |right; by apply in_flight_other].
    destruct x as [q|q|q|q]; cbn in Hrun; simplify_eq; cbn; try by left.
    + destruct (decide (q = p)) as [->|]; [right|left; by rewrite lookup_delete_ne].
      exists i, (RmAddrs p). cbn. rewrite lookup_partial_alter_eq. split; [done|by left].
    + left. by case_match.
Qed.
Lemma wf_step e t t' : bound_event e → wf t → tp_step iter e t = Some t' → wf t'.
Proof.
  intros He Hw. pose proof Hw as [W1 W2 W3 W4 W5]. destruct e; simpl.
  - intros [= <-]. apply wf_task; try done. intros; by left.
  - destruct (tp_accepts t !! c) as [x|] eqn:Ex; [|done]. simpl. destruct (run_accept iter c x o _) as [[y s']|] eqn:Er; [|done].
    intros [= <-]. by eapply wf_accept.
  - case_decide; [|done]. intros [= <-]. by eapply wf_same.
  - case_decide; [|done]. intros [= <-]. by eapply wf_same.
  - destruct (tp_calls t !! i) as [x|]; [|done]. simpl. destruct (run_call x o _) as [[y s']|] eqn:Er; [|done].
    intros [= <-]. apply run_call_same in Er as (?&?&?&Hq). eapply wf_same; cbn; try done. by rewrite Hq.
  - case_decide as Hi; [|done]. intros [= <-]. split; cbn; try done. intros c x p Hx Ha Hn.
    destruct (W4 c x p Hx Ha Hn) as [?|(j&z&Hj&Hz)]; [by left|]. right. exists j, z. cbn.
    rewrite lookup_partial_alter_ne by congruence. done.
  - destruct (tp_removes t !! i) as [x|] eqn:Ei; [|done]. simpl. destruct (run_remove x _) as [y s'] eqn:Er. intros [= <-].
    by eapply wf_remove.
  - destruct (tp_readers _ !! c); [|done]. simpl. destruct o; [done|intros [= <-]; by eapply wf_same|].
    case_decide; [done|]. intros [= <-]. pose proof (enqueue_queue n f _ W5). unfold enqueue_inbound in *. case_decide; by eapply wf_same.
  - intros [= <-]. split; cbn; try done.
    + intros p k. rewrite lookup_insert. case_decide as Hp; [|apply W1]. intros [= <-]. by subst p.
    + intros c x p Hx Ha Hn. destruct (W4 c x p Hx Ha Hn) as [Hr|Hf]; [left|by right]. rewrite lookup_insert. by case_decide.
  - intros [= <-]. by eapply wf_same.
  - intros [= <-]. eapply wf_same; try done. cbn. destruct (tp_queue (tp_shared t)); simpl in *; lia.
Qed.
Lemma wf_run es t t' : Forall bound_event es → wf t → tp_run iter es t = Some t' → wf t'.
Proof.
  intros Hes. revert t. induction Hes as [|e es He _ IH]; intros t Hw; simpl; [by intros [= <-]|].
  destruct (tp_step iter e t) as [t1|] eqn:E; [|done]. simpl. apply IH. by eapply wf_step.
Qed.

(** C25: A revoke ends the readers of the connections it accepted from the peer, whatever it races with. Let the routes
    at the start and those added later be under the ids their keys imply (as the records of a merged roster are). Then in
    every state that any interleaving of connections, reconnects, dials, sends, route changes and removals
    can reach, if a peer has no route and no removal of it is under way, every connection accepted
    from the peer that is still being read has been closed and no frame can arrive on it; and the queue of
    inbound frames never holds more than INBOUND_QUEUE_CAP. (A connection that this side dialled is not covered:
    its reader outlives the revoke.) *)
Theorem revoke_ends_readers routes es t :
  bound_routes routes → Forall bound_event es → tp_run iter es (tp_spawn routes) = Some t →
  length (tp_queue (tp_shared t)) ≤ INBOUND_QUEUE_CAP ∧
  ∀ peer, tp_routes (tp_shared t) !! peer = None → ~ in_flight peer t →
    ∀ c key p, tp_accepts t !! c = Some (AcRead key p) → p = peer ∨ derived_peer_id key = peer →
      c ∈ tp_closed (tp_shared t) ∧ ∀ f, tp_step iter (RunAccept c (Arrives f)) t = None.
Proof.
  intros Hb Hes Hrun. pose proof (wf_run _ _ _ Hes (wf_spawn routes Hb) Hrun) as [W1 W2 W3 W4 W5]. split; [done|].
  intros peer Hno Hfl c key p Hc Hp. assert (p = peer) as -> by (destruct Hp as [|<-]; [done|by eapply W2]).
  assert (c ∈ tp_closed (tp_shared t)) as Hcl.
  { destruct (decide (c ∈ tp_closed (tp_shared t))) as [|Hn]; [done|]. destruct (W4 c _ peer Hc eq_refl Hn) as [[k Hk]|]; congruence. }
  split; [done|]. intros f. simpl. rewrite Hc. simpl. by rewrite decide_True.
Qed.
End invariant.

(** ** Dialling *)
Section dialling.
Context `{Ed25519}.
Variable iter : gmap u64 bytes → list (u64 * bytes).
(** The dial lock a call holds; whether it has found no cached stream. *)
Definition holds (x : CallTask) : option u64 :=
  match x with
  | DlRecheck p _ | DlKey p _ | DlAddr p _ _ | DlConnect p _ _ _ | DlSpawn p _ _ | DlInsert p _ _ => Some p
  | _ => None
  end.
Definition dials (x : CallTask) : option u64 := match x with DlRecheck _ _ => None | _ => holds x end.
Record exclusive (t : Transport) : Prop := {
  ex_locked i x p : tp_calls t !! i = Some x → holds x = Some p → p ∈ tp_dialing (tp_shared t);
  ex_one i j x y p : tp_calls t !! i = Some x → tp_calls t !! j = Some y → holds x = Some p → holds y = Some p → i = j;
  ex_uncached i x p : tp_calls t !! i = Some x → dials x = Some p → tp_conns (tp_shared t) !! p = None;
}.
Lemma dials_holds x p : dials x = Some p → holds x = Some p.
Proof. by destruct x. Qed.
Lemma exclusive_same t t' :
  exclusive t → tp_calls t' = tp_calls t → tp_dialing (tp_shared t') = tp_dialing (tp_shared t) →
  (∀ p, tp_conns (tp_shared t) !! p = None → tp_conns (tp_shared t') !! p = None) → exclusive t'.
Proof. intros [E1 E2 E3] Hc Hd Hn. split; rewrite ?Hc, ?Hd; [done|done|]. intros i x p Hx Hp. by eapply Hn, E3. Qed.

(** What one piece of a call does to its lock and to the cache. *)
Lemma run_call_lock x o s y s' :
  run_call x o s = Some (y, s') →
  (holds y = holds x ∧ tp_dialing s' = tp_dialing s ∧ (∀ p, dials y = Some p → dials x = Some p ∨ tp_conns s !! p = None) ∨
   (∃ p, holds x = None ∧ holds y = Some p ∧ dials y = None ∧ (p ∉ tp_dialing s) ∧ tp_dialing s' = ({[p]} ∪ tp_dialing s)) ∨
   (∃ p, holds x = Some p ∧ holds y = None ∧ tp_dialing s' = (tp_dialing s ∖ {[p]}))) ∧
  (∀ p, tp_conns s !! p = None → tp_conns s' !! p = None ∨ dials x = Some p ∧ holds y = None).
Proof.
  intros Hrun. destruct x as [p f|p f|p f|p f|p k f|p k b f|p c f|p c f|p f|p c f|p|r], o; simpl in Hrun; try done;
    try (destruct f as [f|]); repeat case_match; simplify_eq; cbn;
    (split; [|intros q Hq; first [by left|rewrite lookup_insert; case_decide; [right; by subst|by left]|rewrite lookup_delete_None; auto]]);
    first [by left; split_and!; auto | by right; right; exists p | by right; left; exists p; split_and! | idtac].
  all: left; split_and!; [done|done|]; intros q [= <-]; right; by apply eq_None_not_Some.
Qed.
Lemma exclusive_call t i x o y s' :
  exclusive t → tp_calls t !! i = Some x → run_call x o (tp_shared t) = Some (y, s') → exclusive (set_call i y (set_shared s' t)).
Proof.
  intros [E1 E2 E3] Hx Hrun. apply run_call_lock in Hrun as [Hl Hc].
  assert (∀ p, holds y = Some p → p ∈ tp_dialing s' ∧ ∀ j z, j ≠ i → tp_calls t !! j = Some z → holds z ≠ Some p) as Hy.
  { intros p Hp. destruct Hl as [(Heq&Hd&_)|[(q&Hn&Hq&_&Hnot&Hd)|(q&_&Hn&_)]]; [| |congruence].
    - rewrite Hp in Heq. split; [rewrite Hd; by eapply E1|]. intros j z Hne Hj Hz. apply Hne. by eapply E2.
    - assert (q = p) as -> by congruence. split; [set_solver|]. intros j z _ Hj Hz. apply Hnot. by eapply E1. }
  assert (∀ j z p, j ≠ i → tp_calls t !! j = Some z → holds z = Some p → p ∈ tp_dialing s') as Hz.
  { intros j z p Hne Hj Hz. pose proof (E1 j z p Hj Hz). destruct Hl as [(_&->&_)|[(q&_&_&_&_&->)|(q&Hq&_&->)]]; [done|set_solver|].
    apply elem_of_difference. split; [done|]. intros ->%elem_of_singleton. apply Hne. by eapply E2. }
  split; cbn [tp_calls tp_shared set_call set_shared].
  - intros j z p. rewrite lookup_insert. case_decide as Hj; [intros [= <-] Hp; by apply Hy|]. intros Hin. eapply Hz; [|done]. congruence.
  - intros j k z1 z2 p. rewrite !lookup_insert. case_decide as Hj; case_decide as Hk; subst; try done.
    + intros [= <-] Hk2 Hp Hp2. exfalso. by eapply (proj2 (Hy p Hp)).
    + intros Hk1 [= <-] Hp Hp2. exfalso. by eapply (proj2 (Hy p Hp2)).
    + apply E2.
  - intros j z p. rewrite lookup_insert. case_decide as Hj; [intros [= <-] Hp|intros Hz' Hp].
    + pose proof (dials_holds _ _ Hp) as Hh.
      assert (tp_conns (tp_shared t) !! p = None) as Hn.
      { destruct Hl as [(_&_&Hd)|[(q&_&_&Hd&_)|(q&_&Hn&_)]]; [|congruence|congruence]. destruct (Hd p Hp) as [Hd'|]; [by eapply E3|done]. }
      destruct (Hc p Hn) as [|[_ Hno]]; [done|congruence].
    + destruct (Hc p) as [|[Hd Hno]]; [by eapply E3|done|]. exfalso. apply Hj. symmetry.
      eapply E2; [done|done|by apply dials_holds|by apply dials_holds].
Qed.
Lemma exclusive_step e t t' : exclusive t → tp_step iter e t = Some t' → exclusive t'.
Proof.
  assert (∀ i x t, holds x = None → tp_calls t !! i = None → exclusive t → exclusive (set_call i x t)) as Hnew.
  { clear. intros i x t Hx Hi [E1 E2 E3]. split; cbn.
    - intros j y p. rewrite lookup_insert. case_decide; [intros [= <-]; congruence|apply E1].
    - intros j k y z p. rewrite !lookup_insert. do 2 case_decide; [congruence|intros [= <-]; congruence|intros ? [= <-]; congruence|apply E2].
    - intros j y p. rewrite lookup_insert. case_decide; [intros [= <-] ?%dials_holds; congruence|apply E3]. }
  intros Hw. destruct e; simpl.
  - intros [= <-]. by eapply exclusive_same.
  - destruct (tp_accepts t !! c) as [x|]; [|done]. simpl. destruct (run_accept iter c x o _) as [[y s']|] eqn:Er; [|done].
    intros [= <-]. eapply exclusive_same; [done|done| |]; destruct x, o; simpl in Er; try done; repeat case_match; simplify_eq; cbn;
      unfold insert_inbound, forget_inbound, enqueue_inbound; repeat case_match; done.
  - case_decide; [|done]. intros [= <-]. by apply Hnew.
  - case_decide; [|done]. intros [= <-]. by apply Hnew.
  - destruct (tp_calls t !! i) as [x|] eqn:Ei; [|done]. simpl. destruct (run_call x o _) as [[y s']|] eqn:Er; [|done].
    intros [= <-]. by eapply exclusive_call.
  - case_decide; [|done]. intros [= <-]. by eapply exclusive_same.
  - destruct (tp_removes t !! i) as [x|]; [|done]. simpl. destruct (run_remove x _) as [y s'] eqn:Er. intros [= <-].
    eapply exclusive_same; [done|done| |]; destruct x; cbn in Er; simplify_eq; cbn; repeat case_match; try done.
    intros p Hp. rewrite lookup_delete_None. by right.
  - destruct (tp_readers _ !! c); [|done]. simpl. destruct o; [done|intros [= <-]; by eapply exclusive_same|].
    case_decide; [done|]. intros [= <-]. unfold enqueue_inbound. case_decide; by eapply exclusive_same.
  - intros [= <-]. by eapply exclusive_same.
  - intros [= <-]. by eapply exclusive_same.
  - intros [= <-]. by eapply exclusive_same.
Qed.

(** C32: Racing dials open one connection: in every state that any interleaving can reach, at most one call is
    between its second look at the cache and the end of its dial to a given peer, and
    when it caches its stream no other stream of that peer is cached. *)
Theorem dial_exclusive routes es t :
  tp_run iter es (tp_spawn routes) = Some t →
  (∀ i j x y p, tp_calls t !! i = Some x → tp_calls t !! j = Some y → dials x = Some p → dials y = Some p → i = j) ∧
  ∀ i p c f, tp_calls t !! i = Some (DlInsert p c f) → tp_conns (tp_shared t) !! p = None.
Proof.
  intros Hrun. assert (exclusive t) as [E1 E2 E3].
  { assert (exclusive (tp_spawn routes)) as H0.
    { split; cbn; intros *; rewrite lookup_empty; done. }
    revert H0 Hrun. generalize (tp_spawn routes). induction es as [|e es IH]; intros t0 H0; simpl; [by intros [= <-]|].
    destruct (tp_step iter e t0) as [t1|] eqn:E; [|done]. simpl. apply IH. by eapply exclusive_step. }
  split; [intros i j x y p Hx Hy Dx Dy; eapply E2; [done|done|by apply dials_holds..]|].
  intros i p c f Hi. by eapply E3.
Qed.
End dialling.

(** ** Frames *)
Class FrameLaws `{FrameCodec} := { frame_of_to f : frame_of_bytes (frame_to_bytes f) = Some f }.
Section pipe.
Context `{FrameLaws} (remote : bytes).
#[local] Instance frame_conn : Conn Pipe := pipe_conn remote.
Definition fits_frame (f : Frame) : Prop := (N.of_nat (length (frame_to_bytes f)) ≤ MAX_FRAME_LEN)%N.
Definition stream_of (fs : list Frame) : bytes := fs ≫= λ f, framed_be (frame_to_bytes f).
Lemma write_frame_pipe f i o : fits_frame f → tp_write_frame f (mkPipe i o) = (Ok tt, mkPipe i (o ++ framed_be (frame_to_bytes f))).
Proof.
  intros Hf. unfold tp_write_frame, write_be. rewrite decide_True by (unfold fits_frame, MAX_FRAME_LEN in Hf; lia).
  unfold mbind, SM_bind, sm_map_err. simpl. unfold pipe_write. simpl. unfold framed_be. by rewrite (assoc_L app).
Qed.
Lemma read_frame_pipe f i o : fits_frame f → tp_read_frame (mkPipe (framed_be (frame_to_bytes f) ++ i) o) = (Ok f, mkPipe i o).
Proof.
  intros Hf. unfold tp_read_frame, framed_be, mbind, SM_bind, sm_map_err.
  change (@cn_read_exact Pipe _) with pipe_read. rewrite <-(assoc_L app).
  pose proof (pipe_take (be_bytes 4 (N.of_nat (length (frame_to_bytes f)))) (frame_to_bytes f ++ i) o) as Hh.
  rewrite length_be_bytes in Hh. change (N.of_nat 4) with 4%N in Hh. rewrite Hh. cbn [fst snd map_err].
  unfold fits_frame, MAX_FRAME_LEN in Hf. rewrite from_be_be_bytes, N.mod_small by (simpl; lia).
  destruct (MAX_FRAME_LEN <? _)%N eqn:El; [unfold MAX_FRAME_LEN in El; lia|]. rewrite pipe_take. cbn [fst snd map_err].
  unfold sm_lift. by rewrite frame_of_to.
Qed.
Fixpoint read_frames (n : nat) : SM Pipe IrohError (list Frame) :=
  match n with O => mret [] | S n => f ← tp_read_frame; fs ← read_frames n; mret (f :: fs) end.
(** Frames written one after the other are read back one by one, in order. *)
Theorem frames_round_trip fs i o :
  Forall fits_frame fs →
  sm_iter tp_write_frame fs (mkPipe i o) = (Ok tt, mkPipe i (o ++ stream_of fs)) ∧
  read_frames (length fs) (mkPipe (stream_of fs ++ i) o) = (Ok fs, mkPipe i o).
Proof.
  intros Hfs. revert o. induction Hfs as [|f fs Hf _ IH]; intros o; [by rewrite app_nil_r|]. destruct (IH (o ++ framed_be (frame_to_bytes f))) as [Hw _].
  destruct (IH o) as [_ Hr]. split.
  - cbn [sm_iter]. unfold mbind, SM_bind. rewrite write_frame_pipe by done. rewrite Hw. unfold stream_of. rewrite bind_cons, <-(assoc_L app). done.
  - unfold stream_of. rewrite bind_cons, <-(assoc_L app). cbn [length read_frames]. unfold mbind at 1, SM_bind at 1.
    rewrite read_frame_pipe by done. fold (stream_of fs). unfold mbind at 1, SM_bind at 1. by rewrite Hr.
Qed.
End pipe.
