(* ===== verification/MemoryNet.v ===== *)
(** * The in-process transport (roam-sync-core, memory.rs)

    A switchboard with an inbox per registered peer, and the endpoints that send through
    it, permissive or with a set of known routes.  An inbox whose receiver was dropped is
    closed. *)
From S2P Require Import Prelude RustStr Vfs Roster Wire Logs Keychain Blob Trust Store StoreRoster StoreSync.
From S2P Require Import StoreKeys Checkpoint Textdiff Rebase Paths Bridge BridgeSpec StoreEdit Snapshots Engine Pairing Share PairingIroh Transport.

(** ** State *)
Record Inbox := mkInbox { ib_open : bool; ib_frames : list (u64 * Frame) }.
(** Endpoints are numbered; [mt_known] is [None] in permissive mode. *)
Record MemoryTransport := mkMemoryTransport { mt_me : u64; mt_known : option (gset u64) }.
Record MemorySwitchboard := mkSwitchboard { inbounds : gmap u64 Inbox; mt_endpoints : gmap nat MemoryTransport }.

(** ** Operations *)
Definition endpoint (i : nat) (peer : u64) (b : MemorySwitchboard) : MemorySwitchboard :=
  mkSwitchboard (<[peer := mkInbox true []]> (inbounds b)) (<[i := mkMemoryTransport peer None]> (mt_endpoints b)).
Definition strict_endpoint (i : nat) (peer : u64) (known : list u64) (b : MemorySwitchboard) : MemorySwitchboard :=
  mkSwitchboard (<[peer := mkInbox true []]> (inbounds b)) (<[i := mkMemoryTransport peer (Some (list_to_set known))]> (mt_endpoints b)).
Definition reachable (t : MemoryTransport) (peer : u64) : bool :=
  match mt_known t with None => true | Some known => bool_decide (peer ∈ known) end.
Definition mt_send (t : MemoryTransport) (peer : u64) (f : Frame) (b : MemorySwitchboard) : result TransportError unit * MemorySwitchboard :=
  if negb (reachable t peer) then (Err (Unreachable peer), b)
  else match inbounds b !! peer with
       | None => (Err (Unreachable peer), b)
       | Some x =>
           if ib_open x then (Ok tt, mkSwitchboard (<[peer := mkInbox true (ib_frames x ++ [(mt_me t, f)])]> (inbounds b)) (mt_endpoints b))
           else (Err TClosed, b)
       end.
Definition mt_dial (t : MemoryTransport) (peer : u64) (b : MemorySwitchboard) : result TransportError unit :=
  if negb (reachable t peer) then Err (Unreachable peer)
  else match inbounds b !! peer with Some _ => Ok tt | None => Err (Unreachable peer) end.
Definition alter_known (g : gset u64 → gset u64) (i : nat) (b : MemorySwitchboard) : MemorySwitchboard :=
  mkSwitchboard (inbounds b) (alter (λ t, mkMemoryTransport (mt_me t) (g <$> mt_known t)) i (mt_endpoints b)).
Definition mt_add_route (i : nat) (peer : u64) : MemorySwitchboard → MemorySwitchboard := alter_known (λ k, {[peer]} ∪ k) i.
Definition mt_remove_route (i : nat) (peer : u64) : MemorySwitchboard → MemorySwitchboard := alter_known (λ k, k ∖ {[peer]}) i.
(** The next frame of [incoming]. *)
Definition mt_recv (peer : u64) (b : MemorySwitchboard) : option (u64 * Frame) * MemorySwitchboard :=
  match inbounds b !! peer with
  | Some (mkInbox o (x :: xs)) => (Some x, mkSwitchboard (<[peer := mkInbox o xs]> (inbounds b)) (mt_endpoints b))
  | _ => (None, b)
  end.

(** ** Runs *)
Inductive NetEvent := NSend (i : nat) (to : u64) (f : Frame) | NAddRoute (i : nat) (peer : u64) | NRemoveRoute (i : nat) (peer : u64) | NRecv (peer : u64).
(** What an event shows: a frame was accepted for a peer, or taken by it. *)
Inductive NetSeen := SAccepted (to : u64) (x : u64 * Frame) | STaken (by_ : u64) (x : u64 * Frame) | SNothing.
Definition net_step (e : NetEvent) (b : MemorySwitchboard) : NetSeen * MemorySwitchboard :=
  match e with
  | NSend i to f =>
      match mt_endpoints b !! i with
      | None => (SNothing, b)
      | Some t => let '(r, b') := mt_send t to f b in (if r is Ok _ then SAccepted to (mt_me t, f) else SNothing, b')
      end
  | NAddRoute i p => (SNothing, mt_add_route i p b)
  | NRemoveRoute i p => (SNothing, mt_remove_route i p b)
  | NRecv p => let '(o, b') := mt_recv p b in (if o is Some x then STaken p x else SNothing, b')
  end.
Fixpoint net_run (es : list NetEvent) (b : MemorySwitchboard) : list NetSeen * MemorySwitchboard :=
  match es with [] => ([], b) | e :: es => let '(s, b) := net_step e b in let '(ss, b) := net_run es b in (s :: ss, b) end.
Definition accepted_for (p : u64) (ss : list NetSeen) : list (u64 * Frame) :=
  omap (λ s, match s with SAccepted q x => if decide (q = p) then Some x else None | _ => None end) ss.
Definition taken_by (p : u64) (ss : list NetSeen) : list (u64 * Frame) :=
  omap (λ s, match s with STaken q x => if decide (q = p) then Some x else None | _ => None end) ss.
Definition waiting (p : u64) (b : MemorySwitchboard) : list (u64 * Frame) := default [] (ib_frames <$> inbounds b !! p).

Lemma step_in_order p e b :
  let '(s, b') := net_step e b in waiting p b ++ accepted_for p [s] = taken_by p [s] ++ waiting p b'.
Proof.
  destruct e as [i to f|i q|i q|q]; simpl.
  - destruct (mt_endpoints b !! i) as [t|]; [|simpl; by rewrite app_nil_r]. unfold mt_send.
    destruct (reachable t to); [|simpl; by rewrite app_nil_r]. simpl. destruct (inbounds b !! to) as [x|] eqn:E; [|simpl; by rewrite app_nil_r].
    destruct (ib_open x); [|simpl; by rewrite app_nil_r]. simpl. unfold waiting. cbn [inbounds]. rewrite lookup_insert.
    case_decide as Hc; [subst to; by rewrite E|simpl; by rewrite app_nil_r].
  - simpl. by rewrite app_nil_r.
  - simpl. by rewrite app_nil_r.
  - unfold mt_recv, waiting. destruct (inbounds b !! q) as [[o [|x xs]]|] eqn:E; simpl; rewrite ?app_nil_r; [done| |done].
    rewrite lookup_insert. case_decide as Hc; [subst q; by rewrite E|done].
Qed.
(** Frames arrive in the order in which they were accepted, none is lost or made up: what a peer has
    taken and what waits for it are what waited at first and what was accepted for it since,
    over any run of sends, route changes and receives. *)
Theorem memory_in_order p es b :
  let '(ss, b') := net_run es b in waiting p b ++ accepted_for p ss = taken_by p ss ++ waiting p b'.
Proof.
  revert b. induction es as [|e es IH]; intros b; simpl; [by rewrite app_nil_r|]. pose proof (step_in_order p e b) as Hs.
  destruct (net_step e b) as [s b1]. specialize (IH b1). destruct (net_run es b1) as [ss b2].
  change (accepted_for p (s :: ss)) with (accepted_for p ([s] ++ ss)). change (taken_by p (s :: ss)) with (taken_by p ([s] ++ ss)).
  unfold accepted_for, taken_by in *. rewrite !omap_app, (assoc_L app), Hs, <-!(assoc_L app), IH. done.
Qed.
Lemma strict_send_refused t known peer f b :
  mt_known t = Some known → peer ∉ known → mt_send t peer f b = (Err (Unreachable peer), b) ∧ mt_dial t peer b = Err (Unreachable peer).
Proof. intros Hk Hp. unfold mt_send, mt_dial, reachable. rewrite Hk, bool_decide_eq_false_2 by done. done. Qed.
