(* ===== verification/Http.v ===== *)
(** * The HTTP clients

    The two clients of the relay over HTTP: that of the store of ciphertexts
    (src/crates/roam-backend-client/src/http.rs) and that of the pairing mailbox
    (src/crates/roam-pairing/src/http.rs).  Each implements the interface, [Backend] or
    [Mailbox], that the rest of the program is verified against.  The HTTP stack is the
    interface [Http]: a response has a status, perhaps a declared length, and a body
    that arrives in chunks, or breaks, or never ends. *)
From S2P Require Import Prelude RustStr Vfs Roster Wire Logs Keychain Blob Trust Store StoreRoster StoreSync.
From S2P Require Import StoreKeys Checkpoint Paths Snapshots Relay Pairing.

Inductive Method := GET | PUT | POST.
Inductive HttpError := HIo | HStatus (status : N) | HDeclared (n : u64) | HExceeded | HJson | HStuck.
(** [rp_chunk n] is the answer to the [n]th call of [chunk]: an error, the end, or bytes. *)
Record Response := mkResponse { rp_status : N; content_length : option u64; rp_chunk : nat → option (option bytes) }.
Class Http (W : Type) := { http_send : Method → rstring → bytes → SM W HttpError Response }.

(** [error_for_status]: client and server errors. *)
Definition error_for_status (r : Response) : result HttpError Response :=
  if ((400 <=? rp_status r) && (rp_status r <? 600))%N then Err (HStatus (rp_status r)) else Ok r.

(** ** Reading a body under a cap *)
(** [fuel] bounds the chunks that are read. *)
Fixpoint read_chunks (cap : N) (fuel : nat) (n : nat) (body : bytes) (r : Response) : result HttpError bytes :=
  match fuel with
  | O => Err HStuck
  | S fuel =>
      c ← ok_or (rp_chunk r n) HIo;
      match c with
      | None => Ok body
      | Some chunk =>
          if (cap <? N.of_nat (length body) + N.of_nat (length chunk))%N then Err HExceeded
          else read_chunks cap fuel (S n) (body ++ chunk) r
      end
  end.
Definition read_capped (cap : N) (fuel : nat) (r : Response) : result HttpError bytes :=
  match content_length r with
  | Some declared => if (cap <? declared)%N then Err (HDeclared declared) else read_chunks cap fuel 0 [] r
  | None => read_chunks cap fuel 0 [] r
  end.

(** ** The store of ciphertexts *)
Definition MAX_RESPONSE_BYTES : N := 64000000.
Definition http_base (base_url : rstring) : rstring := trim_end_slashes base_url.
Section backend.
Context (base : rstring) (fuel : nat).
Definition entry_url (bucket id : rstring) : rstring := base ++ str "/b/" ++ bucket ++ str "/entries/" ++ id.
Definition blob_url (bucket id : rstring) : rstring := base ++ str "/b/" ++ bucket ++ str "/blobs/" ++ id.
Definition snapshot_url (bucket id : rstring) : rstring := base ++ str "/b/" ++ bucket ++ str "/snapshots/" ++ id.
Definition trust_url (bucket id : rstring) : rstring := base ++ str "/b/" ++ bucket ++ str "/trust/" ++ id.
Definition item_url (k : SetKind) : rstring → rstring → rstring :=
  match k with KEntries => entry_url | KBlobs => blob_url | KSnapshots => snapshot_url | KTrust => trust_url end.
Context {W : Type} `{Http W, JsonOf Manifest}.

Definition get_bytes (url : rstring) : SM W HttpError (option bytes) :=
  resp ← http_send GET url [];
  if (rp_status resp =? 404)%N then mret None
  else
    resp ← sm_lift (error_for_status resp);
    b ← sm_lift (read_capped MAX_RESPONSE_BYTES fuel resp);
    mret (Some b).
Definition put_bytes (url : rstring) (ct : bytes) : SM W HttpError PutOutcome :=
  resp ← http_send PUT url ct;
  if ((rp_status resp =? 201) || (rp_status resp =? 200))%N then mret Created
  else if (rp_status resp =? 409)%N then mret Exists
  else sm_fail (HStatus (rp_status resp)).
Definition http_manifest (bucket : rstring) : SM W HttpError Manifest :=
  resp ← http_send GET (base ++ str "/b/" ++ bucket ++ str "/manifest") [];
  resp ← sm_lift (error_for_status resp);
  b ← sm_lift (read_capped MAX_RESPONSE_BYTES fuel resp);
  sm_lift (ok_or (from_utf8 b ≫= from_json) HJson).
Definition list_snapshots (bucket : rstring) : SM W HttpError (list rstring) :=
  m ← http_manifest bucket; mret (snapshot_ids m).
Definition http_reconcile (bucket : rstring) (k : SetKind) (msg : bytes) : SM W HttpError bytes :=
  resp ← http_send POST (base ++ str "/b/" ++ bucket ++ str "/reconcile/" ++ as_str k) msg;
  resp ← sm_lift (error_for_status resp);
  sm_lift (read_capped MAX_RESPONSE_BYTES fuel resp).
Definition relay_err {A} (m : SM W HttpError A) : SM W RelayError A := sm_map_err (λ _, RBackend) m.
Definition HttpBackend : Backend W :=
  {| bk_manifest b := relay_err (http_manifest b); bk_get k b id := relay_err (get_bytes (item_url k b id));
     bk_put k b id ct := relay_err (put_bytes (item_url k b id) ct); bk_reconcile b k msg := relay_err (http_reconcile b k msg) |}.
End backend.

(** ** The pairing mailbox *)
Definition MAX_SLOT_BYTES : N := 4000000.
(** The listing of sessions, as JSON. *)
Record Sessions := mkSessions { ss_sessions : list rstring }.
Class Clock (W : Type) := { ck_now : W → Z; ck_sleep : Z → W → W }.
Section mailbox.
Context (base rendezvous : rstring) (fuel : nat).
Definition slot_url (session : rstring) (slot : Slot) : rstring :=
  base ++ str "/rendezvous/" ++ rendezvous ++ str "/" ++ session ++ str "/" ++ slot_as_str slot.
Context {W : Type} `{Http W, Clock W, JsonOf Sessions}.
Definition hm_put (session : rstring) (slot : Slot) (body : bytes) : SM W HttpError SlotOutcome :=
  resp ← http_send PUT (slot_url session slot) body;
  if ((rp_status resp =? 201) || (rp_status resp =? 200))%N then mret Written
  else if (rp_status resp =? 409)%N then mret AlreadyTaken
  else sm_fail (HStatus (rp_status resp)).
Definition hm_get (session : rstring) (slot : Slot) : SM W HttpError (option bytes) :=
  resp ← http_send GET (slot_url session slot) [];
  if (rp_status resp =? 404)%N then mret None
  else
    resp ← sm_lift (error_for_status resp);
    b ← sm_lift (read_capped MAX_SLOT_BYTES fuel resp);
    mret (Some b).
Definition hm_sessions : SM W HttpError (list rstring) :=
  resp ← http_send GET (base ++ str "/rendezvous/" ++ rendezvous ++ str "/sessions") [];
  resp ← sm_lift (error_for_status resp);
  b ← sm_lift (read_capped MAX_SLOT_BYTES fuel resp);
  l ← sm_lift (ok_or (from_utf8 b ≫= from_json) HJson);
  mret (ss_sessions l).
Definition mail_err {A} (m : SM W HttpError A) : SM W PairError A := sm_map_err (λ _, PMailbox) m.
Definition HttpMailbox : Mailbox W :=
  {| mx_put se sl b := mail_err (hm_put se sl b); mx_get se sl := mail_err (hm_get se sl); mx_sessions := mail_err hm_sessions;
     now_ms := ck_now; sleep := ck_sleep |}.
End mailbox.
(** [HttpMailbox::for_invite]. *)
Definition for_invite `{B64Url} (fuel : nat) (i : Invite) {W : Type} `{Http W, Clock W, JsonOf Sessions} : Mailbox W :=
  HttpMailbox (http_base (relay_url i)) (rendezvous_id i) fuel.
