(* ===== verification/RelayServer.v ===== *)
(** * The relay

    The server the clients talk to (src/sync, Elixir): the store of ciphertexts
    (Sync.Backend.Store), the write-once mailbox of pairing slots (Sync.Backend.Mailbox),
    their controllers and routes, and the set reconciliation it calls
    (roam_rbsr_nif, Rust).  The files of a root are a map from the components of a path;
    [serve] answers one request at a time; the writers of the two stores are also cut into
    their single calls on the file system, to be interleaved. *)
From S2P Require Import Prelude RustStr Vfs Roster Wire Logs Keychain Blob Trust Store StoreRoster StoreSync.
From S2P Require Import StoreKeys Checkpoint Paths Snapshots Relay Pairing Http.

(** ** Ids *)
(** The regular expression of [Store.valid_id?]: its [$] also matches before a final newline. *)
Definition id_char (c : rchar) : bool :=
  (((65 <=? c) && (c <=? 90)) || ((97 <=? c) && (c <=? 122)) || ((48 <=? c) && (c <=? 57)) || (c =? 95) || (c =? 45))%N.
Definition NEWLINE : rchar := 10.
Definition id_re (s : rstring) : bool :=
  let core := match last s with Some c => if decide (c = NEWLINE) then take (length s - 1) s else s | None => s end in
  bool_decide (core ≠ []) && forallb id_char core.
Definition MAX_ID_LEN : N := 128.
Definition store_valid_id (id : rstring) : bool := (str_len id <=? MAX_ID_LEN)%N && id_re id.
Definition ID_LENGTH : N := 43.
Definition mail_valid_id (id : rstring) : bool := (str_len id =? ID_LENGTH)%N && store_valid_id id.
Definition valid_slot (slot : rstring) : bool := bool_decide (slot ∈ slot_as_str <$> ALL).

(** ** The state *)
Record Relay := mkRelay {
  rl_files : gmap (rstring * rstring * rstring) bytes;
  rl_slots : gmap (rstring * rstring * rstring) bytes;
}.
Definition MAX_BODY_BYTES : N := 4000000.
Definition MAX_SESSIONS : nat := 64.
Definition PUT_LIMIT : N := 64000000.
(** [read_body]'s own limit. *)
Definition BODY_LIMIT : N := 8000000.

(** ** Store (backend/store.ex) *)
Definition store_get (bucket kind id : rstring) (r : Relay) : option bytes := rl_files r !! (bucket, kind, id).
Definition store_put (bucket kind id : rstring) (b : bytes) (r : Relay) : bool * Relay :=
  match rl_files r !! (bucket, kind, id) with
  | Some _ => (false, r)
  | None => (true, mkRelay (<[(bucket, kind, id) := b]> (rl_files r)) (rl_slots r))
  end.
Section server.
(** The order in which [File.ls] lists names. *)
Variable ls : gset rstring → list rstring.
Definition store_ids (bucket kind : rstring) (r : Relay) : gset rstring :=
  set_map snd (filter (λ x, x.1 = (bucket, kind)) (dom (rl_files r))).
Definition store_list (bucket kind : rstring) (r : Relay) : list rstring := ls (store_ids bucket kind r).
Definition kind_bytes (bucket kind : rstring) (r : Relay) : N :=
  foldr (λ id acc, acc + N.of_nat (length (default [] (store_get bucket kind id r))))%N 0%N (store_list bucket kind r).
Definition snapshot_wanted_by (bucket : rstring) (threshold : N) (r : Relay) : bool := (threshold <? kind_bytes bucket (str "entries") r)%N.
Context `{B64Url, Negentropy}.
(** [decode_id]: 32 bytes or nothing; what is concatenated. *)
Definition id_bytes (bucket kind : rstring) (r : Relay) : bytes := concat (omap str_to_id (store_list bucket kind r)).

(** *** The native function (roam_rbsr_nif) *)
Fixpoint chunks_exact (fuel : nat) (b : bytes) : list bytes :=
  match fuel with
  | O => []
  | S fuel => if decide (32 ≤ length b) then take 32 b :: chunks_exact fuel (drop 32 b) else []
  end.
Definition decode_ids (b : bytes) : option (list bytes) :=
  if decide (length b mod 32 = 0) then Some (chunks_exact (length b) b) else None.
Definition nif_reconcile (items msg : bytes) : option bytes :=
  ids ← decode_ids items; Relay.reconcile_server (from_ids ids) msg.

(** ** Mailbox (backend/mailbox.ex) *)
Definition sessions_of (rendezvous : rstring) (r : Relay) : gset rstring :=
  filter (λ s, mail_valid_id s = true) (set_map (λ x, x.1.2) (filter (λ x, x.1.1 = rendezvous) (dom (rl_slots r)))).
(** [Enum.sort]: binaries by their bytes. *)
Definition mailbox_sessions (rendezvous : rstring) (r : Relay) : list rstring := bset_to_list str_le (sessions_of rendezvous r).
Definition session_dir (rendezvous session : rstring) (r : Relay) : bool :=
  bool_decide (filter (λ x, x.1 = (rendezvous, session)) (dom (rl_slots r)) ≠ ∅).
Inductive SlotPut := SlotCreated | SlotExists | TooManySessions.
Definition mailbox_put (rendezvous session slot : rstring) (b : bytes) (r : Relay) : SlotPut * Relay :=
  match rl_slots r !! (rendezvous, session, slot) with
  | Some _ => (SlotExists, r)
  | None =>
      if negb (session_dir rendezvous session r) && bool_decide (MAX_SESSIONS ≤ length (mailbox_sessions rendezvous r))
      then (TooManySessions, r)
      else (SlotCreated, mkRelay (rl_files r) (<[(rendezvous, session, slot) := b]> (rl_slots r)))
  end.
Definition mailbox_get (rendezvous session slot : rstring) (r : Relay) : option bytes := rl_slots r !! (rendezvous, session, slot).

(** ** Controllers and routes *)
Record Reply := mkReply { ry_status : N; ry_body : bytes }.
Definition text (status : N) (s : string) : Reply := mkReply status (utf8 (str s)).
Context `{JsonOf Manifest, JsonOf Sessions}.
Variable threshold : N.
Definition do_get (bucket kind id : rstring) (r : Relay) : Reply :=
  if negb (store_valid_id bucket && store_valid_id id) then text 400 "bad id"
  else match store_get bucket kind id r with None => mkReply 404 [] | Some b => mkReply 200 b end.
Definition do_put (bucket kind id : rstring) (body : bytes) (r : Relay) : Reply * Relay :=
  if negb (store_valid_id bucket && store_valid_id id) then (text 400 "bad id", r)
  else if (PUT_LIMIT <? N.of_nat (length body))%N then (text 413 "payload too large", r)
  else let '(created, r') := store_put bucket kind id body r in (mkReply (if created then 201 else 409) [], r').
Definition manifest_of (bucket : rstring) (r : Relay) : Manifest :=
  mkServerManifest (store_list bucket (str "entries") r) (store_list bucket (str "blobs") r) (store_list bucket (str "snapshots") r)
    (snapshot_wanted_by bucket threshold r).
Definition do_manifest (bucket : rstring) (r : Relay) : Reply :=
  if negb (store_valid_id bucket) then text 400 "bad id" else mkReply 200 (utf8 (to_json (manifest_of bucket r))).
Definition kinds : list rstring := as_str <$> [KEntries; KBlobs; KSnapshots; KTrust].
Definition do_reconcile (bucket kind : rstring) (body : bytes) (r : Relay) : Reply :=
  if negb (store_valid_id bucket) then text 400 "bad id"
  else if negb (bool_decide (kind ∈ kinds)) then text 400 "unknown kind"
  else if (BODY_LIMIT <? N.of_nat (length body))%N then text 413 "payload too large"
  else match nif_reconcile (id_bytes bucket kind r) body with
       | Some reply => mkReply 200 reply
       | None => text 400 "bad reconcile message"
       end.
Definition slot_guard (rendezvous session slot : rstring) : option Reply :=
  if negb (mail_valid_id rendezvous) then Some (text 400 "bad rendezvous id")
  else if negb (mail_valid_id session) then Some (text 400 "bad session id")
  else if negb (valid_slot slot) then Some (text 400 "unknown slot")
  else None.
Definition do_sessions (rendezvous : rstring) (r : Relay) : Reply :=
  if mail_valid_id rendezvous then mkReply 200 (utf8 (to_json (mkSessions (mailbox_sessions rendezvous r))))
  else text 400 "bad rendezvous id".
Definition get_slot (rendezvous session slot : rstring) (r : Relay) : Reply :=
  match slot_guard rendezvous session slot with
  | Some e => e
  | None => match mailbox_get rendezvous session slot r with None => mkReply 404 [] | Some b => mkReply 200 b end
  end.
Definition put_slot (rendezvous session slot : rstring) (body : bytes) (r : Relay) : Reply * Relay :=
  match slot_guard rendezvous session slot with
  | Some e => (e, r)
  | None =>
      if (MAX_BODY_BYTES <? N.of_nat (length body))%N then (text 413 "payload too large", r)
      else
        let '(x, r') := mailbox_put rendezvous session slot body r in
        (match x with
         | SlotCreated => mkReply 201 [] | SlotExists => mkReply 409 []
         | TooManySessions => text 429 "too many pairing sessions at this rendezvous"
         end, r')
  end.
(** The routes of the [:raw] pipeline, by the segments of the path. *)
Definition serve (m : Method) (segments : list rstring) (body : bytes) (r : Relay) : Reply * Relay :=
  match m, segments with
  | GET, [b; bucket; last] =>
      if decide (b = str "b" ∧ last = str "manifest") then (do_manifest bucket r, r)
      else if decide (b = str "rendezvous" ∧ last = str "sessions") then (do_sessions bucket r, r)
      else (mkReply 404 [], r)
  | GET, [b; bucket; kind; id] =>
      if decide (b = str "b" ∧ kind ∈ kinds) then (do_get bucket kind id r, r)
      else if decide (b = str "rendezvous") then (get_slot bucket kind id r, r)
      else (mkReply 404 [], r)
  | PUT, [b; bucket; kind; id] =>
      if decide (b = str "b" ∧ kind ∈ kinds) then do_put bucket kind id body r
      else if decide (b = str "rendezvous") then put_slot bucket kind id body r
      else (mkReply 404 [], r)
  | POST, [b; bucket; what; kind] =>
      if decide (b = str "b" ∧ what = str "reconcile") then (do_reconcile bucket kind body r, r) else (mkReply 404 [], r)
  | _, _ => (mkReply 404 [], r)
  end.
End server.

(** ** Writers, one call on the file system at a time

    One slot or one stored id, written by any number of requests.  [wr_file] is the file
    at the path; a temporary file belongs to one writer. *)
Inductive Writer :=
  | WrExists (b : bytes) | WrTemp (b : bytes) | WrLink (b : bytes) | WrAgain (b : bytes) | WrSlow (b : bytes) | WrRename (b : bytes)
  | WrDone (created : bool).
Record Path_ := mkPath { wr_file : option bytes; wr_tasks : gmap nat Writer }.
(** [Mailbox.put] and [slow_path_write], the session being there.  [File.ln] fails when the slot is there, and always
    on a file system without hard links. *)
Definition run_slot_writer (links : bool) (t : Writer) (file : option bytes) : option (Writer * option bytes) :=
  match t with
  | WrExists b => Some (if decide (is_Some file) then WrDone false else WrTemp b, file)
  | WrTemp b => Some (WrLink b, file)
  | WrLink b =>
      match file with
      | None => if links then Some (WrDone true, Some b) else Some (WrAgain b, file)
      | Some _ => Some (WrAgain b, file)
      end
  | WrAgain b => Some (if decide (is_Some file) then WrDone false else WrSlow b, file)
  | WrSlow b => Some (WrRename b, file)
  | WrRename b => Some (WrDone true, Some b)
  | WrDone _ => None
  end.
(** [Store.put]: the rename replaces what is there. *)
Definition run_store_writer (t : Writer) (file : option bytes) : option (Writer * option bytes) :=
  match t with
  | WrExists b => Some (if decide (is_Some file) then WrDone false else WrTemp b, file)
  | WrTemp b => Some (WrRename b, file)
  | WrRename b => Some (WrDone true, Some b)
  | _ => None
  end.
(** A request arrives, or one of them makes its next call. *)
Inductive WEvent := Arrive (i : nat) (b : bytes) | Call (i : nat).
Definition write_step (writer : Writer → option bytes → option (Writer * option bytes)) (e : WEvent) (p : Path_) : option Path_ :=
  match e with
  | Arrive i b => if decide (wr_tasks p !! i = None) then Some (mkPath (wr_file p) (<[i := WrExists b]> (wr_tasks p))) else None
  | Call i => t ← wr_tasks p !! i; x ← writer t (wr_file p); Some (mkPath x.2 (<[i := x.1]> (wr_tasks p)))
  end.
Fixpoint write_run (writer : Writer → option bytes → option (Writer * option bytes)) (es : list WEvent) (p : Path_) : option Path_ :=
  match es with [] => Some p | e :: es => p ← write_step writer e p; write_run writer es p end.
