(* ===== verification/HttpSpec.v ===== *)
(** * The clients and the relay together

    What a client holds of a response is bounded, however the server answers; over the relay's
    routes the HTTP clients behave as the in-memory backend and the in-memory mailbox
    that the rest of the development uses; and slots are written once, whatever requests
    race. *)
From S2P Require Import Prelude RustStr Vfs Roster Wire Logs Keychain Blob Trust Store StoreRoster StoreSync.
From S2P Require Import StoreKeys Checkpoint Paths Snapshots Relay RelaySync Pairing Http RelayServer.

(** ** Reading a body *)
Section bodies.
Context (r : Response).
(** The chunks [n], ..., [n + length cs - 1]. *)
Definition chunks_at (n : nat) (cs : list bytes) : Prop := ∀ i c, cs !! i = Some c → rp_chunk r (n + i) = Some (Some c).
Lemma chunks_at_cons n c cs : rp_chunk r n = Some (Some c) → chunks_at (S n) cs → chunks_at n (c :: cs).
Proof.
  intros Hc Hcs [|i] d; simpl; [intros [= <-]; by rewrite Nat.add_0_r|]. intros Hi. rewrite Nat.add_succ_r. by apply Hcs.
Qed.
Definition held_len (body : bytes) (cs : list bytes) : N := N.of_nat (length body + length (concat cs)).
Lemma held_len_cons body c cs : held_len (body ++ c) cs = held_len body (c :: cs).
Proof. unfold held_len. simpl. rewrite !length_app. lia. Qed.

(** What reading can end with. *)
Lemma read_chunks_ends cap fuel n body :
  (N.of_nat (length body) ≤ cap)%N →
  match read_chunks cap fuel n body r with
  | Ok b => ∃ cs, chunks_at n cs ∧ rp_chunk r (n + length cs) = Some None ∧ b = body ++ concat cs ∧ (N.of_nat (length b) ≤ cap)%N
  | Err HExceeded => ∃ cs, chunks_at n cs ∧ (held_len body cs ≤ cap)%N ∧
      ∃ c, rp_chunk r (n + length cs) = Some (Some c) ∧ (cap < held_len body cs + N.of_nat (length c))%N
  | Err _ => True
  end.
Proof.
  revert n body. induction fuel as [|fuel IH]; intros n body Hb; simpl; [done|].
  destruct (rp_chunk r n) as [[c|]|] eqn:Ec; simpl; [| |done].
  - destruct (_ <? _)%N eqn:Hl.
    + exists []. split; [by intros i d|]. simpl. rewrite Nat.add_0_r. unfold held_len. simpl. split; [lia|]. exists c. split; [done|]. lia.
    + specialize (IH (S n) (body ++ c)). destruct (read_chunks cap fuel (S n) (body ++ c) r) as [b|[]]; try done.
      * destruct IH as (cs&Hcs&He&->&Hlen); [rewrite length_app; lia|]. exists (c :: cs). split_and!; [by apply chunks_at_cons| | |done].
        -- simpl. by rewrite Nat.add_succ_r.
        -- simpl. by rewrite (assoc_L app).
      * destruct IH as (cs&Hcs&Hh&He); [rewrite length_app; lia|]. exists (c :: cs). rewrite <-held_len_cons.
        split_and!; [by apply chunks_at_cons|done|]. simpl. by rewrite Nat.add_succ_r.
  - exists []. split; [by intros i d|]. simpl. rewrite Nat.add_0_r, app_nil_r. by split_and!.
Qed.
(** It does end: every chunk adds a byte. *)
Lemma read_chunks_total cap fuel n body :
  (∀ i c, rp_chunk r i = Some (Some c) → c ≠ []) →
  (cap < N.of_nat (length body) + N.of_nat fuel)%N → (N.of_nat (length body) ≤ cap)%N → read_chunks cap fuel n body r ≠ Err HStuck.
Proof.
  intros Hne. revert n body. induction fuel as [|fuel IH]; intros n body Hf Hb; simpl; [lia|].
  destruct (rp_chunk r n) as [[c|]|] eqn:Ec; simpl; [|done|done].
  destruct (_ <? _)%N eqn:Hl; [done|]. pose proof (Hne _ _ Ec) as Hc. destruct c as [|x c]; [done|].
  apply IH; rewrite length_app; simpl in *; lia.
Qed.
Lemma read_chunks_all cap fuel n body cs :
  chunks_at n cs → rp_chunk r (n + length cs) = Some None → (held_len body cs ≤ cap)%N → length cs < fuel →
  read_chunks cap fuel n body r = Ok (body ++ concat cs).
Proof.
  revert n body fuel. induction cs as [|c cs IH]; intros n body fuel Hcs He Hh Hf; (destruct fuel as [|fuel]; [simpl in Hf; lia|]); simpl.
  - rewrite Nat.add_0_r in He. rewrite He. simpl. by rewrite app_nil_r.
  - pose proof (Hcs 0 c eq_refl) as Hc. rewrite Nat.add_0_r in Hc. rewrite Hc. simpl.
    destruct (_ <? _)%N eqn:Hl; [unfold held_len in Hh; simpl in Hh; rewrite length_app in Hh; lia|].
    rewrite IH; [by rewrite (assoc_L app)| | |by rewrite held_len_cons|simpl in Hf; lia].
    + intros i d Hi. replace (S n + i) with (n + S i) by lia. by apply (Hcs (S i)).
    + rewrite <-He. f_equal. simpl. lia.
Qed.

(** C31: What the native client holds of a response is bounded, and reading ends, whatever the server sends: a declared
    length over the cap is refused before a chunk is read; a body that is accepted is the
    whole of the chunks and within the cap; one that is refused was cut off at a chunk before
    which no more than the cap was held; and when no chunk is empty, one more step than
    the cap has bytes is enough, even for a body without an end. *)
Theorem read_capped_bounded cap fuel :
  (∀ n, content_length r = Some n → (cap < n)%N → read_capped cap fuel r = Err (HDeclared n)) ∧
  (∀ b, read_capped cap fuel r = Ok b → (N.of_nat (length b) ≤ cap)%N ∧
    ∃ cs, chunks_at 0 cs ∧ rp_chunk r (length cs) = Some None ∧ b = concat cs) ∧
  (read_capped cap fuel r = Err HExceeded →
    ∃ cs c, chunks_at 0 cs ∧ (N.of_nat (length (concat cs)) ≤ cap)%N ∧ rp_chunk r (length cs) = Some (Some c) ∧
      (cap < N.of_nat (length (concat cs)) + N.of_nat (length c))%N) ∧
  ((∀ i c, rp_chunk r i = Some (Some c) → c ≠ []) → (cap < N.of_nat fuel)%N →
    read_capped cap fuel r ≠ Err HStuck).
Proof.
  assert (∀ x, read_capped cap fuel r = x → (∃ n, x = Err (HDeclared n)) ∨ read_chunks cap fuel 0 [] r = x) as Hx.
  { unfold read_capped. intros x <-. destruct (content_length r); [|by right]. destruct (_ <? _)%N; [left; by eexists|by right]. }
  pose proof (read_chunks_ends cap fuel 0 [] (N.le_0_l cap)) as Hends. split_and!.
  - intros n Hn Hl. unfold read_capped. rewrite Hn. destruct (_ <? _)%N eqn:E; [done|lia].
  - intros b [[n ?]|Hb]%Hx; [done|]. rewrite Hb in Hends. destruct Hends as (cs&Hcs&He&->&Hl). by split; [|exists cs].
  - intros [[n ?]|Hb]%Hx; [done|]. rewrite Hb in Hends. destruct Hends as (cs&Hcs&Hh&c&Hc&Hl).
    exists cs, c. unfold held_len in *. by split_and!.
  - intros Hne Hf [[n ?]|Hb]%Hx; [done|]. revert Hb. apply read_chunks_total; [done|simpl; lia|simpl; lia].
Qed.
End bodies.

(** ** Over the relay's routes *)
(** An id as the clients make them: base64url characters, so that no HTTP library rewrites it. *)
Definition plain (s : rstring) : Prop := s ≠ [] ∧ forallb id_char s = true.
Lemma plain_id s : plain s → (str_len s ≤ MAX_ID_LEN)%N → store_valid_id s = true.
Proof.
  intros [Hne Hall] Hl. unfold store_valid_id, id_re. apply andb_true_iff. split; [by apply N.leb_le|].
  assert ((match last s with Some c => if decide (c = NEWLINE) then take (length s - 1) s else s | None => s end) = s) as ->.
  { destruct (last s) as [c|] eqn:El; [|done]. case_decide as Hc; [|done]. subst c. apply last_Some_elem_of in El.
    rewrite forallb_forall in Hall. by specialize (Hall NEWLINE (proj1 (list_elem_of_In _ _) El)). }
  apply andb_true_iff. by split; [apply bool_decide_eq_true|].
Qed.
Lemma kind_plain k : plain (as_str k).
Proof. by destruct k. Qed.
Lemma slot_plain s : plain (slot_as_str s).
Proof. by destruct s. Qed.

(** A response that carries a reply: its status, and its body in chunks. *)
Definition delivers (resp : Response) (y : Reply) : Prop :=
  rp_status resp = ry_status y ∧ (∀ n, content_length resp = Some n → n = N.of_nat (length (ry_body y))) ∧
  ∃ cs, concat cs = ry_body y ∧ Forall (λ c, c ≠ []) cs ∧ ∀ n, rp_chunk resp n = Some (cs !! n).
Definition url_of (base : rstring) (segments : list rstring) : rstring := base ++ concat ((λ s, SLASH :: s) <$> segments).

Lemma read_delivered resp y cap fuel :
  delivers resp y → (N.of_nat (length (ry_body y)) ≤ cap)%N → (cap < N.of_nat fuel)%N → read_capped cap fuel resp = Ok (ry_body y).
Proof.
  intros (_&Hd&cs&Hcs&Hne&Hch) Hl Hf.
  assert (read_chunks cap fuel 0 [] resp = Ok (ry_body y)) as Hr.
  { rewrite <-Hcs. apply (read_chunks_all resp cap fuel 0 [] cs).
    - intros i c Hi. simpl. by rewrite Hch, Hi.
    - simpl. by rewrite Hch, lookup_ge_None_2.
    - unfold held_len. simpl. by rewrite Hcs.
    - assert (length cs ≤ length (concat cs)) as Hlc; [|rewrite Hcs in Hlc; lia].
      clear -Hne. induction Hne as [|c cs Hc _ IH]; simpl; [lia|]. rewrite length_app. destruct c; [done|]. simpl. lia. }
  unfold read_capped. destruct (content_length resp) as [n|] eqn:En; [|done]. specialize (Hd n eq_refl). subst n.
  destruct (cap <? _)%N eqn:E; [lia|done].
Qed.

Section relay.
Context `{B64Url, Negentropy, JsonText Manifest, JsonText Sessions}.
Context (base : rstring) (fuel : nat) (ls : gset rstring → list rstring) (threshold : N).
Hypothesis ls_perm : ∀ X, ls X ≡ₚ elements X.
(** The network brings a request to the relay, and its reply back; both clients run on it. *)
Context `{Http Relay}.
Hypothesis carries : ∀ m segments body r, Forall plain segments →
  ∃ resp, http_send m (url_of base segments) body r = (Ok resp, (serve ls threshold m segments body r).2) ∧
    delivers resp (serve ls threshold m segments body r).1.
Hypothesis Hfuel : (MAX_RESPONSE_BYTES < N.of_nat fuel)%N.

Lemma item_url_of k bucket id : item_url base k bucket id = url_of base [str "b"; bucket; as_str k; id].
Proof. unfold url_of. destruct k; cbn -[str]; rewrite ?app_nil_r; done. Qed.

(** *** The store of ciphertexts *)
(** The relay holds what the in-memory backend holds, and nothing it would not hand out. *)
Definition same_items (r : Relay) (m : MemoryBackend) : Prop :=
  ∀ k bucket id, rl_files r !! (bucket, as_str k, id) = in_bucket k bucket m !! id.
Definition small_items (r : Relay) : Prop := map_Forall (λ _ b, (N.of_nat (length b) ≤ PUT_LIMIT)%N) (rl_files r).
Lemma kind_known k : as_str k ∈ kinds.
Proof. unfold kinds. apply list_elem_of_fmap. exists k. split; [done|]. destruct k; set_solver. Qed.
Lemma get_route bucket k id r : serve ls threshold GET [str "b"; bucket; as_str k; id] [] r = (do_get bucket (as_str k) id r, r).
Proof. unfold serve. rewrite decide_True; [done|]. split; [done|apply kind_known]. Qed.
Lemma put_route bucket k id b r : serve ls threshold PUT [str "b"; bucket; as_str k; id] b r = do_put bucket (as_str k) id b r.
Proof. unfold serve. rewrite decide_True; [done|]. split; [done|apply kind_known]. Qed.
Lemma as_str_inj k k' : as_str k = as_str k' → k = k'.
Proof. by destruct k, k'. Qed.
Definition good_id (s : rstring) : Prop := plain s ∧ (str_len s ≤ MAX_ID_LEN)%N.

Lemma relay_ok {A} (m : SM Relay HttpError A) r a r' : m r = (Ok a, r') → relay_err m r = (Ok a, r').
Proof. intros Hm. unfold relay_err, sm_map_err. by rewrite Hm. Qed.
Lemma item_plain bucket k id : good_id bucket → good_id id → Forall plain [str "b"; bucket; as_str k; id].
Proof. intros [Pb _] [Pi _]. do 4 (constructor; [done || apply kind_plain|]). constructor. Qed.
(** A reply with status 200 and a body that fits is read whole. *)
Lemma read_ok cap resp b : delivers resp (mkReply 200 b) → (N.of_nat (length b) ≤ cap)%N → (cap < N.of_nat fuel)%N →
  rp_status resp = 200%N ∧ error_for_status resp = Ok resp ∧ read_capped cap fuel resp = Ok b.
Proof.
  intros Hd Hl Hf. assert (rp_status resp = 200%N) as Hst by apply Hd. split_and!; [done| |].
  - unfold error_for_status. by rewrite Hst.
  - apply (read_delivered resp (mkReply 200 b)); done.
Qed.
Lemma http_get_refines k bucket id r m :
  good_id bucket → good_id id → same_items r m → small_items r →
  relay_err (get_bytes fuel (item_url base k bucket id)) r = ((mb_get k bucket id m).1, r) ∧ same_items r (mb_get k bucket id m).2.
Proof.
  intros Gb Gi Hsim Hsm. split; [|unfold mb_get; destruct k; done].
  destruct (carries GET [str "b"; bucket; as_str k; id] [] r (item_plain bucket k id Gb Gi)) as (resp&Hs&Hd).
  rewrite get_route in Hs, Hd. cbn [fst snd] in *. apply relay_ok. unfold get_bytes, mbind at 1, SM_bind at 1. rewrite item_url_of, Hs.
  unfold do_get in Hd. destruct Gb as [Pb Lb], Gi as [Pi Li]. rewrite !plain_id in Hd by done. cbn [negb andb] in Hd.
  unfold store_get in Hd. rewrite (Hsim k) in Hd. unfold mb_get. destruct (in_bucket k bucket m !! id) as [b|] eqn:Eb.
  - rewrite <-(Hsim k) in Eb. apply Hsm in Eb. destruct (read_ok MAX_RESPONSE_BYTES _ _ Hd Eb Hfuel) as (Hst&He&Hr). rewrite Hst. cbn [N.eqb Pos.eqb].
    unfold mbind, SM_bind, sm_lift. by rewrite He, Hr.
  - destruct Hd as (Hst&_). by rewrite Hst.
Qed.
Lemma other_bucket_put k bucket id ct m k' bucket' :
  ~ (k' = k ∧ bucket' = bucket) → in_bucket k' bucket' (mb_put k bucket id ct m).2 = in_bucket k' bucket' m.
Proof.
  intros Hne. unfold mb_put. destruct (in_bucket k bucket m !! id); unfold in_bucket; destruct k, k'; cbn; try done;
    (rewrite lookup_insert_ne; [done|naive_solver]).
Qed.
Lemma http_put_refines k bucket id ct r m :
  good_id bucket → good_id id → (N.of_nat (length ct) ≤ PUT_LIMIT)%N → same_items r m → small_items r →
  ∃ r', relay_err (put_bytes (item_url base k bucket id) ct) r = ((mb_put k bucket id ct m).1, r') ∧
    same_items r' (mb_put k bucket id ct m).2 ∧ small_items r'.
Proof.
  intros Gb Gi Hl Hsim Hsm.
  destruct (carries PUT [str "b"; bucket; as_str k; id] ct r (item_plain bucket k id Gb Gi)) as (resp&Hs&Hst&_).
  destruct Gb as [Pb Lb], Gi as [Pi Li].
  rewrite put_route in Hs, Hst. unfold do_put in *. rewrite !plain_id in Hs, Hst by done. cbn [negb andb] in *.
  destruct (PUT_LIMIT <? _)%N eqn:E; [lia|]. unfold store_put in *. rewrite (Hsim k) in Hs, Hst.
  pose proof (in_bucket_put k bucket id ct m) as Hput. pose proof (other_bucket_put k bucket id ct m) as Hoth.
  assert ((mb_put k bucket id ct m).1 = Ok (if in_bucket k bucket m !! id is Some _ then Exists else Created)) as ->
    by (unfold mb_put; by destruct (in_bucket k bucket m !! id)).
  destruct (in_bucket k bucket m !! id) as [b|] eqn:Eb; cbn [fst snd ry_status] in *;
    eexists; (split; [apply relay_ok; unfold put_bytes, mbind, SM_bind; rewrite item_url_of, Hs, Hst; reflexivity|]); (split; [|try done]).
  - intros k' bucket' id'. rewrite (Hsim k'). destruct (decide (k' = k ∧ bucket' = bucket)) as [[-> ->]|Hne]; [by rewrite Hput|].
    by rewrite Hoth.
  - intros k' bucket' id'. cbn [rl_files]. destruct (decide (k' = k ∧ bucket' = bucket)) as [[-> ->]|Hne].
    + rewrite Hput, !lookup_insert. case_decide as E1; case_decide as E2; [done|congruence|congruence|apply Hsim].
    + rewrite Hoth by done. rewrite lookup_insert_ne; [apply Hsim|]. intros [= -> Hk _]. apply as_str_inj in Hk. naive_solver.
  - by apply map_Forall_insert_2.
Qed.

(** The native function gets back the ids that were concatenated for it. *)
Lemma chunks_exact_concat l fuel' :
  Forall (λ x, length x = 32) l → length (concat l) ≤ fuel' → chunks_exact fuel' (concat l) = l.
Proof.
  intros Hl. revert fuel'. induction Hl as [|x l Hx _ IH]; intros f Hf; [by destruct f|].
  change (concat (x :: l)) with (x ++ concat l) in *. rewrite length_app, Hx in Hf. destruct f as [|f]; [lia|]. cbn [chunks_exact].
  rewrite decide_True by (rewrite length_app; lia). rewrite take_app_length' by done. rewrite drop_app_length' by done. by rewrite IH by lia.
Qed.
Lemma decode_ids_concat l : Forall (λ x, length x = 32) l → decode_ids (concat l) = Some l.
Proof.
  intros Hl. unfold decode_ids. rewrite decide_True; [by rewrite chunks_exact_concat|].
  assert (length (concat l) = 32 * length l) as ->; [|by rewrite Nat.mul_comm, Nat.Div0.mod_mul].
  induction Hl as [|x l Hx _ IH]; [done|]. change (concat (x :: l)) with (x ++ concat l). rewrite length_app, Hx, IH. simpl. lia.
Qed.
Lemma str_to_id_len s x : str_to_id s = Some x → length x = 32.
Proof. unfold str_to_id. destruct (b64url_decode s); simpl; [|done]. by case_decide; [intros [= <-]|]. Qed.
Lemma elem_store_ids bucket kind id r : id ∈ store_ids bucket kind r ↔ is_Some (rl_files r !! (bucket, kind, id)).
Proof.
  unfold store_ids. rewrite elem_of_map. setoid_rewrite elem_of_filter. setoid_rewrite elem_of_dom. split.
  - intros ([[b k] i]&->&[= -> ->]&Hi). done.
  - intros Hi. by exists (bucket, kind, id).
Qed.
Lemma same_ids k bucket r m : same_items r m → from_ids (omap str_to_id (store_list ls bucket (as_str k) r)) = from_ids (id_set bucket k m).
Proof.
  intros Hsim. unfold from_ids, id_set. f_equal. apply set_eq. intros x. rewrite !elem_of_list_to_set, !list_elem_of_omap.
  assert (∀ s, s ∈ store_list ls bucket (as_str k) r ↔ s ∈ mb_ids k bucket m) as Hids; [|by setoid_rewrite Hids].
  intros s. unfold store_list, mb_ids. rewrite ls_perm, elem_of_elements, elem_store_ids, (Hsim k).
  rewrite elem_of_btree_keys. done.
Qed.
Lemma http_reconcile_refines k bucket msg r m :
  good_id bucket → (N.of_nat (length msg) ≤ BODY_LIMIT)%N → same_items r m →
  (∀ reply, (mb_reconcile bucket k msg m).1 = Ok reply → (N.of_nat (length reply) ≤ MAX_RESPONSE_BYTES)%N) →
  relay_err (http_reconcile base fuel bucket k msg) r =
    (match (mb_reconcile bucket k msg m).1 with Ok reply => Ok reply | Err _ => Err RBackend end, r).
Proof.
  intros [Pb Lb] Hl Hsim Hrep.
  destruct (carries POST [str "b"; bucket; str "reconcile"; as_str k] msg r) as (resp&Hs&Hd).
  { do 4 (constructor; [done || apply kind_plain|]). constructor. }
  assert (serve ls threshold POST [str "b"; bucket; str "reconcile"; as_str k] msg r = (do_reconcile ls bucket (as_str k) msg r, r)) as Hserve.
  { unfold serve. by rewrite decide_True. }
  rewrite Hserve in Hs, Hd. cbn [fst snd] in *. unfold do_reconcile in Hd. rewrite plain_id in Hd by done. cbn [negb] in Hd.
  rewrite bool_decide_eq_true_2 in Hd by apply kind_known. cbn [negb] in Hd. destruct (BODY_LIMIT <? _)%N eqn:E; [lia|].
  unfold nif_reconcile, id_bytes in Hd. rewrite decode_ids_concat in Hd.
  2:{ apply Forall_forall. intros x (s&_&Hx)%list_elem_of_omap. by eapply str_to_id_len. }
  cbn [mbind option_bind] in Hd. rewrite (same_ids k bucket r m Hsim) in Hd. unfold mb_reconcile in *. cbn [fst] in *.
  unfold relay_err, sm_map_err, http_reconcile, mbind, SM_bind.
  assert (url_of base [str "b"; bucket; str "reconcile"; as_str k] = base ++ str "/b/" ++ bucket ++ str "/reconcile/" ++ as_str k) as Hu.
  { unfold url_of. cbn -[str]. rewrite app_nil_r. done. }
  rewrite <-Hu, Hs. unfold sm_lift. destruct (reconcile_server _ msg) as [reply|]; cbn [ok_or] in *.
  - destruct (read_ok MAX_RESPONSE_BYTES _ _ Hd (Hrep _ eq_refl) Hfuel) as (_&->&->). done.
  - destruct Hd as (Hst&_). unfold error_for_status. by rewrite Hst.
Qed.

(** Requests and what a client learns from them; the kinds of failure are not told apart. *)
Inductive ItemOp := GetItem (k : SetKind) (bucket id : rstring) | PutItem (k : SetKind) (bucket id : rstring) (ct : bytes)
  | Compare (bucket : rstring) (k : SetKind) (msg : bytes).
Inductive Answer := AItem (b : option bytes) | APut (o : PutOutcome) | AReply (b : bytes) | AFailed.
Definition answer {A} (f : A → Answer) (x : result RelayError A) : Answer := match x with Ok a => f a | Err _ => AFailed end.
Definition ask {Bk : Type} {HB : Backend Bk} (op : ItemOp) (s : Bk) : Answer * Bk :=
  match op with
  | GetItem k b id => let '(x, s') := bk_get k b id s in (answer AItem x, s')
  | PutItem k b id ct => let '(x, s') := bk_put k b id ct s in (answer APut x, s')
  | Compare b k msg => let '(x, s') := bk_reconcile b k msg s in (answer AReply x, s')
  end.
Fixpoint ask_all {Bk : Type} {HB : Backend Bk} (ops : list ItemOp) (s : Bk) : list Answer :=
  match ops with [] => [] | op :: ops => let '(a, s') := ask op s in a :: ask_all ops s' end.
Definition good_op (op : ItemOp) : Prop :=
  match op with
  | GetItem _ b id => good_id b ∧ good_id id
  | PutItem _ b id ct => good_id b ∧ good_id id ∧ (N.of_nat (length ct) ≤ PUT_LIMIT)%N
  | Compare b _ msg => good_id b ∧ (N.of_nat (length msg) ≤ BODY_LIMIT)%N
  end.
(** A reply the client can hold. *)
Definition fits (a : Answer) : Prop := match a with AReply b => (N.of_nat (length b) ≤ MAX_RESPONSE_BYTES)%N | _ => True end.

Lemma ask_refines op r m :
  good_op op → fits (ask op m).1 → same_items r m → small_items r →
  (ask (HB := HttpBackend base fuel) op r).1 = (ask op m).1 ∧
  same_items (ask (HB := HttpBackend base fuel) op r).2 (ask op m).2 ∧ small_items (ask (HB := HttpBackend base fuel) op r).2.
Proof.
  intros Hg Hfit Hsim Hsm. destruct op as [k b id|k b id ct|b k msg]; cbn [ask good_op bk_get bk_put bk_reconcile HttpBackend MemoryBackend_backend] in *.
  - destruct Hg as [Gb Gi]. destruct (http_get_refines k b id r m Gb Gi Hsim Hsm) as [-> Hs'].
    destruct (mb_get k b id m) as [x m']. by split_and!.
  - destruct Hg as (Gb&Gi&Hl). destruct (http_put_refines k b id ct r m Gb Gi Hl Hsim Hsm) as (r'&->&Hs'&Hsm').
    destruct (mb_put k b id ct m) as [x m']. by split_and!.
  - destruct Hg as [Gb Hl]. rewrite (http_reconcile_refines k b msg r m Gb Hl Hsim).
    + unfold mb_reconcile. cbn [fst snd]. destruct (reconcile_server _ msg); by split_and!.
    + unfold mb_reconcile in *. cbn [fst] in *. intros reply Hr. destruct (reconcile_server _ msg) eqn:E; [|done]. by injection Hr as <-.
Qed.
(** C23: The HTTP client of the relay is the in-memory backend: any sequence of gets, puts and reconciliations, of
    the ids this program makes and of bodies and replies within the limits, gets the same
    answers over HTTP from the relay's routes and store, as long as the network brings
    requests and replies, as it gets from the in-memory backend with the same contents. *)
Theorem http_backend_refines ops r m :
  Forall good_op ops → Forall fits (ask_all ops m) → same_items r m → small_items r → ask_all (HB := HttpBackend base fuel) ops r = ask_all ops m.
Proof.
  intros Hops. revert r m. induction Hops as [|op ops Hop _ IH]; intros r m Hfit Hsim Hsm; [done|]. cbn [ask_all] in *.
  destruct (ask_refines op r m Hop) as (Ha&Hs'&Hsm'); [by destruct (ask op m); inversion Hfit|done|done|].
  destruct (ask (HB := HttpBackend base fuel) op r) as [a r']. destruct (ask op m) as [a' m']. cbn [fst snd] in *.
  rewrite Ha, (IH r' m'); [done| |done|done]. by inversion Hfit.
Qed.

(** *** The mailbox *)
Context (rdv : rstring) `{Clock Relay}.
Definition good_session (s : rstring) : Prop := plain s ∧ str_len s = ID_LENGTH.
Hypothesis Hrdv : good_session rdv.
(** The relay holds under this rendezvous what the in-memory mailbox holds. *)
Definition same_slots (r : Relay) (m : MemoryMailbox) : Prop :=
  (∀ session name, rl_slots r !! (rdv, session, name) = slot_parse name ≫= λ s, slots m !! (session, s)) ∧
  (∀ session slot, is_Some (slots m !! (session, slot)) → good_session session).
Definition small_slots (r : Relay) : Prop := map_Forall (λ _ b, (N.of_nat (length b) ≤ MAX_BODY_BYTES)%N) (rl_slots r).
(** A write that would open one session too many. *)
Definition over_cap (session : rstring) (m : MemoryMailbox) : Prop :=
  (∀ slot, slots m !! (session, slot) = None) ∧ MAX_SESSIONS ≤ size (set_map fst (dom (slots m)) : gset rstring).

Lemma good_session_valid s : good_session s → mail_valid_id s = true.
Proof.
  intros [Hp Hl]. unfold mail_valid_id. rewrite plain_id by (done || (rewrite Hl; vm_compute; discriminate)). by rewrite Hl.
Qed.
Lemma parse_as_str s : slot_parse (slot_as_str s) = Some s.
Proof. by destruct s. Qed.
Lemma parse_inv name s : slot_parse name = Some s → name = slot_as_str s.
Proof. unfold slot_parse. intros Hh. apply head_Some_elem_of in Hh. by apply list_elem_of_filter in Hh as [<- _]. Qed.
Lemma valid_slot_str s : valid_slot (slot_as_str s) = true.
Proof. by destruct s. Qed.
Lemma guard_passes session slot : good_session session → slot_guard rdv session (slot_as_str slot) = None.
Proof. intros Hs. unfold slot_guard. by rewrite !good_session_valid, valid_slot_str. Qed.
Lemma same_sessions r m : same_slots r m → sessions_of rdv r = set_map fst (dom (slots m)).
Proof.
  intros [Hsl Hg]. unfold sessions_of. apply set_eq. intros s. rewrite elem_of_filter, !elem_of_map.
  setoid_rewrite elem_of_filter. setoid_rewrite elem_of_dom. split.
  - intros (_&[[d s'] name]&->&Hd&Hx). simpl in Hd. subst d. simpl. rewrite Hsl in Hx. destruct (slot_parse name) as [sl|]; [|by destruct Hx].
    by exists (s', sl).
  - intros ([s' sl]&->&Hx). simpl. split; [by eapply good_session_valid, Hg|]. exists (rdv, s', slot_as_str sl).
    split_and!; [done|done|]. by rewrite Hsl, parse_as_str.
Qed.
Lemma session_dir_spec session r m :
  same_slots r m → session_dir rdv session r = true ↔ ∃ slot, is_Some (slots m !! (session, slot)).
Proof.
  intros [Hsl _]. unfold session_dir. rewrite bool_decide_eq_true. split.
  - intros (x&[Hx Hd%elem_of_dom]%elem_of_filter)%set_choose_L. destruct x as [[d s'] name]. injection Hx as -> ->. rewrite Hsl in Hd.
    destruct (slot_parse name) as [sl|]; [by exists sl|by destruct Hd].
  - intros [slot Hs] He. assert ((rdv, session, slot_as_str slot) ∈ (∅ : gset (rstring * rstring * rstring))) as Hin; [|by apply elem_of_empty in Hin].
    rewrite <-He. apply elem_of_filter. split; [done|]. apply elem_of_dom. by rewrite Hsl, parse_as_str.
Qed.
Lemma length_sessions r m : same_slots r m → length (mailbox_sessions rdv r) = size (set_map fst (dom (slots m)) : gset rstring).
Proof. intros Hs. unfold mailbox_sessions, bset_to_list. rewrite (same_sessions r m Hs), merge_sort_Permutation. done. Qed.
Lemma slot_url_of session slot : slot_url base rdv session slot = url_of base [str "rendezvous"; rdv; session; slot_as_str slot].
Proof. unfold url_of, slot_url. cbn -[str]. by rewrite app_nil_r. Qed.
Lemma mail_ok {A} (m : SM Relay HttpError A) r a r' : m r = (Ok a, r') → mail_err m r = (Ok a, r').
Proof. intros Hm. unfold mail_err, sm_map_err. by rewrite Hm. Qed.
Lemma slot_segments session slot : good_session session → Forall plain [str "rendezvous"; rdv; session; slot_as_str slot].
Proof. intros [Ps _]. destruct Hrdv as [Pr _]. do 4 (constructor; [done || apply slot_plain|]). constructor. Qed.
Lemma same_slots_insert r m session slot body :
  good_session session → same_slots r m →
  same_slots (mkRelay (rl_files r) (<[(rdv, session, slot_as_str slot) := body]> (rl_slots r)))
    (mkMemoryMailbox (<[(session, slot) := body]> (slots m)) (mm_clock m)).
Proof.
  intros Hs [Hsl Hg]. split; cbn [rl_slots slots].
  - intros se name. rewrite lookup_insert. case_decide as Hc.
    + injection Hc as <- <-. rewrite parse_as_str. simpl. by rewrite lookup_insert_eq.
    + rewrite Hsl. destruct (slot_parse name) as [sl|] eqn:Ep; [|done]. simpl. apply parse_inv in Ep. subst name.
      rewrite lookup_insert_ne; [done|]. naive_solver.
  - intros se sl. rewrite lookup_insert. case_decide as Hc; [injection Hc as <- <-; done|apply Hg].
Qed.
Lemma http_slot_put session slot body r m :
  good_session session → (N.of_nat (length body) ≤ MAX_BODY_BYTES)%N → same_slots r m → small_slots r →
  (over_cap session m ∧ mail_err (hm_put base rdv session slot body) r = (Err PMailbox, r)) ∨
  (~ over_cap session m ∧ ∃ r', mail_err (hm_put base rdv session slot body) r = ((mm_put session slot body m).1, r') ∧
    same_slots r' (mm_put session slot body m).2 ∧ small_slots r').
Proof.
  intros Hs Hl Hsim Hsm. destruct (carries PUT _ body r (slot_segments session slot Hs)) as (resp&Hr&Hst&_).
  assert (serve ls threshold PUT [str "rendezvous"; rdv; session; slot_as_str slot] body r = put_slot rdv session (slot_as_str slot) body r) as Hroute.
  { unfold serve. rewrite decide_False by (by intros [? _]). by rewrite decide_True. }
  rewrite Hroute in Hr, Hst. unfold put_slot in Hr, Hst. rewrite guard_passes in Hr, Hst by done.
  destruct (MAX_BODY_BYTES <? _)%N eqn:E; [lia|]. unfold mailbox_put in Hr, Hst.
  pose proof (proj1 Hsim session (slot_as_str slot)) as Hlk. rewrite parse_as_str in Hlk. simpl in Hlk. rewrite Hlk in Hr, Hst.
  unfold mm_put. destruct (slots m !! (session, slot)) as [b|] eqn:Eb; cbn [fst snd ry_status] in *.
  - right. split; [intros [Hno _]; by rewrite Hno in Eb|]. exists r. split_and!; [|done|done]. apply mail_ok.
    unfold hm_put, mbind, SM_bind. by rewrite slot_url_of, Hr, Hst.
  - pose proof (session_dir_spec session r m Hsim) as Hdir. rewrite (length_sessions r m Hsim) in Hr, Hst.
    destruct (negb (session_dir rdv session r) && bool_decide (MAX_SESSIONS ≤ size (set_map fst (dom (slots m)) : gset rstring))) eqn:Ec;
      cbn [fst snd ry_status text] in *.
    + left. apply andb_true_iff in Ec as [Hd%negb_true_iff Hn%bool_decide_eq_true]. split.
      * split; [|done]. intros sl. destruct (slots m !! (session, sl)) eqn:Es; [|done].
        assert (session_dir rdv session r = true) by (apply Hdir; by exists sl). congruence.
      * unfold mail_err, sm_map_err, hm_put, mbind, SM_bind. by rewrite slot_url_of, Hr, Hst.
    + right. split.
      * intros [Hno Hn]. apply andb_false_iff in Ec as [Hd%negb_false_iff|Hn'%bool_decide_eq_false]; [|done].
        apply Hdir in Hd as [sl [? Hx]]. by rewrite Hno in Hx.
      * eexists. split; [apply mail_ok; unfold hm_put, mbind, SM_bind; rewrite slot_url_of, Hr, Hst; reflexivity|].
        split; [by apply same_slots_insert|]. by apply map_Forall_insert_2.
Qed.
Lemma slot_fuel : (MAX_SLOT_BYTES < N.of_nat fuel)%N.
Proof. etransitivity; [|exact Hfuel]. done. Qed.
Lemma http_slot_get session slot r m :
  good_session session → same_slots r m → small_slots r →
  mail_err (hm_get base rdv fuel session slot) r = ((mm_get session slot m).1, r).
Proof.
  intros Hs Hsim Hsm. destruct (carries GET _ [] r (slot_segments session slot Hs)) as (resp&Hr&Hd).
  assert (serve ls threshold GET [str "rendezvous"; rdv; session; slot_as_str slot] [] r = (get_slot rdv session (slot_as_str slot) r, r)) as Hroute.
  { unfold serve. rewrite decide_False by (by intros [? _]). by rewrite decide_True. }
  rewrite Hroute in Hr, Hd. cbn [fst snd] in *. unfold get_slot, mailbox_get in Hd. rewrite guard_passes in Hd by done.
  pose proof (proj1 Hsim session (slot_as_str slot)) as Hlk. rewrite parse_as_str in Hlk. simpl in Hlk.
  apply mail_ok. unfold hm_get, mbind at 1, SM_bind at 1. rewrite slot_url_of, Hr. unfold mm_get. rewrite <-Hlk.
  destruct (rl_slots r !! _) as [b|] eqn:Eb.
  - apply Hsm in Eb. destruct (read_ok MAX_SLOT_BYTES _ _ Hd Eb slot_fuel) as (Hst&He&Hb). rewrite Hst. cbn [N.eqb Pos.eqb].
    unfold mbind, SM_bind, sm_lift. by rewrite He, Hb.
  - destruct Hd as (Hst&_). by rewrite Hst.
Qed.
Lemma http_slot_sessions r m :
  same_slots r m →
  (N.of_nat (length (utf8 (to_json (mkSessions (bset_to_list str_le (set_map fst (dom (slots m)))))))) ≤ MAX_SLOT_BYTES)%N →
  mail_err (hm_sessions base rdv fuel) r = ((mm_sessions m).1, r).
Proof.
  intros Hsim Hl. destruct (carries GET [str "rendezvous"; rdv; str "sessions"] [] r) as (resp&Hr&Hd).
  { destruct Hrdv as [Pr _]. do 3 (constructor; [done|]). constructor. }
  assert (serve ls threshold GET [str "rendezvous"; rdv; str "sessions"] [] r = (do_sessions rdv r, r)) as Hroute.
  { unfold serve. rewrite decide_False by (by intros [? _]). by rewrite decide_True. }
  rewrite Hroute in Hr, Hd. cbn [fst snd] in *. unfold do_sessions in Hd. rewrite good_session_valid in Hd by done.
  unfold mailbox_sessions in Hd. rewrite (same_sessions r m Hsim) in Hd.
  assert (url_of base [str "rendezvous"; rdv; str "sessions"] = base ++ str "/rendezvous/" ++ rdv ++ str "/sessions") as Hu
    by (unfold url_of; cbn -[str]; by rewrite app_nil_r).
  destruct (read_ok MAX_SLOT_BYTES _ _ Hd Hl slot_fuel) as (_&He&Hb).
  apply mail_ok. unfold hm_sessions, mbind at 1, SM_bind at 1. rewrite <-Hu, Hr. unfold mbind, SM_bind, sm_lift. rewrite He, Hb.
  rewrite from_utf8_utf8 by apply to_json_scalar. cbn [option_bind]. by rewrite from_to_json.
Qed.

(** C24: The HTTP mailbox is the in-memory mailbox: over the relay's routes, for the session ids this program makes and
    bodies within the limit, reading a slot and listing the sessions give what the in-memory
    mailbox with the same slots gives; writing one does too, and leaves the same slots
    behind, except that a write that would open a session beyond the relay's 64 fails
    and changes nothing. *)
Theorem http_mailbox_refines r m session slot body :
  good_session session → (N.of_nat (length body) ≤ MAX_BODY_BYTES)%N → same_slots r m → small_slots r →
  let Mb := HttpMailbox base rdv fuel in
  mx_get (Mailbox := Mb) session slot r = ((mx_get session slot m).1, r) ∧
  ((N.of_nat (length (utf8 (to_json (mkSessions (bset_to_list str_le (set_map fst (dom (slots m)))))))) ≤ MAX_SLOT_BYTES)%N →
    mx_sessions (Mailbox := Mb) r = ((mx_sessions m).1, r)) ∧
  ((over_cap session m ∧ mx_put (Mailbox := Mb) session slot body r = (Err PMailbox, r)) ∨
   (~ over_cap session m ∧ ∃ r', mx_put (Mailbox := Mb) session slot body r = ((mx_put session slot body m).1, r') ∧
     same_slots r' (mx_put session slot body m).2 ∧ small_slots r')).
Proof.
  intros Hs Hl Hsim Hsm. split_and!.
  - by apply http_slot_get.
  - by apply http_slot_sessions.
  - by apply http_slot_put.
Qed.
End relay.

(** ** Requests that race *)
Section race.
Abbreviation slot_run links := (write_run (run_slot_writer links)).
(** On any file system: the slot and the writers hold bytes of requests, and a slot is not emptied. *)
Definition holds_bytes (t : Writer) : option bytes :=
  match t with
  | WrExists b | WrTemp b | WrLink b | WrAgain b | WrSlow b | WrRename b => Some b
  | WrDone _ => None
  end.
Record written (P : bytes → Prop) (p : Path_) : Prop := {
  wn_done i : wr_tasks p !! i = Some (WrDone true) → is_Some (wr_file p);
  wn_task i t b : wr_tasks p !! i = Some t → holds_bytes t = Some b → P b;
  wn_file b : wr_file p = Some b → P b;
}.
Definition brings (P : bytes → Prop) (e : WEvent) : Prop := match e with Arrive _ b => P b | Call _ => True end.
Lemma written_step P links e p p' :
  written P p → brings P e → write_step (run_slot_writer links) e p = Some p' →
  written P p' ∧ (is_Some (wr_file p) → is_Some (wr_file p')).
Proof.
  intros [W1 W2 W3] Hb. destruct e as [i b|i]; simpl in *.
  - case_decide as Hi; [|done]. intros [= <-]. split; [|done]. split; cbn; [| |done]; intros *; rewrite lookup_insert; case_decide; naive_solver.
  - destruct (wr_tasks p !! i) as [t|] eqn:Et; [|done]. simpl.
    destruct (run_slot_writer links t (wr_file p)) as [[t' file']|] eqn:Er; [|done]. intros [= <-].
    assert ((∀ b, holds_bytes t' = Some b → holds_bytes t = Some b) ∧ (t' = WrDone true → is_Some file') ∧
      (file' = wr_file p ∨ ∃ b, file' = Some b ∧ holds_bytes t = Some b)) as (T1&T2&T3).
    { destruct t; simpl in *; repeat case_match; simplify_eq/=; naive_solver. }
    assert (is_Some (wr_file p) → is_Some file') as Hk by (destruct T3 as [->|(b&->&_)]; eauto).
    split; [|done]. split; cbn.
    + intros j. rewrite lookup_insert. case_decide; naive_solver.
    + intros j u b. rewrite lookup_insert. case_decide; naive_solver.
    + intros b. destruct T3 as [->|(b'&->&?)]; naive_solver.
Qed.
Lemma written_run P links es p p' :
  written P p → Forall (brings P) es → slot_run links es p = Some p' →
  written P p' ∧ (is_Some (wr_file p) → is_Some (wr_file p')).
Proof.
  revert p. induction es as [|e es IH]; intros p Hw; simpl; [intros _ [= <-]; done|].
  intros [He Hes]%Forall_cons Hrun. destruct (write_step _ e p) as [p1|] eqn:E; [|done]. simpl in Hrun.
  destruct (written_step P links e p p1 Hw He E) as [W1 K1]. destruct (IH p1 W1 Hes Hrun) as [W2 K2]. auto.
Qed.

(** With hard links: one creator, and what is there stays. *)
Record once (p : Path_) : Prop := {
  on_file i : wr_tasks p !! i = Some (WrDone true) → is_Some (wr_file p);
  on_one i j : wr_tasks p !! i = Some (WrDone true) → wr_tasks p !! j = Some (WrDone true) → i = j;
  on_again i b : wr_tasks p !! i = Some (WrAgain b) → is_Some (wr_file p);
  on_slow i b : wr_tasks p !! i ≠ Some (WrSlow b);
  on_rename i b : wr_tasks p !! i ≠ Some (WrRename b);
}.
Lemma once_step e p p' :
  once p → write_step (run_slot_writer true) e p = Some p' → once p' ∧ ∀ b, wr_file p = Some b → wr_file p' = Some b.
Proof.
  intros [O1 O2 O3 O4 O5]. destruct e as [i b|i]; simpl.
  - case_decide as Hi; [|done]. intros [= <-]. split; [|done]. split; cbn; intros *; rewrite ?lookup_insert; repeat case_decide; naive_solver.
  - destruct (wr_tasks p !! i) as [t|] eqn:Et; [|done]. simpl. destruct t as [b|b|b|b|b|b|c]; simpl; [| | | |by apply O4 in Et|by apply O5 in Et|done].
    + intros [= <-]. split; [|done]. cbn. split; cbn; intros *; rewrite ?lookup_insert; repeat case_decide; naive_solver.
    + intros [= <-]. split; [|done]. split; cbn; intros *; rewrite ?lookup_insert; repeat case_decide; naive_solver.
    + destruct (wr_file p) as [f|] eqn:Ef; simpl; intros [= <-].
      * split; [|done]. split; cbn; intros *; rewrite ?lookup_insert, ?Ef; repeat case_decide; naive_solver.
      * split; [|done]. assert (∀ j, wr_tasks p !! j ≠ Some (WrDone true)) as Hno by (intros j Hj; apply O1 in Hj; by destruct Hj).
        split; cbn; intros *; rewrite ?lookup_insert; repeat case_decide; naive_solver.
    + intros [= <-]. split; [|done]. pose proof (O3 _ _ Et) as Hf. rewrite decide_True by done.
      split; cbn; intros *; rewrite ?lookup_insert; repeat case_decide; naive_solver.
Qed.
Lemma once_run es p p' :
  once p → slot_run true es p = Some p' → once p' ∧ ∀ b, wr_file p = Some b → wr_file p' = Some b.
Proof.
  revert p. induction es as [|e es IH]; intros p Ho; simpl; [intros [= <-]; done|].
  destruct (write_step _ e p) as [p1|] eqn:E; [|done]. simpl. intros Hr. apply once_step in E as [O1 F1]; [|done].
  destruct (IH p1 O1 Hr) as [O2 F2]. auto.
Qed.

(** C30: A pairing slot is written once, whatever requests race, on a file system with hard links: over any interleaving
    of the calls that any number of writers of one slot make on the file system, from an empty slot and as long as
    the rendezvous is not swept, at most one writer is answered that it created the slot, and
    bytes that the slot once holds stay.  With or without hard links, a slot whose writer was answered so holds
    bytes, they are the whole body of one of the requests, and a slot that holds bytes never becomes empty.
    (Without hard links a second writer may replace the first one's bytes, as the code's comment says.) *)
Theorem slot_written_once links es p :
  write_run (run_slot_writer links) es (mkPath None ∅) = Some p →
  (∀ i, wr_tasks p !! i = Some (WrDone true) → is_Some (wr_file p)) ∧
  (∀ b, wr_file p = Some b → ∃ i, Arrive i b ∈ es) ∧
  (∀ es' p', write_run (run_slot_writer links) es' p = Some p' → is_Some (wr_file p) → is_Some (wr_file p')) ∧
  (links = true →
    (∀ i j, wr_tasks p !! i = Some (WrDone true) → wr_tasks p !! j = Some (WrDone true) → i = j) ∧
    ∀ es' p' b, write_run (run_slot_writer links) es' p = Some p' → wr_file p = Some b → wr_file p' = Some b).
Proof.
  intros Hes. destruct (written_run (λ b, ∃ i, Arrive i b ∈ es) links es (mkPath None ∅) p) as [[W1 _ W3] _]; [| |done|].
  { split; cbn; intros *; by rewrite ?lookup_empty. }
  { apply Forall_forall. intros [i b|i] He; simpl; eauto. }
  split_and!; [exact W1|exact W3| |].
  - intros es' p' Hr. apply (written_run (λ _, True) links es' p p'); [split; try done; exact W1| |done].
    apply Forall_forall. by intros [].
  - intros ->. assert (once (mkPath None ∅)) as H0 by (split; cbn; intros *; by rewrite ?lookup_empty).
    destruct (once_run _ _ _ H0 Hes) as [Ho _]. split; [apply Ho|]. intros es' p' b Hr. by apply (once_run _ _ _ Ho Hr).
Qed.
End race.
