(* ===== verification/Browser.v ===== *)
(** * The browser's vault and its command session (roam-wasm)

    A whole vault on any backend of [VaultFs] (src/crates/roam-wasm/src/vault.rs): opening,
    joining, hosting, and the calls into the store and the relay client; and the command
    protocol a page speaks with it (src/crates/roam-wasm/src/session.rs), where one request is
    one JSON object and gets one reply.  serde_json's values are [Value]; its reading and
    writing of text, and the decoding of a command that serde derives, are interfaces. *)
From S2P Require Import Prelude RustStr Vfs Roster Wire Logs Keychain Blob Trust Store StoreRoster StoreSync.
From S2P Require Import StoreKeys Checkpoint Textdiff Rebase Paths Bridge BridgeSpec StoreEdit Snapshots Relay Pairing.
From stdpp Require Import pretty.

(** ** Sizes (store.rs) *)
Section sizes.
Context {Fs Doc Ver : Type} `{VaultFs Fs}.
Abbreviation St := (Store Fs Doc Ver).
Definition list_or_none (p : path) (f : Fs) : result StorageError (list path) :=
  match fs_read_dir p f with Ok es => Ok es | Err NotFound => Ok [] | Err e => Err (Io e) end.
Definition sum_sizes (ns : list (result StorageError u64)) : result StorageError u64 :=
  foldl (λ total n, total ≫= λ t, saturating_add t <$> n) (Ok 0%N) ns.
Definition len_of_file (p : path) (f : Fs) : result StorageError u64 := N.of_nat <$> map_err Io (fs_file_len p f).
(** [depth] bounds the nesting; [None] when it is not enough. *)
Fixpoint dir_size (depth : nat) (p : path) (f : Fs) : option (result StorageError u64) :=
  match depth with
  | O => None
  | S depth =>
      match list_or_none p f with
      | Err e => Some (Err e)
      | Ok es =>
          sum_sizes <$> mapM (λ e, if fs_is_dir e f then dir_size depth e f else Some (len_of_file e f)) es
      end
  end.
Definition root_file_bytes (p : path) (f : Fs) : result StorageError u64 :=
  es ← list_or_none p f;
  sum_sizes ((λ e, len_of_file e f) <$> filter (λ e, fs_is_dir e f = false) es).
Record DataSize := mkDataSize { sz_blobs : u64; sz_oplog : u64; sz_meta : u64; sz_total : u64 }.
Definition data_size (depth : nat) (s : St) : option (result StorageError DataSize) :=
  let dir n := dir_size depth (root s ++ [str n]) (fs s) in
  a ← dir "assets"; o ← dir "ops"; n ← dir "snapshots"; ro ← dir "roster"; k ← dir "keylog"; h ← dir "history";
  Some (blobs ← a; ops ← o; snaps ← n; let oplog := saturating_add ops snaps in
        rosters ← ro; keys ← k; hist ← h; top ← root_file_bytes (root s) (fs s);
        let meta := saturating_add (saturating_add (saturating_add rosters keys) hist) top in
        Ok (mkDataSize blobs oplog meta (saturating_add (saturating_add blobs oplog) meta))).
End sizes.

(** ** JSON values (serde_json) *)
#[local] Unset Elimination Schemes.
Inductive Value :=
  | VNull | VBool (b : bool) | VNum (z : Z) | VFloat (bits : u64) | VString (s : rstring) | VArray (l : list Value)
  | VObject (fields : list (rstring * Value)).
#[local] Set Elimination Schemes.
(** Objects keep their keys in order, each once. *)
Fixpoint obj_insert (k : rstring) (v : Value) (l : list (rstring * Value)) : list (rstring * Value) :=
  match l with
  | [] => [(k, v)]
  | (k', v') :: l =>
      if decide (k = k') then (k, v) :: l
      else if decide (str_le k k') then (k, v) :: (k', v') :: l
      else (k', v') :: obj_insert k v l
  end.
Definition object (l : list (rstring * Value)) : Value := VObject (foldl (λ m x, obj_insert x.1 x.2 m) [] l).
(** [value.get(key)]. *)
Fixpoint assoc_get (k : rstring) (l : list (rstring * Value)) : option Value :=
  match l with [] => None | (k', v) :: l => if decide (k' = k) then Some v else assoc_get k l end.
Definition field (k : rstring) (v : Value) : option Value := match v with VObject l => assoc_get k l | _ => None end.
Definition of_option {A} (f : A → Value) (o : option A) : Value := match o with Some a => f a | None => VNull end.
Definition of_u64 (n : u64) : Value := VNum (Z.of_N n).

(** ** The vault (vault.rs) *)
Definition ROOT : path := [str "vault"].
Definition IDENTITY : path := ROOT ++ [str "identity.key"].
Definition VAULT_ID : path := ROOT ++ [str "vault.id"].
Inductive VaultError :=
  | VStore (e : StorageError) | VPair (e : PairError) | VRelay (e : RelayError) | VIdLength (n : nat)
  | VPayload | VPeerId | VKey | VDepth.
Record MapChange := mkMapChange { mc_container : rstring; mc_key : rstring; mc_value : option rstring }.
(** The document's key-level changes between two frontiers (roam-crdt). *)
Class DocDelta (Doc : Type) := { doc_map_delta : bytes → bytes → Doc → result StorageError (list MapChange) }.
Record Vault (St : Type) := mkVault { va_store : St; va_key : bytes; va_identity : Identity; va_vault_id : bytes }.
Arguments mkVault {St} _ _ _ _.
Arguments va_store {St} _.
Arguments va_key {St} _.
Arguments va_identity {St} _.
Arguments va_vault_id {St} _.
Record PeerInfo := mkPeerInfo {
  pi_peer_id : u64; pi_verifying_key : bytes; pi_name : option rstring; pi_role : Role; pi_active : bool; pi_is_self : bool }.

Section vault.
Context `{Ed25519, Crypto, EdX, B64, B64Url, KeyedHash, Negentropy, EntryPeer, Spake2, ChaCha}.
Context `{JsonOf IdentityFile, JsonOf EntryLine, JsonOf RosterLine, JsonOf (list PeerRecord), JsonOf KeyLine, JsonOf Marker}.
Context `{JsonOf HeldSnapshot, JsonOf SnapshotManifest, JsonOf TrustBundle, JsonOf MailboxJoinRequest, JsonOf JoinAccept}.
Context {Fs Doc Ver Fr : Type} `{VaultFs Fs, DocOps Doc Ver, DocHistory Doc, DocText Doc Ver Fr, DocDelta Doc}.
Variable pick : gset u64 → option u64.
Variable fuel : nat.
Abbreviation St := (Store Fs Doc Ver).
Abbreviation V := (Vault St).

(** *** Opening, joining, hosting; fresh ids and keys are arguments *)
Definition load_or_generate_identity (fresh : bytes) : SM Fs StorageError Identity := λ f,
  match load_with_fs IDENTITY f with
  | Ok existing => (Ok existing, f)
  | Err _ => (_ ← save_with_fs (generate fresh) IDENTITY; mret (generate fresh)) f
  end.
Definition load_or_generate_vault_id (fresh : bytes) : SM Fs VaultError bytes := λ f,
  match fs_read VAULT_ID f with
  | Ok b => (if decide (length b = 32) then Ok b else Err (VIdLength (length b)), f)
  | Err _ =>
      (_ ← sm_map_err (λ e, VStore (Io e)) (fs_create_dir_all ROOT);
       _ ← sm_map_err (λ e, VStore (Io e)) (fs_write VAULT_ID fresh);
       mret fresh) f
  end.
Definition open_store (id : Identity) : SM Fs VaultError St := λ f,
  let '(r, f') := open_with_fs pick fuel ROOT id f in (map_err VStore r, f').
(** A call on an open store, whose backend is the one it was opened on. *)
Definition with_store {A} (s : St) (m : SM St VaultError A) : SM Fs VaultError (A * St) := λ _,
  let '(r, s') := m s in (match r with Ok a => Ok (a, s') | Err e => Err e end, fs s').
Definition founder_pin (s : St) : option u64 := founder s.
Definition vault_open (fresh_id fresh_vault key : bytes) : SM Fs VaultError V :=
  id ← sm_map_err VStore (load_or_generate_identity fresh_id);
  vault_id ← load_or_generate_vault_id fresh_vault;
  s ← open_store id;
  x ← with_store s (if decide (founder_pin s = None) then sm_map_err VStore (declare_founder pick fuel Admin) else mret tt);
  mret (mkVault x.2 key id vault_id).
Definition vault_join (id : Identity) (a : JoinAccept) (hkey : bytes) : SM Fs VaultError V :=
  _ ← sm_map_err VStore (save_with_fs id IDENTITY);
  s ← open_store id;
  x ← with_store s (
    joined ← sm_map_err VPair (adopt_accept pick fuel a hkey);
    _ ← sm_map_err VStore (on_fs (io (fs_write VAULT_ID (jd_vault joined))));
    mret joined);
  mret (mkVault x.2 (jd_vault_key x.1) id (jd_vault x.1)).
Context {W : Type} `{Mailbox W}.
(** The store is locked for the whole window; the code and the invitation are shown first. *)
Definition vault_host_invite (draws : list N) (ticks polls : nat) (rng : HostRng) (invite : Invite) (r : Role) (window : Z)
    (w : W) (v : V) : option (PairingCode * (result PairError u64 * W * V)) :=
  x ← host_via_mailbox (va_identity v) (va_vault_id v) (va_key v) r (va_store v) w invite draws;
  let '(res, h) := accept_for pick fuel ticks polls rng window x.2 in
  Some (x.1, (res, mh_world h, mkVault (mh_store h) (va_key v) (va_identity v) (va_vault_id v))).

(** *** Reading *)
Definition vault_roster (v : V) : list PeerInfo :=
  (λ p, mkPeerInfo (peer_id p) (verifying_key p) (name p) (role p) (bool_decide (status p = Active))
          (bool_decide (peer_id p = id_peer (identity (va_store v))))) <$> peers (va_store v).
Definition vault_frontier (v : V) : bytes := oplog_frontier (doc (va_store v)).
Definition changes_since (from : bytes) (v : V) : result StorageError (list MapChange) :=
  doc_map_delta from (vault_frontier v) (doc (va_store v)).
End vault.

(** ** The session (session.rs) *)
Inductive Command :=
  | PeerId | VerifyingKey
  | AddPeer (peer_id verifying_key : rstring)
  | SetEntry (container key value : rstring)
  | GetEntry (container key : rstring)
  | RemoveEntry (container key : rstring)
  | Entries (container : rstring)
  | EditText (text_id : rstring) (at_ : nat) (text : rstring)
  | Text (text_id : rstring)
  | WriteSnapshot | Sync | PutBlob
  | GetBlob (hash : rstring) | HasBlob (hash : rstring) | RemoveBlob (hash : rstring)
  | BucketId | ListRoster | SelfRole
  | RevokePeer (peer_id verifying_key : rstring)
  | GetDataSize
  | CompactDryRun (before_ms : Z) | Compact (before_ms : Z)
  | RotateEpoch.
(** The decoding of a command that serde derives. *)
Class CommandOf := { command_of : Value → option Command }.
(** What a session draws from outside: nonces, keys, the clock. *)
Record Chance := mkChance { ch_oracle : Oracle; ch_now : Z; ch_nonce : bytes; ch_key : bytes; ch_wraps : nat → bytes * bytes }.
Record Session (St Bk : Type) := mkSession { se_vault : Vault St; se_backend : Bk }.
Arguments mkSession {St Bk} _ _.
Arguments se_vault {St Bk} _.
Arguments se_backend {St Bk} _.
Record SessionReply := mkSessionReply { json : rstring; reply_bytes : option bytes }.
Inductive SessionError := SMalformed | SUnrecognized | SVault (e : VaultError).

(** [envelope], before it is written out. *)
Definition change_value (c : MapChange) : Value :=
  object [(str "container", VString (mc_container c)); (str "key", VString (mc_key c)); (str "value", of_option VString (mc_value c))].
Definition envelope (id : Value) (r : result rstring Value) (changes : list MapChange) : Value :=
  let body := match r with
              | Ok value => [(str "id", id); (str "ok", value)]
              | Err message => [(str "id", id); (str "error", VString message)]
              end in
  object (body ++ if decide (changes = []) then [] else [(str "changes", VArray (change_value <$> changes))]).
Definition peer_value `{B64Url} (p : PeerInfo) : Value :=
  object [(str "peerId", VString (str (pretty (pi_peer_id p)))); (str "verifyingKey", VString (b64url_encode (pi_verifying_key p)));
          (str "name", of_option VString (pi_name p)); (str "role", VString (role_display (pi_role p)));
          (str "active", VBool (pi_active p)); (str "isSelf", VBool (pi_is_self p))].
Definition decode_key `{B64Url} (encoded : rstring) : result VaultError bytes :=
  match b64url_decode encoded with Some b => if decide (length b = 32) then Ok b else Err VKey | None => Err VKey end.

Section session.
Context `{Ed25519, Crypto, EdX, B64, B64Url, KeyedHash, Negentropy, EntryPeer}.
Context `{JsonOf IdentityFile, JsonOf EntryLine, JsonOf RosterLine, JsonOf (list PeerRecord), JsonOf KeyLine, JsonOf Marker}.
Context `{JsonOf HeldSnapshot, JsonOf SnapshotManifest, JsonOf TrustBundle, JsonOf Value, CommandOf}.
Context {Fs Doc Ver Fr : Type} `{VaultFs Fs, DocOps Doc Ver, DocHistory Doc, DocText Doc Ver Fr, DocDelta Doc}.
Context {Bk : Type} `{Backend Bk}.
Variable pick : gset u64 → option u64.
Variable fuel depth : nat.
(** The text of an error. *)
Variable message : SessionError → rstring.
Abbreviation St := (Store Fs Doc Ver).
Abbreviation Se := (Session St Bk).

Definition set_store (s : St) (x : Se) : Se :=
  mkSession (mkVault s (va_key (se_vault x)) (va_identity (se_vault x)) (va_vault_id (se_vault x))) (se_backend x).
Definition on_store {A} (m : SM St StorageError A) : SM Se VaultError A := λ x,
  let '(r, s) := m (va_store (se_vault x)) in (map_err VStore r, set_store s x).
Definition look {A} (g : St → A) : SM Se VaultError A := λ x, (Ok (g (va_store (se_vault x))), x).
Definition look_in {A} (g : St → result StorageError A) : SM Se VaultError A := λ x,
  (map_err VStore (g (va_store (se_vault x))), x).
Definition vault_sync (o : Oracle) : SM Se VaultError unit := λ x,
  let '(r, p) := reconcile_once pick fuel o (va_key (se_vault x)) (mkPass (va_store (se_vault x)) (se_backend x) 0) in
  (map_err VRelay r, mkSession (se_vault (set_store (ps_store p) x)) (ps_backend p)).
Definition blobs_of (s : St) : path := assets_dir (root s).
Definition parse_peer (peer : rstring) : result VaultError u64 := ok_or (parse_u64 peer) VPeerId.

(** *** The vault's calls *)
Definition vault_peer_id : SM Se VaultError u64 := look (λ s, id_peer (identity s)).
Definition vault_verifying_key : SM Se VaultError bytes := look (λ s, id_key (identity s)).
Definition vault_self_role : SM Se VaultError (option Role) := look self_role.
Definition vault_add_peer (p : u64) (k : bytes) : SM Se VaultError unit := on_store (add_peer pick fuel p k Admin).
Definition vault_set_entry (container key value : rstring) : SM Se VaultError unit := on_store (set_entry container key value).
Definition vault_get_entry (container key : rstring) : SM Se VaultError (option rstring) := look (get_entry container key).
Definition vault_remove_entry (container key : rstring) : SM Se VaultError unit := on_store (remove_entry container key).
Definition vault_entries (container : rstring) : SM Se VaultError (list (rstring * rstring)) := look (entries container).
Definition vault_edit_text (id : rstring) (at_ : nat) (t : rstring) : SM Se VaultError unit := on_store (edit_text id at_ t).
Definition vault_text (id : rstring) : SM Se VaultError rstring := look (text id).
Definition vault_write_snapshot (now : Z) : SM Se VaultError unit := on_store (write_snapshot now).
Definition vault_put_blob (b : bytes) : SM Se VaultError rstring := on_store (λ s, on_fs (blob_put (blobs_of s) b) s).
Definition vault_get_blob (hash : rstring) : SM Se VaultError (option bytes) := look_in (λ s, blob_get (blobs_of s) hash (fs s)).
Definition vault_has_blob (hash : rstring) : SM Se VaultError bool := look (λ s, blob_has (blobs_of s) hash (fs s)).
Definition vault_remove_blob (hash : rstring) : SM Se VaultError unit := on_store (λ s, on_fs (blob_remove (blobs_of s) hash) s).
Definition vault_revoke_peer (p : u64) (k : bytes) : SM Se VaultError unit := on_store (revoke_peer pick fuel p k).
Definition vault_data_size : SM Se VaultError DataSize :=
  r ← look (data_size depth); sm_lift (match r with Some r => map_err VStore r | None => Err VDepth end).
Definition vault_compact_dry_run (before : Z) : SM Se VaultError u64 := look_in (checkpoint_dry_run before).
Definition vault_compact (before : Z) : SM Se VaultError u64 := on_store (checkpoint before).
Definition vault_rotate_epoch (ch : Chance) : SM Se VaultError bytes := λ x,
  on_store (rotate_epoch (ch_wraps ch) (ch_nonce ch) (ch_key ch) (vault_subkeys (va_key (se_vault x))).1
              (vault_subkeys (va_key (se_vault x))).2 None) x.

(** [Session::run]: the command's value, and bytes that bypass the envelope. *)
Definition session_value (ch : Chance) (c : Command) : SM Se VaultError Value :=
  match c with
  | PeerId => p ← vault_peer_id; mret (VString (str (pretty p)))
  | VerifyingKey => k ← vault_verifying_key; mret (VString (b64url_encode k))
  | AddPeer peer key =>
      p ← sm_lift (parse_peer peer); k ← sm_lift (decode_key key); _ ← vault_add_peer p k; mret VNull
  | SetEntry container key value => _ ← vault_set_entry container key value; mret VNull
  | GetEntry container key => o ← vault_get_entry container key; mret (of_option VString o)
  | RemoveEntry container key => _ ← vault_remove_entry container key; mret VNull
  | Entries container => l ← vault_entries container; mret (object ((λ x, (x.1, VString x.2)) <$> l))
  | RemoveBlob hash => _ ← vault_remove_blob hash; mret VNull
  | ListRoster => λ x, (Ok (VArray (peer_value <$> vault_roster (se_vault x))), x)
  | SelfRole => r ← vault_self_role; mret (of_option (λ r, VString (role_display r)) r)
  | RevokePeer peer key =>
      p ← sm_lift (parse_peer peer); k ← sm_lift (decode_key key); _ ← vault_revoke_peer p k; mret VNull
  | GetDataSize =>
      z ← vault_data_size;
      mret (object [(str "blobs", of_u64 (sz_blobs z)); (str "oplog", of_u64 (sz_oplog z));
                    (str "meta", of_u64 (sz_meta z)); (str "total", of_u64 (sz_total z))])
  | CompactDryRun before => n ← vault_compact_dry_run before; mret (of_u64 n)
  | Compact before => n ← vault_compact before; mret (of_u64 n)
  | RotateEpoch => _ ← vault_rotate_epoch ch; mret VNull
  | EditText text_id at_ t => _ ← vault_edit_text text_id at_ t; mret VNull
  | Text text_id => t ← vault_text text_id; mret (VString t)
  | WriteSnapshot => _ ← vault_write_snapshot (ch_now ch); mret VNull
  | Sync => _ ← vault_sync (ch_oracle ch); mret VNull
  | BucketId => λ x, (Ok (VString (bucket_id (va_key (se_vault x)))), x)
  | PutBlob | GetBlob _ | HasBlob _ => mret VNull
  end.
Definition session_run (ch : Chance) (c : Command) (payload : option bytes) : SM Se VaultError (Value * option bytes) :=
  match c with
  | PutBlob =>
      b ← sm_lift (ok_or payload VPayload);
      h ← vault_put_blob b;
      mret (VString h, None)
  | GetBlob hash =>
      o ← vault_get_blob hash;
      mret match o with
           | Some b => (object [(str "len", VNum (Z.of_nat (length b)))], Some b)
           | None => (VNull, None)
           end
  | HasBlob hash => b ← vault_has_blob hash; mret (VBool b, None)
  | c => v ← session_value ch c; mret (v, None)
  end.
Definition session_handle (ch : Chance) (request : rstring) (payload : option bytes) (x : Se) : SessionReply * Se :=
  match from_json request with
  | None => (mkSessionReply (to_json (envelope VNull (Err (message SMalformed)) [])) None, x)
  | Some parsed =>
      let id := default VNull (field (str "id") parsed) in
      match command_of parsed with
      | None => (mkSessionReply (to_json (envelope id (Err (message SUnrecognized)) [])) None, x)
      | Some command =>
          let before := vault_frontier (se_vault x) in
          let '(outcome, x') := session_run ch command payload x in
          let changes := match changes_since before (se_vault x') with Ok l => l | Err _ => [] end in
          match outcome with
          | Ok (value, b) => (mkSessionReply (to_json (envelope id (Ok value) changes)) b, x')
          | Err e => (mkSessionReply (to_json (envelope id (Err (message (SVault e))) changes)) None, x')
          end
      end
  end.
(** The requests of a page, one after the other. *)
Fixpoint session_all (reqs : list (Chance * rstring * option bytes)) (x : Se) : list SessionReply * Se :=
  match reqs with
  | [] => ([], x)
  | (ch, request, payload) :: reqs =>
      let '(y, x) := session_handle ch request payload x in let '(ys, x) := session_all reqs x in (y :: ys, x)
  end.
End session.
