(* ===== verification/BrowserSpec.v ===== *)
(** * What the browser's session promises

    Every request gets one well-formed reply with its own id.  Whatever requests a page
    makes, the files that say who the device is, which vault it is in and who founded
    it stay as they are, so that the vault opens again as the same one. *)
From S2P Require Import Prelude RustStr Vfs Roster Wire Logs Keychain Blob Trust Store StoreRoster StoreSync.
From S2P Require Import StoreKeys Checkpoint Textdiff Rebase Paths Bridge BridgeSpec StoreEdit Snapshots Relay RelaySpec Pairing Browser.
From stdpp Require Import pretty.

(** ** Envelopes *)
(** The changes a reply tells of, if any. *)
Inductive told : list (rstring * Value) → Prop :=
  | told_none : told []
  | told_some cs : cs ≠ [] → told [(str "changes", VArray (change_value <$> cs))].
(** An object with the id, one of [ok] and [error], perhaps the changes, and nothing else,
    each key once and in order. *)
Inductive envelope_of (id : Value) : Value → Prop :=
  | envelope_ok ch x : told ch → envelope_of id (VObject (ch ++ [(str "id", id); (str "ok", x)]))
  | envelope_error ch m : told ch → envelope_of id (VObject (ch ++ [(str "error", VString m); (str "id", id)])).
Lemma envelope_wf id r changes : envelope_of id (envelope id r changes).
Proof.
  unfold envelope. destruct r as [x|m]; case_decide as Hc.
  - apply (envelope_ok _ []), told_none.
  - apply (envelope_ok _ [(str "changes", VArray (change_value <$> changes))]). by apply told_some.
  - apply (envelope_error _ []), told_none.
  - apply (envelope_error _ [(str "changes", VArray (change_value <$> changes))]). by apply told_some.
Qed.
Lemma envelope_says id r changes :
  match r with
  | Ok x => field (str "ok") (envelope id r changes) = Some x ∧ field (str "error") (envelope id r changes) = None
  | Err m => field (str "ok") (envelope id r changes) = None ∧ field (str "error") (envelope id r changes) = Some (VString m)
  end.
Proof. unfold envelope. destruct r; case_decide; by split. Qed.

Section replies.
Context `{Ed25519, Crypto, EdX, B64, B64Url, KeyedHash, Negentropy, EntryPeer}.
Context `{JsonOf EntryLine, JsonOf RosterLine, JsonOf (list PeerRecord), JsonOf KeyLine, JsonOf Marker}.
Context `{JsonOf HeldSnapshot, JsonOf SnapshotManifest, JsonOf TrustBundle, JsonOf Value, CommandOf}.
Context {Fs Doc Ver Fr : Type} `{VaultFs Fs, DocOps Doc Ver, DocHistory Doc, DocText Doc Ver Fr, DocDelta Doc}.
Context {Bk : Type} `{Backend Bk}.
Variable pick : gset u64 → option u64.
Variable fuel depth : nat.
Variable message : SessionError → rstring.
Abbreviation St := (Store Fs Doc Ver).
Abbreviation Se := (Session St Bk).
Abbreviation handled := (session_handle (Fs := Fs) (Doc := Doc) (Ver := Ver) (Bk := Bk) pick fuel depth message).

(** The id a reply has to carry, and the command a request asks for. *)
Definition id_of (request : rstring) : Value :=
  match from_json request with Some p => default VNull (field (str "id") p) | None => VNull end.
Definition asked (request : rstring) : option Command := from_json request ≫= command_of.

(** Bytes come only with the value of [getBlob]. *)
Lemma run_bytes ch c payload (x : Se) v b x' :
  session_run pick fuel depth ch c payload x = (Ok (v, Some b), x') →
  ∃ hash, c = GetBlob hash ∧ x' = x ∧ v = object [(str "len", VNum (Z.of_nat (length b)))] ∧
    blob_get (blobs_of (va_store (se_vault x))) hash (fs (va_store (se_vault x))) = Ok (Some b).
Proof.
  assert (∀ (m : SM Se VaultError Value), (v' ← m; mret (v', None)) x = (Ok (v, Some b), x') → False) as Hno.
  { intros m. unfold mbind, SM_bind. destruct (m x) as [[v1|e] x1]; by intros. }
  destruct c; cbn [session_run]; try (lazymatch goal with |- context [session_value ?p ?f ?d ?ch ?c] => intros E; by destruct (Hno (session_value p f d ch c) E) end).
  - unfold mbind, SM_bind, sm_lift. destruct (ok_or payload VPayload); [|by intros]. unfold vault_put_blob, on_store, map_err.
    destruct (on_fs _ _) as [[h|e] s]; by intros.
  - unfold mbind, SM_bind, vault_get_blob, look_in. destruct (blob_get _ _ _) as [[b0|]|e] eqn:E; simpl; intros E'; [|by injection E'..|by injection E'].
    injection E' as <- <- <-. by exists hash.
  - unfold mbind, SM_bind, look. by intros.
Qed.
(** C29: Every request gets one well-formed reply: whatever text and bytes arrive, the reply is an object with the
    request's id (null if there is none), exactly one of [ok] and [error], the changes only
    when there are any, and no other key; a request that is not JSON, or names no command,
    gets an error and changes nothing; bytes beside the envelope are those of the blob that a
    [getBlob] asked for, with their length in the envelope. *)
Theorem session_replies ch request payload (x : Se) :
  let '(y, x') := handled ch request payload x in
  (∃ v, json y = to_json v ∧ envelope_of (id_of request) v ∧
    (asked request = None → x' = x ∧ field (str "ok") v = None) ∧
    (∀ b, reply_bytes y = Some b → ∃ hash,
      asked request = Some (GetBlob hash) ∧ x' = x ∧
      field (str "ok") v = Some (object [(str "len", VNum (Z.of_nat (length b)))]) ∧
      blob_get (blobs_of (va_store (se_vault x))) hash (fs (va_store (se_vault x))) = Ok (Some b))).
Proof.
  unfold session_handle, id_of, asked. destruct (from_json request) as [p|]; cbn [mbind option_bind].
  2:{ eexists. split_and!; [done|apply envelope_wf|by split|by intros]. }
  destruct (command_of p) as [c|]; [|eexists; split_and!; [done|apply envelope_wf|by split|by intros]].
  destruct (session_run pick fuel depth ch c payload x) as [[[v b]|e] x'] eqn:E; eexists;
    (split_and!; [done|apply envelope_wf|by intros|]); cbn [reply_bytes]; [|by intros].
  intros b' ->. destruct (run_bytes _ _ _ _ _ _ _ E) as (hash&->&->&->&Hb). exists hash. split_and!; [done|done| |done].
  by apply (envelope_says (default VNull (field (str "id") p)) (Ok (object [(str "len", VNum (Z.of_nat (length b')))]))).
Qed.
End replies.

(** ** Files at the top of the vault that stay *)
Section keeps.
Context (r : path) (K : rstring → Prop).
Definition keeps : relation (gmap path bytes) := λ m m', ∀ n, K n → m' !! (r ++ [n]) = m !! (r ++ [n]).
#[global] Instance keeps_preorder : PreOrder keeps.
Proof. split; [done|]. intros m1 m2 m3 H1 H2 n Hn. rewrite H2 by done. by apply H1. Qed.
Lemma free_keeps q : (∀ n, K n → q ≠ r ++ [n]) → free keeps q.
Proof. intros Hq m m' Hm n Hn. apply Hm. intros E. by apply (Hq n Hn). Qed.
Lemma free_in d n : free keeps (in_vault r d n).
Proof. apply free_keeps. intros n' _ E. apply (inj (app r)) in E. discriminate E. Qed.
Lemma free_other n : ¬ K n → free keeps (r ++ [n]).
Proof. intros Hn. apply free_keeps. intros n' Hn' E. apply (inj (app r)) in E. injection E as ->. done. Qed.
Lemma grows_keeps me m m' : (∀ n, K n → n ∉ local_files) → vault_grows r me m m' → keeps m m'.
Proof. intros HK Hg n Hn. by apply (vg_top _ _ _ _ Hg), HK. Qed.

Context {Fs : Type} `{VaultFsLaws Fs}.
Hypothesis Hpaths : ∀ q, r `prefix_of` q → fs_path q.
Lemma keeps_write d n b : moves keeps (fs_write (Fs := Fs) (in_vault r d n) b).
Proof. apply (moves_write r _ Hpaths); [apply in_vault_under|apply free_in]. Qed.
Lemma keeps_append d n b : moves keeps (fs_append (Fs := Fs) (in_vault r d n) b).
Proof. apply (moves_append r _ Hpaths); [apply in_vault_under|apply free_in]. Qed.
Lemma ident_keeps_remove d n : moves keeps (fs_remove_file (Fs := Fs) (in_vault r d n)).
Proof. apply (moves_remove r _ Hpaths); [apply in_vault_under|apply free_in]. Qed.
Lemma keeps_rename d n d' n' : in_vault r d n ≠ in_vault r d' n' → moves keeps (fs_rename (Fs := Fs) (in_vault r d n) (in_vault r d' n')).
Proof. intros Hne. apply (moves_rename r _ Hpaths); auto using in_vault_under, free_in. Qed.
Lemma keeps_line {L} `{JsonOf L} d n (l : L) : moves keeps (append_line (Fs := Fs) (in_vault r d n) l).
Proof. apply (moves_append_line r _ Hpaths); [apply in_vault_under|]. intros m b. apply (free_in d n). intros x Hx. by rewrite lookup_insert_ne. Qed.
Lemma keeps_write_top n b : ¬ K n → moves keeps (fs_write (Fs := Fs) (r ++ [n]) b).
Proof. intros Hn. apply (moves_write r _ Hpaths); [by eexists|by apply free_other]. Qed.
Lemma keeps_rename_top n n' : ¬ K n → ¬ K n' → n ≠ n' → moves keeps (fs_rename (Fs := Fs) (r ++ [n]) (r ++ [n'])).
Proof.
  intros Hn Hn' Hne. apply (moves_rename r _ Hpaths); [by eexists|by apply free_other|by eexists|by apply free_other|].
  intros E. apply (inj (app r)) in E. by injection E.
Qed.
End keeps.
#[export] Hint Resolve keeps_write keeps_append ident_keeps_remove keeps_rename keeps_line keeps_write_top keeps_rename_top : moves.

(** ** The store's operations *)
Section keeping.
Context `{Ed25519, CryptoLaws, EdX, B64, B64Url, KeyedHash}.
Context `{JsonOf EntryLine, JsonOf RosterLine, JsonOf (list PeerRecord), JsonOf KeyLine, JsonOf Marker}.
Context {Fs Doc Ver Fr : Type} `{VaultFsLaws Fs, DocOps Doc Ver, DocHistory Doc, DocText Doc Ver Fr}.
Variable pick : gset u64 → option u64.
Variable fuel : nat.
Context (r : path) (i : Identity) (K : rstring → Prop).
Hypothesis Hpaths : ∀ q, r `prefix_of` q → fs_path q.
Hypothesis HK : ∀ n, K n → n ∉ local_files.
Abbreviation St := (Store Fs Doc Ver).
Abbreviation kp := (smoves r i (keeps r K)).

Lemma smoves_grows {E A} (m : SM St E A) : smoves r i (vault_grows r (id_peer i)) m → kp m.
Proof. intros Hm s Hs. destruct (Hm s Hs) as [Hv Hg]. split; [done|]. by eapply grows_keeps. Qed.
Lemma kp_refresh : kp (refresh_peers pick fuel : SM St StorageError unit).
Proof. apply smoves_grows, smoves_refresh, Hpaths. Qed.
Lemma kp_persist : kp (persist_new_ops : SM St StorageError unit).
Proof.
  unfold persist_new_ops, export_and_append, oplog_append. solve_moves. unfold own_log. rewrite Eroot, Eid.
  destruct (ops_file_in r (id_peer i)) as [nm En]. unfold ops_file in En. rewrite En. by apply keeps_line.
Qed.
Lemma kp_author o subject key : kp (author_op pick fuel o subject key : SM St StorageError unit).
Proof.
  pose proof kp_refresh. unfold author_op, roster_append. solve_moves. unfold own_roster. rewrite Eroot, Eid.
  destruct (roster_file_in r (id_peer i)) as [nm En]. unfold roster_file in En. rewrite En. by apply keeps_line.
Qed.
Lemma kp_admin o subject key : kp (admin_op pick fuel o subject key : SM St StorageError unit).
Proof. pose proof kp_author. unfold admin_op. solve_moves. Qed.
Lemma kp_edit (m : SM Doc StorageError unit) : kp (_ ← on_doc m; persist_new_ops : SM St StorageError unit).
Proof. pose proof kp_persist. solve_moves. Qed.
Lemma kp_rotate rng nonce key id0 e0 paper : kp (rotate_epoch rng nonce key id0 e0 paper : SM St StorageError bytes).
Proof.
  unfold rotate_epoch, append_bodies, key_append. solve_moves. unfold own_keylog. rewrite Eroot, Eid.
  destruct (key_file_in r (id_peer i)) as [nm En]. rewrite En. by apply keeps_line.
Qed.
Lemma moves_absent q : moves (keeps r K) (fs_remove_file (Fs := Fs) q) → moves (keeps r K) (remove_if_present (Fs := Fs) q).
Proof.
  intros Hm f Hf. unfold remove_if_present. specialize (Hm f Hf). destruct (fs_remove_file q f) as [[[]|[]] f']; done.
Qed.
Lemma assets_in n : assets_dir r ++ [n] = in_vault r (str "assets") n.
Proof. unfold assets_dir. by rewrite <-(assoc_L (++)). Qed.
Lemma keeps_blob_remove h : moves (keeps r K) (blob_remove (Fs := Fs) (assets_dir r) h).
Proof.
  intros f Hf. unfold blob_remove, blob_path. destruct (is_valid_hash h); [|by split].
  unfold mbind, SM_bind, sm_lift. rewrite assets_in. by apply (moves_absent _ (ident_keeps_remove r K Hpaths (str "assets") h)).
Qed.
Lemma keeps_reclaim refs freed hs : moves (keeps r K) (reclaim (Fs := Fs) (assets_dir r) refs freed hs).
Proof. pose proof keeps_blob_remove. revert freed. induction hs as [|h hs IH]; intros freed; simpl; solve_moves. Qed.
(** Staging beside a file whose name ends in [.jsonl]. *)
Lemma keeps_stage d n b :
  last n = Some 108%N →
  moves (keeps r K) (_ ← io (fs_write (Fs := Fs) (with_extension (in_vault r d n) (str "jsonl.tmp")) b);
                     io (fs_rename (with_extension (in_vault r d n) (str "jsonl.tmp")) (in_vault r d n))).
Proof.
  intros Hn. rewrite with_extension_vault. solve_moves. apply keeps_rename; [done|].
  intros [_ E]%in_vault_inj. rewrite <-E, last_app in Hn. discriminate Hn.
Qed.
Lemma ops_named p : ∃ n, ops_file r p = in_vault r (str "ops") n ∧ last n = Some 108%N.
Proof.
  exists (str ("ops" +:+ "-" +:+ pretty p +:+ ".jsonl")). split.
  - unfold ops_file, OpLog_new, log_path, ops_dir, in_vault. simpl. by rewrite <-(assoc_L (++)).
  - rewrite !str_app, !last_app. done.
Qed.
Lemma keeps_truncate p n : moves (keeps r K) (truncate_leading_lines (Fs := Fs) (log_file r p) n).
Proof.
  intros f Hf. unfold truncate_leading_lines, log_file. destruct (ops_named p) as (nm&->&Hnm).
  destruct (fs_read_to_string _ f) as [t|[]]; try by split. by apply keeps_stage.
Qed.
Lemma moves_iter {A} (g : A → SM Fs StorageError unit) l : (∀ a, moves (keeps r K) (g a)) → moves (keeps r K) (sm_iter g l).
Proof. intros Hg. induction l as [|a l IH]; simpl; solve_moves. Qed.
Lemma kp_checkpoint before : kp (checkpoint before : SM St StorageError u64).
Proof.
  assert (∀ b, moves (keeps r K) (snapshot_save (Fs := Fs) (snapshot_path r) b)) as Hsave.
  { intros b. unfold snapshot_save. rewrite snap_path, with_extension_vault. solve_moves.
    apply keeps_rename; [done|]. by intros [_ E]%in_vault_inj. }
  assert (∀ all z, moves (keeps r K) (rewrite_history (Fs := Fs) (history_dir r) all z)) as Hhist.
  { intros all z. unfold rewrite_history. cbv zeta.
    change (history_path (history_dir r)) with ((r ++ [str "history"]) ++ [str "history.jsonl"]). rewrite <-(assoc_L (++)).
    by apply (keeps_stage (str "history") (str "history.jsonl")). }
  pose proof keeps_reclaim. pose proof keeps_truncate.
  unfold checkpoint, truncate_logs. solve_moves. by apply moves_iter.
Qed.
End keeping.

(** ** Requests *)
Section requests.
Context `{Ed25519, CryptoLaws, EdX, B64, B64Url, !B64UrlNames, KeyedHashLaws, NegentropyIds, EntryPeer}.
Context `{JsonOf EntryLine, JsonOf RosterLine, JsonOf (list PeerRecord), JsonOf KeyLine, JsonOf Marker}.
Context `{JsonOf HeldSnapshot, JsonOf SnapshotManifest, JsonOf TrustBundle, JsonOf Value, CommandOf}.
Context {Fs Doc Ver Fr : Type} `{VaultFsLaws Fs, DocOps Doc Ver, DocHistory Doc, DocText Doc Ver Fr, DocDelta Doc}.
Context {Bk : Type} `{Backend Bk}.
Variable pick : gset u64 → option u64.
Variable fuel depth : nat.
Variable message : SessionError → rstring.
Hypothesis Hpaths : ∀ q, ROOT `prefix_of` q → fs_path q.
Abbreviation St := (Store Fs Doc Ver).
Abbreviation Se := (Session St Bk).
Variable i : Identity.
Definition stays (n : rstring) : Prop := n ∉ local_files.
Abbreviation kp := (smoves ROOT i (keeps ROOT stays)).
Abbreviation store_of x := (va_store (se_vault x)).
(** What a request leaves alone. *)
Definition same_vault (x x' : Se) : Prop :=
  vault_at ROOT i (store_of x') ∧ keeps ROOT stays (files (fs (store_of x))) (files (fs (store_of x'))) ∧
  va_key (se_vault x') = va_key (se_vault x) ∧ va_identity (se_vault x') = va_identity (se_vault x) ∧
  va_vault_id (se_vault x') = va_vault_id (se_vault x).
Definition qmoves {A} (m : SM Se VaultError A) : Prop := ∀ x, vault_at ROOT i (store_of x) → same_vault x (m x).2.
Lemma same_vault_refl x : vault_at ROOT i (store_of x) → same_vault x x.
Proof. intros Hx. by split_and!. Qed.
Lemma same_vault_trans x y z : same_vault x y → same_vault y z → same_vault x z.
Proof. intros (_&K1&A1&B1&C1) (V2&K2&A2&B2&C2). split_and!; [done|by etrans|congruence..]. Qed.
Lemma q_pure {A} (m : SM Se VaultError A) : (∀ x, (m x).2 = x) → qmoves m.
Proof. intros Hm x Hx. rewrite Hm. by apply same_vault_refl. Qed.
Lemma q_bind {A B} (m : SM Se VaultError A) (k : A → SM Se VaultError B) : qmoves m → (∀ a, qmoves (k a)) → qmoves (m ≫= k).
Proof.
  intros Hm Hk x Hx. specialize (Hm x Hx). unfold mbind, SM_bind. destruct (m x) as [[a|e] x1]; [|done].
  eapply same_vault_trans; [exact Hm|]. apply Hk. apply Hm.
Qed.
Lemma q_store {A} (m : SM St StorageError A) : kp m → qmoves (on_store m).
Proof.
  intros Hm x Hx. unfold on_store. destruct (Hm _ Hx) as [Hv Hk]. destruct (m (store_of x)) as [res s']. by split_and!.
Qed.
Lemma stays_local n : stays n → n ∉ local_files.
Proof. done. Qed.
Lemma q_sync o : qmoves (vault_sync pick fuel o : SM Se VaultError unit).
Proof.
  intros x Hx. unfold vault_sync.
  pose proof (pm_pass pick fuel ROOT i Hpaths o (va_key (se_vault x)) (mkPass (store_of x) (se_backend x) 0) Hx) as Hm.
  destruct (reconcile_once _ _ _ _ _) as [res p]. destruct Hm as [Hv Hg]. split_and!; [done| |done..].
  by eapply grows_keeps; [apply stays_local|].
Qed.
Lemma q_run ch c payload : qmoves (session_run pick fuel depth ch c payload : SM Se VaultError (Value * option bytes)).
Proof.
  pose proof (λ o p k, kp_admin (Doc := Doc) (Ver := Ver) pick fuel ROOT i stays Hpaths stays_local o p k) as Hadmin.
  pose proof (λ m, kp_edit (Doc := Doc) (Ver := Ver) ROOT i stays Hpaths m) as Hedit.
  assert (∀ {A} (m : SM Se VaultError A), qmoves m → ∀ {B} (g : A → B), qmoves (a ← m; mret (g a))) as Hmap.
  { intros A m Hm B g. apply q_bind; [done|]. intros a. by apply q_pure. }
  destruct c; cbn [session_run session_value]; repeat first [apply Hmap | apply q_bind; [by apply q_pure|intros ?]].
  all: first [by apply q_pure|by apply q_sync|idtac].
  all: try (apply q_store; first [apply Hedit|apply Hadmin]).
  - apply q_store, (smoves_grows ROOT i stays stays_local), smoves_write_snapshot, Hpaths.
  - apply q_store. intros s' Hs. unfold blobs_of. destruct Hs as (Hi&Hr&Hid). rewrite Hr.
    apply (smoves_grows ROOT i stays stays_local _ (smoves_blob_put ROOT i Hpaths a)). by split_and!.
  - apply q_store. intros s' Hs. unfold blobs_of. destruct Hs as (Hi&Hr&Hid). rewrite Hr.
    apply (smoves_on_fs ROOT i _ _ (keeps_blob_remove ROOT stays Hpaths hash)). by split_and!.
  - apply q_store, kp_checkpoint, Hpaths.
  - intros x Hx. exact (q_store _ (kp_rotate ROOT i stays Hpaths _ _ _ _ _ _) x Hx).
Qed.
Lemma handle_same ch request payload x :
  vault_at ROOT i (store_of x) → same_vault x (session_handle pick fuel depth message ch request payload x).2.
Proof.
  intros Hx. unfold session_handle. destruct (from_json request) as [p|]; [|by apply same_vault_refl].
  destruct (command_of p) as [c|]; [|by apply same_vault_refl]. pose proof (q_run ch c payload x Hx) as Hq.
  destruct (session_run pick fuel depth ch c payload x) as [[[v b]|e] x']; exact Hq.
Qed.
Lemma all_same reqs x :
  vault_at ROOT i (store_of x) → same_vault x (session_all pick fuel depth message reqs x).2.
Proof.
  revert x. induction reqs as [|[[ch request] payload] reqs IH]; intros x Hx; simpl; [by apply same_vault_refl|].
  pose proof (handle_same ch request payload x Hx) as Hs. destruct (session_handle _ _ _ _ _ _ _ _) as [y x1].
  specialize (IH x1 (proj1 Hs)). destruct (session_all _ _ _ _ _ _) as [ys x2]. by eapply same_vault_trans.
Qed.
End requests.

(** ** Opening again *)
Section settled.
Context `{Ed25519, CryptoLaws, EdX, B64Laws, B64Url, KeyedHash}.
Context `{JsonText IdentityFile, JsonOf EntryLine, JsonOf RosterLine, JsonOf (list PeerRecord), JsonOf KeyLine, JsonOf Marker}.
Context {Fs Doc Ver Fr : Type} `{VaultFsLaws Fs, DocOps Doc Ver, DocHistory Doc, DocText Doc Ver Fr}.
Variable pick : gset u64 → option u64.
Variable fuel : nat.
Hypothesis Hpaths : ∀ q, ROOT `prefix_of` q → fs_path q.
Abbreviation St := (Store Fs Doc Ver).

(** The files say who the device is, which vault it is in, and that it has a founder. *)
Record settled (id : Identity) (vid : bytes) (f : Fs) : Prop := {
  st_inv : fs_inv f;
  st_identity : load_with_fs IDENTITY f = Ok id;
  st_vault : files f !! VAULT_ID = Some vid;
  st_length : length vid = 32;
  st_founder : ∃ p, read_founder ROOT f = Ok (Some p);
}.
Lemma load_same (f f' : Fs) : fs_inv f → fs_inv f' → files f' !! IDENTITY = files f !! IDENTITY →
  load_with_fs IDENTITY f' = load_with_fs IDENTITY f.
Proof. intros Hf Hf' E. unfold load_with_fs. by rewrite !fs_read_spec, E. Qed.
Lemma founder_same (f f' : Fs) : fs_inv f → fs_inv f' → files f' !! founder_path ROOT = files f !! founder_path ROOT →
  read_founder ROOT f' = read_founder ROOT f.
Proof. intros Hf Hf' E. unfold read_founder. by rewrite !fs_read_spec, E. Qed.
Lemma keeps_settled id vid (f f' : Fs) :
  fs_inv f' → keeps ROOT stays (files f) (files f') → settled id vid f → settled id vid f'.
Proof.
  intros Hf' Hk [Hf Hid Hv Hl [p Hp]]. split; [done| | |done|].
  - rewrite <-Hid. apply load_same; [done..|]. apply (Hk (str "identity.key")). decide_true.
  - rewrite <-Hv. apply (Hk (str "vault.id")). decide_true.
  - exists p. rewrite <-Hp. apply founder_same; [done..|]. apply (Hk (str "founder")). decide_true.
Qed.
(** Calls that leave the pin in memory alone. *)
Definition pinned {E A} (m : SM St E A) : Prop := ∀ s, founder (m s).2 = founder s.
Lemma pinned_bind {E A B} (m : SM St E A) (k : A → SM St E B) : pinned m → (∀ a, pinned (k a)) → pinned (m ≫= k).
Proof. intros Hm Hk s. unfold mbind, SM_bind. specialize (Hm s). destruct (m s) as [[a|e] s1]; [|done]. by rewrite Hk. Qed.
Lemma pinned_on_fs {A} (m : SM Fs StorageError A) : pinned (on_fs m).
Proof. intros s. unfold on_fs. by destruct (m (fs s)). Qed.
Lemma pinned_cache : pinned (write_peers_cache : SM St StorageError unit).
Proof. unfold write_peers_cache. apply pinned_bind; [done|]. intros s0. repeat (apply pinned_bind; [apply pinned_on_fs|intros _]). apply pinned_on_fs. Qed.
(** Opening a store: the founder it holds is the one on disk, and only the cache is written. *)
Lemma open_with_spec id (f : Fs) (s : St) f' :
  fs_inv f → open_with_fs pick fuel ROOT id f = (Ok s, f') →
  vault_at ROOT id s ∧ fs s = f' ∧ read_founder ROOT f = Ok (founder s) ∧ keeps ROOT stays (files f) (files f').
Proof.
  intros Hf. unfold open_with_fs. cbv zeta. destruct (read_founder ROOT f) as [fd|e]; cbn [mbind result_bind]; [|done].
  destruct (rebuild_peers _ _ _ _ _ _ f) as [ps|e]; cbn [mbind result_bind]; [|done].
  destruct (snapshot_load _ f) as [snap|e]; cbn [mbind result_bind]; [|done].
  destruct (match snap with Some _ => _ | None => _ end) as [d|e]; cbn [mbind result_bind]; [|done].
  destruct (oplog_read_verified _ _ f) as [own|e]; cbn [mbind result_bind]; [|done].
  destruct (fst _) as [d'|e]; cbn [mbind result_bind]; [|done]. unfold mret, result_ret.
  set (s0 := mkStore ROOT id (doc_commit d') (doc_version (doc_commit d')) ps fd f).
  assert (smoves ROOT id (keeps ROOT stays) (_ ← on_fs (io (fs_create_dir_all (ROOT ++ [str "assets"]))); write_peers_cache : SM St StorageError unit)) as Hm.
  { pose proof (smoves_grows (Doc := Doc) (Ver := Ver) ROOT id stays stays_local _ (smoves_write_cache ROOT id Hpaths)). solve_moves. }
  assert (vault_at ROOT id s0) as Hs0 by (by split_and!). destruct (Hm s0 Hs0) as [Hv Hk].
  assert (pinned (_ ← on_fs (io (fs_create_dir_all (ROOT ++ [str "assets"]))); write_peers_cache : SM St StorageError unit)) as Hp
    by (apply pinned_bind; [apply pinned_on_fs|intros _; apply pinned_cache]).
  specialize (Hp s0). destruct ((_ ← on_fs _; write_peers_cache) s0) as [[[]|e] s1]; intros [= <- <-]. cbn [snd] in *. split_and!; [done..|by rewrite Hp|done].
Qed.
Lemma settled_reopens id vid (f : Fs) fi fv key :
  settled id vid f →
  vault_open pick fuel fi fv key f =
    match open_with_fs pick fuel ROOT id f with
    | (Ok s, f') => (Ok (mkVault (s : St) key id vid), f')
    | (Err e, f') => (Err (VStore e), f')
    end.
Proof.
  intros [Hf Hid Hv Hl [p Hp]]. unfold vault_open, mbind at 1, SM_bind at 1, sm_map_err at 1, load_or_generate_identity.
  rewrite Hid. cbn [map_err fst snd]. unfold mbind at 1, SM_bind at 1, load_or_generate_vault_id. rewrite (fs_read_spec VAULT_ID) by done. rewrite Hv. cbn [ok_or].
  rewrite decide_True by done. unfold mbind at 1, SM_bind at 1, open_store.
  destruct (open_with_fs pick fuel ROOT id f) as [[s|e] f'] eqn:E; [|done]. cbn [map_err].
  destruct (open_with_spec id f s f' Hf E) as (_&Hfs&Hpin&_). rewrite Hp in Hpin. injection Hpin as Hpin.
  unfold founder_pin. rewrite decide_False by (by rewrite <-Hpin). unfold mbind, SM_bind, with_store. simpl. by rewrite Hfs.
Qed.
(** *** Making the files *)
Definition identity_files : list rstring := [str "identity.key"; str "identity.key.tmp"].
Definition founder_files : list rstring := [str "founder"; str "founder.tmp"].
Abbreviation kept N := (keeps ROOT (λ n, n ∉ N)).
Lemma save_keeps id : moves (kept identity_files) (save_with_fs (Fs := Fs) id IDENTITY).
Proof.
  unfold save_with_fs. unfold IDENTITY at 2 3 4. rewrite with_extension_snoc. solve_moves.
  - apply keeps_write_top; [done|decide_true].
  - intros f Hf.
    pose proof (fs_set_owner_only_spec (ROOT ++ [file_stem (str "identity.key") ++ DOT :: str "key.tmp"]) f Hf (Hpaths _ (ltac:(by eexists)))) as Ho.
    destruct (fs_set_owner_only _ f) as [x f']. destruct Ho as [Hi Ho]. simpl. split; [done|]. by rewrite Ho.
  - apply keeps_rename_top; [done|decide_true..].
Qed.
Lemma saved_loads id (f f' : Fs) :
  fs_inv f → length (id_secret id) = 32 → save_with_fs id IDENTITY f = (Ok tt, f') →
  fs_inv f' ∧ load_with_fs IDENTITY f' = Ok id ∧ kept identity_files (files f) (files f').
Proof.
  intros Hf Hl Hs. destruct (save_keeps id f Hf) as [Hf' Hk]. rewrite Hs in Hf', Hk. split_and!; [done| |done].
  apply (identity_save_load id IDENTITY f f'); [done|apply Hpaths; by eexists|apply Hpaths; by eexists|decide_true|done|done].
Qed.
Lemma identity_loads fresh (f f' : Fs) id :
  fs_inv f → length fresh = 32 → load_or_generate_identity fresh f = (Ok id, f') → fs_inv f' ∧ load_with_fs IDENTITY f' = Ok id.
Proof.
  intros Hf Hl. unfold load_or_generate_identity. destruct (load_with_fs IDENTITY f) as [id0|e] eqn:E.
  { intros [= <- <-]. done. }
  unfold mbind, SM_bind. destruct (save_with_fs (generate fresh) IDENTITY f) as [[[]|e0] f1] eqn:Es; [|done]. intros [= <- <-].
  destruct (saved_loads (generate fresh) f f1) as (?&?&_); done.
Qed.
Lemma vault_id_loads fresh id (f f' : Fs) vid :
  fs_inv f → length fresh = 32 → load_with_fs IDENTITY f = Ok id → load_or_generate_vault_id fresh f = (Ok vid, f') →
  fs_inv f' ∧ load_with_fs IDENTITY f' = Ok id ∧ files f' !! VAULT_ID = Some vid ∧ length vid = 32.
Proof.
  intros Hf Hl Hid. unfold load_or_generate_vault_id. rewrite fs_read_spec by done.
  destruct (files f !! VAULT_ID) as [b|] eqn:E; cbn [ok_or]; [case_decide; [|done]; intros [= <- <-]; done|].
  unfold mbind, SM_bind, sm_map_err. pose proof (fs_create_dir_all_spec ROOT f Hf) as Hd.
  destruct (fs_create_dir_all ROOT f) as [x f1]. destruct Hd as (->&Hf1&E1). cbn [map_err fst snd].
  assert (fs_path VAULT_ID) as Hp by (apply Hpaths; by eexists). pose proof (fs_write_spec VAULT_ID fresh f1 Hf1 Hp) as Hw.
  destruct (fs_write VAULT_ID fresh f1) as [[[]|e] f2]; [|done]. destruct Hw as [Hf2 E2]. intros [= <- <-]. cbn [files_after] in E2.
  split_and!; [done| |by rewrite E2, lookup_insert_eq|done]. rewrite <-Hid. apply load_same; [done..|].
  rewrite E2, lookup_insert_ne by decide_true. by rewrite E1.
Qed.
Lemma founder_written p (f f' : Fs) :
  fs_inv f → write_founder ROOT p f = (Ok tt, f') →
  fs_inv f' ∧ kept founder_files (files f) (files f') ∧ ∃ q, read_founder ROOT f' = Ok (Some q).
Proof.
  intros Hf Hw.
  assert (moves (kept founder_files) (write_founder (Fs := Fs) ROOT p)) as Hm.
  { unfold write_founder, founder_path. rewrite with_extension_snoc. solve_moves.
    - apply keeps_write_top; [done|decide_true].
    - apply keeps_rename_top; [done|decide_true..]. }
  destruct (Hm f Hf) as [Hf' Hk]. rewrite Hw in Hf', Hk. split_and!; [done..|].
  revert Hw. unfold write_founder, mbind, SM_bind, io, sm_map_err. set (tmp := with_extension _ _).
  assert (fs_path tmp) as Ht by (apply Hpaths; by eexists). assert (fs_path (founder_path ROOT)) as Hp by (apply Hpaths; by eexists).
  pose proof (fs_create_dir_all_spec ROOT f Hf) as Hd. destruct (fs_create_dir_all ROOT f) as [x f1].
  destruct Hd as (->&Hf1&E1). cbn [map_err fst snd]. pose proof (fs_write_spec tmp (le_bytes 8 p) f1 Hf1 Ht) as Hw.
  destruct (fs_write tmp _ f1) as [[[]|e] f2]; [|done]. destruct Hw as [Hf2 E2]. cbn [map_err fst snd files_after] in *.
  assert (tmp ≠ founder_path ROOT) as Hne by decide_true. pose proof (fs_rename_spec tmp (founder_path ROOT) f2 Hf2 Ht Hp Hne) as Hr.
  destruct (fs_rename tmp _ f2) as [[[]|e] f3]; [|done]. destruct Hr as [Hf3 E3]. intros [= <-].
  rewrite E2, lookup_insert_eq in E3. cbn [files_after] in E3. exists (from_le (le_bytes 8 p)).
  unfold read_founder. rewrite fs_read_spec, E3, lookup_insert_eq by done. cbn [ok_or]. by rewrite decide_True by apply length_le_bytes.
Qed.
(** What founding or pinning ends with. *)
Definition pinned_at (i : Identity) (s s' : St) : Prop :=
  vault_at ROOT i s' ∧ kept (founder_files ++ local_files) (files (fs s)) (files (fs s')) ∧ ∃ p, read_founder ROOT (fs s') = Ok (Some p).
Lemma pinned_keep i (s s1 s2 : St) :
  pinned_at i s s1 → vault_at ROOT i s2 → keeps ROOT stays (files (fs s1)) (files (fs s2)) → pinned_at i s s2.
Proof.
  intros (V1&K1&p&Hp) V2 K2. split_and!; [done| |].
  - intros n Hn. rewrite K2; [by apply K1|]. unfold stays. set_solver.
  - exists p. rewrite <-Hp. apply founder_same; [apply V1|apply V2|]. apply (K2 (str "founder")). decide_true.
Qed.
(** Writing the pin, then anything that leaves it alone. *)
Lemma pin_then i p (k : SM St StorageError unit) (s s' : St) :
  vault_at ROOT i s → smoves ROOT i (keeps ROOT stays) k →
  (_ ← on_fs (write_founder ROOT p); _ ← modify (set_founder (Some p)); k) s = (Ok tt, s') → pinned_at i s s'.
Proof.
  intros (Hf&Hr&Hi) Hk. unfold mbind, SM_bind, on_fs. destruct (write_founder ROOT p (fs s)) as [[[]|e] f1] eqn:Ew; [|done].
  destruct (founder_written p (fs s) f1 Hf Ew) as (Hf1&K1&q&Hq). unfold modify.
  set (s1 := set_founder (Some p) (set_fs f1 s)). assert (vault_at ROOT i s1) as V1 by (by split_and!).
  intros E. destruct (Hk s1 V1) as [V2 K2]. rewrite E in V2, K2. apply (pinned_keep i s s1); [|done..]. split_and!; [done| |by exists q].
  intros n Hn. apply K1. set_solver.
Qed.
Lemma founder_declared i (s s' : St) :
  vault_at ROOT i s → declare_founder pick fuel Admin s = (Ok tt, s') → pinned_at i s s'.
Proof.
  intros Hs. unfold declare_founder. rewrite decide_False by (by intros E; apply E). pose proof Hs as (Hf&Hr&Hi).
  unfold mbind at 1, SM_bind at 1, sm_get. unfold mbind at 1, SM_bind at 1, sm_lift. rewrite Hr.
  destruct (read_founder ROOT (fs s)) as [[q|]|e]; [done| |done]. cbv zeta. apply pin_then; [done|].
  apply kp_author; [done|apply stays_local].
Qed.
Lemma founder_pinned i p (s s' : St) : vault_at ROOT i s → pin_founder pick fuel p s = (Ok tt, s') → pinned_at i s s'.
Proof.
  intros Hs. unfold pin_founder. pose proof Hs as (Hf&Hr&Hi). unfold mbind at 1, SM_bind at 1, sm_get.
  unfold mbind at 1, SM_bind at 1, sm_lift. rewrite Hr. destruct (read_founder ROOT (fs s)) as [[q|]|e] eqn:E; [| |done].
  - case_decide; [|done]. intros [= <-]. split_and!; [done|done..|]. by exists q.
  - apply pin_then; [done|]. apply kp_refresh; [done|apply stays_local].
Qed.
Lemma open_settles fi fv key (f f' : Fs) (v : Vault St) :
  fs_inv f → length fi = 32 → length fv = 32 → vault_open pick fuel fi fv key f = (Ok v, f') →
  settled (va_identity v) (va_vault_id v) f' ∧ vault_at ROOT (va_identity v) (va_store v) ∧ fs (va_store v) = f'.
Proof.
  intros Hf Hi Hv. unfold vault_open, mbind at 1, SM_bind at 1, sm_map_err at 1.
  destruct (load_or_generate_identity fi f) as [[id|e] f1] eqn:E1; [|done]. cbn [map_err fst snd].
  destruct (identity_loads fi f f1 id Hf Hi E1) as [Hf1 Hid]. unfold mbind at 1, SM_bind at 1.
  destruct (load_or_generate_vault_id fv f1) as [[vid|e] f2] eqn:E2; [|done].
  destruct (vault_id_loads fv id f1 f2 vid Hf1 Hv Hid E2) as (Hf2&Hid2&Hvid&Hlen). unfold mbind at 1, SM_bind at 1, open_store.
  destruct (open_with_fs pick fuel ROOT id f2) as [[s|e] f3] eqn:E3; [|done]. cbn [map_err].
  destruct (open_with_spec id f2 s f3 Hf2 E3) as (Hs&Hfs&Hpin&Hk). unfold mbind, SM_bind, with_store.
  set (m := if decide (founder_pin s = None) then sm_map_err VStore (declare_founder pick fuel Admin) else mret tt).
  assert (∀ x s1, m s = (Ok x, s1) → pinned_at id s s1) as Hpinned.
  { intros [] s1. unfold m. case_decide as Hd; unfold founder_pin in Hd.
    - unfold sm_map_err. destruct (declare_founder pick fuel Admin s) as [[[]|e] s2] eqn:Ed; [|done]. intros [= <-]. by apply founder_declared.
    - intros [= <-]. split_and!; [done..|]. destruct (founder s) as [p|] eqn:Ep; [|done]. exists p. rewrite <-Hpin, Hfs.
      apply founder_same; [done|rewrite <-Hfs; apply Hs|]. apply (Hk (str "founder")). decide_true. }
  destruct (m s) as [[x|e] s1]; [|done]. intros [= <- <-].
  destruct (Hpinned x s1 eq_refl) as (Hs1&Hk1&Hp). cbn. split_and!; [|apply Hs1..|done].
  split; [apply Hs1| | |done|done].
  - rewrite <-Hid2. apply load_same; [done|apply Hs1|]. etransitivity; [apply (Hk1 (str "identity.key")); decide_true|]. rewrite Hfs.
    apply (Hk (str "identity.key")). decide_true.
  - rewrite <-Hvid. etransitivity; [apply (Hk1 (str "vault.id")); decide_true|]. rewrite Hfs. apply (Hk (str "vault.id")). decide_true.
Qed.
Lemma kp_bundle i logs : smoves ROOT i (keeps ROOT stays) (import_roster_bundle pick fuel logs : SM St StorageError unit).
Proof.
  pose proof (kp_refresh (Doc := Doc) (Ver := Ver) pick fuel ROOT i stays Hpaths stays_local).
  unfold import_roster_bundle, import_bundle_log. solve_moves.
  all: match goal with |- moves _ (fs_write (ro_path (RosterLog_new (roster_dir ROOT) ?a)) _) =>
         destruct (roster_file_in ROOT a) as [nm En]; unfold roster_file in En; rewrite En; by apply keeps_write end.
Qed.
Lemma kp_keylog i author key b : smoves ROOT i (keeps ROOT stays) (import_keylog author key b : SM St StorageError unit).
Proof.
  unfold import_keylog. solve_moves. destruct (key_file_in ROOT author) as [nm En]. rewrite En. by apply keeps_write.
Qed.
Lemma accept_adopted i a hkey (s s' : St) j :
  vault_at ROOT i s → adopt_accept pick fuel a hkey s = (Ok j, s') → pinned_at i s s' ∧ j = mkJoined (ja_vault a) (ja_vault_key a) (ja_founder a).
Proof.
  intros Hs. unfold adopt_accept, mbind at 1, SM_bind at 1, sm_map_err at 1.
  destruct (pin_founder pick fuel (ja_founder a) s) as [[[]|e] s1] eqn:E1; [|done]. cbn [map_err fst snd].
  pose proof (founder_pinned i _ s s1 Hs E1) as Hp1. unfold mbind at 1, SM_bind at 1, sm_map_err at 1.
  destruct (kp_bundle i (ja_rosters a) s1 (proj1 Hp1)) as [V2 K2].
  destruct (import_roster_bundle pick fuel (ja_rosters a) s1) as [[[]|e] s2]; [|done]. cbn [map_err fst snd] in *.
  pose proof (pinned_keep i s s1 s2 Hp1 V2 K2) as Hp2. unfold mbind, SM_bind. case_decide.
  - intros [= <- <-]. done.
  - unfold sm_map_err. destruct (kp_keylog i (keylog_author a) hkey (keylog_jsonl a) s2 V2) as [V3 K3].
    destruct (import_keylog _ _ _ s2) as [[[]|e] s3]; [|done]. cbn [map_err fst snd] in *. intros [= <- <-].
    split; [|done]. by apply (pinned_keep i s s2).
Qed.
Lemma join_settles id a hkey (f f' : Fs) (v : Vault St) :
  fs_inv f → length (id_secret id) = 32 → length (ja_vault a) = 32 → vault_join pick fuel id a hkey f = (Ok v, f') →
  settled (va_identity v) (va_vault_id v) f' ∧ vault_at ROOT (va_identity v) (va_store v) ∧ fs (va_store v) = f' ∧
  va_identity v = id ∧ va_vault_id v = ja_vault a ∧ va_key v = ja_vault_key a.
Proof.
  intros Hf Hl Hv. unfold vault_join, mbind at 1, SM_bind at 1, sm_map_err at 1.
  destruct (save_with_fs id IDENTITY f) as [[[]|e] f1] eqn:E1; [|done]. cbn [map_err fst snd].
  destruct (saved_loads id f f1 Hf Hl E1) as (Hf1&Hid&_). unfold mbind at 1, SM_bind at 1, open_store.
  destruct (open_with_fs pick fuel ROOT id f1) as [[s|e] f2] eqn:E2; [|done]. cbn [map_err].
  destruct (open_with_spec id f1 s f2 Hf1 E2) as (Hs&Hfs&_&Hk). unfold mbind at 1, SM_bind at 1, with_store.
  unfold mbind at 1, SM_bind at 1, sm_map_err at 1. destruct (adopt_accept pick fuel a hkey s) as [[j|e] s1] eqn:E3; [|done].
  destruct (accept_adopted id a hkey s s1 j Hs E3) as [(V1&K1&p&Hp) ->]. cbn [map_err fst snd jd_vault].
  unfold mbind at 1, SM_bind at 1, sm_map_err at 1, on_fs, io, sm_map_err.
  assert (fs_path VAULT_ID) as Hpv by (apply Hpaths; by eexists). pose proof (fs_write_spec VAULT_ID (ja_vault a) (fs s1) (proj1 V1) Hpv) as Hw.
  destruct (fs_write VAULT_ID (ja_vault a) (fs s1)) as [[[]|e] f3]; [|done]. destruct Hw as [Hf3 E4]. cbn [files_after] in E4.
  intros [= <- <-]. cbn. destruct V1 as (Hfs1&Hr1&Hi1). split_and!; try done. split; [done| |by rewrite E4, lookup_insert_eq|done|].
  - rewrite <-Hid. apply load_same; [done..|]. rewrite E4, lookup_insert_ne by decide_true.
    etransitivity; [apply (K1 (str "identity.key")); decide_true|]. rewrite Hfs. apply (Hk (str "identity.key")). decide_true.
  - exists p. rewrite <-Hp. apply founder_same; [done..|]. by rewrite E4, lookup_insert_ne by decide_true.
Qed.
End settled.

(** ** A vault over its life *)
Section life.
Context `{Ed25519, CryptoLaws, EdX, B64Laws, B64Url, !B64UrlNames, KeyedHashLaws, NegentropyIds, EntryPeer}.
Context `{JsonText IdentityFile, JsonOf EntryLine, JsonOf RosterLine, JsonOf (list PeerRecord), JsonOf KeyLine, JsonOf Marker}.
Context `{JsonOf HeldSnapshot, JsonOf SnapshotManifest, JsonOf TrustBundle, JsonOf Value, CommandOf}.
Context {Fs Doc Ver Fr : Type} `{VaultFsLaws Fs, DocOps Doc Ver, DocHistory Doc, DocText Doc Ver Fr, DocDelta Doc}.
Context {Bk : Type} `{Backend Bk}.
Variable pick : gset u64 → option u64.
Variable fuel depth : nat.
Variable message : SessionError → rstring.
Hypothesis Hpaths : ∀ q, ROOT `prefix_of` q → fs_path q.
Abbreviation St := (Store Fs Doc Ver).

(** A vault that was founded or opened here, or joined with the accept of a host. *)
Inductive made : Vault St → Fs → Prop :=
  | made_open fi fv key f f' v :
      fs_inv f → length fi = 32 → length fv = 32 → vault_open pick fuel fi fv key f = (Ok v, f') → made v f'
  | made_join id a hkey f f' v :
      fs_inv f → length (id_secret id) = 32 → length (ja_vault a) = 32 → vault_join pick fuel id a hkey f = (Ok v, f') → made v f'.
Lemma made_settled v f :
  made v f → settled (va_identity v) (va_vault_id v) f ∧ vault_at ROOT (va_identity v) (va_store v) ∧ fs (va_store v) = f.
Proof.
  intros [fi fv key f0 f' v' ? ? ? E|id a hkey f0 f' v' ? ? ? E]; [by apply (open_settles pick fuel Hpaths fi fv key f0)|].
  destruct (join_settles pick fuel Hpaths id a hkey f0 f' v') as (?&?&?&_); done.
Qed.
(** C28: A vault opens again as the same one: after a vault was opened or joined, and whatever requests a page then made,
    syncs with any relay included and whether or not they failed, the next open loads the
    same signing key and the same vault id and founds nothing; it is exactly the opening of
    the store that is there.  Every path below the vault's root is taken to be one that the storage can
    name. *)
Theorem vault_reopens v f' (bk : Bk) reqs fi fv key :
  made v f' →
  let x := (session_all pick fuel depth message reqs (mkSession v bk)).2 in
  let f := fs (va_store (se_vault x)) in
  vault_open pick fuel fi fv key f =
    match open_with_fs pick fuel ROOT (va_identity v) f with
    | (Ok s, f2) => (Ok (mkVault (s : St) key (va_identity v) (va_vault_id v)), f2)
    | (Err e, f2) => (Err (VStore e), f2)
    end.
Proof.
  intros Hm x f. destruct (made_settled v f' Hm) as (Hset&Hat&Hfs). subst f'. apply (settled_reopens pick fuel Hpaths).
  destruct (all_same pick fuel depth message Hpaths (va_identity v) reqs (mkSession v bk) Hat) as (V&K&_).
  apply (keeps_settled _ _ (fs (va_store v))); [apply V|exact K|done].
Qed.
End life.
