(* ===== verification/Models.v ===== *)
(** * Models: concrete primitives

    One implementation of each external interface that satisfies its laws, so
    that every theorem stated against an interface is applied at least once to
    closed arguments. *)
From S2P Require Import Prelude RustStr Vfs Roster Wire Logs Keychain Blob Trust Store StoreRoster StoreSync StoreKeys Checkpoint.
From Stdlib Require Import Strings.Byte.

(** ** Signatures: key and message, cut to 64 bytes *)
Definition pad (n : nat) (l : bytes) : bytes := take n (l ++ replicate n Byte.x00).
Lemma length_pad n l : length (pad n l) = n.
Proof. unfold pad. rewrite length_take, length_app, length_replicate. lia. Qed.

Definition toy_public (s : bytes) : bytes := pad 32 s.
Definition toy_tag (k m : bytes) : bytes := pad 64 (k ++ m).
#[global] Instance toy_ed : Ed25519 := {|
  ed_public := toy_public;
  ed_sign s m := toy_tag (toy_public s) m;
  ed_verify k m t := bool_decide (t = toy_tag k m);
  ed_key_ok k := bool_decide (length k = 32) |}.
#[global] Instance toy_ed_laws : Ed25519Laws.
Proof.
  split; intros; simpl.
  - by apply bool_decide_eq_true_2.
  - apply length_pad.
  - apply length_pad.
  - apply bool_decide_eq_true_2, length_pad.
Qed.

(** ** Base64: one char per byte *)
Definition toy_encode (b : bytes) : rstring := (λ x, (256 + Byte.to_N x)%N) <$> b.
Fixpoint toy_decode (s : rstring) : option bytes :=
  match s with
  | [] => Some []
  | c :: s => if ((256 <=? c) && (c <? 512))%N
              then cons (byte_of_N (c - 256)) <$> toy_decode s else None
  end.
#[global] Instance toy_b64 : B64 := {| b64_encode := toy_encode; b64_decode := toy_decode |}.
#[global] Instance toy_b64_laws : B64Laws.
Proof.
  split. intros b. simpl. induction b as [|x b IH]; [done|]. csimpl.
  pose proof (to_N_bound x). replace ((256 <=? 256 + Byte.to_N x) && _)%N with true by lia.
  rewrite IH. simpl. do 2 f_equal. rewrite <-(byte_of_N_to_N x) at 2. f_equal. lia.
Qed.

#[global] Instance toy_b64_visible : B64Visible.
Proof.
  split. intros b. simpl. induction b as [|x b IH]; [done|]. csimpl. rewrite IH, andb_true_r.
  pose proof (to_N_bound x). unfold is_whitespace. simpl. lia.
Qed.

(** ** JSON: rows of numbers between braces

    A number is its base-1024 digits (each one character) and a comma, a row its
    numbers and a semicolon, an object its rows between braces. *)
Definition COMMA : rchar := 44.
Definition SEMI : rchar := 59.
Fixpoint digits (fuel : nat) (n : N) : rstring :=
  match fuel with
  | O => []
  | S fuel => if (n =? 0)%N then [] else (1024 + n mod 1024)%N :: digits fuel (n / 1024)
  end.
Definition num_text (n : N) : rstring := digits (N.to_nat (N.size n)) n ++ [COMMA].
Definition row_text (r : list N) : rstring := (r ≫= num_text) ++ [SEMI].
Definition rows_text (rs : list (list N)) : rstring := LBRACE :: (rs ≫= row_text) ++ [RBRACE].

(** Read from the right: before the rows, before the end of a row, or inside a
    number. *)
Inductive reading :=
  | AtRows
  | AtRow (ns : list N) (rs : list (list N))
  | AtNum (n : N) (ns : list N) (rs : list (list N)).
Definition rows_of (st : reading) : list (list N) :=
  match st with AtRows => [] | AtRow ns rs => ns :: rs | AtNum n ns rs => (n :: ns) :: rs end.
Definition nums_of (st : reading) : option (list N * list (list N)) :=
  match st with AtRows => None | AtRow ns rs => Some (ns, rs) | AtNum n ns rs => Some (n :: ns, rs) end.
Definition read_char (c : rchar) (st : reading) : option reading :=
  if (c =? SEMI)%N then Some (AtRow [] (rows_of st))
  else if (c =? COMMA)%N then x ← nums_of st; Some (AtNum 0 x.1 x.2)
  else match st with
       | AtNum n ns rs => if (1024 <=? c)%N then Some (AtNum (c - 1024 + 1024 * n) ns rs) else None
       | _ => None
       end.
Fixpoint read_rows (s : rstring) : option reading :=
  match s with
  | [] => None
  | c :: s => match s with
              | [] => if (c =? RBRACE)%N then Some AtRows else None
              | _ => read_rows s ≫= read_char c
              end
  end.
Definition text_rows (s : rstring) : option (list (list N)) :=
  match s with
  | c :: s => if (c =? LBRACE)%N then rows_of <$> read_rows s else None
  | [] => None
  end.

Lemma read_cons c d s : read_rows (c :: d :: s) = read_rows (d :: s) ≫= read_char c.
Proof. done. Qed.
Lemma read_step c s : s ≠ [] → read_rows (c :: s) = read_rows s ≫= read_char c.
Proof. by destruct s. Qed.
Lemma read_snoc c s : read_rows (c :: s ++ [RBRACE]) = read_rows (s ++ [RBRACE]) ≫= read_char c.
Proof. by destruct s. Qed.

Lemma read_comma st ns rs : nums_of st = Some (ns, rs) → read_char COMMA st = Some (AtNum 0 ns rs).
Proof. by destruct st; intros [= <- <-]. Qed.

Lemma read_digits fuel n t st ns rs :
  (n < 2 ^ N.of_nat fuel)%N → nums_of st = Some (ns, rs) → read_rows (t ++ [RBRACE]) = Some st →
  read_rows (digits fuel n ++ COMMA :: t ++ [RBRACE]) = Some (AtNum n ns rs).
Proof.
  revert n. induction fuel as [|fuel IH]; intros n Hn Hst Ht.
  - simpl in Hn. assert (n = 0%N) as -> by lia. cbn [digits app].
    rewrite read_snoc, Ht. by apply read_comma.
  - cbn [digits]. destruct (N.eqb_spec n 0) as [->|Hne].
    { cbn [app]. rewrite read_snoc, Ht. by apply read_comma. }
    rewrite <-app_comm_cons, read_step by (by destruct (digits fuel (n / 1024))).
    pose proof (N.mod_lt n 1024 ltac:(done)). pose proof (N.div_mod n 1024 ltac:(done)).
    rewrite IH; [|..|done|done].
    + unfold read_char. cbn -[N.add N.mul N.modulo N.div N.leb N.sub].
      replace (1024 + n mod 1024 =? SEMI)%N with false by (unfold SEMI; lia).
      replace (1024 + n mod 1024 =? COMMA)%N with false by (unfold COMMA; lia).
      replace (1024 <=? 1024 + n mod 1024)%N with true by lia. do 2 f_equal. lia.
    + rewrite Nat2N.inj_succ, N.pow_succ_r' in Hn.
      apply N.Div0.div_lt_upper_bound. lia.
Qed.
Lemma read_num n t st ns rs :
  nums_of st = Some (ns, rs) → read_rows (t ++ [RBRACE]) = Some st →
  read_rows (num_text n ++ t ++ [RBRACE]) = Some (AtNum n ns rs).
Proof.
  intros Hst Ht. unfold num_text. rewrite <-(assoc_L (++)). apply (read_digits _ n t st); [|done..].
  rewrite N2Nat.id. apply N.size_gt.
Qed.
Lemma read_row r t st :
  read_rows (t ++ [RBRACE]) = Some st →
  ∃ st', read_rows (row_text r ++ t ++ [RBRACE]) = Some st' ∧ nums_of st' = Some (r, rows_of st).
Proof.
  intros Ht. unfold row_text. rewrite <-(assoc_L (++)). cbn [app].
  induction r as [|n r IH].
  - cbn [mbind list_bind app]. rewrite read_snoc, Ht. simpl. by eexists.
  - destruct IH as (st'&Hst'&Hn). csimpl. rewrite <-(assoc_L (++)).
    rewrite app_comm_cons, (assoc_L (++) (r ≫= num_text)) in Hst' |- *.
    rewrite (read_num n _ st' r (rows_of st)) by done. by eexists.
Qed.
Lemma text_rows_text rs : text_rows (rows_text rs) = Some rs.
Proof.
  unfold text_rows, rows_text. cbn [N.eqb]. replace (LBRACE =? LBRACE)%N with true by done.
  assert (∃ st, read_rows ((rs ≫= row_text) ++ [RBRACE]) = Some st ∧ rows_of st = rs) as (st&->&Hst).
  { induction rs as [|r rs IH]; [by eexists|]. csimpl. destruct IH as (st&Hst&Hr).
    destruct (read_row r _ _ Hst) as (st'&Hst'&Hn). rewrite <-(assoc_L (++)). exists st'. split; [done|].
    rewrite Hr in Hn. by destruct st'; simplify_eq/=. }
  simpl. by rewrite Hst.
Qed.
Lemma read_rows_last s st : read_rows s = Some st → last s = Some RBRACE.
Proof.
  revert st. induction s as [|c [|d s] IH]; intros st; [done| |].
  - simpl. destruct (N.eqb_spec c RBRACE) as [->|]; done.
  - rewrite read_cons. destruct (read_rows (d :: s)) as [st'|] eqn:E; [intros _|done].
    rewrite last_cons_cons. by eapply IH.
Qed.

(** The characters of the text. *)
Lemma digits_char fuel n c : c ∈ digits fuel n → (1024 <= c < 2048)%N.
Proof.
  revert n. induction fuel as [|fuel IH]; intros n; simpl; [by intros ?%elem_of_nil|].
  destruct (n =? 0)%N; [by intros ?%elem_of_nil|].
  intros [->|?]%elem_of_cons; [|by eapply IH]. pose proof (N.mod_lt n 1024). lia.
Qed.
Lemma body_char rs c :
  c ∈ rs ≫= row_text → c = COMMA ∨ c = SEMI ∨ (1024 <= c < 2048)%N.
Proof.
  rewrite list_elem_of_bind. intros (r&Hc&_). unfold row_text in Hc.
  apply elem_of_app in Hc as [Hc|Hc%list_elem_of_singleton]; [|by auto].
  apply list_elem_of_bind in Hc as (n&Hc&_). unfold num_text in Hc.
  apply elem_of_app in Hc as [?%digits_char|?%list_elem_of_singleton]; auto.
Qed.
Lemma text_char rs c :
  c ∈ rows_text rs → c = LBRACE ∨ c = RBRACE ∨ c = COMMA ∨ c = SEMI ∨ (1024 <= c < 2048)%N.
Proof.
  unfold rows_text. rewrite elem_of_cons, elem_of_app, list_elem_of_singleton.
  intros [?|[?%body_char|?]]; naive_solver.
Qed.

(** A type that is rows of numbers has a JSON form with the laws. *)
Section toy_json.
Context {A : Type} (to : A → list (list N)) (from : list (list N) → option A).
Definition toy_json : JsonOf A :=
  {| to_json a := rows_text (to a); from_json s := text_rows s ≫= from |}.
Hypothesis from_to : ∀ a, from (to a) = Some a.

Lemma toy_json_text : @JsonText A toy_json.
Proof.
  split; cbn [from_json to_json toy_json].
  - intros a. rewrite text_rows_text. simpl. apply from_to.
  - intros a. apply (proj2 (forallb_forall is_scalar (rows_text (to a)))).
    intros c Hc. apply list_elem_of_In, text_char in Hc. unfold is_scalar.
    destruct Hc as [->|[->|[->|[->|Hc]]]]; [done..|]. lia.
Qed.
Lemma toy_json_laws : @JsonLaws A toy_json.
Proof.
  split; cbn [from_json to_json toy_json].
  - apply toy_json_text.
  - intros a. by exists (to a ≫= row_text).
  - intros a c Hc. apply text_char in Hc. unfold is_control.
    destruct Hc as [->|[->|[->|[->|Hc]]]]; [done..|]. lia.
  - intros a p Hp Hne. destruct p as [|c p]; [done|]. unfold rows_text in *.
    destruct Hp as [k Hk]. simpl in Hk. injection Hk as <- Hk. unfold text_rows. simpl.
    destruct k as [|d k] using rev_ind; [rewrite app_nil_r in Hk; congruence|]. clear IHk.
    rewrite (assoc_L (++)) in Hk. apply app_inj_2 in Hk as [Hk _]; [|done].
    destruct (read_rows p) as [q|] eqn:E; [|done]. exfalso. apply read_rows_last in E.
    assert (RBRACE ∈ to a ≫= row_text) as Hin.
    { rewrite Hk. apply elem_of_app. left. by apply last_Some_elem_of. }
    apply body_char in Hin as [Hx|[Hx|Hx]]; [discriminate Hx..|]. unfold RBRACE in Hx. lia.
Qed.
End toy_json.

(** ** The structs that are written as JSON, as rows of numbers *)
Definition identity_rows (f : IdentityFile) : list (list N) := [[if_peer_id f]; if_secret_key f].
Definition rows_identity (x : list (list N)) : option IdentityFile :=
  match x with [[p]; k] => Some (mkIdentityFile p k) | _ => None end.
Lemma rows_identity_rows f : rows_identity (identity_rows f) = Some f.
Proof. by destruct f. Qed.

Definition entry_rows (l : EntryLine) : list (list N) := [[el_peer l]; el_sig l; el_update l].
Definition rows_entry (x : list (list N)) : option EntryLine :=
  match x with [[p]; s; u] => Some (mkEntryLine p s u) | _ => None end.
Lemma rows_entry_rows l : rows_entry (entry_rows l) = Some l.
Proof. by destruct l. Qed.

Definition role_row (r : Role) : N := match r with Reader => 0 | Writer => 1 | Admin => 2 end.
Definition row_role (n : N) : Role := match n with 0%N => Reader | 1%N => Writer | _ => Admin end.
Definition op_row (o : RosterOp) : list N :=
  match o with
  | Add r => [0%N; role_row r]
  | SetRole r => [1%N; role_row r]
  | Revoke => [2%N]
  | SetName n => 3%N :: n
  end.
Definition row_op (x : list N) : option RosterOp :=
  match x with
  | [0%N; r] => Some (Add (row_role r))
  | [1%N; r] => Some (SetRole (row_role r))
  | [2%N] => Some Revoke
  | 3%N :: n => Some (SetName n)
  | _ => None
  end.
Lemma row_role_row r : row_role (role_row r) = r.
Proof. by destruct r. Qed.
Lemma row_op_row o : row_op (op_row o) = Some o.
Proof. destruct o as [r|r| |n]; simpl; by rewrite ?row_role_row. Qed.

Definition roster_rows (l : RosterLine) : list (list N) :=
  [[rl_seq l; rl_lamport l; rl_subject_peer l; rl_added_by l]; op_row (rl_op l);
   rl_subject_key l; rl_sig l].
Definition rows_roster (x : list (list N)) : option RosterLine :=
  match x with
  | [[n; m; p; a]; o; k; s] => (λ o, mkRosterLine n m o p k a s) <$> row_op o
  | _ => None
  end.
Lemma rows_roster_rows l : rows_roster (roster_rows l) = Some l.
Proof. destruct l. unfold roster_rows, rows_roster. cbn -[op_row row_op]. by rewrite row_op_row. Qed.

Definition key_body_rows (b : KeyBodyLine) : list (list N) :=
  match b with
  | RotateLine ps n => [0%N] :: n :: ps
  | WrapLine (Device p) b => [[1%N; p]; b]
  | WrapLine Paper b => [[2%N]; b]
  end.
Definition rows_key_body (x : list (list N)) : option KeyBodyLine :=
  match x with
  | [0%N] :: n :: ps => Some (RotateLine ps n)
  | [[1%N; p]; b] => Some (WrapLine (Device p) b)
  | [[2%N]; b] => Some (WrapLine Paper b)
  | _ => None
  end.
Definition key_rows (l : KeyLine) : list (list N) :=
  [kl_seq l; kl_author l] :: kl_epoch_id l :: kl_sig l :: key_body_rows (kl_body l).
Definition rows_key (x : list (list N)) : option KeyLine :=
  match x with
  | [n; a] :: e :: s :: b => (λ b, mkKeyLine n a e b s) <$> rows_key_body b
  | _ => None
  end.
Lemma rows_key_rows l : rows_key (key_rows l) = Some l.
Proof. by destruct l as [??? [ps n|[p|] b] ?]. Qed.

Definition peer_rows (p : PeerRecord) : list (list N) :=
  [[peer_id p; match status p with Active => 0 | Revoked => 1 end; role_row (role p)]%N;
   Byte.to_N <$> verifying_key p; match name p with Some n => 1%N :: n | None => [] end].
Definition row_peer (h k n : list N) : option PeerRecord :=
  match h with
  | [p; st; r] =>
      Some (mkPeerRecord p (byte_of_N <$> k) (match st with 0%N => Active | _ => Revoked end) (row_role r)
        (match n with _ :: n => Some n | [] => None end))
  | _ => None
  end.
Fixpoint rows_peers (x : list (list N)) : option (list PeerRecord) :=
  match x with
  | [] => Some []
  | h :: k :: n :: x => p ← row_peer h k n; ps ← rows_peers x; Some (p :: ps)
  | _ => None
  end.
Lemma row_peer_rows p ps : rows_peers (peer_rows p ++ ps) = (p ::.) <$> rows_peers ps.
Proof.
  destruct p as [p k st r n]. unfold peer_rows, row_peer. simpl. rewrite row_role_row.
  rewrite <-list_fmap_compose. rewrite (list_fmap_ext _ id) by (intros; apply byte_of_N_to_N).
  rewrite list_fmap_id. destruct st, n; simpl; by destruct (rows_peers ps).
Qed.
Lemma rows_peers_rows ps : rows_peers (ps ≫= peer_rows) = Some ps.
Proof.
  induction ps as [|p ps IH]; [done|].
  change ((p :: ps) ≫= peer_rows) with (peer_rows p ++ (ps ≫= peer_rows)). by rewrite row_peer_rows, IH.
Qed.

Definition marker_rows (m : Marker) : list (list N) :=
  let l := map_to_list (log_lens m) in
  [[if (ts_ms m <? 0)%Z then 1%N else 0%N; Z.abs_N (ts_ms m)]; frontier m; l.*1; l.*2].
Definition rows_marker (x : list (list N)) : option Marker :=
  match x with
  | [[sg; t]; f; ks; vs] =>
      Some (mkMarker (if (sg =? 0)%N then Z.of_N t else - Z.of_N t)%Z f (list_to_map (zip ks vs)))
  | _ => None
  end.
Lemma rows_marker_rows m : rows_marker (marker_rows m) = Some m.
Proof.
  destruct m as [t f ls]. unfold marker_rows, rows_marker. simpl. rewrite zip_fst_snd, list_to_map_to_list.
  destruct (Z.ltb_spec t 0); simpl; do 2 f_equal; lia.
Qed.

#[global] Instance identity_json : JsonOf IdentityFile := toy_json identity_rows rows_identity.
#[global] Instance identity_json_text : JsonText IdentityFile := toy_json_text _ _ rows_identity_rows.
#[global] Instance entry_json : JsonOf EntryLine := toy_json entry_rows rows_entry.
#[global] Instance entry_json_laws : JsonLaws EntryLine := toy_json_laws _ _ rows_entry_rows.
#[global] Instance roster_json : JsonOf RosterLine := toy_json roster_rows rows_roster.
#[global] Instance roster_json_laws : JsonLaws RosterLine := toy_json_laws _ _ rows_roster_rows.
#[global] Instance key_json : JsonOf KeyLine := toy_json key_rows rows_key.
#[global] Instance key_json_laws : JsonLaws KeyLine := toy_json_laws _ _ rows_key_rows.
#[global] Instance peers_json : JsonOf (list PeerRecord) := toy_json (λ ps, ps ≫= peer_rows) rows_peers.
#[global] Instance peers_json_text : JsonText (list PeerRecord) := toy_json_text _ _ rows_peers_rows.
#[global] Instance marker_json : JsonOf Marker := toy_json marker_rows rows_marker.
#[global] Instance marker_json_laws : JsonLaws Marker := toy_json_laws _ _ rows_marker_rows.

(** ** Cryptography: xor for the exchange, the key in front for the seal *)
Definition toy_dh (a p : bytes) : bytes :=
  byte_of_N <$> zip_with (λ x y, N.lxor (Byte.to_N x) (Byte.to_N y)) (pad 32 a) (pad 32 p).
#[global] Instance toy_crypto : Crypto := {|
  blake3 b := pad 32 (Byte.x01 :: reverse b);
  blake3_derive c b := b;
  x_public a := pad 32 a;
  x_dh := toy_dh;
  aead_seal k n p := k ++ p;
  aead_open k n c := if decide (take (length k) c = k) then Some (drop (length k) c) else None |}.
#[global] Instance toy_crypto_laws : CryptoLaws.
Proof.
  split.
  - intros a b. cbn [x_dh x_public toy_crypto]. unfold toy_dh. f_equal.
    assert (∀ x, pad 32 (pad 32 x) = pad 32 x) as Hp.
    { intros x. unfold pad at 1. rewrite take_app_le by (rewrite length_pad; lia).
      by rewrite take_ge by (rewrite length_pad; lia). }
    rewrite !Hp, <-zip_with_flip. apply zip_with_ext; [|done..]. intros. apply N.lxor_comm.
  - intros b. apply length_pad.
  - intros a. apply length_pad.
  - intros k n p. simpl. rewrite take_app_length, drop_app_length. by rewrite decide_True.
Qed.
#[global] Instance toy_edx : EdX := {| ed_to_x k := k; ed_secret_to_x s := s |}.
#[global] Instance toy_edx_laws : EdXLaws.
Proof. by split. Qed.

(** ** Documents: the list of imported updates *)
#[global] Instance toy_doc : DocOps (list bytes) nat := {|
  doc_new _ := Ok [];
  doc_from_snapshot _ b := Ok [b];
  doc_import b d := (Ok tt, d ++ [b]);
  doc_import_authored_by _ b d := (Ok tt, d ++ [b]);
  doc_commit d := d;
  doc_version := length;
  doc_export_from v d := Ok (concat (drop v d));
  doc_snapshot d := Ok (concat d) |}.
(** A frontier is the number of updates, as one byte per update. *)
#[global] Instance toy_history : DocHistory (list bytes) := {|
  oplog_frontier d := replicate (length d) Byte.x01;
  frontier_ok _ := true;
  shallow_snapshot b d := Ok (concat (take (length b) d));
  hashes_at _ _ := Ok [];
  hashes_latest _ := [] |}.
