(* ===== verification/FilesModels.v ===== *)
(** * Small primitives for the folder bridge

    A diff by common prefix, texts that are their own normal form, JSON for the
    bridge's structs, and a text document, which satisfy the interfaces of Textdiff,
    Paths, Bridge and StoreEdit. *)
From S2P Require Import Prelude RustStr Vfs Roster Wire Logs Keychain Blob Trust Store Checkpoint.
From S2P Require Import Textdiff Rebase Paths Bridge BridgeSpec StoreEdit Models.
From Stdlib Require Import Strings.Byte.

(** ** A diff: the common prefix is kept, the rest inserted and deleted *)
Definition one (t : ChangeTag) (c : rchar) : Change := mkChange t [c].
Fixpoint prefix_diff (a b : rstring) : list Change :=
  match a, b with
  | x :: a', y :: b' =>
      if decide (x = y) then one Equal x :: prefix_diff a' b'
      else (one Insert <$> b) ++ (one Delete <$> a)
  | _, _ => (one Insert <$> b) ++ (one Delete <$> a)
  end.
#[global] Instance toy_similar : Similar := prefix_diff.

Lemma old_of_runs a b : old_of ((one Insert <$> b) ++ (one Delete <$> a)) = a.
Proof.
  unfold old_of. rewrite bind_app. assert ((one Insert <$> b) ≫= old_part = []) as ->.
  { induction b as [|y b IH]; [done|]. csimpl. by rewrite IH. }
  simpl. induction a as [|x a IH]; [done|]. csimpl. by rewrite IH.
Qed.
Lemma new_of_runs a b : new_of ((one Insert <$> b) ++ (one Delete <$> a)) = b.
Proof.
  unfold new_of. rewrite bind_app. assert ((one Delete <$> a) ≫= new_part = []) as ->.
  { induction a as [|y a IH]; [done|]. csimpl. by rewrite IH. }
  rewrite app_nil_r. induction b as [|x b IH]; [done|]. csimpl. by rewrite IH.
Qed.
#[global] Instance toy_similar_laws : SimilarLaws.
Proof.
  split; unfold from_chars, toy_similar.
  - induction a as [|x a IH]; intros [|y b]; cbn [prefix_diff]; try apply old_of_runs.
    case_decide; [|apply old_of_runs]. rewrite old_of_cons, IH. done.
  - induction a as [|x a IH]; intros [|y b]; cbn [prefix_diff]; try apply new_of_runs.
    case_decide as Hx; [|apply new_of_runs]. rewrite new_of_cons, IH. by subst.
  - assert (∀ a b c, c ∈ (one Insert <$> b) ++ (one Delete <$> a) → ∃ x, value c = [x]) as Hruns.
    { intros a b c [Hc|Hc]%elem_of_app; apply list_elem_of_fmap in Hc as (x&->&_); by exists x. }
    intros a. induction a as [|x a IH]; intros [|y b] c; cbn [prefix_diff]; try apply Hruns.
    case_decide; [|apply Hruns]. intros [->|Hc]%elem_of_cons; [by exists x|by eapply IH].
  - induction a as [|x a IH]; intros c; simpl; [by intros ?%not_elem_of_nil|].
    rewrite decide_True by done. intros [->|Hc]%elem_of_cons; [done|by apply IH].
Qed.

#[global] Instance toy_nfc : Nfc := λ s, s.

(** ** JSON *)
Definition opt_rows (o : option rstring) : list N := match o with None => [0] | Some s => 1 :: s end%N.
Definition rows_opt (x : list N) : option rstring := match x with 1%N :: s => Some s | _ => None end.
Definition file_entry_rows (e : FileEntry) : list (list N) :=
  [[match fe_kind e with Text => 0 | BlobKind => 1 end; match fe_status e with Live => 0 | Tombstoned => 1 end]%N;
   content_hash e; opt_rows (renamed_from e); opt_rows (tombstoned_at e)].
Definition rows_file_entry (x : list (list N)) : option FileEntry :=
  match x with
  | [[k; st]; h; rf; t] =>
      Some (mkFileEntry (match k with 0%N => Text | _ => BlobKind end)
              (match st with 0%N => Live | _ => Tombstoned end) h (rows_opt rf) (rows_opt t))
  | _ => None
  end.
Lemma rows_file_entry_rows e : rows_file_entry (file_entry_rows e) = Some e.
Proof. destruct e as [[] [] h [] []]; done. Qed.
Definition sidecar_rows (s : Sidecar) : list (list N) :=
  [[sc_version s]; doc_id s; last_synced_hash s; last_synced_text s].
Definition rows_sidecar (x : list (list N)) : option Sidecar :=
  match x with [[v]; d; h; t] => Some (mkSidecar v d h t) | _ => None end.
Lemma rows_sidecar_rows s : rows_sidecar (sidecar_rows s) = Some s.
Proof. by destruct s. Qed.
#[global] Instance file_entry_json : JsonOf FileEntry := toy_json file_entry_rows rows_file_entry.
#[global] Instance file_entry_json_text : JsonText FileEntry := toy_json_text _ _ rows_file_entry_rows.
#[global] Instance sidecar_json : JsonOf Sidecar := toy_json sidecar_rows rows_sidecar.
#[global] Instance sidecar_json_text : JsonText Sidecar := toy_json_text _ _ rows_sidecar_rows.

(** ** A text document *)
Record TextDoc := mkTextDoc {
  td_texts : gmap rstring rstring; td_map : gmap rstring rstring; td_edits : nat;
}.
Definition td_text (id : rstring) (d : TextDoc) : rstring := default [] (td_texts d !! id).
Definition td_edit (id : rstring) (o : TextOp) (d : TextDoc) : result StorageError unit * TextDoc :=
  match apply_op (td_text id d) o with
  | Some x => (Ok tt, mkTextDoc (<[id := x]> (td_texts d)) (td_map d) (S (td_edits d)))
  | None => (Err Crdt, d)
  end.
#[global] Instance text_doc : DocOps TextDoc nat := {|
  doc_new _ := Ok (mkTextDoc ∅ ∅ 0);
  doc_from_snapshot _ _ := Ok (mkTextDoc ∅ ∅ 0);
  doc_import _ d := (Ok tt, d);
  doc_import_authored_by _ _ d := (Ok tt, d);
  doc_commit d := d;
  doc_version := td_edits;
  doc_export_from _ d := Ok [];
  doc_snapshot d := Ok [] |}.
#[global] Instance text_history : DocHistory TextDoc := {|
  oplog_frontier d := [];
  frontier_ok _ := true;
  shallow_snapshot _ _ := Ok [];
  hashes_at _ _ := Ok [];
  hashes_latest _ := [] |}.
#[global] Instance text_doc_text : DocText TextDoc nat nat := {|
  doc_text := td_text;
  doc_insert_text id p t := td_edit id (OpInsert p t);
  doc_delete_text id p n := td_edit id (OpDelete p n);
  doc_get_entry m k d := if decide (m = FILESET_MAP_ID) then td_map d !! k else None;
  doc_set_entry m k v d :=
    (Ok tt, if decide (m = FILESET_MAP_ID)
            then mkTextDoc (td_texts d) (<[k := v]> (td_map d)) (S (td_edits d)) else d);
  doc_remove_entry m k d :=
    (Ok tt, if decide (m = FILESET_MAP_ID)
            then mkTextDoc (td_texts d) (delete k (td_map d)) (S (td_edits d)) else d);
  doc_entries m d := if decide (m = FILESET_MAP_ID) then map_to_list (td_map d) else [];
  doc_revert_container _ _ d := (Ok tt, d);
  doc_commit_at _ d := d;
  ver_to_bytes n := replicate n Byte.x01;
  doc_entry_at _ _ _ _ := None |}.

Lemma td_edit_spec id o d :
  let '(r, d') := td_edit id o d in
  td_map d' = td_map d ∧ (∀ id', id' ≠ id → td_text id' d' = td_text id' d) ∧
  match apply_op (td_text id d) o with
  | Some x => r = Ok tt ∧ td_text id d' = x
  | None => (∃ e, r = Err e) ∧ d' = d
  end.
Proof.
  unfold td_edit. destruct (apply_op (td_text id d) o) as [x|]; [|by eauto]. simpl. unfold td_text. simpl.
  split_and!; try done; [intros id' Hne; by rewrite lookup_insert_ne|by rewrite lookup_insert_eq].
Qed.
#[global] Instance text_doc_laws : DocTextLaws TextDoc nat nat.
Proof.
  refine {| doc_map := td_map |}.
  - done.
  - intros d. simpl. split; [apply NoDup_fst_map_to_list|]. intros k v. apply elem_of_map_to_list.
  - intros id p t d. apply td_edit_spec.
  - intros id p n d. apply td_edit_spec.
  - done.
  - done.
Defined.
#[global] Instance mem_reliable : Reliable MemState TextDoc nat.
Proof. refine {| fs_up := λ _, True |}; try done. Defined.
