(* ===== verification/SyncModels.v ===== *)
(** * Small primitives for snapshots and the engine

    Versions that count edits, base64url like base64, JSON for the snapshot structs,
    and the in-memory backend as one that accepts a blob. *)
From S2P Require Import Prelude RustStr Vfs Roster Wire Logs Keychain Blob Trust Store StoreRoster StoreSync.
From S2P Require Import Checkpoint Paths Bridge StoreEdit Snapshots Engine EngineBlob Models FilesModels.
From Stdlib Require Import Strings.Byte.

#[global] Instance toy_b64url : B64Url := {| b64url_encode := toy_encode; b64url_decode := toy_decode |}.
#[global] Instance toy_b64url_laws : B64UrlLaws.
Proof. split. intros b. exact (b64_decode_encode b). Qed.

#[global] Instance nat_version : VersionOps nat :=
  {| ver_from_bytes b := Some (length b); ver_includes u v := v <=? u |}.
#[global] Instance nat_version_laws : VersionLaws TextDoc nat nat.
Proof.
  split.
  - intros v. simpl. by rewrite length_replicate.
  - intros v. simpl. apply Nat.leb_refl.
  - intros u v w. simpl. rewrite !Nat.leb_le. lia.
Qed.

(** ** JSON *)
Definition held_rows (x : HeldSnapshot) : list (list N) := h_id x :: h_subsumed x.
Definition rows_held (x : list (list N)) : option HeldSnapshot :=
  match x with i :: s => Some (mkHeld i s) | [] => None end.
Lemma rows_held_rows x : rows_held (held_rows x) = Some x.
Proof. by destruct x. Qed.
#[global] Instance held_json : JsonOf HeldSnapshot := toy_json held_rows rows_held.
#[global] Instance held_json_laws : JsonLaws HeldSnapshot := toy_json_laws _ _ rows_held_rows.

Definition manifest_rows (m : SnapshotManifest) : list (list N) :=
  [m_author m; N.of_nat (length (subsumed_entry_ids m))] :: (Byte.to_N <$> frontier_digest m) ::
  (Byte.to_N <$> snapshot_ct_hash m) :: m_sig m :: subsumed_entry_ids m ++ blob_ref_ids m.
Definition rows_manifest (x : list (list N)) : option SnapshotManifest :=
  match x with
  | [a; n] :: f :: c :: s :: ids =>
      Some (mkManifest (byte_of_N <$> f) (byte_of_N <$> c) (take (N.to_nat n) ids) (drop (N.to_nat n) ids) a s)
  | _ => None
  end.
#[global] Instance manifest_json : JsonOf SnapshotManifest := toy_json manifest_rows rows_manifest.

(** ** The in-memory backend stores any blob, if no directory is in the way *)
Definition dirs_within (D : gset path) (f : MemState) : Prop := mem_dirs f ⊆ D.
Lemma mem_accepting (b : bytes) (s : Store MemState TextDoc nat) (D : gset path) :
  let dir := blobs_dir s in let h := blob_hash b in
  dir ++ [h] ∉ D → part_path dir h ∉ D → Forall (.∈ D) (prefixes [] (incoming_dir dir)) →
  accepting b s (dirs_within D).
Proof.
  intros dir h Hf Hp Hd. rewrite Forall_forall in Hd. unfold dirs_within. split.
  - intros f Hf'. split_and!; [done|..]; apply bool_decide_eq_false_2; set_solver.
  - intros f Hf'. simpl. apply union_subseteq. split; [|done]. intros q Hq%elem_of_list_to_set. by apply Hd.
  - intros n f Hf'. by eexists.
  - intros o c f Hf'. simpl. unfold mem_write_range. by destruct (mem_files f !! _).
  - intros f Hf' [x Hx]. simpl in *. unfold mem_rename. rewrite Hx. by eexists.
Qed.
