(* ===== verification/RelayModels.v ===== *)
(** * Small primitives for the relay client

    A keyed hash that keeps the end of its input, base64url names, a reconciliation
    in one round that exchanges all ids, JSON for trust bundles, and the author of an
    entry read through the JSON of entries. *)
From S2P Require Import Prelude RustStr Vfs Roster Wire Logs Keychain Blob Trust Store StoreRoster StoreSync.
From S2P Require Import Checkpoint Paths Snapshots Relay RelaySync Models SyncModels.
From Stdlib Require Import Strings.Byte.

#[global] Instance toy_keyed : KeyedHash := {| keyed_hash k b := pad 32 (reverse b) |}.
#[global] Instance toy_keyed_laws : KeyedHashLaws.
Proof. split. intros k b. apply length_pad. Qed.

Lemma toy_encode_char b c : c ∈ toy_encode b → (256 ≤ c < 512)%N.
Proof. intros (x&->&_)%list_elem_of_fmap. pose proof (to_N_bound x). lia. Qed.
#[global] Instance toy_names : B64UrlNames.
Proof.
  split.
  - intros b Hb. apply good_name_spec. simpl. split_and!.
    + by destruct b.
    + intros E. assert (46%N ∈ toy_encode b) as Hc by (rewrite E; set_solver). apply toy_encode_char in Hc. lia.
    + intros E. assert (46%N ∈ toy_encode b) as Hc by (rewrite E; set_solver). apply toy_encode_char in Hc. lia.
    + intros Hc%toy_encode_char. unfold SLASH in Hc. lia.
  - intros b. apply forallb_forall. intros c Hc%list_elem_of_In. apply toy_encode_char in Hc. unfold is_scalar. lia.
Qed.

(** ** Reconciliation in one round *)
Fixpoint chunks (fuel : nat) (b : bytes) : list bytes :=
  match fuel with
  | O => []
  | S fuel => if decide (length b < 32) then [] else take 32 b :: chunks fuel (drop 32 b)
  end.
Definition ids_of (b : bytes) : list bytes := chunks (length b) b.
#[global] Instance toy_negentropy : Negentropy := {|
  neg_initiate mine := concat mine;
  neg_reconcile theirs _ := Some (concat theirs);
  neg_reconcile_with_ids mine reply :=
    Some (None, filter (.∉ ids_of reply) mine, filter (.∉ mine) (ids_of reply));
|}.
Lemma chunks_len fuel b x : x ∈ chunks fuel b → length x = 32.
Proof.
  revert b. induction fuel as [|n IH]; intros b; simpl; [set_solver|]. case_decide; [set_solver|].
  intros [->|Hx]%elem_of_cons; [rewrite length_take; lia|by eapply IH].
Qed.
Lemma chunks_concat fuel l :
  (∀ x, x ∈ l → length x = 32) → length l ≤ fuel → chunks fuel (concat l) = l.
Proof.
  revert fuel. induction l as [|x l IH]; intros fuel Hl Hf; [by destruct fuel|].
  destruct fuel as [|fuel]; simpl in *; [lia|]. assert (length x = 32) as Hx by (apply Hl; set_solver).
  rewrite length_app, decide_False by lia. rewrite take_app_length', drop_app_length' by done.
  rewrite IH; [done|set_solver|lia].
Qed.
Lemma ids_of_concat l : (∀ x, x ∈ l → length x = 32) → ids_of (concat l) = l.
Proof.
  intros Hl. apply chunks_concat; [done|]. induction l as [|x l IH]; [done|]. simpl. rewrite length_app.
  assert (length x = 32) by (apply Hl; set_solver). assert (length l ≤ length (concat l)) by (apply IH; set_solver). lia.
Qed.
#[global] Instance toy_negentropy_ids : NegentropyIds.
Proof. split. intros items msg next have need x [= <- <- <-]. rewrite list_elem_of_filter. intros [_ Hx]. by eapply chunks_len. Qed.
#[global] Instance toy_negentropy_laws : NegentropyLaws.
Proof.
  split. intros n mine theirs have need Hlen. destruct n as [|n]; [done|]. simpl. intros [= <- <-].
  rewrite ids_of_concat by auto. split; intros x; rewrite list_elem_of_filter; naive_solver.
Qed.

(** ** JSON *)
#[global] Instance toy_entry_peer : EntryPeer := {|
  json_peer s := el_peer <$> from_json (take (length s - 1) s);
|}.
Definition log_rows (l : SignedLog) : list (list N) := [[sl_peer l]; sl_bytes l].
Fixpoint rows_logs (x : list (list N)) : list SignedLog :=
  match x with [p] :: b :: x => mkSignedLog p b :: rows_logs x | _ => [] end.
Definition bundle_rows (b : TrustBundle) : list (list N) :=
  [tb_v b; N.of_nat (2 * length (rosters b))] :: (rosters b ≫= log_rows) ++ (keylogs b ≫= log_rows).
Definition rows_bundle (x : list (list N)) : option TrustBundle :=
  match x with
  | [v; n] :: x => Some (mkTrustBundle v (rows_logs (take (N.to_nat n) x)) (rows_logs (drop (N.to_nat n) x)))
  | _ => None
  end.
#[global] Instance bundle_json : JsonOf TrustBundle := toy_json bundle_rows rows_bundle.
