(* ===== verification/Witnesses.v ===== *)
(** * Witnesses: the interface theorems applied to concrete vaults

    Each theorem that is stated against an interface is applied here to the
    primitives of Models.v and to a concrete state that meets its hypotheses. *)
From S2P Require Import Prelude RustStr Vfs Roster Wire Logs Keychain Blob Trust Store StoreRoster StoreSync StoreKeys Checkpoint Models.
From Stdlib Require Import Strings.Byte.

(** ** An identity *)
Definition ex_id : Identity := generate (replicate 32 Byte.x05).
Definition ex_id_path : path := [str "home"; str "device.key"].

Lemma identity_save_load_witness :
  load_with_fs ex_id_path (save_with_fs ex_id ex_id_path mem_empty).2 = Ok ex_id.
Proof.
  apply (identity_save_load ex_id ex_id_path mem_empty (save_with_fs ex_id ex_id_path mem_empty).2).
  - exact I.
  - exact I.
  - exact I.
  - decide_true.
  - reflexivity.
  - by_eval.
Defined.

(** ** Logs *)
Definition ex_root : path := [str "vault"].
Definition ex_log : OpLog := OpLog_new (ops_dir ex_root) (id_peer ex_id).
Definition ex_update : bytes := [Byte.x07; Byte.x08].
Definition ex_line : EntryLine := oplog_line ex_log ex_id ex_update.

Lemma oplog_append_read_witness :
  let fs' := (oplog_append ex_log ex_id ex_update mem_empty).2 in
  oplog_read_verified ex_log (id_key ex_id) fs' = Ok [mkEntry (op_peer ex_log) ex_update] ∧
  log_holds fs' (op_path ex_log) [ex_line] ∧
  ∀ q, q ≠ op_path ex_log → files fs' !! q = files mem_empty !! q.
Proof.
  apply (oplog_append_read ex_log ex_id ex_update mem_empty
    (oplog_append ex_log ex_id ex_update mem_empty).2 [] []); [exact I..| | |]; by_eval.
Defined.

Definition ex_rlog : RosterLog := RosterLog_new (roster_dir ex_root) (id_peer ex_id).
Lemma roster_append_read_witness :
  let fs' := (roster_append ex_rlog ex_id 1 (Add Admin) (id_peer ex_id) (id_key ex_id) mem_empty).2 in
  let e := mkRosterEntry 1 1 (Add Admin) (id_peer ex_id) (id_key ex_id) (id_peer ex_id) in
  e = e ∧
  roster_read_verified ex_rlog (id_key ex_id) fs' = Ok ([] ++ [e]) ∧ seq_run seq ([] ++ [e]) ∧
  log_holds fs' (ro_path ex_rlog) ([] ++ [roster_line ex_id e]).
Proof.
  refine (roster_append_read ex_rlog ex_id 1 (Add Admin) (id_peer ex_id) (id_key ex_id) mem_empty
    (roster_append ex_rlog ex_id 1 (Add Admin) (id_peer ex_id) (id_key ex_id) mem_empty).2 [] []
    (mkRosterEntry 1 1 (Add Admin) (id_peer ex_id) (id_key ex_id) (id_peer ex_id)) I I _ _ _ _ _ _);
    [by_eval|by_eval|by_eval| |by_eval|by_eval].
  intros i x Hi. by rewrite lookup_nil in Hi.
Defined.

Lemma torn_append_tolerated_witness :
  let fs := (fs_write (op_path ex_log) (utf8 (log_text [ex_line] ++ take 5 (to_json ex_line))) mem_empty).2 in
  oplog_read_verified ex_log (id_key ex_id) fs = collect (oplog_check ex_log (id_key ex_id) <$> [ex_line]).
Proof.
  apply (torn_append_tolerated ex_log (id_key ex_id)
    (fs_write (op_path ex_log) (utf8 (log_text [ex_line] ++ take 5 (to_json ex_line))) mem_empty).2
    [ex_line] ex_line (take 5 (to_json ex_line))).
  - exact I.
  - exists (drop 5 (to_json ex_line)). by rewrite take_drop.
  - intros Hl%(f_equal length). vm_compute in Hl. discriminate Hl.
  - by_eval.
Defined.

Definition ex_torn : MemState := (fs_write (op_path ex_log) (utf8 (log_text [ex_line] ++ take 5 (to_json ex_line))) mem_empty).2.
Lemma append_after_torn_unreadable_witness :
  oplog_read_verified ex_log (id_key ex_id) (oplog_append ex_log ex_id ex_update ex_torn).2 =
  Err MalformedEntry.
Proof.
  apply (append_after_torn_unreadable ex_log ex_id (id_key ex_id) ex_update ex_torn
    (oplog_append ex_log ex_id ex_update ex_torn).2 [ex_line] ex_line (take 5 (to_json ex_line))).
  - exact I.
  - exact I.
  - exists (drop 5 (to_json ex_line)). by rewrite take_drop.
  - intros Hl%(f_equal length). vm_compute in Hl. discriminate Hl.
  - by_eval.
  - exists [mkEntry (op_peer ex_log) ex_update]. by_eval.
  - by_eval.
  - by_eval.
Defined.

(** A log cut inside the two-byte encoding of U+00E9. *)
Definition ex_cut : MemState := (fs_write (ro_path ex_rlog) (utf8 (str "{") ++ take 1 (utf8_char 233)) mem_empty).2.
Lemma torn_name_unreadable_witness :
  roster_read_verified ex_rlog (id_key ex_id) ex_cut = Err (Io InvalidData).
Proof.
  apply (torn_name_unreadable ex_rlog (id_key ex_id) ex_cut (str "{") 233%N 1);
    [exact I|reflexivity|reflexivity|vm_compute; lia|by_eval].
Defined.

(** ** Key log *)
Definition ex_epoch : bytes := pad 32 [Byte.x0a; Byte.x0b].
Definition ex_rotate : KeyLogEntry :=
  mkKeyLogEntry 1 (id_peer ex_id) ex_epoch (Rotate [EPOCH0_ID] (pad 32 [Byte.x01])).
Definition ex_wrap : KeyLogEntry :=
  mkKeyLogEntry 1 (id_peer ex_id) ex_epoch (Wrap Paper (EPOCH0_ID ++ pad 32 [Byte.x01])).
Lemma key_canonical_bytes_inj_witness : key_canonical_bytes ex_rotate ≠ key_canonical_bytes ex_wrap.
Proof.
  intros Heq. apply (key_canonical_bytes_inj ex_rotate ex_wrap) in Heq; [discriminate Heq|..].
  - unfold key_entry_wf. split_and!; decide_true.
  - unfold key_entry_wf. split_and!; decide_true.
Defined.

(** ** Keychains *)
Definition ex_key (b : byte) : bytes := b :: replicate 31 Byte.x0c.
Definition ex_nonce : bytes := replicate 32 Byte.x02.
Definition ex_secret : bytes := replicate 32 Byte.x05.
Definition ex_wrapped (k : bytes) : bytes :=
  wrap (replicate 32 Byte.x09) (replicate 24 Byte.x03) (x_public ex_secret) k.
Definition ex_eid : bytes := compute_epoch_id [EPOCH0_ID] 7 ex_nonce (ex_key Byte.x01).
(** One epoch minted by peer 7, wrapped to peer 5 and to paper. *)
Definition ex_entries (k : bytes) : list KeyLogEntry :=
  [mkKeyLogEntry 1 7 ex_eid (Rotate [EPOCH0_ID] ex_nonce);
   mkKeyLogEntry 2 7 ex_eid (Wrap (Device 5) (ex_wrapped k));
   mkKeyLogEntry 3 7 ex_eid (Wrap Paper (ex_wrapped k))].
Definition ex_kc (k : bytes) : Keychain := build [] (replicate 32 Byte.x00) 5 ex_secret (ex_entries k).
Definition ex_node (k : bytes) : EpochNode :=
  mkEpochNode [EPOCH0_ID] 7 ex_nonce (Some k) {[5%N]} true.

Lemma unwrap_wrap_witness : unwrap ex_secret (ex_wrapped (ex_key Byte.x01)) = Ok (ex_key Byte.x01).
Proof.
  apply (unwrap_wrap (replicate 32 Byte.x09) (replicate 24 Byte.x03) ex_secret (ex_key Byte.x01));
    reflexivity.
Defined.

Lemma build_key_committed_witness :
  compute_epoch_id [EPOCH0_ID] 7 ex_nonce (ex_key Byte.x01) = ex_eid.
Proof.
  apply (build_key_committed [] (replicate 32 Byte.x00) 5 ex_secret (ex_entries (ex_key Byte.x01)) ex_eid
    (ex_node (ex_key Byte.x01)) (ex_key Byte.x01)); [by_eval|reflexivity|decide_true].
Defined.

(** The toy hash ignores all but the last 31 bytes, so two keys share an id. *)
Lemma key_split_is_collision_witness :
  let committed node k := concat (n_parents node) ++ le_bytes 8 (n_minted_by node) ++ n_nonce node ++ k in
  let x := committed (ex_node (ex_key Byte.x01)) (ex_key Byte.x01) in
  let y := committed (ex_node (ex_key Byte.x02)) (ex_key Byte.x02) in
  x ≠ y ∧ blake3 x = ex_eid ∧ blake3 y = ex_eid.
Proof.
  apply (key_split_is_collision [] (replicate 32 Byte.x00) 5 ex_secret (ex_entries (ex_key Byte.x01))
    (ex_node (ex_key Byte.x01)) (ex_key Byte.x01)
    [] (replicate 32 Byte.x00) 5 ex_secret (ex_entries (ex_key Byte.x02))
    (ex_node (ex_key Byte.x02)) (ex_key Byte.x02) ex_eid);
    [by_eval|by_eval|reflexivity|reflexivity|decide_true|decide_true].
Defined.

(** Another device with other keys, and the log in another order. *)
Lemma heads_agree_witness :
  kc_head (ex_kc (ex_key Byte.x01)) =
  kc_head (build [] [] 9 (replicate 32 Byte.x08) (reverse (ex_entries (ex_key Byte.x01)))).
Proof.
  apply (heads_agree [] (replicate 32 Byte.x00) 5 ex_secret (ex_entries (ex_key Byte.x01))
    [] [] 9 (replicate 32 Byte.x08) (reverse (ex_entries (ex_key Byte.x01)))).
  - intros id a. unfold rotates. by setoid_rewrite elem_of_reverse.
  - intros id a b (e1&p1&n1&He1&_&Hb1&->) (e2&p2&n2&He2&_&Hb2&->).
    repeat (apply elem_of_cons in He1 as [->|He1]); try discriminate Hb1;
    repeat (apply elem_of_cons in He2 as [->|He2]); try discriminate Hb2;
    try (by apply elem_of_nil in He1); try (by apply elem_of_nil in He2).
    injection Hb1 as <- <-. injection Hb2 as <- <-. reflexivity.
Defined.

Lemma seal_classify_open_witness :
  let payload := seal_epoch (replicate 24 Byte.x04) (ex_key Byte.x01) ex_eid [Byte.x2a] in
  let plan := classify (ex_kc (ex_key Byte.x01)) payload in
  plan = mkReadPlan ex_eid (Some (ex_key Byte.x01)) 32 ∧
  open_epoch (ex_key Byte.x01) (drop (rp_body_offset plan) payload) = Ok [Byte.x2a].
Proof.
  apply (seal_classify_open (ex_kc (ex_key Byte.x01)) ex_eid (ex_key Byte.x01) (replicate 24 Byte.x04) [Byte.x2a]);
    [by_eval|decide_true|by_eval|by_eval].
Defined.

Definition ex_member (p : u64) : PeerRecord := mkPeerRecord p (replicate 32 Byte.x00) Active Writer None.
Definition ex_backfill : list KeyLogEntry :=
  [mkKeyLogEntry 4 5 ex_eid (Wrap (Device 6) (ex_wrapped (ex_key Byte.x01)))].
Lemma backfill_converges_witness :
  backfill_targets (build [] (replicate 32 Byte.x00) 5 ex_secret (ex_entries (ex_key Byte.x01) ++ ex_backfill))
    [ex_member 5; ex_member 6] = [].
Proof.
  assert (backfill_targets (ex_kc (ex_key Byte.x01)) [ex_member 5; ex_member 6] =
          [(ex_eid, ex_key Byte.x01, 6%N)]) as Ht by by_eval.
  apply (backfill_converges [] (replicate 32 Byte.x00) 5 ex_secret (ex_entries (ex_key Byte.x01)) ex_backfill
    [ex_member 5; ex_member 6]).
  - intros e He%list_elem_of_singleton. subst e. unfold ex_kc in Ht. rewrite Ht.
    exists (ex_key Byte.x01), 6%N, (ex_wrapped (ex_key Byte.x01)). split; [|reflexivity]. by apply list_elem_of_singleton.
  - intros id k p. unfold ex_kc in Ht. rewrite Ht. intros Hx%list_elem_of_singleton. injection Hx as -> -> ->.
    eexists _, _. split; [by apply list_elem_of_singleton|]. split; reflexivity.
Defined.

Definition ex_rotation : KeyLogEntry :=
  mkKeyLogEntry 4 7 ex_epoch (Rotate (dag_heads (ex_kc (ex_key Byte.x01))) ex_nonce).
Lemma rotation_merges_heads_witness :
  dag_heads (build [] (replicate 32 Byte.x00) 5 ex_secret (ex_entries (ex_key Byte.x01) ++ [ex_rotation])) = [ex_epoch] ∧
  kc_head (build [] (replicate 32 Byte.x00) 5 ex_secret (ex_entries (ex_key Byte.x01) ++ [ex_rotation])) = ex_epoch.
Proof.
  apply (rotation_merges_heads [] (replicate 32 Byte.x00) 5 ex_secret (ex_entries (ex_key Byte.x01))
    ex_rotation ex_nonce []).
  - reflexivity.
  - intros w Hw. by apply elem_of_nil in Hw.
  - by_eval.
  - intros x node Hx.
    assert (map_Forall (λ _ n, ex_epoch ∉ n_parents n) (kc_epochs (ex_kc (ex_key Byte.x01)))) as Hall by decide_true.
    exact (Hall x node Hx).
Defined.

(** ** The trusted roster *)
Definition ex_peer_key (n : N) : bytes := pad 32 [byte_of_N n].
Definition ex_vouch : RosterEntry := mkRosterEntry 1 1 (Add Writer) 2 (ex_peer_key 2) 1.
Definition ex_read (a : u64) (k : bytes) : option (list RosterEntry) :=
  if (a =? 1)%N then Some [ex_vouch] else Some [].
Definition ex_seeds : gmap u64 bytes := {[1%N := ex_peer_key 1]}.
Definition pick_first (s : gset u64) : option u64 := head (elements s).
Definition pick_last (s : gset u64) : option u64 := last (elements s).

Lemma pick_first_chooses : chooses pick_first.
Proof.
  split; intros s; unfold pick_first.
  - intros a Ha. apply elem_of_elements. destruct (elements s); [done|]. injection Ha as ->. apply elem_of_cons. by left.
  - intros Hs. apply leibniz_equiv, elements_empty_iff. by destruct (elements s).
Qed.
Lemma pick_last_chooses : chooses pick_last.
Proof.
  split; intros s; unfold pick_last.
  - intros a Ha. by apply elem_of_elements, last_Some_elem_of.
  - intros Hs%last_None. by apply leibniz_equiv, elements_empty_iff.
Qed.

Lemma ex_believed a k :
  Believed (λ _, true) ex_read ex_seeds a k → (a, k) = (1%N, ex_peer_key 1) ∨ (a, k) = (2%N, ex_peer_key 2).
Proof.
  induction 1 as [a k Ha|a k es e _ IH _ Hr He _].
  - unfold ex_seeds in Ha. apply lookup_singleton_Some in Ha as [<- <-]. by left.
  - right. unfold ex_read in Hr. destruct (a =? 1)%N; injection Hr as <-.
    + apply list_elem_of_singleton in He as ->. reflexivity.
    + by apply elem_of_nil in He.
Qed.

Lemma collect_order_independent_witness :
  ∃ es1 es2,
    collect_loop pick_first (λ _, true) ex_read 5 ex_seeds ∅ [] = Some es1 ∧
    collect_loop pick_last (λ _, true) ex_read 5 ex_seeds ∅ [] = Some es2 ∧
    (∀ e, e ∈ es1 ↔ believed_entry (λ _, true) ex_read ex_seeds e) ∧
    without_name <$> merge_roster es1 (Some 1%N) = without_name <$> merge_roster es2 (Some 1%N).
Proof.
  apply (collect_order_independent (λ _, true) ex_read ex_seeds {[1%N; 2%N]} pick_first pick_last 5 5 (Some 1%N)).
  - intros a k k' H1%ex_believed H2%ex_believed.
    destruct H1 as [H1|H1], H2 as [H2|H2]; injection H1 as -> ->; injection H2; try discriminate; auto.
  - decide_true.
  - intros a k es e _ Hr He. unfold ex_read in Hr. destruct (a =? 1)%N; injection Hr as <-.
    + apply list_elem_of_singleton in He as ->. decide_true.
    + by apply elem_of_nil in He.
  - apply pick_first_chooses.
  - apply pick_last_chooses.
  - decide_true.
  - decide_true.
Defined.

(** ** A vault with one device, its founder *)
Abbreviation ExStore := (Store MemState (list bytes) nat).
Definition ex_new : ExStore := mkStore ex_root ex_id [] 0 [] None mem_empty.
Definition ex_founded : ExStore := (declare_founder pick_first 5 Admin ex_new).2.
Definition ex_named : ExStore := (set_device_name pick_first 5 (str "kitchen") ex_founded).2.
Definition ex_own (s : ExStore) : list RosterEntry :=
  match roster_read_verified (own_roster s) (id_key (identity s)) (fs s) with Ok es => es | Err _ => [] end.
Definition ex_alone : gmap u64 bytes := {[id_peer ex_id := id_key ex_id]}.

Section alone.
Variable s : ExStore.
Hypothesis root_s : root s = ex_root.
Hypothesis id_s : identity s = ex_id.
Hypothesis read_s : read_author (root s) (fs s) (id_peer ex_id) (id_key ex_id) = Some (ex_own s).
Hypothesis own_s : Forall (λ e, subject_peer e = id_peer ex_id ∧ subject_key e = id_key ex_id) (ex_own s).

Lemma alone_believed a k :
  Believed ed_key_ok (read_author (root s) (fs s)) ex_alone a k → a = id_peer ex_id ∧ k = id_key ex_id.
Proof.
  induction 1 as [a k Ha|a k es e _ IH _ Hr He _].
  - unfold ex_alone in Ha. apply lookup_singleton_Some in Ha as [<- <-]. done.
  - destruct IH as [-> ->]. rewrite Hr in read_s. injection read_s as ->.
    rewrite Forall_forall in own_s. by destruct (own_s e He) as [-> ->].
Qed.

Lemma alone_state lines :
  seed_keys (root s) (me s) (mykey s) (founder s) (fs s) = Ok ex_alone →
  log_holds (fs s) (roster_file (root s) (me s)) lines →
  roster_read_verified (own_roster s) (mykey s) (fs s) = Ok (ex_own s) →
  seq_run seq (ex_own s) → (N.of_nat (length (ex_own s)) < U64_MAX)%N →
  roster_state pick_first 5 s ex_alone {[id_peer ex_id]} lines (ex_own s).
Proof.
  intros Hseed Hl Hr Hq Hm. split; try done.
  - intros a k k' [_ ->]%alone_believed [_ ->]%alone_believed. done.
  - intros a k es e Hb Hre He. apply alone_believed in Hb as [-> ->]. rewrite Hre in read_s.
    injection read_s as ->. rewrite Forall_forall in own_s. destruct (own_s e He) as [-> _]. by apply elem_of_singleton.
  - rewrite size_singleton. lia.
  - apply pick_first_chooses.
Qed.
End alone.

Definition ex_lines (s : ExStore) : list RosterLine := roster_line ex_id <$> ex_own s.
Definition A : u64 := id_peer ex_id.
Definition kA : bytes := id_key ex_id.

(** [seq_run] of a literal list *)
Lemma seq_run_check {E} (sq : E → u64) es :
  forallb (λ x, (sq x.2 =? N.of_nat (S x.1))%N) (imap pair es) = true → seq_run sq es.
Proof.
  intros Hall i e Hi. rewrite forallb_forall in Hall.
  assert (list_In := Hall (i, e)). apply N.eqb_eq, list_In, list_elem_of_In, list_elem_of_lookup.
  exists i. by rewrite list_lookup_imap, Hi.
Qed.

Lemma ex_founded_state : roster_state pick_first 5 ex_founded ex_alone {[A]} (ex_lines ex_founded) (ex_own ex_founded).
Proof.
  apply alone_state; try by_eval; [|apply seq_run_check; by_eval].
  refine (bool_decide_unpack (Forall _ _) _). vm_compute. exact I.
Qed.
Lemma ex_named_state : roster_state pick_first 5 ex_named ex_alone {[A]} (ex_lines ex_named) (ex_own ex_named).
Proof.
  apply alone_state; try by_eval; [|apply seq_run_check; by_eval].
  refine (bool_decide_unpack (Forall _ _) _). vm_compute. exact I.
Qed.

Lemma set_role_effective_witness :
  role_of (set_role pick_first 5 A kA Writer ex_founded).2 A = Some Writer.
Proof.
  apply (set_role_effective pick_first 5 ex_founded ex_alone {[A]} (ex_lines ex_founded) (ex_own ex_founded)
    (ex_own ex_founded) A kA Writer (set_role pick_first 5 A kA Writer ex_founded).2).
  - apply ex_founded_state.
  - by_eval.
  - apply believed_seed. by_eval.
  - by_eval.
  - refine (proj1 (Forall_forall (λ x, is_u64 (lamport x)) _) _). decide_true.
  - refine (proj1 (Forall_forall (λ x, subject_peer x = A → lamport x ≤ _)%N _) _). decide_true.
  - by_eval.
  - apply ea_founder. by_eval.
  - discriminate.
  - by_eval.
Defined.

Definition ex_name_entry : RosterEntry := mkRosterEntry 2 2 (SetName (str "kitchen")) A kA A.
Lemma role_change_after_name_lost_witness :
  privileges <$> peers (set_role pick_first 5 A kA Writer ex_named).2 =
  privileges <$> merge_roster (ex_own ex_named) (founder ex_named).
Proof.
  apply (role_change_after_name_lost pick_first 5 ex_named ex_alone {[A]} (ex_lines ex_named) (ex_own ex_named)
    (ex_own ex_named) A kA Writer (set_role pick_first 5 A kA Writer ex_named).2 ex_name_entry).
  - apply ex_named_state.
  - by_eval.
  - apply believed_seed. by_eval.
  - by_eval.
  - refine (proj1 (Forall_forall (λ x, is_u64 (lamport x)) _) _). decide_true.
  - decide_true.
  - exact I.
  - reflexivity.
  - split; by_eval.
  - refine (proj1 (Forall_forall (λ x, lamport x < U64_MAX)%N _) _). decide_true.
  - decide_true.
  - discriminate.
  - by_eval.
Defined.

(** Before the founder is declared nobody may change the roster. *)
Lemma roster_change_needs_admin_witness :
  add_peer pick_first 5 A kA Admin ex_new = (Err Peer, ex_new) ∧
  set_role pick_first 5 A kA Admin ex_new = (Err Peer, ex_new) ∧
  revoke_peer pick_first 5 A kA ex_new = (Err Peer, ex_new).
Proof. apply (roster_change_needs_admin pick_first 5 ex_new A kA Admin). discriminate. Defined.

(** ** A second device *)
Definition ex_b : Identity := generate (replicate 32 Byte.x06).
Definition B : u64 := id_peer ex_b.
Definition ex_b_roster : bytes := utf8 (log_text [roster_line ex_b (mkRosterEntry 1 1 (Add Writer) B (id_key ex_b) B)]).
Definition ex_imported : ExStore := (import_roster pick_first 5 B (id_key ex_b) ex_b_roster ex_founded).2.

Lemma import_roster_append_only_witness :
  extends (roster_file ex_root B) ex_b_roster (fs ex_founded) (fs ex_imported) ∧
  (files (fs ex_imported) !! roster_file ex_root B ≠ files (fs ex_founded) !! roster_file ex_root B →
     B ≠ A ∧ is_ok (roster_verify_bytes (RosterLog_new (roster_dir ex_root) B) (id_key ex_b) ex_b_roster) = true) ∧
  (Ok tt = (Ok tt : result StorageError unit) → files (fs ex_imported) !! roster_file ex_root B = Some ex_b_roster) ∧
  (∀ q, q ≠ roster_file ex_root B → q ≠ cache_path ex_root → q ≠ cache_tmp ex_root →
     files (fs ex_imported) !! q = files (fs ex_founded) !! q).
Proof.
  refine (import_roster_append_only pick_first 5 B (id_key ex_b) ex_b_roster ex_founded (Ok tt) ex_imported
    I (conj I I) I _). by_eval.
Defined.

Definition ex_bundled : ExStore := (import_roster_bundle pick_first 5 [(B, ex_b_roster); (A, [])] ex_founded).2.
Lemma import_bundle_append_only_witness : rosters_grow ex_root A (fs ex_founded) (fs ex_bundled).
Proof.
  refine (import_bundle_append_only pick_first 5 [(B, ex_b_roster); (A, [])] ex_founded (Ok tt) ex_bundled
    I (conj I I) (λ _, I) _). by_eval.
Defined.

(** A has vouched for B as a writer. *)
Definition ex_two : ExStore := (add_peer pick_first 5 B (id_key ex_b) Writer ex_founded).2.
Definition ex_b_log : OpLog := OpLog_new (ops_dir ex_root) B.
Definition ex_b_lines : list EntryLine := [oplog_line ex_b_log ex_b ex_update; oplog_line ex_b_log ex_b [Byte.x09]].
Definition ex_b_ops : bytes := utf8 (log_text ex_b_lines).

Lemma import_peer_guarded_witness :
  let s' := (import_peer B (id_key ex_b) ex_b_ops ex_two).2 in
  (Ok tt = (Ok tt : result StorageError unit) → files (fs s') !! ops_file ex_root B = Some ex_b_ops) ∧
  (files (fs s') = files (fs ex_two) ∨
   files (fs s') = <[ops_file ex_root B := ex_b_ops]> (files (fs ex_two)) ∧
   may_import ex_two B (id_key ex_b) ex_b_ops).
Proof.
  refine (import_peer_guarded B (id_key ex_b) ex_b_ops ex_two (Ok tt)
    (import_peer B (id_key ex_b) ex_b_ops ex_two).2 I I _). by_eval.
Defined.

Lemma apply_peer_ops_append_only_witness :
  let s' := (apply_peer_ops B (id_key ex_b) ex_b_ops ex_two).2 in
  default [] (files (fs ex_two) !! ops_file ex_root B) `prefix_of` default [] (files (fs s') !! ops_file ex_root B) ∧
  (∀ q, q ≠ ops_file ex_root B → files (fs s') !! q = files (fs ex_two) !! q) ∧
  (B = A → s' = ex_two).
Proof.
  refine (apply_peer_ops_append_only B (id_key ex_b) ex_b_ops ex_two (Ok tt)
    (apply_peer_ops B (id_key ex_b) ex_b_ops ex_two).2 I I _). by_eval.
Defined.

(** ** Raw log lines *)
Definition ln (n : N) : bytes := [byte_of_N n; byte_of_N (n + 1); NL].
Lemma ln_complete n : byte_of_N n ≠ NL → byte_of_N (n + 1) ≠ NL → complete_line (ln n).
Proof.
  intros ??. exists [byte_of_N n; byte_of_N (n + 1)]. split; [done|].
  rewrite !elem_of_cons, elem_of_nil. naive_solver.
Qed.
Lemma suffix_dec_free (ls : list bytes) :
  Forall (λ a, Forall (λ b, drop (length b - length a) b = a → length a ≤ length b → a = b) ls) ls →
  suffix_free ls.
Proof.
  rewrite Forall_forall. intros Hall a b Ha Hb [k ->]. specialize (Hall a Ha).
  rewrite Forall_forall in Hall. apply (Hall _ Hb).
  - rewrite length_app. by rewrite drop_app_length' by lia.
  - rewrite length_app. lia.
Qed.

Lemma merge_peer_log_reassembles_witness :
  merge_peer_log (concat ([ln 65] ++ [ln 75])) (concat ([ln 75] ++ [ln 85])) =
  concat ([ln 65] ++ [ln 75] ++ [ln 85]).
Proof.
  apply (merge_peer_log_reassembles [ln 65] [ln 75] [ln 85]).
  - repeat (apply Forall_cons; split; [apply ln_complete; decide_true|]). apply Forall_nil, I.
  - decide_true.
  - apply suffix_dec_free. decide_true.
Defined.

Lemma append_unseen_union_witness :
  ∃ new, split_log_lines_bytes (concat [ln 65; ln 75]) = [ln 65] ++ new ∧ 1 = length new ∧ NoDup new ∧
    (∀ l, l ∈ new ↔ l ∈ [ln 65; ln 75; ln 75] ∧ l ∉ [ln 65]) ∧
    append_unseen (split_log_lines_bytes (concat [ln 65; ln 75])) (concat [ln 65; ln 75]) 0
      [ln 65; ln 75; ln 75] = (concat [ln 65; ln 75], 0).
Proof.
  apply (append_unseen_union [ln 65] [ln 65; ln 75; ln 75] (concat [ln 65; ln 75]) 1).
  - repeat (apply Forall_cons; split; [apply ln_complete; decide_true|]). apply Forall_nil, I.
  - repeat (apply Forall_cons; split; [apply ln_complete; decide_true|]). apply Forall_nil, I.
  - by_eval.
Defined.

(** ** Minting an epoch *)
Definition ex_rng (i : nat) : bytes * bytes := (replicate 32 (byte_of_N (N.of_nat i)), replicate 24 Byte.x03).
Definition ex_rotated := rotate_epoch ex_rng ex_nonce (ex_key Byte.x01) [] [] None ex_two.
Definition ex_new_epoch : bytes := compute_epoch_id [EPOCH0_ID] A ex_nonce (ex_key Byte.x01).

Lemma rotate_epoch_delivers_witness :
  ∃ kc news,
    let parents := dag_heads kc in
    keychain [] [] ex_two = Ok kc ∧
    ex_new_epoch = compute_epoch_id parents A ex_nonce (ex_key Byte.x01) ∧
    key_read_verified (own_keylog ex_rotated.2) (id_key (identity ex_rotated.2)) (fs ex_rotated.2) = Ok ([] ++ news) ∧
    rotates news ex_new_epoch (parents, A, ex_nonce) ∧
    ∀ rec sec ik kk entries,
      rec ∈ peers ex_two → status rec = Active → verifying_key rec = ed_public sec →
      news ⊆ entries → ex_new_epoch ≠ EPOCH0_ID →
      (∀ a, rotates entries ex_new_epoch a → a = (parents, A, ex_nonce)) →
      ∃ key', epoch_key (build ik kk (peer_id rec) (ed_secret_to_x sec) entries) ex_new_epoch = Some key' ∧
        compute_epoch_id parents A ex_nonce key' = ex_new_epoch.
Proof.
  apply (rotate_epoch_delivers ex_rng (λ _, eq_refl) ex_two [] [] ex_nonce (ex_key Byte.x01) [] [] None ex_new_epoch ex_rotated.2).
  - refine {| ks_inv := I; ks_path := I |}; [by_eval|by_eval|apply seq_run_check; by_eval].
  - reflexivity.
  - reflexivity.
  - decide_true.
  - by_eval.
Defined.

(** ** Blobs *)
Definition ex_assets : path := ex_root ++ [str "assets"].
Definition ex_blob : bytes := [Byte.x01; Byte.x02; Byte.x03; Byte.x04; Byte.x05].
Definition ex_hash : rstring := blob_hash ex_blob.
Definition ex_stored := blob_put ex_assets ex_blob mem_empty.

Lemma empty_intact (r : path) : blobs_intact r mem_empty.
Proof. intros h b _ Hl. discriminate Hl. Qed.
Lemma mem_blob_paths (r : path) h : blob_paths (Fs := MemState) r h.
Proof. by split_and!. Qed.

Lemma blob_put_get_witness :
  ex_hash = ex_hash ∧ blobs_intact ex_assets ex_stored.2 ∧
  (∃ b', blob_get ex_assets ex_hash ex_stored.2 = Ok (Some b') ∧ blake3 b' = blake3 ex_blob ∧
         (files mem_empty !! (ex_assets ++ [ex_hash]) = None → b' = ex_blob)) ∧
  (∀ q, q ≠ ex_assets ++ [ex_hash] → q ≠ temp_path ex_assets ex_hash →
     files ex_stored.2 !! q = files mem_empty !! q).
Proof.
  apply (blob_put_get ex_assets ex_blob mem_empty ex_hash ex_stored.2);
    [exact I|apply mem_blob_paths|apply empty_intact|by_eval|by_eval].
Defined.

(** A poisoned chunk, a forged total, and an honest store of the same blob. *)
Definition ex_ops : list blob_op :=
  [OpChunk ex_hash 0 5 [Byte.x09]; OpChunk ex_hash 0 1 [Byte.x01]; OpFinalize ex_hash; OpPut ex_blob;
   OpRemove (str "../x"); OpDiscard ex_hash].
Lemma blobs_stay_intact_witness :
  let f' := foldl (run_blob_op ex_assets) mem_empty ex_ops in
  blobs_intact ex_assets f' ∧
  ∀ h, is_valid_hash h = true →
    blob_get ex_assets h f' = Ok None ∨ ∃ b, blob_get ex_assets h f' = Ok (Some b) ∧ blob_hash b = h.
Proof.
  apply (blobs_stay_intact ex_assets ex_ops mem_empty); [exact I|intros; apply mem_blob_paths|apply empty_intact].
Defined.

(** Chunks out of order, overlapping and repeated. *)
Definition ex_chunks : list (u64 * bytes) :=
  [(3%N, [Byte.x04; Byte.x05]); (0%N, [Byte.x01; Byte.x02]); (3%N, [Byte.x04; Byte.x05]);
   (1%N, [Byte.x02; Byte.x03])].
Definition ex_sent : MemState := (send_chunks ex_assets ex_hash 5 ex_chunks mem_empty).2.
Lemma chunks_reassemble_witness :
  true = true ∧
  blob_get ex_assets ex_hash (finalize_incoming ex_assets ex_hash ex_sent).2 = Ok (Some ex_blob) ∧
  files (finalize_incoming ex_assets ex_hash ex_sent).2 !! part_path ex_assets ex_hash = None.
Proof.
  apply (chunks_reassemble ex_assets ex_blob ex_chunks mem_empty ex_sent
    (finalize_incoming ex_assets ex_hash ex_sent).2 true);
    [exact I|apply mem_blob_paths|by_eval|discriminate|repeat constructor| |by_eval|by_eval].
  intros i Hi. destruct (decide (i < 2)); [|destruct (decide (i < 3))].
  - exists (0%N, [Byte.x01; Byte.x02]). split; [decide_true|unfold in_chunk; simpl; lia].
  - exists (1%N, [Byte.x02; Byte.x03]). split; [decide_true|unfold in_chunk; simpl; lia].
  - exists (3%N, [Byte.x04; Byte.x05]). split; [decide_true|unfold in_chunk; simpl in *; lia].
Defined.

Lemma part_never_resized_witness :
  let calls := [(0%N, 2%N, [Byte.x09]); (4%N, 9%N, [Byte.x01; Byte.x01]); (1%N, 5%N, [Byte.x07])] in
  let f' := foldl (λ f c, (write_incoming_chunk ex_assets ex_hash c.1.1 c.1.2 c.2 f).2) ex_sent calls in
  ∃ l', files f' !! part_path ex_assets ex_hash = Some l' ∧ length l' = length ex_blob.
Proof.
  apply (part_never_resized ex_assets ex_hash
    [(0%N, 2%N, [Byte.x09]); (4%N, 9%N, [Byte.x01; Byte.x01]); (1%N, 5%N, [Byte.x07])] ex_sent ex_blob);
    [exact I|apply mem_blob_paths|by_eval].
Defined.

(** ** Checkpoints *)
Definition ex_disk : MemState := (fs_create_dir_all ex_assets ex_stored.2).2.
Lemma reclaim_matches_dry_run_witness :
  let f' := (reclaim ex_assets ∅ 0%N [ex_hash] ex_disk).2 in
  (∃ on_disk, disk_sizes ex_assets [ex_hash] ex_disk = Ok on_disk ∧ 5%N = reclaimable_blob_bytes on_disk ∅) ∧
  (∀ h, is_valid_hash h = true → h ∉ (∅ : gset rstring) → files f' !! (ex_assets ++ [h]) = None) ∧
  (∀ q, (∀ h, is_valid_hash h = true → h ∉ (∅ : gset rstring) → q ≠ ex_assets ++ [h]) →
     files f' !! q = files ex_disk !! q).
Proof.
  apply (reclaim_matches_dry_run ex_assets ∅ ex_disk (reclaim ex_assets ∅ 0%N [ex_hash] ex_disk).2 [ex_hash] 5%N);
    [exact I|intros; exact I|by_eval|by_eval].
Defined.

(** B's log of three lines. *)
Definition ex_b_three : list EntryLine :=
  (λ n, oplog_line ex_b_log ex_b [byte_of_N n]) <$> [1%N; 2%N; 3%N].

(** The whole operations: a vault where B's three updates arrive around a
    snapshot, checkpointed once and then again for the same time. *)
Definition ex_update_of (n : N) : bytes := utf8 (log_text [oplog_line ex_b_log ex_b [byte_of_N n]]).
Definition ex_ready : ExStore := set_fs (fs_create_dir_all ex_assets (fs ex_two)).2 ex_two.
Definition ex_received : ExStore := (apply_peer_ops B (id_key ex_b) (ex_update_of 2 ++ ex_update_of 3)
    (write_snapshot 5
      (apply_peer_ops B (id_key ex_b) (ex_update_of 1) ex_ready).2).2).2.
Definition ex_checkpointed : ExStore := (checkpoint 10 ex_received).2.
Definition ex_checkpointed_again : ExStore := (checkpoint 10 ex_checkpointed).2.
Definition reopened (s : ExStore) : result StorageError (list bytes) :=
  doc <$> (open_with_fs (Doc := list bytes) (Ver := nat) pick_first 5 (root s) (identity s) (fs s)).1.

(** What is lost, seen in the document. In the vault above the first
    [checkpoint] loses nothing: reopened, the document has all three updates (the
    first one from the snapshot). The second one, for the same time and with
    nothing received in between, succeeds too, and the reopened document has
    lost the second update. *)
Theorem repeated_checkpoint_loses_ops :
  (checkpoint 10 ex_received).1 = Ok 0%N ∧
  reopened ex_checkpointed = Ok [[Byte.x01]; [Byte.x02]; [Byte.x03]] ∧
  (checkpoint 10 ex_checkpointed).1 = Ok 0%N ∧
  reopened ex_checkpointed_again = Ok [[Byte.x01]; [Byte.x03]].
Proof. split_and!; by_eval. Qed.

Definition ex_markers : list Marker :=
  Eval vm_compute in match markers (history_dir ex_root) (fs ex_received) with Ok ms => ms | Err _ => [] end.
Definition ex_marker : Marker := default (mkMarker 0 [] ∅) (head ex_markers).
Lemma checkpoint_twice_drops_twice_witness :
  marker_before (history_dir (root ex_checkpointed)) 10 (fs ex_checkpointed) = Ok (Some ex_marker) ∧
  log_holds (fs ex_checkpointed) (log_file (root ex_received) B) (drop 1 ex_b_three) ∧
  log_holds (fs ex_checkpointed_again) (log_file (root ex_received) B) (drop (1 + 1) ex_b_three).
Proof.
  apply (checkpoint_twice_drops_twice ex_received ex_checkpointed ex_checkpointed_again 10 0%N 0%N ex_markers ex_marker B 1%N ex_b_three);
    [intros; exact I|exact I|by_eval..].
Defined.
