(* ===== verification/FilesWitnesses.v ===== *)
(** * The folder bridge's theorems on a concrete vault

    A vault [/v] with metadata in [/m], a store with the text document of FilesModels
    in [s], and the theorems of Textdiff, Rebase, Paths and BridgeSpec applied to it. *)
From S2P Require Import Prelude RustStr Vfs Roster Wire Logs Keychain Blob Trust Store StoreRoster StoreSync.
From S2P Require Import Checkpoint Textdiff Rebase Paths Bridge BridgeSpec StoreEdit Models FilesModels.
From Stdlib Require Import Strings.Byte.

(** ** Texts *)
Definition t_abc : rstring := str "abc".

Lemma diff_to_ops_applies_witness : apply_ops t_abc (diff_to_ops t_abc (str "axc")) = Some (str "axc").
Proof. apply diff_to_ops_applies. Defined.
Lemma diff_to_ops_minimal_witness :
  (diff_to_ops_bounded t_abc (str "axc") 10 = [] ↔ t_abc = str "axc") ∧
  coalesced (diff_to_ops_bounded t_abc (str "axc") 10) = true.
Proof. apply diff_to_ops_minimal; decide_true. Defined.
Lemma unchanged_text_ops_witness : diff_to_ops t_abc t_abc = [].
Proof. apply (unchanged_text_ops t_abc). decide_true. Defined.

Lemma merge_is_weave_witness :
  merge_local_onto_remote t_abc (str "aYc") (str "aZc") =
    Some (weave (atoms (from_chars t_abc (str "aYc"))) (atoms (from_chars t_abc (str "aZc"))),
          detect_conflicts t_abc (local_edits t_abc (str "aYc")) (local_edits t_abc (str "aZc"))).
Proof. apply merge_is_weave. Defined.
Lemma merge_one_sided_witness :
  merge_local_onto_remote t_abc (str "aY") t_abc = Some (str "aY", []) ∧
  merge_local_onto_remote t_abc t_abc (str "abcd") = Some (str "abcd", []).
Proof. apply merge_one_sided. Defined.
Lemma merge_lossless_witness :
  ∃ m cs, merge_local_onto_remote t_abc (str "abcL") (str "abR") = Some (m.*2, cs) ∧
    from_side Remote m = inserted (atoms (from_chars t_abc (str "abR"))) ∧
    from_side Local m = inserted (atoms (from_chars t_abc (str "abcL"))) ∧
    from_side Ancestor m = survivors t_abc (flags (atoms (from_chars t_abc (str "abcL"))))
                                     (flags (atoms (from_chars t_abc (str "abR")))).
Proof. apply merge_lossless. Defined.
Lemma conflicts_exact_witness :
  let cs := detect_conflicts t_abc (local_edits t_abc (str "aY")) (local_edits t_abc (str "aZ")) in
  ∃ c, c ∈ cs ∧ ancestor_start c ≤ 1 < ancestor_end c.
Proof.
  intros cs. refine (proj2 (proj1 (conflicts_exact t_abc (str "aY") (str "aZ") (str "aZY") cs _) 1) _); [by_eval|].
  split; by_eval.
Defined.
Lemma insert_inside_delete_conflicts_witness :
  mkConflict 1 1 [] ∈ detect_conflicts t_abc (local_edits t_abc []) (local_edits t_abc (str "aXbc")).
Proof.
  refine (insert_inside_delete_conflicts t_abc [] (str "aXbc") (str "Xbc") _ 0 3 1 (str "Xbc") _ _ _ _);
    [by_eval|decide_true..].
Defined.

(** ** Paths *)
Definition v_root : Path := str "/v".
Definition m_root : Path := str "/m".
Lemma container_id_inside_witness :
  ∃ rel, target v_root (str "/v/x/../a.md") = lexical_normalize v_root ++ rel ∧
    Forall (λ n, good_name n = true) rel ∧ (str ".." ∉ lexical_normalize v_root) ∧
    str "a.md" = nfc (join_on SLASH rel) ∧ str "a.md" ≠ FILESET_MAP_ID.
Proof. apply (container_id_inside v_root (str "/v/x/../a.md") (str "a.md")). by_eval. Defined.
Lemma container_id_key_to_path_witness :
  container_id v_root (key_to_path v_root (join_on SLASH [str "x"; str "a.md"])) = Ok (join_on SLASH [str "x"; str "a.md"]).
Proof. apply container_id_key_to_path; [done|decide_true|decide_true|by_eval|decide_true]. Defined.
Lemma parent_root_rejects_all_witness :
  container_id (str "../v") (str "../v/a.md") = Err (PathEscapesVault (str "../v/a.md")).
Proof. apply parent_root_rejects_all. decide_true. Defined.

(** ** A vault *)
Abbreviation VStore := (Store MemState TextDoc nat).
Definition v_id : Identity := generate (replicate 32 Byte.x05).
Definition v_peer (r : Role) : PeerRecord := mkPeerRecord (id_peer v_id) (id_key v_id) Active r None.
Definition v_store (r : Role) (d : TextDoc) : VStore :=
  mkStore [str "s"] v_id d (td_edits d) [v_peer r] None mem_empty.
Definition mem_with (m : gmap path bytes) : MemState := mkMemState m {[[str "v"]]} ∅.
Definition v_state (r : Role) (d : TextDoc) (m : gmap path bytes) : BridgeState MemState VStore :=
  mkBS (mem_with m) (v_store r d).

(** The file [a.md], and a file system without symbolic links. *)
Definition a_key : rstring := str "a.md".
Definition a_file : Path := key_to_path v_root a_key.
Definition no_links (p : Path) (_ : MemState) : option path := Some (lexical_normalize p).

Lemma v_inv r d m : bs_inv (Fr := nat) (v_state r d m).
Proof. split; [exact I|]. split; [exact I|]. split; [exact I|]. intros h _. by split_and!. Qed.
Lemma a_separate : separate (D := MemState) m_root a_file a_key.
Proof.
  refine (separate_key v_root m_root [] a_key _ (λ _, I) _ _); [|done|by_eval].
  split; decide_true.
Qed.
Lemma a_id : container_id v_root a_file = Ok a_key.
Proof. by_eval. Qed.

(** *** Importing: the last sync was at [ab], the store moved to [abR], the file to [abL] *)
Definition doc_R : TextDoc := mkTextDoc {[a_key := str "abR"]} ∅ 3.
Definition base_sidecar : bytes := utf8 (to_json (synced_at a_key (str "ab"))).
Definition s_edit : BridgeState MemState VStore :=
  v_state Admin doc_R (<[os (sidecar_path m_root a_key) := base_sidecar]> {[os a_file := utf8 (str "abL")]}).

Lemma s_edit_importable : importable (Fr := nat) v_root a_file a_key (str "abL") s_edit.
Proof. split; [by_eval|]. split; [exact a_id|]. split; [by_eval|]. split; by_eval. Qed.
Lemma s_edit_sidecar : sidecar_load m_root a_key (bs_disk s_edit) = Ok (Some (synced_at a_key (str "ab"))).
Proof. by_eval. Qed.


Definition s_imported := (import_file v_root m_root None a_file s_edit).2.
Definition s_projected := (project_file no_links v_root m_root a_file s_imported).2.
Lemma import_project_settles_witness :
  st_text a_key (bs_store s_projected) =
    import_target (Some (synced_at a_key (str "ab"))) (st_text a_key (bs_store s_edit)) (str "abL").
Proof.
  refine (proj1 (import_project_settles v_root m_root None no_links a_file a_key (str "abL") s_edit
    (mkOutcome 1 true []) s_imported changed_no_ops s_projected _
    (v_inv _ _ _) a_separate s_edit_importable s_edit_sidecar _ _)); by_eval.
Defined.

Lemma dirty_projection_refused_witness :
  project_file no_links v_root m_root a_file s_edit = (Err (DirtyFile a_file), s_edit).
Proof.
  refine (dirty_projection_refused v_root m_root no_links a_file a_key (str "abL") s_edit _
    (v_inv _ _ _) a_separate a_id s_edit_sidecar _ _ _ _); [by_eval|by_eval|decide_true|].
  intros sc [= <-]. decide_true.
Defined.

Definition s_reader : BridgeState MemState VStore := v_state Reader doc_R {[os a_file := utf8 (str "abL")]}.
Lemma read_only_refuses_witness : import_file v_root m_root None a_file s_reader = (Err ReadOnly, s_reader).
Proof.
  refine (proj1 (read_only_refuses v_root m_root None no_links a_file a_file a_file 0 [] 0%Z s_reader _)). by_eval.
Defined.

(** *** Deleting: the store moved on since the last sync *)
Lemma delete_file_tombstones_witness :
  let s' := (delete_file v_root m_root a_file s_edit).2 in
  files (bs_disk s') !! os a_file = None ∧ files (bs_disk s') !! os (sidecar_path m_root a_key) = None ∧
  same_texts (Fr := nat) (bs_store s_edit) (bs_store s') ∧
  ∃ at_, st_map (Fr := nat) (bs_store s') !! a_key =
    Some (to_value (mkFileEntry Text Tombstoned (text_hash (str "ab")) None (Some at_))).
Proof.
  refine (delete_file_tombstones v_root m_root a_file a_key s_edit changed_no_ops _ _
    (v_inv _ _ _) a_separate a_id _ s_edit_sidecar _); [exact I|by_eval].
Defined.

(** *** Tombstones of files still on disk *)
Definition tomb (hash : rstring) : FileEntry := mkFileEntry Text Tombstoned hash None None.
Definition doc_tomb (hash : rstring) : TextDoc :=
  mkTextDoc {[a_key := str "abR"]} {[a_key := to_value (tomb hash)]} 3.
Definition s_tomb (r : Role) (hash : rstring) : BridgeState MemState VStore :=
  v_state r (doc_tomb hash) {[os a_file := utf8 (str "abR")]}.

Lemma s_tomb_on_disk r hash : tombstone_on_disk v_root no_links a_file a_key (tomb hash) {[a_key]} (s_tomb r hash).
Proof. split; [done|]. split; [done|]. split; [done|]. split; [set_solver|]. by_eval. Qed.

Lemma tombstone_guard_witness :
  let s' := (apply_remote no_links v_root m_root {[a_key]} (a_key, to_value (tomb (text_hash (str "ab")))) (s_tomb Admin (text_hash (str "ab")))).2 in
  files (bs_disk s') !! os a_file = Some (utf8 (str "abR")).
Proof.
  set (r := apply_remote no_links v_root m_root {[a_key]} _ _).
  pose proof (tombstone_guard v_root m_root no_links a_file a_key (tomb (text_hash (str "ab"))) {[a_key]}
    (s_tomb Admin (text_hash (str "ab"))) None r.1 r.2 (v_inv _ _ _) a_separate a_id ltac:(by_eval)
    (s_tomb_on_disk _ _) ltac:(unfold r; apply surjective_pairing)) as Hg.
  cbv zeta in Hg. rewrite decide_False in Hg by decide_true. destruct Hg as (_&[Hf|Hf]&_); [|exact Hf].
  cbv zeta. fold r. rewrite Hf. by_eval.
Defined.

Lemma recreated_file_deleted_witness :
  import_file v_root m_root None a_file (s_tomb Admin (text_hash (str "abR"))) = (Ok unchanged, s_tomb Admin (text_hash (str "abR"))) ∧
  files (bs_disk (apply_remote no_links v_root m_root {[a_key]} (a_key, to_value (tomb (text_hash (str "abR"))))
    (s_tomb Admin (text_hash (str "abR")))).2) !! os a_file = None.
Proof.
  apply (recreated_file_deleted v_root m_root None no_links a_file a_key (tomb (text_hash (str "abR"))) {[a_key]}
    (s_tomb Admin (text_hash (str "abR"))) (v_inv _ _ _) a_separate).
  - split; [by_eval|]. split; [exact a_id|]. split; [by_eval|]. split; by_eval.
  - by_eval.
  - decide_true.
  - apply s_tomb_on_disk.
  - by_eval.
Defined.

(** A neighbour named [a.md.tmp] is lost when [a.md] is projected. *)
Definition s_neighbour : BridgeState MemState VStore :=
  v_state Admin doc_R {[os (a_file ++ str ".tmp") := utf8 (str "mine")]}.
Lemma projection_destroys_tmp_witness :
  files (bs_disk (project_file no_links v_root m_root a_file s_neighbour).2) !! os (a_file ++ str ".tmp") = None.
Proof.
  apply (projection_destroys_tmp v_root m_root no_links a_file a_key s_neighbour _ None
    (v_inv _ _ _) a_separate a_id); by_eval.
Defined.

(** *** Across devices *)
Definition s_peer : BridgeState MemState VStore := v_state Admin (doc (bs_store s_imported)) ∅.
Lemma imported_file_reaches_peer_witness :
  ∃ v sB', st_map (Fr := nat) (bs_store s_peer) !! a_key = Some v ∧
    apply_remote no_links v_root m_root ∅ (a_key, v) s_peer = (Ok [(a_file, changed_no_ops)], sB') ∧
    files (bs_disk sB') !! os a_file =
      Some (utf8 (import_target (Some (synced_at a_key (str "ab"))) (st_text (Fr := nat) a_key (bs_store s_edit)) (str "abL"))) ∧
    bs_store sB' = bs_store s_peer.
Proof.
  apply (imported_file_reaches_peer v_root m_root None no_links a_file a_key (str "abL") s_edit
    (mkOutcome 1 true []) s_imported _ s_peer
    (v_inv _ _ _) a_separate s_edit_importable s_edit_sidecar); by_eval || apply v_inv.
Defined.

(** *** Renaming a file of three bytes that are not UTF-8 *)
Definition b_key : rstring := str "b.bin".
Definition c_key : rstring := str "c.bin".
Definition b_file : Path := key_to_path v_root b_key.
Definition c_file : Path := key_to_path v_root c_key.
Lemma bin_separate (n : rstring) :
  good_name n = true → separate (D := MemState) m_root (key_to_path v_root n) n.
Proof.
  intros Hn. refine (separate_key v_root m_root [] n _ (λ _, I) _ Hn); [|done]. split; decide_true.
Qed.
Definition s_blob : BridgeState MemState VStore :=
  v_state Admin (mkTextDoc ∅ ∅ 0) {[os b_file := [Byte.xff; Byte.xfe; Byte.x00]]}.
Lemma rename_blob_empties_witness :
  let s' := (rename_file no_links v_root m_root None b_file c_file s_blob).2 in
  files (bs_disk s') !! os c_file = Some [] ∧ files (bs_disk s') !! os b_file = None ∧
  st_map (Fr := nat) (bs_store s') !! c_key = Some (to_value (mkFileEntry Text Live (text_hash []) (Some b_key) None)).
Proof.
  refine (rename_blob_empties v_root m_root None no_links b_file c_file b_key c_key [Byte.xff; Byte.xfe; Byte.x00]
    s_blob changed_no_ops _ (v_inv _ _ _) (bin_separate b_key _) (bin_separate c_key _) _ _ _ _ _ _ _ _ _ _ _ _ _);
    by_eval || decide_true.
Defined.

(** *** A read-only device *)
Definition first_order (x : gset rstring) : list rstring := elements x.
Definition no_symlink (_ : path) (_ : MemState) : bool := false.
Abbreviation scan_v := (scan_gc no_links no_symlink first_order 3 v_root m_root None None).
Lemma reader_scan_keeps_store_witness : bs_store (scan_v s_reader).2 = bs_store s_reader.
Proof.
  apply (reader_scan_keeps_store v_root m_root None no_links no_symlink first_order 3 None s_reader); [by_eval|].
  intros kv Hkv. by apply not_elem_of_nil in Hkv.
Defined.
Lemma reader_scan_authors_entry_witness :
  st_map (Fr := nat) (bs_store (scan_v (s_tomb Reader (text_hash (str "ab")))).2) !! a_key =
    Some (to_value (live_text (str "abR"))).
Proof.
  refine (reader_scan_authors_entry v_root m_root None no_links no_symlink first_order 3 None a_key
    (tomb (text_hash (str "ab"))) (s_tomb Reader (text_hash (str "ab"))) [a_file] [a_key]
    [(a_file, changed_no_ops); (a_file, unchanged)] _ _ _ _ _ _ _ _ _ _ _ _); try by_eval.
  all: try (apply (v_inv Reader)). all: try decide_true.
Defined.
