(* ===== verification/SyncWitnesses.v ===== *)
(** * The engine's and the snapshots' theorems on concrete devices

    Device [A] founds a vault and adds [B] as a second admin and [C] as a writer; the
    theorems of Snapshots, EngineSpec, EngineSync and EngineBlob are applied to their
    engines. *)
From S2P Require Import Prelude RustStr Vfs Roster Wire Logs Keychain Blob Trust Store StoreRoster StoreSync StoreKeys.
From S2P Require Import Checkpoint Paths Bridge StoreEdit Snapshots Engine EngineSpec EngineSync EngineBlob.
From S2P Require Import Models FilesModels SyncModels Witnesses FilesWitnesses.
From Stdlib Require Import Strings.Byte.

(** ** Devices *)
Definition c_dev : Identity := generate (replicate 32 Byte.x08).
Definition a_doc : TextDoc := mkTextDoc ∅ ∅ 0.
Definition a_new : VStore := mkStore ex_root ex_id a_doc 0 [] None mem_empty.
Definition a_store : VStore :=
  (add_peer pick_first 5 (id_peer c_dev) (id_key c_dev) Writer
    (add_peer pick_first 5 B (id_key ex_b) Admin (declare_founder pick_first 5 Admin a_new).2).2).2.
Definition eng (i : Identity) (s : VStore) : Engine VStore := mkEngine i [] (replicate 32 Byte.x01) s ∅ ∅ ∅ ∅ [].
Definition no_dial (_ : u64) : bool := false.

(** ** Snapshots *)
Definition x_sealed : bytes := seal_epoch (replicate 24 Byte.x04) (ex_key Byte.x01) ex_eid [Byte.x2a].
Definition x_manifest : SnapshotManifest :=
  signed ex_id (mkManifest (replicate 32 Byte.x00) (blake3 x_sealed) [str "e1"] [str "b1"] 0 []).
Definition x_framed : bytes := frame (utf8 (to_json x_manifest)) x_sealed.
Abbreviation x_adopted :=
  (verify_and_adopt_snapshot (ex_kc (ex_key Byte.x01)) (admin_author_keys a_store) (str "snap") x_framed a_store).

Lemma adoption_guarded_witness :
  ∃ m pt vk, authentic (ex_kc (ex_key Byte.x01)) (m_author m) vk x_framed m pt ∧
    ((∃ p, p ∈ peers a_store ∧ peer_id p = m_author m ∧ role p = Admin ∧ status p = Active ∧ verifying_key p = vk) ∨
     m_author m = id_peer (identity a_store) ∧ vk = id_key (identity a_store) ∧ self_role a_store = Some Admin).
Proof.
  destruct (adoption_guarded (ex_kc (ex_key Byte.x01)) (str "snap") x_framed a_store
    (Ok (Adopted (str "snap") [str "e1"])) x_adopted.2) as [Hrej|Hok].
  - by_eval.
  - destruct Hrej as (_&out&Hout&Hbad). injection Hout as <-.
    destruct Hbad as [Hbad|[why Hbad]]; discriminate Hbad.
  - exact Hok.
Defined.

Definition x_swapped : SnapshotManifest :=
  mkManifest (frontier_digest x_manifest) (snapshot_ct_hash x_manifest) [str "e1"; str "b1"] [] (m_author x_manifest) [].
Lemma signing_bytes_bind_witness : signing_bytes x_manifest ≠ signing_bytes x_swapped.
Proof.
  intros Heq. apply (signing_bytes_bind x_manifest x_swapped) in Heq.
  - destruct Heq as (_&_&_&Hp&_). apply Permutation_length in Hp. discriminate Hp.
  - unfold manifest_ok, ids_ok, is_str. split_and!; decide_true.
  - unfold manifest_ok, ids_ok, is_str. split_and!; decide_true.
Defined.

Definition x_ops : list ShelfOp := [Hold (str "s1") [str "e1"]; Put (str "s1") [Byte.x01]; Hold (str "s2") []; DropObject (str "s2")].
Abbreviation x_shelf := (sm_iter run_shelf_op x_ops a_new).
Lemma shelf_refines_witness :
  held_snapshots x_shelf.2 = Ok [mkHeld (str "s1") [str "e1"]] ∧
  load_snapshot_object (str "s1") x_shelf.2 = Ok (Some [Byte.x01]).
Proof.
  destruct (shelf_refines x_ops a_new x_shelf.2 (mkShelf ∅ [])) as [Hl Ho].
  - split_and!; [exact I|by_eval|].
    intros id _. reflexivity.
  - unfold x_ops, shelf_paths, object_id. repeat (apply Forall_cons; split; [split_and!; (exact I || by_eval)|]). apply Forall_nil, I.
  - by_eval.
  - split; [rewrite Hl; by_eval|]. rewrite (Ho (str "s1")); [by_eval|]. split; by_eval.
Defined.

(** ** Receiving *)
Definition from (p : u64) (f : Frame) : Inbound := mkIn p f no_dial.
Definition C : u64 := id_peer c_dev.
Definition a_eng : Engine VStore :=
  mkEngine ex_id [] (replicate 32 Byte.x01) a_store {[B := 0; C := 0]} {[B := [Byte.x01]]} {[B; C]} ∅ [].

Lemma handshake_once_witness :
  hellos B (new_events a_eng (run pick_first 5 [from B (Hello []); from B (Hello [])] a_eng)) = 0.
Proof. apply (handshake_once pick_first 5 [from B (Hello []); from B (Hello [])] a_eng B). decide_true. Defined.

Lemma acks_grow_witness :
  ∃ b', acked_versions (run pick_first 5 [from B (Have [Byte.x01; Byte.x01]); from B (Have [])] a_eng) !! B = Some b' ∧
    version_dominates (Ver := nat) b' [Byte.x01] = true ∧
    (b' = [Byte.x01] ∨ ∃ x, x ∈ [from B (Have [Byte.x01; Byte.x01]); from B (Have [])] ∧ in_peer x = B ∧ in_frame x = Have b').
Proof. apply (acks_grow pick_first 5 _ a_eng B [Byte.x01] 1); by_eval. Defined.

(** [B] revokes [C]; [A] learns of it, then writes a line. *)
Definition b_revokes : bytes :=
  utf8 (log_text [roster_line ex_b (mkRosterEntry 1 9 Revoke C (id_key c_dev) B)]).
Definition a_log : path := op_path (own_log a_store).
Definition a_written : Engine VStore :=
  set_store (set_fs (fs_write a_log (ln 65) (fs a_store)).2 a_store) a_eng.
Definition in_any_order (X : gset u64) : list u64 := elements X.
Lemma revoked_peer_still_fed_witness :
  let e1 := (handle pick_first 5 no_dial B (RosterOps B b_revokes) a_written).2 in
  is_active C e1 = false ∧ Sent C (Ops (me e1) (drop 0 (ln 65))) ∈ new_events e1 (flush_local in_any_order e1).2.
Proof.
  split; [by_eval|].
  apply (revoked_peer_still_fed pick_first 5 in_any_order no_dial B B b_revokes C 0 (ln 65) a_written).
  - intros X q. apply elem_of_elements.
  - decide_true.
  - by_eval.
  - by_eval.
  - by_eval.
  - decide_true.
Defined.

(** [B] asks for a snapshot by the path of a key file. *)
Definition secret_path : path := [str "home"; str "device.key"].
Definition a_exposed : Engine VStore :=
  set_store (set_fs (fs_write secret_path (ln 65) (fs a_store)).2 a_store) a_eng.
Lemma snapshot_want_reads_any_file_witness :
  Sent B (SnapshotData (ln 65)) ∈
    new_events a_exposed (handle pick_first 5 no_dial B (SnapshotWant (str "/home/device.key")) a_exposed).2.
Proof.
  apply (snapshot_want_reads_any_file pick_first 5 no_dial B secret_path (ln 65) a_exposed);
    [exact I|by_eval|done|decide_true|by_eval].
Defined.

(** ** A live push: [B] wrote three lines, [A] holds two of them *)
Definition b_log : OpLog := OpLog_new (ops_dir ex_root) B.
Definition b_line (n : N) : bytes := utf8 (log_text [oplog_line b_log ex_b [byte_of_N n]]).
Definition b_all : bytes := concat ([b_line 1] ++ [b_line 2] ++ [b_line 3]).
Definition b_store : VStore :=
  mkStore ex_root ex_b a_doc 0 (peers a_store) None (fs_write (op_path b_log) b_all mem_empty).2.
Definition b_eng : Engine VStore :=
  mkEngine ex_b [] (replicate 32 Byte.x01) b_store {[A := length (concat [b_line 1])]} ∅ {[A]} ∅ [].
Definition a_two : Engine VStore :=
  set_store (set_fs (fs_write (op_path b_log) (concat ([b_line 1] ++ [b_line 2])) (fs a_store)).2 a_store) a_eng.

Definition complete_check (l : bytes) : bool :=
  bool_decide (last l = Some NL) && bool_decide (NL ∉ removelast l).
Lemma complete_checked l : complete_check l = true → complete_line l.
Proof.
  intros [Hl%bool_decide_eq_true Hn%bool_decide_eq_true]%andb_true_iff.
  apply last_Some in Hl as [k ->]. rewrite removelast_last in Hn. by exists k.
Qed.
Lemma live_push_delivers_witness :
  Sent A (Ops B (concat [b_line 2; b_line 3])) ∈ new_events b_eng (flush_local in_any_order b_eng).2 ∧
  files (fs (e_store (handle pick_first 5 no_dial B (Ops B (concat [b_line 2; b_line 3])) a_two).2)) !! ops_file ex_root B = Some b_all.
Proof.
  apply (live_push_delivers pick_first 5 in_any_order no_dial A B [b_line 1] [b_line 2] [b_line 3] b_eng a_two (id_key ex_b)).
  - intros X q. apply elem_of_elements.
  - repeat (apply Forall_cons; split; [apply complete_checked; by_eval|]). apply Forall_nil, I.
  - decide_true.
  - apply suffix_dec_free. decide_true.
  - done.
  - by_eval.
  - by_eval.
  - exact I.
  - exact I.
  - by_eval.
  - by_eval.
  - decide_true.
  - split_and!; [decide_true| |decide_true|].
    + exists (mkPeerRecord B (id_key ex_b) Active Admin None). split_and!; [by_eval|done|done].
    + exists ((λ n, mkEntry B [byte_of_N n]) <$> [1; 2; 3]%N). split; by_eval.
  - intros f' _ _. reflexivity.
Defined.

(** ** A blob: [B] wants what [A] stores *)
Definition x_blob : bytes := [Byte.x01; Byte.x02; Byte.x03; Byte.x04; Byte.x05].
Abbreviation x_hash := (blob_hash x_blob).
Definition x_entry : FileEntry := mkFileEntry BlobKind Live x_hash None None.
Definition wanting : TextDoc := mkTextDoc ∅ {[str "pic.png" := to_value x_entry]} 0.
Definition a_serving : Engine VStore :=
  set_store (set_fs (blob_put (assets_dir ex_root) x_blob (fs a_store)).2 a_store) a_eng.
Definition b_wanting : Engine VStore :=
  eng ex_b (mkStore ex_root ex_b wanting 0 (peers a_store) None mem_empty).
Definition b_dirs : gset path := list_to_set (prefixes [] (incoming_dir (assets_dir ex_root))).
Lemma b_accepts : accepting x_blob (e_store b_wanting) (dirs_within b_dirs).
Proof. apply mem_accepting; decide_true. Qed.
Definition x_reply : Frame := BlobChunk x_hash 0 5 x_blob.

Lemma blob_fetch_completes_witness :
  let e' := run pick_first 5 [from A x_reply; from C x_reply] b_wanting in
  blob_get (blobs_dir (e_store e')) x_hash (fs (e_store e')) = Ok (Some x_blob).
Proof.
  assert (new_events a_serving (handle pick_first 5 no_dial B (BlobWant x_hash) a_serving).2 = [Sent B x_reply]) as Hsent by by_eval.
  apply (blob_fetch_completes pick_first 5 no_dial x_blob B a_serving b_wanting (dirs_within b_dirs)).
  - exact I.
  - by_eval.
  - by_eval.
  - decide_true.
  - by_eval.
  - exact b_accepts.
  - change ((∅ : gset path) ⊆ b_dirs). apply empty_subseteq.
  - apply mem_blob_paths.
  - by_eval.
  - by_eval.
  - by_eval.
  - intros x Hx. rewrite Hsent. apply list_elem_of_singleton. f_equal.
    apply elem_of_cons in Hx as [->|Hx]; [reflexivity|]. apply list_elem_of_singleton in Hx as ->. reflexivity.
  - intros fr Hfr. rewrite Hsent in Hfr. apply list_elem_of_singleton in Hfr. injection Hfr as ->.
    exists (from A x_reply). split; [by left|done].
Defined.

(** A first chunk that announces one byte more than a chunk. *)
Definition false_chunk : bytes := replicate (N.to_nat BLOB_CHUNK_SIZE) Byte.x00.
Lemma false_length_blocks_transfer_witness :
  let e1 := (handle pick_first 5 no_dial C (BlobChunk x_hash 0 (BLOB_CHUNK_SIZE + 1) false_chunk) b_wanting).2 in
  let e' := run pick_first 5 [from A x_reply; from A x_reply] e1 in
  blob_get (blobs_dir (e_store e')) x_hash (fs (e_store e')) = Ok None.
Proof.
  apply (false_length_blocks_transfer pick_first 5 x_blob (assets_dir ex_root) (mem_blob_paths _ _) C no_dial
    (BLOB_CHUNK_SIZE + 1)%N false_chunk (dirs_within b_dirs) [from A x_reply; from A x_reply] [0%N; 0%N] b_wanting).
  - reflexivity.
  - exact b_accepts.
  - change ((∅ : gset path) ⊆ b_dirs). apply empty_subseteq.
  - by_eval.
  - by_eval.
  - discriminate.
  - reflexivity.
  - discriminate.
  - unfold false_chunk. rewrite length_replicate. apply N2Nat.id.
  - by_eval.
  - by_eval.
  - repeat apply Forall2_cons_2; try apply Forall2_nil_2; (split; [by_eval|decide_true]).
Defined.
