(* ===== verification/RelayWitnesses.v ===== *)
(** * The relay client's theorems on concrete devices

    [B] has written three lines; [A] founded the vault and has [B] in its roster. They
    share an in-memory server that also holds an object neither of them put there. *)
From S2P Require Import Prelude RustStr Vfs Roster Wire Logs Keychain Blob Trust Store StoreRoster StoreSync StoreKeys.
From S2P Require Import Checkpoint Paths Bridge StoreEdit Snapshots LogLines Relay RelaySpec RelaySync RelayDeliver.
From S2P Require Import Models FilesModels SyncModels RelayModels Witnesses FilesWitnesses SyncWitnesses.
From Stdlib Require Import Strings.Byte.

Abbreviation VPass := (Pass (Fs := MemState) (Doc := TextDoc) (Ver := nat) (Bk := MemoryBackend)).
Definition x_vkey : bytes := replicate 32 Byte.x01.
Abbreviation x_bucket := (bucket_id x_vkey).
Definition junk_id : rstring := id_to_str (replicate 32 Byte.x07).
Definition x_server : MemoryBackend := (mb_put KEntries x_bucket junk_id (replicate 40 Byte.x09) mb_empty).2.
Definition x_nonces (n : nat) : bytes := replicate 24 Byte.x04.
Abbreviation x_kc := (ex_kc (ex_key Byte.x01)).

Definition b_pass : VPass := mkPass b_store x_server 0.
Definition a_pass (m : MemoryBackend) : VPass := mkPass a_store m 0.
Definition b_entries : list (rstring * bytes) := (λ n, (entry_id_content x_vkey B (b_line n), b_line n)) <$> [1; 2; 3]%N.
Abbreviation b_sent := (send_entries x_nonces x_kc x_vkey b_entries b_pass).
Abbreviation a_got := (receive_entries A x_kc x_vkey [] ∅ ∅ (a_pass (ps_backend b_sent.2))).

Lemma a_pass_backend m : ps_backend (a_pass m) = m.
Proof. done. Qed.
Lemma x_names : ∀ x, x ∈ dom (in_bucket KEntries x_bucket x_server) → is_id x.
Proof.
  intros x Hx. assert (dom (in_bucket KEntries x_bucket x_server) = {[junk_id]}) as E by by_eval.
  rewrite E in Hx. apply elem_of_singleton in Hx as ->. by exists (replicate 32 Byte.x07).
Qed.
Lemma unique_checked (es : list (rstring * bytes)) :
  Forall (λ x, Forall (λ y, x.1 = y.1 → x.2 = y.2) es) es → ids_unique es.
Proof. rewrite Forall_forall. intros Hes id l l' Hl Hl'. specialize (Hes _ Hl). rewrite Forall_forall in Hes. by apply (Hes _ Hl'). Qed.
Lemma relay_delivers_witness :
  b_sent.1 = Ok tt ∧ a_got.1 = Ok tt ∧ stored ex_root B a_store `prefix_of` stored ex_root B (ps_store a_got.2) ∧
  has_line (b_line 2) (stored ex_root B (ps_store a_got.2)).
Proof.
  apply (relay_delivers x_nonces x_kc x_kc x_vkey (id_key ex_b) b_all (b_line 2) b_pass (a_pass (ps_backend b_sent.2))
    ex_root ex_id (peers a_store) b_entries [] ∅ ∅).
  - by_eval.
  - apply unique_checked. decide_true.
  - by_eval.
  - unfold has_line. decide_true.
  - split; [exact x_names|]. intros id l ct Hin Hct. exfalso.
    assert (Forall (λ x, in_bucket KEntries x_bucket x_server !! x.1 = None) b_entries) as Hnone by decide_true.
    rewrite Forall_forall in Hnone. specialize (Hnone _ Hin). cbn [fst] in Hnone.
    change (ps_backend b_pass) with x_server in Hct. rewrite Hnone in Hct. discriminate Hct.
  - apply (shares_head_rotated _ _ _ _ (ex_key Byte.x01)); [decide_true..|]. intros n. reflexivity.
  - eexists. by_eval.
  - exact (a_pass_backend (ps_backend b_sent.2)).
  - eexists. by_eval.
  - intros q _. exact I.
  - decide_true.
  - split; intros b f _; reflexivity.
  - exists (mkPeerRecord B (id_key ex_b) Active Admin None). split_and!; [by_eval|done|done].
  - split; [split_and!; [exact I|done|by_eval]|]. split; [done|]. split; [left; by_eval|]. exists []. split; by_eval.
  - exists []. split; by_eval.
  - by_eval.
  - by_eval.
  - by_eval.
  - exists (oplog_line b_log ex_b [byte_of_N 2]), (mkEntry B [byte_of_N 2]). split_and!; by_eval.
  - apply not_elem_of_nil.
  - apply not_elem_of_empty.
  - apply not_elem_of_empty.
Defined.

(** ** A whole pass *)
Definition x_oracle : Oracle :=
  mkOracle (λ _, (replicate 32 Byte.x05, replicate 24 Byte.x06)) (replicate 24 Byte.x04) x_nonces x_nonces
    (replicate 24 Byte.x04) 10 5.
Definition a_ready : VPass :=
  mkPass (set_fs (fs_create_dir_all (assets_dir ex_root) (fs a_store)).2 a_store) x_server 0.
Abbreviation a_synced := (reconcile_once pick_first 5 x_oracle x_vkey a_ready).
Lemma mem_under (q : path) : ex_root `prefix_of` q → fs_path (Fs := MemState) q.
Proof. intros _. exact I. Qed.
Lemma relay_only_adds_witness :
  a_synced.1 = Ok tt ∧ vault_grows ex_root A (files (fs a_store)) (files (fs (ps_store a_synced.2))).
Proof.
  split; [by_eval|].
  apply (relay_only_adds pick_first 5 ex_root ex_id mem_under x_oracle x_vkey a_ready a_synced.1 a_synced.2).
  - split_and!; [exact I|by_eval|by_eval].
  - apply surjective_pairing.
Defined.

(** ** A forged trust bundle: [A] relays [B]'s roster log with one more line *)
Definition forged_line : RosterLine := mkRosterLine 1 1 (Add Admin) B (b64_encode (id_key ex_b)) B (b64_encode []).
Abbreviation f_bytes := (utf8 (log_text [forged_line])).
Abbreviation f_store := (apply_bundle pick_first 5 (one_roster B f_bytes) a_store).2.
Lemma forged_bundle_sticks_witness :
  read_author ex_root (fs f_store) B (id_key ex_b) = None ∧
  (import_roster pick_first 5 B (id_key ex_b) [Byte.x01] f_store).1 = Err Peer.
Proof.
  destruct (forged_bundle_sticks pick_first 5 B (id_key ex_b) [] forged_line MalformedEntry a_store) as [Hr Hh].
  - exact I.
  - split_and!; exact I.
  - exact I.
  - decide_true.
  - by_eval.
  - intros f' _ _. reflexivity.
  - by_eval.
  - split; [exact Hr|]. apply Hh. intros [k E]. discriminate E.
Defined.
