(* ===== verification/PairingWitnesses.v ===== *)
(** * Pairing on concrete devices

    Small primitives for the exchange and the channel, then [A], which founded a vault,
    showing a code to [C] and to a fourth device [D]. *)
From S2P Require Import Prelude RustStr Vfs Roster Wire Logs Keychain Blob Trust Store StoreRoster StoreSync StoreKeys.
From S2P Require Import Checkpoint Paths Bridge StoreEdit Snapshots Relay Pairing Enrol PairingSpec PairingRun.
From S2P Require Import Models FilesModels SyncModels RelayModels Witnesses FilesWitnesses SyncWitnesses.
From Stdlib Require Import Strings.Byte.

#[global] Instance toy_spake : Spake2 := {|
  spake_state := bytes;
  spake_start_a rng pw ida idb := (pw ++ ida ++ idb, Byte.x01 :: rng);
  spake_start_b rng pw ida idb := (pw ++ ida ++ idb, Byte.x01 :: rng);
  spake_finish st msg := if decide (msg = []) then None else Some st;
|}.
#[global] Instance toy_spake_laws : Spake2Laws.
Proof. split. intros ra rb pw ida idb. by exists (pw ++ ida ++ idb). Qed.
#[global] Instance toy_chacha : ChaCha := {|
  chacha_seal k n p := pad 16 n ++ p;
  chacha_open k n c := if decide (take 16 c = pad 16 n) then Some (drop 16 c) else None;
|}.
Lemma pad_inj k (a b : bytes) : length a = length b → length a ≤ k → pad k a = pad k b → a = b.
Proof.
  intros Hab Hk Heq. unfold pad in Heq. rewrite !take_app_ge in Heq by lia. by apply app_inj_1 in Heq as [? _].
Qed.
#[global] Instance toy_chacha_laws : ChaChaLaws.
Proof.
  split.
  - intros k n p. simpl. rewrite take_app_length', drop_app_length' by (symmetry; apply length_pad). by rewrite decide_True.
  - intros k n n' p Hn Hn' Hne. simpl. rewrite take_app_length' by (symmetry; apply length_pad).
    rewrite decide_False; [done|]. intros Heq. apply Hne. apply (pad_inj 16); [lia|lia|done].
Qed.

(** ** JSON *)
Definition request_rows (q : MailboxJoinRequest) : list (list N) := [[rq_peer_id q]; Byte.to_N <$> rq_verifying_key q].
Definition rows_request (x : list (list N)) : option MailboxJoinRequest :=
  match x with [[p]; k] => Some (mkJoinRequest (byte_of_N <$> k) p) | _ => None end.
Lemma bytes_rows (b : bytes) : byte_of_N <$> (Byte.to_N <$> b) = b.
Proof. rewrite <-list_fmap_compose. rewrite <-(list_fmap_id b) at 2. apply list_fmap_ext. intros. apply byte_of_N_to_N. Qed.
Lemma rows_request_rows q : rows_request (request_rows q) = Some q.
Proof. destruct q. simpl. by rewrite bytes_rows. Qed.
#[global] Instance request_json : JsonOf MailboxJoinRequest := toy_json request_rows rows_request.
#[global] Instance request_json_text : JsonText MailboxJoinRequest := toy_json_text _ _ rows_request_rows.

Definition accept_rows (a : JoinAccept) : list (list N) :=
  [keylog_author a; ja_founder a] :: (Byte.to_N <$> ja_vault a) :: (Byte.to_N <$> ja_vault_key a) ::
  (Byte.to_N <$> keylog_jsonl a) :: (ja_rosters a ≫= λ x, [[x.1]; Byte.to_N <$> x.2]).
Fixpoint rows_rosters (x : list (list N)) : list (u64 * bytes) :=
  match x with [p] :: b :: x => (p, byte_of_N <$> b) :: rows_rosters x | _ => [] end.
Definition rows_accept (x : list (list N)) : option JoinAccept :=
  match x with
  | [a; f] :: v :: k :: l :: r => Some (mkJoinAccept (byte_of_N <$> v) (byte_of_N <$> k) (rows_rosters r) a (byte_of_N <$> l) f)
  | _ => None
  end.
Lemma rows_accept_rows a : rows_accept (accept_rows a) = Some a.
Proof.
  destruct a as [v k r au l f]. unfold rows_accept, accept_rows. cbn [ja_vault ja_vault_key ja_rosters keylog_author keylog_jsonl ja_founder].
  rewrite !bytes_rows. do 2 f_equal. induction r as [|[p b] r IH]; [done|]. rewrite bind_cons. cbn [app fst snd rows_rosters]. by rewrite bytes_rows, IH.
Qed.
#[global] Instance accept_json : JsonOf JoinAccept := toy_json accept_rows rows_accept.
#[global] Instance accept_json_text : JsonText JoinAccept := toy_json_text _ _ rows_accept_rows.

(** ** Devices *)
Abbreviation VHost W := (MailboxHost (Fs := MemState) (Doc := TextDoc) (Ver := nat) (W := W)).
Definition d_dev : Identity := generate (replicate 32 Byte.x0a).
Definition x_code : PairingCode := str "123456".
Definition x_invite : Invite := mkInvite (replicate 32 Byte.x05) (str "https://relay") (id_key ex_id).
Definition host_with {W : Type} (m : W) : VHost W :=
  mkHost m x_invite (responder_new x_code (id_key ex_id)) ex_id (replicate 32 Byte.x06) (replicate 32 Byte.x01) Writer a_store
    STEP_TIMEOUT POLL_INTERVAL.
Definition no_mail : MemoryMailbox := mkMemoryMailbox ∅ 1000.
Definition x_wraps (_ : nat) : bytes * bytes := (replicate 32 Byte.x05, replicate 24 Byte.x06).
Definition sid (b : byte) : bytes := replicate 32 b.
Definition x_rng : HostRng := mkHostRng (λ n, [byte_of_N (N.of_nat n)]) (λ _, x_wraps).

Abbreviation d_enrolled :=
  (enrol_joiner pick_first 5 x_wraps ex_id (replicate 32 Byte.x06) (replicate 32 Byte.x01) Writer (id_key d_dev) (id_peer d_dev) a_store).
Definition d_accept : JoinAccept :=
  Eval vm_compute in match d_enrolled.1 with Ok a => a | Err _ => mkJoinAccept [] [] [] 0 [] 0 end.

(** *** [A] can enrol [D]: it founded the vault, [B] and [C] are members that wrote nothing *)
Definition a_known : list (u64 * bytes) := [(A, kA); (B, id_key ex_b); (id_peer c_dev, id_key c_dev)].
Definition a_ids : gset u64 := list_to_set a_known.*1.
Definition a_own : list RosterEntry :=
  Eval vm_compute in match roster_read_verified (own_roster a_store) (mykey a_store) (fs a_store) with Ok es => es | Err _ => [] end.
(** What is known is closed under reading the logs of those who are known. *)
Definition closed_under (read : u64 → bytes → option (list RosterEntry)) (known : list (u64 * bytes)) : bool :=
  forallb (λ x, match read x.1 x.2 with
                | Some es => forallb (λ e, bool_decide ((subject_peer e, subject_key e) ∈ known)) es | None => true end) known.
Lemma closed_subject read known a k es e :
  closed_under read known = true → (a, k) ∈ known → read a k = Some es → e ∈ es → (subject_peer e, subject_key e) ∈ known.
Proof.
  unfold closed_under. rewrite forallb_forall. intros Hc Hk Hr He. specialize (Hc (a, k) (proj1 (list_elem_of_In _ _) Hk)).
  simpl in Hc. rewrite Hr, forallb_forall in Hc. exact (bool_decide_eq_true_1 _ (Hc e (proj1 (list_elem_of_In _ _) He))).
Qed.
Lemma believed_known key_ok read seeds known a k :
  map_Forall (λ a k, (a, k) ∈ known) seeds → closed_under read known = true → Believed key_ok read seeds a k → (a, k) ∈ known.
Proof.
  intros Hs Hc. induction 1 as [a k Ha|a k es e _ IH _ Hr He _]; [by apply Hs in Ha|by eapply closed_subject].
Qed.
Lemma a_believed a k : Believed ed_key_ok (read_author (root a_store) (fs a_store)) ex_alone a k → (a, k) ∈ a_known.
Proof.
  apply believed_known; [|by_eval]. unfold ex_alone. rewrite map_Forall_singleton. by left.
Qed.
Lemma known_once k k' a : (a, k) ∈ a_known → (a, k') ∈ a_known → k = k'.
Proof.
  assert (NoDup a_known.*1) as Hnd by decide_true. intros H1 H2. pose proof (elem_of_list_to_map_1 _ _ _ Hnd H1) as E1.
  rewrite (elem_of_list_to_map_1 _ _ _ Hnd H2) in E1. by injection E1.
Qed.
Lemma a_state : roster_state pick_first 5 a_store ex_alone a_ids (roster_line ex_id <$> a_own) a_own.
Proof.
  split.
  - exact I.
  - split; exact I.
  - exact I.
  - by_eval.
  - by_eval.
  - apply seq_run_check. by_eval.
  - by_eval.
  - by_eval.
  - intros a k k' H1%a_believed H2%a_believed. by eapply known_once.
  - decide_true.
  - intros a k es e Hb%a_believed Hr He. assert ((subject_peer e, subject_key e) ∈ a_known) as Hin by (eapply closed_subject; [|exact Hb|exact Hr|exact He]; by_eval).
    apply elem_of_list_to_set, list_elem_of_fmap. exists (subject_peer e, subject_key e). split; [reflexivity|exact Hin].
  - decide_true.
  - apply pick_first_chooses.
Qed.
Lemma flat_check r (f : MemState) :
  let named x := bool_decide (is_Some (roster_author (take (S (length (roster_dir r))) x))) in
  forallb (λ x, (length x <=? length (roster_dir r)) || negb (named x)) (elements (mem_dirs f)) = true →
  forallb (λ x, (length x <=? S (length (roster_dir r))) || negb (named x)) (map_to_list (mem_files f)).*1 = true →
  flat_rosters r f.
Proof.
  intros named Hd Hf n x Hn [y Hx]. rewrite forallb_forall in Hd, Hf.
  assert (named x = true) as Hnm.
  { unfold named. subst x. rewrite take_app_length' by (rewrite length_app; simpl; lia). by apply bool_decide_eq_true. }
  split.
  - intros Hin. specialize (Hd x). rewrite Hnm, orb_false_r in Hd.
    apply elem_of_elements, list_elem_of_In, Hd, Nat.leb_le in Hin. subst x. rewrite !length_app in Hin. simpl in Hin. lia.
  - intros [b Hb]. specialize (Hf x). rewrite Hnm, orb_false_r in Hf.
    assert (length x ≤ S (length (roster_dir r))) as Hl.
    { apply Nat.leb_le, Hf, list_elem_of_In, list_elem_of_fmap. exists (x, b). split; [done|]. by apply elem_of_map_to_list. }
    subst x. rewrite !length_app in Hl. simpl in Hl. destruct y; [by rewrite app_nil_r|simpl in Hl; lia].
Qed.
Lemma a_can_enrol : can_enrol pick_first 5 a_store (id_peer d_dev) (id_key d_dev).
Proof.
  exists ex_alone, a_ids, (roster_line ex_id <$> a_own), a_own, [], [], a_own. split_and!.
  - split.
    + apply a_state.
    + vm_compute. lia.
    + by_eval.
    + refine (proj1 (Forall_forall (λ x, is_u64 (lamport x)) _) _). decide_true.
    + by_eval.
    + exists A. by_eval.
    + eexists. split; [by_eval|split; by_eval].
    + split; [exact I|split; by_eval].
    + intros x Hx _. revert x Hx. refine (proj1 (Forall_forall (λ x, is_ok (key_read_verified
        (KeyLog_new (keylog_dir (root a_store)) (subject_peer x)) (subject_key x) (fs a_store)) = true) _) _). decide_true.
    + apply flat_check; by_eval.
  - split; [by_eval|by_eval| |by_eval|].
    { refine (bool_decide_unpack _ _). vm_compute. exact I. }
    intros k Hk%a_believed. exfalso. assert (id_peer d_dev ∉ a_known.*1) as Hn by decide_true.
    apply Hn, list_elem_of_fmap. by exists (id_peer d_dev, k).
  - refine (proj1 (Forall_forall (λ x, subject_peer x ≠ id_peer d_dev) _) _). decide_true.
  - by_eval.
Qed.

Abbreviation d_run :=
  (join_here pick_first 5 (b64url_encode (sid Byte.x0b)) [] x_wraps 2 [] (sid Byte.x0b) d_dev x_invite x_code STEP_TIMEOUT POLL_INTERVAL).
Lemma honest_pairing_witness :
  ∃ accept w', d_run (mkPairWorld (host_with no_mail) Idle) = (Ok (accept, id_key ex_id), w') ∧ pw_phase w' = Served (id_peer d_dev) ∧
    ja_vault accept = replicate 32 Byte.x06 ∧ ja_vault_key accept = replicate 32 Byte.x01 ∧ Some (ja_founder accept) = founder a_store ∧
    member (mh_store (pw_host w')) (id_peer d_dev) Writer (id_key d_dev).
Proof.
  apply (honest_pairing pick_first 5 2 [] [] x_wraps (sid Byte.x0b) d_dev x_code STEP_TIMEOUT POLL_INTERVAL (host_with no_mail)).
  - lia.
  - done.
  - done.
  - done.
  - by_eval.
  - done.
  - done.
  - done.
  - intros s. apply lookup_empty.
  - apply a_can_enrol.
Defined.

(** ** The channel and the host's loop *)
Abbreviation x_chan := (mkChannel (replicate 32 Byte.x03) 0).
Definition x_msgs : list bytes := [[Byte.x01]; [Byte.x02]; [Byte.x03]].
Definition x_cts : list bytes := Eval vm_compute in default [] (seal_all x_chan x_msgs).
Lemma channel_in_order_witness :
  (∃ outs, open_all x_chan (x_cts ++ reverse x_cts) = Some outs ∧ omap id outs `prefix_of` x_msgs) ∧
  open_all x_chan x_cts = Some (Some <$> x_msgs).
Proof.
  apply (channel_in_order (replicate 32 Byte.x03) x_msgs x_cts (x_cts ++ reverse x_cts)); [by_eval|].
  intros ct Hin. apply elem_of_app in Hin as [Hin|Hin]; [exact Hin|]. by apply elem_of_reverse in Hin.
Defined.

(** A session in which someone guesses. *)
Definition guessing : MemoryMailbox :=
  mkMemoryMailbox {[(b64url_encode (sid Byte.x0b), Msg1) := [Byte.x09]; (b64url_encode (sid Byte.x0b), ConfirmJoiner) := sid Byte.x00]} 1000.
Abbreviation guessed := (accept_for pick_first 5 1 2 x_rng DEFAULT_WINDOW (host_with (mkTraced guessing []))).
Lemma enrolled_only_proved_witness :
  attempts_left (mh_responder guessed.2) = 2 ∧
  ∃ wrongs, 3 = length wrongs + attempts_left (mh_responder guessed.2) ∧ Forall (wrong_seen x_code (id_key ex_id) x_rng guessed.2) wrongs.
Proof.
  split; [by_eval|].
  apply (enrolled_only_proved pick_first 5 x_code (id_key ex_id) x_rng 1 2 DEFAULT_WINDOW (host_with (mkTraced guessing [])) guessed.1 guessed.2);
    [done|done|apply surjective_pairing].
Defined.

(** ** Two devices with one code: [D] and [E] both typed it, and someone who knows the
    rendezvous wrote the slot in which [D] expects its answer *)
Definition e_dev : Identity := generate (replicate 32 Byte.x0c).
(** The messages of a joiner that is served as number [n]. *)
Definition joiner_mail (n : nat) (dev : Identity) (b : byte) : list (rstring * Slot * bytes) :=
  let session := b64url_encode (sid b) in
  let '(ini, msg1) := initiator_start [] x_code (sid b) (host_key x_invite) in
  match initiator_accept ini (Byte.x01 :: hr_spake x_rng n) with
  | Ok (p, c) =>
      [(session, Msg1, msg1); (session, ConfirmJoiner, c);
       (session, Request, default [] (fst <$> ch_seal (key_split (pi_key p) SInitiator).1
          (utf8 (to_json (mkJoinRequest (id_key dev) (id_peer dev))))))]
  | Err _ => []
  end.
Definition two_mail : MemoryMailbox :=
  mkMemoryMailbox
    (<[(b64url_encode (sid Byte.x0b), Accept) := [Byte.x00]]>
      (list_to_map (joiner_mail 0 d_dev Byte.x0b ++ joiner_mail 1 e_dev Byte.x0c))) 1000.
Abbreviation two_joined := (accept_for pick_first 9 1 2 x_rng DEFAULT_WINDOW (host_with two_mail)).

(** One code can admit two devices: where somebody has written the slot of the host's
    answer, the host has already enrolled the device that proved the code when it finds the
    slot taken and abandons the session, its budget untouched; the loop goes on with the
    same code, a second device proves it too, and both are active members, the first without
    ever having received the vault key. *)
Theorem one_code_two_devices :
  two_joined.1 = Ok (id_peer e_dev) ∧
  role_of (mh_store two_joined.2) (id_peer d_dev) = Some Writer ∧ role_of (mh_store two_joined.2) (id_peer e_dev) = Some Writer ∧
  slots (mh_world two_joined.2) !! (b64url_encode (sid Byte.x0b), Accept) = Some [Byte.x00] ∧
  attempts_left (mh_responder two_joined.2) = MAX_ATTEMPTS.
Proof. split_and!; by_eval. Qed.
