(* ===== verification/ShareWitnesses.v ===== *)
(** * Sharing between concrete devices

    A small codec for the frames, then a sender that offers one file and one empty file
    to a receiver, a peer without the code, and offers that go wrong. *)
From S2P Require Import Prelude RustStr Vfs Roster Wire Keychain Blob Paths Bridge Relay Pairing PairingSpec Share ShareSpec ShareRun.
From S2P Require Import Models RelayModels PairingWitnesses.
From Stdlib Require Import Strings.Byte.

(** ** The codec *)
Abbreviation meta_code := (rstring * N)%type.
Abbreviation payload_code := (meta_code + (rstring * list meta_code) + rstring + rstring + (rstring * list (rstring * rstring)))%type.
Abbreviation frame_code := ((rstring * list payload_code) + list N + unit + (N * N * bytes) + unit)%type.
Definition meta_to (m : WireMeta) : meta_code := (wm_path m, wm_len m).
Definition to_meta (x : meta_code) : WireMeta := mkWireMeta x.1 x.2.
Definition payload_to (p : WirePayload) : payload_code :=
  match p with
  | WFile m => inl (inl (inl (inl (meta_to m)))) | WFolder n fs => inl (inl (inl (inr (n, meta_to <$> fs))))
  | WText t => inl (inl (inr t)) | WClipboard t => inl (inr t) | WContact c => inr (display_name c, fields c)
  end.
Definition to_payload (x : payload_code) : WirePayload :=
  match x with
  | inl (inl (inl (inl m))) => WFile (to_meta m) | inl (inl (inl (inr (n, fs)))) => WFolder n (to_meta <$> fs)
  | inl (inl (inr t)) => WText t | inl (inr t) => WClipboard t | inr (n, fs) => WContact (mkContact n fs)
  end.
Definition frame_to (f : WireFrame) : frame_code :=
  match f with
  | WOffer n ps => inl (inl (inl (inl (n, payload_to <$> ps)))) | WAccept ss => inl (inl (inl (inr ss)))
  | WDecline => inl (inl (inr tt)) | WChunk s o b => inl (inr (s, o, b)) | WDone => inr tt
  end.
Definition to_frame (x : frame_code) : WireFrame :=
  match x with
  | inl (inl (inl (inl (n, ps)))) => WOffer n (to_payload <$> ps) | inl (inl (inl (inr ss))) => WAccept ss
  | inl (inl (inr _)) => WDecline | inl (inr (s, o, b)) => WChunk s o b | inr _ => WDone
  end.
Lemma map_inverse {A B} (f : A → B) (g : B → A) (l : list A) : (∀ x, g (f x) = x) → g <$> (f <$> l) = l.
Proof. intros Hgf. induction l as [|x l IH]; csimpl; [done|]. by rewrite Hgf, IH. Qed.
Lemma to_meta_to m : to_meta (meta_to m) = m.
Proof. by destruct m. Qed.
Lemma to_payload_to p : to_payload (payload_to p) = p.
Proof. destruct p as [m|n fs|t|t|[n fs]]; simpl; rewrite ?to_meta_to, ?(map_inverse _ _ _ to_meta_to); done. Qed.
Lemma to_frame_to f : to_frame (frame_to f) = f.
Proof. destruct f; simpl; rewrite ?(map_inverse _ _ _ to_payload_to); done. Qed.
#[global] Instance WireFrame_eq_dec : EqDecision WireFrame.
Proof. intros f g. destruct (decide (frame_to f = frame_to g)) as [He|He]; [left|right; congruence]. by rewrite <-(to_frame_to f), He, to_frame_to. Defined.
#[global] Program Instance WireFrame_countable : Countable WireFrame := inj_countable frame_to (λ x, Some (to_frame x)) _.
Next Obligation. intros f. simpl. by rewrite to_frame_to. Qed.

Fixpoint bits (p : positive) : bytes :=
  match p with xH => [] | xO p => Byte.x00 :: bits p | xI p => Byte.x01 :: bits p end.
Fixpoint unbits (l : bytes) : positive :=
  match l with [] => xH | Byte.x00 :: l => xO (unbits l) | _ :: l => xI (unbits l) end.
Lemma unbits_bits p : unbits (bits p) = p.
Proof. induction p; simpl; congruence. Qed.
Definition toy_pc_encode (w : WireFrame) : bytes :=
  match w with
  | WChunk s o b =>
      if decide (s < 2 ^ 32 ∧ o ≤ U64_MAX)%N then Byte.x00 :: le_bytes 4 s ++ le_bytes 8 o ++ b else Byte.x02 :: bits (encode w)
  | WDone => [Byte.x01]
  | _ => Byte.x02 :: bits (encode w)
  end.
Definition toy_pc_decode (l : bytes) : option WireFrame :=
  match l with
  | Byte.x00 :: r => Some (WChunk (from_le (take 4 r)) (from_le (take 8 (drop 4 r))) (drop 12 r))
  | Byte.x01 :: _ => Some WDone
  | Byte.x02 :: r => decode (unbits r)
  | _ => None
  end.
#[global] Instance toy_postcard : Postcard := {| pc_encode := toy_pc_encode; pc_decode := toy_pc_decode |}.
#[global] Instance toy_postcard_laws : PostcardLaws.
Proof.
  split. intros w. change (toy_pc_decode (toy_pc_encode w) = Some w). destruct w as [n ps|ss| |s o b|]; try done;
    unfold toy_pc_encode; try (cbn [toy_pc_decode]; rewrite unbits_bits; apply decode_encode).
  case_decide as Hd; cbn [toy_pc_decode]; [|rewrite unbits_bits; apply decode_encode]. destruct Hd as [Hs Ho].
  rewrite take_app_length', drop_app_length', take_app_length' by (by rewrite length_le_bytes).
  rewrite (assoc_L app), drop_app_length' by (by rewrite length_app, !length_le_bytes).
  rewrite !from_le_le_bytes, !N.mod_small; [done|..]; unfold U64_MAX in Ho; simpl; lia.
Qed.
#[global] Instance toy_sizes : ShareSizes.
Proof.
  split.
  - intros k n p. simpl. rewrite length_app, length_pad. lia.
  - intros s o b Hs Ho. change (length (toy_pc_encode (WChunk s o b)) ≤ length b + 21). unfold toy_pc_encode.
    rewrite decide_True by done. cbn [length]. rewrite !length_app, !length_le_bytes. lia.
  - simpl. lia.
Qed.

(** ** The devices *)
Definition s_id : bytes := replicate 32 Byte.x07.
Definition r_id : bytes := replicate 32 Byte.x08.
Definition s_disk : MemState := mkMemState {[ [str "x"; str "a"] := [Byte.x01; Byte.x02; Byte.x03]; [str "x"; str "e"] := [] ]} ∅ ∅.
Definition s_sources : SourceMap := {[ [str "a"] := str "/x/a"; [str "e"] := str "/x/e" ]}.
Definition s_offer : ShareOffer :=
  mkShareOffer (str "s") [File (mkFileMeta [str "a"] 3); File (mkFileMeta [str "e"] 0); TextItem (str "hi")].
Definition s_streams : list StreamRef := [mkStreamRef 0 [str "a"] 3; mkStreamRef 1 [str "e"] 0].
Definition s_contents : list bytes := [[Byte.x01; Byte.x02; Byte.x03]; []].
#[local] Instance w_conn : Conn Pipe := the_conn r_id.

Lemma encoded_small (b : bytes) (n : N) : (N.of_nat (length b) + 16 <=? n)%N = true → (N.of_nat (length b) + 16 ≤ n)%N.
Proof. apply N.leb_le. Qed.
Lemma share_delivers_witness :
  ∃ a b s' paths f',
    serve_connection [] (mkSender (mkDoor (mkPipe a []) (mkResponder x_code s_id 3)) s_offer s_sources s_disk) = (Ok tt, s') ∧
    dr_world (sd_door s') = mkPipe [] b ∧
    receive_share 4 [] x_code r_id s_id (str "/d") (λ _, true) (mkReceiver (mkPipe b []) mem_empty) =
      (Ok (mkReceived paths [str "hi"]), mkReceiver (mkPipe [] a) f') ∧
    files f' !! [str "d"; str "a"] = Some [Byte.x01; Byte.x02; Byte.x03] ∧ files f' !! [str "d"; str "e"] = None.
Proof.
  destruct (share_delivers r_id (D := MemState) (D' := MemState) [] [] s_id x_code 3 4 (str "/d") (λ _, true) s_offer s_streams s_sources s_disk
    s_contents 3 mem_empty) as (a&b&s'&paths&f'&Hs&Hb&Hr&_&Hf&_).
  - done.
  - vm_compute. discriminate.
  - vm_compute. discriminate.
  - by_eval.
  - by_eval.
  - vm_compute. discriminate.
  - by_eval.
  - by_eval.
  - constructor; [|constructor; [|constructor]].
    + split; [done|]. exists (str "/x/a"). split; by_eval.
    + split; [done|]. exists (str "/x/e"). split; by_eval.
  - decide_true.
  - done.
  - split; [|apply encoded_small; by_eval]. constructor; [|constructor; [|constructor; [|constructor]]]; [by_eval|by_eval|exact I].
  - split; [exact I|apply encoded_small; by_eval].
  - exact I.
  - intros ns _. exact I.
  - done.
  - exists a, b, s', paths, f'. split_and!; [exact Hs|exact Hb|exact Hr|exact (Hf _ _ (list_elem_of_here _ _))|].
    exact (Hf _ _ (list_elem_of_further _ _ _ (list_elem_of_here _ _))).
Defined.

(** ** The two byte streams, found by letting each side run on what the other has written
    so far *)
Definition s_start (w : Pipe) : ShareSender := mkSender (mkDoor w (mkResponder x_code s_id 3)) s_offer s_sources s_disk.
Definition exchange_step (ab : bytes * bytes) : bytes * bytes :=
  (p_out (rv_world (receive_share 4 [] x_code r_id s_id (str "/d") (λ _, true) (mkReceiver (mkPipe ab.2 []) mem_empty)).2),
   p_out (dr_world (sd_door (serve_connection [] (s_start (mkPipe ab.1 []))).2))).
Definition s_wire : bytes := Eval vm_compute in (Nat.iter 6 exchange_step ([], [])).2.

Abbreviation r_run :=
  (receive_share 4 [] x_code r_id s_id (str "/d") (λ _, true) (mkReceiver (mkHeard (mkPipe s_wire []) []) mem_empty)).
Lemma received_inside_witness :
  mem_files (rv_disk r_run.2) !! [str "d"; str "a"] = Some [Byte.x01; Byte.x02; Byte.x03] ∧
  (files (rv_disk r_run.2) = files mem_empty ∨
   sender_proved [] x_code r_id s_id (rv_world r_run.2) ∧
   ∃ offer ss total, true = true ∧ streams offer = Some ss ∧ total_len offer = Some total ∧ (total ≤ DEFAULT_MAX_ACCEPT_BYTES)%N ∧
     only_wrote (str "/d") ss (files mem_empty) (files (rv_disk r_run.2))).
Proof.
  split; [by_eval|].
  apply (received_inside [] x_code r_id s_id (str "/d") 4 (λ _, true) (mkReceiver (mkHeard (mkPipe s_wire []) []) mem_empty) r_run.1 r_run.2);
    [exact I|by intros|apply surjective_pairing].
Defined.

(** ** A peer that guesses: it reads the second message and sends 32 zero bytes *)
Definition guess : Heard Pipe := mkHeard (mkPipe (framed [Byte.x09] ++ framed (replicate 32 Byte.x00)) []) [].
Definition g_sender (o : ShareOffer) (src : SourceMap) : ShareSender := mkSender (mkDoor guess (mkResponder x_code s_id 3)) o src s_disk.
Abbreviation g_run1 := (serve_one 1 (λ _, []) (g_sender s_offer s_sources)).
Abbreviation g_run2 := (serve_one 1 (λ _, []) (g_sender (mkShareOffer [] []) ∅)).
Lemma offer_needs_code_witness :
  attempts_left (dr_responder (sd_door g_run1.2)) = 2 ∧
  ((g_run1.1 = g_run2.1 ∧ sd_door g_run1.2 = sd_door g_run2.2 ∧
    (g_run1.1 = Err SUsedUp ∨ g_run1.1 = Err SStuck ∨ ∃ c, g_run1.1 = Err (SConn c))) ∨
   (proof_heard x_code s_id (λ _, []) (dr_world (sd_door g_run1.2)) ∧ proof_heard x_code s_id (λ _, []) (dr_world (sd_door g_run2.2)))).
Proof.
  split; [by_eval|].
  apply (offer_needs_code x_code s_id (λ _, []) 1 (g_sender s_offer s_sources) (g_sender (mkShareOffer [] []) ∅) g_run1.1 g_run1.2 g_run2.1 g_run2.2);
    [done|done|done|apply surjective_pairing|apply surjective_pairing].
Defined.

(** ** Offers that go wrong *)
Definition drive_offer : ShareOffer := mkShareOffer [] [Folder (str "a:b") [mkFileMeta [str "c"] 1]].
Lemma drive_folder_panics_witness :
  frame_decode (frame_encode (FOffer drive_offer)) = Some (FOffer drive_offer) ∧
  receive_streams 1 (λ _, true) drive_offer (mkChannel [] 0) (mkChannel [] 0) (mkPipe [] []) = (Err SPanic, mkPipe [] []).
Proof.
  destruct (drive_folder_panics (W := Pipe) drive_offer) as (Hd&_&Hp).
  - constructor; [|constructor]. split; [by_eval|]. constructor; [by_eval|constructor].
  - split; [exact Hd|]. apply Hp. by_eval.
Defined.

Definition two_disk : MemState := mkMemState {[ [str "x"; str "a"] := [Byte.x01]; [str "y"; str "a"] := [Byte.x02; Byte.x03] ]} ∅ ∅.
Definition two_offer : ShareOffer * SourceMap := Eval vm_compute in
  match offer_paths (λ _ _, false) 2 [] [str "/x/a"; str "/y/a"] two_disk with Ok x => x | Err _ => (mkShareOffer [] [], ∅) end.
Lemma same_name_offer_loses_witness :
  two_offer.2 = {[ [str "a"] := str "/y/a" ]} ∧
  ∃ len1 len2, fs_file_len (lexical_normalize (str "/x/a")) two_disk = Ok len1 ∧ fs_file_len (lexical_normalize (str "/y/a")) two_disk = Ok len2 ∧
    streams two_offer.1 = Some [mkStreamRef 0 [str "a"] (N.of_nat len1); mkStreamRef 1 [str "a"] (N.of_nat len2)].
Proof.
  apply (same_name_offer_loses (λ _ _, false) 2 two_disk [] (str "/x/a") (str "/y/a") (str "a") two_offer.1 two_offer.2);
    [split; by_eval|split; by_eval|by_eval|by_eval|by_eval].
Defined.
