(* ===== verification/PairingIrohWitnesses.v ===== *)
(** * Pairing over a connection, on concrete devices

    [A], which founded a vault, lets [D] in with a token and with a code, over streams of
    bytes, and serves a connection that waits when its token has expired. *)
From S2P Require Import Prelude RustStr Vfs Roster Wire Logs Keychain Blob Trust Store StoreRoster StoreSync StoreKeys.
From S2P Require Import Checkpoint Paths Bridge StoreEdit Snapshots Relay Pairing Enrol PairingSpec PairingRun.
From S2P Require Import Share ShareSpec ShareRun PairingIroh PairingIrohSpec PairingIrohRun.
From S2P Require Import Models FilesModels SyncModels RelayModels Witnesses FilesWitnesses SyncWitnesses PairingWitnesses.
From Stdlib Require Import Strings.Byte.

(** ** JSON, and an address that is an id *)
#[global] Instance toy_addrs : EndpointAddrs := {| EndpointAddr := bytes; addr_id a := a |}.
Definition token_request_rows (q : JoinRequest) : list (list N) :=
  [[jr_peer_id q]; Byte.to_N <$> jr_verifying_key q; Byte.to_N <$> jr_proof q].
Definition rows_token_request (x : list (list N)) : option JoinRequest :=
  match x with [[p]; k; s] => Some (mkTokenRequest (byte_of_N <$> k) p (byte_of_N <$> s)) | _ => None end.
Lemma rows_token_request_rows q : rows_token_request (token_request_rows q) = Some q.
Proof. destruct q. simpl. by rewrite !bytes_rows. Qed.
#[global] Instance token_request_json : JsonOf JoinRequest := toy_json token_request_rows rows_token_request.
#[global] Instance token_request_json_text : JsonText JoinRequest := toy_json_text _ _ rows_token_request_rows.
Definition token_rows (t : PairingToken) : list (list N) :=
  [[pt_peer_id t; expires_at_unix_secs t]; Byte.to_N <$> (pt_addr t : bytes); Byte.to_N <$> pt_verifying_key t;
   Byte.to_N <$> pt_vault t; Byte.to_N <$> pt_secret t].
Definition rows_token (x : list (list N)) : option PairingToken :=
  match x with
  | [[p; e]; a; k; v; s] => Some (mkToken (byte_of_N <$> a : bytes) (byte_of_N <$> k) p (byte_of_N <$> v) (byte_of_N <$> s) e)
  | _ => None
  end.
Lemma rows_token_rows t : rows_token (token_rows t) = Some t.
Proof. destruct t. simpl. by rewrite !bytes_rows. Qed.
#[global] Instance token_json : JsonOf PairingToken := toy_json token_rows rows_token.
#[global] Instance token_json_text : JsonText PairingToken := toy_json_text _ _ rows_token_rows.

(** ** The devices *)
Definition x_vault : bytes := replicate 32 Byte.x06.
Definition x_vault_key : bytes := replicate 32 Byte.x01.
Definition x_secret : bytes := replicate 32 Byte.x09.
Definition a_addr : @EndpointAddr toy_addrs := id_key ex_id.
Definition d_new : VStore := mkStore ex_root d_dev a_doc 0 [] None mem_empty.
Definition many (_ : nat) : nat → bytes * bytes := x_wraps.
Abbreviation d_adopted := (adopt_accept pick_first 5 d_accept (id_key ex_id) d_new).
Definition d_joined : Joined := Eval vm_compute in match d_adopted.1 with Ok a => a | Err _ => mkJoined [] [] 0 end.
#[local] Instance iw_conn : Conn Pipe := be_conn (id_key d_dev).
#[local] Instance iw_listener : Listener Pipe := be_listener 1000.

Lemma fits_eval (b : bytes) : (N.of_nat (length b) <=? MAX_MSG_LEN)%N = true → fits_msg b.
Proof. apply N.leb_le. Qed.

Abbreviation shown w := (host_pairing x_secret ex_id x_vault x_vault_key Writer a_store a_addr w).
Abbreviation a_enrols := (enrol_joiner pick_first 5 (many 0) ex_id x_vault x_vault_key Writer (id_key d_dev) (id_peer d_dev) a_store).
Lemma a_accepts : a_enrols.1 = Ok d_accept.
Proof. by_eval. Qed.
Lemma a_accept_fits accept s' : a_enrols = (Ok accept, s') → fits_msg (utf8 (to_json accept)).
Proof. intros Hen. pose proof a_accepts as E. rewrite Hen in E. injection E as ->. apply fits_eval. by_eval. Qed.
Lemma token_pairs_witness :
  ∃ a b t h' accept, token_decode (shown (mkPipe [] [])).1 = Some t ∧
    token_accept_auto pick_first 5 1 many (shown (mkPipe a [])).2 = (Ok (id_peer d_dev), h') ∧
    ih_world h' = mkPipe [] b ∧ member (ih_store h') (id_peer d_dev) Writer (id_key d_dev) ∧
    ja_vault accept = x_vault ∧ ja_vault_key accept = x_vault_key ∧ Some (ja_founder accept) = founder a_store ∧
    let adopted := adopt_accept pick_first 5 accept (id_key ex_id) d_new in
    run_join pick_first 5 d_dev t (mkJoiner (mkPipe b []) d_new) =
      (match adopted.1 with Ok _ => Ok (x_vault_key, ja_founder accept) | Err e => Err (IPair e) end, mkJoiner (mkPipe [] a) adopted.2).
Proof.
  apply (token_pairs (id_key d_dev) 1000 pick_first 5 ex_id d_dev x_vault x_vault_key x_secret Writer a_store d_new a_addr many).
  - reflexivity.
  - reflexivity.
  - exact a_can_enrol.
  - apply fits_eval. by_eval.
  - exact a_accept_fits.
Defined.
(** [D]'s empty vault takes the accept. *)
Lemma d_adopts : d_adopted.1 = Ok d_joined ∧ jd_vault_key d_joined = x_vault_key ∧ Some (jd_founder d_joined) = founder a_store.
Proof. split; [by_eval|split; by_eval]. Qed.

(** ** What the hosts enrolled *)
Definition d_request : bytes := framed_be (utf8 (to_json (request_for d_dev x_secret))).
Abbreviation token_run := (token_accept_for pick_first 5 1 many 1000 (shown (mkHeard (mkPipe d_request []) [])).2).
Lemma token_enrols_only_proved_witness :
  role_of (ih_store token_run.2) (id_peer d_dev) = Some Writer ∧
  rtc (admits pick_first 5 (token_proved x_secret) (hlog token_run.2) (ex_id, x_vault, x_vault_key, Writer)) a_store (ih_store token_run.2) ∧
  ∃ key, token_proved x_secret (hlog token_run.2) key (id_peer d_dev).
Proof.
  split; [by_eval|].
  destruct (token_enrols_only_proved pick_first 5 x_secret 1 many 1000 (shown (mkHeard (mkPipe d_request []) [])).2 token_run.1 token_run.2)
    as (Hr&_&Hp); [done|apply surjective_pairing|]. split; [exact Hr|]. apply Hp. by_eval.
Defined.

(** A host whose token expired long before a connection was waiting. *)
Definition late : IrohHost TokenSecret Pipe VStore :=
  mkIrohHost (mkPipe d_request []) (mkTokenSecret x_secret 500) ex_id x_vault x_vault_key Writer a_store.
Abbreviation late_run := (token_handshake pick_first 5 (many 0) late).
Lemma expired_token_admits_witness :
  token_accept_auto pick_first 5 1 many late = (Ok (id_peer d_dev), at_world (ls_close (cn_closed (ih_world late_run.2))) late_run.2) ∧
  role_of (ih_store late_run.2) (id_peer d_dev) = Some Writer.
Proof.
  split; [|by_eval]. apply (expired_token_admits pick_first 5 0 many late (mkPipe d_request []) (id_peer d_dev) late_run.2).
  - vm_compute. discriminate.
  - reflexivity.
  - by_eval.
Defined.

(** *** With a code *)
Definition x_rng0 : HostRng := mkHostRng (λ _, []) many.
Definition d_draws : list N := [123456%N].
Abbreviation armed w := (host_lan_pairing ex_id x_vault x_vault_key Writer a_store (id_key ex_id) d_draws w).
Lemma lan_pairs_witness :
  ∃ a b h h', armed (mkPipe a []) = Some (x_code, h) ∧
    lan_accept_auto pick_first 5 1 x_rng0 h = (Ok (id_peer d_dev), h') ∧
    ih_world h' = mkPipe [] b ∧ ih_store h' = d_enrolled.2 ∧ attempts_left (ih_auth h') = MAX_ATTEMPTS ∧
    run_lan_join pick_first 5 [] (id_key d_dev) d_dev (id_key ex_id) x_code None (mkJoiner (mkPipe b []) d_new) =
      (Ok (x_vault, x_vault_key, jd_founder d_joined), mkJoiner (mkPipe [] a) d_adopted.2).
Proof.
  apply (lan_pairs (id_key d_dev) 1000 pick_first 5 ex_id d_dev x_vault x_vault_key (id_key ex_id) [] Writer x_rng0 a_store d_enrolled.2
    d_new d_adopted.2 d_draws x_code (mkIrohHost (mkPipe [] []) (responder_new x_code (id_key ex_id)) ex_id x_vault x_vault_key Writer a_store)
    d_accept d_joined).
  - by_eval.
  - done.
  - by_eval.
  - by_eval.
  - by_eval.
  - apply fits_eval. by_eval.
  - apply fits_eval. by_eval.
  - intros k. split; apply fits_eval; by_eval.
Defined.

(** A peer that knows the code of nobody: 32 bytes that are not the confirmation. *)
Definition lan_guess : Heard Pipe := mkHeard (mkPipe (framed_be [Byte.x09] ++ framed_be (replicate 32 Byte.x00)) []) [].
Abbreviation guess_host := (mkIrohHost lan_guess (responder_new x_code (id_key ex_id)) ex_id x_vault x_vault_key Writer a_store).
Abbreviation guess_run := (lan_accept_for pick_first 5 1 x_rng0 1000 guess_host).
Lemma lan_enrols_only_proved_witness :
  attempts_left (ih_auth guess_run.2) = 2 ∧
  rtc (admits pick_first 5 (lan_proved x_code (id_key ex_id) x_rng0) (hlog guess_run.2) (ex_id, x_vault, x_vault_key, Writer))
    a_store (ih_store guess_run.2).
Proof.
  split; [by_eval|].
  destruct (lan_enrols_only_proved pick_first 5 x_code (id_key ex_id) x_rng0 1 1000 guess_host guess_run.1 guess_run.2)
    as (Hr&_&_); [done|done|apply surjective_pairing|exact Hr].
Defined.
