(* ===== verification/TransportWitnesses.v ===== *)
(** * The transport on concrete interleavings

    A reconnect that races a revoke, two dials that race, and the two ways in which a
    revoked peer stays connected. *)
From S2P Require Import Prelude RustStr Vfs Roster Wire Keychain Engine Relay Pairing Share PairingIroh Transport TransportSpec.
From S2P Require Import Models Witnesses.
From Stdlib Require Import Strings.Byte.

Definition b_key : bytes := replicate 32 Byte.x07.
Definition b_id : u64 := Eval vm_compute in derived_peer_id b_key.
Definition b_routes : gmap u64 bytes := {[b_id := b_key]}.
Abbreviation go es := (tp_run map_to_list es (tp_spawn b_routes)).
Definition at_end (es : list TEvent) : Transport := default (tp_spawn ∅) (go es).
Definition remove_now : list TEvent := CallRemove 0 b_id :: replicate 4 (RunRemove 0).

(** The reconnect 1 passes the gate before the route goes and registers after the revoke has looked. *)
Definition raced : list TEvent :=
  Incoming true b_key :: replicate 5 (RunAccept 0 Done) ++
  Incoming true b_key :: replicate 2 (RunAccept 1 Done) ++ remove_now ++ replicate 3 (RunAccept 1 Done).
Lemma revoke_ends_readers_witness :
  go raced = Some (at_end raced) ∧ tp_accepts (at_end raced) !! 0 = Some (AcRead b_key b_id) ∧
  0 ∈ tp_closed (tp_shared (at_end raced)) ∧ ∀ f, tp_step map_to_list (RunAccept 0 (Arrives f)) (at_end raced) = None.
Proof.
  assert (go raced = Some (at_end raced)) as Hrun by by_eval.
  destruct (revoke_ends_readers map_to_list (λ m, Permutation_refl _) b_routes raced (at_end raced)) as [_ Hr].
  - intros p k Hp. unfold b_routes in Hp. apply lookup_singleton_Some in Hp as [<- <-]. by_eval.
  - repeat constructor.
  - exact Hrun.
  - split; [exact Hrun|]. split; [by_eval|]. apply (Hr b_id) with (key := b_key) (p := b_id).
    + by_eval.
    + assert (tp_removes (at_end raced) = ∅) as He by by_eval. intros (i&x&Hi&_). rewrite He in Hi. by rewrite lookup_empty in Hi.
    + by_eval.
    + by left.
Defined.

Definition two_dials : list TEvent :=
  [CallDial 0 b_id; CallSend 1 b_id Ping; RunCall 0 Done; RunCall 1 Done; RunCall 0 Done; RunCall 0 Done; RunCall 0 Done; RunCall 0 Done;
   RunCall 0 Done; RunCall 0 Done].
Lemma dial_exclusive_witness : tp_conns (tp_shared (at_end two_dials)) !! b_id = None ∧ tp_calls (at_end two_dials) !! 0 = Some (DlInsert b_id 0 None).
Proof.
  split; [|by_eval]. destruct (dial_exclusive map_to_list b_routes two_dials (at_end two_dials)) as [_ Hn]; [by_eval|].
  apply (Hn 0 b_id 0 None). by_eval.
Defined.

(** ** What a revoke leaves open *)
Definition dial_begun : list TEvent := CallDial 0 b_id :: replicate 5 (RunCall 0 Done).
Definition dial_ended : list TEvent := replicate 3 (RunCall 0 Done).
Definition send_ping : list TEvent := CallSend 1 b_id Ping :: replicate 3 (RunCall 1 Done).
Abbreviation race_end := (at_end (dial_begun ++ remove_now ++ dial_ended)).
Abbreviation after es := (default (tp_spawn ∅) (tp_run map_to_list es race_end)).

(** A dial that is under way undoes a revoke: when remove_route runs from beginning to end while a dial of the
    peer waits for its connection, the dial then caches its stream all the same; nothing is
    left to do, the peer has no route, and yet a frame sent to it is written, because send
    reuses a cached stream without asking for a route. *)
Theorem revoked_dial_survives :
  go (dial_begun ++ remove_now ++ dial_ended) = Some race_end ∧
  tp_routes (tp_shared race_end) = ∅ ∧ tp_removes race_end = ∅ ∧ tp_calls race_end !! 0 = Some (CallDone (Ok tt)) ∧
  tp_conns (tp_shared race_end) !! b_id = Some 0 ∧
  tp_run map_to_list send_ping race_end = Some (after send_ping) ∧ tp_calls (after send_ping) !! 1 = Some (CallDone (Ok tt)).
Proof. split_and!; by_eval. Qed.

Abbreviation quiet_end := (at_end (dial_begun ++ dial_ended ++ remove_now)).
(** A revoke does not end the reader of a connection this side dialled: the peer is dialled, then removed,
    with no race at all; its route and its cached stream are gone, but the reader of the
    dialled connection still runs on an open connection, and a frame that the
    revoked peer writes on it is put into the queue under the peer's id. *)
Theorem dialled_reader_survives :
  go (dial_begun ++ dial_ended ++ remove_now) = Some quiet_end ∧
  tp_routes (tp_shared quiet_end) = ∅ ∧ tp_removes quiet_end = ∅ ∧ tp_conns (tp_shared quiet_end) = ∅ ∧
  tp_readers (tp_shared quiet_end) !! 0 = Some b_id ∧
  (tp_queue ∘ tp_shared <$> tp_step map_to_list (Reader 0 (Arrives Ping)) quiet_end) = Some [(b_id, Ping)].
Proof. split_and!; by_eval. Qed.
