(* ===== verification/HttpWitnesses.v ===== *)
(** * The HTTP clients at work

    A network that hands each request to the relay and brings its reply back whole; on it
    the theorems of HttpSpec.v are applied to concrete requests.  The races that the store of
    ciphertexts does not exclude are evaluated. *)
From S2P Require Import Prelude RustStr Vfs Roster Wire Logs Keychain Blob Trust Store StoreRoster StoreSync.
From S2P Require Import StoreKeys Checkpoint Paths Snapshots Relay RelaySync Pairing Http RelayServer HttpSpec.
From S2P Require Import Models SyncModels RelayModels.

(** ** JSON of listings *)
Definition sessions_json_rows (s : Sessions) : list (list N) := ss_sessions s.
#[global] Instance sessions_json : JsonOf Sessions := toy_json sessions_json_rows (λ x, Some (mkSessions x)).
#[global] Instance sessions_json_text : JsonText Sessions.
Proof. apply toy_json_text. by intros []. Qed.
Definition listing_rows (m : Manifest) : list (list N) :=
  [N.of_nat (length (entry_ids m)); N.of_nat (length (blob_ids m)); if snapshot_wanted m then 1 else 0]%N ::
  entry_ids m ++ blob_ids m ++ snapshot_ids m.
Definition rows_listing (x : list (list N)) : option Manifest :=
  match x with
  | [n; b; w] :: x =>
      let rest := drop (N.to_nat n) x in
      Some (mkServerManifest (take (N.to_nat n) x) (take (N.to_nat b) rest) (drop (N.to_nat b) rest) (w =? 1)%N)
  | _ => None
  end.
#[global] Instance listing_json : JsonOf Manifest := toy_json listing_rows rows_listing.
#[global] Instance listing_json_text : JsonText Manifest.
Proof.
  apply toy_json_text. intros [e b s w]. unfold rows_listing, listing_rows. cbn [entry_ids blob_ids snapshot_ids snapshot_wanted].
  rewrite !Nat2N.id, drop_app_length, !take_app_length, drop_app_length. by destruct w.
Qed.

(** ** The network *)
Definition net_base : rstring := http_base (str "https://relay.example/").
Definition net_segments (url : rstring) : list rstring := drop 1 (split_on SLASH (drop (length net_base) url)).
Definition net_response (y : Reply) : Response :=
  mkResponse (ry_status y) (Some (N.of_nat (length (ry_body y))))
    (λ n, Some ((if decide (ry_body y = []) then [] else [ry_body y]) !! n)).
#[global] Instance net_http : Http Relay := {|
  http_send m url body r := let '(y, r') := serve elements 1000 m (net_segments url) body r in (Ok (net_response y), r') |}.
#[global] Instance net_clock : Clock Relay := {| ck_now _ := 0%Z; ck_sleep _ r := r |}.

Lemma plain_no_slash s : plain s → SLASH ∉ s.
Proof. intros [_ Hall] Hs. rewrite forallb_forall in Hall. by specialize (Hall SLASH (proj1 (list_elem_of_In _ _) Hs)). Qed.
Lemma net_segments_of segments : Forall plain segments → net_segments (url_of net_base segments) = segments.
Proof.
  intros Hs. unfold net_segments, url_of. rewrite drop_app_length. induction Hs as [|s l Hp _ IH]; [done|].
  cbn [fmap list_fmap concat app split_on]. rewrite decide_True by done. rewrite skipn_cons, drop_0.
  destruct l as [|s' l]; [simpl; rewrite app_nil_r; apply split_on_no_sep; by apply plain_no_slash|].
  cbn [fmap list_fmap concat app] in *. rewrite split_on_app by (by apply plain_no_slash). f_equal.
  cbn [split_on] in IH. rewrite decide_True in IH by done. exact IH.
Qed.
Lemma net_delivers y : delivers (net_response y) y.
Proof.
  split_and!; [done|by intros n [= <-]|]. exists (if decide (ry_body y = []) then [] else [ry_body y]).
  simpl. case_decide as Hb; simpl.
  - by rewrite Hb.
  - rewrite app_nil_r. split_and!; [done|by repeat constructor|done].
Qed.
Lemma net_carries m segments body r :
  Forall plain segments →
  ∃ resp, http_send m (url_of net_base segments) body r = (Ok resp, (serve elements 1000 m segments body r).2) ∧
    delivers resp (serve elements 1000 m segments body r).1.
Proof.
  intros Hs. exists (net_response (serve elements 1000 m segments body r).1). split; [|apply net_delivers].
  cbn [http_send net_http]. rewrite net_segments_of by done. by destruct (serve _ _ _ _ _ _).
Qed.
Lemma net_ls X : elements X ≡ₚ elements (X : gset rstring).
Proof. done. Qed.
Definition net_fuel : nat := N.to_nat (N.succ MAX_RESPONSE_BYTES).
Lemma net_fuel_enough : (MAX_RESPONSE_BYTES < N.of_nat net_fuel)%N.
Proof. unfold net_fuel. rewrite N2Nat.id. apply N.lt_succ_diag_r. Qed.
#[global] Opaque net_fuel.

(** ** The store of ciphertexts *)
Definition bucket1 : rstring := str "bucket".
Definition net_ops : list ItemOp :=
  [PutItem KEntries bucket1 (str "entry-1") [Byte.x01; Byte.x02]; GetItem KEntries bucket1 (str "entry-1");
   PutItem KEntries bucket1 (str "entry-1") [Byte.x09]; GetItem KEntries bucket1 (str "entry-1");
   GetItem KBlobs bucket1 (str "entry-1"); Compare bucket1 KEntries []].
Definition no_relay : Relay := mkRelay ∅ ∅.
Lemma http_backend_refines_witness :
  ask_all (HB := HttpBackend net_base net_fuel) net_ops no_relay = ask_all net_ops mb_empty ∧
  ask_all net_ops mb_empty =
    [APut Created; AItem (Some [Byte.x01; Byte.x02]); APut Exists; AItem (Some [Byte.x01; Byte.x02]); AItem None; AReply []].
Proof.
  assert (ask_all net_ops mb_empty =
    [APut Created; AItem (Some [Byte.x01; Byte.x02]); APut Exists; AItem (Some [Byte.x01; Byte.x02]); AItem None; AReply []]) as E
    by (vm_compute; reflexivity).
  split; [|exact E]. apply (http_backend_refines net_base net_fuel elements 1000 net_ls net_carries net_fuel_enough).
  - unfold net_ops. repeat (constructor; [repeat split; discriminate|]). constructor.
  - rewrite E. repeat (constructor; [first [exact I|discriminate]|]). constructor.
  - intros k b i. by destruct k.
  - apply map_Forall_empty.
Defined.

(** ** The mailbox *)
Definition rdv1 : rstring := repeat 97%N 43.
Definition session1 : rstring := repeat 98%N 43.
Lemma good_rdv1 : good_session rdv1.
Proof. split; [split; [discriminate|]|]; vm_compute; reflexivity. Qed.
Lemma good_session1 : good_session session1.
Proof. split; [split; [discriminate|]|]; vm_compute; reflexivity. Qed.
Definition one_session : MemoryMailbox := mkMemoryMailbox {[(session1, Msg1) := [Byte.x01]]} 0.
Definition one_relay : Relay := mkRelay ∅ {[(rdv1, session1, slot_as_str Msg1) := [Byte.x01]]}.
Lemma http_mailbox_refines_witness :
  let Mb := HttpMailbox net_base rdv1 net_fuel in
  mx_get (Mailbox := Mb) session1 Msg1 one_relay = (Ok (Some [Byte.x01]), one_relay) ∧
  mx_sessions (Mailbox := Mb) one_relay = (Ok [session1], one_relay) ∧
  (mx_put (Mailbox := Mb) session1 Msg1 [Byte.x02] one_relay).1 = Ok AlreadyTaken.
Proof.
  destruct (http_mailbox_refines net_base net_fuel elements 1000 net_carries net_fuel_enough rdv1 good_rdv1
    one_relay one_session session1 Msg1 [Byte.x02]) as (Hg&Hs&Hp).
  - exact good_session1.
  - done.
  - apply (same_slots_insert rdv1 no_relay (mkMemoryMailbox ∅ 0)); [exact good_session1|]. split.
    + intros se name. cbn [rl_slots slots no_relay]. rewrite lookup_empty. by destruct (slot_parse name).
    + intros se sl [b Hb]. done.
  - apply map_Forall_singleton. done.
  - split_and!; [exact Hg|apply Hs; by vm_compute|]. destruct Hp as [[[Hno _] _]|[_ (r'&->&_)]]; [|done].
    specialize (Hno Msg1). vm_compute in Hno. discriminate.
Defined.

(** ** Requests that race *)
Definition race_es : list WEvent := [Arrive 0 [Byte.x01]; Arrive 1 [Byte.x02]; Call 0; Call 1; Call 0; Call 1; Call 1; Call 0; Call 0].
Definition raced : Path_ := mkPath (Some [Byte.x02]) (<[0 := WrDone false]> (<[1 := WrDone true]> ∅)).
Lemma slot_written_once_witness :
  write_run (run_slot_writer true) race_es (mkPath None ∅) = Some raced ∧
  (∃ i, Arrive i [Byte.x02] ∈ race_es) ∧
  (∀ i j, wr_tasks raced !! i = Some (WrDone true) → wr_tasks raced !! j = Some (WrDone true) → i = j) ∧
  ∀ es' p' b, write_run (run_slot_writer true) es' raced = Some p' → wr_file raced = Some b → wr_file p' = Some b.
Proof.
  assert (write_run (run_slot_writer true) race_es (mkPath None ∅) = Some raced) as E by (vm_compute; reflexivity).
  split; [exact E|]. destruct (slot_written_once true race_es raced E) as (_&H2&_&H4). destruct (H4 eq_refl) as [H5 H6].
  exact (conj (H2 _ eq_refl) (conj H5 H6)).
Defined.
(** Without hard links two writers of one slot can both be answered that they created it, and the second replaces
    the first one's bytes. *)
Theorem slow_path_race :
  ∃ es es' p p', write_run (run_slot_writer false) es (mkPath None ∅) = Some p ∧ wr_tasks p !! 0 = Some (WrDone true) ∧
    wr_file p = Some [Byte.x01] ∧ write_run (run_slot_writer false) es' p = Some p' ∧
    wr_tasks p' !! 1 = Some (WrDone true) ∧ wr_file p' = Some [Byte.x02].
Proof.
  exists ([Arrive 0 [Byte.x01]; Arrive 1 [Byte.x02]] ++ concat (replicate 5 [Call 0; Call 1]) ++ [Call 0]), [Call 1].
  eexists _, _. split_and!; vm_compute; reflexivity.
Qed.

(** The store of ciphertexts does not write once when requests race: both writers of one id find
    no file, both are answered that they created it, and the second replaces what the
    first wrote. *)
Theorem store_put_race :
  ∃ es p, write_run run_store_writer es (mkPath None ∅) = Some p ∧ wr_tasks p !! 0 = Some (WrDone true) ∧
    wr_tasks p !! 1 = Some (WrDone true) ∧
    ∃ es1 es2 p1, es = es1 ++ es2 ∧ write_run run_store_writer es1 (mkPath None ∅) = Some p1 ∧
      wr_tasks p1 !! 0 = Some (WrDone true) ∧ wr_file p1 = Some [Byte.x01] ∧ wr_file p = Some [Byte.x02].
Proof.
  eexists ([Arrive 0 [Byte.x01]; Arrive 1 [Byte.x02]; Call 0; Call 1; Call 0; Call 1; Call 0] ++ [Call 1]), _.
  do 3 (split; [vm_compute; reflexivity|]). do 3 eexists. split; [reflexivity|].
  split_and!; vm_compute; reflexivity.
Qed.
(** A newline passes the check of ids in the last place, for the store and for the mailbox,
    though not within an id. *)
Theorem newline_id_accepted :
  store_valid_id (str "entry-1" ++ [NEWLINE]) = true ∧ mail_valid_id (repeat 97%N 42 ++ [NEWLINE]) = true ∧
  store_valid_id (str "entry" ++ [NEWLINE] ++ str "1") = false.
Proof. vm_compute. by split_and!. Qed.
