(* ===== verification/BrowserWitnesses.v ===== *)
(** * The browser's vault at work

    JSON values as rows, a decoder for the commands that are used, a document that tells
    which entries it holds; on them the theorems of BrowserSpec.v are applied, and the
    reply to a command that fails half-way is evaluated. *)
From S2P Require Import Prelude RustStr Vfs VfsPool Roster Wire Logs Keychain Blob Trust Store StoreRoster StoreSync.
From S2P Require Import StoreKeys Checkpoint Textdiff Rebase Paths Bridge BridgeSpec StoreEdit Snapshots Relay RelaySpec Pairing Browser BrowserSpec.
From S2P Require Import Models FilesModels SyncModels RelayModels Witnesses.

(** ** Requests and replies: objects of strings and numbers *)
Definition value_row (v : Value) : list N :=
  match v with VString s => 1%N :: s | VNum z => [2; Z.to_N z] | VArray l => [3; N.of_nat (length l)] | _ => [0] end%N.
Definition row_value (x : list N) : Value :=
  match x with 1%N :: s => VString s | [2%N; n] => VNum (Z.of_N n) | _ => VNull end.
Definition value_rows (v : Value) : list (list N) := match v with VObject l => l ≫= λ x, [x.1; value_row x.2] | _ => [] end.
Fixpoint row_fields (x : list (list N)) : list (rstring * Value) :=
  match x with k :: v :: x => (k, row_value v) :: row_fields x | _ => [] end.
#[global] Instance value_json : JsonOf Value := toy_json value_rows (λ x, Some (VObject (row_fields x))).
Definition text_field (k : string) (v : Value) : option rstring := field (str k) v ≫= λ x, match x with VString s => Some s | _ => None end.
#[global] Instance some_commands : CommandOf := {| command_of v :=
  c ← text_field "command" v;
  if decide (c = str "setEntry") then
    m ← text_field "container" v; k ← text_field "key" v; x ← text_field "value" v; Some (SetEntry m k x)
  else if decide (c = str "peerId") then Some PeerId
  else if decide (c = str "putBlob") then Some PutBlob
  else if decide (c = str "getBlob") then h ← text_field "hash" v; Some (GetBlob h)
  else None |}.
Definition set_entry_request : rstring :=
  to_json (VObject [(str "id", VNum 7); (str "command", VString (str "setEntry")); (str "container", VString FILESET_MAP_ID);
                    (str "key", VString (str "k")); (str "value", VString (str "v"))]).
Definition put_blob_request : rstring := to_json (VObject [(str "id", VNum 6); (str "command", VString (str "putBlob"))]).
(** A document that tells which entries it holds. *)
#[global] Instance told_history : DocHistory TextDoc := {|
  oplog_frontier d := replicate (td_edits d) Byte.x01;
  frontier_ok _ := true; shallow_snapshot _ _ := Ok []; hashes_at _ _ := Ok []; hashes_latest _ := [] |}.
#[global] Instance told_delta : DocDelta TextDoc := {|
  doc_map_delta from to d := Ok (if decide (from = to) then [] else (λ x, mkMapChange FILESET_MAP_ID x.1 (Some x.2)) <$> map_to_list (td_map d)) |}.
Definition no_text (e : SessionError) : rstring := str "failed".
Definition chance : Chance := mkChance (mkOracle (λ _, ([], [])) [] (λ _, []) (λ _, []) [] 0 0) 0 [] [] (λ _, ([], [])).

(** ** Founding, a request, and opening again *)
Abbreviation open_mem := (vault_open (Fs := MemState) (Doc := TextDoc) (Ver := nat) pick_first 5).
Definition founded := open_mem (replicate 32 Byte.x01) (replicate 32 Byte.x02) (replicate 32 Byte.x03) mem_empty.
Definition founded_vault : Vault (Store MemState TextDoc nat) :=
  match founded.1 with Ok v => v | Err _ => mkVault (mkStore ROOT ex_id (mkTextDoc ∅ ∅ 0) 0 [] None mem_empty) [] ex_id [] end.
Abbreviation asked_once := (session_all pick_first 5 5 no_text [(chance, set_entry_request, None)] (mkSession founded_vault mb_empty)).2.
Lemma browser_paths (q : path) : ROOT `prefix_of` q → fs_path (Fs := MemState) q.
Proof. intros _. exact I. Qed.
(** What is checked of a vault that opens. *)
Definition opened_as (id : Identity) (vid : bytes) (x : result VaultError (Vault (Store MemState TextDoc nat)) * MemState) : Prop :=
  match x with (Ok v, _) => va_identity v = id ∧ va_vault_id v = vid ∧ self_role (va_store v) = Some Admin | _ => False end.
Abbreviation after_request := (fs (va_store (se_vault asked_once))).
Lemma store_reopens :
  opened_as (va_identity founded_vault) (replicate 32 Byte.x02)
    match open_with_fs pick_first 5 ROOT (va_identity founded_vault) after_request with
    | (Ok s, f2) => (Ok (mkVault s (replicate 32 Byte.x03) (va_identity founded_vault) (va_vault_id founded_vault)), f2)
    | (Err e, f2) => (Err (VStore e), f2)
    end.
Proof. vm_compute. by split_and!. Qed.
Lemma founded_made : founded = (Ok founded_vault, founded.2).
Proof.
  unfold founded_vault. assert (is_ok founded.1 = true) as E by (vm_compute; reflexivity).
  by destruct founded as [[v|e] f].
Qed.
Lemma vault_reopens_witness :
  made pick_first 5 founded_vault founded.2 ∧
  opened_as (va_identity founded_vault) (replicate 32 Byte.x02)
    (open_mem (replicate 32 Byte.x09) (replicate 32 Byte.x09) (replicate 32 Byte.x03) after_request).
Proof.
  assert (made pick_first 5 founded_vault founded.2) as Hm.
  { apply (made_open pick_first 5 (replicate 32 Byte.x01) (replicate 32 Byte.x02) (replicate 32 Byte.x03) mem_empty);
      [exact I|reflexivity|reflexivity|exact founded_made]. }
  split; [exact Hm|].
  rewrite (vault_reopens pick_first 5 5 no_text browser_paths founded_vault founded.2 mb_empty [(chance, set_entry_request, None)]
    (replicate 32 Byte.x09) (replicate 32 Byte.x09) (replicate 32 Byte.x03) Hm). exact store_reopens.
Defined.

(** ** A command that fails half-way *)
Abbreviation open_pool := (vault_open (Fs := PoolState) (Doc := TextDoc) (Ver := nat) pick_first 5).
(** Six slots: a vault, and a blob in the last one. *)
Definition small_pool : PoolState := mkPool (replicate 6 []) ∅ ∅ (List.seq 0 6).
Definition full_session : option (Session (Store PoolState TextDoc nat) MemoryBackend) :=
  match open_pool (replicate 32 Byte.x01) (replicate 32 Byte.x02) (replicate 32 Byte.x03) small_pool with
  | (Ok v, _) => Some (session_handle pick_first 5 5 no_text chance put_blob_request (Some [Byte.x05]) (mkSession v mb_empty)).2
  | _ => None
  end.
Definition half_reply : Value := envelope (VNum 7) (Err (str "failed")) [mkMapChange FILESET_MAP_ID (str "k") (Some (str "v"))].
(** The reply to a command that fails half-way carries both an error and the changes: with the storage full, setting an
    entry changes the document and then fails to append to the log; the caller is told of the
    error and, in the same envelope, of the entry that changed, although the session's
    comments say that the changes are dropped on that path. *)
Theorem failed_reply_tells_changes :
  ∃ x, full_session = Some x ∧
    (session_handle pick_first 5 5 no_text chance set_entry_request None x).1 = mkSessionReply (to_json half_reply) None ∧
    field (str "error") half_reply = Some (VString (str "failed")) ∧
    field (str "changes") half_reply = Some (VArray [change_value (mkMapChange FILESET_MAP_ID (str "k") (Some (str "v")))]).
Proof.
  assert (match full_session with
          | Some x => bool_decide (json (session_handle pick_first 5 5 no_text chance set_entry_request None x).1 = to_json half_reply) &&
                      bool_decide (reply_bytes (session_handle pick_first 5 5 no_text chance set_entry_request None x).1 = None)
          | None => false end = true) as E by (vm_compute; reflexivity).
  destruct full_session as [x|]; [|discriminate E]. exists x. apply andb_true_iff in E as [E1%bool_decide_eq_true E2%bool_decide_eq_true].
  split; [done|]. split; [|by split]. destruct (session_handle _ _ _ _ _ _ _ x).1 as [j b]. simpl in *. by subst.
Qed.
(** A signing key that is there but cannot be read is replaced: any failure to load it mints a new one over it. *)
Theorem unreadable_identity_replaced :
  let f := (mem_write IDENTITY [Byte.x00] mem_empty).2 in
  let '(r, f') := load_or_generate_identity (replicate 32 Byte.x01) f in
  r = Ok (generate (replicate 32 Byte.x01)) ∧ load_with_fs IDENTITY f' = Ok (generate (replicate 32 Byte.x01)) ∧
  mem_files f !! IDENTITY = Some [Byte.x00] ∧ mem_files f' !! IDENTITY ≠ Some [Byte.x00].
Proof. vm_compute. by split_and!. Qed.
